(* ===== verification/_CoqProject ===== *)
-Q . S2P
Prelude.v
GoTime.v
GoStrings.v
Errs.v
TimeFormat.v
TimeParse.v
Naming.v
Periods.v
Store.v
World.v
Logic.v
Repo.v
Scenario.v
Retry.v
Provisioner.v
Ensure.v
Retention.v
Sweep.v
Cutoff.v
Registry.v
Registration.v
Removal.v
AdvisoryLock.v
Locks.v
Drain.v
Query.v
Draining.v
DrainTotal.v
DrainScenario.v
Scheduler.v
Scheduling.v
SchedulerSpec.v
SchedulerRest.v
Maintainer.v
Maintenance.v
Wiring.v
Importer.v
BoundExpr.v
Import.v
Manager.v
Upkeep.v
Interleave.v
Concurrent.v
Requests.v
Alongside.v
Together.v
Race.v
Departure.v
Ticking.v
Daemon.v
Shutdown.v
Writers.v
Migrations.v
Examples.v
