(* ===== verification/Prelude.v ===== *)
(** * gopartman: a verification development

    gopartman is a Go library that manages range partitions in PostgreSQL.  It
    records parents, tenants and partitions in a metadata schema, creates the
    partitions to come (provisioner), retires the ones behind a retention
    cutoff (retention), and runs both periodically under a lock per parent
    (maintainer with its scheduler); a registry admits and removes parents and
    tenants, an importer reconciles partitions made elsewhere with the
    metadata, and a drain moves the rows of the default partition into the
    partitions they belong to.  A manager wires these together.  This library
    models all of them as executable Rocq functions and proves what each
    promises.

    ** Layers

    - [Prelude]: results, tactics, list lemmas.  [GoTime]: [time.Time] and
      [time.Duration] (nanoseconds, int64 wrap-around, the proleptic Gregorian
      calendar of [AddDate], [Date], [Truncate]).  [GoStrings], [TimeFormat],
      [TimeParse]: the [strings], [regexp], [time.Format] and [time.Parse]
      functions the source calls.
      [Errs] ([internal/errs]): sentinels, wrapping, [errors.Is].
    - [Naming] ([internal/naming]) and [Periods]
      ([internal/provisioner/bounds.go]): partition names and period
      arithmetic.
    - [Store] ([schema.sql] and the SQL of [internal/*/repo/queries.sql.go]):
      the three tables as lists of rows, one function per statement, the
      integrity [WF] of the schema.
    - [World]: what a call may do.  [M C A] is a state monad over the data base
      (the tables, and an opaque catalog [C]), the number of interactions so
      far and a trace of meter calls, whose outcome is a value, an error or a
      panic.  The class [Env] is everything the source does not decide: which
      statement fails and whether it took effect before, the DDL service, the
      clock, ids, randomness, cancellation, scan order, collation.  Theorems
      quantify over [Env]: "whatever fails" means for every fault schedule.
    - [Logic]: the judgements [Stable] (an effect every run respects),
      [triple], [succeeds] and the inversion lemmas; the tactic [stable] and
      the hint database of the same name follow the program.
    - [Repo] (the sqlc methods), [Retry] ([internal/retry]), [Provisioner],
      [Retention], [Registry], [Maintainer] (the packages of these names): the
      code, handler by handler, in the order of its guards and statements.
      [AdvisoryLock] ([maintainer/advisory_lock.go]): the two lock calls.
    - [Importer] ([internal/importer]): the bound-expression parser, the
      interval kinds and the reconciliation; [BoundExpr] prints bounds as
      PostgreSQL does and relates the parser to it.
    - [Drain] ([internal/drain]): the whole of [PartitionData], the texts of
      its SQL included.  [Query] says what these texts mean: a query is an
      abstract syntax tree, the code's strings are its rendering, and a table
      of typed rows gives it its result.
    - [Scheduler] ([maintainer/scheduler.go]): start, stop, loop and waiter as
      threads over a shared state; a step is what a goroutine does between two
      points where another can run.  [Locks]: workers of any number of
      processes, interleaved over PostgreSQL's session locks and the
      connection pool, both of them parameters; any session may end at any
      time.
    - [Wiring] ([options.go], [initInternals] and every component's [New] with
      its configuration), [Manager] ([manager.go], [drain.go], [clock.go]),
      [Migrations] ([migrations.go]).
    - [Interleave]: calls cut into atoms ([proc]), schedules of any number of
      them ([runs]), and three ways to reason about them: [obeys] (every atom
      respects a relation), [within] (it does in the worlds of an invariant)
      and the rely and guarantee triples [sound].
      [Concurrent] and [Requests] cut every call of a manager where the code
      goes to the data base; the [cuts] lemmas tie each to its call.
    - [Examples] ([examples/basic], [examples/multitenant] and the meter and
      clock of [internal/testsupport]): both [main]s, and what they print.
    - [Ensure], [Sweep], [Cutoff], [Registration], [Removal], [Maintenance],
      [Import], [Draining], [DrainTotal], [Scheduling], [SchedulerSpec],
      [SchedulerRest], [Upkeep]: the theorems on them.  [Scenario] and
      [DrainScenario]: concrete environments in which the witnesses evaluate.
      [Alongside], [Together], [Ticking], [Race], [Departure], [Writers]: the
      theorems on schedules.
    - [Daemon] ([Manager.Start], [Manager.Stop]): the goroutines of [Scheduler]
      with the atoms of a [Maintain] in every loop that is in one, next to any
      calls of others; [Shutdown] has the theorems and a scenario.

    ** Interfaces

    The registry is verified against the classes [Provisioning] and [Dropping]
    of [Registration], the maintainer against [Ensuring], [Sweeping],
    [Locking] and [Listing] of [Maintenance] and, for runs without failures,
    [Reliable] of [Upkeep]; the provisioner, the retention, the registry and
    the advisory lock are instances of them.  The drain is verified against
    [Heap] (what PostgreSQL does with the statements it builds, stated on
    the rows of the tables), [HeapAccepts] (it does not refuse them) and
    [HeapGuards] of [Writers] (it checks the partition constraint of the rows
    it inserts); [DrainScenario] and [Writers] have instances.  Workers are
    verified against [AdvisoryLocks] and [ConnPool] of [Locks] (what
    PostgreSQL and the pool promise), of which [Locks] has instances.  Calls
    next to others are verified against [Standing] of [Alongside], an invariant
    that the steps of the others keep: [consistent] is one from any consistent
    metadata, [healthy] of [Upkeep] one from a maintainable world ([Together]).
    Relations between worlds are instances of
    [Course] (what every run may do) or [Effect] (which does not see the meter)
    of [Logic]; [Tolerant] of [Requests] lists the statements a relation has to
    respect to be respected by whole requests, next to any others.

    ** What is shown

    - Names ([Naming]): [Build] and [Parse] are inverse exactly where the
      tenant heuristic is unambiguous; which names collide.  Periods
      ([Periods]): half-open periods partition the time line and the target
      set tiles it.
    - Store: the integrity of the schema is an invariant of all statements.
      [Manager], [Requests]: so it is of every history of requests, and of the
      requests of any number of processes in any order of their atoms, whatever
      fails, is cancelled or panics in them.
    - Concurrent processes: the atoms of a call are the call
      ([requests_in_atoms]);
      ticks, sweeps and calls of [EnsurePartitions] that run next to each other
      lose and spoil nothing ([Alongside]); from a maintainable world each
      still provides its target set, and no schedule goes on for ever
      ([Together]); a tick among others serves every
      parent but those it counts as locked ([Ticking]); of the registrations of
      one parent or tenant at most one returns ([Race]); a removal that returned
      lasts ([Departure]).
    - Retry: which errors are retried, how long, how often.
    - Provisioner ([Ensure]): only rows of the target set are added; all or
      nothing under any fault; idempotent; total when nothing fails.
    - Retention ([Sweep], [Cutoff]): only expired partitions are touched, by
      the DDL of their own tables; reports account for every candidate and
      agree with the metadata; dry runs change nothing; completeness.
    - Registry ([Registration], [Removal]): registration and removal are all
      or nothing with exactly the intended rows; verdicts; round trips.
    - Maintainer ([Maintenance]): panics and errors of one parent are
      contained, locks are released, opted-out parents are left alone, the
      integrity is kept.  [Upkeep]: a tick in which nothing fails leaves every
      parent under automatic maintenance up to date for all its tenants, in a
      [maintainable] world: no automatic parent is hourly, nothing foreign is
      on a name of a target set and no two pairs of a parent and a tenant share
      one.
    - Scheduler: it refines a machine of three phases under every
      interleaving ([SchedulerSpec]); a [stop] that returns nil has outlived
      the loops it was to stop ([Scheduling]); a stopped scheduler comes to
      rest ([SchedulerRest]).  With the ticks in it: at most one [Maintain] at a
      time and none that kills the process ([Daemon]); each serves its parents
      next to other processes; a [Stop] that returned leaves none in flight, and
      everything comes to an end ([Shutdown]).
    - Locks: no two workers whose sessions live hold a parent at a time; every
      worker at work holds its lock while its session lives, and no lock
      outlives its worker unless an unlock is lost.
    - Importer ([BoundExpr], [Import]): the report is exactly what names,
      bounds and metadata determine; only agreeing children are recorded and
      nothing is removed; an interval mismatch stops it before any write; a
      second import changes nothing; what the provisioner creates is accepted.
    - Drain: rows are conserved whatever fails ([Draining]); where no tenant is
      the empty string and no control value infinite, the drain ends, moves
      every row that has a partition and names the others ([DrainTotal]); its statements are well typed ([Query]).  Next to anybody
      who writes to the same tables, and however stale the ctids it has read,
      every atom of it conserves the rows, and a row only goes where the
      constraint of the partition admits it ([Writers]).
    - Construction ([Wiring]): [New] on every branch.  [Migrations]: the
      ascending order of the files.  [Examples]: the programs print what their
      READMEs say, a second time too.
    - Behaviours that contradict the documentation or the evident intention:
      [hourly_premake_lost], [naming_pitfalls],
      [zero_retention_drops_yesterday], [computeCutoff_month_end],
      [bound_literal_pitfalls], [import_phantom_tenant],
      [PartitionData_diverges], [anomaly_undercount], [moved_undercount],
      [restart_hazards], [lock_leak], [lock_lost].

    ** Bounds and abstractions

    Loops are structural (over the list they range over, the premake count,
    or the attempts of a retry) but one: the batches of a drain take fuel, and
    with more fuel than the default partition has rows an unlimited drain
    returns ([PartitionData_total]).  Durations and int32/int64 conversions
    wrap as in Go.  [float64] jitter is an exact rational.  A [timestamptz]
    keeps whole microseconds.  Error values keep their chain and format
    string, not the rendered text.  Strings are UTF-8 bytes; of the characters
    that are not ASCII only the two with an ASCII upper case are upper-cased
    ([GoStrings]).  Log output is left out (the clock readings
    of log lines are not).  [created_at] and [updated_at] are not kept.  In
    [World] a call runs in one piece: between two of its statements the data
    base does not change.  In [Interleave] it is cut at every interaction with
    the data base, the clock and the hook, down to one statement or one
    transaction, so transactions are taken as isolated from each other: the
    metadata writes in them are insertions that yield to an existing row, and
    updates of one row by its key.  Goroutines are interleaved in [Scheduler],
    and with the work of the ticks in [Daemon]; workers over the lock table in
    [Locks].

    ** Not modelled

    The PostgreSQL container of [internal/testsupport] (pure I/O) and the
    tests, log lines, the wall clock, what the SQL of the migrations does (its
    outcome, the schema, is [Store]; its text is in [Migrations]), type aliases
    of the facade.  That a
    drain moves every row that has a partition, and reports the others, is
    proved for a default partition that only it writes to: next to writers a
    row may be changed or replaced between the reading of its ctid and its
    move, so that only what every single move does is stated ([Writers]), with
    the move taken as one step as above. *)

From stdpp Require Export base tactics list numbers option relations sorting.
From Stdlib Require Export Ascii String ZArith Lia.
From stdpp Require Export strings.

(** String concatenation computes on a constructor. *)
#[global] Arguments String.append !_ _ / : simpl nomatch.

(** ** Results

    A Go function that returns [(T, error)] with a zero [T] on the error
    path is modelled by [result E T]. *)
Inductive result (E A : Type) : Type :=
| Ok (a : A)
| Err (e : E).
Arguments Ok {E A} a.
Arguments Err {E A} e.

#[export] Instance result_ret {E : Type} : MRet (result E) := λ A a, Ok a.
#[export] Instance result_bind {E : Type} : MBind (result E) :=
  λ A B k r, match r with Ok a => k a | Err e => Err e end.

#[export] Instance result_eq_dec {E A : Type} `{EqDecision E, EqDecision A} :
  EqDecision (result E A).
Proof. solve_decision. Defined.

(** [injection] reduces what it finds under the constructor; this does not. *)
Lemma Ok_inj {E A} (a b : A) : @Ok E A a = Ok b → a = b.
Proof. by injection 1. Qed.
Lemma Err_inj {E A} (a b : E) : @Err E A a = Err b → a = b.
Proof. by injection 1. Qed.
Lemma Ok_Err {E A} (a : A) (e : E) : Ok a = Err e → False.
Proof. done. Qed.

(** ** Tactics *)

(** Split every [match] on a hypothesis or goal whose scrutinee is not a
    variable, keep the equations, close absurd branches. *)
Ltac split_matches :=
  repeat (case_match; simplify_eq/=; try done).

(** Linear arithmetic with Euclidean division by constants. *)
Ltac dlia := Z.to_euclidean_division_equations; lia.

(** ** Lists, as the tables of the metadata store use them *)

Section lists.
Context {A B : Type}.
Implicit Types (l : list A) (f : A → B).

Lemma existsb_true (p : A → bool) l : existsb p l = true ↔ ∃ x, x ∈ l ∧ p x = true.
Proof. rewrite existsb_exists. setoid_rewrite list_elem_of_In. done. Qed.
Lemma existsb_false (p : A → bool) l : existsb p l = false ↔ ∀ x, x ∈ l → p x = false.
Proof.
  induction l as [|y l IH]; cbn.
  { split; [by intros _ ? ?%not_elem_of_nil|done]. }
  rewrite orb_false_iff, IH. setoid_rewrite elem_of_cons.
  split; [intros [? ?] x [->|?]; auto|intros Hp; split; auto].
Qed.

Lemma find_Some_elem (p : A → bool) l x : List.find p l = Some x → x ∈ l ∧ p x = true.
Proof. rewrite list_elem_of_In. apply find_some. Qed.
Lemma find_None_elem (p : A → bool) l x : List.find p l = None → x ∈ l → p x = false.
Proof. rewrite list_elem_of_In. intros. by eapply find_none. Qed.
Lemma find_app (p : A → bool) l l' :
  List.find p (l ++ l') = match List.find p l with Some x => Some x | None => List.find p l' end.
Proof. induction l as [|x l IH]; cbn; [done|]. by destruct (p x). Qed.

(** A column with unique values, under the deletion and insertion of rows. *)
Lemma NoDup_fmap_filter f (P : A → Prop) `{!∀ x, Decision (P x)} l :
  NoDup (f <$> l) → NoDup (f <$> filter P l).
Proof. intros Hl. eapply sublist_NoDup; [exact Hl|]. apply fmap_sublist, sublist_filter. Qed.

Lemma NoDup_fmap_filter_filter f (P Q : A → Prop)
    `{!∀ x, Decision (P x)} `{!∀ x, Decision (Q x)} l :
  NoDup (f <$> filter P l) → NoDup (f <$> filter P (filter Q l)).
Proof.
  intros Hl. eapply sublist_NoDup; [exact Hl|]. apply fmap_sublist.
  clear Hl. induction l as [|x l IH]; [done|].
  rewrite (filter_cons Q). case_decide; rewrite !(filter_cons P); case_decide;
    eauto using sublist_skip, sublist_cons.
Qed.

Lemma NoDup_fmap_snoc f l a :
  NoDup (f <$> l) → (∀ x, x ∈ l → f x ≠ f a) → NoDup (f <$> l ++ [a]).
Proof.
  intros Hl Ha. rewrite fmap_app. apply NoDup_app. split_and!; [done| |apply NoDup_singleton].
  intros y (x & -> & Hx)%list_elem_of_fmap Hy%list_elem_of_singleton. by eapply Ha.
Qed.

Lemma NoDup_omap_filter (g : A → option B) (P : A → Prop) `{!∀ x, Decision (P x)} l :
  NoDup (omap g l) → NoDup (omap g (filter P l)).
Proof.
  induction l as [|x l IH]; [done|]. rewrite filter_cons. cbn.
  destruct (g x) as [y|] eqn:E.
  - intros [Hy Hl]%NoDup_cons. case_decide; [|by apply IH].
    cbn. rewrite E. apply NoDup_cons. split; [|by apply IH].
    rewrite list_elem_of_omap. intros (z & [Hz ?]%list_elem_of_filter & ?).
    apply Hy, list_elem_of_omap. eauto.
  - intros Hl. case_decide; cbn; rewrite ?E; by apply IH.
Qed.

Lemma NoDup_omap_snoc (g : A → option B) l a :
  NoDup (omap g l) → (∀ x, x ∈ l → is_Some (g a) → g x ≠ g a) →
  NoDup (omap g (l ++ [a])).
Proof.
  intros Hl Ha. rewrite omap_app. apply NoDup_app. cbn. destruct (g a) as [b|] eqn:E.
  - split_and!; [done| |apply NoDup_singleton].
    intros y (x & Hx & Hg)%list_elem_of_omap ->%list_elem_of_singleton.
    by eapply Ha; eauto.
  - split_and!; [done| |apply NoDup_nil_2]. intros y _ []%not_elem_of_nil.
Qed.

(** ... and under an update [g] that does not touch it. *)
Lemma fmap_filter_update f (P : A → Prop) `{!∀ x, Decision (P x)} (g : A → A) l :
  (∀ x, f (g x) = f x) → (∀ x, P (g x) ↔ P x) →
  f <$> filter P (g <$> l) = f <$> filter P l.
Proof.
  intros Hf HP. induction l as [|x l IH]; [done|].
  rewrite fmap_cons, !filter_cons.
  destruct (decide (P (g x))) as [Hx|Hx]; rewrite (HP x) in Hx.
  - by rewrite decide_True, !fmap_cons, Hf, IH by done.
  - by rewrite decide_False, IH by done.
Qed.
Lemma omap_update (h : A → option B) (g : A → A) l :
  (∀ x, h (g x) = h x) → omap h (g <$> l) = omap h l.
Proof. intros Hh. induction l as [|x l IH]; [done|]. cbn. rewrite Hh. case_match; by rewrite <- IH. Qed.

(** Two rows with the same key are the same row. *)
Lemma NoDup_fmap_elem_eq f l x y :
  NoDup (f <$> l) → x ∈ l → y ∈ l → f x = f y → x = y.
Proof.
  induction l as [|z l IH]; [by intros _ ?%not_elem_of_nil|].
  rewrite fmap_cons. intros [Hz Hl]%NoDup_cons Hx Hy Hf.
  apply elem_of_cons in Hx as [->|Hx]; apply elem_of_cons in Hy as [->|Hy]; try done.
  - destruct Hz. rewrite Hf. by apply list_elem_of_fmap_2.
  - destruct Hz. rewrite <- Hf. by apply list_elem_of_fmap_2.
  - by apply IH.
Qed.
End lists.

Lemma Forall2_impl_elem {A B} (P Q : A → B → Prop) l k :
  Forall2 P l k → (∀ x y, x ∈ l → P x y → Q x y) → Forall2 Q l k.
Proof.
  induction 1 as [|x y l k HP _ IH]; intros HQ; constructor.
  - apply HQ; [by left|done].
  - apply IH. intros. apply HQ; [by right|done].
Qed.

Lemma Forall2_elem_l {A B} (P : A → B → Prop) l k x :
  Forall2 P l k → x ∈ l → ∃ y, y ∈ k ∧ P x y.
Proof.
  induction 1 as [|x' y l k HP _ IH]; [by intros ?%not_elem_of_nil|].
  intros [->|Hx]%elem_of_cons; [exists y; split; [by left|done]|].
  destruct (IH Hx) as (z & ? & ?). exists z. split; [by right|done].
Qed.

Lemma Forall2_elem_r {A B} (P : A → B → Prop) l k y :
  Forall2 P l k → y ∈ k → ∃ x, x ∈ l ∧ P x y.
Proof.
  induction 1 as [|x y' l k HP _ IH]; [by intros ?%not_elem_of_nil|].
  intros [->|Hy]%elem_of_cons; [exists x; split; [by left|done]|].
  destruct (IH Hy) as (z & ? & ?). exists z. split; [by right|done].
Qed.
