(* ===== verification/GoTime.v ===== *)
(** * The part of Go's package [time] that the library uses

    [time.Time] is an instant together with the offset of the zone it is
    displayed in; [time.Duration] is a signed 64-bit count of nanoseconds.
    The calendar is the proleptic Gregorian one, as in package [time].  The
    instant itself is an unbounded integer: package [time] keeps it in a
    signed 64-bit count of seconds, which no partition bound approaches. *)

From S2P Require Import Prelude.
Local Open Scope Z_scope.

(** ** Durations *)

Definition int64_min : Z := - 2 ^ 63.
Definition int64_max : Z := 2 ^ 63 - 1.

(** Two's-complement wrap-around of a 64-bit (32-bit) signed integer. *)
Definition wrap64 (z : Z) : Z := (z + 2 ^ 63) mod 2 ^ 64 - 2 ^ 63.
Definition wrap32 (z : Z) : Z := (z + 2 ^ 31) mod 2 ^ 32 - 2 ^ 31.

Definition Microsecond : Z := 1000.
Definition Millisecond : Z := 1000 * Microsecond.
Definition Second : Z := 1000 * Millisecond.
Definition Minute : Z := 60 * Second.
Definition Hour : Z := 60 * Minute.
Definition Day : Z := 24 * Hour.

#[global] Arguments Microsecond : simpl never.
#[global] Arguments Millisecond : simpl never.
#[global] Arguments Second : simpl never.
#[global] Arguments Minute : simpl never.
#[global] Arguments Hour : simpl never.
#[global] Arguments Day : simpl never.

(** ** The calendar

    Days are counted from 1 January of year 1, which is day 0. *)

Definition is_leap (y : Z) : bool :=
  (y mod 4 =? 0) && (negb (y mod 100 =? 0) || (y mod 400 =? 0)).

Definition days_before_year (y : Z) : Z :=
  365 * (y - 1) + (y - 1) / 4 - (y - 1) / 100 + (y - 1) / 400.

Definition leap_day (y : Z) : Z := if is_leap y then 1 else 0.

(** Days of the year that precede the first of month [m]; [m = 13] gives
    the length of the year. *)
Definition days_before_month (y m : Z) : Z :=
  (if m <=? 1 then 0 else if m =? 2 then 31 else
   leap_day y +
   (if m =? 3 then 59 else if m =? 4 then 90 else if m =? 5 then 120
    else if m =? 6 then 151 else if m =? 7 then 181 else if m =? 8 then 212
    else if m =? 9 then 243 else if m =? 10 then 273 else if m =? 11 then 304
    else if m =? 12 then 334 else 365)).

Definition days_in (y m : Z) : Z :=
  days_before_month y (m + 1) - days_before_month y m.

Definition year_of_days (n : Z) : Z :=
  let y := n * 400 / 146097 + 1 in
  if n <? days_before_year y then y - 1
  else if days_before_year (y + 1) <=? n then y + 1 else y.

Definition month_of_yday (y yd : Z) : Z :=
  if yd <? 31 then 1
  else if yd <? days_before_month y 3 then 2
  else if yd <? days_before_month y 4 then 3
  else if yd <? days_before_month y 5 then 4
  else if yd <? days_before_month y 6 then 5
  else if yd <? days_before_month y 7 then 6
  else if yd <? days_before_month y 8 then 7
  else if yd <? days_before_month y 9 then 8
  else if yd <? days_before_month y 10 then 9
  else if yd <? days_before_month y 11 then 10
  else if yd <? days_before_month y 12 then 11
  else 12.

(** The day number of a civil date; [d] may lie outside the month. *)
Definition days_of_civil (y m d : Z) : Z :=
  days_before_year y + days_before_month y m + (d - 1).

(** The civil date of a day number. *)
Definition civil_of_days (n : Z) : Z * Z * Z :=
  let y := year_of_days n in
  let yd := n - days_before_year y in
  let m := month_of_yday y yd in
  (y, m, yd - days_before_month y m + 1).

(** ** [time.Time] *)

Record Time := mkTime { unix_ns : Z; zone : Z }.

#[export] Instance Time_eq_dec : EqDecision Time.
Proof. solve_decision. Defined.

(** Days from 1 January of year 1 to the Unix epoch. *)
Definition unix_epoch_days : Z := 719162.
#[global] Arguments unix_epoch_days : simpl never.

(** [time.Time{}], the zero value: year 1, January 1, 00:00 UTC. *)
Definition zero_Time : Time := mkTime (- unix_epoch_days * Day) 0.

(** [t.UTC()], [t.Equal(u)], [t.Before(u)], [t.IsZero()]. *)
Definition UTC (t : Time) : Time := mkTime (unix_ns t) 0.
Definition Equal (t u : Time) : bool := unix_ns t =? unix_ns u.
Definition Before (t u : Time) : bool := unix_ns t <? unix_ns u.
Definition IsZero (t : Time) : bool := unix_ns t =? unix_ns zero_Time.

(** Nanoseconds since 1 January of year 1 on the clock of [t]'s zone. *)
Definition local_ns (t : Time) : Z :=
  unix_ns t + zone t * Second + unix_epoch_days * Day.

Definition local_day (t : Time) : Z := local_ns t / Day.
Definition local_clock (t : Time) : Z := local_ns t mod Day.

(** The accessors [t.Year()], [t.Month()], [t.Day()], [t.Hour()],
    [t.Minute()], [t.Second()], [t.Nanosecond()] and [t.Weekday()]
    (Sunday is 0, and day 0 of the calendar was a Monday). *)
Definition Year (t : Time) : Z := (civil_of_days (local_day t)).1.1.
Definition Month (t : Time) : Z := (civil_of_days (local_day t)).1.2.
Definition DayOf (t : Time) : Z := (civil_of_days (local_day t)).2.
Definition HourOf (t : Time) : Z := local_clock t / Hour.
Definition MinuteOf (t : Time) : Z := local_clock t mod Hour / Minute.
Definition SecondOf (t : Time) : Z := local_clock t mod Minute / Second.
Definition NanosecondOf (t : Time) : Z := local_clock t mod Second.
Definition Weekday (t : Time) : Z := (local_day t + 1) mod 7.

(** [time.Date(y, m, d, hh, mm, ss, ns, time.UTC)].  Every argument may be
    out of range and is normalised. *)
Definition DateUTC (y m d hh mm ss ns : Z) : Time :=
  let y' := y + (m - 1) / 12 in
  let m' := (m - 1) mod 12 + 1 in
  mkTime ((days_of_civil y' m' d - unix_epoch_days) * Day
          + hh * Hour + mm * Minute + ss * Second + ns) 0.

(** [t.AddDate(years, months, days)] for a [t] in UTC. *)
Definition AddDate (t : Time) (years months days : Z) : Time :=
  DateUTC (Year t + years) (Month t + months) (DayOf t + days)
          (HourOf t) (MinuteOf t) (SecondOf t) (NanosecondOf t).

(** [t.Add(d)] and [t.Sub(u)]; the difference saturates. *)
Definition Add (t : Time) (d : Z) : Time := mkTime (unix_ns t + d) (zone t).
Definition Sub (t u : Time) : Z :=
  Z.max int64_min (Z.min int64_max (unix_ns t - unix_ns u)).

(** ** Facts about the calendar *)

Lemma days_before_year_succ y :
  days_before_year (y + 1) = days_before_year y + 365 + leap_day y.
Proof.
  unfold days_before_year, leap_day, is_leap.
  destruct (Z.eqb_spec (y mod 4) 0), (Z.eqb_spec (y mod 100) 0),
    (Z.eqb_spec (y mod 400) 0); simpl; dlia.
Qed.

Lemma leap_day_bounds y : 0 <= leap_day y <= 1.
Proof. unfold leap_day. case_match; lia. Qed.

Lemma days_before_year_mono y z :
  y <= z → days_before_year y + 365 * (z - y) <= days_before_year z.
Proof. unfold days_before_year. intros. dlia. Qed.

Lemma days_before_year_lt_inv y z :
  days_before_year y < days_before_year z → y < z.
Proof.
  intros H. destruct (Z.le_gt_cases z y) as [Hle|]; [|done].
  pose proof (days_before_year_mono _ _ Hle). lia.
Qed.

(** The year found is the one whose days enclose the day number. *)
Lemma year_of_days_spec n :
  days_before_year (year_of_days n) <= n < days_before_year (year_of_days n + 1).
Proof.
  unfold year_of_days.
  set (y := n * 400 / 146097 + 1).
  assert (Hlo : days_before_year (y - 1) <= n)
    by (unfold days_before_year, y; dlia).
  assert (Hhi : n < days_before_year (y + 1 + 1))
    by (unfold days_before_year, y; dlia).
  destruct (Z.ltb_spec n (days_before_year y)).
  - replace (y - 1 + 1) with y by lia. lia.
  - destruct (Z.leb_spec (days_before_year (y + 1)) n); lia.
Qed.

Lemma year_of_days_unique n y :
  days_before_year y <= n < days_before_year (y + 1) → year_of_days n = y.
Proof.
  intros [Hlo Hhi]. pose proof (year_of_days_spec n) as [Hlo' Hhi'].
  assert (y < year_of_days n + 1) by (apply days_before_year_lt_inv; lia).
  assert (year_of_days n < y + 1) by (apply days_before_year_lt_inv; lia). lia.
Qed.

Lemma month_of_yday_spec y yd :
  0 <= yd < days_before_month y 13 →
  1 <= month_of_yday y yd <= 12 ∧
  days_before_month y (month_of_yday y yd) <= yd
    < days_before_month y (month_of_yday y yd + 1).
Proof.
  intros H. pose proof (leap_day_bounds y).
  unfold month_of_yday, days_before_month in *; simpl in *.
  repeat match goal with |- context [?a <? ?b] => destruct (Z.ltb_spec a b) end;
    simpl; lia.
Qed.

Lemma days_in_bounds y m : 1 <= m <= 12 → 28 <= days_in y m <= 31.
Proof.
  intros H. pose proof (leap_day_bounds y).
  assert (m = 1 ∨ m = 2 ∨ m = 3 ∨ m = 4 ∨ m = 5 ∨ m = 6 ∨ m = 7 ∨ m = 8 ∨
          m = 9 ∨ m = 10 ∨ m = 11 ∨ m = 12) as Hm by lia.
  unfold days_in, days_before_month.
  destruct_or! Hm; subst m; simpl; lia.
Qed.

Lemma days_before_month_bounds y m :
  1 <= m <= 13 → 0 <= days_before_month y m <= 365 + leap_day y.
Proof.
  intros H. pose proof (leap_day_bounds y).
  unfold days_before_month.
  repeat (case_match; [lia|]). lia.
Qed.

Lemma days_before_month_13 y : days_before_month y 13 = 365 + leap_day y.
Proof. unfold days_before_month; simpl; lia. Qed.

Lemma yday_range n :
  0 <= n - days_before_year (year_of_days n)
    < days_before_month (year_of_days n) 13.
Proof.
  pose proof (year_of_days_spec n) as [H1 H2].
  rewrite days_before_year_succ in H2. rewrite days_before_month_13. lia.
Qed.

(** *** Months as a linear index: month [m] of year [y] is [12 * y + (m - 1)]. *)
Definition month_start (i : Z) : Z := days_of_civil (i / 12) (i mod 12 + 1) 1.
Definition month_index (n : Z) : Z :=
  12 * (civil_of_days n).1.1 + ((civil_of_days n).1.2 - 1).

Lemma month_index_divmod y m :
  1 <= m <= 12 → (12 * y + (m - 1)) / 12 = y ∧ (12 * y + (m - 1)) mod 12 + 1 = m.
Proof. intros. split; dlia. Qed.

Lemma civil_of_days_month n :
  1 <= (civil_of_days n).1.2 <= 12.
Proof. apply month_of_yday_spec, yday_range. Qed.

Lemma month_start_succ i :
  month_start (i + 1) = month_start i + days_in (i / 12) (i mod 12 + 1).
Proof.
  unfold month_start, days_of_civil, days_in.
  destruct (Z.eq_dec (i mod 12) 11) as [H|H].
  - replace ((i + 1) / 12) with (i / 12 + 1) by dlia.
    replace ((i + 1) mod 12) with 0 by dlia.
    rewrite H, days_before_year_succ. simpl.
    rewrite days_before_month_13. unfold days_before_month at 1. simpl. lia.
  - replace ((i + 1) / 12) with (i / 12) by dlia.
    replace ((i + 1) mod 12) with (i mod 12 + 1) by dlia. lia.
Qed.

Lemma month_len_bounds i : 28 <= month_start (i + 1) - month_start i <= 31.
Proof.
  rewrite month_start_succ.
  assert (1 <= i mod 12 + 1 <= 12) by dlia.
  pose proof (days_in_bounds (i / 12) (i mod 12 + 1)). lia.
Qed.

Lemma month_start_mono i j : i <= j → month_start i + 28 * (j - i) <= month_start j.
Proof.
  intros H. replace j with (i + Z.of_nat (Z.to_nat (j - i))) by lia.
  generalize (Z.to_nat (j - i)). intros k.
  induction k as [|k IH]; [rewrite Z.add_0_r; lia|].
  replace (i + Z.of_nat (S k)) with (i + Z.of_nat k + 1) by lia.
  pose proof (month_len_bounds (i + Z.of_nat k)). lia.
Qed.

Lemma month_start_lt_inv i j : month_start i < month_start j → i < j.
Proof.
  intros H. destruct (Z.le_gt_cases j i) as [Hle|]; [|done].
  pose proof (month_start_mono _ _ Hle). lia.
Qed.

Lemma month_index_spec n :
  month_start (month_index n) <= n < month_start (month_index n + 1).
Proof.
  rewrite month_start_succ. unfold month_start, month_index.
  destruct (month_index_divmod (civil_of_days n).1.1 (civil_of_days n).1.2
              (civil_of_days_month n)) as [-> ->].
  pose proof (month_of_yday_spec _ _ (yday_range n)) as [_ H].
  unfold days_in, days_of_civil. simpl. lia.
Qed.

Lemma month_index_unique n i :
  month_start i <= n < month_start (i + 1) → month_index n = i.
Proof.
  intros [H1 H2]. destruct (month_index_spec n) as [H3 H4].
  assert (i < month_index n + 1) by (apply month_start_lt_inv; lia).
  assert (month_index n < i + 1) by (apply month_start_lt_inv; lia). lia.
Qed.

(** *** Round trips between civil dates and day numbers *)

(** A civil date of the calendar. *)
Definition valid_date (y m d : Z) : Prop :=
  1 <= m <= 12 ∧ 1 <= d <= days_in y m.

Lemma days_of_civil_of_days n :
  let '(y, m, d) := civil_of_days n in days_of_civil y m d = n.
Proof. unfold civil_of_days, days_of_civil. lia. Qed.

Lemma civil_of_days_valid n :
  let '(y, m, d) := civil_of_days n in valid_date y m d.
Proof.
  pose proof (month_of_yday_spec _ _ (yday_range n)) as [H1 H2].
  unfold civil_of_days, valid_date, days_in. lia.
Qed.

Lemma days_of_civil_month_start y m d :
  1 <= m <= 12 → days_of_civil y m d = month_start (12 * y + (m - 1)) + (d - 1).
Proof.
  intros H. unfold month_start.
  destruct (month_index_divmod y m H) as [-> ->]. unfold days_of_civil. lia.
Qed.

Lemma civil_of_days_of_civil y m d :
  valid_date y m d → civil_of_days (days_of_civil y m d) = (y, m, d).
Proof.
  intros [Hm Hd]. set (n := days_of_civil y m d).
  assert (Hn : n = month_start (12 * y + (m - 1)) + (d - 1))
    by (by apply days_of_civil_month_start).
  assert (Hi : month_index n = 12 * y + (m - 1)).
  { apply month_index_unique. rewrite month_start_succ.
    destruct (month_index_divmod y m Hm) as [-> ->]. lia. }
  pose proof (civil_of_days_month n) as Hm'.
  pose proof (days_of_civil_of_days n) as Hr.
  destruct (civil_of_days n) as [[y' m'] d'] eqn:E. simpl in *.
  unfold month_index in Hi. rewrite E in Hi. simpl in Hi.
  assert (y' = y) by lia. assert (m' = m) by lia. subst y' m'.
  unfold n, days_of_civil in Hr. f_equal. lia.
Qed.

(** *** [DateUTC] and [AddDate] *)

Lemma clock_split t :
  HourOf t * Hour + MinuteOf t * Minute + SecondOf t * Second + NanosecondOf t
  = local_clock t.
Proof.
  unfold HourOf, MinuteOf, SecondOf, NanosecondOf.
  unfold Hour, Minute, Second, Millisecond, Microsecond. dlia.
Qed.

Lemma local_split t : local_ns t = local_day t * Day + local_clock t.
Proof.
  unfold local_day, local_clock. rewrite Z.mul_comm. apply Z.div_mod.
  unfold Day, Hour, Minute, Second, Millisecond, Microsecond. lia.
Qed.

Lemma local_clock_bounds t : 0 <= local_clock t < Day.
Proof. apply Z.mod_pos_bound. done. Qed.

Lemma local_day_unique t n :
  n * Day <= local_ns t < (n + 1) * Day → local_day t = n.
Proof.
  unfold local_day. intros H. symmetry.
  apply (Z.div_unique_pos _ _ _ (local_ns t - n * Day)); lia.
Qed.

Lemma utc_ns_split t :
  zone t = 0 →
  unix_ns t = (local_day t - unix_epoch_days) * Day + local_clock t.
Proof.
  intros Hz. pose proof (local_split t) as H.
  unfold local_ns in H. rewrite Hz in H. lia.
Qed.

(** [Month t] is always a month and [local_day t] is its civil date's day. *)
Lemma Month_bounds t : 1 <= Month t <= 12.
Proof. apply civil_of_days_month. Qed.

Lemma days_of_civil_local_day t :
  days_of_civil (Year t) (Month t) (DayOf t) = local_day t.
Proof.
  pose proof (days_of_civil_of_days (local_day t)) as H.
  unfold Year, Month, DayOf. by destruct (civil_of_days (local_day t)) as [[??]?].
Qed.

(** [DateUTC] with a month given by its linear index. *)
Lemma DateUTC_month_start y m d hh mm ss ns :
  DateUTC y m d hh mm ss ns =
  mkTime ((month_start (12 * y + (m - 1)) + (d - 1) - unix_epoch_days) * Day
          + hh * Hour + mm * Minute + ss * Second + ns) 0.
Proof.
  unfold DateUTC.
  rewrite days_of_civil_month_start by dlia.
  replace (12 * (y + (m - 1) / 12) + ((m - 1) mod 12 + 1 - 1))
    with (12 * y + (m - 1)) by dlia. done.
Qed.

Lemma local_day_month_start t :
  local_day t = month_start (month_index (local_day t)) + (DayOf t - 1).
Proof.
  rewrite <- days_of_civil_local_day at 1.
  by rewrite days_of_civil_month_start by apply Month_bounds.
Qed.

(** Adding years, months and days moves the first-of-month by whole months
    and keeps the day-of-month and the clock, whatever the target month's
    length: an overflowing day runs into the next month. *)
Lemma AddDate_spec t y m d :
  AddDate t y m d =
  mkTime ((month_start (month_index (local_day t) + 12 * y + m) + (DayOf t - 1)
           + d - unix_epoch_days) * Day + local_clock t) 0.
Proof.
  unfold AddDate. rewrite DateUTC_month_start. f_equal.
  rewrite <- (clock_split t).
  replace (12 * (Year t + y) + (Month t + m - 1))
    with (month_index (local_day t) + 12 * y + m)
    by (unfold month_index, Year, Month; lia).
  lia.
Qed.

Lemma AddDate_days t d :
  zone t = 0 → AddDate t 0 0 d = mkTime (unix_ns t + d * Day) 0.
Proof.
  intros Hz. rewrite AddDate_spec, (utc_ns_split t Hz). f_equal.
  replace (month_index (local_day t) + 12 * 0 + 0) with (month_index (local_day t))
    by lia.
  pose proof (local_day_month_start t). lia.
Qed.

Lemma zone_AddDate t y m d : zone (AddDate t y m d) = 0.
Proof. done. Qed.

(** Midnight of the day of a UTC time, plus whole hours. *)
Lemma DateUTC_day t hh :
  DateUTC (Year t) (Month t) (DayOf t) hh 0 0 0 =
  mkTime ((local_day t - unix_epoch_days) * Day + hh * Hour) 0.
Proof.
  rewrite DateUTC_month_start. f_equal.
  replace (12 * Year t + (Month t - 1)) with (month_index (local_day t))
    by (unfold month_index, Year, Month; lia).
  pose proof (local_day_month_start t) as H.
  replace (local_day t) with (month_start (month_index (local_day t)) + (DayOf t - 1))
    by lia.
  rewrite <- H. lia.
Qed.

(** First of the month of a time. *)
Lemma DateUTC_month t :
  DateUTC (Year t) (Month t) 1 0 0 0 0 =
  mkTime ((month_start (month_index (local_day t)) - unix_epoch_days) * Day) 0.
Proof.
  rewrite DateUTC_month_start. f_equal.
  replace (12 * Year t + (Month t - 1)) with (month_index (local_day t))
    by (unfold month_index, Year, Month; lia).
  lia.
Qed.

Lemma local_day_mk n : local_day (mkTime ((n - unix_epoch_days) * Day) 0) = n.
Proof.
  apply local_day_unique. unfold local_ns. simpl.
  unfold Day, Hour, Minute, Second, Millisecond, Microsecond. lia.
Qed.

Lemma local_clock_mk n : local_clock (mkTime ((n - unix_epoch_days) * Day) 0) = 0.
Proof.
  pose proof (local_split (mkTime ((n - unix_epoch_days) * Day) 0)) as H.
  rewrite local_day_mk in H. unfold local_ns in H. simpl in H. lia.
Qed.

(** At a first of the month, the day-of-month is one. *)
Lemma month_index_month_start i : month_index (month_start i) = i.
Proof. apply month_index_unique. pose proof (month_len_bounds i). lia. Qed.

Lemma DayOf_month_start i :
  DayOf (mkTime ((month_start i - unix_epoch_days) * Day) 0) = 1.
Proof.
  pose proof (local_day_month_start (mkTime ((month_start i - unix_epoch_days) * Day) 0)) as H.
  rewrite local_day_mk, month_index_month_start in H. lia.
Qed.

Lemma AddDate_month_start i k :
  AddDate (mkTime ((month_start i - unix_epoch_days) * Day) 0) 0 k 0 =
  mkTime ((month_start (i + k) - unix_epoch_days) * Day) 0.
Proof.
  rewrite AddDate_spec, local_day_mk, local_clock_mk, month_index_month_start,
    DayOf_month_start. f_equal.
  replace (i + 12 * 0 + k) with (i + k) by lia. lia.
Qed.

(** ** Machine-width arithmetic *)

Lemma wrap64_id z : int64_min <= z <= int64_max → wrap64 z = z.
Proof.
  unfold wrap64, int64_min, int64_max. intros H. rewrite Z.mod_small; lia.
Qed.

Lemma wrap64_range z : int64_min <= wrap64 z <= int64_max.
Proof.
  unfold wrap64, int64_min, int64_max.
  pose proof (Z.mod_pos_bound (z + 2 ^ 63) (2 ^ 64)). lia.
Qed.

Lemma wrap32_id z : - 2 ^ 31 <= z < 2 ^ 31 → wrap32 z = z.
Proof. unfold wrap32. intros H. rewrite Z.mod_small; lia. Qed.

Lemma Sub_exact t u :
  int64_min <= unix_ns t - unix_ns u <= int64_max →
  Sub t u = unix_ns t - unix_ns u.
Proof. unfold Sub. lia. Qed.

(** The accessors read back a valid civil date. *)
Lemma DateUTC_civil y m d :
  valid_date y m d →
  let t := DateUTC y m d 0 0 0 0 in
  local_day t = days_of_civil y m d ∧ Year t = y ∧ Month t = m ∧ DayOf t = d ∧
  local_clock t = 0 ∧ zone t = 0.
Proof.
  intros Hv. destruct Hv as [Hm Hd]. cbv zeta.
  assert (Ht : DateUTC y m d 0 0 0 0 =
               mkTime ((days_of_civil y m d - unix_epoch_days) * Day) 0).
  { rewrite DateUTC_month_start, days_of_civil_month_start by done. f_equal. lia. }
  assert (Hl : local_day (DateUTC y m d 0 0 0 0) = days_of_civil y m d)
    by (rewrite Ht; apply local_day_mk).
  unfold Year, Month, DayOf. rewrite Hl, civil_of_days_of_civil by done.
  rewrite Ht, local_clock_mk. done.
Qed.
