(* ===== verification/GoStrings.v ===== *)
(** * The part of Go's packages [strings], [regexp] and [strconv] the library uses

    A Go string is a [string] of bytes.  [strings.Index] followed by the two
    slices around the separator is [Cut]; the same with [strings.LastIndex] is
    [CutLast].  Text is UTF-8. *)

From S2P Require Import Prelude.
Local Open Scope string_scope.
Local Open Scope Z_scope.

(** ** Definitions *)

(** [i := strings.Index(s, string(c))] with [s[:i]] and [s[i+1:]]; [None]
    for [i < 0]. *)
Fixpoint Cut (c : ascii) (s : string) : option (string * string) :=
  match s with
  | EmptyString => None
  | String d s' =>
      if Ascii.eqb d c then Some (EmptyString, s')
      else '(a, b) ← Cut c s'; Some (String d a, b)
  end.

(** [i := strings.LastIndex(s, string(c))] with [s[:i]] and [s[i+1:]]. *)
Fixpoint CutLast (c : ascii) (s : string) : option (string * string) :=
  match s with
  | EmptyString => None
  | String d s' =>
      match CutLast c s' with
      | Some (a, b) => Some (String d a, b)
      | None => if Ascii.eqb d c then Some (EmptyString, s') else None
      end
  end.

(** Every byte of [s] satisfies [p]. *)
Fixpoint all_bytes (p : ascii → bool) (s : string) : bool :=
  match s with
  | EmptyString => true
  | String c s' => p c && all_bytes p s'
  end.

Definition code (c : ascii) : Z := Z.of_N (Ascii.N_of_ascii c).
Definition chr (z : Z) : ascii := Ascii.ascii_of_N (Z.to_N z).

Definition is_digit (c : ascii) : bool := (48 <=? code c) && (code c <=? 57).
Definition is_upper (c : ascii) : bool := (65 <=? code c) && (code c <=? 90).
Definition is_lower (c : ascii) : bool := (97 <=? code c) && (code c <=? 122).
Definition is_ascii (c : ascii) : bool := code c <? 128.

(** Go's [\w] is the ASCII class [0-9A-Za-z_]. *)
Definition is_word (c : ascii) : bool :=
  is_digit c || is_upper c || is_lower c || Ascii.eqb c "_".

Definition is_upper_alnum (c : ascii) : bool := is_upper c || is_digit c.

(** The regular expression [^\w+$]; without the [m] flag, [$] matches only
    at the end of the text. *)
Definition word_regex (s : string) : bool :=
  match s with EmptyString => false | _ => all_bytes is_word s end.

(** [strings.ToUpper] on UTF-8.  Two characters that are not ASCII have an
    upper case that is: the dotless i (U+0131) and the long s (U+017F).  Every
    other one is left as it is: its upper case is not ASCII either, and what
    the library upper-cases it compares with a tenant read from a table name,
    which is. *)
Definition upper_byte (c : ascii) : ascii :=
  if is_lower c then chr (code c - 32) else c.
Definition dotless_i (c d : ascii) : bool := (code c =? 196) && (code d =? 177).
Definition long_s (c d : ascii) : bool := (code c =? 197) && (code d =? 191).
Fixpoint ToUpper (s : string) : string :=
  match s with
  | EmptyString => EmptyString
  | String c s' =>
      match s' with
      | EmptyString => String (upper_byte c) EmptyString
      | String d s'' =>
          if dotless_i c d then String "I" (ToUpper s'')
          else if long_s c d then String "S" (ToUpper s'')
          else String (upper_byte c) (ToUpper s')
      end
  end.

(** [strings.ReplaceAll(s, old, new)] for a non-empty [old]: matches are found
    from the left and do not overlap. [skip] counts the bytes of the current
    match still to be dropped. *)
Fixpoint replace_all (old new : string) (skip : nat) (s : string) : string :=
  match s with
  | EmptyString => EmptyString
  | String c s' =>
      match skip with
      | S k => replace_all old new k s'
      | O => if String.prefix old s
             then new +:+ replace_all old new (String.length old - 1) s'
             else String c (replace_all old new O s')
      end
  end.
Definition ReplaceAll (s old new : string) : string := replace_all old new O s.

(** [strings.Join]. *)
Fixpoint Join (sep : string) (l : list string) : string :=
  match l with
  | [] => ""
  | [s] => s
  | s :: l' => s +:+ sep +:+ Join sep l'
  end.

(** Decimal digits of [n], least significant first, put in front of [acc]; at
    least [w] of them.  [fuel] bounds the number of digits. *)
Fixpoint pad_digits (fuel : nat) (w n : Z) (acc : string) : string :=
  match fuel with
  | O => acc
  | S f => if (w <=? 0) && (n =? 0) then acc
           else pad_digits f (w - 1) (n / 10) (String (chr (48 + n mod 10)) acc)
  end.

(** [appendInt(b, x, width)] of package [time]: the sign, then the digits of
    the absolute value, zero-padded to [width].  A 64-bit integer has at most
    19 digits. *)
Definition appendInt (x w : Z) : string :=
  (if x <? 0 then "-" else "") +:+ pad_digits 20 w (Z.abs x) "".

(** [strconv.Itoa]. *)
Definition Itoa (x : Z) : string :=
  if x =? 0 then "0" else appendInt x 0.

(** Value of a string of digits, [None] when a byte is not a digit or the
    string is empty. *)
Fixpoint digits_value (acc : Z) (s : string) : option Z :=
  match s with
  | EmptyString => Some acc
  | String c s' => if is_digit c then digits_value (acc * 10 + (code c - 48)) s' else None
  end.
Definition parse_digits (s : string) : option Z :=
  match s with EmptyString => None | _ => digits_value 0 s end.

(** Byte slices [s[i:j]]. *)
Definition slice (i j : nat) (s : string) : string := String.substring i (j - i) s.

(** [i := strings.LastIndex(s, pat)] with [s[:i]] and [s[i+len(pat):]]. *)
Fixpoint CutLastString (pat s : string) : option (string * string) :=
  match s with
  | EmptyString => None
  | String c s' =>
      match CutLastString pat s' with
      | Some (a, b) => Some (String c a, b)
      | None => if String.prefix pat s
                then Some (EmptyString, String.substring (String.length pat) (String.length s) s)
                else None
      end
  end.

(** [strings.TrimPrefix], when the prefix is there. *)
Definition CutPrefix (pat s : string) : option string :=
  if String.prefix pat s then Some (String.substring (String.length pat) (String.length s) s) else None.

(** [strings.TrimSpace] on UTF-8: [unicode.IsSpace] holds of six ASCII
    characters, of U+0085 and U+00A0 (two bytes), and of U+1680, U+2000 to
    U+200A, U+2028, U+2029, U+202F, U+205F and U+3000 (three). *)
Definition is_space (c : ascii) : bool :=
  (code c =? 32) || ((9 <=? code c) && (code c <=? 13)).
Definition is_space2 (c d : ascii) : bool :=
  (code c =? 194) && ((code d =? 133) || (code d =? 160)).
Definition is_space3 (c d e : ascii) : bool :=
  ((code c =? 225) && (code d =? 154) && (code e =? 128))
  || ((code c =? 226) && (code d =? 128)
      && (((128 <=? code e) && (code e <=? 138)) || (code e =? 168) || (code e =? 169) || (code e =? 175)))
  || ((code c =? 226) && (code d =? 129) && (code e =? 159))
  || ((code c =? 227) && (code d =? 128) && (code e =? 128)).
Fixpoint TrimLeftSpace (s : string) : string :=
  match s with
  | EmptyString => EmptyString
  | String c s1 =>
      if is_space c then TrimLeftSpace s1
      else match s1 with
           | EmptyString => s
           | String d s2 =>
               if is_space2 c d then TrimLeftSpace s2
               else match s2 with
                    | EmptyString => s
                    | String e s3 => if is_space3 c d e then TrimLeftSpace s3 else s
                    end
           end
  end.
(** Only spaces from here to the end. *)
Definition all_space (s : string) : bool := bool_decide (TrimLeftSpace s = EmptyString).
Fixpoint TrimRightSpace (s : string) : string :=
  if all_space s then EmptyString
  else match s with
       | EmptyString => EmptyString
       | String c s' => String c (TrimRightSpace s')
       end.
Definition TrimSpace (s : string) : string := TrimRightSpace (TrimLeftSpace s).

(** Membership of a byte. *)
Definition has_byte (c : ascii) (s : string) : bool :=
  negb (all_bytes (λ d, negb (Ascii.eqb d c)) s).

(** ** Facts *)

Lemma app_string_nil_r s : s +:+ "" = s.
Proof. induction s as [|c s IH]; simpl; [done|by rewrite IH]. Qed.

Lemma app_string_assoc s t u : (s +:+ t) +:+ u = s +:+ t +:+ u.
Proof. induction s as [|c s IH]; simpl; [done|by rewrite IH]. Qed.

Lemma length_app_string s t :
  String.length (s +:+ t) = (String.length s + String.length t)%nat.
Proof. induction s as [|c s IH]; simpl; [done|by rewrite IH]. Qed.

Lemma app_string_inj_r s t u : s +:+ t = s +:+ u → t = u.
Proof. induction s as [|c s IH]; simpl; intros; simplify_eq; auto. Qed.

(** Equal strings split at equal lengths into equal parts. *)
Lemma app_string_inj_len s s' t t' :
  String.length s = String.length s' → s +:+ t = s' +:+ t' → s = s' ∧ t = t'.
Proof.
  revert s'. induction s as [|c s IH]; intros [|c' s'] Hl H; simplify_eq/=; auto.
  destruct (IH s') as [-> ->]; auto.
Qed.

Lemma all_bytes_app p s t : all_bytes p (s +:+ t) = all_bytes p s && all_bytes p t.
Proof. induction s as [|c s IH]; simpl; [done|]. by rewrite IH, andb_assoc. Qed.

Lemma all_bytes_impl (p q : ascii → bool) s :
  (∀ c, p c = true → q c = true) → all_bytes p s = true → all_bytes q s = true.
Proof.
  intros Hpq. induction s as [|c s IH]; simpl; [done|].
  rewrite !andb_true_iff. naive_solver.
Qed.

(** [Cut] finds the first separator, [CutLast] the last. *)
Lemma Cut_app c a b :
  all_bytes (λ d, negb (Ascii.eqb d c)) a = true →
  Cut c (a +:+ String c b) = Some (a, b).
Proof.
  induction a as [|d a IH]; simpl.
  - intros _. by rewrite Ascii.eqb_refl.
  - intros [Hd Ha]%andb_true_iff. apply negb_true_iff in Hd.
    by rewrite Hd, (IH Ha).
Qed.

Lemma Cut_Some c s a b :
  Cut c s = Some (a, b) →
  s = a +:+ String c b ∧ all_bytes (λ d, negb (Ascii.eqb d c)) a = true.
Proof.
  revert a. induction s as [|d s IH]; intros a H; simplify_eq/=.
  destruct (Ascii.eqb d c) eqn:E; simplify_eq/=.
  - apply Ascii.eqb_eq in E. by subst.
  - destruct (Cut c s) as [[a' b']|] eqn:E2; simplify_eq/=.
    destruct (IH a') as [-> ?]; [done|]. by rewrite E.
Qed.

Lemma CutLast_None c s :
  CutLast c s = None ↔ all_bytes (λ d, negb (Ascii.eqb d c)) s = true.
Proof.
  induction s as [|d s IH]; simpl; [done|].
  rewrite andb_true_iff, <- IH, negb_true_iff.
  destruct (CutLast c s) as [[??]|]; [naive_solver|].
  destruct (Ascii.eqb d c); naive_solver.
Qed.

Lemma CutLast_app c a b :
  all_bytes (λ d, negb (Ascii.eqb d c)) b = true →
  CutLast c (a +:+ String c b) = Some (a, b).
Proof.
  intros Hb. induction a as [|d a IH]; simpl.
  - by rewrite (proj2 (CutLast_None _ _) Hb), Ascii.eqb_refl.
  - by rewrite IH.
Qed.

Lemma CutLast_Some c s a b :
  CutLast c s = Some (a, b) →
  s = a +:+ String c b ∧ all_bytes (λ d, negb (Ascii.eqb d c)) b = true.
Proof.
  revert a. induction s as [|d s IH]; intros a H; simplify_eq/=.
  destruct (CutLast c s) as [[a' b']|] eqn:E; simplify_eq/=.
  - destruct (IH a') as [-> ?]; [done|]. done.
  - destruct (Ascii.eqb d c) eqn:E2; simplify_eq/=.
    apply Ascii.eqb_eq in E2. subst. split; [done|]. by apply CutLast_None.
Qed.

(** Words: no dot, and an underscore is the only separator in them. *)
Lemma word_regex_bytes s : word_regex s = true → all_bytes is_word s = true.
Proof. by destruct s. Qed.

Lemma word_regex_app s t :
  word_regex s = true → all_bytes is_word t = true → word_regex (s +:+ t) = true.
Proof.
  destruct s as [|c s]; [done|]. simpl. intros [-> Hs]%andb_true_iff Ht.
  by rewrite all_bytes_app, Hs, Ht.
Qed.

Lemma is_word_not_dot c : is_word c = true → negb (Ascii.eqb c ".") = true.
Proof.
  intros H. apply negb_true_iff, Ascii.eqb_neq. by intros ->.
Qed.

Lemma is_upper_alnum_word c : is_upper_alnum c = true → is_word c = true.
Proof. unfold is_upper_alnum, is_word. destruct (is_upper c), (is_digit c); done. Qed.

Lemma is_upper_alnum_not_underscore c :
  is_upper_alnum c = true → negb (Ascii.eqb c "_") = true.
Proof. intros H. apply negb_true_iff, Ascii.eqb_neq. by intros ->. Qed.

(** Upper-casing keeps a word a word and is idempotent. *)
Lemma byte_ind (P : ascii → bool) :
  forallb P (map (λ n, Ascii.ascii_of_nat n) (seq 0 256)) = true → ∀ c, P c = true.
Proof.
  intros H c. rewrite forallb_forall in H. apply H.
  rewrite <- (Ascii.ascii_nat_embedding c). apply in_map.
  apply in_seq. pose proof (Ascii.nat_ascii_bounded c). lia.
Qed.

Lemma upper_byte_word c : is_word c = true → is_word (upper_byte c) = true.
Proof.
  assert (H := byte_ind (λ c, implb (is_word c) (is_word (upper_byte c)))
                 ltac:(vm_compute; reflexivity) c).
  simpl in H. destruct (is_word c); [done|done].
Qed.

Lemma upper_byte_idem c : upper_byte (upper_byte c) = upper_byte c.
Proof.
  apply Ascii.eqb_eq.
  exact (byte_ind (λ c, Ascii.eqb (upper_byte (upper_byte c)) (upper_byte c))
           ltac:(vm_compute; reflexivity) c).
Qed.

Lemma upper_byte_id c : is_upper_alnum c = true → upper_byte c = c.
Proof.
  intros H. apply Ascii.eqb_eq.
  assert (H' := byte_ind (λ c, implb (is_upper_alnum c) (Ascii.eqb (upper_byte c) c))
                 ltac:(vm_compute; reflexivity) c).
  simpl in H'. by rewrite H in H'.
Qed.

Lemma upper_byte_alnum c :
  is_word c = true → Ascii.eqb c "_" = false → is_upper_alnum (upper_byte c) = true.
Proof.
  intros H1 H2.
  assert (H := byte_ind (λ c, implb (is_word c && negb (Ascii.eqb c "_"))
                               (is_upper_alnum (upper_byte c)))
                 ltac:(vm_compute; reflexivity) c).
  simpl in H. by rewrite H1, H2 in H.
Qed.

(** A byte that begins neither of the two characters. *)
Lemma ToUpper_cons c s : is_ascii c = true → ToUpper (String c s) = String (upper_byte c) (ToUpper s).
Proof.
  intros Hc. destruct s as [|d s]; [done|]. unfold is_ascii in Hc. apply Z.ltb_lt in Hc.
  cbn [ToUpper]. unfold dotless_i, long_s.
  rewrite (proj2 (Z.eqb_neq (code c) 196)), (proj2 (Z.eqb_neq (code c) 197)) by lia. done.
Qed.
Lemma ToUpper_nil s : ToUpper s = "" → s = "".
Proof. destruct s as [|c [|d s]]; cbn; [done..|]. by repeat case_match. Qed.

Lemma is_word_ascii c : is_word c = true → is_ascii c = true.
Proof.
  intros H. assert (H' := byte_ind (λ c, implb (is_word c) (is_ascii c)) ltac:(vm_compute; reflexivity) c).
  simpl in H'. by rewrite H in H'.
Qed.
Lemma ToUpper_word s : all_bytes is_word s = true → all_bytes is_word (ToUpper s) = true.
Proof.
  induction s as [|c s IH]; [done|]. intros [Hc Hs]%andb_true_iff.
  rewrite ToUpper_cons by by apply is_word_ascii. simpl. by rewrite upper_byte_word, IH.
Qed.

Lemma ToUpper_idem s : all_bytes is_word s = true → ToUpper (ToUpper s) = ToUpper s.
Proof.
  induction s as [|c s IH]; [done|]. intros [Hc Hs]%andb_true_iff.
  rewrite (ToUpper_cons c), ToUpper_cons by (apply is_word_ascii; auto using upper_byte_word).
  by rewrite upper_byte_idem, IH.
Qed.

Lemma ToUpper_id s : all_bytes is_upper_alnum s = true → ToUpper s = s.
Proof.
  induction s as [|c s IH]; [done|]. intros [Hc Hs]%andb_true_iff.
  rewrite ToUpper_cons by by apply is_word_ascii, is_upper_alnum_word. by rewrite upper_byte_id, IH.
Qed.

Lemma ToUpper_alnum s :
  all_bytes is_word s = true → all_bytes (λ c, negb (Ascii.eqb c "_")) s = true →
  all_bytes is_upper_alnum (ToUpper s) = true.
Proof.
  induction s as [|c s IH]; [done|].
  intros [Hc Hs]%andb_true_iff [Hn%negb_true_iff Hns]%andb_true_iff.
  rewrite ToUpper_cons by by apply is_word_ascii. simpl. by rewrite upper_byte_alnum, IH.
Qed.

(** *** Spaces *)

(** An ASCII character that is no space. *)
Definition visible (c : ascii) : bool := is_ascii c && negb (is_space c).
Lemma visible_left c s : visible c = true → TrimLeftSpace (String c s) = String c s.
Proof.
  intros [Hc%Z.ltb_lt Hs%negb_true_iff]%andb_true_iff. cbn [TrimLeftSpace]. rewrite Hs.
  destruct s as [|d [|e s]]; [done|..]; unfold is_space2, is_space3;
    rewrite (proj2 (Z.eqb_neq (code c) 194)) by lia; [done|].
  by rewrite (proj2 (Z.eqb_neq (code c) 225)), (proj2 (Z.eqb_neq (code c) 226)), (proj2 (Z.eqb_neq (code c) 227)) by lia.
Qed.
Lemma TrimLeftSpace_snoc c s : visible c = true → TrimLeftSpace (s +:+ String c "") ≠ "".
Proof.
  intros Hc. pose proof Hc as [Ha%Z.ltb_lt Hs%negb_true_iff]%andb_true_iff. revert s. fix IH 1.
  intros [|c1 s]; [cbn [String.append]; by rewrite visible_left|]. change (String c1 s +:+ ?t) with (String c1 (s +:+ t)). cbn [TrimLeftSpace].
  destruct (is_space c1); [apply IH|].
  destruct s as [|c2 s].
  { cbn [String.append]. unfold is_space2.
    rewrite (proj2 (Z.eqb_neq (code c) 133)), (proj2 (Z.eqb_neq (code c) 160)) by lia. by rewrite andb_false_r. }
  change (String c2 s +:+ ?t) with (String c2 (s +:+ t)). cbn iota. destruct (is_space2 c1 c2); [apply IH|].
  destruct s as [|c3 s].
  { cbn [String.append]. destruct (is_space3 c1 c2 c) eqn:H3; [exfalso|done]. unfold is_space3 in H3.
    rewrite !orb_true_iff, !andb_true_iff, !orb_true_iff, !andb_true_iff, !Z.eqb_eq, !Z.leb_le in H3. lia. }
  change (String c3 s +:+ ?t) with (String c3 (s +:+ t)). cbn iota. destruct (is_space3 c1 c2 c3); [apply IH|done].
Qed.
Lemma TrimRightSpace_snoc c s : visible c = true → TrimRightSpace (s +:+ String c "") = s +:+ String c "".
Proof.
  intros Hc. assert (∀ s, all_space (s +:+ String c "") = false) as Ha
    by (intros s'; apply bool_decide_false, TrimLeftSpace_snoc, Hc).
  induction s as [|d s IH].
  - specialize (Ha ""). cbn [String.append] in Ha |- *. cbn [TrimRightSpace]. by rewrite Ha.
  - change (String d s +:+ ?t) with (String d (s +:+ t)). cbn [TrimRightSpace].
    specialize (Ha (String d s)). change (String d s +:+ ?t) with (String d (s +:+ t)) in Ha. by rewrite Ha, IH.
Qed.

(** *** Decimal numbers *)

Lemma code_chr z : 0 <= z < 256 → code (chr z) = z.
Proof.
  intros H. unfold code, chr. rewrite Ascii.N_ascii_embedding by lia. lia.
Qed.

Lemma is_digit_chr z : 0 <= z < 10 → is_digit (chr (48 + z)) = true.
Proof.
  intros H. unfold is_digit. rewrite code_chr by lia.
  apply andb_true_iff. split; apply Z.leb_le; lia.
Qed.

Lemma is_digit_upper_alnum c : is_digit c = true → is_upper_alnum c = true.
Proof. intros H. unfold is_upper_alnum. rewrite H. apply orb_true_r. Qed.

Lemma pad_digits_step f w n acc :
  0 < w ∨ n ≠ 0 →
  pad_digits (S f) w n acc =
  pad_digits f (w - 1) (n / 10) (String (chr (48 + n mod 10)) acc).
Proof.
  intros H. simpl.
  destruct (Z.leb_spec w 0), (Z.eqb_spec n 0); simpl; try done; lia.
Qed.

Lemma pad_digits_stop f acc : pad_digits f 0 0 acc = acc.
Proof. by destruct f. Qed.

#[global] Arguments pad_digits : simpl never.

Lemma appendInt_nonneg x w : 0 <= x → appendInt x w = pad_digits 20 w x "".
Proof.
  intros H. unfold appendInt. destruct (Z.ltb_spec x 0); [lia|].
  by rewrite Z.abs_eq.
Qed.

Lemma appendInt_2 n :
  0 <= n < 100 →
  appendInt n 2 = String (chr (48 + n / 10)) (String (chr (48 + n mod 10)) "").
Proof.
  intros H. rewrite appendInt_nonneg by lia.
  do 2 (rewrite pad_digits_step by lia). simpl Z.sub.
  replace (n / 10 / 10) with 0 by dlia. rewrite pad_digits_stop.
  by replace (n / 10 mod 10) with (n / 10) by dlia.
Qed.

Lemma appendInt_4 n :
  0 <= n < 10000 →
  appendInt n 4 =
  String (chr (48 + n / 1000)) (String (chr (48 + n / 100 mod 10))
    (String (chr (48 + n / 10 mod 10)) (String (chr (48 + n mod 10)) ""))).
Proof.
  intros H. rewrite appendInt_nonneg by lia.
  do 4 (rewrite pad_digits_step by lia). simpl Z.sub.
  replace (n / 10 / 10 / 10 / 10) with 0 by dlia. rewrite pad_digits_stop.
  replace (n / 10 / 10 / 10 mod 10) with (n / 1000) by dlia.
  by replace (n / 10 / 10 mod 10) with (n / 100 mod 10) by dlia.
Qed.

Lemma chr_code c : chr (code c) = c.
Proof.
  unfold chr, code. by rewrite N2Z.id, Ascii.ascii_N_embedding.
Qed.

(** A digit byte is [48 + k] for a decimal digit [k]. *)
Lemma is_digit_inv c : is_digit c = true → ∃ k, c = chr (48 + k) ∧ 0 <= k < 10.
Proof.
  unfold is_digit. rewrite andb_true_iff, !Z.leb_le. intros [??].
  exists (code c - 48). split; [|lia].
  replace (48 + (code c - 48)) with (code c) by lia. by rewrite chr_code.
Qed.

(** *** Text that is not ASCII *)

Example ToUpper_dotless : ToUpper "dınar" = "DINAR".
Proof. vm_compute. reflexivity. Qed.
Example TrimSpace_unicode :
  TrimSpace (String (chr 194) (String (chr 160) ("FOR é" +:+ String (chr 226) (String (chr 128) (String (chr 131) " "))))) = "FOR é".
Proof. vm_compute. reflexivity. Qed.
