(* ===== verification/Errs.v ===== *)
(** * Errors

    [internal/errs/errors.go] (re-exported by [errors.go]) and the error
    values of the packages the library calls.  [fmt.Errorf] with [%w] is
    [Wrap]: [errors.Is] and [errors.As] look through it.  The text of a
    message is kept as its format string; its arguments are not rendered. *)

From S2P Require Import Prelude.

Inductive sentinel : Type :=
| ErrParentNotFound
| ErrTenantNotFound
| ErrParentAlreadyExists
| ErrTenantAlreadyExists
| ErrTargetNotPartitioned
| ErrColumnMissing
| ErrParentNotTenanted
| ErrArchiveSchemaMissing
| ErrIntervalMismatch
| ErrLockContention
| ErrHookVetoed
| ErrDefaultPartitionMissing
| ErrInvalidIdentifier.

Inductive error : Type :=
| Sentinel (s : sentinel)
| Msg (m : string)                 (* errors.New, fmt.Errorf without %w *)
| Wrap (m : string) (e : error)    (* fmt.Errorf with %w *)
| Canceled                         (* context.Canceled *)
| DeadlineExceeded                 (* context.DeadlineExceeded *)
| NoRows                           (* pgx.ErrNoRows *)
| PgError (code : string)          (* *pgconn.PgError *)
| NetError (timeout : bool).       (* net.Error *)

#[export] Instance sentinel_eq_dec : EqDecision sentinel.
Proof. solve_decision. Defined.
#[export] Instance error_eq_dec : EqDecision error.
Proof. solve_decision. Defined.

Abbreviation res := (result error).

(** The error at the end of the chain of wrappers. *)
Fixpoint cause (e : error) : error :=
  match e with Wrap _ e' => cause e' | _ => e end.

(** [errors.Is(err, target)] for a [target] that wraps nothing. *)
Definition Is (e target : error) : bool := bool_decide (cause e = target).

(** The [if err != nil { return fmt.Errorf("m: %w", err) }] step. *)
Definition wrap {A} (m : string) (r : res A) : res A :=
  match r with Ok a => Ok a | Err e => Err (Wrap m e) end.

Lemma Is_wrap m e t : Is (Wrap m e) t = Is e t.
Proof. done. Qed.

Lemma cause_wrap m e : cause (Wrap m e) = cause e.
Proof. done. Qed.

Lemma wrap_ok {A} m (r : res A) a : wrap m r = Ok a ↔ r = Ok a.
Proof. destruct r; simpl; split; congruence. Qed.
