(* ===== verification/TimeFormat.v ===== *)
(** * The two time layouts the library writes, and the one it reads back

    [naming.DateNoHyphens] is ["20060102"]; [tsLiteral] writes RFC 3339 in
    UTC.  [time.ParseInLocation] on ["20060102"] reads exactly eight digits
    and checks the month and the day of the month. *)

From S2P Require Import Prelude GoTime GoStrings Errs.
Local Open Scope string_scope.
Local Open Scope Z_scope.

(** ** Definitions *)

(** [t.Format("20060102")]. *)
Definition FormatDate (t : Time) : string :=
  appendInt (Year t) 4 +:+ appendInt (Month t) 2 +:+ appendInt (DayOf t) 2.

(** [t.UTC().Format(time.RFC3339)]. *)
Definition FormatRFC3339_UTC (t : Time) : string :=
  let u := UTC t in
  appendInt (Year u) 4 +:+ "-" +:+ appendInt (Month u) 2 +:+ "-"
  +:+ appendInt (DayOf u) 2 +:+ "T" +:+ appendInt (HourOf u) 2 +:+ ":"
  +:+ appendInt (MinuteOf u) 2 +:+ ":" +:+ appendInt (SecondOf u) 2 +:+ "Z".

(** [time.ParseInLocation("20060102", s, time.UTC)]. *)
Definition ParseDate (s : string) : res Time :=
  match parse_digits (slice 0 4 s), parse_digits (slice 4 6 s),
        parse_digits (slice 6 8 s) with
  | Some y, Some m, Some d =>
      if negb (String.length s =? 8)%nat then Err (Msg "parsing time: extra text")
      else if (m <=? 0) || (12 <? m) then Err (Msg "parsing time: month out of range")
      else if (d <? 1) || (days_in y m <? d) then Err (Msg "parsing time: day out of range")
      else Ok (DateUTC y m d 0 0 0 0)
  | _, _, _ => Err (Msg "parsing time: cannot parse")
  end.

(** Midnight UTC of a day whose year has at most four digits: the times
    ["20060102"] can write without loss. *)
Definition day_stamp (t : Time) : bool :=
  (zone t =? 0) && (local_clock t =? 0) && (0 <=? Year t) && (Year t <=? 9999).

(** ** Facts *)

Lemma digits_value_chr acc z s :
  0 <= z < 10 → digits_value acc (String (chr (48 + z)) s) = digits_value (acc * 10 + z) s.
Proof.
  intros H. simpl. rewrite is_digit_chr, code_chr by lia. f_equal. lia.
Qed.

Lemma DayOf_bounds t : 1 <= DayOf t <= days_in (Year t) (Month t).
Proof.
  pose proof (civil_of_days_valid (local_day t)) as H.
  unfold DayOf, Year, Month.
  destruct (civil_of_days (local_day t)) as [[y m] d]. apply H.
Qed.

Lemma DayOf_small t : 1 <= DayOf t <= 31.
Proof.
  pose proof (DayOf_bounds t). pose proof (Month_bounds t).
  pose proof (days_in_bounds (Year t) (Month t)). lia.
Qed.

(** The eight digits written for a four-digit year. *)
Lemma FormatDate_digits t :
  0 <= Year t <= 9999 →
  FormatDate t =
  String (chr (48 + Year t / 1000)) (String (chr (48 + Year t / 100 mod 10))
  (String (chr (48 + Year t / 10 mod 10)) (String (chr (48 + Year t mod 10))
  (String (chr (48 + Month t / 10)) (String (chr (48 + Month t mod 10))
  (String (chr (48 + DayOf t / 10)) (String (chr (48 + DayOf t mod 10)) ""))))))).
Proof.
  intros H. unfold FormatDate.
  pose proof (Month_bounds t). pose proof (DayOf_small t).
  rewrite appendInt_4, !appendInt_2 by lia. done.
Qed.

Lemma FormatDate_length t : 0 <= Year t <= 9999 → String.length (FormatDate t) = 8%nat.
Proof. intros H. by rewrite FormatDate_digits. Qed.

Lemma FormatDate_alnum t :
  0 <= Year t <= 9999 → all_bytes is_upper_alnum (FormatDate t) = true.
Proof.
  intros H. rewrite FormatDate_digits by done.
  pose proof (Month_bounds t). pose proof (DayOf_small t).
  cbn [all_bytes]. rewrite !andb_true_iff.
  repeat split; apply is_digit_upper_alnum, is_digit_chr; dlia.
Qed.

(** Reading back what was written gives midnight UTC of the same civil day. *)
Lemma ParseDate_FormatDate t :
  0 <= Year t <= 9999 →
  ParseDate (FormatDate t) = Ok (mkTime ((local_day t - unix_epoch_days) * Day) 0).
Proof.
  intros H. rewrite FormatDate_digits by done.
  pose proof (Month_bounds t). pose proof (DayOf_bounds t). pose proof (DayOf_small t).
  unfold ParseDate, slice.
  cbn [String.substring Nat.sub parse_digits String.length Nat.eqb negb].
  rewrite !digits_value_chr by dlia. cbn [digits_value].
  replace ((((0 * 10 + Year t / 1000) * 10 + Year t / 100 mod 10) * 10
            + Year t / 10 mod 10) * 10 + Year t mod 10) with (Year t) by dlia.
  replace ((0 * 10 + Month t / 10) * 10 + Month t mod 10) with (Month t) by dlia.
  replace ((0 * 10 + DayOf t / 10) * 10 + DayOf t mod 10) with (DayOf t) by dlia.
  destruct (Z.leb_spec (Month t) 0), (Z.ltb_spec 12 (Month t)); [lia..|].
  destruct (Z.ltb_spec (DayOf t) 1), (Z.ltb_spec (days_in (Year t) (Month t)) (DayOf t));
    [lia..|]. cbn [orb].
  rewrite DateUTC_day. repeat f_equal. lia.
Qed.

Lemma ParseDate_day_stamp t : day_stamp t = true → ParseDate (FormatDate t) = Ok t.
Proof.
  unfold day_stamp. rewrite !andb_true_iff, !Z.eqb_eq, !Z.leb_le.
  intros [[[Hz Hc] H1] H2]. rewrite ParseDate_FormatDate by lia.
  pose proof (utc_ns_split t Hz) as Hs. rewrite Hc, Z.add_0_r in Hs.
  rewrite <- Hs, <- Hz. by destruct t.
Qed.

Lemma digits_value_Some acc c s v :
  digits_value acc (String c s) = Some v →
  ∃ k, c = chr (48 + k) ∧ 0 <= k < 10 ∧ digits_value (acc * 10 + k) s = Some v.
Proof.
  intros H. assert (Hd : is_digit c = true) by (simpl in H; by case_match).
  destruct (is_digit_inv c Hd) as (k & -> & Hk).
  rewrite digits_value_chr in H by done. eauto.
Qed.

(** Conversely, a date that parses is the date written for the result. *)
Lemma FormatDate_ParseDate s t :
  ParseDate s = Ok t → FormatDate t = s ∧ 0 <= Year t <= 9999 ∧ day_stamp t = true.
Proof.
  unfold ParseDate, slice.
  destruct s as [|c0 [|c1 [|c2 [|c3 [|c4 [|c5 [|c6 [|c7 [|c8 s]]]]]]]]];
    cbn [String.substring Nat.sub parse_digits String.length Nat.eqb negb];
    try (intros H; repeat case_match; congruence).
  destruct (digits_value 0 (String c0 _)) as [y|] eqn:Ey; [|done].
  destruct (digits_value 0 (String c4 _)) as [m|] eqn:Em; [|done].
  destruct (digits_value 0 (String c6 _)) as [d|] eqn:Ed; [|done].
  destruct (Z.leb_spec m 0), (Z.ltb_spec 12 m), (Z.ltb_spec d 1),
    (Z.ltb_spec (days_in y m) d); try done.
  cbn [orb]. intros <-%Ok_inj.
  apply digits_value_Some in Ey as (k0 & -> & ? & Ey).
  apply digits_value_Some in Ey as (k1 & -> & ? & Ey).
  apply digits_value_Some in Ey as (k2 & -> & ? & Ey).
  apply digits_value_Some in Ey as (k3 & -> & ? & Ey).
  apply digits_value_Some in Em as (k4 & -> & ? & Em).
  apply digits_value_Some in Em as (k5 & -> & ? & Em).
  apply digits_value_Some in Ed as (k6 & -> & ? & Ed).
  apply digits_value_Some in Ed as (k7 & -> & ? & Ed).
  cbn [digits_value] in *. simplify_eq.
  match goal with |- context [DateUTC ?a ?b ?c _ _ _ _] => set (y := a) in *; set (m := b) in *; set (d := c) in * end.
  assert (Hv : valid_date y m d) by (unfold valid_date; lia).
  destruct (DateUTC_civil y m d Hv) as (_ & Hy & Hm & Hd & Hc & Hz).
  assert (Hr : 0 <= y <= 9999) by (unfold y; lia).
  rewrite FormatDate_digits by (rewrite Hy; done).
  unfold day_stamp. rewrite Hy, Hm, Hd, Hc, Hz.
  split; [|split; [done|]].
  - unfold y, m, d. repeat f_equal; dlia.
  - rewrite !andb_true_iff, !Z.eqb_eq, !Z.leb_le. lia.
Qed.
