(* ===== verification/TimeParse.v ===== *)
(** * [time.Parse] on the layouts of the importer

    The six layouts of [parse_bounds.go] are a date, a separator, a clock and
    a zone offset.  As in package [time]: the hour may have one digit, the
    separator [" "] stands for any run of spaces, a fraction of a second is
    accepted after the seconds whether the layout has one or not, and only its
    first nine digits count; an offset may say 24 hours or 60 minutes. *)

From S2P Require Import Prelude GoTime GoStrings Errs TimeFormat.
Local Open Scope string_scope.
Local Open Scope Z_scope.

(** ** Definitions *)

Definition errBad : error := Msg "parsing time: cannot parse".

(** [getnum(s, fixed)]: two digits, or one when they need not be two. *)
Definition digit (c : ascii) : Z := code c - 48.
Definition getnum (fixed : bool) (s : string) : res (Z * string) :=
  match s with
  | String a (String b r) =>
      if negb (is_digit a) then Err errBad
      else if is_digit b then Ok (digit a * 10 + digit b, r)
      else if fixed then Err errBad else Ok (digit a, String b r)
  | String a "" => if is_digit a && negb fixed then Ok (digit a, "") else Err errBad
  | "" => Err errBad
  end.
Definition in_range (lo hi : Z) (r : Z * string) : res (Z * string) :=
  if (lo <=? r.1) && (r.1 <=? hi) then Ok r else Err (Msg "parsing time: out of range").

(** [stdLongYear]. *)
Definition getyear (s : string) : res (Z * string) :=
  match s with
  | String a (String b (String c (String d r))) =>
      if is_digit a && is_digit b && is_digit c && is_digit d
      then Ok (((digit a * 10 + digit b) * 10 + digit c) * 10 + digit d, r)
      else Err errBad
  | _ => Err errBad
  end.

(** [skip(value, prefix)] for a one-byte prefix. *)
Fixpoint cutspace (s : string) : string :=
  match s with
  | String c r => if Ascii.eqb c " " then cutspace r else s
  | "" => ""
  end.
Definition skip (c : ascii) (s : string) : res string :=
  match s with
  | String d r => if Ascii.eqb d c then Ok (if Ascii.eqb c " " then cutspace r else r) else Err errBad
  | "" => if Ascii.eqb c " " then Ok "" else Err errBad
  end.

(** The digits at the front, and [parseNanoseconds] of them. *)
Fixpoint take_digits (s : string) : string * string :=
  match s with
  | String c r => if is_digit c then let '(d, r') := take_digits r in (String c d, r') else ("", s)
  | "" => ("", "")
  end.
Definition nanoseconds (digits : string) : Z :=
  let d := slice 0 9 digits in
  default 0 (parse_digits d) * 10 ^ (9 - Z.of_nat (String.length d)).
Definition fraction (s : string) : Z * string :=
  match s with
  | String p (String d _ as r) =>
      if (Ascii.eqb p "." || Ascii.eqb p ",") && is_digit d
      then let '(ds, r') := take_digits r in (nanoseconds ds, r')
      else (0, s)
  | _ => (0, s)
  end.

(** The zone formats ["-07"], ["-0700"] and ["Z07:00"]. *)
Inductive zone_format := ShortTZ | NumTZ | ColonTZ.
Definition signed (sign : ascii) (hr mm : Z) (rest : string) : res (Z * string) :=
  if (24 <? hr) || (60 <? mm) then Err (Msg "parsing time: time zone offset out of range")
  else if Ascii.eqb sign "+" then Ok ((hr * 60 + mm) * 60, rest)
  else if Ascii.eqb sign "-" then Ok (- ((hr * 60 + mm) * 60), rest)
  else Err errBad.
Definition offset (f : zone_format) (s : string) : res (Z * string) :=
  match f, s with
  | ColonTZ, String "Z" r => Ok (0, r)
  | ShortTZ, String sg r => '(hr, r) ← getnum true r; signed sg hr 0 r
  | NumTZ, String sg r => '(hr, r) ← getnum true r; '(mm, r) ← getnum true r; signed sg hr mm r
  | ColonTZ, String sg r =>
      '(hr, r) ← getnum true r; r ← skip ":" r; '(mm, r) ← getnum true r; signed sg hr mm r
  | _, "" => Err errBad
  end.

(** A layout: the separator between date and clock, and the zone. *)
Record layout := mkLayout { separator : ascii; zone_of : zone_format }.

(** [time.Parse(layout, value)] followed by [UTC()]. *)
Definition ParseUTC (l : layout) (value : string) : res Time :=
  '(y, s) ← getyear value;
  s ← skip "-" s;
  '(m, s) ← getnum true s ≫= in_range 1 12;
  s ← skip "-" s;
  '(d, s) ← getnum true s;
  s ← skip (separator l) s;
  '(hh, s) ← getnum false s ≫= in_range 0 23;
  s ← skip ":" s;
  '(mm, s) ← getnum true s ≫= in_range 0 59;
  s ← skip ":" s;
  '(ss, s) ← getnum true s ≫= in_range 0 59;
  let '(ns, s) := fraction s in
  '(off, s) ← offset (zone_of l) s;
  if negb (bool_decide (s = "")) then Err (Msg "parsing time: extra text")
  else if (d <? 1) || (days_in y m <? d) then Err (Msg "parsing time: day out of range")
  else Ok (Add (DateUTC y m d hh mm ss ns) (- off * Second)).

(** ** Facts *)

(** Whole seconds of a year with at most four digits, in UTC. *)
Definition second_stamp (t : Time) : bool :=
  (zone t =? 0) && (unix_ns t mod Second =? 0) && (0 <=? Year t) && (Year t <=? 9999).

(** [t] as PostgreSQL prints a [timestamptz] in a UTC session. *)
Definition pg_timestamp (t : Time) : string :=
  appendInt (Year t) 4 +:+ "-" +:+ appendInt (Month t) 2 +:+ "-" +:+ appendInt (DayOf t) 2 +:+ " "
  +:+ appendInt (HourOf t) 2 +:+ ":" +:+ appendInt (MinuteOf t) 2 +:+ ":" +:+ appendInt (SecondOf t) 2
  +:+ "+00".

Lemma digit_chr z : 0 <= z < 10 → digit (chr (48 + z)) = z.
Proof. intros H. unfold digit. rewrite code_chr by lia. lia. Qed.

Lemma getnum_appendInt fixed z s :
  0 <= z < 100 → getnum fixed (appendInt z 2 +:+ s) = Ok (z, s).
Proof.
  intros H. rewrite appendInt_2 by lia. cbn [String.append getnum].
  rewrite !is_digit_chr by dlia. cbn [negb]. rewrite !digit_chr by dlia. do 2 f_equal. dlia.
Qed.
Lemma getyear_appendInt y s : 0 <= y <= 9999 → getyear (appendInt y 4 +:+ s) = Ok (y, s).
Proof.
  intros H. rewrite appendInt_4 by lia. cbn [String.append getyear].
  rewrite !is_digit_chr by dlia. cbn [andb]. rewrite !digit_chr by dlia. do 2 f_equal. dlia.
Qed.
Lemma in_range_Ok lo hi z s : lo <= z <= hi → in_range lo hi (z, s) = Ok (z, s).
Proof. intros H. unfold in_range. cbn. by rewrite !(proj2 (Z.leb_le _ _)) by lia. Qed.

Lemma appendInt_head z s : 0 <= z < 100 → ∃ c r, appendInt z 2 +:+ s = String c r ∧ Ascii.eqb c " " = false.
Proof.
  intros H. rewrite appendInt_2 by lia. cbn [String.append]. eexists _, _. split; [reflexivity|].
  apply Ascii.eqb_neq. intros Hc. assert (is_digit " " = true) as Hd; [|done].
  rewrite <- Hc. apply is_digit_chr. dlia.
Qed.
Lemma cutspace_appendInt z s : 0 <= z < 100 → cutspace (appendInt z 2 +:+ s) = appendInt z 2 +:+ s.
Proof. intros (c & r & -> & Hc)%(appendInt_head z s). cbn. by rewrite Hc. Qed.

Lemma clock_parts t :
  unix_ns t mod Second = 0 →
  local_clock t = HourOf t * Hour + MinuteOf t * Minute + SecondOf t * Second ∧
  0 <= HourOf t <= 23 ∧ 0 <= MinuteOf t <= 59 ∧ 0 <= SecondOf t <= 59.
Proof.
  unfold HourOf, MinuteOf, SecondOf, local_clock, local_ns, Day, Hour, Minute, Second, Millisecond, Microsecond.
  generalize (unix_ns t) (zone t) unix_epoch_days. intros n z e H.
  split; [|split_and!]; dlia.
Qed.

(** A parser after what it reads. *)
Lemma bind_Ok {A B} (a : A) (k : A → res B) : Ok a ≫= k = k a.
Proof. done. Qed.
Lemma skip_literal c s : Ascii.eqb c " " = false → skip c (String c "" +:+ s) = Ok s.
Proof. intros Hc. cbn. by rewrite Ascii.eqb_refl, Hc. Qed.
Lemma skip_space z s : 0 <= z < 100 → skip " " (" " +:+ appendInt z 2 +:+ s) = Ok (appendInt z 2 +:+ s).
Proof. intros H. cbn. by rewrite cutspace_appendInt. Qed.
Ltac parse_literals :=
  repeat first
    [ rewrite bind_Ok | rewrite getnum_appendInt by lia | rewrite in_range_Ok by lia
    | rewrite skip_literal by reflexivity | rewrite skip_space by lia ].

(** Reading back what PostgreSQL prints in a UTC session. *)
Lemma ParseUTC_pg_timestamp t :
  second_stamp t = true → ParseUTC (mkLayout " " ShortTZ) (pg_timestamp t) = Ok t.
Proof.
  unfold second_stamp. rewrite !andb_true_iff, !Z.eqb_eq, !Z.leb_le. intros [[[Hz Hs] Hy1] Hy2].
  pose proof (Month_bounds t). pose proof (DayOf_bounds t). pose proof (DayOf_small t).
  destruct (clock_parts t Hs) as (Hc & ? & ? & ?). unfold ParseUTC, pg_timestamp.
  rewrite getyear_appendInt by lia. cbn [separator zone_of]. parse_literals.
  change (fraction "+00") with (0, "+00"). cbv beta iota.
  change (offset ShortTZ "+00") with (Ok (E := error) (0, "")). rewrite bind_Ok.
  rewrite bool_decide_true by done. cbn [negb].
  rewrite !(proj2 (Z.ltb_ge _ _)) by lia. cbn [orb]. f_equal.
  rewrite DateUTC_month_start. unfold Add. cbn [unix_ns zone].
  pose proof (utc_ns_split t Hz) as Ht. pose proof (local_day_month_start t) as Hm.
  unfold month_index in Hm. fold (Year t) (Month t) in Hm.
  transitivity (mkTime (unix_ns t) (zone t)); [|by destruct t]. rewrite Hz. f_equal.
  rewrite <- Hm. lia.
Qed.
