(* ===== verification/Naming.v ===== *)
(** * Partition names ([internal/naming/naming.go])

    The grammar [{schema}.{parent}[_TENANT]_{YYYYMMDD|default}] with its two
    directions, [Build] and [Parse], and the labels of the four supported
    intervals. *)

From S2P Require Import Prelude GoTime GoStrings Errs TimeFormat.
Local Open Scope string_scope.
Local Open Scope Z_scope.

(** ** Definitions *)

Definition PartitionMonthInterval : Z := Hour * 24 * 30.
Definition PartitionWeekInterval : Z := Hour * 24 * 7.
Definition PartitionDayInterval : Z := Hour * 24.
Definition PartitionHourInterval : Z := Hour.

Record Bounds := mkBounds { From : Time; To : Time }.

#[export] Instance Bounds_eq_dec : EqDecision Bounds.
Proof. solve_decision. Defined.

(** The zero value of [Bounds]. *)
Definition zero_Bounds : Bounds := mkBounds zero_Time zero_Time.

Record TableName := mkTableName {
  SchemaName : string;
  ParentName : string;
  TBounds : Bounds;
  TenantId : string;
  IsDefault : bool;
  Interval : Z
}.

#[export] Instance TableName_eq_dec : EqDecision TableName.
Proof. solve_decision. Defined.

(** [isUpperAlphanumeric]: a rune outside ASCII is outside both ranges, and
    so is each of its bytes. *)
Definition isUpperAlphanumeric (s : string) : bool :=
  match s with EmptyString => false | _ => all_bytes is_upper_alnum s end.

(** [func (tn TableName) Build() (string, error)] *)
Definition Build (tn : TableName) : res string :=
  if negb (word_regex (SchemaName tn)) then
    Err (Msg "schema name contains invalid characters")
  else if negb (word_regex (ParentName tn)) then
    Err (Msg "parent name contains invalid characters")
  else
    let b := SchemaName tn +:+ "." +:+ ParentName tn in
    b ← (if (0 <? String.length (TenantId tn))%nat then
           if negb (word_regex (TenantId tn)) then
             Err (Msg "tenant id contains invalid characters")
           else Ok (b +:+ "_" +:+ ToUpper (TenantId tn))
         else Ok b);
    if IsDefault tn then Ok (b +:+ "_default")
    else Ok (b +:+ "_" +:+ FormatDate (From (TBounds tn))).

(** The tenant heuristic of [Parse]: the last segment of [remainder] is a
    tenant when it is upper-case alphanumeric.  Result: (tenant, parent). *)
Definition parse_tenant (remainder : string) : string * string :=
  match CutLast "_" remainder with
  | Some (before, candidate) =>
      if isUpperAlphanumeric candidate then (candidate, before) else ("", remainder)
  | None => ("", remainder)
  end.

(** [func (TableName) Parse(fqName string) (TableName, error)] *)
Definition Parse (fqName : string) : res TableName :=
  match Cut "." fqName with
  | None => Err (Msg "fqName missing schema separator: %q")
  | Some (schema, rest) =>
      if negb (word_regex schema) then
        Err (Msg "schema name contains invalid characters")
      else match CutLast "_" rest with
      | None => Err (Msg "fqName missing suffix: %q")
      | Some (remainder, suffix) =>
          '(isdef, bounds) ←
            (if bool_decide (suffix = "default") then Ok (true, zero_Bounds)
             else if (String.length suffix =? 8)%nat then
               match ParseDate suffix with
               | Ok t => Ok (false, mkBounds t zero_Time)
               | Err e => Err (Wrap "invalid date suffix %q: %w" e)
               end
             else Err (Msg "suffix must be default or YYYYMMDD, got %q"));
          let '(tenant, parent) := parse_tenant remainder in
          if negb (word_regex parent) then
            Err (Msg "parent name contains invalid characters")
          else Ok (mkTableName schema parent bounds tenant isdef 0)
      end
  end.

(** [func PartitionIntervalLabel(d time.Duration) (string, error)] *)
Definition PartitionIntervalLabel (d : Z) : res string :=
  if d =? PartitionHourInterval then Ok "hourly"
  else if d =? PartitionDayInterval then Ok "daily"
  else if d =? PartitionWeekInterval then Ok "weekly"
  else if d =? PartitionMonthInterval then Ok "monthly"
  else Err (Msg "partman: unsupported partition interval %s; use one of the PartitionXInterval constants").

(** ** Specifications *)

(** The part of a name that its rendering keeps: the tenant in upper case,
    and of the bounds only the day of [From]. *)
Definition rendered_from (tn : TableName) : Time :=
  mkTime ((local_day (From (TBounds tn)) - unix_epoch_days) * Day) 0.

Definition parsed_form (tn : TableName) : TableName :=
  mkTableName (SchemaName tn) (ParentName tn)
    (if IsDefault tn then zero_Bounds else mkBounds (rendered_from tn) zero_Time)
    (ToUpper (TenantId tn)) (IsDefault tn) 0.

(** The heuristic reads the tenant back: without a tenant, the parent's last
    segment must not look like one; a tenant must be a single segment. *)
Definition tenant_unambiguous (tn : TableName) : bool :=
  match TenantId tn with
  | EmptyString =>
      match CutLast "_" (ParentName tn) with
      | Some (_, candidate) => negb (isUpperAlphanumeric candidate)
      | None => true
      end
  | t => negb (has_byte "_" t)
  end.

Definition year_in_range (tn : TableName) : Prop :=
  IsDefault tn = false → 0 <= Year (From (TBounds tn)) <= 9999.

(** What [Build] requires of its input. *)
Definition build_valid (tn : TableName) : bool :=
  word_regex (SchemaName tn) && word_regex (ParentName tn)
  && match TenantId tn with EmptyString => true | t => word_regex t end.

Definition name_stem (tn : TableName) : string :=
  ParentName tn +:+
  match TenantId tn with EmptyString => "" | t => String "_" (ToUpper t) end.

Definition name_suffix (tn : TableName) : string :=
  if IsDefault tn then "default" else FormatDate (From (TBounds tn)).

(** ** Facts *)

Lemma Build_spec tn :
  Build tn =
  if build_valid tn then
    Ok (SchemaName tn +:+ String "." (name_stem tn +:+ String "_" (name_suffix tn)))
  else if negb (word_regex (SchemaName tn)) then
    Err (Msg "schema name contains invalid characters")
  else if negb (word_regex (ParentName tn)) then
    Err (Msg "parent name contains invalid characters")
  else Err (Msg "tenant id contains invalid characters").
Proof.
  unfold Build, build_valid, name_stem, name_suffix.
  destruct (word_regex (SchemaName tn)); [|done].
  destruct (word_regex (ParentName tn)); [|done]. cbn [negb andb].
  destruct (TenantId tn) as [|c t]; cbn [String.length Nat.ltb Nat.leb].
  - cbn. destruct (IsDefault tn); by rewrite ?app_string_nil_r, ?app_string_assoc.
  - destruct (word_regex (String c t)); [|done]. cbn [negb mbind result_bind].
    destruct (IsDefault tn); f_equal; simpl; by rewrite ?app_string_assoc.
Qed.

Lemma Build_Ok tn s :
  Build tn = Ok s ↔
  build_valid tn = true ∧
  s = SchemaName tn +:+ String "." (name_stem tn +:+ String "_" (name_suffix tn)).
Proof.
  rewrite Build_spec. destruct (build_valid tn); [|repeat case_match; by split; [|intros []]].
  split; [by intros [= <-]|by intros [_ ->]].
Qed.

Lemma name_suffix_no_underscore tn :
  year_in_range tn →
  all_bytes (λ d, negb (Ascii.eqb d "_")) (name_suffix tn) = true.
Proof.
  unfold year_in_range, name_suffix. intros Hy. destruct (IsDefault tn); [done|].
  eapply all_bytes_impl; [apply is_upper_alnum_not_underscore|].
  by apply FormatDate_alnum, Hy.
Qed.

Lemma parse_suffix tn :
  year_in_range tn →
  (if bool_decide (name_suffix tn = "default") then Ok (true, zero_Bounds)
   else if (String.length (name_suffix tn) =? 8)%nat then
     match ParseDate (name_suffix tn) with
     | Ok t => Ok (false, mkBounds t zero_Time)
     | Err e => Err (Wrap "invalid date suffix %q: %w" e)
     end
   else Err (Msg "suffix must be default or YYYYMMDD, got %q"))
  = Ok (IsDefault tn, TBounds (parsed_form tn)).
Proof.
  unfold year_in_range, name_suffix, parsed_form. cbn [TBounds].
  destruct (IsDefault tn); [done|]. intros Hy. specialize (Hy eq_refl).
  rewrite bool_decide_eq_false_2.
  - by rewrite FormatDate_length, ParseDate_FormatDate.
  - intros H. apply (f_equal String.length) in H. by rewrite FormatDate_length in H.
Qed.

(** [Parse] on a built name, for every input [Build] accepts. *)
Lemma Parse_of_Build tn s :
  Build tn = Ok s → year_in_range tn →
  Parse s =
  let '(tenant, parent) := parse_tenant (name_stem tn) in
  if negb (word_regex parent) then Err (Msg "parent name contains invalid characters")
  else Ok (mkTableName (SchemaName tn) parent (TBounds (parsed_form tn)) tenant
             (IsDefault tn) 0).
Proof.
  intros [Hv ->]%Build_Ok Hy. unfold build_valid in Hv.
  apply andb_true_iff in Hv as [[Hs Hp]%andb_true_iff Ht].
  unfold Parse. rewrite Cut_app; last first.
  { eapply all_bytes_impl; [apply is_word_not_dot|]. by apply word_regex_bytes. }
  rewrite Hs. cbn [negb].
  rewrite CutLast_app by (by apply name_suffix_no_underscore).
  by rewrite parse_suffix.
Qed.

Lemma parse_tenant_stem tn :
  tenant_unambiguous tn = true → build_valid tn = true →
  parse_tenant (name_stem tn) = (ToUpper (TenantId tn), ParentName tn).
Proof.
  unfold tenant_unambiguous, build_valid, parse_tenant, name_stem.
  intros Hu [_ Ht]%andb_true_iff.
  destruct (TenantId tn) as [|c t] eqn:E.
  - rewrite app_string_nil_r. destruct (CutLast "_" (ParentName tn)) as [[a b]|]; [|done].
    apply negb_true_iff in Hu. by rewrite Hu.
  - unfold has_byte in Hu. rewrite negb_involutive in Hu.
    assert (Ha : all_bytes is_upper_alnum (ToUpper (String c t)) = true)
      by (apply ToUpper_alnum; [by apply word_regex_bytes|done]).
    rewrite CutLast_app.
    + destruct (ToUpper (String c t)) eqn:Hn; [by apply ToUpper_nil in Hn|].
      unfold isUpperAlphanumeric. by rewrite Ha.
    + eapply all_bytes_impl; [apply is_upper_alnum_not_underscore|done].
Qed.

(** The tenant [Parse] reports is upper-case alphanumeric, or absent. *)
Lemma parse_tenant_form r :
  all_bytes is_upper_alnum (parse_tenant r).1 = true.
Proof.
  unfold parse_tenant. destruct (CutLast "_" r) as [[a b]|]; [|done].
  destruct (isUpperAlphanumeric b) eqn:E; [|done]. by destruct b.
Qed.

Lemma ToUpper_has_underscore s :
  all_bytes is_word s = true → all_bytes is_upper_alnum (ToUpper s) = true → has_byte "_" s = false.
Proof.
  unfold has_byte. intros Hw H. apply negb_false_iff.
  induction s as [|c s IH]; [done|]. apply andb_true_iff in Hw as [Hcw Hw].
  rewrite ToUpper_cons in H by by apply is_word_ascii. simpl in *.
  apply andb_true_iff in H as [Hc Hs]. rewrite (IH Hw Hs), andb_true_r.
  apply negb_true_iff, Ascii.eqb_neq. by intros ->.
Qed.

Lemma FormatDate_local_day t u : local_day t = local_day u → FormatDate t = FormatDate u.
Proof. intros H. unfold FormatDate, Year, Month, DayOf. by rewrite H. Qed.

Lemma name_stem_upper tn1 tn2 :
  ParentName tn1 = ParentName tn2 →
  ToUpper (TenantId tn1) = ToUpper (TenantId tn2) →
  name_stem tn1 = name_stem tn2.
Proof.
  unfold name_stem. intros -> Ht.
  destruct (TenantId tn1) as [|c1 t1], (TenantId tn2) as [|c2 t2]; [done| | |by rewrite Ht].
  - symmetry in Ht. by apply ToUpper_nil in Ht.
  - by apply ToUpper_nil in Ht.
Qed.

(** Two valid names with the same parsed form are rendered alike. *)
Lemma Build_parsed_form tn1 tn2 :
  build_valid tn1 = true → build_valid tn2 = true →
  parsed_form tn1 = parsed_form tn2 → Build tn1 = Build tn2.
Proof.
  intros Hv1 Hv2. unfold parsed_form. intros [= Hs Hp Hb Ht Hd].
  rewrite !Build_spec, Hv1, Hv2, Hs, (name_stem_upper tn1 tn2 Hp Ht).
  unfold name_suffix. rewrite Hd in *. destruct (IsDefault tn2); [done|].
  rewrite (FormatDate_local_day (From (TBounds tn1)) (From (TBounds tn2))); [done|].
  apply (f_equal (λ b, unix_ns (From b))) in Hb. cbn [unix_ns From rendered_from] in Hb.
  unfold Day, Hour, Minute, Second, Millisecond, Microsecond in Hb. lia.
Qed.

Lemma parse_tenant_join r t p :
  parse_tenant r = (t, p) →
  r = p +:+ match t with EmptyString => "" | _ => String "_" t end.
Proof.
  unfold parse_tenant. destruct (CutLast "_" r) as [[a b]|] eqn:E.
  - apply CutLast_Some in E as [-> _].
    destruct (isUpperAlphanumeric b) eqn:Eb; intros [= <- <-]; [by destruct b|].
    by rewrite app_string_nil_r.
  - intros [= <- <-]. by rewrite app_string_nil_r.
Qed.

(** ** Properties *)

(** [Parse] of a built name. *)
Lemma Parse_Build_unambiguous tn s :
  Build tn = Ok s → year_in_range tn →
  Parse s = Ok (parsed_form tn) ↔ tenant_unambiguous tn = true.
Proof.
  intros Hb Hy. rewrite (Parse_of_Build tn s Hb Hy).
  apply Build_Ok in Hb as [Hv _]. split.
  - destruct (parse_tenant (name_stem tn)) as [t p] eqn:E.
    destruct (negb (word_regex p)); [done|].
    unfold parsed_form. cbn [TBounds]. intros [= _ Ht].
    pose proof (parse_tenant_form (name_stem tn)) as Hf. rewrite E, Ht in Hf.
    unfold tenant_unambiguous, name_stem, parse_tenant in *.
    destruct (TenantId tn) as [|c t'] eqn:Et.
    + rewrite app_string_nil_r in E.
      destruct (CutLast "_" (ParentName tn)) as [[a b]|]; [|done].
      destruct (isUpperAlphanumeric b) eqn:Eb; [|done]. injection E as -> _.
      by rewrite Ht in Eb.
    + unfold build_valid in Hv. rewrite Et in Hv. apply andb_true_iff in Hv as [_ Hw%word_regex_bytes].
      by rewrite ToUpper_has_underscore.
  - intros Hu. rewrite parse_tenant_stem by done.
    apply andb_true_iff in Hv as [[_ Hp]%andb_true_iff _]. by rewrite Hp.
Qed.

(** C37: [Parse] recovers the parts of every built name exactly when the tenant
    heuristic is unambiguous: the tenant in upper case, midnight UTC of the
    day of [From], and zero values for [To] and [Interval]. *)
Theorem Parse_Build_iff tn s :
  Build tn = Ok s → year_in_range tn →
  Parse s = Ok (parsed_form tn) ↔ tenant_unambiguous tn = true.
Proof. apply Parse_Build_unambiguous. Qed.

(** [Build] and [Parse] are inverse on everything [Parse] accepts: the parts
    it returns are rendered as the very string that was parsed. *)
Theorem Build_Parse s tn : Parse s = Ok tn → Build tn = Ok s.
Proof.
  unfold Parse. destruct (Cut "." s) as [[schema rest]|] eqn:Ec; [|done].
  destruct (word_regex schema) eqn:Es; [|done]. cbn [negb].
  destruct (CutLast "_" rest) as [[r suf]|] eqn:El; [|done].
  apply Cut_Some in Ec as [-> _]. apply CutLast_Some in El as [-> _].
  destruct (parse_tenant r) as [t p] eqn:Et.
  pose proof (parse_tenant_form r) as Hf. rewrite Et in Hf.
  apply parse_tenant_join in Et as ->.
  assert (Hgen : ∀ (isdef : bool) b,
    (if isdef then suf = "default" else FormatDate (From b) = suf) →
    word_regex p = true →
    Build (mkTableName schema p b t isdef 0) =
    @Ok error string
      (schema +:+ String "." ((p +:+ match t with EmptyString => "" | _ => String "_" t end)
                              +:+ String "_" suf))).
  { intros isdef b Hsuf Hp. apply Build_Ok. unfold build_valid, name_stem, name_suffix.
    cbn [SchemaName ParentName TBounds TenantId IsDefault]. rewrite Es, Hp.
    split.
    - destruct t as [|c t]; [done|].
      eapply all_bytes_impl; [apply is_upper_alnum_word|exact Hf].
    - destruct t as [|c t]; [|rewrite (ToUpper_id (String c t)) by done];
        destruct isdef; by rewrite Hsuf. }
  case_bool_decide as Hd.
  - cbn. destruct (word_regex p) eqn:Hp; [|done]. intros [= <-]. by apply Hgen.
  - destruct (String.length suf =? 8)%nat; [|done].
    destruct (ParseDate suf) as [u|] eqn:Eu; [|done]. cbn.
    destruct (word_regex p) eqn:Hp; [|done]. intros [= <-].
    apply Hgen; [|done]. by apply FormatDate_ParseDate.
Qed.

(** Which names collide.  Among names the heuristic reads back, two are
    rendered alike exactly when they agree on schema, parent, upper-cased
    tenant, the default flag and the {e day} of [From]: tenants that differ in
    case only, or bounds that start on the same day, share one table name. *)
Theorem Build_collision tn1 tn2 :
  build_valid tn1 = true → build_valid tn2 = true →
  year_in_range tn1 → year_in_range tn2 →
  tenant_unambiguous tn1 = true → tenant_unambiguous tn2 = true →
  Build tn1 = Build tn2 ↔ parsed_form tn1 = parsed_form tn2.
Proof.
  intros Hv1 Hv2 Hy1 Hy2 Hu1 Hu2. split; [|by apply Build_parsed_form].
  intros Heq.
  assert (∃ s, Build tn1 = Ok s) as [s Hs] by (rewrite Build_spec, Hv1; eauto).
  pose proof (proj2 (Parse_Build_unambiguous tn1 s Hs Hy1) Hu1) as H1.
  rewrite Heq in Hs.
  pose proof (proj2 (Parse_Build_unambiguous tn2 s Hs Hy2) Hu2) as H2. congruence.
Qed.

(** [Build] fails exactly on a schema, parent or tenant that is not a word,
    and reports the first offender in that order. *)
Theorem Build_error tn e :
  Build tn = Err e ↔
  (word_regex (SchemaName tn) = false ∧ e = Msg "schema name contains invalid characters")
  ∨ (word_regex (SchemaName tn) = true ∧ word_regex (ParentName tn) = false
     ∧ e = Msg "parent name contains invalid characters")
  ∨ (word_regex (SchemaName tn) = true ∧ word_regex (ParentName tn) = true
     ∧ TenantId tn ≠ "" ∧ word_regex (TenantId tn) = false
     ∧ e = Msg "tenant id contains invalid characters").
Proof.
  rewrite Build_spec. unfold build_valid.
  assert (Hdone : ∀ (P : Prop) x, (P → False) → @Ok error string x = Err e ↔ P)
    by (split; [done|intros ?; exfalso; auto]).
  assert (Herr : ∀ (P : Prop) m, (P ↔ e = Msg m) → @Err error string (Msg m) = Err e ↔ P)
    by (intros P m ->; split; congruence).
  destruct (word_regex (SchemaName tn)), (word_regex (ParentName tn)),
    (TenantId tn) as [|c t]; simpl; try destruct (is_word c && all_bytes is_word t);
    first [apply Hdone|apply Herr]; intuition congruence.
Qed.

(** ** Examples *)

Definition june_15 : Time := Eval vm_compute in DateUTC 2026 6 15 0 0 0 0.
Definition june_15_noon : Time := Eval vm_compute in DateUTC 2026 6 15 12 0 0 0.
Definition acme (tenant : string) (from : Time) : TableName :=
  mkTableName "app" "events" (mkBounds from zero_Time) tenant false 0.

Lemma Parse_Build_iff_witness :
  Parse "app.events_ACME_20260615" = Ok (parsed_form (acme "acme" june_15_noon)) ↔
  tenant_unambiguous (acme "acme" june_15_noon) = true.
Proof.
  apply (Parse_Build_iff (acme "acme" june_15_noon)); [vm_compute; reflexivity|].
  intros _. vm_compute. split; congruence.
Defined.

Lemma Build_Parse_witness : Build (acme "ACME" june_15) = Ok "app.events_ACME_20260615".
Proof. apply Build_Parse. vm_compute. reflexivity. Defined.

Lemma Build_collision_witness :
  Build (acme "acme" june_15) = Build (acme "Acme" june_15_noon) ↔
  parsed_form (acme "acme" june_15) = parsed_form (acme "Acme" june_15_noon).
Proof.
  apply Build_collision; try (vm_compute; reflexivity);
    intros _; vm_compute; split; congruence.
Defined.

(** The names of two tenants that differ in case only collide, and the name
    of a parent that ends in a year is read back as another parent's tenant:
    [Build] is not injective and [Parse] is not its inverse on these. *)
Theorem naming_pitfalls :
  Build (acme "acme" june_15) = Build (acme "ACME" june_15) ∧
  Build (mkTableName "app" "events_2024" (mkBounds june_15 zero_Time) "" false 0)
    = Ok "app.events_2024_20260615" ∧
  Parse "app.events_2024_20260615"
    = Ok (mkTableName "app" "events" (mkBounds june_15 zero_Time) "2024" false 0).
Proof. split_and!; vm_compute; reflexivity. Qed.
