(* ===== verification/Periods.v ===== *)
(** * Period arithmetic ([internal/provisioner/bounds.go])

    The four partition intervals, the period that contains an instant, and
    the run of periods the provisioner keeps ahead of the clock.  What the
    clients (provisioner, drain, importer) rely on is the interface
    [PeriodGrid]: the periods of one kind tile the time line. *)

From S2P Require Import Prelude GoTime GoStrings Errs TimeFormat Naming.
Local Open Scope string_scope.
Local Open Scope Z_scope.

(** ** Definitions *)

Inductive kind : Type :=
| kindUnknown | kindHourly | kindDaily | kindWeekly | kindMonthly.

#[export] Instance kind_eq_dec : EqDecision kind.
Proof. solve_decision. Defined.

Definition labelHourly : string := "hourly".
Definition labelDaily : string := "daily".
Definition labelWeekly : string := "weekly".
Definition labelMonthly : string := "monthly".

Definition parseIntervalLabel (label : string) : res kind :=
  if bool_decide (label = labelHourly) then Ok kindHourly
  else if bool_decide (label = labelDaily) then Ok kindDaily
  else if bool_decide (label = labelWeekly) then Ok kindWeekly
  else if bool_decide (label = labelMonthly) then Ok kindMonthly
  else Err (Msg "provisioner: unknown partition_interval label %q").

Definition kindFromDuration (d : Z) : res kind :=
  if d =? PartitionHourInterval then Ok kindHourly
  else if d =? PartitionDayInterval then Ok kindDaily
  else if d =? PartitionWeekInterval then Ok kindWeekly
  else if d =? PartitionMonthInterval then Ok kindMonthly
  else Err (Msg "provisioner: unsupported interval duration %s").

(** [floorUTC]: the start of the period that contains [t], in UTC. *)
Definition floorUTC (t : Time) (k : kind) : Time :=
  let t := UTC t in
  match k with
  | kindHourly => DateUTC (Year t) (Month t) (DayOf t) (HourOf t) 0 0 0
  | kindDaily => DateUTC (Year t) (Month t) (DayOf t) 0 0 0 0
  | kindWeekly =>
      let daysSinceMonday := (Weekday t + 6) mod 7 in
      let day := DateUTC (Year t) (Month t) (DayOf t) 0 0 0 0 in
      AddDate day 0 0 (- daysSinceMonday)
  | kindMonthly => DateUTC (Year t) (Month t) 1 0 0 0 0
  | kindUnknown => t
  end.

(** [nextUTC]: the start of the period after the one that starts at [from]. *)
Definition nextUTC (from : Time) (k : kind) : Time :=
  match k with
  | kindHourly => Add from Hour
  | kindDaily => AddDate from 0 0 1
  | kindWeekly => AddDate from 0 0 7
  | kindMonthly => AddDate from 0 1 0
  | kindUnknown => from
  end.

Definition BoundsFor (t : Time) (interval : Z) : res Bounds :=
  k ← kindFromDuration interval;
  let from := floorUTC t k in
  Ok (mkBounds from (nextUTC from k)).

(** The [for range count] loop of [NextBoundsUTC]. *)
Fixpoint next_bounds (count : nat) (from : Time) (k : kind) : list Bounds :=
  match count with
  | O => []
  | S n => let to := nextUTC from k in mkBounds from to :: next_bounds n to k
  end.

Definition NextBoundsUTC (now : Time) (interval count : Z) : res (list Bounds) :=
  if count <=? 0 then Ok []
  else
    k ← kindFromDuration interval;
    Ok (next_bounds (Z.to_nat count) (floorUTC now k) k).

Definition canonicalIntervalFor (k : kind) : Z :=
  match k with
  | kindHourly => PartitionHourInterval
  | kindDaily => PartitionDayInterval
  | kindWeekly => PartitionWeekInterval
  | kindMonthly => PartitionMonthInterval
  | kindUnknown => 0
  end.

(** ** The interface: a grid of periods on the time line *)

(** [floor t] starts the period of [t], [next] maps the start of a period to
    the start of the following one. *)
Class PeriodGrid (floor next : Z → Z) : Prop := {
  grid_floor_le t : floor t <= t;
  grid_lt_next t : t < next (floor t);
  grid_inside s t : floor s <= t < next (floor s) → floor t = floor s;
  grid_next t : floor (next (floor t)) = next (floor t)
}.

#[global] Arguments grid_floor_le floor next {_} t.
#[global] Arguments grid_lt_next floor next {_} t.
#[global] Arguments grid_inside floor next {_} s t _.
#[global] Arguments grid_next floor next {_} t.

Section grid.
Context (floor next : Z → Z) `{!PeriodGrid floor next}.

#[local] Ltac grid_facts t :=
  pose proof (grid_floor_le floor next t);
  pose proof (grid_lt_next floor next t).

(** The start of a period is its own floor. *)
Lemma grid_floor_floor t : floor (floor t) = floor t.
Proof. apply (grid_inside floor next). grid_facts t. lia. Qed.

Lemma grid_floor_mono s t : s <= t → floor s <= floor t.
Proof.
  intros Hst. grid_facts s. grid_facts t.
  destruct (Z.lt_ge_cases t (next (floor s))) as [Hlt|Hge].
  - rewrite (grid_inside floor next s t); lia.
  - destruct (Z.le_gt_cases (floor s) (floor t)); [done|exfalso].
    assert (floor (floor s) = floor t) by (apply (grid_inside floor next); lia).
    rewrite grid_floor_floor in *. lia.
Qed.

(** Two periods are the same or do not overlap. *)
Lemma grid_disjoint s t u :
  floor s <= u < next (floor s) → floor t <= u < next (floor t) → floor s = floor t.
Proof.
  intros Hs Ht. rewrite <- (grid_inside floor next s u Hs). by apply (grid_inside floor next).
Qed.

Lemma grid_next_lt t : floor t < next (floor t).
Proof. grid_facts t. lia. Qed.

(** An instant at or after the end of a period has a later floor. *)
Lemma grid_next_le s t : next (floor s) <= t → next (floor s) <= floor t.
Proof.
  intros H. rewrite <- (grid_next floor next s). by apply grid_floor_mono.
Qed.
End grid.

(** A grid of equal periods of width [w], one of which starts at [- o]. *)
Lemma offset_grid w o :
  0 < w → PeriodGrid (λ z, (z + o) / w * w - o) (λ z, z + w).
Proof.
  intros Hw. split.
  - intros t. pose proof (Z.mul_div_le (t + o) w Hw). lia.
  - intros t. pose proof (Z.mul_succ_div_gt (t + o) w Hw). lia.
  - intros s t H. f_equal. f_equal.
    symmetry. apply (Z.div_unique_pos _ _ _ (t + o - (s + o) / w * w)); lia.
  - intros t.
    replace ((t + o) / w * w - o + w + o) with (((t + o) / w + 1) * w) by lia.
    rewrite Z.div_mul by lia. lia.
Qed.

(** ** The four grids *)

Definition floor_ns (k : kind) (z : Z) : Z := unix_ns (floorUTC (mkTime z 0) k).
Definition next_ns (k : kind) (z : Z) : Z := unix_ns (nextUTC (mkTime z 0) k).

Lemma local_day_utc z : local_day (mkTime z 0) = (z + unix_epoch_days * Day) / Day.
Proof. unfold local_day, local_ns. cbn [unix_ns zone]. f_equal. lia. Qed.

Lemma local_clock_utc z : local_clock (mkTime z 0) = (z + unix_epoch_days * Day) mod Day.
Proof. unfold local_clock, local_ns. cbn [unix_ns zone]. f_equal. lia. Qed.

Ltac unfold_units :=
  unfold PartitionMonthInterval, PartitionWeekInterval, PartitionDayInterval,
    PartitionHourInterval, unix_epoch_days, Day, Hour, Minute, Second, Millisecond,
    Microsecond in *.

Lemma floor_hourly z : floor_ns kindHourly z = (z + 0) / Hour * Hour - 0.
Proof.
  unfold floor_ns, floorUTC, UTC. cbn [unix_ns]. rewrite DateUTC_day. cbn [unix_ns].
  unfold HourOf. rewrite local_day_utc, local_clock_utc. unfold_units. dlia.
Qed.

Lemma floor_daily z : floor_ns kindDaily z = (z + 0) / Day * Day - 0.
Proof.
  unfold floor_ns, floorUTC, UTC. cbn [unix_ns]. rewrite DateUTC_day. cbn [unix_ns].
  rewrite local_day_utc. unfold_units. dlia.
Qed.

Lemma floor_weekly z :
  floor_ns kindWeekly z =
  (z + unix_epoch_days * Day) / (7 * Day) * (7 * Day) - unix_epoch_days * Day.
Proof.
  unfold floor_ns, floorUTC, UTC. cbn [unix_ns].
  rewrite DateUTC_day, AddDate_days by done. cbn [unix_ns].
  unfold Weekday. rewrite local_day_utc. unfold_units. dlia.
Qed.

Lemma floor_monthly z :
  floor_ns kindMonthly z =
  (month_start (month_index (local_day (mkTime z 0))) - unix_epoch_days) * Day.
Proof. unfold floor_ns, floorUTC, UTC. cbn [unix_ns]. by rewrite DateUTC_month. Qed.

Lemma next_hourly z : next_ns kindHourly z = z + Hour.
Proof. done. Qed.
Lemma next_daily z : next_ns kindDaily z = z + Day.
Proof. unfold next_ns, nextUTC. rewrite AddDate_days by done. cbn [unix_ns]. lia. Qed.
Lemma next_weekly z : next_ns kindWeekly z = z + 7 * Day.
Proof. unfold next_ns, nextUTC. rewrite AddDate_days by done. done. Qed.
Lemma next_monthly i :
  next_ns kindMonthly ((month_start i - unix_epoch_days) * Day) =
  (month_start (i + 1) - unix_epoch_days) * Day.
Proof. unfold next_ns, nextUTC. by rewrite AddDate_month_start. Qed.

Lemma grid_ext (f g f' g' : Z → Z) :
  (∀ z, f z = f' z) → (∀ z, g z = g' z) → PeriodGrid f' g' → PeriodGrid f g.
Proof.
  intros Hf Hg [H1 H2 H3 H4]. split; intros *; rewrite ?Hf, ?Hg, ?Hf; auto.
Qed.

Lemma month_day_bounds z :
  let L := local_day (mkTime z 0) in
  (L - unix_epoch_days) * Day <= z < (L + 1 - unix_epoch_days) * Day.
Proof. cbv zeta. rewrite local_day_utc. unfold_units. dlia. Qed.

Lemma monthly_grid : PeriodGrid (floor_ns kindMonthly) (next_ns kindMonthly).
Proof.
  assert (Hd : 0 < Day) by done.
  split; intros *; rewrite ?floor_monthly, ?next_monthly.
  - pose proof (month_day_bounds t) as Hb. cbv zeta in Hb.
    pose proof (month_index_spec (local_day (mkTime t 0))). nia.
  - pose proof (month_day_bounds t) as Hb. cbv zeta in Hb.
    pose proof (month_index_spec (local_day (mkTime t 0))). nia.
  - intros Hst. do 3 f_equal. apply month_index_unique.
    pose proof (month_day_bounds t) as Hb. cbv zeta in Hb. nia.
  - rewrite local_day_mk, month_index_month_start. done.
Qed.

(** Each of the four kinds tiles the time line. *)
Lemma kind_grid k : k ≠ kindUnknown → PeriodGrid (floor_ns k) (next_ns k).
Proof.
  intros Hk. destruct k; [done|..].
  - apply (grid_ext _ _ _ _ floor_hourly next_hourly), offset_grid. done.
  - apply (grid_ext _ _ _ _ floor_daily next_daily), offset_grid. done.
  - apply (grid_ext _ _ _ _ floor_weekly next_weekly), offset_grid. done.
  - apply monthly_grid.
Qed.

(** ** [floorUTC] and [nextUTC] in terms of the grids *)

Lemma floorUTC_eq k t :
  k ≠ kindUnknown → floorUTC t k = mkTime (floor_ns k (unix_ns t)) 0.
Proof.
  intros Hk. unfold floor_ns, floorUTC, UTC. cbn [unix_ns].
  destruct k; [done|unfold AddDate, DateUTC; cbn [unix_ns]; reflexivity..].
Qed.

Lemma nextUTC_eq k t :
  k ≠ kindUnknown → zone t = 0 → nextUTC t k = mkTime (next_ns k (unix_ns t)) 0.
Proof.
  destruct t as [z o]. cbn [zone unix_ns]. intros Hk ->. unfold next_ns, nextUTC.
  destruct k; [done|unfold Add, AddDate, DateUTC; cbn [unix_ns zone]; reflexivity..].
Qed.

Lemma kindFromDuration_Ok d k :
  kindFromDuration d = Ok k → k ≠ kindUnknown ∧ canonicalIntervalFor k = d.
Proof.
  unfold kindFromDuration.
  destruct (d =? PartitionHourInterval) eqn:E1; [apply Z.eqb_eq in E1 as ->|
  destruct (d =? PartitionDayInterval) eqn:E2; [apply Z.eqb_eq in E2 as ->|
  destruct (d =? PartitionWeekInterval) eqn:E3; [apply Z.eqb_eq in E3 as ->|
  destruct (d =? PartitionMonthInterval) eqn:E4; [apply Z.eqb_eq in E4 as ->|done]]]];
    intros <-%Ok_inj; (split; [discriminate|reflexivity]).
Qed.

Lemma kindFromDuration_canonical k :
  k ≠ kindUnknown → kindFromDuration (canonicalIntervalFor k) = Ok k.
Proof. intros Hk. destruct k; [done|reflexivity..]. Qed.

(** The period of kind [k] that contains the instant [z]. *)
Definition period (k : kind) (z : Z) : Bounds :=
  mkBounds (mkTime (floor_ns k z) 0) (mkTime (next_ns k (floor_ns k z)) 0).

Lemma BoundsFor_period t interval b :
  BoundsFor t interval = Ok b ↔
  ∃ k, kindFromDuration interval = Ok k ∧ b = period k (unix_ns t).
Proof.
  unfold BoundsFor. destruct (kindFromDuration interval) as [k|e] eqn:E; simpl.
  - apply kindFromDuration_Ok in E as [Hk _].
    rewrite floorUTC_eq, nextUTC_eq by done. cbn [unix_ns].
    split; [intros <-%Ok_inj; eauto|]. by intros (k' & ->%Ok_inj & ->).
  - split; [done|]. by intros (? & ? & _).
Qed.

Lemma period_floor k z : k ≠ kindUnknown → period k (floor_ns k z) = period k z.
Proof.
  intros Hk. pose proof (kind_grid k Hk). unfold period.
  by rewrite (grid_floor_floor _ (next_ns k)).
Qed.

(** Consecutive periods starting with the one of [z]. *)
Fixpoint periods (n : nat) (k : kind) (z : Z) : list Bounds :=
  match n with
  | O => []
  | S n => period k z :: periods n k (next_ns k (floor_ns k z))
  end.

Lemma next_bounds_periods n k z :
  k ≠ kindUnknown →
  next_bounds n (mkTime (floor_ns k z) 0) k = periods n k z.
Proof.
  intros Hk. pose proof (kind_grid k Hk) as HG.
  revert z. induction n as [|n IH]; intros z; [done|].
  cbn [next_bounds periods]. rewrite nextUTC_eq by done. cbn [unix_ns].
  unfold period at 1. f_equal.
  rewrite <- (grid_next (floor_ns k) (next_ns k) z) at 1. apply IH.
Qed.

Lemma NextBoundsUTC_Ok now interval count bs :
  NextBoundsUTC now interval count = Ok bs → 0 < count →
  ∃ k, k ≠ kindUnknown ∧ kindFromDuration interval = Ok k ∧
       bs = periods (Z.to_nat count) k (unix_ns now).
Proof.
  unfold NextBoundsUTC. intros H Hc. destruct (Z.leb_spec count 0); [lia|].
  destruct (kindFromDuration interval) as [k|e] eqn:E; [|done].
  apply Ok_inj in H as <-.
  pose proof (kindFromDuration_Ok _ _ E) as [Hk _].
  exists k. repeat split; [done|]. by rewrite floorUTC_eq, next_bounds_periods.
Qed.

(** [bs] is a run of bounds, each starting where the one before it ends. *)
Fixpoint contiguous (bs : list Bounds) : Prop :=
  match bs with
  | b :: ((c :: _) as rest) => To b = From c ∧ contiguous rest
  | _ => True
  end.

Lemma periods_contiguous n k z : k ≠ kindUnknown → contiguous (periods n k z).
Proof.
  intros Hk. pose proof (kind_grid k Hk) as HG.
  revert z. induction n as [|[|n] IH]; intros z; [done..|].
  specialize (IH (next_ns k (floor_ns k z))). cbn [periods contiguous] in *.
  split; [|done]. unfold period. cbn [To From]. f_equal.
  by rewrite (grid_next (floor_ns k) (next_ns k)).
Qed.

Lemma periods_member n k z b :
  b ∈ periods n k z → ∃ u, z <= u ∧ b = period k u.
Proof.
  revert z. induction n as [|n IH]; intros z; simpl; [by intros ?%elem_of_nil|].
  intros [->|Hb]%elem_of_cons; [by exists z|].
  destruct (decide (k = kindUnknown)) as [->|Hk].
  { destruct (IH _ Hb) as (u & Hu & ->). exists u. split; [|done].
    unfold next_ns, floor_ns in Hu. simpl in Hu. lia. }
  pose proof (kind_grid k Hk) as HG.
  destruct (IH _ Hb) as (u & Hu & ->). exists u. split; [|done].
  pose proof (grid_lt_next (floor_ns k) (next_ns k) z). lia.
Qed.

(** Every instant from the start of the run to its end has its period in it. *)
Lemma periods_cover n k z t :
  k ≠ kindUnknown → floor_ns k z <= t →
  match last (periods n k z) with
  | Some b => t < unix_ns (To b) → period k t ∈ periods n k z
  | None => True
  end.
Proof.
  intros Hk. pose proof (kind_grid k Hk) as HG.
  revert z. induction n as [|n IH]; intros z Hz; [done|].
  destruct (Z.lt_ge_cases t (next_ns k (floor_ns k z))) as [Hlt|Hge].
  - assert (Heq : period k t = period k z).
    { unfold period. by rewrite (grid_inside (floor_ns k) (next_ns k) z t). }
    destruct (last (periods (S n) k z)); [|done]. intros _. rewrite Heq.
    simpl. by left.
  - specialize (IH (next_ns k (floor_ns k z))).
    rewrite (grid_next (floor_ns k) (next_ns k)) in IH. specialize (IH Hge).
    destruct n as [|n]; [simpl; lia|].
    cbn [periods] in *. rewrite last_cons_cons.
    destruct (last _) as [b|]; [|done]. intros Hb. right. by apply IH.
Qed.

Lemma periods_length n k z : length (periods n k z) = n.
Proof. revert z. induction n; intros; simpl; auto. Qed.

(** Every bound is a whole number of microseconds. *)
Lemma floor_micro k z : k ≠ kindUnknown → floor_ns k z mod Microsecond = 0.
Proof.
  intros Hk. destruct k; [done|..].
  - rewrite floor_hourly. unfold_units. dlia.
  - rewrite floor_daily. unfold_units. dlia.
  - rewrite floor_weekly. unfold_units. dlia.
  - rewrite floor_monthly. unfold_units. dlia.
Qed.

Lemma period_micro k z :
  k ≠ kindUnknown →
  unix_ns (From (period k z)) mod Microsecond = 0 ∧ unix_ns (To (period k z)) mod Microsecond = 0.
Proof.
  intros Hk. pose proof (kind_grid k Hk). unfold period. cbn [From To unix_ns].
  split; [by apply floor_micro|].
  rewrite <- (grid_next (floor_ns k) (next_ns k)). by apply floor_micro.
Qed.

(** Days, weeks and months start at midnight, so that the day tells them. *)
Lemma floor_midnight k z :
  k ≠ kindUnknown → k ≠ kindHourly → ∃ n, floor_ns k z = (n - unix_epoch_days) * Day.
Proof.
  intros Hk Hh. destruct k; [done|done|..].
  - exists (z / Day + unix_epoch_days). rewrite floor_daily. unfold_units. dlia.
  - exists ((z + unix_epoch_days * Day) / (7 * Day) * 7). rewrite floor_weekly. unfold_units. dlia.
  - eexists. apply floor_monthly.
Qed.

Lemma period_stamp_inj k z u :
  k ≠ kindUnknown → k ≠ kindHourly →
  0 <= Year (From (period k z)) <= 9999 → 0 <= Year (From (period k u)) <= 9999 →
  FormatDate (From (period k z)) = FormatDate (From (period k u)) →
  period k z = period k u.
Proof.
  intros Hk Hh Hz Hu Heq.
  pose proof (ParseDate_FormatDate _ Hz) as H1. rewrite Heq, ParseDate_FormatDate in H1 by done.
  apply Ok_inj in H1. revert H1. unfold period. cbn [From].
  destruct (floor_midnight k z Hk Hh) as [n ->], (floor_midnight k u Hk Hh) as [m ->].
  rewrite !local_day_mk. intros H1. assert (m = n) as -> by (injection H1; unfold_units; lia).
  done.
Qed.

Lemma NextBoundsUTC_member now k count bs b :
  NextBoundsUTC now (canonicalIntervalFor k) count = Ok bs → b ∈ bs → ∃ z, b = period k z.
Proof.
  intros H Hb. destruct (Z.lt_ge_cases 0 count) as [Hc|Hc].
  - destruct (NextBoundsUTC_Ok _ _ _ _ H Hc) as (k' & _ & [Hk Hi]%kindFromDuration_Ok & ->).
    assert (k' = k) as -> by (destruct k, k'; done).
    apply periods_member in Hb as (u & _ & ->). by exists u.
  - unfold NextBoundsUTC in H. destruct (Z.leb_spec count 0); [|lia].
    apply Ok_inj in H as <-. by apply not_elem_of_nil in Hb.
Qed.

(** The bounds of an instant contain it, and are those of what they contain. *)
Lemma BoundsFor_contains t interval b :
  BoundsFor t interval = Ok b → unix_ns (From b) <= unix_ns t < unix_ns (To b).
Proof.
  intros (k & Hk & ->)%BoundsFor_period. pose proof (kindFromDuration_Ok _ _ Hk) as [Hn _].
  pose proof (kind_grid k Hn) as HG.
  split; [apply (grid_floor_le (floor_ns k) (next_ns k))|apply (grid_lt_next (floor_ns k) (next_ns k))].
Qed.
Lemma BoundsFor_inside t u interval b :
  BoundsFor t interval = Ok b → unix_ns (From b) <= unix_ns u < unix_ns (To b) → BoundsFor u interval = Ok b.
Proof.
  intros (k & Hk & ->)%BoundsFor_period Hu. pose proof (kindFromDuration_Ok _ _ Hk) as [Hn _].
  pose proof (kind_grid k Hn) as HG. apply BoundsFor_period. exists k. split; [done|].
  unfold period in *. cbn [From To unix_ns] in Hu. by rewrite (grid_inside (floor_ns k) (next_ns k) _ _ Hu).
Qed.

(** ** Properties *)

(** C36: the bounds computed for an instant contain it, are in UTC, and are the
    bounds of exactly the instants they contain: two rows go to the same
    partition if and only if they lie in one half-open period. *)
Theorem BoundsFor_bucket t interval b :
  BoundsFor t interval = Ok b →
  zone (From b) = 0 ∧ zone (To b) = 0 ∧
  unix_ns (From b) <= unix_ns t < unix_ns (To b) ∧
  ∀ u, BoundsFor u interval = Ok b ↔ unix_ns (From b) <= unix_ns u < unix_ns (To b).
Proof.
  intros Hb. pose proof (BoundsFor_contains _ _ _ Hb) as Hin.
  assert (zone (From b) = 0 ∧ zone (To b) = 0) as [? ?] by (by apply BoundsFor_period in Hb as (k & _ & ->)).
  split_and!; [done..|apply Hin|apply Hin|]. intros u. split.
  - intros Hu. by apply BoundsFor_contains in Hu.
  - by apply (BoundsFor_inside t).
Qed.

(** The provisioner's target set.  [NextBoundsUTC] returns [count] bounds,
    the first is the period of [now], each is the period of its own start and
    begins where the previous one ends. *)
Theorem NextBoundsUTC_tiles now interval count bs :
  NextBoundsUTC now interval count = Ok bs → 0 < count →
  Z.of_nat (length bs) = count ∧ contiguous bs ∧
  (∀ b, head bs = Some b → BoundsFor now interval = Ok b) ∧
  (∀ b, b ∈ bs → BoundsFor (From b) interval = Ok b).
Proof.
  intros H Hc. destruct (NextBoundsUTC_Ok _ _ _ _ H Hc) as (k & Hn & Hk & ->).
  split; [rewrite periods_length; lia|].
  split; [by apply periods_contiguous|]. split.
  - intros b Hb. apply BoundsFor_period. exists k. split; [done|].
    destruct (Z.to_nat count) as [|n] eqn:E; [lia|]. by injection Hb.
  - intros b (u & _ & ->)%periods_member. apply BoundsFor_period. exists k.
    split; [done|]. symmetry. by apply period_floor.
Qed.

(** no gap.  An instant between the start of the current period and the end
    of the last one has its own bounds in the list: what the provisioner
    creates is what the drain looks for. *)
Theorem NextBoundsUTC_covers now interval count bs c t :
  NextBoundsUTC now interval count = Ok bs → last bs = Some c →
  unix_ns now <= unix_ns t < unix_ns (To c) →
  ∃ b, BoundsFor t interval = Ok b ∧ b ∈ bs.
Proof.
  intros H Hl Ht. destruct (Z.le_gt_cases count 0) as [Hc|Hc].
  { unfold NextBoundsUTC in H. destruct (Z.leb_spec count 0); [|lia].
    apply Ok_inj in H as <-. done. }
  destruct (NextBoundsUTC_Ok _ _ _ _ H Hc) as (k & Hn & Hk & ->).
  pose proof (kind_grid k Hn) as HG.
  exists (period k (unix_ns t)). split; [apply BoundsFor_period; eauto|].
  pose proof (grid_floor_le (floor_ns k) (next_ns k) (unix_ns now)).
  pose proof (periods_cover (Z.to_nat count) k (unix_ns now) (unix_ns t) Hn) as Hp.
  rewrite Hl in Hp. apply Hp; lia.
Qed.

(** Calendar alignment.  Hours start on the hour, days at midnight, weeks on
    Monday at midnight, months on the first at midnight and end on the first
    of the next calendar month, whatever its length. *)
Theorem BoundsFor_aligned t interval b :
  BoundsFor t interval = Ok b →
  (interval = PartitionHourInterval →
     unix_ns (From b) mod Hour = 0 ∧ unix_ns (To b) = unix_ns (From b) + Hour) ∧
  (interval = PartitionDayInterval →
     local_clock (From b) = 0 ∧ unix_ns (To b) = unix_ns (From b) + Day) ∧
  (interval = PartitionWeekInterval →
     local_clock (From b) = 0 ∧ Weekday (From b) = 1 ∧
     unix_ns (To b) = unix_ns (From b) + 7 * Day) ∧
  (interval = PartitionMonthInterval →
     local_clock (From b) = 0 ∧ DayOf (From b) = 1 ∧
     local_clock (To b) = 0 ∧ DayOf (To b) = 1 ∧
     12 * Year (To b) + Month (To b) = 12 * Year (From b) + Month (From b) + 1 ∧
     28 * Day <= unix_ns (To b) - unix_ns (From b) <= 31 * Day).
Proof.
  intros (k & Hk & ->)%BoundsFor_period.
  assert (Hz := unix_epoch_days).
  split; [|split; [|split]]; intros ->; apply Ok_inj in Hk as <-;
    unfold period; cbn [From To unix_ns].
  - rewrite next_hourly, floor_hourly. split; [unfold_units; dlia|lia].
  - rewrite next_daily, floor_daily, local_clock_utc. split; [unfold_units; dlia|lia].
  - rewrite next_weekly, floor_weekly, local_clock_utc. unfold Weekday.
    rewrite local_day_utc. repeat split; [unfold_units; dlia..].
  - rewrite floor_monthly, next_monthly. set (i := month_index _).
    rewrite !local_clock_mk, !DayOf_month_start.
    pose proof (month_len_bounds i).
    assert (Hym : ∀ j, let u := mkTime ((month_start j - unix_epoch_days) * Day) 0 in
                       12 * Year u + Month u = j + 1).
    { intros j. cbv zeta. pose proof (month_index_month_start j) as Hj.
      unfold month_index in Hj. unfold Year, Month. rewrite local_day_mk. lia. }
    rewrite !Hym. repeat split; try lia; unfold_units; lia.
Qed.

(** the label stored for a supported interval is read back as that interval;
    every other duration is refused before anything is stored. *)
Theorem interval_label_roundtrip d :
  (∃ l k, PartitionIntervalLabel d = Ok l ∧ parseIntervalLabel l = Ok k ∧
          kindFromDuration d = Ok k ∧ canonicalIntervalFor k = d)
  ∨ (∃ e1 e2, PartitionIntervalLabel d = Err e1 ∧ kindFromDuration d = Err e2).
Proof.
  unfold PartitionIntervalLabel, kindFromDuration.
  destruct (d =? PartitionHourInterval) eqn:E1; [apply Z.eqb_eq in E1 as ->|
  destruct (d =? PartitionDayInterval) eqn:E2; [apply Z.eqb_eq in E2 as ->|
  destruct (d =? PartitionWeekInterval) eqn:E3; [apply Z.eqb_eq in E3 as ->|
  destruct (d =? PartitionMonthInterval) eqn:E4; [apply Z.eqb_eq in E4 as ->|]]]].
  1-4: left; do 2 eexists; split; [reflexivity|]; split; [reflexivity|];
    split; reflexivity.
  right. eauto.
Qed.

(** ** Examples *)

(** 2026-01-30 10:20 UTC, and the periods after it. *)
Definition late_january : Time := Eval vm_compute in DateUTC 2026 1 30 10 20 0 0.
Definition january : Bounds :=
  Eval vm_compute in mkBounds (DateUTC 2026 1 1 0 0 0 0) (DateUTC 2026 2 1 0 0 0 0).
Definition february : Bounds :=
  Eval vm_compute in mkBounds (DateUTC 2026 2 1 0 0 0 0) (DateUTC 2026 3 1 0 0 0 0).

Lemma BoundsFor_bucket_witness :
  zone (From january) = 0 ∧ zone (To january) = 0 ∧
  unix_ns (From january) <= unix_ns late_january < unix_ns (To january) ∧
  ∀ u, BoundsFor u PartitionMonthInterval = Ok january ↔
       unix_ns (From january) <= unix_ns u < unix_ns (To january).
Proof. apply BoundsFor_bucket. vm_compute. reflexivity. Defined.

Lemma NextBoundsUTC_tiles_witness :
  Z.of_nat (length [january; february]) = 2 ∧ contiguous [january; february] ∧
  (∀ b, head [january; february] = Some b → BoundsFor late_january PartitionMonthInterval = Ok b) ∧
  (∀ b, b ∈ [january; february] → BoundsFor (From b) PartitionMonthInterval = Ok b).
Proof. apply (NextBoundsUTC_tiles late_january); [vm_compute; reflexivity|lia]. Defined.

Lemma NextBoundsUTC_covers_witness :
  ∃ b, BoundsFor (DateUTC 2026 2 10 0 0 0 0) PartitionMonthInterval = Ok b ∧ b ∈ [january; february].
Proof.
  apply (NextBoundsUTC_covers late_january PartitionMonthInterval 2 _ february).
  - vm_compute. reflexivity.
  - reflexivity.
  - vm_compute. split; congruence.
Defined.

Lemma BoundsFor_aligned_witness :
  (PartitionMonthInterval = PartitionHourInterval →
     unix_ns (From january) mod Hour = 0 ∧ unix_ns (To january) = unix_ns (From january) + Hour) ∧
  (PartitionMonthInterval = PartitionDayInterval →
     local_clock (From january) = 0 ∧ unix_ns (To january) = unix_ns (From january) + Day) ∧
  (PartitionMonthInterval = PartitionWeekInterval →
     local_clock (From january) = 0 ∧ Weekday (From january) = 1 ∧
     unix_ns (To january) = unix_ns (From january) + 7 * Day) ∧
  (PartitionMonthInterval = PartitionMonthInterval →
     local_clock (From january) = 0 ∧ DayOf (From january) = 1 ∧
     local_clock (To january) = 0 ∧ DayOf (To january) = 1 ∧
     12 * Year (To january) + Month (To january) = 12 * Year (From january) + Month (From january) + 1 ∧
     28 * Day <= unix_ns (To january) - unix_ns (From january) <= 31 * Day).
Proof. apply (BoundsFor_aligned late_january PartitionMonthInterval january). vm_compute. reflexivity. Defined.
