(* ===== verification/Store.v ===== *)
(** * The metadata tables

    The tables [partman.parent_tables], [partman.tenants] and
    [partman.partitions] of [schema.sql] and the effect on them of every
    statement of [internal/{parents,tenants,partitions}/repo/queries.sql.go].
    A table is the list of its rows in no particular order; the constraints
    of the schema (keys, foreign keys with their cascades, the unique index
    of the default partition, the tenant trigger) are the checks an [INSERT]
    makes and the deletions a [DELETE] cascades.  [created_at] and
    [updated_at] are not kept: nothing reads them. *)

From S2P Require Import Prelude GoTime Errs.
Local Open Scope string_scope.
Local Open Scope Z_scope.

(** ** Rows ([models.go]) *)

(** [pgtype.Interval] *)
Record PgInterval := mkPgInterval {
  Microseconds : Z; Days : Z; Months : Z; IntervalValid : bool
}.

(** A [pgtype.Text] is an [option string]: [Valid = false] is [None]. *)
Module Parent.
Record row := mk {
  ID : string;
  SchemaName : string;
  TableName : string;
  TenantColumn : option string;
  PartitionBy : string;
  PartitionType : string;
  PartitionInterval : string;
  RetentionPeriod : PgInterval;
  RetentionKeepTable : bool;
  RetentionSchema : option string;
  AutomaticMaintenance : bool;
  Premake : Z
}.
Definition key (r : row) : string * string := (SchemaName r, TableName r).
Definition set_automatic (b : bool) (r : row) : row :=
  mk (ID r) (SchemaName r) (TableName r) (TenantColumn r) (PartitionBy r) (PartitionType r)
    (PartitionInterval r) (RetentionPeriod r) (RetentionKeepTable r) (RetentionSchema r) b
    (Premake r).
End Parent.

Module Tenant.
Record row := mk { ID : string; ParentTableID : string }.
Definition key (r : row) : string * string := (ParentTableID r, ID r).
End Tenant.

(** The values the [CHECK] on [status] allows. *)
Inductive status := active | detached | dropped.

#[export] Instance status_eq_dec : EqDecision status.
Proof. solve_decision. Defined.

Module Partition.
Record row := mk {
  ID : string;
  Name : string;
  ParentTableID : string;
  TenantID : option string;
  PartitionBy : string;
  PartitionType : string;
  BoundsFrom : Time;
  BoundsTo : Time;
  IsDefault : bool;
  Status : status
}.
Definition set_status (s : status) (r : row) : row :=
  mk (ID r) (Name r) (ParentTableID r) (TenantID r) (PartitionBy r)
    (PartitionType r) (BoundsFrom r) (BoundsTo r) (IsDefault r) s.
(** The key of the unique index on the default partitions. *)
Definition owner (r : row) : string * option string := (ParentTableID r, TenantID r).
(** The key of [UNIQUE (parent_table_id, tenant_id, from, to)]; a row
    without tenant conflicts with none. *)
Definition tenant_bounds (r : row) : option (string * string * Z * Z) :=
  match TenantID r with
  | Some t => Some (ParentTableID r, t, unix_ns (BoundsFrom r), unix_ns (BoundsTo r))
  | None => None
  end.
End Partition.

Record Meta := mkMeta {
  parent_tables : list Parent.row;
  tenants : list Tenant.row;
  partitions : list Partition.row
}.

Definition empty_Meta : Meta := mkMeta [] [] [].

Definition set_partitions (l : list Partition.row) (m : Meta) : Meta :=
  mkMeta (parent_tables m) (tenants m) l.

(** SQLSTATE codes: not-null, foreign-key violation, [RAISE EXCEPTION]. *)
Definition not_null_violation : error := PgError "23502".
Definition foreign_key_violation : error := PgError "23503".
Definition raise_exception : error := PgError "P0001".

Definition has_parent (id : string) (m : Meta) : bool :=
  existsb (λ r, bool_decide (Parent.ID r = id)) (parent_tables m).
Definition has_tenant (pid id : string) (m : Meta) : bool :=
  existsb (λ r, bool_decide (Tenant.key r = (pid, id))) (tenants m).

(** ** Statements on [partman.parent_tables] *)

Definition parent_conflict (a r : Parent.row) : bool :=
  bool_decide (Parent.ID r = Parent.ID a) || bool_decide (Parent.key r = Parent.key a).

(** [INSERT ... ON CONFLICT DO NOTHING RETURNING]: no row comes back when a
    row with the id or the name is there, and [Scan] gives [pgx.ErrNoRows]. *)
Definition upsert_parent (a : Parent.row) (m : Meta) : res (Parent.row * Meta) :=
  if negb (IntervalValid (Parent.RetentionPeriod a)) then Err not_null_violation
  else if existsb (parent_conflict a) (parent_tables m) then Err NoRows
  else Ok (a, mkMeta (parent_tables m ++ [a]) (tenants m) (partitions m)).

Definition get_parent (key : string * string) (m : Meta) : res Parent.row :=
  match List.find (λ r, bool_decide (Parent.key r = key)) (parent_tables m) with
  | Some r => Ok r
  | None => Err NoRows
  end.

(** [ORDER BY schema_name, table_name] under the collation [le]. *)
Definition parent_le (le : string → string → bool) (r s : Parent.row) : Prop :=
  if bool_decide (Parent.SchemaName r = Parent.SchemaName s)
  then le (Parent.TableName r) (Parent.TableName s) = true
  else le (Parent.SchemaName r) (Parent.SchemaName s) = true.
#[export] Instance parent_le_dec le r s : Decision (parent_le le r s).
Proof. unfold parent_le. case_match; apply _. Defined.

Definition list_parents (le : string → string → bool) (m : Meta) : list Parent.row :=
  merge_sort (parent_le le) (parent_tables m).

(** The deleted rows take their tenants and partitions with them. *)
Definition delete_parent (key : string * string) (m : Meta) : Z * Meta :=
  let gone := filter (λ r, Parent.key r = key) (parent_tables m) in
  let ids := Parent.ID <$> gone in
  (Z.of_nat (length gone),
   mkMeta (filter (λ r, Parent.key r ≠ key) (parent_tables m))
     (filter (λ r, Tenant.ParentTableID r ∉ ids) (tenants m))
     (filter (λ r, Partition.ParentTableID r ∉ ids) (partitions m))).

(** [UPDATE ... SET automatic_maintenance WHERE id]. *)
Definition set_maintenance (b : bool) (id : string) (m : Meta) : Meta :=
  mkMeta ((λ r, if bool_decide (Parent.ID r = id) then Parent.set_automatic b r else r)
            <$> parent_tables m) (tenants m) (partitions m).

(** ** Statements on [partman.tenants] *)

Definition upsert_tenant (a : Tenant.row) (m : Meta) : res (Z * Meta) :=
  if has_tenant (Tenant.ParentTableID a) (Tenant.ID a) m then Ok (0, m)
  else if negb (has_parent (Tenant.ParentTableID a) m) then Err foreign_key_violation
  else Ok (1, mkMeta (parent_tables m) (tenants m ++ [a]) (partitions m)).

Definition tenant_le (le : string → string → bool) (r s : Tenant.row) : Prop :=
  le (Tenant.ID r) (Tenant.ID s) = true.
#[export] Instance tenant_le_dec le r s : Decision (tenant_le le r s).
Proof. unfold tenant_le. apply _. Defined.

Definition list_tenants (le : string → string → bool) (pid : string) (m : Meta) : list Tenant.row :=
  merge_sort (tenant_le le) (filter (λ r, Tenant.ParentTableID r = pid) (tenants m)).

(** [tenants JOIN parent_tables ... WHERE table_name, schema_name ORDER BY
    t.id]: the tenant's id and its parent's. *)
Definition get_tenants (le : string → string → bool) (key : string * string) (m : Meta)
    : list (string * string) :=
  (λ t, (Tenant.ID t, Tenant.ParentTableID t)) <$>
    merge_sort (tenant_le le)
      (t ← tenants m; p ← parent_tables m;
       if bool_decide (Parent.ID p = Tenant.ParentTableID t) && bool_decide (Parent.key p = key)
       then [t] else []).

Definition delete_tenant (pid id : string) (m : Meta) : Z * Meta :=
  (Z.of_nat (length (filter (λ r, Tenant.key r = (pid, id)) (tenants m))),
   mkMeta (parent_tables m)
     (filter (λ r, Tenant.key r ≠ (pid, id)) (tenants m))
     (filter (λ r, Partition.owner r ≠ (pid, Some id)) (partitions m))).

(** ** Statements on [partman.partitions] *)

(** A row that an [INSERT] of [a] collides with on one of the four unique
    indexes. *)
Definition partition_conflict (a r : Partition.row) : bool :=
  bool_decide (Partition.ID r = Partition.ID a)
  || bool_decide (Partition.Name r = Partition.Name a)
  || (bool_decide (Partition.tenant_bounds r = Partition.tenant_bounds a)
        && bool_decide (is_Some (Partition.tenant_bounds a)))
  || (Partition.IsDefault a && Partition.IsDefault r
        && bool_decide (Partition.owner r = Partition.owner a)).

Definition tenant_trigger_ok (a : Partition.row) (m : Meta) : bool :=
  match Partition.TenantID a with
  | Some t => has_tenant (Partition.ParentTableID a) t m
  | None => true
  end.

(** [INSERT ... ON CONFLICT DO NOTHING]; [status] takes its default. *)
Definition upsert_partition (a : Partition.row) (m : Meta) : res Meta :=
  if negb (tenant_trigger_ok a m) then Err raise_exception
  else if existsb (partition_conflict a) (partitions m) then Ok m
  else if negb (has_parent (Partition.ParentTableID a) m) then Err foreign_key_violation
  else Ok (set_partitions (partitions m ++ [Partition.set_status active a]) m).

Definition from_le (r s : Partition.row) : Prop :=
  unix_ns (Partition.BoundsFrom r) <= unix_ns (Partition.BoundsFrom s).
#[export] Instance from_le_dec r s : Decision (from_le r s).
Proof. unfold from_le. apply _. Defined.

Definition list_partitions (pid : string) (l : list Partition.row) : list Partition.row :=
  merge_sort from_le (filter (λ r, Partition.ParentTableID r = pid) l).

Definition get_default (key : string * option string) (l : list Partition.row) : res Partition.row :=
  match List.find (λ r, bool_decide (Partition.owner r = key) && Partition.IsDefault r) l with
  | Some r => Ok r
  | None => Err NoRows
  end.

Definition expired (pid : string) (cutoff : Time) (r : Partition.row) : bool :=
  bool_decide (Partition.ParentTableID r = pid)
  && (unix_ns (Partition.BoundsTo r) <=? unix_ns cutoff)
  && negb (Partition.IsDefault r)
  && bool_decide (Partition.Status r = active).

Definition list_expired (pid : string) (cutoff : Time) (l : list Partition.row) : list Partition.row :=
  merge_sort from_le (filter (λ r, expired pid cutoff r = true) l).

Definition find_active (pid : string) (tenant : option string) (from to : Time)
    (l : list Partition.row) : res Partition.row :=
  match List.find (λ r, bool_decide (Partition.owner r = (pid, tenant))
                   && negb (Partition.IsDefault r)
                   && bool_decide (Partition.Status r = active)
                   && Equal (Partition.BoundsFrom r) from
                   && Equal (Partition.BoundsTo r) to) l with
  | Some r => Ok r
  | None => Err NoRows
  end.

(** [UPDATE ... SET status WHERE id]: no row with the id is no error. *)
Definition mark (s : status) (id : string) (m : Meta) : Meta :=
  set_partitions
    ((λ r, if bool_decide (Partition.ID r = id) then Partition.set_status s r else r)
       <$> partitions m) m.

(** ** The integrity the schema promises *)

Record WF (m : Meta) : Prop := {
  wf_parent_ids : NoDup (Parent.ID <$> parent_tables m);
  wf_parent_keys : NoDup (Parent.key <$> parent_tables m);
  wf_tenant_keys : NoDup (Tenant.key <$> tenants m);
  wf_tenant_parents : ∀ t, t ∈ tenants m → has_parent (Tenant.ParentTableID t) m = true;
  wf_ids : NoDup (Partition.ID <$> partitions m);
  wf_names : NoDup (Partition.Name <$> partitions m);
  wf_tenant_bounds : NoDup (omap Partition.tenant_bounds (partitions m));
  wf_defaults : NoDup (Partition.owner <$> filter (λ r, Partition.IsDefault r = true) (partitions m));
  wf_parents : ∀ r, r ∈ partitions m → has_parent (Partition.ParentTableID r) m = true;
  wf_tenants : ∀ r, r ∈ partitions m → tenant_trigger_ok r m = true
}.

(** The statements that write, as steps of the store. *)
Inductive meta_step : Meta → Meta → Prop :=
| step_upsert_parent a r m m' : upsert_parent a m = Ok (r, m') → meta_step m m'
| step_delete_parent key m : meta_step m (delete_parent key m).2
| step_upsert_tenant a n m m' : upsert_tenant a m = Ok (n, m') → meta_step m m'
| step_delete_tenant pid id m : meta_step m (delete_tenant pid id m).2
| step_upsert_partition a m m' : upsert_partition a m = Ok m' → meta_step m m'
| step_mark s id m : meta_step m (mark s id m)
| step_set_maintenance b id m : meta_step m (set_maintenance b id m).

(** ** Lemmas *)

(** [upsert_partition] adds at most its row, which is active. *)
Lemma upsert_partition_adds a m m' :
  upsert_partition a m = Ok m' →
  ∃ rs, m' = set_partitions (partitions m ++ rs) m ∧ (rs = [] ∨ rs = [Partition.set_status active a]).
Proof.
  unfold upsert_partition. destruct (negb _); [done|]. destruct (existsb _ _).
  - intros <-%Ok_inj. exists []. split; [rewrite app_nil_r; by destruct m|by left].
  - destruct (negb _); [done|]. intros <-%Ok_inj. eexists. split; [done|by right].
Qed.

Lemma has_parent_true id m :
  has_parent id m = true ↔ ∃ r, r ∈ parent_tables m ∧ Parent.ID r = id.
Proof. unfold has_parent. rewrite existsb_true. by setoid_rewrite bool_decide_eq_true. Qed.

Lemma has_tenant_true pid id m :
  has_tenant pid id m = true ↔ ∃ r, r ∈ tenants m ∧ Tenant.key r = (pid, id).
Proof. unfold has_tenant. rewrite existsb_true. by setoid_rewrite bool_decide_eq_true. Qed.

Lemma trigger_ok_true r m :
  tenant_trigger_ok r m = true ↔
  ∀ t, Partition.TenantID r = Some t → has_tenant (Partition.ParentTableID r) t m = true.
Proof. unfold tenant_trigger_ok. destruct (Partition.TenantID r); naive_solver. Qed.

Lemma partition_conflict_false a r :
  partition_conflict a r = false →
  Partition.ID r ≠ Partition.ID a ∧ Partition.Name r ≠ Partition.Name a ∧
  (is_Some (Partition.tenant_bounds a) → Partition.tenant_bounds r ≠ Partition.tenant_bounds a) ∧
  (Partition.IsDefault a = true → Partition.IsDefault r = true →
   Partition.owner r ≠ Partition.owner a).
Proof.
  unfold partition_conflict. rewrite !orb_false_iff, !bool_decide_eq_false.
  intros (((? & ?) & Hb) & Hd). split_and!; [done|done| |].
  - intros Hs He. rewrite !bool_decide_true in Hb by done. done.
  - intros Ha Hr He. by rewrite Ha, Hr, bool_decide_true in Hd.
Qed.

Lemma mark_update {B} (f : Partition.row → B) s id r :
  (∀ r, f (Partition.set_status s r) = f r) →
  f (if bool_decide (Partition.ID r = id) then Partition.set_status s r else r) = f r.
Proof. intros Hf. case_bool_decide; [apply Hf|done]. Qed.

Lemma mark_fmap {B} (f : Partition.row → B) s id m :
  (∀ r, f (Partition.set_status s r) = f r) →
  f <$> partitions (mark s id m) = f <$> partitions m.
Proof.
  intros Hf. cbn. rewrite <- list_fmap_compose. apply list_fmap_ext.
  intros i r _. by apply mark_update.
Qed.

Lemma mark_elem s id m r' :
  r' ∈ partitions (mark s id m) ↔
  ∃ r, r ∈ partitions m ∧
       r' = if bool_decide (Partition.ID r = id) then Partition.set_status s r else r.
Proof.
  cbn. rewrite list_elem_of_fmap. split; intros (r & ? & ?); eauto.
Qed.

Lemma WF_empty : WF empty_Meta.
Proof. split; try apply NoDup_nil_2; cbn; by intros ? ?%not_elem_of_nil. Qed.

Lemma WF_upsert_parent a r m m' : WF m → upsert_parent a m = Ok (r, m') → WF m'.
Proof.
  intros [] H. unfold upsert_parent in H.
  destruct (negb _); [done|]. destruct (existsb _ _) eqn:E; [done|].
  apply Ok_inj in H as [= <- <-]. rewrite existsb_false in E.
  assert (∀ x, x ∈ parent_tables m → Parent.ID x ≠ Parent.ID a ∧ Parent.key x ≠ Parent.key a) as Hx.
  { intros x Hx. specialize (E x Hx). unfold parent_conflict in E.
    by rewrite orb_false_iff, !bool_decide_eq_false in E. }
  assert (∀ id, has_parent id m = true → has_parent id
            (mkMeta (parent_tables m ++ [a]) (tenants m) (partitions m)) = true) as Hmono.
  { intros id. rewrite !has_parent_true. intros (x & ? & ?). exists x. cbn.
    rewrite elem_of_app. auto. }
  split; cbn; eauto.
  - apply NoDup_fmap_snoc; [done|]. intros x Hin. by apply Hx.
  - apply NoDup_fmap_snoc; [done|]. intros x Hin. by apply Hx.
Qed.

Lemma WF_upsert_tenant a n m m' : WF m → upsert_tenant a m = Ok (n, m') → WF m'.
Proof.
  intros Hwf H. unfold upsert_tenant in H. destruct (has_tenant _ _ _) eqn:E.
  { by apply Ok_inj in H as [= <- <-]. }
  destruct (has_parent _ _) eqn:Hp; [|done]. apply Ok_inj in H as [= <- <-].
  destruct Hwf. split; cbn; auto.
  - apply NoDup_fmap_snoc; [done|]. intros x Hx Hk.
    apply not_true_iff_false in E. apply E, has_tenant_true. eauto.
  - intros t [Ht| ->%list_elem_of_singleton]%elem_of_app; [by apply wf_tenant_parents0|done].
  - intros r Hr. specialize (wf_tenants0 r Hr). rewrite trigger_ok_true in wf_tenants0 |- *.
    intros t Ht. specialize (wf_tenants0 t Ht). rewrite has_tenant_true in wf_tenants0 |- *.
    destruct wf_tenants0 as (x & ? & ?). exists x. cbn. rewrite elem_of_app. auto.
Qed.

Lemma WF_upsert_partition a m m' : WF m → upsert_partition a m = Ok m' → WF m'.
Proof.
  intros Hwf H. unfold upsert_partition in H. destruct (tenant_trigger_ok a m) eqn:Ht; [|done].
  cbn in H. destruct (existsb _ _) eqn:E. { by apply Ok_inj in H as <-. }
  destruct (has_parent _ _) eqn:Hp; [|done]. apply Ok_inj in H as <-.
  rewrite existsb_false in E.
  pose proof (λ r Hr, partition_conflict_false _ r (E r Hr)) as Hc.
  destruct Hwf. split; cbn; auto.
  - apply NoDup_fmap_snoc; [done|]. intros x Hin. by apply Hc.
  - apply NoDup_fmap_snoc; [done|]. intros x Hin. by apply Hc.
  - apply NoDup_omap_snoc; [done|]. intros x Hin. by apply Hc.
  - rewrite filter_app, filter_cons, filter_nil. case_decide; [|by rewrite app_nil_r].
    apply NoDup_fmap_snoc; [done|]. intros x [? Hx]%list_elem_of_filter. by apply Hc.
  - intros r [Hr| ->%list_elem_of_singleton]%elem_of_app; [by apply wf_parents0|done].
  - intros r [Hr| ->%list_elem_of_singleton]%elem_of_app; [by apply wf_tenants0|done].
Qed.

Lemma WF_mark s id m : WF m → WF (mark s id m).
Proof.
  intros []. split; try done.
  - by rewrite mark_fmap.
  - by rewrite mark_fmap.
  - cbn. rewrite omap_update; [done|]. intros r. by apply mark_update.
  - cbn. rewrite fmap_filter_update; [done|..]; intros r; [by apply mark_update|].
    by rewrite mark_update.
  - intros r' (r & Hr & ->)%mark_elem. case_bool_decide; by apply (wf_parents0 r).
  - intros r' (r & Hr & ->)%mark_elem. case_bool_decide; by apply (wf_tenants0 r).
Qed.

Lemma WF_delete_parent key m : WF m → WF (delete_parent key m).2.
Proof.
  intros Hwf.
  set (ids := Parent.ID <$> filter (λ r, Parent.key r = key) (parent_tables m)).
  assert (∀ id, id ∉ ids → has_parent id m = true → has_parent id (delete_parent key m).2 = true) as Hp.
  { intros id Hid. rewrite !has_parent_true. intros (r & Hr & <-). exists r. split; [|done].
    cbn. apply list_elem_of_filter. split; [|done]. intros Hk. apply Hid, list_elem_of_fmap.
    exists r. by rewrite list_elem_of_filter. }
  destruct Hwf. split; cbn; auto using NoDup_fmap_filter, NoDup_fmap_filter_filter, NoDup_omap_filter.
  - intros t [? Ht]%list_elem_of_filter. by apply Hp, wf_tenant_parents0.
  - intros r [? Hr]%list_elem_of_filter. by apply Hp, wf_parents0.
  - intros r [Hi Hr]%list_elem_of_filter. specialize (wf_tenants0 r Hr).
    rewrite trigger_ok_true in wf_tenants0 |- *. intros t Ht. specialize (wf_tenants0 t Ht).
    rewrite has_tenant_true in wf_tenants0 |- *. destruct wf_tenants0 as (x & Hx & Hk).
    exists x. split; [|done]. cbn. apply list_elem_of_filter. split; [|done].
    injection Hk as Hk _. by rewrite Hk.
Qed.

Lemma WF_delete_tenant pid id m : WF m → WF (delete_tenant pid id m).2.
Proof.
  intros []. split; cbn; auto using NoDup_fmap_filter, NoDup_fmap_filter_filter, NoDup_omap_filter.
  - intros t [_ Ht]%list_elem_of_filter. by apply wf_tenant_parents0.
  - intros r [_ Hr]%list_elem_of_filter. by apply wf_parents0.
  - intros r [Hi Hr]%list_elem_of_filter. specialize (wf_tenants0 r Hr).
    rewrite trigger_ok_true in wf_tenants0 |- *. intros t Ht. specialize (wf_tenants0 t Ht).
    rewrite has_tenant_true in wf_tenants0 |- *. destruct wf_tenants0 as (x & Hx & Hk).
    exists x. split; [|done]. cbn. apply list_elem_of_filter. split; [|done].
    rewrite Hk. intros [= Hp Hi']. apply Hi. unfold Partition.owner. by rewrite Hp, Ht, Hi'.
Qed.

Lemma set_maintenance_fmap {B} (f : Parent.row → B) b id m :
  (∀ r, f (Parent.set_automatic b r) = f r) →
  f <$> parent_tables (set_maintenance b id m) = f <$> parent_tables m.
Proof.
  intros Hf. cbn. rewrite <- list_fmap_compose. apply list_fmap_ext.
  intros i r _. cbn. case_bool_decide; [apply Hf|done].
Qed.

Lemma set_maintenance_has_parent b id id' m :
  has_parent id' (set_maintenance b id m) = has_parent id' m.
Proof.
  apply eq_true_iff_eq. rewrite !has_parent_true.
  pose proof (set_maintenance_fmap Parent.ID b id m (λ _, eq_refl)) as Hf.
  assert (∀ m : Meta, (∃ r, r ∈ parent_tables m ∧ Parent.ID r = id') ↔
            id' ∈ Parent.ID <$> parent_tables m) as Hx.
  { intros m0. rewrite list_elem_of_fmap. naive_solver. }
  by rewrite !Hx, Hf.
Qed.

Lemma WF_set_maintenance b id m : WF m → WF (set_maintenance b id m).
Proof.
  intros []. split; try done.
  - by rewrite set_maintenance_fmap.
  - by rewrite set_maintenance_fmap.
  - intros t Ht. rewrite set_maintenance_has_parent. by apply wf_tenant_parents0.
  - intros r Hr. rewrite set_maintenance_has_parent. by apply wf_parents0.
Qed.

Lemma WF_meta_step m m' : WF m → meta_step m m' → WF m'.
Proof.
  intros Hwf Hs. destruct Hs.
  - by eapply WF_upsert_parent.
  - by apply WF_delete_parent.
  - by eapply WF_upsert_tenant.
  - by apply WF_delete_tenant.
  - by eapply WF_upsert_partition.
  - by apply WF_mark.
  - by apply WF_set_maintenance.
Qed.

(** What the queries by key find. *)
Lemma get_parent_none k m : get_parent k m = Err NoRows ↔ ∀ r, r ∈ parent_tables m → Parent.key r ≠ k.
Proof.
  unfold get_parent. destruct (List.find _ _) as [x|] eqn:Hf.
  - apply find_Some_elem in Hf as [Hx Hk%bool_decide_eq_true]. split; [done|]. intros Hn. by destruct (Hn x Hx).
  - split; [|done]. intros _ r Hr. by apply (find_None_elem _ _ _ Hf), bool_decide_eq_false in Hr.
Qed.
Lemma get_parent_elem k m r : get_parent k m = Ok r → r ∈ parent_tables m ∧ Parent.key r = k.
Proof.
  unfold get_parent. destruct (List.find _ _) as [x|] eqn:Hf; [|done]. intros [= <-].
  by apply find_Some_elem in Hf as [? ?%bool_decide_eq_true].
Qed.
Lemma get_parent_WF k m r : WF m → r ∈ parent_tables m → Parent.key r = k → get_parent k m = Ok r.
Proof.
  intros Hwf Hr Hk. destruct (get_parent k m) as [r'|e] eqn:Hg.
  - apply get_parent_elem in Hg as [Hr' Hk']. f_equal.
    apply (NoDup_fmap_elem_eq Parent.key (parent_tables m)); [apply Hwf|done..|congruence].
  - unfold get_parent in Hg. destruct (List.find _ _) eqn:Hf; [done|].
    apply (find_None_elem _ _ _ Hf), bool_decide_eq_false in Hr. done.
Qed.
Lemma get_parent_cases k m : (∃ r, get_parent k m = Ok r) ∨ get_parent k m = Err NoRows.
Proof. unfold get_parent. destruct (List.find _ _) as [r|]; [left; by exists r|by right]. Qed.
Lemma has_tenant_false pid t m : has_tenant pid t m = false ↔ ∀ x, x ∈ tenants m → Tenant.key x ≠ (pid, t).
Proof. unfold has_tenant. rewrite existsb_false. by setoid_rewrite bool_decide_eq_false. Qed.

(** The join of [getTenants] meets every tenant of the named parent once:
    it is [listTenantsForParent] of the parent [getParentTable] finds. *)
Lemma join_tenants m p t :
  WF m → get_parent (Parent.key p) m = Ok p →
  (p' ← parent_tables m;
   if bool_decide (Parent.ID p' = Tenant.ParentTableID t)
      && bool_decide (Parent.key p' = Parent.key p) then [t] else [])
  = if bool_decide (Tenant.ParentTableID t = Parent.ID p) then [t] else [].
Proof.
  intros Hwf Hg. unfold get_parent in Hg. destruct (List.find _ _) as [p0|] eqn:Hf; [|done].
  apply Ok_inj in Hg as ->. apply find_some in Hf as [Hin _].
  destruct Hwf as [_ Hk _ _ _ _ _ _ _ _].
  induction (parent_tables m) as [|x l IH]; [done|]. cbn in Hk |- *.
  apply NoDup_cons in Hk as [Hx Hl]. destruct Hin as [->|Hin].
  - rewrite (bool_decide_true (Parent.key p = _)), andb_true_r by done.
    assert (∀ l, Parent.key p ∉ Parent.key <$> l →
      (l ≫= λ p', if bool_decide (Parent.ID p' = Tenant.ParentTableID t)
                     && bool_decide (Parent.key p' = Parent.key p) then [t] else []) = []) as Hnil.
    { clear. induction l as [|y l IH]; [done|]. cbn. rewrite not_elem_of_cons. intros [Hy ?].
      rewrite (bool_decide_false (Parent.key y = _)), andb_false_r by done. by apply IH. }
    unfold mbind in Hnil. rewrite Hnil, app_nil_r by done.
    by repeat case_bool_decide; congruence.
  - rewrite (bool_decide_false (Parent.key x = _)), andb_false_r; [by apply IH|].
    intros He. apply Hx. rewrite He. apply list_elem_of_fmap. exists p.
    split; [done|by apply list_elem_of_In].
Qed.

Lemma get_tenants_list le m p :
  WF m → get_parent (Parent.key p) m = Ok p →
  get_tenants le (Parent.key p) m =
  (λ t, (Tenant.ID t, Tenant.ParentTableID t)) <$> list_tenants le (Parent.ID p) m.
Proof.
  intros Hwf Hg. unfold get_tenants, list_tenants. do 2 f_equal.
  induction (tenants m) as [|t l IH]; [done|].
  rewrite bind_cons, filter_cons, join_tenants, IH by done.
  case_bool_decide; by case_decide.
Qed.

(** The integrity of the schema (primary keys, unique names, one default
    partition per owner, no dangling foreign key) is an invariant of every
    sequence of metadata statements, cascading deletions included. *)
Theorem WF_statements m m' : WF m → rtc meta_step m m' → WF m'.
Proof. intros Hwf Hs. induction Hs; eauto using WF_meta_step. Qed.

(** ** Examples *)

Definition a_parent : Parent.row :=
  Parent.mk "P1" "app" "events" (Some "org") "created_at" "range" "daily" (mkPgInterval 0 30 0 true)
    false None true 4.
Definition a_partition : Partition.row :=
  Partition.mk "R1" "app.events_T_20260615" "P1" (Some "t") "created_at" "range" zero_Time zero_Time
    false active.
(** A parent and its tenant. *)
Definition a_store : Meta := mkMeta [a_parent] [Tenant.mk "t" "P1"] [].

Lemma WF_statements_witness :
  WF (delete_tenant "P1" "t" (mkMeta [a_parent] [Tenant.mk "t" "P1"] [a_partition])).2.
Proof.
  apply (WF_statements empty_Meta); [exact WF_empty|].
  eapply rtc_l; [apply (step_upsert_parent a_parent a_parent); reflexivity|].
  eapply rtc_l; [apply (step_upsert_tenant (Tenant.mk "t" "P1") 1); reflexivity|].
  eapply rtc_l; [apply (step_upsert_partition a_partition); reflexivity|].
  apply rtc_once, step_delete_tenant.
Defined.
