(* ===== verification/World.v ===== *)
(** * The world a call runs in

    The Go functions of the library talk to a connection pool, a clock, an
    id generator, a context and a meter.  [M A] is a call that returns an [A],
    an error, or panics, and may change the world.  The environment decides
    everything the source does not: the DDL service and the catalog of
    PostgreSQL (the type [C] is opaque), which statements fail and whether
    the failed ones took effect, the clock, fresh ids, cancellation, the order
    in which rows are scanned, the collation.  Each interaction consumes one
    [tick], so that the environment may answer each one differently. *)

From S2P Require Import Prelude GoTime Errs Store.
From Stdlib Require Export QArith.
Local Open Scope string_scope.
Local Open Scope Z_scope.

(** ** State *)

(** The data base: the metadata tables and everything else. *)
Record DB (C : Type) := mkDB { meta : Meta; catalog : C }.
Arguments mkDB {C}. Arguments meta {C}. Arguments catalog {C}.

(** What an observer of the process sees: the calls on the meter (a
    histogram's value is kept in nanoseconds) and the pauses between retries. *)
Inductive event :=
| Slept (d : Z)
| Counter (name : string) (delta : Z) (tags : list string)
| Histogram (name : string) (value : Z) (tags : list string).

Record World (C : Type) := mkWorld { db : DB C; tick : nat; trace : list event }.
Arguments mkWorld {C}. Arguments db {C}. Arguments tick {C}. Arguments trace {C}.

(** How a statement fails: it was not executed, or it was and the reply was
    lost. *)
Inductive fault := Lost (e : error) | Applied (e : error).

(** ** SQL values

    The arguments of a statement and the columns of its rows.  A [timestamptz]
    may be one of the two infinities. *)
Inductive value :=
| VNull
| VText (s : string)
| VBool (b : bool)
| VInt (z : Z)
| VTime (t : Time)
| VInfinity (positive : bool)
| VTid (t : Z)
| VTids (l : list Z).

#[export] Instance value_eq_dec : EqDecision value.
Proof. solve_decision. Defined.



(** ** Environment *)

Class Env (C : Type) := {
  (** [Exec] and [Query] of a statement on the catalog, with its arguments *)
  pg_exec : string → list value → C → res (Z * C);
  pg_query : string → list value → C → res (list (list value));
  (** a query that calls a function with an effect, in the session that runs it *)
  pg_call : nat → string → list value → C → res (list value * C);
  (** [pgx.Identifier.Sanitize] *)
  Sanitize : list string → string;
  env_fault : nat → option fault;
  (** the session of the connection the pool hands out *)
  env_session : nat → nat;
  env_now : nat → Time;
  (** [ctx.Err()] *)
  env_ctx : nat → option error;
  (** [ulid.Make().String()] *)
  env_ulid : nat → string;
  (** [rand.Float64()] *)
  env_rand : nat → Q;
  (** the order of a scan, the collation, the zone timestamps are read in *)
  env_scan : ∀ A, nat → list A → list A;
  env_collate : string → string → bool;
  env_zone : Z
}.

(** A scan returns the rows of the table, in some order. *)
Class EnvLaws {C} (E : Env C) : Prop := {
  env_scan_perm : ∀ A n (l : list A), env_scan A n l ≡ₚ l
}.

(** ** The monad *)

Inductive outcome (A : Type) := Ret (a : A) | Fail (e : error) | Panic.
Arguments Ret {A} a. Arguments Fail {A} e. Arguments Panic {A}.

Definition M (C A : Type) : Type := World C → outcome A * World C.

#[export] Instance M_ret {C} : MRet (M C) := λ A a w, (Ret a, w).
#[export] Instance M_bind {C} : MBind (M C) := λ A B k m w,
  match m w with
  | (Ret a, w') => k a w'
  | (Fail e, w') => (Fail e, w')
  | (Panic, w') => (Panic, w')
  end.

Section operations.
Context {C : Type} {E : Env C}.

Definition fail {A} (e : error) : M C A := λ w, (Fail e, w).
Definition lift {A} (r : res A) : M C A :=
  match r with Ok a => mret a | Err e => fail e end.
Definition panic {A} : M C A := λ w, (Panic, w).

(** [x, err := m]: go on with the error as a value. *)
Definition attempt {A} (m : M C A) : M C (res A) := λ w,
  match m w with
  | (Ret a, w') => (Ret (Ok a), w')
  | (Fail e, w') => (Ret (Err e), w')
  | (Panic, w') => (Panic, w')
  end.

(** [if err != nil { return fmt.Errorf("s: %w", err) }] *)
Definition wrapping {A} (s : string) (m : M C A) : M C A := λ w,
  match m w with
  | (Fail e, w') => (Fail (Wrap s e), w')
  | x => x
  end.

(** [defer f()]: run on return, error and panic. *)
Definition deferring {A} (f : M C unit) (m : M C A) : M C A := λ w,
  let '(o, w') := m w in
  match f w' with
  | (Panic, w'') => (Panic, w'')
  | (_, w'') => (o, w'')
  end.

(** [defer func() { if r := recover(); r != nil { h } }()] *)
Definition recovering {A} (h m : M C A) : M C A := λ w,
  match m w with
  | (Panic, w') => h w'
  | x => x
  end.

Definition get_db : M C (DB C) := λ w, (Ret (db w), w).
Definition set_db (d : DB C) (w : World C) : World C := mkWorld d (tick w) (trace w).
Definition put_db (d : DB C) : M C unit := λ w, (Ret tt, set_db d w).
(** One interaction: its number. *)
Definition next_tick : M C nat := λ w, (Ret (tick w), mkWorld (db w) (S (tick w)) (trace w)).
Definition emit (e : event) : M C unit := λ w, (Ret tt, mkWorld (db w) (tick w) (trace w ++ [e])).

Definition Now : M C Time := n ← next_tick; mret (env_now n).
Definition ulid_Make : M C string := n ← next_tick; mret (env_ulid n).
Definition rand_Float64 : M C Q := n ← next_tick; mret (env_rand n).
Definition ctx_Err : M C (option error) := n ← next_tick; mret (env_ctx n).

(** A statement: [f] is what it does to the data base when it is executed,
    given the number of the interaction. *)
Definition statement {A} (f : nat → DB C → res (A * DB C)) : M C A :=
  n ← next_tick;
  d ← get_db;
  match env_fault n with
  | Some (Lost e) => fail e
  | Some (Applied e) =>
      match f n d with
      | Ok (_, d') => put_db d' ;; fail e
      | Err _ => fail e
      end
  | None =>
      match f n d with
      | Ok (a, d') => put_db d' ;; mret a
      | Err e => fail e
      end
  end.

(** A statement on the metadata tables, one on the catalog. *)
Definition meta_read {A} (f : nat → Meta → res A) : M C A :=
  statement (λ n d, a ← f n (meta d); Ok (a, d)).
Definition meta_write {A} (f : Meta → res (A * Meta)) : M C A :=
  statement (λ _ d, '(a, m') ← f (meta d); Ok (a, mkDB m' (catalog d))).
Definition Exec (sql : string) (args : list value) : M C Z :=
  statement (λ _ d, '(n, c') ← pg_exec sql args (catalog d); Ok (n, mkDB (meta d) c')).
Definition QueryRows (sql : string) (args : list value) : M C (list (list value)) :=
  statement (λ _ d, rows ← pg_query sql args (catalog d); Ok (rows, d)).

(** [QueryRow(...).Scan(...)]: the first row, or [pgx.ErrNoRows]. *)
Definition QueryRow (sql : string) (args : list value) : M C (list value) :=
  rows ← QueryRows sql args;
  match rows with
  | [] => fail NoRows
  | row :: _ => mret row
  end.

(** [conn.QueryRow] of such a function. *)
Definition Call (session : nat) (sql : string) (args : list value) : M C (list value) :=
  statement (λ _ d, '(row, c') ← pg_call session sql args (catalog d); Ok (row, mkDB (meta d) c')).

(** [pool.Acquire]. *)
Definition Acquire : M C nat :=
  n ← next_tick;
  match env_fault n with
  | Some (Lost e) | Some (Applied e) => fail e
  | None => mret (env_session n)
  end.

(** [for k, v := range m] over a map: its entries, in some order. *)
Definition range {A} (l : list A) : M C (list A) := n ← next_tick; mret (env_scan A n l).

(** [tx, err := pool.BeginTx(...); defer tx.Rollback(); body; tx.Commit()]
    with the texts the two errors are wrapped in.  The transaction is rolled
    back when the body fails or panics, and when the commit is lost. *)
Definition in_tx {A} (begin_msg commit_msg : string) (body : M C A) : M C A :=
  n ← next_tick;
  match env_fault n with
  | Some (Lost e) | Some (Applied e) => fail (Wrap begin_msg e)
  | None =>
      d ← get_db;
      λ w, match body w with
           | (Ret a, w') =>
               (c ← next_tick;
                match env_fault c with
                | Some (Lost e) => put_db d ;; fail (Wrap commit_msg e)
                | Some (Applied e) => fail (Wrap commit_msg e)
                | None => mret a
                end) w'
           | (Fail e, w') => (Fail e, set_db d w')
           | (Panic, w') => (Panic, set_db d w')
           end
  end.

(** [for _, x := range l { ... }] over a loop state. *)
Fixpoint foldM {S X} (f : S → X → M C S) (s : S) (l : list X) : M C S :=
  match l with
  | [] => mret s
  | x :: l' => s' ← f s x; foldM f s' l'
  end.
Fixpoint forM {X} (f : X → M C unit) (l : list X) : M C unit :=
  match l with
  | [] => mret tt
  | x :: l' => f x ;; forM f l'
  end.
End operations.

(** The value a [timestamptz] column gives back for [t]: whole microseconds,
    in the session's zone. *)
Definition timestamptz {C} {E : Env C} (t : Time) : Time :=
  mkTime (unix_ns t / Microsecond * Microsecond) env_zone.
