(* ===== verification/Logic.v ===== *)
(** * Reasoning about calls

    Two judgements on the computations of [World]: [Stable R m], every run of
    [m], whatever its outcome, moves the world by [R]; and
    [triple P m Q], a run from [P] that returns [a] ends in [Q a].  The rules
    of [Stable] are the hint database [stable], so that preservation proofs
    follow the structure of the program.  [Quiet] environments, in which no
    statement fails, have a third judgement, [succeeds]: the call returns. *)

From S2P Require Import Prelude GoTime Errs Store World.

Create HintDb stable.

(** Unfold the monad on a concrete program. *)
Ltac run_unfold :=
  cbv beta delta [statement fail mret M_ret mbind M_bind next_tick get_db put_db set_db in_tx
                  emit panic attempt wrapping recovering deferring];
  cbn beta iota delta [db tick trace].

(** A reading of the clock, an event of the meter. *)
Ltac waiting := split; [split; cbn; auto|cbn; reflexivity || (apply prefix_app_r; reflexivity)].

Section logic.
Context {C : Type} {E : Env C}.
Implicit Types R : relation (World C).

Definition Stable {A} R (m : M C A) : Prop := ∀ w o w', m w = (o, w') → R w w'.

Definition triple {A} (P : World C → Prop) (m : M C A) (Q : A → World C → Prop) : Prop :=
  ∀ w a w', P w → m w = (Ret a, w') → Q a w'.

Definition succeeds {A} (P : DB C → Prop) (m : M C A) (Q : A → DB C → Prop) : Prop :=
  ∀ w, P (db w) → ∃ a w', m w = (Ret a, w') ∧ Q a (db w').

(** The same data base, later. *)
Definition later (w w' : World C) : Prop := db w' = db w ∧ (tick w <= tick w')%nat.
#[export] Instance later_refl : Reflexive later.
Proof. by split. Qed.
#[export] Instance later_trans : Transitive later.
Proof. intros w1 w2 w3 [? ?] [? ?]. split; [congruence|lia]. Qed.

(** An assertion that waiting does not invalidate. *)
Class Closed (P : World C → Prop) : Prop := closed : ∀ w w', P w → later w w' → P w'.
#[export] Instance Closed_db (P : DB C → Prop) : Closed (λ w, P (db w)).
Proof. intros w w' HP [-> _]. done. Qed.

(** Later, and nothing that was metered is taken back. *)
Definition waits (w w' : World C) : Prop := later w w' ∧ trace w `prefix_of` trace w'.

(** What a run may do, as a relation between worlds: waiting is allowed, and
    so is undoing a transaction. *)
Class Course R : Prop := {
  course_trans : Transitive R;
  course_waits w w' : waits w w' → R w w';
  course_rollback w w' : R w w' → R w (set_db (db w) w')
}.
#[export] Existing Instance course_trans.
#[export] Instance course_refl R `{!Course R} : Reflexive R.
Proof. intros w. by apply course_waits. Qed.
(** Most relations do not see the meter. *)
Class Effect R : Prop := {
  effect_trans : Transitive R;
  effect_later w w' : later w w' → R w w';
  effect_rollback w w' : R w w' → R w (set_db (db w) w')
}.
#[export] Instance effect_course R : Effect R → Course R.
Proof. intros []. split; [done| |done]. intros w w' []. auto. Qed.

(** A preorder on the data base. *)
Definition on_db (R : relation (DB C)) : relation (World C) := λ w w', R (db w) (db w').
#[export] Instance Effect_on_db (R : relation (DB C)) `{!PreOrder R} : Effect (on_db R).
Proof.
  split; unfold on_db.
  - intros w1 w2 w3 H1 H2. by etrans.
  - by intros w w' [-> _].
  - done.
Qed.

(** Keeping an assertion. *)
Definition keeps (P : World C → Prop) : relation (World C) :=
  λ w w', (tick w <= tick w')%nat ∧ (P w → P w').
#[export] Instance Effect_keeps P `{!Closed P} : Effect (keeps P).
Proof.
  split; unfold keeps.
  - intros w1 w2 w3 [? ?] [? ?]. split; [lia|auto].
  - intros w w' Hl. split; [apply Hl|]. intros. by eapply closed.
  - intros w w' [Ht _]. split; [exact Ht|]. intros. eapply closed; [done|]. by split.
Qed.

(** Changing nothing in the data base. *)
#[export] Instance Effect_later : Effect later.
Proof. split; [apply _|done|]. by intros w w' [? ?]. Qed.

(** Time goes on. *)
Definition ticks (w w' : World C) : Prop := (tick w <= tick w')%nat.
#[export] Instance Effect_ticks : Effect ticks.
Proof. split; unfold ticks; [intros w1 w2 w3; lia|by intros w w' []|done]. Qed.

(** The meter keeps what it got. *)
Definition metered (w w' : World C) : Prop := trace w `prefix_of` trace w'.
#[export] Instance metered_preorder : PreOrder metered.
Proof. split; [intros w; by unfold metered|]. intros w1 w2 w3 H1 H2. unfold metered in *. by etrans. Qed.
#[export] Instance Course_metered : Course metered.
Proof. split; [apply _|by intros w w' []|done]. Qed.
#[export] Instance Course_waits : Course waits.
Proof.
  split; [|done|].
  - intros w1 w2 w3 [? ?] [? ?]. split; [by etrans|]. by transitivity (trace w2).
  - intros w w' [[? ?] ?]. by split.
Qed.

(** ** [Stable] *)

Section stable.
Context R `{!Course R}.

Lemma Stable_ret {A} (a : A) : Stable R (mret a).
Proof. by intros w o w' [= <- <-]. Qed.
Lemma Stable_fail {A} e : Stable R (fail e : M C A).
Proof. by intros w o w' [= <- <-]. Qed.
Lemma Stable_panic {A} : Stable R (panic : M C A).
Proof. by intros w o w' [= <- <-]. Qed.
Lemma Stable_lift {A} (r : res A) : Stable R (lift r).
Proof. destruct r; [apply Stable_ret|apply Stable_fail]; done. Qed.

Lemma Stable_bind {A B} (m : M C A) (k : A → M C B) :
  Stable R m → (∀ a, Stable R (k a)) → Stable R (m ≫= k).
Proof.
  intros Hm Hk w o w' H. unfold mbind, M_bind in H.
  destruct (m w) as [[a|e|] w1] eqn:Hw; [|by simplify_eq; eapply Hm..].
  etrans; [by eapply Hm|by eapply Hk].
Qed.

(** The rest may rely on what the first step returned. *)
Lemma Stable_bind_run {A B} (m : M C A) (k : A → M C B) :
  Stable R m → (∀ w a w1, m w = (Ret a, w1) → Stable R (k a)) → Stable R (m ≫= k).
Proof.
  intros Hm Hk w o w' H. unfold mbind, M_bind in H.
  destruct (m w) as [[a|e|] w1] eqn:Hw; [|by simplify_eq; eapply Hm..].
  etrans; [by eapply Hm|by eapply (Hk w a w1)].
Qed.

Lemma Stable_attempt {A} (m : M C A) : Stable R m → Stable R (attempt m).
Proof.
  intros Hm w o w' H. unfold attempt in H.
  destruct (m w) as [[a|e|] w1] eqn:Hw; simplify_eq; by eapply Hm.
Qed.
Lemma Stable_wrapping {A} s (m : M C A) : Stable R m → Stable R (wrapping s m).
Proof.
  intros Hm w o w' H. unfold wrapping in H.
  destruct (m w) as [[a|e|] w1] eqn:Hw; simplify_eq; by eapply Hm.
Qed.
Lemma Stable_recovering {A} (h m : M C A) : Stable R h → Stable R m → Stable R (recovering h m).
Proof.
  intros Hh Hm w o w' H. unfold recovering in H.
  destruct (m w) as [[a|e'|] w1] eqn:Hw; simplify_eq; [by eapply Hm..|].
  etrans; [by eapply Hm|by eapply Hh].
Qed.
Lemma Stable_deferring {A} f (m : M C A) :
  Stable R f → Stable R m → Stable R (deferring f m).
Proof.
  intros Hf Hm w o w' H. unfold deferring in H.
  destruct (m w) as [om w1] eqn:Hw, (f w1) as [[a|e|] w2] eqn:Hw1; simplify_eq;
    (etrans; [by eapply Hm|by eapply Hf]).
Qed.

Lemma Stable_emit e : Stable R (emit e).
Proof. intros w o w' [= <- <-]. apply course_waits. by waiting. Qed.
Lemma Stable_env {A} (f : nat → A) : Stable R (n ← next_tick; mret (f n)).
Proof. intros w o w' [= <- <-]. apply course_waits; by waiting. Qed.
Lemma Stable_Now : Stable R Now.
Proof. apply Stable_env. Qed.
Lemma Stable_ulid_Make : Stable R ulid_Make.
Proof. apply Stable_env. Qed.
Lemma Stable_rand : Stable R rand_Float64.
Proof. apply Stable_env. Qed.
Lemma Stable_ctx_Err : Stable R ctx_Err.
Proof. apply Stable_env. Qed.

(** A statement does nothing, or what [f] does. *)
Lemma Stable_statement {A} (f : nat → DB C → res (A * DB C)) :
  (∀ w a d', f (tick w) (db w) = Ok (a, d') → R w (mkWorld d' (S (tick w)) (trace w))) →
  Stable R (statement f).
Proof.
  intros Hf w o w'. run_unfold.
  destruct (env_fault (tick w)) as [[e|e]|], (f (tick w) (db w)) as [[a d']|e'] eqn:Hr;
    intros [= <- <-]; try (by eapply Hf); apply course_waits; by waiting.
Qed.

Lemma Stable_meta_read {A} (f : nat → Meta → res A) : Stable R (meta_read f).
Proof.
  apply Stable_statement. intros w a d'. destruct (f _ _); [|done].
  intros [= <- <-]. apply course_waits; by waiting.
Qed.
Lemma Stable_meta_write {A} (f : Meta → res (A * Meta)) :
  (∀ w a m', f (meta (db w)) = Ok (a, m') →
     R w (mkWorld (mkDB m' (catalog (db w))) (S (tick w)) (trace w))) →
  Stable R (meta_write f).
Proof.
  intros Hf. apply Stable_statement. intros w a d'.
  destruct (f _) as [[x m']|] eqn:Hm; [|done]. cbn. intros [= <- <-]. by eapply Hf.
Qed.
Lemma Stable_Exec sql args :
  (∀ w c', R w (mkWorld (mkDB (meta (db w)) c') (S (tick w)) (trace w))) →
  Stable R (Exec sql args).
Proof.
  intros Hf. apply Stable_statement. intros w a d'.
  destruct (pg_exec _ _ _) as [[x c']|]; [|done]. cbn. intros [= <- <-]. apply Hf.
Qed.
Lemma Stable_Call session sql args :
  (∀ w c', R w (mkWorld (mkDB (meta (db w)) c') (S (tick w)) (trace w))) →
  Stable R (Call session sql args).
Proof.
  intros Hf. apply Stable_statement. intros w a d'.
  destruct (pg_call _ _ _ _) as [[x c']|]; [|done]. cbn. intros [= <- <-]. apply Hf.
Qed.
Lemma Stable_Acquire : Stable R Acquire.
Proof.
  intros w o w'. unfold Acquire. run_unfold.
  destruct (env_fault (tick w)) as [[e|e]|]; intros [= <- <-]; apply course_waits; by waiting.
Qed.
Lemma Stable_range {A} (l : list A) : Stable R (range l).
Proof. apply Stable_env. Qed.
Lemma Stable_QueryRows sql args : Stable R (QueryRows sql args).
Proof.
  apply Stable_statement. intros w a d'. destruct (pg_query _ _ _); [|done].
  intros [= <- <-]. apply course_waits; by waiting.
Qed.

Lemma Stable_QueryRow sql args : Stable R (QueryRow sql args).
Proof.
  apply Stable_bind; [apply Stable_QueryRows|]. intros [|row rows]; [apply Stable_fail|apply Stable_ret].
Qed.

Lemma Stable_in_tx {A} b c (body : M C A) : Stable R body → Stable R (in_tx b c body).
Proof.
  intros Hb w o w'. run_unfold.
  destruct (env_fault (tick w)) as [[e|e]|];
    [intros [= <- <-]; apply course_waits; by waiting..|].
  set (w1 := mkWorld (db w) (S (tick w)) (trace w)).
  assert (R w w1) as H1 by (apply course_waits; by waiting).
  destruct (body w1) as [ob w2] eqn:Hr. apply Hb in Hr.
  assert (R w w2) as H2 by (by etrans). assert (R w (set_db (db w) w2)) as H3 by (by apply course_rollback).
  destruct ob as [a|e|]; [|by intros [= <- <-]..].
  destruct (env_fault (tick w2)) as [[e|e]|]; intros [= <- <-].
  - etrans; [exact H3|]. apply course_waits; by waiting.
  - etrans; [exact H2|]. apply course_waits; by waiting.
  - etrans; [exact H2|]. apply course_waits; by waiting.
Qed.

Lemma Stable_foldM {S X} (f : S → X → M C S) l :
  (∀ s x, x ∈ l → Stable R (f s x)) → ∀ s, Stable R (foldM f s l).
Proof.
  induction l as [|x l IH]; intros Hf s; cbn; [by apply Stable_ret|].
  apply Stable_bind.
  - apply Hf. by left.
  - intros s'. apply IH. intros. apply Hf. by right.
Qed.
Lemma Stable_forM {X} (f : X → M C unit) l :
  (∀ x, x ∈ l → Stable R (f x)) → Stable R (forM f l).
Proof.
  induction l as [|x l IH]; intros Hf; cbn; [by apply Stable_ret|].
  apply Stable_bind.
  - apply Hf. by left.
  - intros _. apply IH. intros. apply Hf. by right.
Qed.

(** Values of pure computations and of reads, for the rest of the program. *)
Lemma Stable_bind_lift {A B} s (r : res A) (k : A → M C B) :
  (∀ a, r = Ok a → Stable R (k a)) → Stable R (wrapping s (lift r) ≫= k).
Proof.
  intros Hk. destruct r as [a|e].
  - intros w o w' H. by eapply Hk.
  - by intros w o w' [= <- <-].
Qed.
Lemma Stable_bind_lift' {A B} (r : res A) (k : A → M C B) :
  (∀ a, r = Ok a → Stable R (k a)) → Stable R (lift r ≫= k).
Proof.
  intros Hk. destruct r as [a|e].
  - intros w o w' H. by eapply Hk.
  - by intros w o w' [= <- <-].
Qed.
End stable.

Lemma Stable_statement_ticks {A} (f : nat → DB C → res (A * DB C)) : Stable ticks (statement f).
Proof. apply Stable_statement; [apply _|]. intros w a d' _. unfold ticks. cbn. lia. Qed.

Lemma Stable_weaken {A} R R' (m : M C A) : Stable R m → (∀ w w', R w w' → R' w w') → Stable R' m.
Proof. intros Hm HR w o w' H. eapply HR, Hm, H. Qed.

(** A read followed by what is done with its result, in the world where the
    result holds. *)
Lemma meta_read_run {A} (f : nat → Meta → res A) w o w' :
  meta_read f w = (o, w') →
  later w w' ∧
  match o with
  | Ret a => ∃ n, f n (meta (db w)) = Ok a
  | Fail _ => True
  | Panic => False
  end.
Proof.
  unfold meta_read. run_unfold.
  destruct (env_fault (tick w)) as [[e|e]|];
    [|destruct (f _ _) as [a|e'] eqn:Hf..]; cbn; intros [= <- <-];
    (split; [split; cbn; auto|]); eauto.
Qed.

Lemma meta_read_fail {A} (f : nat → Meta → res A) w e w' :
  meta_read f w = (Fail e, w') →
  (∃ n, f n (meta (db w)) = Err e) ∨
  ∃ n, env_fault n = Some (Lost e) ∨ env_fault n = Some (Applied e).
Proof.
  unfold meta_read. run_unfold.
  destruct (env_fault (tick w)) as [[e'|e']|] eqn:Hf;
    [|destruct (f _ _) as [a|e''] eqn:Hr..]; cbn; intros [=]; subst; eauto.
Qed.

Lemma later_tick w : later w (mkWorld (db w) (S (tick w)) (trace w)).
Proof. split; cbn; auto. Qed.

(** A statement that writes did nothing, or what it says. *)
Lemma meta_write_run {A} (f : Meta → res (A * Meta)) w o w' :
  meta_write f w = (o, w') →
  (later w w' ∧ ∃ e, o = Fail e ∧ (f (meta (db w)) = Err e ∨
     ∃ n, env_fault n = Some (Lost e) ∨ env_fault n = Some (Applied e))) ∨
  ∃ a m', f (meta (db w)) = Ok (a, m') ∧ db w' = mkDB m' (catalog (db w)) ∧
    (o = Ret a ∨ ∃ e n, o = Fail e ∧ env_fault n = Some (Applied e)).
Proof.
  unfold meta_write. run_unfold.
  destruct (env_fault (tick w)) as [[e|e]|] eqn:Hf; destruct (f _) as [[a m']|e'] eqn:Hm;
    cbn; intros [= <- <-]; eauto 12 using later_tick.
Qed.

(** ** Inversion of a run *)

Lemma bind_inv {A B} (m : M C A) (k : A → M C B) w o w' :
  (m ≫= k) w = (o, w') →
  (∃ a w1, m w = (Ret a, w1) ∧ k a w1 = (o, w')) ∨
  (∃ e, m w = (Fail e, w') ∧ o = Fail e) ∨ (m w = (Panic, w') ∧ o = Panic).
Proof.
  unfold mbind, M_bind. destruct (m w) as [[a|e|] w1].
  - intros H. left. by exists a, w1.
  - intros [= <- <-]. right; left. by exists e.
  - intros [= <- <-]. by right; right.
Qed.

(** Runs of the steps that cannot fail. *)
Lemma bind_lift_Ok {A B} (a : A) (k : A → M C B) w : (lift (Ok a) ≫= k) w = k a w.
Proof. done. Qed.
Lemma bind_wrapping_Ok {A B} s (a : A) (k : A → M C B) w :
  (wrapping s (lift (Ok a)) ≫= k) w = k a w.
Proof. done. Qed.
Lemma bind_Now {B} (k : Time → M C B) w :
  (Now ≫= k) w = k (env_now (tick w)) (mkWorld (db w) (S (tick w)) (trace w)).
Proof. done. Qed.

Lemma bind_emit {B} e (k : unit → M C B) w :
  (emit e ≫= k) w = k tt (mkWorld (db w) (tick w) (trace w ++ [e])).
Proof. done. Qed.

Lemma wrapping_inv {A} s (m : M C A) w o w' :
  wrapping s m w = (o, w') →
  ∃ o1, m w = (o1, w') ∧
    match o1 with Ret a => o = Ret a | Fail e => o = Fail (Wrap s e) | Panic => o = Panic end.
Proof. unfold wrapping. destruct (m w) as [[a|e|] w1]; intros [= <- <-]; by eexists. Qed.

Lemma attempt_inv {A} (m : M C A) w o w' :
  attempt m w = (o, w') →
  ∃ o1, m w = (o1, w') ∧
    match o1 with Ret a => o = Ret (Ok a) | Fail e => o = Ret (Err e) | Panic => o = Panic end.
Proof. unfold attempt. destruct (m w) as [[a|e|] w1]; intros [= <- <-]; by eexists. Qed.

Lemma lift_inv {A} (r : res A) (w w' : World C) o :
  lift r w = (o, w') →
  w' = w ∧ match r with Ok a => o = Ret a | Err e => o = Fail e end.
Proof. destruct r; by intros [= <- <-]. Qed.

Lemma env_inv {A} (f : nat → A) (w w' : World C) o :
  (n ← next_tick; mret (f n)) w = (o, w') → later w w' ∧ o = Ret (f (tick w)).
Proof. intros [= <- <-]. split; [split; cbn; auto|done]. Qed.

Lemma deferring_inv {A} f (m : M C A) w o w' :
  Stable later f → deferring f m w = (o, w') →
  ∃ o1 w1, m w = (o1, w1) ∧ later w1 w' ∧ (o = o1 ∨ o = Panic).
Proof.
  intros Hf. unfold deferring. destruct (m w) as [o1 w1] eqn:Hm.
  destruct (f w1) as [o2 w2] eqn:H2. intros H. exists o1, w1.
  split; [done|]. pose proof (Hf _ _ _ H2) as Hl.
  destruct o2; injection H as <- <-; auto.
Qed.

(** A first step that leaves the data base alone. *)
Lemma bind_later_inv {A B} (m : M C A) (k : A → M C B) w o w' :
  Stable later m → (m ≫= k) w = (o, w') →
  (∃ a w1, later w w1 ∧ k a w1 = (o, w')) ∨ (later w w' ∧ ∀ b, o ≠ Ret b).
Proof.
  intros Hm [(a & w1 & H1 & H2)|[(e & H1 & ->)|[H1 ->]]]%bind_inv; apply Hm in H1; eauto.
Qed.
Lemma bind_lift_inv {A B} (r : res A) (k : A → M C B) w o w' :
  (lift r ≫= k) w = (o, w') →
  (∃ a, r = Ok a ∧ k a w = (o, w')) ∨ (w' = w ∧ ∀ b, o ≠ Ret b).
Proof. destruct r as [a|e]; [eauto|]. intros [= <- <-]. by right. Qed.

(** ** Looking *)

(** A first step that only looks: it leaves the data base alone, and a run
    that goes on has [K]. *)
Definition looks {A} (m : M C A) (K : A → DB C → Prop) : Prop :=
  ∀ w o w', m w = (o, w') → later w w' ∧ ∀ a, o = Ret a → K a (db w).

Lemma bind_looks_inv {A B} (m : M C A) K (k : A → M C B) w o w' :
  looks m K → (m ≫= k) w = (o, w') →
  (∃ a w1, later w w1 ∧ K a (db w) ∧ k a w1 = (o, w')) ∨ (later w w' ∧ ∀ b, o ≠ Ret b).
Proof.
  intros Hm [(a & w1 & [Hl Ha]%Hm & H)|[(e & [Hl _]%Hm & ->)|[[Hl _]%Hm ->]]]%bind_inv;
    [left; exists a, w1; auto|by right..].
Qed.

Lemma looks_ret {A} (a : A) : looks (mret a) (λ x _, x = a).
Proof. intros w o w' [= <- <-]. split; [done|]. by intros x [= ->]. Qed.
Lemma looks_lift {A} (r : res A) : looks (lift r) (λ a _, r = Ok a).
Proof. intros w o w' [-> H]%lift_inv. split; [done|]. destruct r; subst; intros ? [=]; by subst. Qed.
Lemma looks_weaken {A} (m : M C A) (K K' : A → DB C → Prop) :
  looks m K → (∀ a d, K a d → K' a d) → looks m K'.
Proof. intros Hm HK w o w' [? Ha]%Hm. auto. Qed.
Lemma looks_bind {A B} (m : M C A) K (k : A → M C B) K' :
  looks m K → (∀ a, looks (k a) (λ b d, K a d → K' b d)) → looks (m ≫= k) K'.
Proof.
  intros Hm Hk w o w' [(a & w1 & Hl & HK & [Hl' Hb]%Hk)|[Hl Ho]]%(bind_looks_inv m K); [..|done].
  - split; [by etrans|]. intros b ->. destruct Hl as [Hd _]. rewrite <- Hd. apply Hb; [done|by rewrite Hd].
  - split; [done|]. intros b ->. by destruct (Ho b).
Qed.
Lemma looks_attempt {A} (m : M C A) K :
  looks m K → looks (attempt m) (λ r d, match r with Ok a => K a d | Err _ => True end).
Proof.
  intros Hm w o w' (o1 & [Hl Ha]%Hm & Ho)%attempt_inv. split; [done|].
  intros [a|e] ->; [|done]. destruct o1 as [x|e|]; [|done..]. injection Ho as ->. by apply Ha.
Qed.
Lemma looks_fail {A} e K : looks (fail e : M C A) K.
Proof. by intros w o w' [= <- <-]. Qed.

Lemma looks_QueryRows sql args :
  looks (QueryRows sql args) (λ rows d, pg_query sql args (catalog d) = Ok rows).
Proof.
  intros w o w'. unfold QueryRows. run_unfold.
  destruct (env_fault (tick w)) as [[e|e]|];
    [|destruct (pg_query _ _ _) as [rows|e'] eqn:Hq..]; cbn; intros [= <- <-];
    (split; [split; cbn; auto|intros x]); [done..| |done]. by intros [= <-].
Qed.
Lemma looks_wrapping {A} s (m : M C A) K : looks m K → looks (wrapping s m) K.
Proof.
  intros Hm w o w' (o1 & [Hl Ha]%Hm & Ho)%wrapping_inv. split; [done|]. intros a ->.
  destruct o1; simplify_eq. by apply Ha.
Qed.
Lemma looks_meta_read {A} (f : nat → Meta → res A) :
  looks (meta_read f) (λ a d, ∃ n, f n (meta d) = Ok a).
Proof. intros w o w' [Hl Ho]%meta_read_run. split; [done|]. by intros a ->. Qed.

(** ** All or nothing *)

(** Keeping [I]; from [I], the data base is unchanged or [P] holds, and [P]
    is not lost. *)
Definition atomically (I P : World C → Prop) : relation (World C) := λ w w',
  (tick w <= tick w')%nat ∧
  (I w → I w' ∧ (db w' = db w ∨ P w') ∧ (P w → P w')).
#[export] Instance Effect_atomically I P `{!Closed I, !Closed P} : Effect (atomically I P).
Proof.
  split; unfold atomically.
  - intros w1 w2 w3 [? H1] [? H2]. split; [lia|]. intros HI.
    destruct (H1 HI) as (HI2 & Hd & HP). destruct (H2 HI2) as (HI3 & Hd' & HP').
    split_and!; [done| |auto]. destruct Hd' as [Hd'|]; [|by right].
    destruct Hd as [Hd|]; [left; congruence|right; auto].
  - intros w w' Hl. split; [apply Hl|]. intros HI. split_and!; [by eapply closed|left; apply Hl|].
    intros. by eapply closed.
  - intros w w' [Ht _]. split; [exact Ht|]. intros HI.
    assert (later w (set_db (db w) w')) as Hl by (by split).
    split_and!; [by eapply closed|by left|]. intros. by eapply closed.
Qed.

Lemma Stable_atomically_in_tx {A} I P `{!Closed I, !Closed P} b c (body : M C A) :
  Stable (keeps I) body → Stable (keeps (λ w, I w ∧ P w)) body → triple I body (λ _, P) →
  Stable (atomically I P) (in_tx b c body).
Proof.
  intros HI HP Hbody w o w'. run_unfold.
  assert (∀ w2, (tick w <= tick w2)%nat → db w2 = db w → atomically I P w w2) as Hback.
  { intros w2 Ht Hd. apply effect_later. by split. }
  destruct (env_fault (tick w)) as [[e|e]|];
    [intros [= <- <-]; apply Hback; cbn; auto..|].
  set (w1 := mkWorld (db w) (S (tick w)) (trace w)).
  assert (later w w1) as H1 by (split; cbn; auto).
  destruct (body w1) as [ob w2] eqn:Hr.
  pose proof (HI _ _ _ Hr) as [Ht HI2]. pose proof (HP _ _ _ Hr) as [_ HP2]. cbn in Ht.
  destruct ob as [a|e|]; [|intros [= <- <-]; apply Hback; cbn; auto with lia..].
  assert (∀ w3, later w2 w3 → atomically I P w w3) as Hdone.
  { intros w3 Hl. split; [destruct Hl; lia|]. intros HIw.
    assert (I w1) as HI1 by (by eapply closed).
    assert (P w2) as HPw by (by eapply Hbody).
    split_and!; [|right; by eapply (closed w2)|intros; by eapply (closed w2)].
    eapply (closed w2); [by apply HI2|done]. }
  destruct (env_fault (tick w2)) as [[e|e]|]; intros [= <- <-].
  - apply Hback; cbn; auto with lia.
  - apply Hdone. split; cbn; auto.
  - apply Hdone. split; cbn; auto.
Qed.

(** ** [triple] *)

Lemma triple_ret {A} P (a : A) (Q : A → World C → Prop) :
  (∀ w, P w → Q a w) → triple P (mret a) Q.
Proof. intros HQ w x w' HP [= <- <-]. auto. Qed.
Lemma triple_fail {A} P e (Q : A → World C → Prop) : triple P (fail e) Q.
Proof. by intros w x w' HP. Qed.
Lemma triple_lift {A} P (r : res A) (Q : A → World C → Prop) :
  (∀ a w, r = Ok a → P w → Q a w) → triple P (lift r) Q.
Proof. intros HQ. destruct r; [apply triple_ret; auto|apply triple_fail]. Qed.
Lemma triple_bind {A B} P (m : M C A) (k : A → M C B) Q T :
  triple P m T → (∀ a, triple (T a) (k a) Q) → triple P (m ≫= k) Q.
Proof.
  intros Hm Hk w b w' HP H. unfold mbind, M_bind in H.
  destruct (m w) as [[a|e|] w1] eqn:Hw; [|done..].
  eapply Hk; [|exact H]. by eapply Hm.
Qed.
Lemma triple_wrapping {A} P s (m : M C A) Q : triple P m Q → triple P (wrapping s m) Q.
Proof.
  intros Hm w a w' HP H. unfold wrapping in H.
  destruct (m w) as [[x|e|] w1] eqn:Hw; simplify_eq. by eapply Hm.
Qed.
Lemma triple_weaken {A} (P P' : World C → Prop) (m : M C A) (Q Q' : A → World C → Prop) :
  triple P m Q → (∀ w, P' w → P w) → (∀ a w, Q a w → Q' a w) → triple P' m Q'.
Proof. intros Hm HP HQ w a w' HP' H. eapply HQ, Hm; eauto. Qed.
(** What every run does, and what a run that returns establishes. *)
Lemma triple_stable {A} R P (m : M C A) Q :
  Stable R m → triple P m Q → triple P m (λ a w', Q a w' ∧ ∃ w, P w ∧ R w w').
Proof. intros HR Hm w a w' HP H. split; [by eapply Hm|]. exists w. split; [done|by eapply HR]. Qed.
Lemma triple_env {A} P `{!Closed P} (f : nat → A) :
  triple P (n ← next_tick; mret (f n)) (λ _, P).
Proof. intros w a w' HP [= <- <-]. eapply closed; [done|]. split; cbn; auto. Qed.
Lemma triple_emit P `{!Closed P} e : triple P (emit e) (λ _, P).
Proof. intros w a w' HP [= <- <-]. eapply closed; [done|]. by split. Qed.

Lemma triple_emit_ret {A} P `{!Closed P} e (a : A) (Q : A → World C → Prop) :
  (∀ w, P w → Q a w) → triple P (emit e ;; mret a) Q.
Proof.
  intros HQ. eapply triple_bind; [by apply triple_emit|]. intros []. by apply triple_ret.
Qed.
Lemma triple_pure {A} (P : Prop) (m : M C A) Q :
  (P → triple (λ _, True) m Q) → triple (λ _, P) m Q.
Proof. intros H w a w' HP. by apply H. Qed.

Lemma triple_in_tx {A} P `{!Closed P} b c (body : M C A) Q `{!∀ a, Closed (Q a)} :
  triple P body Q → triple P (in_tx b c body) Q.
Proof.
  intros Hb w a w' HP. run_unfold. destruct (env_fault (tick w)) as [[e|e]|]; [done..|].
  destruct (body _) as [[x|e|] w2] eqn:Hr; [|done..].
  destruct (env_fault (tick w2)) as [[e|e]|]; [done..|]. intros [= <- <-].
  eapply (closed w2); [|split; cbn; auto]. eapply Hb; [|exact Hr].
  eapply closed; [done|]. split; cbn; auto.
Qed.

(** [f] does nothing that [Q] can see. *)
Lemma triple_deferring {A} P f (m : M C A) Q :
  (∀ a, triple (Q a) f (λ _, Q a)) → (∀ w, ∃ w', f w = (Ret tt, w')) →
  triple P m Q → triple P (deferring f m) Q.
Proof.
  intros Hf Hr Hm w a w' HP H. unfold deferring in H.
  destruct (m w) as [om w1] eqn:Hw. destruct (Hr w1) as [w2 Hw1]. rewrite Hw1 in H.
  injection H as -> ->. eapply Hf; [|exact Hw1]. by eapply Hm.
Qed.

Lemma triple_statement {A} P (f : nat → DB C → res (A * DB C)) (Q : A → World C → Prop) :
  (∀ w a d', P w → f (tick w) (db w) = Ok (a, d') → Q a (mkWorld d' (S (tick w)) (trace w))) →
  triple P (statement f) Q.
Proof.
  intros Hf w a w' HP. run_unfold. destruct (env_fault (tick w)) as [[e|e]|]; [done|..];
    destruct (f (tick w) (db w)) as [[x d']|e'] eqn:Hr; try done.
  intros [= <- <-]. by eapply Hf.
Qed.
Lemma triple_meta_read {A} P `{!Closed P} (f : nat → Meta → res A) (Q : A → World C → Prop) :
  (∀ n w a, P w → f n (meta (db w)) = Ok a → Q a w) → triple P (meta_read f) Q.
Proof.
  intros Hf. apply triple_statement. intros w a d' HP.
  destruct (f _ _) eqn:Hm; [|done]. intros [= <- <-]. eapply Hf; [|exact Hm].
  eapply closed; [done|]. split; cbn; auto.
Qed.
Lemma triple_meta_write {A} P (f : Meta → res (A * Meta)) (Q : A → World C → Prop) :
  (∀ w a m', P w → f (meta (db w)) = Ok (a, m') →
     Q a (mkWorld (mkDB m' (catalog (db w))) (S (tick w)) (trace w))) →
  triple P (meta_write f) Q.
Proof.
  intros Hf. apply triple_statement. intros w a d' HP.
  destruct (f _) as [[x m']|] eqn:Hm; [|done]. cbn. intros [= <- <-]. eauto.
Qed.
Lemma triple_Exec (P : World C → Prop) sql args :
  (∀ w c, P w → P (mkWorld (mkDB (meta (db w)) c) (S (tick w)) (trace w))) →
  triple P (Exec sql args) (λ _, P).
Proof.
  intros HP. apply triple_statement. intros w a d' Hw.
  destruct (pg_exec _ _ _) as [[x c']|]; [|done]. cbn. intros [= <- <-]. by apply HP.
Qed.
Lemma triple_foldM {S X} (I : list X → S → World C → Prop) (f : S → X → M C S) :
  (∀ s x l, triple (I (x :: l) s) (f s x) (I l)) →
  ∀ l s, triple (I l s) (foldM f s l) (I []).
Proof.
  intros Hf l. induction l as [|x l IH]; intros s; cbn; [by apply triple_ret|].
  eapply triple_bind; [apply Hf|]. intros s'. apply IH.
Qed.
Lemma triple_attempt {A} P (m : M C A) Q :
  (∀ w e w', P w → m w = (Fail e, w') → Q (Err e) w') →
  triple P m (λ a, Q (Ok a)) → triple P (attempt m) Q.
Proof.
  intros He Hm w r w' HP (o & Hrun & Ho)%attempt_inv.
  destruct o as [a|e|]; [|..]; try (injection Ho as ->); [by eapply Hm|by eapply He|done].
Qed.
Lemma triple_forM {X} (I : list X → World C → Prop) (f : X → M C unit) :
  (∀ x l, triple (I (x :: l)) (f x) (λ _, I l)) →
  ∀ l, triple (I l) (forM f l) (λ _, I []).
Proof.
  intros Hf l. induction l as [|x l IH]; cbn; [by apply triple_ret|].
  eapply triple_bind; [apply Hf|]. by intros [].
Qed.

(** ** [Quiet] environments *)

Class Quiet : Prop := quiet : ∀ n, env_fault n = None.

Lemma quiet_statement `{!Quiet} {A} (f : nat → DB C → res (A * DB C)) w :
  statement f w =
  match f (tick w) (db w) with
  | Ok (a, d') => (Ret a, mkWorld d' (S (tick w)) (trace w))
  | Err e => (Fail e, mkWorld (db w) (S (tick w)) (trace w))
  end.
Proof. run_unfold. rewrite quiet. by destruct (f _ _) as [[]|]. Qed.

Lemma quiet_meta_read `{!Quiet} {A} (f : nat → Meta → res A) w :
  meta_read f w =
  (match f (tick w) (meta (db w)) with Ok a => Ret a | Err e => Fail e end,
   mkWorld (db w) (S (tick w)) (trace w)).
Proof. unfold meta_read. rewrite quiet_statement. by destruct (f _ _). Qed.

Lemma bind_Ret {A B} (m : M C A) (k : A → M C B) w a w1 :
  m w = (Ret a, w1) → (m ≫= k) w = k a w1.
Proof. intros H. unfold mbind, M_bind. by rewrite H. Qed.
Lemma attempt_Ret {A} (m : M C A) w a w1 :
  m w = (Ret a, w1) → attempt m w = (Ret (Ok a), w1).
Proof. intros H. unfold attempt. by rewrite H. Qed.
Lemma attempt_Fail {A} (m : M C A) w e w1 :
  m w = (Fail e, w1) → attempt m w = (Ret (Err e), w1).
Proof. intros H. unfold attempt. by rewrite H. Qed.
Lemma deferring_Ret {A} f (m : M C A) w a w1 w2 :
  m w = (Ret a, w1) → f w1 = (Ret tt, w2) → deferring f m w = (Ret a, w2).
Proof. intros H1 H2. unfold deferring. by rewrite H1, H2. Qed.
Lemma wrapping_Ret {A} s (m : M C A) w a w1 : m w = (Ret a, w1) → wrapping s m w = (Ret a, w1).
Proof. intros H. unfold wrapping. by rewrite H. Qed.

Lemma in_tx_Ret `{!Quiet} {A} b c (body : M C A) w a w1 :
  body (mkWorld (db w) (S (tick w)) (trace w)) = (Ret a, w1) →
  in_tx b c body w = (Ret a, mkWorld (db w1) (S (tick w1)) (trace w1)).
Proof. intros Hr. run_unfold. rewrite quiet, Hr. cbn. by rewrite quiet. Qed.
Lemma quiet_Exec `{!Quiet} sql args w n c' :
  pg_exec sql args (catalog (db w)) = Ok (n, c') →
  Exec sql args w = (Ret n, mkWorld (mkDB (meta (db w)) c') (S (tick w)) (trace w)).
Proof. intros Hr. unfold Exec. by rewrite quiet_statement, Hr. Qed.
Lemma quiet_QueryRows `{!Quiet} sql args w rows :
  pg_query sql args (catalog (db w)) = Ok rows →
  QueryRows sql args w = (Ret rows, mkWorld (db w) (S (tick w)) (trace w)).
Proof. intros Hr. unfold QueryRows. by rewrite quiet_statement, Hr. Qed.
Lemma bind_env {A B} (f : nat → A) (k : A → M C B) w :
  ((n ← next_tick; mret (f n)) ≫= k) w = k (f (tick w)) (mkWorld (db w) (S (tick w)) (trace w)).
Proof. done. Qed.
Lemma lift_Ok {A} (a : A) (w : World C) : lift (Ok a) w = (Ret a, w).
Proof. done. Qed.

Lemma succeeds_ret {A} (P : DB C → Prop) (a : A) (Q : A → DB C → Prop) :
  (∀ d, P d → Q a d) → succeeds P (mret a) Q.
Proof. intros HQ w HP. exists a, w. auto. Qed.
Lemma succeeds_bind {A B} P (m : M C A) (k : A → M C B) Q T :
  succeeds P m T → (∀ a, succeeds (T a) (k a) Q) → succeeds P (m ≫= k) Q.
Proof.
  intros Hm Hk w HP. destruct (Hm w HP) as (a & w1 & H1 & HT).
  destruct (Hk a w1 HT) as (b & w2 & H2 & HQ). exists b, w2. split; [|done].
  unfold mbind, M_bind. by rewrite H1.
Qed.
Lemma succeeds_bind_Ok {A B} P s (a : A) (k : A → M C B) Q :
  succeeds P (k a) Q → succeeds P (wrapping s (lift (Ok a)) ≫= k) Q.
Proof. intros Hk w HP. exact (Hk w HP). Qed.
Lemma succeeds_wrapping {A} P s (m : M C A) Q : succeeds P m Q → succeeds P (wrapping s m) Q.
Proof.
  intros Hm w HP. destruct (Hm w HP) as (a & w1 & H1 & HT). exists a, w1.
  unfold wrapping. by rewrite H1.
Qed.
Lemma succeeds_attempt {A} P (m : M C A) Q :
  succeeds P m Q → succeeds P (attempt m) (λ r d, ∃ a, r = Ok a ∧ Q a d).
Proof.
  intros Hm w HP. destruct (Hm w HP) as (a & w1 & H1 & HT). exists (Ok a), w1.
  unfold attempt. rewrite H1. eauto.
Qed.
Lemma succeeds_emit P e : succeeds P (emit e : M C unit) (λ _, P).
Proof. intros w HP. by eexists _, _. Qed.
Lemma succeeds_env {A} P (f : nat → A) : succeeds P (n ← next_tick; mret (f n)) (λ _, P).
Proof. intros w HP. by eexists _, _. Qed.
Lemma succeeds_deferring {A} P f (m : M C A) Q T :
  succeeds P m T → (∀ a, succeeds (T a) f (λ _, Q a)) → succeeds P (deferring f m) Q.
Proof.
  intros Hm Hf w HP. destruct (Hm w HP) as (a & w1 & H1 & HT).
  destruct (Hf a w1 HT) as ([] & w2 & H2 & HQ). exists a, w2.
  unfold deferring. by rewrite H1, H2.
Qed.
Lemma succeeds_forM {X} (P : DB C → Prop) (f : X → M C unit) l :
  (∀ x, x ∈ l → succeeds P (f x) (λ _, P)) → succeeds P (forM f l) (λ _, P).
Proof.
  induction l as [|x l IH]; intros Hf; cbn; [by apply succeeds_ret|].
  eapply succeeds_bind; [apply Hf; by left|]. intros []. apply IH. intros. apply Hf. by right.
Qed.
Lemma succeeds_foldM {S X} (I : list X → S → DB C → Prop) (f : S → X → M C S) l :
  (∀ s x l', succeeds (I (x :: l') s) (f s x) (I l')) →
  ∀ s, succeeds (I l s) (foldM f s l) (I []).
Proof.
  intros Hf. induction l as [|x l IH]; intros s; cbn; [by apply succeeds_ret|].
  eapply succeeds_bind; [apply Hf|]. intros s'. apply IH.
Qed.
Lemma succeeds_weaken {A} (P P' : DB C → Prop) (m : M C A) (Q Q' : A → DB C → Prop) :
  succeeds P m Q → (∀ d, P' d → P d) → (∀ a d, Q a d → Q' a d) → succeeds P' m Q'.
Proof. intros Hm HP HQ w HP'. destruct (Hm w (HP _ HP')) as (a & w' & ? & ?). eauto. Qed.
Lemma succeeds_statement `{!Quiet} {A} P (f : nat → DB C → res (A * DB C)) (Q : A → DB C → Prop) :
  (∀ n d, P d → ∃ a d', f n d = Ok (a, d') ∧ Q a d') → succeeds P (statement f) Q.
Proof.
  intros Hf w HP. destruct (Hf (tick w) (db w) HP) as (a & d' & Hr & HQ).
  eexists a, _. rewrite quiet_statement, Hr. done.
Qed.
Lemma succeeds_in_tx `{!Quiet} {A} P b c (body : M C A) Q :
  succeeds P body Q → succeeds P (in_tx b c body) Q.
Proof.
  intros Hb w HP. destruct (Hb (mkWorld (db w) (S (tick w)) (trace w)) HP) as (a & w1 & H1 & HQ).
  eexists a, _. run_unfold. rewrite quiet, H1. cbn. rewrite quiet. cbn. eauto.
Qed.
End logic.

#[global] Arguments Quiet {C} E.

#[export] Hint Resolve Stable_ret Stable_fail Stable_panic Stable_lift Stable_Now
  Stable_ulid_Make Stable_rand Stable_ctx_Err Stable_emit Stable_meta_read Stable_QueryRows Stable_QueryRow
  Stable_Acquire Stable_range : stable.
#[export] Hint Extern 1 (Effect _) => typeclasses eauto : stable.
#[export] Hint Extern 1 (Course _) => typeclasses eauto : stable.
#[export] Hint Extern 0 (Course _) => typeclasses eauto : core.

(** Follow the program: split its tests, apply the rule of each construct. *)
Ltac stable_step :=
  match goal with
  | |- Effect _ => typeclasses eauto
  | |- Course _ => typeclasses eauto
  | |- ∀ _, _ => intro
  | |- Stable _ (match ?x with _ => _ end) => destruct x eqn:?
  | |- Stable _ _ => solve [auto with stable nocore]
  | |- Stable _ (wrapping _ (lift _) ≫= _) => apply Stable_bind_lift
  | |- Stable _ (lift _ ≫= _) => apply Stable_bind_lift'
  | |- Stable _ (_ ≫= _) => apply Stable_bind
  | |- Stable _ (attempt _) => apply Stable_attempt
  | |- Stable _ (wrapping _ _) => apply Stable_wrapping
  | |- Stable _ (recovering _ _) => apply Stable_recovering
  | |- Stable _ (deferring _ _) => apply Stable_deferring
  | |- Stable _ (in_tx _ _ _) => apply Stable_in_tx
  | |- Stable _ (foldM _ _ _) => apply Stable_foldM
  | |- Stable _ (forM _ _) => apply Stable_forM
  end.
Ltac stable := repeat stable_step.
