(* ===== verification/Repo.v ===== *)
(** * The repositories

    One definition per method of [internal/{parents,tenants,partitions}/repo]:
    the statement of [Store] run against the data base.  [:one] queries scan
    the first row that comes, [:many] queries list the rows a scan returns, in
    the order the statement asks for. *)

From S2P Require Import Prelude GoTime Errs Store World Logic.
Local Open Scope Z_scope.

Section repo.
Context {C : Type} {E : Env C}.

(** The partitions, in the order a scan meets them. *)
Definition scanned (n : nat) (m : Meta) : list Partition.row := env_scan _ n (partitions m).

(** ** [internal/parents/repo] *)

Definition UpsertParentTable (a : Parent.row) : M C Parent.row := meta_write (upsert_parent a).
Definition GetParentTable (schema table : string) : M C Parent.row :=
  meta_read (λ _ m, get_parent (schema, table) m).
Definition ListParentTables : M C (list Parent.row) :=
  meta_read (λ n m, Ok (list_parents env_collate
    (mkMeta (env_scan _ n (parent_tables m)) (tenants m) (partitions m)))).
Definition DeleteParentTable (schema table : string) : M C Z :=
  meta_write (λ m, Ok (delete_parent (schema, table) m)).
(** The statement's command tag is dropped: an unknown id is no error. *)
Definition UpdateAutomaticMaintenance (b : bool) (id : string) : M C unit :=
  meta_write (λ m, Ok (tt, set_maintenance b id m)).

(** ** [internal/tenants/repo] *)

Definition UpsertTenant (pid id : string) : M C Z := meta_write (upsert_tenant (Tenant.mk id pid)).
Definition ListTenantsForParent (pid : string) : M C (list Tenant.row) :=
  meta_read (λ n m, Ok (list_tenants env_collate pid
    (mkMeta (parent_tables m) (env_scan _ n (tenants m)) (partitions m)))).
Definition GetTenants (table schema : string) : M C (list (string * string)) :=
  meta_read (λ n m, Ok (get_tenants env_collate (schema, table)
    (mkMeta (parent_tables m) (env_scan _ n (tenants m)) (partitions m)))).
Definition DeleteTenant (pid id : string) : M C Z := meta_write (λ m, Ok (delete_tenant pid id m)).

(** ** [internal/partitions/repo] *)

(** The columns that hold the fields of [UpsertPartitionParams]. *)
Definition columns (a : Partition.row) : Partition.row :=
  Partition.mk (Partition.ID a) (Partition.Name a) (Partition.ParentTableID a)
    (Partition.TenantID a) (Partition.PartitionBy a) (Partition.PartitionType a)
    (timestamptz (Partition.BoundsFrom a)) (timestamptz (Partition.BoundsTo a))
    (Partition.IsDefault a) active.
Definition UpsertPartition (a : Partition.row) : M C unit :=
  meta_write (λ m, m' ← upsert_partition (columns a) m; Ok (tt, m')).
Definition ListPartitionsForParent (pid : string) : M C (list Partition.row) :=
  meta_read (λ n m, Ok (list_partitions pid (scanned n m))).
Definition GetDefaultPartition (pid : string) (tenant : option string) : M C Partition.row :=
  meta_read (λ n m, get_default (pid, tenant) (scanned n m)).
Definition ListExpiredPartitions (pid : string) (cutoff : Time) : M C (list Partition.row) :=
  meta_read (λ n m, Ok (list_expired pid (timestamptz cutoff) (scanned n m))).
Definition FindActivePartitionByBounds (pid : string) (tenant : option string) (from to : Time)
    : M C Partition.row :=
  meta_read (λ n m, find_active pid tenant (timestamptz from) (timestamptz to) (scanned n m)).
Definition MarkPartitionDetached (id : string) : M C unit :=
  meta_write (λ m, Ok (tt, mark detached id m)).
Definition MarkPartitionDropped (id : string) : M C unit :=
  meta_write (λ m, Ok (tt, mark dropped id m)).

(** ** The integrity of the metadata *)

(** The metadata move by statements; the catalog may do anything. *)
Definition meta_steps : relation (World C) := on_db (λ d d', rtc meta_step (meta d) (meta d')).
#[export] Instance Effect_meta_steps : Effect meta_steps.
Proof.
  apply Effect_on_db. split; [by intros d|]. intros d1 d2 d3 H1 H2. by etrans.
Qed.

Lemma Stable_UpsertParentTable a : Stable meta_steps (UpsertParentTable a).
Proof. apply Stable_meta_write; [apply _|]. intros w r m' H. by eapply rtc_once, step_upsert_parent. Qed.
Lemma Stable_DeleteParentTable s t : Stable meta_steps (DeleteParentTable s t).
Proof.
  apply Stable_meta_write; [apply _|]. intros w r m' H. apply rtc_once.
  apply Ok_inj in H. pose proof (step_delete_parent (s, t) (meta (db w))) as Hs. by rewrite H in Hs.
Qed.
Lemma Stable_UpdateAutomaticMaintenance b i : Stable meta_steps (UpdateAutomaticMaintenance b i).
Proof.
  apply Stable_meta_write; [apply _|]. intros w r m' H. apply Ok_inj in H as [= <- <-].
  apply rtc_once, step_set_maintenance.
Qed.
Lemma Stable_UpsertTenant p i : Stable meta_steps (UpsertTenant p i).
Proof. apply Stable_meta_write; [apply _|]. intros w r m' H. by eapply rtc_once, step_upsert_tenant. Qed.
Lemma Stable_DeleteTenant p i : Stable meta_steps (DeleteTenant p i).
Proof.
  apply Stable_meta_write; [apply _|]. intros w r m' H. apply rtc_once.
  apply Ok_inj in H. pose proof (step_delete_tenant p i (meta (db w))) as Hs. by rewrite H in Hs.
Qed.
Lemma Stable_UpsertPartition a : Stable meta_steps (UpsertPartition a).
Proof.
  apply Stable_meta_write; [apply _|]. intros w r m' H.
  destruct (upsert_partition _ _) eqn:Hu; [|done]. apply Ok_inj in H as [= <- <-].
  by eapply rtc_once, step_upsert_partition.
Qed.
Lemma Stable_Mark s i : Stable meta_steps (meta_write (λ m, Ok (tt, mark s i m)) : M C unit).
Proof.
  apply Stable_meta_write; [apply _|]. intros w r m' H. apply Ok_inj in H as [= <- <-].
  apply rtc_once, step_mark.
Qed.
Lemma Stable_MarkDetached i : Stable meta_steps (MarkPartitionDetached i).
Proof. apply Stable_Mark. Qed.
Lemma Stable_MarkDropped i : Stable meta_steps (MarkPartitionDropped i).
Proof. apply Stable_Mark. Qed.
Lemma Stable_Exec_meta sql args : Stable meta_steps (Exec sql args).
Proof. apply Stable_Exec; [apply _|]. intros w c. apply rtc_refl. Qed.
End repo.

#[export] Hint Resolve Stable_UpsertParentTable Stable_DeleteParentTable Stable_UpsertTenant
  Stable_UpdateAutomaticMaintenance
  Stable_DeleteTenant Stable_UpsertPartition Stable_MarkDetached
  Stable_MarkDropped Stable_Exec_meta : stable.
#[export] Hint Extern 2 (Stable _ (GetParentTable _ _)) => apply Stable_meta_read; typeclasses eauto : stable.
#[export] Hint Extern 2 (Stable _ ListParentTables) => apply Stable_meta_read; typeclasses eauto : stable.
#[export] Hint Extern 2 (Stable _ (ListTenantsForParent _)) => apply Stable_meta_read; typeclasses eauto : stable.
#[export] Hint Extern 2 (Stable _ (GetTenants _ _)) => apply Stable_meta_read; typeclasses eauto : stable.
#[export] Hint Extern 2 (Stable _ (ListPartitionsForParent _)) => apply Stable_meta_read; typeclasses eauto : stable.
#[export] Hint Extern 2 (Stable _ (GetDefaultPartition _ _)) => apply Stable_meta_read; typeclasses eauto : stable.
#[export] Hint Extern 2 (Stable _ (ListExpiredPartitions _ _)) => apply Stable_meta_read; typeclasses eauto : stable.
#[export] Hint Extern 2 (Stable _ (FindActivePartitionByBounds _ _ _ _)) => apply Stable_meta_read; typeclasses eauto : stable.
