(* ===== verification/Scenario.v ===== *)
(** * Concrete environments

    Environments in which the programs run, for the examples and the
    witnesses of the development: the catalog is the log of the statements it
    executed, every statement is accepted, ids are all different, rows are
    scanned in the order of insertion. *)

From S2P Require Import Prelude GoTime GoStrings Errs Store World Logic.
Local Open Scope string_scope.

(** An id per interaction: its number in unary. *)
Fixpoint unary_id (n : nat) : string :=
  match n with O => "" | S n' => String "i" (unary_id n') end.

Lemma unary_id_inj i j : unary_id i = unary_id j → i = j.
Proof.
  revert j. induction i as [|i IH]; intros [|j]; cbn; try done. intros [= H]. f_equal. by apply IH.
Qed.

(** [catalog_query] answers the queries on the catalog; [faults] decides which
    interaction fails, [clock] what the clock shows. *)
Definition scenario (catalog_query : string → list value → res (list (list value)))
    (faults : nat → option fault) (clock : nat → Time) : Env (list string) := {|
  pg_exec sql args log := Ok (0%Z, (log ++ [sql])%list);
  pg_query sql args _ := catalog_query sql args;
  pg_call _ sql args log := Ok ([VBool true], (log ++ [sql])%list);
  Sanitize ids := Join "." ids;
  env_fault := faults;
  env_session _ := O;
  env_now := clock;
  env_ctx _ := None;
  env_ulid := unary_id;
  env_rand _ := 0%Q;
  env_scan _ _ l := l;
  env_collate a b := match String.compare a b with Gt => false | _ => true end;
  env_zone := 0%Z
|}.

Definition no_rows (sql : string) (args : list value) : res (list (list value)) := Ok [].
Definition no_fault (n : nat) : option fault := None.

(** The clock stands still. *)
Definition calm (now : Time) : Env (list string) := scenario no_rows no_fault (λ _, now).

#[export] Instance scenario_laws q f c : EnvLaws (scenario q f c).
Proof. by split. Qed.
#[export] Instance calm_quiet now : Quiet (calm now).
Proof. by intros n. Qed.

(** The world at the start, with the given metadata. *)
Definition start (m : Meta) : World (list string) := mkWorld (mkDB m []) O [].

(** A registered parent: [app.events], partitioned by [created_at]. *)
Definition events (tenantColumn : option string) (interval : string) (retention : PgInterval)
    (premake : Z) : Parent.row :=
  Parent.mk "P1" "app" "events" tenantColumn "created_at" "range" interval retention false None
    true premake.
Definition thirty_days : PgInterval := mkPgInterval 0 30 0 true.

(** 2026-06-15 12:00 UTC. *)
Definition noon : Time := Eval vm_compute in DateUTC 2026 6 15 12 0 0 0.
