(* ===== verification/Retry.v ===== *)
(** * Retries ([internal/retry/retry.go])

    The classifier of transient errors, the jittered exponential backoff and
    the loop.  A pause is the event [Slept]. *)

From S2P Require Import Prelude GoTime GoStrings Errs Store World Logic Scenario.
Local Open Scope string_scope.
Local Open Scope Z_scope.

(** The jitter factor, a [float64], is a rational; [Meter] tells whether one
    is set. *)
Record Policy := mkPolicy {
  Meter : bool;
  Op : string;
  MaxAttempts : Z;
  BaseDelay : Z;
  MaxDelay : Z;
  Jitter : Q
}.

Definition Default : Policy :=
  mkPolicy false "" 5 (100 * Millisecond) (2 * Second) (2 # 10).

Definition partmanSentinels : list error :=
  map Sentinel
    [ErrParentNotFound; ErrTenantNotFound; ErrParentAlreadyExists; ErrTenantAlreadyExists;
     ErrTargetNotPartitioned; ErrColumnMissing; ErrParentNotTenanted; ErrArchiveSchemaMissing;
     ErrIntervalMismatch; ErrLockContention; ErrHookVetoed; ErrDefaultPartitionMissing;
     ErrInvalidIdentifier].

Definition isPartmanSentinel (e : error) : bool := existsb (Is e) partmanSentinels.

Definition SerializationFailure : string := "40001".
Definition DeadlockDetected : string := "40P01".

Definition transient_code (code : string) : bool :=
  if bool_decide (code = SerializationFailure) || bool_decide (code = DeadlockDetected) then true
  else (String.length code =? 5)%nat && bool_decide (slice 0 2 code = "08").

Definition Retriable (e : error) : bool :=
  if Is e Canceled || Is e DeadlineExceeded then false
  else if isPartmanSentinel e then false
  else match cause e with
       | PgError code => transient_code code
       | NetError timeout => timeout
       | _ => false
       end.

(** [time.Duration(r * p.Jitter * float64(d))], truncated towards zero. *)
Definition jitter_of (r j : Q) (d : Z) : Z :=
  let q := (r * j * inject_Z d)%Q in Z.quot (Qnum q) (Zpos (Qden q)).

(** [delay], given the number [rand.Float64()] returns. *)
Definition delay (p : Policy) (attempt : Z) (r : Q) : Z :=
  if BaseDelay p <=? 0 then 0
  else
    let shift := attempt - 1 in
    let shift := if shift <? 0 then 0 else shift in
    let shift := if 30 <? shift then 30 else shift in
    let d := wrap64 (Z.shiftl (BaseDelay p) shift) in
    let d := if (0 <? MaxDelay p) && (MaxDelay p <? d) then MaxDelay p else d in
    if Qle_bool (Jitter p) 0 then d else wrap64 (d + jitter_of r (Jitter p) d).

Section do.
Context {C : Type} {E : Env C}.

Definition meter_counter (p : Policy) (name : string) : M C unit :=
  if Meter p then emit (Counter name 1 ["op"; Op p]) else mret tt.

Definition exhausted {A} (p : Policy) (last : error) : M C A :=
  meter_counter p "partman.retry_exhausted_total" ;; fail last.

(** The [select] of a pause against [ctx.Done()]. *)
Definition pause (p : Policy) (attempt : Z) : M C unit :=
  r ← rand_Float64;
  c ← ctx_Err;
  match c with
  | Some e => fail e
  | None => emit (Slept (delay p attempt r))
  end.

(** The iterations left are [S fuel]; this one is number [n]. *)
Fixpoint do_loop {A} (p : Policy) (fn : M C A) (fuel : nat) (n : Z) : M C A :=
  r ← attempt fn;
  match r with
  | Ok a => mret a
  | Err e =>
      if negb (Retriable e) then fail e
      else
        meter_counter p "partman.retry_attempts_total" ;;
        match fuel with
        | O => exhausted p e
        | S fuel' => pause p n ;; do_loop p fn fuel' (n + 1)
        end
  end.

Definition Do {A} (p : Policy) (fn : M C A) : M C A :=
  let max := if MaxAttempts p <=? 0 then 1 else MaxAttempts p in
  do_loop p fn (Z.to_nat (max - 1)) 1.
End do.

(** ** The classifier *)

Lemma transient_code_iff code :
  transient_code code = true ↔
  code = "40001" ∨ code = "40P01" ∨ ∃ a b c, code = "08" +:+ String a (String b (String c "")).
Proof.
  unfold transient_code, SerializationFailure, DeadlockDetected.
  case_bool_decide; cbn [orb]; [split; auto|].
  case_bool_decide; cbn [orb]; [split; auto|].
  split.
  - intros [Hl Hs]%andb_true_iff. apply Nat.eqb_eq in Hl. apply bool_decide_eq_true in Hs.
    destruct code as [|c0 [|c1 [|a [|b [|c [|]]]]]]; try done.
    cbn in Hs. injection Hs as -> ->. right; right. by exists a, b, c.
  - by intros [?|[?|(a & b & c & ->)]].
Qed.

(** Exactly the serialization failures, the deadlocks, the connection
    exceptions (class 08) and the network timeouts are retriable, however
    deeply they are wrapped; no sentinel of the library, no cancellation and
    no other error is. *)
Theorem Retriable_iff e :
  Retriable e = true ↔
  (∃ code, cause e = PgError code ∧
     (code = "40001" ∨ code = "40P01" ∨ ∃ a b c, code = "08" +:+ String a (String b (String c "")))) ∨
  cause e = NetError true.
Proof.
  transitivity ((∃ code, cause e = PgError code ∧ transient_code code = true) ∨ cause e = NetError true).
  - unfold Retriable, isPartmanSentinel, Is.
    destruct (cause e) as [s| | | | | |code|t];
      try (destruct s); cbn; rewrite ?bool_decide_eq_false_2 by done; cbn;
      try (split; [done|by intros [(? & ? & ?)|?]]).
    + split; [eauto|]. by intros [(? & [= <-] & ?)|?].
    + split; [by intros ->; auto|]. by intros [(? & ? & ?)|[= ->]].
  - by setoid_rewrite transient_code_iff.
Qed.

(** ** The backoff *)

(** The exponential, with its exponent in [0, 30], and the cap. *)
Definition backoff (p : Policy) (n : Z) : Z :=
  Z.min (MaxDelay p) (BaseDelay p * 2 ^ (Z.max 0 (Z.min 30 (n - 1)))).

Lemma jitter_of_bounds r j d :
  0 <= d → 0 <= Qnum r <= QDen r → 0 <= Qnum j →
  0 <= jitter_of r j d <= Qnum j * d / QDen j.
Proof.
  intros Hd Hr Hj. unfold jitter_of. destruct r as [nr dr], j as [nj dj]. cbn in *.
  rewrite Pos.mul_1_r, Pos2Z.inj_mul, Z.quot_div_nonneg by nia. split.
  - apply Z.div_pos; nia.
  - rewrite <- (Z.div_mul_cancel_l (nj * d) (Zpos dj) (Zpos dr)) by done.
    apply Z.div_le_mono; nia.
Qed.

(** C35: for a positive [BaseDelay] that 30 doublings do not overflow, a
    positive [MaxDelay] and a [Jitter] whose share of it fits on top, the
    pause after attempt [n] is the capped exponential plus a jitter of at
    most [Jitter] times it: never shorter, never longer, never negative. *)
Theorem delay_bounds p n r :
  0 < BaseDelay p → BaseDelay p * 2 ^ 30 <= int64_max → 0 < MaxDelay p →
  0 <= Qnum r <= QDen r → 0 <= Qnum (Jitter p) →
  MaxDelay p + Qnum (Jitter p) * MaxDelay p / QDen (Jitter p) <= int64_max →
  backoff p n <= delay p n r <= backoff p n + Qnum (Jitter p) * backoff p n / QDen (Jitter p).
Proof.
  intros Hb Hov Hm Hr Hj Hmax. unfold delay. destruct (BaseDelay p <=? 0) eqn:E; [lia|].
  set (s := if 30 <? _ then 30 else _).
  assert (s = Z.max 0 (Z.min 30 (n - 1))) as -> by (unfold s; repeat case_match; lia).
  set (e := Z.max 0 (Z.min 30 (n - 1))). assert (0 <= e <= 30) as He by lia.
  assert (1 <= 2 ^ e <= 2 ^ 30) as Hp.
  { split; [change 1 with (2 ^ 0)|]; apply Z.pow_le_mono_r; lia. }
  rewrite Z.shiftl_mul_pow2, wrap64_id by (unfold int64_min, int64_max in *; lia || nia).
  set (d := if _ && _ then _ else _).
  assert (d = backoff p n) as ->. { unfold d, backoff. fold e. case_match; lia. }
  assert (0 <= backoff p n <= MaxDelay p) as Hbd by (unfold backoff; fold e; nia).
  pose proof (jitter_of_bounds r (Jitter p) (backoff p n) (proj1 Hbd) Hr Hj) as Hjit.
  assert (Qnum (Jitter p) * backoff p n / QDen (Jitter p) <=
          Qnum (Jitter p) * MaxDelay p / QDen (Jitter p)) by (apply Z.div_le_mono; nia).
  case_match; [lia|]. rewrite wrap64_id; unfold int64_min in *; lia.
Qed.

(** The third pause of the default policy, with a jitter of one half. *)
Lemma delay_bounds_witness :
  backoff Default 3 <= delay Default 3 (1 # 2)
  <= backoff Default 3 + Qnum (Jitter Default) * backoff Default 3 / QDen (Jitter Default).
Proof. apply delay_bounds; vm_compute; intuition congruence. Defined.

(** ** The loop *)

Section loop.
Context {C : Type} {E : Env C}.

(** [retried fn es w w']: from [w], [fn] failed with the transient errors
    [es] in turn; nothing but [fn] touched the data base; [w'] is where it
    is called next. *)
Inductive retried {A} (fn : M C A) : list error → World C → World C → Prop :=
| retried_nil w : retried fn [] w w
| retried_cons e es w w1 w2 w3 :
    fn w = (Fail e, w1) → Retriable e = true → later w1 w2 →
    retried fn es w2 w3 → retried fn (e :: es) w w3.

(** How the call ends after the attempt that ended in [o], when [last] says
    that no attempt was left. *)
Definition ends {A} (last : bool) (o o' : outcome A) : Prop :=
  match o with
  | Ret a => o' = Ret a
  | Panic => o' = Panic
  | Fail e =>
      (o' = Fail e ∧ (Retriable e = false ∨ last = true)) ∨
      (∃ n c, env_ctx n = Some c ∧ o' = Fail c ∧ Retriable e = true ∧ last = false)
  end.

Lemma meter_counter_run p name (w : World C) :
  ∃ w', meter_counter p name w = (Ret tt, w') ∧ later w w'.
Proof. unfold meter_counter. destruct (Meter p); eexists; split; by try reflexivity. Qed.

Lemma exhausted_run {A} p e (w : World C) : ∃ w', exhausted (A := A) p e w = (Fail e, w') ∧ later w w'.
Proof.
  unfold exhausted. run_unfold.
  destruct (meter_counter_run p "partman.retry_exhausted_total" w) as (w' & -> & ?). eauto.
Qed.

Lemma pause_run p n w :
  ∃ o w', pause p n w = (o, w') ∧ later w w' ∧
    match o with
    | Ret _ => True
    | Fail c => ∃ k, env_ctx k = Some c
    | Panic => False
    end.
Proof.
  unfold pause, rand_Float64, ctx_Err. run_unfold.
  destruct (env_ctx (S (tick w))) as [c|] eqn:Ec.
  - eexists (Fail c), _. split_and!; [reflexivity|split; cbn; auto|eauto].
  - eexists (Ret tt), _. split_and!; [reflexivity|split; cbn; auto|done].
Qed.

Lemma do_loop_spec {A} p (fn : M C A) fuel n w o w' :
  do_loop p fn fuel n w = (o, w') →
  ∃ es w1 w2 o1,
    retried fn es w w1 ∧ fn w1 = (o1, w2) ∧ later w2 w' ∧
    (length es <= fuel)%nat ∧ ends (length es =? fuel)%nat o1 o.
Proof.
  revert n w. induction fuel as [|fuel IH]; intros n w; cbn [do_loop]; unfold mbind, M_bind, attempt;
    destruct (fn w) as [[a|e|] w1] eqn:Hfn.
  all: try (cbv beta iota delta [mret M_ret]; intros [= <- <-]; exists [], w, w1; eexists;
            split_and!; [constructor|exact Hfn|done|cbn; lia|done]).
  all: destruct (Retriable e) eqn:Hr; cbn [negb];
    [|intros [= <- <-]; exists [], w, w1; eexists;
      split_and!; [constructor|exact Hfn|done|cbn; lia|left; auto]].
  all: destruct (meter_counter_run p "partman.retry_attempts_total" w1) as (w2 & -> & H2).
  - destruct (exhausted_run (A := A) p e w2) as (w3 & -> & H3). intros [= <- <-].
    exists [], w, w1. eexists. split_and!; [constructor|exact Hfn|by etrans|cbn; lia|left; auto].
  - destruct (pause_run p n w2) as (op & w3 & -> & H3 & Hop). destruct op as [[]|c|]; [| |done].
    + intros (es & w4 & w5 & o1 & Hes & Hrun & Hdb & Hlen & Hends)%IH.
      exists (e :: es), w4, w5, o1. split_and!; [|done|done|cbn; lia|done].
      econstructor; [exact Hfn|done| |exact Hes]. by etrans.
    + destruct Hop as [k Hk]. intros [= <- <-]. exists [], w, w1. eexists.
      split_and!; [constructor|exact Hfn|by etrans|cbn; lia|]. right. by exists k, c.
Qed.

(** C34: [Do] calls [fn] until an attempt succeeds, fails for good, or is the
    last of [max(1, MaxAttempts)]: every attempt but the last failed with a
    transient error, the result is the last attempt's (or, between two
    attempts, the context's error), and no other effect on the data base
    than those of the attempts remains. *)
Theorem Do_spec {A} p (fn : M C A) w o w' :
  Do p fn w = (o, w') →
  ∃ es w1 w2 o1,
    retried fn es w w1 ∧ fn w1 = (o1, w2) ∧ later w2 w' ∧
    Z.of_nat (length es) < Z.max 1 (MaxAttempts p) ∧
    ends (Z.of_nat (S (length es)) =? Z.max 1 (MaxAttempts p)) o1 o.
Proof.
  unfold Do. intros (es & w1 & w2 & o1 & Hes & Hrun & Hdb & Hlen & Hends)%do_loop_spec.
  exists es, w1, w2, o1. split_and!; [done..| |].
  - case_match; lia.
  - enough ((length es =? Z.to_nat ((if (MaxAttempts p <=? 0)%Z then 1 else MaxAttempts p) - 1)%Z)%nat
            = (Z.of_nat (S (length es)) =? Z.max 1 (MaxAttempts p))) as <- by done.
    apply eq_bool_prop_intro. rewrite !Is_true_true, Nat.eqb_eq, Z.eqb_eq. case_match; lia.
Qed.

(** ** Rules *)

Lemma Stable_retried {A} (R : relation (World C)) `{!Effect R} (fn : M C A) es w w' :
  Stable R fn → retried fn es w w' → R w w'.
Proof.
  intros Hfn. induction 1 as [|e es w w1 w2 w3 Hrun _ Hdb _ IH]; [done|].
  etrans; [by eapply Hfn|]. etrans; [by apply effect_later|exact IH].
Qed.

Lemma Stable_Do {A} (R : relation (World C)) `{!Effect R} p (fn : M C A) :
  Stable R fn → Stable R (Do p fn).
Proof.
  intros Hfn w o w' (es & w1 & w2 & o1 & Hes & Hrun & Hl & _)%do_loop_spec.
  etrans; [by eapply Stable_retried|]. etrans; [by eapply Hfn|by apply effect_later].
Qed.

(** A precondition that failed attempts keep. *)
Lemma retried_keeps {A} P `{!Closed P} (fn : M C A) es w w' :
  (∀ w e w', P w → fn w = (Fail e, w') → P w') →
  retried fn es w w' → P w → P w'.
Proof.
  intros HP. induction 1 as [|e es w w1 w2 w3 Hr _ Hl _ IH]; [done|].
  intros Hw. apply IH. eapply closed; [by eapply HP|done].
Qed.

Lemma triple_Do {A} P `{!Closed P} p (fn : M C A) Q `{!∀ a, Closed (Q a)} :
  (∀ w e w', P w → fn w = (Fail e, w') → P w') →
  triple P fn Q → triple P (Do p fn) Q.
Proof.
  intros HP Hfn w x w' Hw (es & w1 & w2 & o1 & Hes & Hrun & Hl & _ & Hends)%do_loop_spec.
  pose proof (retried_keeps P fn es w w1 HP Hes Hw) as Hw1.
  destruct o1 as [y|e|]; [|by destruct Hends as [[? _]|(? & ? & _ & ? & _)]|done].
  injection Hends as ->. eapply closed; [by eapply Hfn|done].
Qed.

Lemma Do_Ret {A} p (fn : M C A) w a w1 : fn w = (Ret a, w1) → Do p fn w = (Ret a, w1).
Proof.
  intros H. unfold Do. destruct (Z.to_nat _); cbn [do_loop]; by rewrite (bind_Ret _ _ _ _ _ (attempt_Ret _ _ _ _ H)).
Qed.
Lemma succeeds_Do {A} P p (fn : M C A) Q : succeeds P fn Q → succeeds P (Do p fn) Q.
Proof.
  intros Hfn w Hw. destruct (Hfn w Hw) as (a & w' & Hrun & HQ). exists a, w'.
  split; [by apply Do_Ret|done].
Qed.
End loop.

#[export] Hint Resolve Stable_Do : stable.

(** A retried function is as stable as the function. *)
Ltac stable ::=
  repeat (stable_step || match goal with |- Stable _ (Do _ _) => apply Stable_Do end).

(** ** Examples *)

(** The first transaction cannot be serialized. *)
Definition contended : Env (list string) :=
  scenario no_rows (λ n, if (n =? 0)%nat then Some (Lost (PgError "40001")) else None) (λ _, noon).
Definition a_transaction : M (list string) unit :=
  in_tx (E := contended) "begin" "commit" (mret tt).

Lemma Do_spec_witness :
  let r := Do (E := contended) Default a_transaction (start empty_Meta) in
  ∃ es w1 w2 o1,
    retried a_transaction es (start empty_Meta) w1 ∧ a_transaction w1 = (o1, w2) ∧ later w2 r.2 ∧
    Z.of_nat (length es) < Z.max 1 (MaxAttempts Default) ∧
    ends (E := contended) (Z.of_nat (S (length es)) =? Z.max 1 (MaxAttempts Default)) o1 r.1.
Proof.
  intros r. apply (Do_spec (E := contended) Default a_transaction (start empty_Meta) r.1 r.2).
  apply surjective_pairing.
Defined.
