(* ===== verification/Provisioner.v ===== *)
(** * The provisioner ([internal/provisioner])

    [EnsurePartitions] makes the partitions of a registered parent (and
    tenant) match the target set: the current period, [premake] future ones
    and the default partition.  [bounds.go] is [Periods]; this file models
    [provisioner.go] and [sql.go]. *)

From S2P Require Import Prelude GoTime GoStrings Errs TimeFormat Naming Periods Store World Logic Repo Retry.
Local Open Scope string_scope.
Local Open Scope Z_scope.

(** ** SQL text ([sql.go]) *)

(** [tsLiteral], [pqQuoteLiteral] *)
Definition tsLiteral (t : Time) : string :=
  "TIMESTAMPTZ '" +:+ FormatRFC3339_UTC (UTC t) +:+ "'".
Definition pqQuoteLiteral (s : string) : string := "'" +:+ ReplaceAll s "'" "''" +:+ "'".

(** ** Types *)

Module ParentRef.
Record t := mk { SchemaName : string; TableName : string }.
End ParentRef.

(** A [*TenantRef] is an [option string]. *)
Record EnsureReport := mkEnsureReport { BoundedCreated : Z; DefaultCreated : bool }.
Definition no_report : EnsureReport := mkEnsureReport 0 false.

(** [boundsKey]: the bounds as map keys compare, by instant. *)
Definition boundsKey (b : Bounds) : Z * Z := (unix_ns (From b), unix_ns (To b)).

(** [buildExistingSet]: the keys of the active bounded rows of the tenant. *)
Definition in_existing (tenant : option string) (ep : Partition.row) : bool :=
  negb (Partition.IsDefault ep || bool_decide (Partition.Status ep ≠ active))
  && bool_decide (default "" (Partition.TenantID ep) = default "" tenant).
Definition row_bounds (r : Partition.row) : Bounds :=
  mkBounds (UTC (Partition.BoundsFrom r)) (UTC (Partition.BoundsTo r)).
Definition buildExistingSet (rows : list Partition.row) (tenant : option string) : list (Z * Z) :=
  (boundsKey ∘ row_bounds) <$> filter (λ ep, in_existing tenant ep = true) rows.

Definition splitFQ (fq : string) : option (string * string) := Cut "." fq.

(** [prow.TenantColumn.Valid && prow.TenantColumn.String != ""] *)
Definition hasTenantCol (prow : Parent.row) : bool :=
  match Parent.TenantColumn prow with Some c => negb (bool_decide (c = "")) | None => false end.

Definition retryPolicy (op : string) : Policy :=
  mkPolicy true op (MaxAttempts Default) (BaseDelay Default) (MaxDelay Default) (Jitter Default).

(** The name of the partition of [b], and of the default partition. *)
Definition bounded_name (prow : Parent.row) (tenant : option string) (k : kind) (b : Bounds) : TableName :=
  mkTableName (Parent.SchemaName prow) (Parent.TableName prow) b (default "" tenant) false
    (canonicalIntervalFor k).
Definition default_name (prow : Parent.row) (k : kind) : TableName :=
  mkTableName (Parent.SchemaName prow) (Parent.TableName prow) zero_Bounds "" true
    (canonicalIntervalFor k).

(** The rows inserted for them. *)
Definition bounded_row (prow : Parent.row) (tenant : option string) (b : Bounds) (id fq : string)
    : Partition.row :=
  Partition.mk id fq (Parent.ID prow) tenant (Parent.PartitionBy prow) (Parent.PartitionType prow)
    (From b) (To b) false active.
Definition default_row (prow : Parent.row) (id fq : string) : Partition.row :=
  Partition.mk id fq (Parent.ID prow) None (Parent.PartitionBy prow) (Parent.PartitionType prow)
    zero_Time zero_Time true active.

Section provisioner.
Context {C : Type} {E : Env C}.

Definition buildBoundedPartitionDDL (parentSchema parentTable childSchema childTable tenant : string)
    (b : Bounds) : string :=
  let parentFQ := Sanitize [parentSchema; parentTable] in
  let childFQ := Sanitize [childSchema; childTable] in
  let fromLit := tsLiteral (From b) in
  let toLit := tsLiteral (To b) in
  let forValues :=
    if bool_decide (tenant = "") then "FROM (" +:+ fromLit +:+ ") TO (" +:+ toLit +:+ ")"
    else
      let t := pqQuoteLiteral tenant in
      "FROM (" +:+ t +:+ ", " +:+ fromLit +:+ ") TO (" +:+ t +:+ ", " +:+ toLit +:+ ")" in
  "CREATE TABLE IF NOT EXISTS " +:+ childFQ +:+ " PARTITION OF " +:+ parentFQ
    +:+ " FOR VALUES " +:+ forValues.

Definition buildDefaultPartitionDDL (parentSchema parentTable childSchema childTable : string)
    : string :=
  let parentFQ := Sanitize [parentSchema; parentTable] in
  let childFQ := Sanitize [childSchema; childTable] in
  "CREATE TABLE IF NOT EXISTS " +:+ childFQ +:+ " PARTITION OF " +:+ parentFQ +:+ " DEFAULT".

(** One round of the loop of [createInTx]. *)
Definition create_bounded (prow : Parent.row) (tenant : option string) (k : kind) (b : Bounds)
    : M C unit :=
  fq ← wrapping "provisioner: build partition name" (lift (Build (bounded_name prow tenant k b)));
  match splitFQ fq with
  | None => fail (Msg "provisioner: unexpected FQ shape")
  | Some (childSchema, childTable) =>
      wrapping "provisioner: create bounded partition"
        (Exec (buildBoundedPartitionDDL (Parent.SchemaName prow) (Parent.TableName prow)
                 childSchema childTable (default "" tenant) b) []) ;;
      id ← ulid_Make;
      wrapping "provisioner: upsert bounded metadata"
        (UpsertPartition (bounded_row prow tenant b id fq))
  end.

Definition create_default (prow : Parent.row) (k : kind) : M C unit :=
  fq ← wrapping "provisioner: build default name" (lift (Build (default_name prow k)));
  match splitFQ fq with
  | None => fail (Msg "provisioner: unexpected FQ shape")
  | Some (childSchema, childTable) =>
      wrapping "provisioner: create default partition"
        (Exec (buildDefaultPartitionDDL (Parent.SchemaName prow) (Parent.TableName prow)
                 childSchema childTable) []) ;;
      id ← ulid_Make;
      wrapping "provisioner: upsert default metadata"
        (UpsertPartition (default_row prow id fq))
  end.

Definition createInTx (prow : Parent.row) (tenant : option string) (toCreate : list Bounds)
    (needDefault : bool) (k : kind) : M C unit :=
  in_tx "provisioner: begin tx" "provisioner: commit"
    (forM (create_bounded prow tenant k) toCreate ;;
     if needDefault then create_default prow k else mret tt).

(** [EnsurePartitions] after the parent is loaded. *)
Definition ensure (parentLabel : string) (prow : Parent.row) (tenant : option string)
    : M C EnsureReport :=
  if hasTenantCol prow && bool_decide (tenant = None) then
    fail (Msg "provisioner: parent has TenantColumn; tenant is required")
  else if negb (hasTenantCol prow) && negb (bool_decide (tenant = None)) then
    fail (Msg "provisioner: parent has no TenantColumn; tenant must be nil")
  else
    k ← wrapping "provisioner: parent" (lift (parseIntervalLabel (Parent.PartitionInterval prow)));
    now ← Now;
    required ← lift (NextBoundsUTC (UTC now) (canonicalIntervalFor k) (Parent.Premake prow + 1));
    existing ← wrapping "provisioner: list partitions" (ListPartitionsForParent (Parent.ID prow));
    let existingSet := buildExistingSet existing tenant in
    let toCreate := filter (λ b, boundsKey b ∉ existingSet) required in
    d ← attempt (GetDefaultPartition (Parent.ID prow) None);
    needDefault ← match d with
                  | Ok _ => mret false
                  | Err e => if Is e NoRows then mret true
                             else fail (Wrap "provisioner: lookup default" e)
                  end;
    if bool_decide (length toCreate = 0%nat) && negb needDefault then mret no_report
    else
      Do (retryPolicy "provisioner-ensure") (createInTx prow tenant toCreate needDefault k) ;;
      let n := Z.of_nat (length toCreate) in
      (if 0 <? n then emit (Counter "partman.partitions_created_total" n ["parent"; parentLabel])
       else mret tt) ;;
      (if needDefault
       then emit (Counter "partman.default_partitions_created_total" 1 ["parent"; parentLabel])
       else mret tt) ;;
      mret (mkEnsureReport n needDefault).

(** [func (p *Impl) EnsurePartitions(ctx, parent, tenant) (EnsureReport, error)] *)
Definition EnsurePartitions (parent : ParentRef.t) (tenant : option string) : M C EnsureReport :=
  let parentLabel := ParentRef.SchemaName parent +:+ "." +:+ ParentRef.TableName parent in
  start ← Now;
  deferring
    (now ← Now;
     emit (Histogram "partman.provisioner_duration_seconds" (Sub now start) ["parent"; parentLabel]))
    (r ← attempt (GetParentTable (ParentRef.SchemaName parent) (ParentRef.TableName parent));
     match r with
     | Err e => if Is e NoRows then fail (Msg "provisioner: parent not registered")
                else fail (Wrap "provisioner: load parent" e)
     | Ok prow => ensure parentLabel prow tenant
     end).

(** Preservation of the integrity of the metadata. *)
Lemma Stable_EnsurePartitions_meta parent tenant :
  Stable meta_steps (EnsurePartitions parent tenant).
Proof. unfold EnsurePartitions, ensure, createInTx, create_bounded, create_default. stable.
Qed.
End provisioner.
