(* ===== verification/Ensure.v ===== *)
(** * What [EnsurePartitions] promises

    The contract of the provisioner, against [Provisioner]: a call only adds
    rows for periods of the parent, all of them or none; when it returns, the
    target set is there; and when the target set is there, a call does
    nothing. *)

From S2P Require Import Prelude GoTime GoStrings Errs TimeFormat Naming Periods Store World Logic Repo Retry Provisioner Scenario.
Local Open Scope string_scope.
Local Open Scope Z_scope.

(** ** The target set *)

(** [r] is the active partition of [b] that [buildExistingSet] indexes. *)
Definition covers (prow : Parent.row) (tenant : option string) (b : Bounds) (r : Partition.row) : Prop :=
  Partition.ParentTableID r = Parent.ID prow ∧ in_existing tenant r = true ∧
  boundsKey (row_bounds r) = boundsKey b.

Definition is_default_of (prow : Parent.row) (r : Partition.row) : Prop :=
  Partition.owner r = (Parent.ID prow, None) ∧ Partition.IsDefault r = true.

Definition complete (prow : Parent.row) (tenant : option string) (required : list Bounds) (m : Meta) : Prop :=
  (∀ b, b ∈ required → ∃ r, r ∈ partitions m ∧ covers prow tenant b r) ∧
  (∃ r, r ∈ partitions m ∧ is_default_of prow r).

(** [r] occupies the name, or the tenant's bounds, of the partition of [b]. *)
Definition claims (prow : Parent.row) (tenant : option string) (k : kind) (b : Bounds)
    (r : Partition.row) : Prop :=
  Build (bounded_name prow tenant k b) = Ok (Partition.Name r) ∨
  (∃ t, tenant = Some t ∧
        Partition.tenant_bounds r = Some (Parent.ID prow, t, unix_ns (From b), unix_ns (To b))).

Section ensure.
Context {C : Type} {E : Env C}.
Context (prow : Parent.row) (tenant : option string) (k : kind) (required : list Bounds).

Definition rows_of (w : World C) : list Partition.row := partitions (meta (db w)).

(** Nothing else occupies the names of the target set, and the ids to come
    are fresh. *)
Record ready (w : World C) : Prop := {
  ready_names : ∀ b r, b ∈ required → r ∈ rows_of w →
    claims prow tenant k b r → covers prow tenant b r;
  ready_default : ∀ r, r ∈ rows_of w →
    Build (default_name prow k) = Ok (Partition.Name r) → is_default_of prow r;
  ready_ids : ∀ r n, r ∈ rows_of w → (tick w <= n)%nat → Partition.ID r ≠ env_ulid n
}.

#[export] Instance Closed_ready : Closed ready.
Proof.
  intros w w' [] [Hd Ht]. split; unfold rows_of in *; rewrite ?Hd; [by auto..|].
  intros r n Hr Hn. apply ready_ids0; [done|lia].
Qed.

(** What the target set must satisfy for its names to be distinct. *)
Definition nameable : Prop :=
  k ≠ kindUnknown ∧ k ≠ kindHourly ∧
  ∀ b, b ∈ required → (∃ z, b = period k z) ∧ 0 <= Year (From b) <= 9999.

(** The suffix is what follows the last underscore of the name. *)
Lemma Build_suffix (tn1 tn2 : TableName) s :
  Naming.SchemaName tn1 = Naming.SchemaName tn2 → year_in_range tn1 → year_in_range tn2 →
  Build tn1 = Ok s → Build tn2 = Ok s → name_suffix tn1 = name_suffix tn2.
Proof.
  intros Hs Hy1 Hy2 [_ ->]%Build_Ok [_ H]%Build_Ok.
  rewrite Hs in H. apply app_string_inj_r in H. injection H as H.
  apply (f_equal (CutLast "_")) in H.
  rewrite !CutLast_app in H by (by apply name_suffix_no_underscore). congruence.
Qed.

Lemma timestamptz_key b :
  (∃ z, b = period k z) → k ≠ kindUnknown →
  (unix_ns (timestamptz (From b)), unix_ns (timestamptz (To b))) = boundsKey b.
Proof.
  intros [z ->] Hk. destruct (period_micro k z Hk) as [H1 H2].
  assert (∀ x, x mod Microsecond = 0 → x / Microsecond * Microsecond = x) as Hx
    by (unfold Microsecond; intros; dlia).
  unfold boundsKey, timestamptz. cbn [unix_ns]. by rewrite !Hx.
Qed.

Context (Hn : nameable) (Hids : ∀ i j, env_ulid i = env_ulid j → i = j).

Lemma claims_name b b' r :
  b ∈ required → b' ∈ required →
  Build (bounded_name prow tenant k b) = Ok (Partition.Name r) →
  Build (bounded_name prow tenant k b') = Ok (Partition.Name r) → b = b'.
Proof.
  destruct Hn as (Hk & Hh & Hb). intros H1 H2 Hr Hr'.
  destruct (Hb b H1) as [[z ->] Hz], (Hb b' H2) as [[u ->] Hu].
  pose proof (Build_suffix (bounded_name prow tenant k (period k z))
                (bounded_name prow tenant k (period k u)) _ eq_refl
                (λ _, Hz) (λ _, Hu) Hr Hr') as Hs.
  unfold name_suffix, bounded_name in Hs. cbn [Naming.IsDefault TBounds] in Hs.
  exact (period_stamp_inj k z u Hk Hh Hz Hu Hs).
Qed.

Lemma bounded_default_names b r :
  b ∈ required → Build (bounded_name prow tenant k b) = Ok (Partition.Name r) →
  Build (default_name prow k) = Ok (Partition.Name r) → False.
Proof.
  destruct Hn as (_ & _ & Hb). intros Hin Hr Hr'. destruct (Hb b Hin) as [_ Hy].
  assert (year_in_range (default_name prow k)) as Hd by (intros H; discriminate H).
  pose proof (Build_suffix (bounded_name prow tenant k b) (default_name prow k) _ eq_refl (λ _, Hy) Hd Hr Hr') as Hs.
  unfold name_suffix, bounded_name, default_name in Hs. cbn [Naming.IsDefault TBounds] in Hs.
  apply (f_equal String.length) in Hs. rewrite FormatDate_length in Hs by exact Hy.
  discriminate Hs.
Qed.

(** ** One insertion *)

(** What [UpsertPartition] leaves: the row, or one it collides with. *)
Lemma upsert_partition_Ok a m m' :
  upsert_partition a m = Ok m' → Partition.Status a = active →
  (m' = m ∧ ∃ r, r ∈ partitions m ∧ partition_conflict a r = true) ∨
  (partitions m' = (partitions m ++ [a])%list ∧
   ∀ r, r ∈ partitions m → partition_conflict a r = false).
Proof.
  unfold upsert_partition. intros H Ha. destruct (tenant_trigger_ok a m); [|done]. cbn in H.
  destruct (existsb _ _) eqn:Ex.
  - apply Ok_inj in H as <-. left. split; [done|]. by apply existsb_true.
  - destruct (has_parent _ _); [|done]. apply Ok_inj in H as <-. right.
    split; [|by apply existsb_false]. cbn. destruct a; cbn in *. by subst.
Qed.

Lemma partition_conflict_true a r :
  partition_conflict a r = true →
  Partition.ID r = Partition.ID a ∨ Partition.Name r = Partition.Name a ∨
  (is_Some (Partition.tenant_bounds a) ∧ Partition.tenant_bounds r = Partition.tenant_bounds a) ∨
  (Partition.IsDefault a = true ∧ Partition.IsDefault r = true ∧
   Partition.owner r = Partition.owner a).
Proof.
  unfold partition_conflict. rewrite !orb_true_iff, !andb_true_iff, !bool_decide_eq_true. tauto.
Qed.

(** [w'] is [w] after an [INSERT] that used the next id. *)
Definition inserted (m' : Meta) (w w' : World C) : Prop :=
  db w' = mkDB m' (catalog (db w)) ∧ (tick w < tick w')%nat.

Lemma insert_bounded b fq w w' m' :
  ready w → b ∈ required → Build (bounded_name prow tenant k b) = Ok fq →
  upsert_partition (columns (bounded_row prow tenant b (env_ulid (tick w)) fq)) (meta (db w)) = Ok m' →
  inserted m' w w' →
  ready w' ∧ (∀ r, r ∈ rows_of w → r ∈ rows_of w') ∧
  ∃ r, r ∈ rows_of w' ∧ covers prow tenant b r.
Proof.
  intros Hw Hb Hfq Hu [Hd Ht]. set (a := columns _) in Hu.
  pose proof Hn as (Hk & _ & Hreq). destruct (Hreq b Hb) as [Hz _].
  pose proof (timestamptz_key b Hz Hk) as Hkey. injection Hkey as Hfrom Hto.
  assert (∀ b', boundsKey b' = boundsKey b → covers prow tenant b' a) as Hcov.
  { intros b' Hb'. split_and!; [done| |].
    - unfold in_existing, a. cbn. rewrite (bool_decide_eq_false_2 (active ≠ active)) by auto.
      by apply bool_decide_eq_true.
    - rewrite Hb'. unfold boundsKey, row_bounds, a. cbn. by rewrite Hfrom, Hto. }
  assert (Partition.tenant_bounds a =
          match tenant with
          | Some t => Some (Parent.ID prow, t, unix_ns (From b), unix_ns (To b))
          | None => None
          end) as Hta.
  { unfold Partition.tenant_bounds, a. cbn. destruct tenant; [|done]. by rewrite Hfrom, Hto. }
  unfold rows_of. rewrite Hd. cbn.
  destruct (upsert_partition_Ok _ _ _ Hu eq_refl) as [[-> (r & Hr & Hc)]|[Hm _]].
  - split_and!; [|done|].
    + eapply (closed w); [done|]. split; [rewrite Hd; by destruct (db w)|lia].
    + exists r. split; [done|]. apply partition_conflict_true in Hc as [Hi|[Hname|[[[x Hs] Hkey]|[? _]]]].
      * by destruct (ready_ids w Hw r (tick w) Hr).
      * apply (ready_names w Hw); [done..|]. left. by rewrite Hname.
      * apply (ready_names w Hw); [done..|]. right.
        rewrite Hta in Hkey, Hs. destruct tenant as [t|]; [|done]. by exists t.
      * done.
  - rewrite Hm. split_and!.
    + destruct Hw as [H1 H2 H3]. split; unfold rows_of; rewrite Hd; cbn; rewrite Hm.
      * intros b' r Hb' [Hr| ->%list_elem_of_singleton]%elem_of_app Hc; [by eapply H1|].
        apply Hcov. destruct Hc as [Hc|(t & Ht' & Hc)].
        -- by rewrite (claims_name b b' a Hb Hb' Hfq Hc).
        -- rewrite Hta, Ht' in Hc. injection Hc as H4 H5. unfold boundsKey. congruence.
      * intros r [Hr| ->%list_elem_of_singleton]%elem_of_app Hc; [by eapply H2|].
        by destruct (bounded_default_names b a Hb Hfq Hc).
      * intros r n [Hr| ->%list_elem_of_singleton]%elem_of_app Hi; [apply H3; [done|lia]|].
        cbn. intros Heq%Hids. lia.
    + intros r Hr. apply elem_of_app. by left.
    + exists a. split; [apply elem_of_app; right; by left|]. by apply Hcov.
Qed.

Lemma insert_default fq w w' m' :
  ready w → Build (default_name prow k) = Ok fq →
  upsert_partition (columns (default_row prow (env_ulid (tick w)) fq)) (meta (db w)) = Ok m' →
  inserted m' w w' →
  ready w' ∧ (∀ r, r ∈ rows_of w → r ∈ rows_of w') ∧
  ∃ r, r ∈ rows_of w' ∧ is_default_of prow r.
Proof.
  intros Hw Hfq Hu [Hd Ht]. set (a := columns _) in Hu.
  assert (is_default_of prow a) as Ha by done.
  unfold rows_of. rewrite Hd. cbn.
  destruct (upsert_partition_Ok _ _ _ Hu eq_refl) as [[-> (r & Hr & Hc)]|[Hm _]].
  - split_and!; [|done|].
    + eapply (closed w); [done|]. split; [rewrite Hd; by destruct (db w)|lia].
    + exists r. split; [done|]. apply partition_conflict_true in Hc as [Hi|[Hname|[[[x Hs] _]|[_ [? ?]]]]].
      * by destruct (ready_ids w Hw r (tick w) Hr).
      * apply (ready_default w Hw); [done|]. by rewrite Hname.
      * done.
      * done.
  - rewrite Hm. split_and!.
    + destruct Hw as [H1 H2 H3]. split; unfold rows_of; rewrite Hd; cbn; rewrite Hm.
      * intros b' r Hb' [Hr| ->%list_elem_of_singleton]%elem_of_app Hc; [by eapply H1|].
        destruct Hc as [Hc|(t & _ & Hc)]; [|done].
        by destruct (bounded_default_names b' a Hb' Hc Hfq).
      * intros r [Hr| ->%list_elem_of_singleton]%elem_of_app Hc; [by eapply H2|done].
      * intros r n [Hr| ->%list_elem_of_singleton]%elem_of_app Hi; [apply H3; [done|lia]|].
        cbn. intros Heq%Hids. lia.
    + intros r Hr. apply elem_of_app. by left.
    + exists a. split; [apply elem_of_app; right; by left|done].
Qed.

(** ** The transaction *)

(** The rows only grow, and the names stay free. *)
Definition evolves (w w' : World C) : Prop :=
  (tick w <= tick w')%nat ∧
  (ready w → ready w' ∧ ∀ r, r ∈ rows_of w → r ∈ rows_of w').
#[export] Instance Effect_evolves : Effect evolves.
Proof.
  split; unfold evolves.
  - intros w1 w2 w3 [? H1] [? H2]. split; [lia|]. intros Hw.
    destruct (H1 Hw) as [Hw2 Hr1]. destruct (H2 Hw2) as [Hw3 Hr2]. auto.
  - intros w w' Hl. split; [apply Hl|]. intros Hw. split; [by eapply closed|].
    destruct Hl as [Hd _]. unfold rows_of. by rewrite Hd.
  - intros w w' [Ht _]. split; [exact Ht|]. intros Hw. split; [|done].
    eapply (closed w); [done|]. by split.
Qed.

(** [ulid.Make()] and the insertion of the row with that id. *)
Lemma insertion_run (row : string → Partition.row) s w o w' :
  (id ← ulid_Make; wrapping s (UpsertPartition (row id))) w = (o, w') →
  (later w w' ∧ ∀ a, o ≠ Ret a) ∨
  ∃ m', upsert_partition (columns (row (env_ulid (tick w)))) (meta (db w)) = Ok m' ∧
        inserted m' w w'.
Proof.
  unfold UpsertPartition, ulid_Make, meta_write. run_unfold.
  assert (∀ t (d : DB C), (tick w <= t)%nat → later w (mkWorld (db w) t (trace w))) as Hl
    by (intros t d Ht; by split).
  destruct (upsert_partition _ _) as [m'|e'] eqn:Hu; cbn;
    destruct (env_fault (S (tick w))) as [[e|e]|]; intros [= <- <-];
    try (left; split; [apply (Hl _ (db w)); lia|done]).
  all: right; exists m'; split; [done|]; split; [done|cbn; lia].
Qed.

(** The catalog is not looked at. *)
Lemma ready_catalog w c :
  ready w → ready (mkWorld (mkDB (meta (db w)) c) (S (tick w)) (trace w)).
Proof.
  intros [H1 H2 H3]. split; [exact H1|exact H2|].
  intros r n Hr Hi. apply H3; [done|cbn in Hi; lia].
Qed.
Lemma Stable_Exec_evolves sql args : Stable evolves (Exec sql args).
Proof.
  apply Stable_Exec; [apply _|]. intros w c. split; cbn; [auto|].
  intros Hw. split; [by apply ready_catalog|done].
Qed.

Lemma Stable_create_bounded b :
  b ∈ required → Stable evolves (create_bounded prow tenant k b).
Proof.
  intros Hb. unfold create_bounded. apply Stable_bind_lift; [apply _|]. intros fq Hfq.
  destruct (splitFQ fq) as [[cs ct]|]; [|stable]. apply Stable_bind; [apply _| |intros _].
  { apply Stable_wrapping, Stable_Exec_evolves. }
  intros w o w' [[Hl _]|(m' & Hu & Hi)]%insertion_run; [by apply effect_later|].
  split; [destruct Hi; lia|]. intros Hw.
  destruct (insert_bounded b fq w w' m') as (? & ? & _); auto.
Qed.

Lemma Stable_create_default : Stable evolves (create_default prow k).
Proof.
  unfold create_default. apply Stable_bind_lift; [apply _|]. intros fq Hfq.
  destruct (splitFQ fq) as [[cs ct]|]; [|stable]. apply Stable_bind; [apply _| |intros _].
  { apply Stable_wrapping, Stable_Exec_evolves. }
  intros w o w' [[Hl _]|(m' & Hu & Hi)]%insertion_run; [by apply effect_later|].
  split; [destruct Hi; lia|]. intros Hw.
  destruct (insert_default fq w w' m') as (? & ? & _); auto.
Qed.

Lemma triple_create_bounded b :
  b ∈ required →
  triple ready (create_bounded prow tenant k b)
    (λ _ w, ∃ r, r ∈ rows_of w ∧ covers prow tenant b r).
Proof.
  intros Hb. unfold create_bounded. eapply triple_bind.
  { apply triple_wrapping, (triple_lift _ _ (λ fq w,
      ready w ∧ Build (bounded_name prow tenant k b) = Ok fq)). auto. }
  intros fq. destruct (splitFQ fq) as [[cs ct]|]; [|apply triple_fail]. eapply triple_bind.
  { apply triple_wrapping, (triple_Exec (λ w, ready w ∧ _)). intros w c [Hw Hfq].
    split; [by apply ready_catalog|exact Hfq]. }
  intros _ w u w' [Hw Hfq] [[_ H]|(m' & Hu & Hi)]%insertion_run; [by destruct (H u)|].
  destruct (insert_bounded b fq w w' m') as (_ & _ & ?); auto.
Qed.

Lemma triple_create_default :
  triple ready (create_default prow k) (λ _ w, ∃ r, r ∈ rows_of w ∧ is_default_of prow r).
Proof.
  unfold create_default. eapply triple_bind.
  { apply triple_wrapping, (triple_lift _ _ (λ fq w,
      ready w ∧ Build (default_name prow k) = Ok fq)). auto. }
  intros fq. destruct (splitFQ fq) as [[cs ct]|]; [|apply triple_fail]. eapply triple_bind.
  { apply triple_wrapping, (triple_Exec (λ w, ready w ∧ _)). intros w c [Hw Hfq].
    split; [by apply ready_catalog|exact Hfq]. }
  intros _ w u w' [Hw Hfq] [[_ H]|(m' & Hu & Hi)]%insertion_run; [by destruct (H u)|].
  destruct (insert_default fq w w' m') as (_ & _ & ?); auto.
Qed.

(** The target set, but for [todo] and, when it is needed, the default. *)
Definition partial (todo : list Bounds) (needDefault : bool) (w : World C) : Prop :=
  (∀ b, b ∈ required → b ∈ todo ∨ ∃ r, r ∈ rows_of w ∧ covers prow tenant b r) ∧
  (needDefault = true ∨ ∃ r, r ∈ rows_of w ∧ is_default_of prow r).

Lemma partial_mono todo nd w w' :
  (∀ r, r ∈ rows_of w → r ∈ rows_of w') → partial todo nd w → partial todo nd w'.
Proof.
  intros Hr [H1 H2]. split.
  - intros b Hb. destruct (H1 b Hb) as [?|(r & ? & ?)]; [by left|]. right. exists r. auto.
  - destruct H2 as [?|(r & ? & ?)]; [by left|]. right. exists r. auto.
Qed.
#[export] Instance Closed_partial todo nd : Closed (partial todo nd).
Proof. intros w w' Hp [Hd _]. eapply partial_mono; [|exact Hp]. unfold rows_of. by rewrite Hd. Qed.

Lemma partial_complete w : partial [] false w → complete prow tenant required (meta (db w)).
Proof.
  intros [H1 H2]. split.
  - intros b Hb. destruct (H1 b Hb) as [?%not_elem_of_nil|]; done.
  - by destruct H2.
Qed.

(** A precondition [evolves] keeps, kept. *)
Lemma evolves_keeps {A} (m : M C A) P :
  (∀ w w', (∀ r, r ∈ rows_of w → r ∈ rows_of w') → P w → P w') →
  Stable evolves m → Stable (keeps (λ w, ready w ∧ P w)) m.
Proof.
  intros HP Hm. eapply Stable_weaken; [exact Hm|]. intros w w' [Ht He]. split; [exact Ht|].
  intros [Hw Hp]. destruct (He Hw) as [? Hr]. split; [done|]. by eapply HP.
Qed.

Lemma triple_create_all nd l :
  (∀ b, b ∈ l → b ∈ required) →
  triple (λ w, ready w ∧ partial l nd w) (forM (create_bounded prow tenant k) l)
    (λ _ w, ready w ∧ partial [] nd w).
Proof.
  induction l as [|b l IH]; intros Hl; cbn; [by apply triple_ret|].
  assert (b ∈ required) as Hb by (apply Hl; by left).
  eapply triple_bind.
  - eapply (triple_stable evolves (λ w, ready w ∧ partial (b :: l) nd w));
      [by apply Stable_create_bounded|].
    eapply triple_weaken; [by apply triple_create_bounded|by intros w []|done].
  - intros []. eapply triple_weaken; [apply IH; intros; apply Hl; by right| |done].
    cbn. intros w' (Hc & w & [Hw Hp] & [_ He]). destruct (He Hw) as [Hw' Hr].
    split; [done|]. destruct (partial_mono _ _ _ _ Hr Hp) as [H1 H2].
    split; [|done]. intros b' Hb'.
    destruct (H1 b' Hb') as [[->|?]%elem_of_cons|?]; auto.
Qed.

Section tx.
Context (todo : list Bounds) (needDefault : bool) (Htodo : ∀ b, b ∈ todo → b ∈ required).

Let body : M C unit :=
  forM (create_bounded prow tenant k) todo ;;
  if needDefault then create_default prow k else mret tt.
Definition pending (w : World C) : Prop := ready w ∧ partial todo needDefault w.

#[export] Instance Closed_pending : Closed pending.
Proof. intros w w' [? ?] Hl. split; by eapply closed. Qed.

Lemma Stable_body : Stable evolves body.
Proof.
  unfold body. apply Stable_bind; [apply _| |intros _].
  - apply Stable_forM; [apply _|]. intros b Hb. apply Stable_create_bounded. auto.
  - destruct needDefault; [apply Stable_create_default|stable].
Qed.

Lemma triple_body : triple pending body (λ _, partial [] false).
Proof.
  unfold body. eapply triple_bind; [by apply triple_create_all|]. intros [].
  destruct needDefault.
  - eapply triple_weaken.
    + eapply (triple_stable evolves (λ w, ready w ∧ partial [] true w));
        [apply Stable_create_default|].
      eapply triple_weaken; [apply triple_create_default|by intros w []|done].
    + done.
    + cbn. intros _ w' (Hd & w & [Hw Hp] & [_ He]). destruct (He Hw) as [Hw' Hr].
      destruct (partial_mono _ _ _ _ Hr Hp) as [H1 _]. split; [exact H1|by right].
  - apply triple_ret. by intros w [_ ?].
Qed.

Lemma Stable_createInTx :
  Stable (atomically pending (partial [] false)) (createInTx prow tenant todo needDefault k).
Proof.
  apply Stable_atomically_in_tx; [apply _..| | |exact triple_body].
  - eapply evolves_keeps; [apply partial_mono|exact Stable_body].
  - eapply Stable_weaken.
    + apply (evolves_keeps body (λ w, partial todo needDefault w ∧ partial [] false w));
        [|exact Stable_body].
      intros w w' Hr [? ?]. split; by eapply partial_mono.
    + intros w w' [Ht Hk]. split; [exact Ht|]. intros [[? ?] ?].
      destruct Hk as (? & ? & ?); [done|]. split_and!; done.
Qed.

Lemma triple_createInTx_once :
  triple pending (createInTx prow tenant todo needDefault k) (λ _, partial [] false).
Proof. apply triple_in_tx; [apply _..|exact triple_body]. Qed.
Lemma triple_createInTx pol :
  triple pending (Do pol (createInTx prow tenant todo needDefault k)) (λ _, partial [] false).
Proof.
  apply triple_Do; [apply _..| |exact triple_createInTx_once].
  intros w e w' Hp [_ Ha]%Stable_createInTx. by destruct (Ha Hp).
Qed.
End tx.
End ensure.

(** ** The call *)

Section call.
Context {C : Type} {E : Env C} {L : EnvLaws E}.
Context (prow : Parent.row) (tenant : option string) (k : kind).

(** The target set when the clock is read at interaction [n]. *)
Definition target (n : nat) : res (list Bounds) :=
  NextBoundsUTC (UTC (env_now n)) (canonicalIntervalFor k) (Parent.Premake prow + 1).

Lemma list_partitions_elem pid (l : list Partition.row) r :
  r ∈ list_partitions pid l ↔ Partition.ParentTableID r = pid ∧ r ∈ l.
Proof. unfold list_partitions. by rewrite merge_sort_Permutation, list_elem_of_filter. Qed.
Lemma scanned_elem n m r : r ∈ scanned n m ↔ r ∈ partitions m.
Proof. unfold scanned. by rewrite env_scan_perm. Qed.

Lemma buildExistingSet_elem existing key :
  key ∈ buildExistingSet existing tenant →
  ∃ r, r ∈ existing ∧ in_existing tenant r = true ∧ boundsKey (row_bounds r) = key.
Proof.
  unfold buildExistingSet. intros (r & -> & [Hr ?]%list_elem_of_filter)%list_elem_of_fmap. by exists r.
Qed.

Lemma get_default_Ok key l r :
  get_default key l = Ok r → r ∈ l ∧ Partition.owner r = key ∧ Partition.IsDefault r = true.
Proof.
  unfold get_default. destruct (List.find _ l) eqn:Hf; [|done]. intros <-%Ok_inj.
  apply find_Some_elem in Hf as [? [?%bool_decide_eq_true ?]%andb_true_iff]. auto.
Qed.

Context (Hids : ∀ i j, env_ulid i = env_ulid j → i = j).
Context (Hk : parseIntervalLabel (Parent.PartitionInterval prow) = Ok k).

(** All or nothing, and all when it returns. *)
Definition outcome_ok {A} (w : World C) (o : outcome A) (w' : World C) : Prop :=
  (db w' = db w ∧ ∀ a, o ≠ Ret a) ∨
  ∃ n bs, (tick w <= n < tick w')%nat ∧ target n = Ok bs ∧
    (db w' = db w ∨ complete prow tenant bs (meta (db w'))) ∧
    (∀ a, o = Ret a → complete prow tenant bs (meta (db w'))).

Lemma outcome_ok_fail {A} w (o : outcome A) w' :
  later w w' → (∀ a, o ≠ Ret a) → outcome_ok w o w'.
Proof. intros [Hd _] Ho. by left. Qed.

Lemma counters_run label n (nd : bool) (rep : EnsureReport) (w : World C) :
  ∃ w', ((if 0 <? n then emit (Counter "partman.partitions_created_total" n ["parent"; label])
          else mret tt) ;;
         (if nd then emit (Counter "partman.default_partitions_created_total" 1 ["parent"; label])
          else mret tt) ;;
         mret rep) w = (Ret rep, w') ∧ later w w'.
Proof. destruct (0 <? n), nd; eexists; (split; [reflexivity|by split]). Qed.

(** The read of the existing rows and of the default partition. *)
Lemma list_run msg pid w o w' :
  wrapping msg (ListPartitionsForParent pid) w = (o, w') →
  later w w' ∧
  match o with
  | Ret l => ∀ r, r ∈ l ↔ Partition.ParentTableID r = pid ∧ r ∈ rows_of w
  | Fail _ => True
  | Panic => False
  end.
Proof.
  intros (o1 & [Hl Hr]%meta_read_run & Ho)%wrapping_inv. split; [done|].
  destruct o1 as [l|e|]; subst o; [|done|done]. destruct Hr as [n <-%Ok_inj].
  intros r. by rewrite list_partitions_elem, scanned_elem.
Qed.

Lemma default_run pid w o w' :
  attempt (GetDefaultPartition pid None) w = (o, w') →
  later w w' ∧
  match o with
  | Ret (Ok r) => r ∈ rows_of w ∧ Partition.owner r = (pid, None) ∧ Partition.IsDefault r = true
  | Ret (Err _) => True
  | _ => False
  end.
Proof.
  intros (o1 & [Hl Hr]%meta_read_run & Ho)%attempt_inv. split; [done|].
  destruct o1 as [r|e|]; subst o; [|done|done]. destruct Hr as [n Hr%get_default_Ok].
  destruct Hr as (Hr & ? & ?). split; [by apply (scanned_elem n)|done].
Qed.

(** The part of [ensure] after the two reads. *)
Lemma provision_ok label bs existing (nd : bool) w w1 n o w' :
  target n = Ok bs → nameable k bs → ready prow tenant k bs w → later w w1 → (tick w <= n < tick w1)%nat →
  (∀ r, r ∈ existing ↔ Partition.ParentTableID r = Parent.ID prow ∧ r ∈ rows_of w) →
  (nd = true ∨ ∃ r, r ∈ rows_of w ∧ is_default_of prow r) →
  (let toCreate := filter (λ b, boundsKey b ∉ buildExistingSet existing tenant) bs in
   if bool_decide (length toCreate = 0%nat) && negb nd then mret no_report
   else
     Do (retryPolicy "provisioner-ensure") (createInTx prow tenant toCreate nd k) ;;
     let n := Z.of_nat (length toCreate) in
     (if 0 <? n then emit (Counter "partman.partitions_created_total" n ["parent"; label])
      else mret tt) ;;
     (if nd then emit (Counter "partman.default_partitions_created_total" 1 ["parent"; label])
      else mret tt) ;;
     mret (mkEnsureReport n nd)) w1 = (o, w') →
  outcome_ok w o w'.
Proof.
  intros Ht Hn Hw Hl Hclock Hex Hnd. cbv zeta. set (todo := filter _ bs).
  assert (ready prow tenant k bs w1) as Hw1 by (by eapply closed).
  assert (pending prow tenant k bs todo nd w1) as Hpend.
  { eapply (closed w); [|exact Hl]. split; [done|]. split; [|done]. intros b Hb.
    destruct (decide (boundsKey b ∈ buildExistingSet existing tenant)) as [Hin|Hin].
    - right. apply buildExistingSet_elem in Hin as (r & [Hp Hr]%Hex & Hi & Hkey).
      by exists r.
    - left. by apply list_elem_of_filter. }
  assert (∀ b, b ∈ todo → b ∈ bs) as Hsub by (by intros b [_ ?]%list_elem_of_filter).
  destruct (bool_decide (length todo = 0%nat) && negb nd) eqn:Hnone.
  - apply andb_true_iff in Hnone as [H0%bool_decide_eq_true ->%negb_true_iff].
    apply length_zero_iff_nil in H0. intros [= <- <-]. right. exists n, bs.
    split; [done|]. split; [done|]. assert (complete prow tenant bs (meta (db w1))) as Hc.
    { apply (partial_complete prow tenant bs w1). rewrite <- H0. apply Hpend. }
    by auto.
  - intros [([] & w2 & Hdo & H)|[(e & Hdo & ->)|[Hdo ->]]]%bind_inv;
      pose proof (Stable_Do _ _ _ (Stable_createInTx prow tenant k bs Hn Hids todo nd Hsub) _ _ _ Hdo)
        as [Htick Ha]; destruct (Ha Hpend) as (_ & Hd & _); destruct Hl as [Hl _]; rewrite Hl in Hd;
      right; exists n, bs.
    + pose proof (triple_createInTx prow tenant k bs Hn Hids todo nd Hsub _ _ _ _ Hpend Hdo) as Hc.
      apply partial_complete in Hc.
      destruct (counters_run label (Z.of_nat (length todo)) nd
                  (mkEnsureReport (Z.of_nat (length todo)) nd) w2) as (w3 & Hrun & [Hd3 Ht3]).
      rewrite H in Hrun. injection Hrun as -> ->. rewrite Hd3. split; [lia|]. by auto.
    + split_and!; [lia|lia|done| |done]. destruct Hd; [by left|right]. by apply partial_complete.
    + split_and!; [lia|lia|done| |done]. destruct Hd; [by left|right]. by apply partial_complete.
Qed.

Lemma ensure_ok label w o w' :
  (∀ n bs, target n = Ok bs → nameable k bs ∧ ready prow tenant k bs w) →
  ensure label prow tenant w = (o, w') → outcome_ok w o w'.
Proof.
  intros Hpre. unfold ensure. rewrite Hk.
  destruct (_ && _); [intros [= <- <-]; by left|].
  destruct (_ && _); [intros [= <- <-]; by left|].
  rewrite bind_wrapping_Ok, bind_Now. set (w1 := mkWorld _ _ _).
  destruct (NextBoundsUTC _ _ _) as [bs|e] eqn:Ht; [|intros [= <- <-]; by left].
  destruct (Hpre _ _ Ht) as [Hn Hw]. rewrite bind_lift_Ok.
  assert (later w w1) as Hl1 by apply later_tick.
  intros [(existing & w2 & [Hl2 Hex]%list_run & H)|[(e & [Hl2 _]%list_run & ->)|[[_ []]%list_run _]]]%bind_inv;
    [|by apply outcome_ok_fail; [etrans|]].
  revert H. cbv zeta.
  intros [(d & w3 & [Hl3 Hd]%default_run & H)|[(e & [_ []]%default_run & _)|[[_ []]%default_run _]]]%bind_inv.
  assert (later w w3) as Hl by (etrans; [exact Hl1|]; etrans; [exact Hl2|exact Hl3]).
  assert (rows_of w2 = rows_of w) as Hr2 by (unfold rows_of; destruct Hl1 as [<- _], Hl2 as [-> _]; done).
  assert (∀ r, r ∈ existing ↔ Partition.ParentTableID r = Parent.ID prow ∧ r ∈ rows_of w) as Hex'.
  { exact Hex. }
  assert (tick w <= tick w < tick w3)%nat as Hclock.
  { destruct Hl2 as [_ Ht2], Hl3 as [_ Ht3]. cbn [tick w1] in Ht2. lia. }
  destruct d as [r|e].
  - apply (provision_ok label bs existing false w w3 _ o w' Ht Hn Hw Hl Hclock Hex'); [|exact H].
    right. exists r. by rewrite <- Hr2.
  - revert H. destruct (Is e NoRows).
    + apply (provision_ok label bs existing true w w3 _ o w' Ht Hn Hw Hl Hclock Hex'). by left.
    + intros [= <- <-]. by apply outcome_ok_fail.
Qed.
End call.

(** ** Only additions *)

(** A row [EnsurePartitions] may add. *)
Definition added {C} {E : Env C} (prow : Parent.row) (tenant : option string) (k : kind)
    (r : Partition.row) : Prop :=
  Partition.ParentTableID r = Parent.ID prow ∧ Partition.Status r = active ∧
  Partition.PartitionBy r = Parent.PartitionBy prow ∧
  Partition.PartitionType r = Parent.PartitionType prow ∧
  ((Partition.IsDefault r = true ∧ Partition.TenantID r = None ∧
    Build (default_name prow k) = Ok (Partition.Name r)) ∨
   (Partition.IsDefault r = false ∧ Partition.TenantID r = tenant ∧
    ∃ z, Build (bounded_name prow tenant k (period k z)) = Ok (Partition.Name r) ∧
         Partition.BoundsFrom r = timestamptz (From (period k z)) ∧
         Partition.BoundsTo r = timestamptz (To (period k z)))).

Section adds.
Context {C : Type} {E : Env C}.

Definition only_adds (P : Partition.row → Prop) (d d' : DB C) : Prop :=
  parent_tables (meta d') = parent_tables (meta d) ∧ tenants (meta d') = tenants (meta d) ∧
  ∃ new, partitions (meta d') = (partitions (meta d) ++ new)%list ∧ Forall P new.

#[export] Instance only_adds_preorder P : PreOrder (only_adds P).
Proof.
  split.
  - intros d. split_and!; [done..|]. exists []. by rewrite app_nil_r.
  - intros d1 d2 d3 (H1 & H2 & n1 & H3 & H4) (H5 & H6 & n2 & H7 & H8).
    split_and!; [congruence..|]. exists (n1 ++ n2)%list. split; [|by apply Forall_app].
    by rewrite H7, H3, app_assoc.
Qed.

Lemma Stable_UpsertPartition_adds (P : Partition.row → Prop) a :
  P (columns a) → Stable (on_db (only_adds P)) (UpsertPartition a).
Proof.
  intros HP. apply Stable_meta_write; [apply _|]. intros w x m' H.
  destruct (upsert_partition _ _) as [m1|] eqn:Hu; [|done]. apply Ok_inj in H as [= _ <-].
  apply upsert_partition_adds in Hu as (rs & -> & Hrs). split_and!; [done..|]. exists rs.
  split; [done|]. destruct Hrs as [-> | ->]; [done|by apply Forall_singleton].
Qed.
Lemma Stable_Exec_adds P sql args : Stable (on_db (only_adds P)) (Exec sql args).
Proof.
  apply Stable_Exec; [apply _|]. intros w c. split_and!; [done..|]. exists []. by rewrite app_nil_r.
Qed.

Lemma Stable_createInTx_adds prow tenant k todo nd :
  (∀ b, b ∈ todo → ∃ z, b = period k z) →
  Stable (on_db (only_adds (added prow tenant k))) (createInTx prow tenant todo nd k).
Proof.
  intros Hmem. unfold createInTx, create_bounded, create_default. stable; try apply Stable_Exec_adds;
    apply Stable_UpsertPartition_adds; split_and!; try done.
  - right. split_and!; [done..|]. match goal with H : ?b ∈ todo |- _ => destruct (Hmem b H) as [z ->] end. by exists z.
  - by left.
Qed.
Lemma Stable_ensure_adds label prow tenant k :
  parseIntervalLabel (Parent.PartitionInterval prow) = Ok k →
  Stable (on_db (only_adds (added prow tenant k))) (ensure label prow tenant).
Proof.
  intros Hk. unfold ensure. rewrite Hk.
  destruct (_ && _); [stable|]. destruct (_ && _); [stable|].
  apply Stable_bind_lift; [apply _|]. intros k' <-%Ok_inj.
  apply Stable_bind; [apply _|stable|intros now].
  apply Stable_bind_lift'; [apply _|]. intros bs Hbs.
  assert (∀ b, b ∈ bs → ∃ z, b = period k z) as Hmem by (intros; by eapply NextBoundsUTC_member).
  stable; try (apply Stable_createInTx_adds; intros b [_ ?]%list_elem_of_filter; by apply Hmem).
Qed.

(** C10: whatever fails on the way, a call of [EnsurePartitions] leaves every
    row as it is and only adds rows: for a registered parent whose tenant
    column agrees with the call, active rows of that parent, each the
    default partition or a whole period of the parent's interval, for the
    caller's tenant and under the name [Build] gives it. *)
Theorem EnsurePartitions_only_adds parent tenant w o w' :
  EnsurePartitions parent tenant w = (o, w') →
  meta (db w') = meta (db w) ∨
  ∃ prow k, get_parent (ParentRef.SchemaName parent, ParentRef.TableName parent) (meta (db w)) = Ok prow ∧
    parseIntervalLabel (Parent.PartitionInterval prow) = Ok k ∧
    hasTenantCol prow = negb (bool_decide (tenant = None)) ∧
    only_adds (added prow tenant k) (db w) (db w').
Proof.
  unfold EnsurePartitions. cbv zeta. rewrite bind_Now. set (w0 := mkWorld _ _ _).
  intros (o1 & w1 & Hrun & [Hd _] & _)%deferring_inv; [|stable]. rewrite Hd. clear Hd.
  apply bind_inv in Hrun as [(r & w2 & Hget & Hrun)|[(e & Hget & _)|[Hget _]]];
    apply attempt_inv in Hget as (og & [[Hdb _] Hg]%meta_read_run & Ho);
    [|by left; rewrite Hdb..].
  destruct og as [prow|e|]; [|injection Ho as ->|done].
  - injection Ho as ->. destruct Hg as [_ Hg].
    assert (meta (db w1) = meta (db w2) ∨
            ∃ k, parseIntervalLabel (Parent.PartitionInterval prow) = Ok k ∧
                 hasTenantCol prow = negb (bool_decide (tenant = None)) ∧
                 only_adds (added prow tenant k) (db w2) (db w1)) as [Hsame|(k & Hk & Ht & Ha)].
    { destruct (parseIntervalLabel (Parent.PartitionInterval prow)) as [k|e] eqn:Hk.
      - pose proof (Stable_ensure_adds _ prow tenant k Hk _ _ _ Hrun) as Ha.
        unfold ensure in Hrun. destruct (hasTenantCol prow), (bool_decide (tenant = None));
          try (injection Hrun as _ <-; by left); right; by exists k.
      - left. unfold ensure in Hrun. rewrite Hk in Hrun.
        repeat (destruct (_ && _); [by injection Hrun as _ <-|]). by injection Hrun as _ <-. }
    + left. rewrite Hsame. by rewrite Hdb.
    + right. exists prow, k. rewrite Hdb in Ha. by split_and!.
  - left. destruct (Is e NoRows); injection Hrun as _ <-; by rewrite Hdb.
Qed.
End adds.

(** ** Fresh ids *)

Section fresh.
Context {C : Type} {E : Env C} (Hids : ∀ i j, env_ulid i = env_ulid j → i = j).

(** No row has an id that is still to come. *)
Definition fresh_ids (w : World C) : Prop :=
  ∀ r n, r ∈ rows_of w → (tick w <= n)%nat → Partition.ID r ≠ env_ulid n.
Definition freshens (w w' : World C) : Prop :=
  (tick w <= tick w')%nat ∧ (fresh_ids w → fresh_ids w').
Lemma fresh_ids_rows w w' :
  (∀ r, r ∈ rows_of w' → ∃ r0, r0 ∈ rows_of w ∧ Partition.ID r = Partition.ID r0) → (tick w <= tick w')%nat →
  fresh_ids w → fresh_ids w'.
Proof.
  intros Hrows Ht Hf r n Hr Hn. destruct (Hrows r Hr) as (r0 & Hr0 & ->). apply Hf; [done|lia].
Qed.
#[export] Instance Effect_freshens : Effect freshens.
Proof.
  assert (∀ w w', db w' = db w → (tick w <= tick w')%nat → freshens w w') as Hsame.
  { intros w w' Hd Ht. split; [done|]. apply fresh_ids_rows; [|done]. unfold rows_of. rewrite Hd. eauto. }
  split.
  - intros w1 w2 w3 [? H1] [? H2]. split; [lia|]. auto.
  - intros w w' [Hd Ht]. by apply Hsame.
  - intros w w' [Ht _]. split; [done|]. apply fresh_ids_rows; [|done]. eauto.
Qed.

Lemma Stable_insertion (row : string → Partition.row) s :
  (∀ id, Partition.ID (row id) = id) →
  Stable freshens (id ← ulid_Make; wrapping s (UpsertPartition (row id))).
Proof.
  intros Hrow w o w' [[Hl _]|(m' & Hu & Hd & Ht)]%insertion_run; [by apply effect_later|].
  split; [lia|]. intros Hf. apply upsert_partition_adds in Hu as (rs & -> & Hrs).
  intros r n Hr Hn. unfold rows_of in Hr. rewrite Hd in Hr. cbn in Hr.
  apply elem_of_app in Hr as [Hr|Hr]; [apply Hf; [done|lia]|].
  destruct Hrs as [-> | ->]; [by apply not_elem_of_nil in Hr|]. apply list_elem_of_singleton in Hr as ->.
  cbn. rewrite Hrow. intros Heq%Hids. lia.
Qed.
Lemma Stable_Exec_freshens sql args : Stable freshens (Exec sql args).
Proof.
  apply Stable_Exec; [apply _|]. intros w c. split; cbn; [lia|]. apply fresh_ids_rows; [eauto|cbn; lia].
Qed.
(** The statements of [create_bounded] and [create_default]: a name, DDL, a
    row. *)
Lemma Stable_create_freshens (name : res string) s1 s2 e (ddl : string → string → string) (k : string → M C unit) :
  (∀ fq, Stable freshens (k fq)) →
  Stable freshens (fq ← wrapping s1 (lift name);
    match splitFQ fq with
    | None => fail e
    | Some (cs, ct) => wrapping s2 (Exec (ddl cs ct) []) ;; k fq
    end).
Proof.
  intros Hk. apply Stable_bind; [apply _|stable|]. intros fq. destruct (splitFQ fq) as [[cs ct]|]; [|stable].
  apply Stable_bind; [apply _|apply Stable_wrapping, Stable_Exec_freshens|]. intros _. apply Hk.
Qed.
Lemma Stable_createInTx_freshens prow tenant k todo nd : Stable freshens (createInTx prow tenant todo nd k).
Proof.
  unfold createInTx. stable; unfold create_bounded, create_default; apply Stable_create_freshens; intros fq;
    by apply Stable_insertion.
Qed.
Lemma Stable_ensure_freshens label prow tenant : Stable freshens (ensure label prow tenant).
Proof. unfold ensure. stable. apply Stable_createInTx_freshens. Qed.
End fresh.

(** ** All or nothing *)

Section atomic.
Context {C : Type} {E : Env C} {L : EnvLaws E}.

(** A run on a registered parent. *)
Lemma EnsurePartitions_run parent tenant prow w o w' :
  get_parent (ParentRef.SchemaName parent, ParentRef.TableName parent) (meta (db w)) = Ok prow →
  EnsurePartitions parent tenant w = (o, w') →
  (later w w' ∧ ∀ a, o ≠ Ret a) ∨
  ∃ label w1 o1 w2, later w w1 ∧ ensure label prow tenant w1 = (o1, w2) ∧ later w2 w' ∧
    ∀ a, o = Ret a → o1 = Ret a.
Proof.
  intros Hp. unfold EnsurePartitions. cbv zeta. rewrite bind_Now. set (w0 := mkWorld _ _ _).
  assert (later w w0) as Hl0 by apply later_tick.
  intros (o1 & w1 & Hrun & Hl & Ho)%deferring_inv; [|stable].
  apply bind_inv in Hrun as [(r & w2 & Hget & Hrun)|[(e & Hget & He)|[Hget He]]];
    apply attempt_inv in Hget as (og & [Hlg Hg]%meta_read_run & Hog).
  - assert (later w w2) as Hl2 by (by etrans). destruct og as [prow'|e|]; [|injection Hog as ->|done].
    + injection Hog as ->. destruct Hg as [_ Hg]. cbn [db w0] in Hg. rewrite Hp in Hg. apply Ok_inj in Hg as <-. right. do 4 eexists.
      split_and!; [exact Hl2|exact Hrun|exact Hl|]. intros a ->. by destruct Ho.
    + left. destruct (Is e NoRows); injection Hrun as <- <-; (split; [by etrans|]);
        intros a ->; by destruct Ho.
  - left. split; [etrans; [|exact Hl]; by etrans|]. subst o1. intros a ->. by destruct Ho.
  - left. split; [etrans; [|exact Hl]; by etrans|]. subst o1. intros a ->. by destruct Ho.
Qed.

(** C3: [EnsurePartitions] is atomic. On a daily, weekly or monthly parent,
    with fresh ids and with target names and bounds that no row but the
    pair's own active partitions and default occupies, and whatever
    statement, commit or retry fails: either the whole data base is as
    before, or every period of the target set at a reading of the clock
    during the call has its active partition row and the parent its default;
    and when the call returns without error, they are there. *)
Theorem EnsurePartitions_all_or_nothing parent tenant prow k w o w' :
  (∀ i j, env_ulid i = env_ulid j → i = j) →
  get_parent (ParentRef.SchemaName parent, ParentRef.TableName parent) (meta (db w)) = Ok prow →
  parseIntervalLabel (Parent.PartitionInterval prow) = Ok k →
  (∀ n bs, target prow k n = Ok bs → nameable k bs ∧ ready prow tenant k bs w) →
  EnsurePartitions parent tenant w = (o, w') →
  (db w' = db w ∧ ∀ rep, o ≠ Ret rep) ∨
  ∃ n bs, (tick w <= n < tick w')%nat ∧ target prow k n = Ok bs ∧
    (db w' = db w ∨ complete prow tenant bs (meta (db w'))) ∧
    (∀ rep, o = Ret rep → complete prow tenant bs (meta (db w'))).
Proof.
  intros Hids Hp Hk Hpre [[[Hd _] Ho]|(label & w1 & o1 & w2 & Hl1 & Hrun & [Hd2 Ht2] & Ho)]
    %(EnsurePartitions_run _ _ _ _ _ _ Hp); [by left|].
  apply (ensure_ok prow tenant k Hids Hk) in Hrun.
  - destruct Hl1 as [Hd1 Ht1]. unfold outcome_ok in Hrun. rewrite Hd1 in Hrun. rewrite Hd2.
    destruct Hrun as [[? Hr]|(n & bs & Hclock & Ht & Hdb & Hr)].
    + left. split; [done|]. intros rep Hrep. by eapply Hr, Ho.
    + right. exists n, bs. split_and!; [lia|lia|done|done|]. intros rep Hrep. by eapply Hr, Ho.
  - intros n bs Ht. destruct (Hpre n bs Ht) as [Hn Hw]. split; [done|]. by eapply closed.
Qed.

(** ** Doing nothing *)

Context {QE : Quiet E}.

Lemma find_complete (l : list Partition.row) key r :
  r ∈ l → Partition.owner r = key → Partition.IsDefault r = true →
  ∃ r', get_default key l = Ok r'.
Proof.
  intros Hr Ho Hd. unfold get_default. destruct (List.find _ l) as [r'|] eqn:Hf; [by exists r'|].
  pose proof (find_None_elem _ _ r Hf Hr) as Hn. cbn in Hn.
  by rewrite bool_decide_true, Hd in Hn.
Qed.

Lemma target_Ok prow k n :
  parseIntervalLabel (Parent.PartitionInterval prow) = Ok k → ∃ bs, target prow k n = Ok bs.
Proof.
  intros Hk. unfold target, NextBoundsUTC. destruct (_ <=? 0); [by eexists|].
  rewrite kindFromDuration_canonical; [by eexists|].
  unfold parseIntervalLabel in Hk. repeat case_match; simplify_eq; done.
Qed.

(** The first steps of a call in a quiet environment. *)
Lemma EnsurePartitions_load parent tenant prow w :
  get_parent (ParentRef.SchemaName parent, ParentRef.TableName parent) (meta (db w)) = Ok prow →
  ∃ label f w1, later w w1 ∧ (∀ w, ∃ w', f w = (Ret tt, w') ∧ later w w') ∧
    EnsurePartitions parent tenant w = deferring f (ensure label prow tenant) w1.
Proof.
  intros Hp. unfold EnsurePartitions. cbv zeta. rewrite bind_Now. set (w0 := mkWorld _ _ _).
  set (label := _ +:+ "." +:+ _). set (f := _ ≫= _).
  exists label, f, (mkWorld (db w0) (S (tick w0)) (trace w0)). split_and!.
  - split; cbn; auto.
  - intros w2. eexists. split; [reflexivity|]. split; cbn; auto.
  - unfold deferring. erewrite bind_Ret.
    2:{ apply attempt_Ret. unfold GetParentTable. rewrite quiet_meta_read. cbn [db w0]. rewrite Hp.
        reflexivity. }
    reflexivity.
Qed.

Lemma ensure_idempotent label prow tenant k w :
  parseIntervalLabel (Parent.PartitionInterval prow) = Ok k →
  hasTenantCol prow = negb (bool_decide (tenant = None)) →
  (∀ n bs, target prow k n = Ok bs → complete prow tenant bs (meta (db w))) →
  ∃ w', ensure label prow tenant w = (Ret no_report, w') ∧ later w w'.
Proof.
  intros Hk Ht Hc. unfold ensure. rewrite Hk, Ht.
  replace (negb (bool_decide (tenant = None)) && bool_decide (tenant = None)) with false
    by (by destruct (bool_decide _)).
  replace (negb (negb (bool_decide (tenant = None))) && negb (bool_decide (tenant = None))) with false
    by (by destruct (bool_decide _)).
  rewrite bind_wrapping_Ok, bind_Now. destruct (target_Ok prow k (tick w) Hk) as [bs Hbs].
  destruct (Hc _ _ Hbs) as [Hcov (rd & Hrd & Hod & Hdd)].
  unfold target in Hbs. rewrite Hbs, bind_lift_Ok. set (w1 := mkWorld _ _ _).
  erewrite bind_Ret.
  2:{ apply wrapping_Ret. unfold ListPartitionsForParent. rewrite quiet_meta_read. reflexivity. }
  cbv zeta. set (w2 := mkWorld (db w1) _ _). set (existing := list_partitions _ _).
  destruct (find_complete (scanned (tick w2) (meta (db w2))) (Parent.ID prow, None) rd) as [r Hr];
    [by apply scanned_elem|done|done|].
  erewrite bind_Ret.
  2:{ apply attempt_Ret. unfold GetDefaultPartition. rewrite quiet_meta_read, Hr. reflexivity. }
  assert (filter (λ b, boundsKey b ∉ buildExistingSet existing tenant) bs = []) as ->.
  { destruct (filter _ _) as [|b l] eqn:Hf; [done|]. exfalso.
    assert (b ∈ b :: l) as Hb by (by left). rewrite <- Hf in Hb.
    apply list_elem_of_filter in Hb as [Hno Hb]. apply Hno.
    destruct (Hcov b Hb) as (x & Hx & Hp & Hi & <-). unfold buildExistingSet.
    apply (list_elem_of_fmap_2 (boundsKey ∘ row_bounds)), list_elem_of_filter. split; [done|].
    apply list_partitions_elem. split; [done|]. by apply scanned_elem. }
  eexists. split; [reflexivity|]. split; [done|cbn; lia].
Qed.

(** C5: [EnsurePartitions] is idempotent: once the target set is there, a
    call for the same period in which no statement fails returns the empty
    report, and leaves the metadata and the catalog alone. *)
Theorem EnsurePartitions_idempotent parent tenant prow k w :
  get_parent (ParentRef.SchemaName parent, ParentRef.TableName parent) (meta (db w)) = Ok prow →
  parseIntervalLabel (Parent.PartitionInterval prow) = Ok k →
  hasTenantCol prow = negb (bool_decide (tenant = None)) →
  (∀ n bs, target prow k n = Ok bs → complete prow tenant bs (meta (db w))) →
  ∃ w', EnsurePartitions parent tenant w = (Ret no_report, w') ∧ db w' = db w.
Proof.
  intros Hp Hk Ht Hc.
  destruct (EnsurePartitions_load parent tenant prow w Hp) as (label & f & w1 & [Hd1 _] & Hf & ->).
  destruct (ensure_idempotent label prow tenant k w1 Hk Ht) as (w2 & Hrun & [Hd2 _]).
  { intros n bs Hbs. rewrite Hd1. by eapply Hc. }
  destruct (Hf w2) as (w3 & Hw3 & [Hd3 _]). exists w3. unfold deferring. rewrite Hrun, Hw3.
  split; [done|congruence].
Qed.

(** ** Success *)

Context (accepts : ∀ sql c, ∃ n c', pg_exec sql [] c = Ok (n, c')).

(** The identifiers are words, the parent and the tenant are registered. *)
Definition well_named (prow : Parent.row) (tenant : option string) : Prop :=
  word_regex (Parent.SchemaName prow) = true ∧ word_regex (Parent.TableName prow) = true ∧
  (default "" tenant = "" ∨ word_regex (default "" tenant) = true).
Definition registered (prow : Parent.row) (tenant : option string) (d : DB C) : Prop :=
  has_parent (Parent.ID prow) (meta d) = true ∧
  ∀ t, tenant = Some t → has_tenant (Parent.ID prow) t (meta d) = true.

Lemma Build_succeeds tn :
  build_valid tn = true → ∃ fq a b, Build tn = Ok fq ∧ splitFQ fq = Some (a, b).
Proof.
  intros Hv. eexists _, _, _. split; [apply Build_Ok; by split|]. unfold splitFQ.
  apply Cut_app. unfold build_valid in Hv. apply andb_true_iff in Hv as [[Hs _]%andb_true_iff _].
  eapply all_bytes_impl; [apply is_word_not_dot|]. by apply word_regex_bytes.
Qed.

Lemma succeeds_Exec prow tenant sql :
  succeeds (registered prow tenant) (Exec sql []) (λ _, registered prow tenant).
Proof.
  apply succeeds_statement. intros n d Hd. destruct (accepts sql (catalog d)) as (x & c & ->).
  by do 2 eexists.
Qed.

Lemma succeeds_UpsertPartition prow tenant a :
  Partition.ParentTableID a = Parent.ID prow →
  Partition.TenantID a = tenant ∨ Partition.TenantID a = None →
  succeeds (registered prow tenant) (UpsertPartition a) (λ _, registered prow tenant).
Proof.
  intros Hp Ht. apply succeeds_statement. intros n d [H1 H2].
  assert (tenant_trigger_ok (columns a) (meta d) = true) as Htr.
  { unfold tenant_trigger_ok. cbn. rewrite Hp. destruct Ht as [-> | ->]; [|done].
    destruct tenant; auto. }
  unfold upsert_partition. rewrite Htr. cbn [negb].
  destruct (existsb _ _); [by do 2 eexists|].
  replace (Partition.ParentTableID (columns a)) with (Parent.ID prow) by done.
  rewrite H1. cbn. by do 2 eexists.
Qed.

Lemma succeeds_insert prow tenant s (row : string → Partition.row) :
  (∀ id, Partition.ParentTableID (row id) = Parent.ID prow) →
  (∀ id, Partition.TenantID (row id) = tenant ∨ Partition.TenantID (row id) = None) →
  succeeds (registered prow tenant) (id ← ulid_Make; wrapping s (UpsertPartition (row id)))
    (λ _, registered prow tenant).
Proof.
  intros Hp Ht. eapply succeeds_bind; [apply succeeds_env|]. intros id.
  by apply succeeds_wrapping, succeeds_UpsertPartition.
Qed.

Lemma succeeds_createInTx prow tenant k todo nd :
  well_named prow tenant →
  succeeds (registered prow tenant) (createInTx prow tenant todo nd k) (λ _, registered prow tenant).
Proof.
  intros (Hs & Ht & Hten). unfold createInTx. apply succeeds_in_tx.
  eapply succeeds_bind with (T := λ _, registered prow tenant).
  - apply succeeds_forM. intros b _. unfold create_bounded.
    destruct (Build_succeeds (bounded_name prow tenant k b)) as (fq & cs & ct & -> & Hfq).
    { unfold build_valid. cbn. rewrite Hs, Ht. cbn.
      destruct (default "" tenant) eqn:Hd; [done|]. by destruct Hten. }
    apply succeeds_bind_Ok. rewrite Hfq. eapply succeeds_bind.
    { apply succeeds_wrapping, succeeds_Exec. }
    intros n. cbv beta. apply succeeds_insert; auto.
  - intros _. destruct nd; [|by apply succeeds_ret]. unfold create_default.
    destruct (Build_succeeds (default_name prow k)) as (fq & cs & ct & -> & Hfq).
    { unfold build_valid. cbn. by rewrite Hs, Ht. }
    apply succeeds_bind_Ok. rewrite Hfq. eapply succeeds_bind.
    { apply succeeds_wrapping, succeeds_Exec. }
    intros n. cbv beta. apply succeeds_insert; auto.
Qed.

Lemma ensure_succeeds label prow tenant k w :
  parseIntervalLabel (Parent.PartitionInterval prow) = Ok k →
  hasTenantCol prow = negb (bool_decide (tenant = None)) →
  well_named prow tenant → registered prow tenant (db w) →
  ∃ rep w', ensure label prow tenant w = (Ret rep, w').
Proof.
  intros Hk Ht Hwn Hreg. unfold ensure. rewrite Hk, Ht.
  replace (negb (bool_decide (tenant = None)) && bool_decide (tenant = None)) with false
    by (by destruct (bool_decide _)).
  replace (negb (negb (bool_decide (tenant = None))) && negb (bool_decide (tenant = None))) with false
    by (by destruct (bool_decide _)).
  rewrite bind_wrapping_Ok, bind_Now. destruct (target_Ok prow k (tick w) Hk) as [bs Hbs].
  unfold target in Hbs. rewrite Hbs, bind_lift_Ok. set (w1 := mkWorld _ _ _).
  erewrite bind_Ret.
  2:{ apply wrapping_Ret. unfold ListPartitionsForParent. rewrite quiet_meta_read. reflexivity. }
  cbv zeta. set (w2 := mkWorld (db w1) _ _). set (existing := list_partitions _ _).
  set (todo := filter _ bs).
  assert (∀ (nd : bool) (w3 : World C), db w3 = db w → ∃ rep w',
    (if bool_decide (length todo = 0%nat) && negb nd then mret no_report
     else
       Do (retryPolicy "provisioner-ensure") (createInTx prow tenant todo nd k) ;;
       (if 0 <? Z.of_nat (length todo)
        then emit (Counter "partman.partitions_created_total" (Z.of_nat (length todo)) ["parent"; label])
        else mret tt) ;;
       (if nd then emit (Counter "partman.default_partitions_created_total" 1 ["parent"; label])
        else mret tt) ;;
       mret (mkEnsureReport (Z.of_nat (length todo)) nd)) w3 = (Ret rep, w')) as Hgo.
  { intros nd w3 Hd. destruct (_ && _); [by eexists _, _|].
    assert (registered prow tenant (db w3)) as Hw3 by (by rewrite Hd).
    destruct (succeeds_Do _ (retryPolicy "provisioner-ensure") _ _
                (succeeds_createInTx prow tenant k todo nd Hwn) w3 Hw3) as ([] & w4 & Hdo & _).
    rewrite (bind_Ret _ _ _ _ _ Hdo).
    destruct (counters_run label (Z.of_nat (length todo)) nd
                (mkEnsureReport (Z.of_nat (length todo)) nd) w4) as (w5 & Hrun & _).
    by eexists _, _. }
  destruct (get_default (Parent.ID prow, None) (scanned (tick w2) (meta (db w2)))) as [r|e] eqn:Hdef.
  - erewrite bind_Ret.
    2:{ apply attempt_Ret. unfold GetDefaultPartition. rewrite quiet_meta_read, Hdef. reflexivity. }
    by apply (Hgo false).
  - assert (e = NoRows) as -> by (unfold get_default in Hdef; case_match; by simplify_eq).
    erewrite bind_Ret.
    2:{ apply attempt_Fail. unfold GetDefaultPartition. rewrite quiet_meta_read, Hdef. reflexivity. }
    by apply (Hgo true).
Qed.

(** A run in which nothing fails: what is there at the end, and what was
    added. *)
Lemma EnsurePartitions_runs parent tenant prow k w :
  (∀ i j, env_ulid i = env_ulid j → i = j) →
  get_parent (ParentRef.SchemaName parent, ParentRef.TableName parent) (meta (db w)) = Ok prow →
  parseIntervalLabel (Parent.PartitionInterval prow) = Ok k →
  hasTenantCol prow = negb (bool_decide (tenant = None)) →
  well_named prow tenant → registered prow tenant (db w) →
  (∀ n bs, target prow k n = Ok bs → nameable k bs ∧ ready prow tenant k bs w) →
  ∃ rep w' n bs, EnsurePartitions parent tenant w = (Ret rep, w') ∧
    (tick w <= n < tick w')%nat ∧ target prow k n = Ok bs ∧ complete prow tenant bs (meta (db w')) ∧
    only_adds (added prow tenant k) (db w) (db w') ∧ freshens w w'.
Proof.
  intros Hids Hp Hk Ht Hwn Hreg Hpre.
  destruct (EnsurePartitions_load parent tenant prow w Hp) as (label & f & w1 & Hl & Hf & ->).
  assert (registered prow tenant (db w1)) as Hreg1 by (destruct Hl as [-> _]; exact Hreg).
  destruct (ensure_succeeds label prow tenant k w1 Hk Ht Hwn Hreg1) as (rep & w2 & Hrun).
  destruct (Hf w2) as (w3 & Hw3 & [Hd3 Ht3]). destruct Hl as [Hd1 Ht1].
  destruct (ensure_ok prow tenant k Hids Hk label w1 (Ret rep) w2) as [[_ Hno]|(n & bs & Hclock & Hbs & _ & Hc)];
    [|exact Hrun|by destruct (Hno rep)|].
  - intros n bs Hbs. destruct (Hpre n bs Hbs). split; [done|]. by eapply closed.
  - exists rep, w3, n, bs. split_and!; [|lia|lia|done|..].
    + unfold deferring. by rewrite Hrun, Hw3.
    + rewrite Hd3. by apply (Hc rep).
    + rewrite Hd3, <- Hd1. by apply (Stable_ensure_adds label prow tenant k Hk _ _ _ Hrun).
    + transitivity w1; [by apply effect_later|].
      transitivity w2; [exact (Stable_ensure_freshens Hids _ _ _ _ _ _ Hrun)|]. by apply effect_later.
Qed.

(** C4: total correctness. When no statement fails and PostgreSQL accepts the
    DDL, [EnsurePartitions] on a registered daily, weekly or monthly parent
    (and tenant) whose identifiers are words, with fresh ids and with target
    names and bounds that no row but the pair's own active partitions and
    default occupies, returns, and every period of the target set, computed
    from a reading of the clock during the call, has its active partition
    row, and the parent its default. *)
Theorem EnsurePartitions_total parent tenant prow k w :
  (∀ i j, env_ulid i = env_ulid j → i = j) →
  get_parent (ParentRef.SchemaName parent, ParentRef.TableName parent) (meta (db w)) = Ok prow →
  parseIntervalLabel (Parent.PartitionInterval prow) = Ok k →
  hasTenantCol prow = negb (bool_decide (tenant = None)) →
  well_named prow tenant → registered prow tenant (db w) →
  (∀ n bs, target prow k n = Ok bs → nameable k bs ∧ ready prow tenant k bs w) →
  ∃ rep w' n bs, EnsurePartitions parent tenant w = (Ret rep, w') ∧
    (tick w <= n < tick w')%nat ∧ target prow k n = Ok bs ∧ complete prow tenant bs (meta (db w')).
Proof.
  intros Hids Hp Hk Ht Hwn Hreg Hpre.
  destruct (EnsurePartitions_runs parent tenant prow k w) as (rep & w' & n & bs & ? & ? & ? & ? & _); [done..|].
  by exists rep, w', n, bs.
Qed.
End atomic.

(** ** Examples *)

Definition daily_events : Parent.row := events None "daily" thirty_days 2.
Definition app_events : ParentRef.t := ParentRef.mk "app" "events".
Definition daily_world : World (list string) := start (mkMeta [daily_events] [] []).
(** The second commit of a call fails: its reply is lost. *)
Definition lossy : Env (list string) :=
  scenario no_rows (λ n, if (n =? 18)%nat then Some (Applied (PgError "08006")) else None) (λ _, noon).

(** The periods a clock that stands still asks for. *)
Definition years_ok (bs : list Bounds) : bool :=
  forallb (λ b, (0 <=? Year (From b)) && (Year (From b) <=? 9999)) bs.

Lemma nameable_check k now count bs :
  k ≠ kindUnknown → k ≠ kindHourly →
  NextBoundsUTC now (canonicalIntervalFor k) count = Ok bs → years_ok bs = true → nameable k bs.
Proof.
  intros Hk Hh Hbs Hy. split_and!; [done|done|]. intros b Hb. split.
  - by eapply NextBoundsUTC_member.
  - unfold years_ok in Hy. rewrite forallb_forall in Hy. apply list_elem_of_In in Hb.
    specialize (Hy b Hb). apply andb_true_iff in Hy as [H1%Z.leb_le H2%Z.leb_le]. done.
Qed.

Lemma ready_no_rows {C} {E : Env C} prow tenant k bs (w : World C) :
  rows_of w = [] → ready prow tenant k bs w.
Proof.
  intros Hr. split; rewrite Hr; [intros ? ? _|intros ?|intros ? ?]; by intros ?%not_elem_of_nil.
Qed.

Lemma daily_target_ok {E : Env (list string)} n bs :
  (∀ i, env_now i = noon) →
  target (E := E) daily_events kindDaily n = Ok bs →
  nameable kindDaily bs ∧ ready daily_events None kindDaily bs daily_world.
Proof.
  intros Hnow Ht. split; [|by apply ready_no_rows].
  eapply nameable_check; [done|done|exact Ht|].
  unfold target in Ht. rewrite Hnow in Ht.
  assert (NextBoundsUTC (UTC noon) (canonicalIntervalFor kindDaily) (Parent.Premake daily_events + 1)
          = Ok bs → years_ok bs = true) as Hc; [|by apply Hc].
  clear. set (r := NextBoundsUTC _ _ _). 
  assert (match r with Ok bs => years_ok bs | Err _ => true end = true) as Hr by (vm_compute; reflexivity).
  intros Heq. by rewrite Heq in Hr.
Qed.

Lemma EnsurePartitions_total_witness :
  ∃ rep w' n bs, EnsurePartitions (E := calm noon) app_events None daily_world = (Ret rep, w') ∧
    (0 <= n < tick w')%nat ∧ target (E := calm noon) daily_events kindDaily n = Ok bs ∧
    complete daily_events None bs (meta (db w')).
Proof.
  apply (EnsurePartitions_total (E := calm noon)).
  - intros sql c. do 2 eexists. reflexivity.
  - exact unary_id_inj.
  - reflexivity.
  - reflexivity.
  - reflexivity.
  - split_and!; [reflexivity|reflexivity|by left].
  - split; [reflexivity|done].
  - intros n bs. by apply daily_target_ok.
Defined.

Lemma EnsurePartitions_all_or_nothing_witness :
  let r := EnsurePartitions (E := lossy) app_events None daily_world in
  (db r.2 = db daily_world ∧ ∀ rep, r.1 ≠ Ret rep) ∨
  ∃ n bs, (0 <= n < tick r.2)%nat ∧ target (E := lossy) daily_events kindDaily n = Ok bs ∧
    (db r.2 = db daily_world ∨ complete daily_events None bs (meta (db r.2))) ∧
    (∀ rep, r.1 = Ret rep → complete daily_events None bs (meta (db r.2))).
Proof.
  intros r. apply (EnsurePartitions_all_or_nothing (E := lossy) app_events None daily_events kindDaily).
  - exact unary_id_inj.
  - reflexivity.
  - reflexivity.
  - intros n bs. by apply daily_target_ok.
  - apply surjective_pairing.
Defined.

Lemma EnsurePartitions_only_adds_witness :
  let r := EnsurePartitions (E := lossy) app_events None daily_world in
  meta (db r.2) = meta (db daily_world) ∨
  ∃ prow k, get_parent ("app", "events") (meta (db daily_world)) = Ok prow ∧
    parseIntervalLabel (Parent.PartitionInterval prow) = Ok k ∧
    hasTenantCol prow = negb (bool_decide (@None string = None)) ∧
    only_adds (added (E := lossy) prow None k) (db daily_world) (db r.2).
Proof.
  intros r. apply (EnsurePartitions_only_adds (E := lossy) app_events None daily_world r.1).
  apply surjective_pairing.
Defined.

(** A second call on the world the first one left. *)
Definition provisioned_world : World (list string) :=
  Eval vm_compute in (EnsurePartitions (E := calm noon) app_events None daily_world).2.

Definition complete_check (prow : Parent.row) (tenant : option string) (bs : list Bounds) (m : Meta) : bool :=
  forallb (λ b, existsb (λ r,
      bool_decide (Partition.ParentTableID r = Parent.ID prow) && in_existing tenant r
      && bool_decide (boundsKey (row_bounds r) = boundsKey b)) (partitions m)) bs
  && existsb (λ r, bool_decide (Partition.owner r = (Parent.ID prow, None)) && Partition.IsDefault r)
       (partitions m).

Lemma complete_check_sound prow tenant bs m :
  complete_check prow tenant bs m = true → complete prow tenant bs m.
Proof.
  unfold complete_check. rewrite andb_true_iff, forallb_forall, existsb_true.
  intros [Hb (r & Hr & [Ho%bool_decide_eq_true Hd]%andb_true_iff)]. split; [|by exists r].
  intros b Hin%list_elem_of_In. specialize (Hb b Hin). apply existsb_true in Hb as (r' & Hr' & Hc).
  rewrite !andb_true_iff, !bool_decide_eq_true in Hc. exists r'.
  split; [done|]. unfold covers. tauto.
Qed.

Lemma EnsurePartitions_idempotent_witness :
  ∃ w', EnsurePartitions (E := calm noon) app_events None provisioned_world = (Ret no_report, w') ∧
    db w' = db provisioned_world.
Proof.
  apply (EnsurePartitions_idempotent (E := calm noon) app_events None daily_events kindDaily).
  - reflexivity.
  - reflexivity.
  - reflexivity.
  - intros n bs. unfold target. cbn [env_now calm scenario].
    set (r := NextBoundsUTC _ _ _).
    assert (match r with Ok bs => complete_check daily_events None bs (meta (db provisioned_world))
            | Err _ => true end = true) as Hr by (vm_compute; reflexivity).
    intros Heq. rewrite Heq in Hr. by apply complete_check_sound.
Defined.

(** Hourly parents.  The names of the hours of one day are the same, so the
    first hour takes the day: on an empty hourly parent with [premake = 2] at
    noon, [EnsurePartitions] reports three partitions and records one, and
    the next call reports the two missing ones as created again and still
    records nothing. *)
Theorem hourly_premake_lost :
  let E := calm noon in
  let hourly := events None "hourly" thirty_days 2 in
  let r1 := EnsurePartitions app_events None (start (mkMeta [hourly] [] [])) in
  let r2 := EnsurePartitions app_events None r1.2 in
  r1.1 = Ret (mkEnsureReport 3 true) ∧
  Partition.Name <$> partitions (meta (db r1.2)) = ["app.events_20260615"; "app.events_default"] ∧
  r2.1 = Ret (mkEnsureReport 2 false) ∧ meta (db r2.2) = meta (db r1.2).
Proof. cbv zeta. split_and!; vm_compute; reflexivity. Qed.
