(* ===== verification/Retention.v ===== *)
(** * Retention ([internal/retention], [internal/hooks])

    [Sweep] drops, detaches or archives the partitions behind the retention
    cutoff, one transaction each, as the user's hook decides; [DropAll] drops
    every partition of a parent.  The hook is a call like any other: it may
    fail to leave the world alone, or panic. *)

From S2P Require Import Prelude GoTime GoStrings Errs Naming Store World Logic Repo Retry.
Local Open Scope string_scope.
Local Open Scope Z_scope.

(** ** Hooks ([hooks.go]) *)

(** [type HookDecision int], with its four constants. *)
Inductive HookDecision := HookDrop | HookDetach | HookArchive | HookSkip | HookOther (d : Z).

#[export] Instance HookDecision_eq_dec : EqDecision HookDecision.
Proof. solve_decision. Defined.

Record PartitionRef := mkPartitionRef {
  RefBounds : Bounds;
  Schema : string;
  RefParent : string;
  RefTenantId : string;
  RefIsDefault : bool
}.
Definition zero_PartitionRef : PartitionRef := mkPartitionRef zero_Bounds "" "" "" false.

(** A [nil] hook is [None]. *)
Definition Hook (C : Type) : Type := option (PartitionRef → M C HookDecision).

(** ** The cutoff ([cutoff.go]) *)

Definition computeCutoff (now : Time) (iv : PgInterval) : Time :=
  if negb (IntervalValid iv) then now
  else
    let out := now in
    let out := if Months iv =? 0 then out else AddDate out 0 (wrap32 (- Months iv)) 0 in
    let out := if Days iv =? 0 then out else AddDate out 0 0 (wrap32 (- Days iv)) in
    if Microseconds iv =? 0 then out
    else Add out (wrap64 (wrap64 (- Microseconds iv) * Microsecond)).

(** ** Options ([options.go]) *)

Record sweepOptions := mkSweepOptions { dryRun : bool }.
Definition SweepOption : Type := sweepOptions → sweepOptions.
Definition WithDryRun (v : bool) : SweepOption := λ _, mkSweepOptions v.
Definition evalSweepOptions (opts : list SweepOption) : sweepOptions :=
  fold_left (λ o opt, opt o) opts (mkSweepOptions false).

(** ** The sweep ([retention.go]) *)

Record SweepReport := mkSweepReport {
  Dropped : list PartitionRef;
  Detached : list PartitionRef;
  Archived : list PartitionRef;
  Skipped : list PartitionRef;
  Considered : Z;
  DryRun : bool
}.

Definition add_dropped (ref : PartitionRef) (r : SweepReport) : SweepReport :=
  mkSweepReport (Dropped r ++ [ref])%list (Detached r) (Archived r) (Skipped r) (Considered r) (DryRun r).
Definition add_detached (ref : PartitionRef) (r : SweepReport) : SweepReport :=
  mkSweepReport (Dropped r) (Detached r ++ [ref])%list (Archived r) (Skipped r) (Considered r) (DryRun r).
Definition add_archived (ref : PartitionRef) (r : SweepReport) : SweepReport :=
  mkSweepReport (Dropped r) (Detached r) (Archived r ++ [ref])%list (Skipped r) (Considered r) (DryRun r).
Definition add_skipped (ref : PartitionRef) (r : SweepReport) : SweepReport :=
  mkSweepReport (Dropped r) (Detached r) (Archived r) (Skipped r ++ [ref])%list (Considered r) (DryRun r).

Definition splitFQ (fq : string) : option (string * string) := Cut "." fq.

Definition hasRetentionSchema (t : option string) : bool :=
  match t with Some s => negb (bool_decide (s = "")) | None => false end.

Definition decisionLabel (d : HookDecision) : string :=
  match d with
  | HookDrop => "drop"
  | HookDetach => "detach"
  | HookArchive => "archive"
  | HookSkip => "skip"
  | HookOther _ => "unknown"
  end.

Definition buildPartitionRef (parentTable : string) (row : Partition.row) : res PartitionRef :=
  match splitFQ (Partition.Name row) with
  | None => Err (Msg "bad partition name")
  | Some (childSchema, _) =>
      Ok (mkPartitionRef
            (mkBounds (UTC (Partition.BoundsFrom row)) (UTC (Partition.BoundsTo row)))
            childSchema parentTable (default "" (Partition.TenantID row)) (Partition.IsDefault row))
  end.

Definition retryPolicy (op : string) : Policy :=
  mkPolicy true op (MaxAttempts Default) (BaseDelay Default) (MaxDelay Default) (Jitter Default).

Section retention.
Context {C : Type} {E : Env C}.

(** ** SQL text ([sql.go]) *)

Definition buildDropDDL (childSchema childTable : string) : string :=
  "DROP TABLE " +:+ Sanitize [childSchema; childTable] +:+ " CASCADE".
Definition buildDropIfExistsDDL (childSchema childTable : string) : string :=
  "DROP TABLE IF EXISTS " +:+ Sanitize [childSchema; childTable] +:+ " CASCADE".
Definition buildDetachDDL (parentSchema parentTable childSchema childTable : string) : string :=
  "ALTER TABLE " +:+ Sanitize [parentSchema; parentTable]
    +:+ " DETACH PARTITION " +:+ Sanitize [childSchema; childTable].
Definition buildSetSchemaDDL (childSchema childTable targetSchema : string) : string :=
  "ALTER TABLE " +:+ Sanitize [childSchema; childTable]
    +:+ " SET SCHEMA " +:+ Sanitize [targetSchema].

Definition applyDecision (prow : Parent.row) (row : Partition.row) (decision : HookDecision)
    : M C unit :=
  match splitFQ (Partition.Name row) with
  | None => fail (Msg "bad partition name")
  | Some (childSchema, childTable) =>
      in_tx "begin tx" "commit"
        (match decision with
         | HookDrop =>
             wrapping "drop" (Exec (buildDropDDL childSchema childTable) []) ;;
             wrapping "mark dropped" (MarkPartitionDropped (Partition.ID row))
         | HookDetach =>
             wrapping "detach"
               (Exec (buildDetachDDL (Parent.SchemaName prow) (Parent.TableName prow)
                        childSchema childTable) []) ;;
             wrapping "mark detached" (MarkPartitionDetached (Partition.ID row))
         | HookArchive =>
             wrapping "archive detach"
               (Exec (buildDetachDDL (Parent.SchemaName prow) (Parent.TableName prow)
                        childSchema childTable) []) ;;
             wrapping "archive set schema"
               (Exec (buildSetSchemaDDL childSchema childTable
                        (default "" (Parent.RetentionSchema prow))) []) ;;
             wrapping "mark archived" (MarkPartitionDetached (Partition.ID row))
         | _ => fail (Msg "unknown HookDecision")
         end)
  end.

Definition dropOne (childSchema childTable partitionID : string) : M C unit :=
  in_tx "begin tx" "commit"
    (wrapping "drop" (Exec (buildDropIfExistsDDL childSchema childTable) []) ;;
     wrapping "mark dropped" (MarkPartitionDropped partitionID)).

Definition skipped_counter (parentLabel reason : string) : M C unit :=
  emit (Counter "partman.retention_skipped_total" 1 ["parent"; parentLabel; "reason"; reason]).

(** The decision on one candidate. *)
Definition decide_hook (hook : Hook C) (ref : PartitionRef) : M C HookDecision :=
  match hook with Some h => h ref | None => mret HookDrop end.

(** The reports of the two [switch]es. *)
Definition dry_report (decision : HookDecision) (ref : PartitionRef) (report : SweepReport) : SweepReport :=
  match decision with
  | HookDrop => add_dropped ref report
  | HookDetach => add_detached ref report
  | HookArchive => add_archived ref report
  | HookSkip => add_skipped ref report
  | HookOther _ => add_skipped ref report
  end.
Definition done_report (parentLabel : string) (decision : HookDecision) (ref : PartitionRef)
    (report : SweepReport) : M C SweepReport :=
  match decision with
  | HookDrop =>
      emit (Counter "partman.partitions_dropped_total" 1 ["parent"; parentLabel]) ;;
      mret (add_dropped ref report)
  | HookDetach =>
      emit (Counter "partman.partitions_detached_total" 1 ["parent"; parentLabel]) ;;
      mret (add_detached ref report)
  | HookArchive =>
      emit (Counter "partman.partitions_archived_total" 1 ["parent"; parentLabel]) ;;
      mret (add_archived ref report)
  | _ => mret report
  end.

(** One round of the loop of [Sweep]. *)
Definition sweep_one (hook : Hook C) (o : sweepOptions) (parentLabel : string) (prow : Parent.row)
    (report : SweepReport) (row : Partition.row) : M C SweepReport :=
  match buildPartitionRef (Parent.TableName prow) row with
  | Err _ => skipped_counter parentLabel "bad_metadata" ;; mret (add_skipped zero_PartitionRef report)
  | Ok ref =>
      decision ← decide_hook hook ref;
      if bool_decide (decision = HookArchive) && negb (hasRetentionSchema (Parent.RetentionSchema prow))
      then skipped_counter parentLabel "missing_archive_schema" ;; mret (add_skipped ref report)
      else if dryRun o then mret (dry_report decision ref report)
      else if bool_decide (decision = HookSkip)
      then skipped_counter parentLabel "hook_skip" ;; mret (add_skipped ref report)
      else
        applyErr ← attempt (Do (retryPolicy "retention-apply") (applyDecision prow row decision));
        match applyErr with
        | Err _ => skipped_counter parentLabel "ddl_error" ;; mret (add_skipped ref report)
        | Ok _ => done_report parentLabel decision ref report
        end
  end.

Definition empty_report (o : sweepOptions) (n : Z) : SweepReport :=
  mkSweepReport [] [] [] [] n (dryRun o).

(** [Sweep] after the parent is loaded. *)
Definition sweep (hook : Hook C) (o : sweepOptions) (parentLabel : string) (prow : Parent.row)
    : M C (SweepReport * option error) :=
  now ← Now;
  let cutoff := computeCutoff (UTC now) (Parent.RetentionPeriod prow) in
  r ← attempt (ListExpiredPartitions (Parent.ID prow) cutoff);
  match r with
  | Err e => mret (empty_report o 0, Some (Wrap "retention: list expired" e))
  | Ok candidates =>
      report ← foldM (sweep_one hook o parentLabel prow)
                 (empty_report o (Z.of_nat (length candidates))) candidates;
      mret (report, None)
  end.

(** [func (p *Impl) Sweep(ctx, parent, opts...) (SweepReport, error)], which
    returns a report with its error. *)
Definition Sweep (hook : Hook C) (schema table : string) (opts : list SweepOption)
    : M C (SweepReport * option error) :=
  let o := evalSweepOptions opts in
  let parentLabel := schema +:+ "." +:+ table in
  start ← Now;
  deferring
    (now ← Now;
     emit (Histogram "partman.retention_duration_seconds" (Sub now start) ["parent"; parentLabel]))
    (r ← attempt (GetParentTable schema table);
     match r with
     | Err e =>
         mret (empty_report o 0,
               Some (if Is e NoRows then Wrap "%w: %s.%s" (Sentinel ErrParentNotFound)
                     else Wrap "retention: load parent" e))
     | Ok prow => sweep hook o parentLabel prow
     end).

Definition DropAll (schemaName tableName : string) : M C unit :=
  r ← attempt (GetParentTable schemaName tableName);
  match r with
  | Err e => if Is e NoRows then mret tt else fail (Wrap "retention: load parent" e)
  | Ok prow =>
      rows ← wrapping "retention: list partitions" (ListPartitionsForParent (Parent.ID prow));
      forM (λ row,
        match splitFQ (Partition.Name row) with
        | None => fail (Msg "retention: unexpected FQ shape")
        | Some (childSchema, childTable) =>
            wrapping "retention: drop"
              (Do (retryPolicy "retention-drop")
                 (dropOne childSchema childTable (Partition.ID row)))
        end) rows
  end.

Lemma Stable_Sweep_meta hook schema table opts :
  (∀ h ref, hook = Some h → Stable meta_steps (h ref)) →
  Stable meta_steps (Sweep hook schema table opts).
Proof.
  intros Hh. unfold Sweep, sweep, sweep_one, decide_hook, applyDecision, done_report, skipped_counter.
  stable; by apply Hh.
Qed.
Lemma Stable_DropAll_meta schema table : Stable meta_steps (DropAll schema table).
Proof. unfold DropAll, dropOne. stable. Qed.
End retention.
