(* ===== verification/Sweep.v ===== *)
(** * What the retention promises

    The contract of [Sweep] and [DropAll], against [Retention]: only expired
    partitions of the parent are touched, by the DDL of their own tables; the
    report accounts for every candidate and agrees with the metadata; a dry
    run changes nothing; a sweep that meets no failure leaves no expired
    partition active. *)

From S2P Require Import Prelude GoTime GoStrings Errs Naming Store World Logic Repo Retry Retention Scenario.
Local Open Scope string_scope.
Local Open Scope Z_scope.

(** ** Status changes *)

(** [r'] is [r], or [r] retired, when [Q r]. *)
Definition retired_if (Q : Partition.row → Prop) (r r' : Partition.row) : Prop :=
  r' = r ∨ (Q r ∧ Partition.Status r' ≠ active ∧ r' = Partition.set_status (Partition.Status r') r).

Section touches.
Context {C : Type} {E : Env C}.

Definition ddl_step (D : string → Prop) (c c' : C) : Prop :=
  ∃ sql n, D sql ∧ pg_exec sql [] c = Ok (n, c').

(** The metadata change by retiring rows that satisfy [Q], the catalog by
    statements that satisfy [D]. *)
Definition touches (Q : Partition.row → Prop) (D : string → Prop) (d d' : DB C) : Prop :=
  parent_tables (meta d') = parent_tables (meta d) ∧ tenants (meta d') = tenants (meta d) ∧
  Forall2 (retired_if Q) (partitions (meta d)) (partitions (meta d')) ∧
  rtc (ddl_step D) (catalog d) (catalog d').

Lemma retired_if_trans Q r1 r2 r3 :
  (∀ s r, Q (Partition.set_status s r) → Q r) →
  retired_if Q r1 r2 → retired_if Q r2 r3 → retired_if Q r1 r3.
Proof.
  intros HQ [->|(HQ1 & Hs1 & H1)]; [done|]. intros [->|(HQ2 & Hs2 & H2)].
  - right. by split_and!.
  - right. split_and!; [done|done|]. rewrite H2. rewrite H1. done.
Qed.

Lemma touches_preorder Q D :
  (∀ s r, Q (Partition.set_status s r) → Q r) → PreOrder (touches Q D).
Proof.
  intros HQ. split.
  - intros d. split_and!; [done..| |apply rtc_refl]. apply Forall_Forall2_diag, Forall_true.
    intros r. by left.
  - intros d1 d2 d3 (H1 & H2 & H3 & H4) (H5 & H6 & H7 & H8). split_and!; [congruence..| |by etrans].
    eapply Forall2_trans; [|exact H3|exact H7]. intros r1 r2 r3. by apply retired_if_trans.
Qed.

(** The rows with one of the given ids. *)
Definition with_id (ids : list string) (r : Partition.row) : Prop := Partition.ID r ∈ ids.
#[export] Instance touches_ids_preorder ids D : PreOrder (touches (with_id ids) D).
Proof. apply touches_preorder. by intros s []. Qed.

Lemma Stable_mark_touches ids D s id :
  id ∈ ids → s ≠ active →
  Stable (on_db (touches (with_id ids) D)) (meta_write (λ m, Ok (tt, mark s id m)) : M C unit).
Proof.
  intros Hid Hs. apply Stable_meta_write; [apply _|]. intros w x m' H.
  apply Ok_inj in H as [= <- <-]. split_and!; [done..| |apply rtc_refl].
  cbn. apply Forall2_fmap_r, Forall_Forall2_diag, Forall_true. intros r.
  unfold compose. case_bool_decide as Hr; [|by left]. right. unfold with_id. rewrite Hr. by split_and!.
Qed.
Lemma Stable_Exec_touches ids (D : string → Prop) sql :
  D sql → Stable (on_db (touches (with_id ids) D)) (Exec sql []).
Proof.
  intros HD. apply Stable_statement; [apply _|]. intros w a d'.
  destruct (pg_exec _ _ _) as [[n c]|] eqn:Hx; [|done]. cbn. intros [= <- <-].
  split_and!; [done..| |apply rtc_once; by exists sql, n].
  apply Forall_Forall2_diag, Forall_true. intros r. by left.
Qed.

Lemma Stable_later {A} (R : relation (World C)) `{!Effect R} (m : M C A) :
  Stable later m → Stable R m.
Proof. intros Hm. eapply Stable_weaken; [exact Hm|]. intros w w'. by apply effect_later. Qed.

(** The statements [Sweep] may issue for [row]. *)
Definition retire_ddl (prow : Parent.row) (row : Partition.row) (sql : string) : Prop :=
  ∃ cs ct, splitFQ (Partition.Name row) = Some (cs, ct) ∧
    (sql = buildDropDDL cs ct ∨
     sql = buildDetachDDL (Parent.SchemaName prow) (Parent.TableName prow) cs ct ∨
     sql = buildSetSchemaDDL cs ct (default "" (Parent.RetentionSchema prow))).

Lemma Stable_applyDecision (D : string → Prop) prow row decision :
  (∀ sql, retire_ddl prow row sql → D sql) →
  Stable (on_db (touches (with_id [Partition.ID row]) D)) (applyDecision prow row decision).
Proof.
  intros HD. unfold applyDecision, MarkPartitionDropped, MarkPartitionDetached.
  stable; try (apply Stable_mark_touches; [by left|done]);
    apply Stable_Exec_touches, HD; do 2 eexists; (split; [eassumption|]); auto.
Qed.
End touches.

(** The hook only decides; it may use the meter. *)
Definition passive {C} (hook : Hook C) : Prop := ∀ h ref, hook = Some h → Stable waits (h ref).

(** ** Only expired partitions are touched *)

Section frame.
Context {C : Type} {E : Env C} {L : EnvLaws E}.

Lemma touches_mono (Q Q' : Partition.row → Prop) D (d d' : DB C) :
  (∀ r, r ∈ partitions (meta d) → Q r → Q' r) → touches Q D d d' → touches Q' D d d'.
Proof.
  intros HQ (H1 & H2 & H3 & H4). split_and!; [done|done| |done].
  eapply Forall2_impl_elem; [exact H3|]. intros r r' Hr [->|(? & ? & ?)]; [by left|].
  right. split_and!; auto.
Qed.

Lemma Stable_decide_hook (R : relation (World C)) `{!Course R} hook ref :
  passive hook → Stable R (decide_hook hook ref).
Proof.
  intros Hh. unfold decide_hook. destruct hook as [h|]; [|stable].
  eapply Stable_weaken; [by apply Hh|]. intros w w'. by apply course_waits.
Qed.

Lemma Stable_sweep_one D hook o label prow report row :
  passive hook → (∀ sql, retire_ddl prow row sql → D sql) →
  Stable (on_db (touches (with_id [Partition.ID row]) D)) (sweep_one hook o label prow report row).
Proof.
  intros Hh HD. unfold sweep_one, skipped_counter, done_report.
  stable; [apply Stable_decide_hook; [apply _|done]|by apply Stable_applyDecision].
Qed.

Lemma list_expired_elem pid cutoff l r :
  r ∈ list_expired pid cutoff l ↔ expired pid cutoff r = true ∧ r ∈ l.
Proof. unfold list_expired. by rewrite merge_sort_Permutation, list_elem_of_filter. Qed.

(** The candidates of a sweep. *)
Lemma candidates_run pid cutoff w o w' :
  attempt (ListExpiredPartitions pid cutoff) w = (o, w') →
  later w w' ∧
  match o with
  | Ret (Ok l) => ∃ n, l = list_expired pid (timestamptz cutoff) (scanned n (meta (db w)))
  | Ret (Err _) => True
  | _ => False
  end.
Proof.
  intros (o1 & [Hl Hr]%meta_read_run & Ho)%attempt_inv. split; [done|].
  destruct o1 as [l|e|]; subst o; [|done|done]. destruct Hr as [n Hr%Ok_inj]. by exists n.
Qed.

Lemma candidates_elem pid cutoff n m c :
  c ∈ list_expired pid cutoff (scanned n m) ↔ expired pid cutoff c = true ∧ c ∈ partitions m.
Proof. rewrite list_expired_elem. unfold scanned. by rewrite env_scan_perm. Qed.

(** The DDL of the expired partitions. *)
Definition expired_ddl (prow : Parent.row) (cutoff : Time) (d : DB C) (sql : string) : Prop :=
  ∃ r, r ∈ partitions (meta d) ∧ expired (Parent.ID prow) cutoff r = true ∧ retire_ddl prow r sql.

(** A run of [Sweep] on a registered parent, after the reads. *)
Lemma Sweep_run hook schema table opts w o w' :
  Sweep hook schema table opts w = (o, w') →
  (later w w' ∧ ∀ rep, o ≠ Ret (rep, None)) ∨
  ∃ prow n k label w1 w2 o1,
    get_parent (schema, table) (meta (db w)) = Ok prow ∧
    let cutoff := timestamptz (computeCutoff (UTC (env_now n)) (Parent.RetentionPeriod prow)) in
    let candidates := list_expired (Parent.ID prow) cutoff (scanned k (meta (db w))) in
    later w w1 ∧
    foldM (sweep_one hook (evalSweepOptions opts) label prow)
      (empty_report (evalSweepOptions opts) (Z.of_nat (length candidates))) candidates w1 = (o1, w2) ∧
    later w2 w' ∧ ∀ rep e, o = Ret (rep, e) → o1 = Ret rep ∧ e = None.
Proof.
  unfold Sweep. cbv zeta. rewrite bind_Now. set (w0 := mkWorld _ _ _).
  assert (later w w0) as Hl0 by apply later_tick.
  intros (o1 & w1 & Hrun & Hl & Ho)%deferring_inv; [|stable].
  apply bind_inv in Hrun as [(r & w2 & Hget & Hrun)|[(e & Hget & He)|[Hget He]]];
    apply attempt_inv in Hget as (og & [Hlg Hg]%meta_read_run & Hog);
    [|left; split; [etrans; [|exact Hl]; by etrans|]; subst o1; by destruct Ho as [->| ->]..].
  assert (later w w2) as Hl2 by (by etrans).
  destruct og as [prow|e|]; [|injection Hog as ->|done].
  - injection Hog as ->. destruct Hg as [_ Hg]. cbn [db w0] in Hg. clear Hl0 Hlg w0.
    unfold sweep in Hrun. rewrite bind_Now in Hrun. cbv zeta in Hrun. set (w3 := mkWorld _ _ _) in Hrun.
    assert (later w w3) as Hl3 by (etrans; [exact Hl2|apply later_tick]).
    apply bind_inv in Hrun as [(r & w4 & [Hl4 Hc]%candidates_run & Hrun)|[(e & [_ []]%candidates_run & _)|[[_ []]%candidates_run _]]].
    destruct r as [candidates|e].
    + destruct Hc as [k ->]. right.
      assert (db w3 = db w) as Hd3 by apply Hl3. rewrite Hd3 in Hrun.
      apply bind_inv in Hrun as [(rep & w5 & Hrun & Hret)|[(e & Hrun & ->)|[Hrun ->]]];
        (do 7 eexists; split; [exact Hg|]; cbv zeta; split; [by etrans|]; split; [exact Hrun|]).
      * injection Hret as <- <-. split; [exact Hl|].
        intros rep' e Hrep. rewrite Hrep in Ho. destruct Ho as [[= -> ->]|[=]]. done.
      * split; [exact Hl|]. intros rep e' ->. by destruct Ho.
      * split; [exact Hl|]. intros rep e' ->. by destruct Ho.
    + left. injection Hrun as <- <-. split; [etrans; [|exact Hl]; by etrans|].
      intros rep ->. by destruct Ho.
  - left. injection Hrun as <- <-. split; [by etrans|]. intros rep ->. by destruct Ho.
Qed.

(** The candidates of a sweep are all it touches. *)
Lemma candidates_touches hook o label prow cutoff k rep w o' w' :
  WF (meta (db w)) → passive hook →
  foldM (sweep_one hook o label prow) rep
    (list_expired (Parent.ID prow) cutoff (scanned k (meta (db w)))) w = (o', w') →
  touches (λ r, expired (Parent.ID prow) cutoff r = true)
    (expired_ddl prow cutoff (db w)) (db w) (db w').
Proof.
  intros Hwf Hh Hrun. set (cs := list_expired _ _ _) in *.
  assert (Stable (on_db (touches (with_id (Partition.ID <$> cs)) (expired_ddl prow cutoff (db w))))
            (foldM (sweep_one hook o label prow) rep cs)) as Hs.
  { apply Stable_foldM; [apply _|]. intros s c Hc.
    eapply Stable_weaken; [apply (Stable_sweep_one (expired_ddl prow cutoff (db w))); [exact Hh|]|].
    - intros sql Hsql. apply (candidates_elem _ _ k) in Hc as [Hc Hin]. by exists c.
    - intros wa wb. apply touches_mono. unfold with_id.
      intros r _ Hr%list_elem_of_singleton. rewrite Hr. by apply list_elem_of_fmap_2. }
  apply Hs in Hrun. eapply touches_mono; [|exact Hrun]. unfold with_id.
  intros r Hr (c & Hid & [Hc Hin]%candidates_elem)%list_elem_of_fmap.
  by rewrite (NoDup_fmap_elem_eq _ _ r c (wf_ids _ Hwf) Hr Hin Hid).
Qed.

(** C11: [Sweep] touches expired partitions only.  Whatever fails, with a hook
    that only decides, a sweep changes nothing but the status of rows of the
    parent that were active, not the default, and whose upper bound is at or
    before the cutoff, and these only from active to detached or dropped; the
    DDL it runs is the DDL of these partitions' own tables. *)
Theorem Sweep_touches_only_expired hook schema table opts w o w' :
  WF (meta (db w)) → passive hook → Sweep hook schema table opts w = (o, w') →
  db w' = db w ∨
  ∃ prow n, get_parent (schema, table) (meta (db w)) = Ok prow ∧
    let cutoff := timestamptz (computeCutoff (UTC (env_now n)) (Parent.RetentionPeriod prow)) in
    touches (λ r, expired (Parent.ID prow) cutoff r = true)
      (expired_ddl prow cutoff (db w)) (db w) (db w').
Proof.
  intros Hwf Hh [[[Hd _] _]|(prow & n & k & label & w1 & w2 & o1 & Hp & Hrun)]%Sweep_run; [by left|].
  cbv zeta in Hrun. destruct Hrun as ([Hd1 _] & Hrun & [Hd2 _] & _). right. exists prow, n.
  split; [done|]. cbv zeta. rewrite <- Hd1 in Hrun, Hwf |- *. rewrite Hd2.
  by eapply candidates_touches.
Qed.

(** A dry run changes nothing: neither metadata nor catalog, whatever the
    hook decides. *)
Theorem Sweep_dry_run hook schema table opts w o w' :
  dryRun (evalSweepOptions opts) = true → passive hook →
  Sweep hook schema table opts w = (o, w') → db w' = db w.
Proof.
  intros Hdry Hh H. enough (Stable later (Sweep hook schema table opts)) as Hs by apply (Hs _ _ _ H).
  unfold Sweep, sweep, sweep_one, skipped_counter. rewrite Hdry. stable. apply Stable_decide_hook; [apply _|done].
Qed.
End frame.

(** ** The report *)

Section report.
Context {C : Type} {E : Env C} {L : EnvLaws E}.

Definition reported (rep : SweepReport) : Z :=
  Z.of_nat (length (Dropped rep) + length (Detached rep) + length (Archived rep) + length (Skipped rep)).

(** Only the three actions can succeed. *)
Definition final_status (d : HookDecision) : option status :=
  match d with
  | HookDrop => Some dropped
  | HookDetach | HookArchive => Some detached
  | _ => None
  end.

(** The row [c], whatever its status. *)
Definition present (c : Partition.row) (w : World C) : Prop :=
  ∃ s, Partition.set_status s c ∈ partitions (meta (db w)).
#[export] Instance Closed_present c : Closed (present c).
Proof. intros w w' H [Hd _]. unfold present. by rewrite Hd. Qed.

Lemma present_touches Q D c w w' :
  touches Q D (db w) (db w') → present c w → present c w'.
Proof.
  intros (_ & _ & Hf & _) [s Hs]. destruct (Forall2_elem_l _ _ _ _ Hf Hs) as (r' & Hr' & Hret).
  destruct Hret as [->|(_ & _ & Heq)]; [by exists s|]. exists (Partition.Status r'). by rewrite Heq in Hr'.
Qed.

Lemma triple_mark c s :
  triple (present c) (meta_write (λ m, Ok (tt, mark s (Partition.ID c) m)) : M C unit)
    (λ _ w, Partition.set_status s c ∈ partitions (meta (db w))).
Proof.
  apply triple_meta_write. intros w a m' [s' Hs] H. apply Ok_inj in H as [= <- <-].
  apply mark_elem. exists (Partition.set_status s' c). split; [done|]. by rewrite bool_decide_true.
Qed.

Lemma triple_Exec_present c sql : triple (present c) (Exec sql []) (λ _, present c).
Proof. by apply triple_Exec. Qed.

Lemma triple_applyDecision prow c d :
  triple (present c) (applyDecision prow c d)
    (λ _ w, ∃ s, final_status d = Some s ∧ Partition.set_status s c ∈ partitions (meta (db w))).
Proof.
  unfold applyDecision, MarkPartitionDropped, MarkPartitionDetached.
  destruct (splitFQ (Partition.Name c)) as [[cs ct]|]; [|apply triple_fail].
  apply triple_in_tx; [apply _|intros a w w' H [Hd _]; by rewrite Hd|].
  destruct d; [| | |apply triple_fail|apply triple_fail].
  - eapply triple_bind; [apply triple_wrapping, triple_Exec_present|]. intros ?.
    eapply triple_weaken; [apply triple_wrapping, triple_mark|done|eauto].
  - eapply triple_bind; [apply triple_wrapping, triple_Exec_present|]. intros ?.
    eapply triple_weaken; [apply triple_wrapping, triple_mark|done|eauto].
  - eapply triple_bind; [apply triple_wrapping, triple_Exec_present|]. intros ?.
    eapply triple_bind; [apply triple_wrapping, triple_Exec_present|]. intros ?.
    eapply triple_weaken; [apply triple_wrapping, triple_mark|done|eauto].
Qed.

Lemma triple_apply prow c d pol :
  triple (present c) (Do pol (applyDecision prow c d))
    (λ _ w, ∃ s, final_status d = Some s ∧ Partition.set_status s c ∈ partitions (meta (db w))).
Proof.
  apply triple_Do; [apply _|intros a w w' H [Hd _]; by rewrite Hd| |apply triple_applyDecision].
  intros w e w' Hp H. eapply present_touches; [|exact Hp].
  eapply (Stable_applyDecision (λ _, True)); [done|exact H].
Qed.

(** No other decision succeeds. *)
Lemma triple_apply_final prow c d pol :
  triple (λ _, True) (Do pol (applyDecision prow c d)) (λ _ _, is_Some (final_status d)).
Proof.
  destruct (final_status d) as [s|] eqn:Hd; [by intros w a w' _ _; eauto|].
  apply triple_Do; [by intros w w'|by intros a w w'|done|].
  unfold applyDecision. destruct (splitFQ _) as [[cs ct]|]; [|apply triple_fail].
  apply triple_in_tx; [by intros w w'|by intros a w w'|]. destruct d; try done; apply triple_fail.
Qed.

Definition counts (n k : Z) (dry : bool) (rep : SweepReport) : Prop :=
  reported rep = n ∧ Considered rep = k ∧ DryRun rep = dry.

Lemma triple_sweep_one_count hook o label prow rep c n k dry :
  counts n k dry rep →
  triple (λ _, True) (sweep_one hook o label prow rep c) (λ rep' _, counts (n + 1) k dry rep').
Proof.
  intros (Hn & Hk & Hd).
  assert (∀ ref, counts (n + 1) k dry (add_dropped ref rep) ∧ counts (n + 1) k dry (add_detached ref rep) ∧
    counts (n + 1) k dry (add_archived ref rep) ∧ counts (n + 1) k dry (add_skipped ref rep)) as Hadd.
  { intros ref. unfold counts, reported in *. cbn. rewrite !length_app. cbn. split_and!; auto; lia. }
  unfold sweep_one, skipped_counter. destruct (buildPartitionRef _ _) as [ref|e].
  2:{ apply triple_emit_ret; [by intros w w'|]. intros. by apply Hadd. }
  destruct (Hadd ref) as (H1 & H2 & H3 & H4).
  eapply (triple_bind _ _ _ _ (λ _ _, True)); [by intros w|]. intros d.
  destruct (_ && _); [apply triple_emit_ret; [by intros w w'|done]|].
  destruct (dryRun o). { apply triple_ret. intros _ _. by destruct d. }
  destruct (bool_decide _); [apply triple_emit_ret; [by intros w w'|done]|].
  eapply (triple_bind _ _ _ _ (λ r _, ∀ u, r = Ok u → is_Some (final_status d))).
  { apply triple_attempt; [done|]. eapply triple_weaken; [apply triple_apply_final|done|done]. }
  intros [u|e]; apply triple_pure; intros Hs.
  - destruct (Hs u eq_refl) as [st Hst]. unfold done_report.
    destruct d; try done; (apply triple_emit_ret; [by intros w w'|done]).
  - apply triple_emit_ret; [by intros w w'|done].
Qed.

(** A sweep accounts for every candidate: the four lists of its report
    hold as many partitions as it considered, and the report carries the
    dry-run option, whatever the hook returns and whatever fails. *)
Theorem Sweep_accounts hook schema table opts w rep w' :
  Sweep hook schema table opts w = (Ret (rep, None), w') →
  reported rep = Considered rep ∧ DryRun rep = dryRun (evalSweepOptions opts).
Proof.
  intros [[_ H]|(prow & n & k & label & w1 & w2 & o1 & _ & Hrun)]%Sweep_run; [by destruct (H rep)|].
  cbv zeta in Hrun. destruct Hrun as (_ & Hrun & _ & Ho). destruct (Ho rep None eq_refl) as [-> _].
  set (cs := list_expired _ _ _) in *. set (o := evalSweepOptions opts) in *.
  assert (∀ l rep0, counts (Z.of_nat (length cs) - Z.of_nat (length l)) (Z.of_nat (length cs)) (dryRun o) rep0 →
    triple (λ _, True) (foldM (sweep_one hook o label prow) rep0 l)
      (λ rep' _, counts (Z.of_nat (length cs)) (Z.of_nat (length cs)) (dryRun o) rep')) as Hfold.
  { induction l as [|c l IH]; intros rep0 Hc; cbn.
    - apply triple_ret. intros _ _. cbn in Hc. by rewrite Z.sub_0_r in Hc.
    - eapply triple_bind; [by eapply triple_sweep_one_count|]. intros rep1. cbv beta. apply triple_pure. intros H1.
      apply IH. replace (_ - Z.of_nat (length l)) with (Z.of_nat (length cs) - Z.of_nat (length (c :: l)) + 1)
        by (cbn; lia). done. }
  eapply Hfold in Hrun; [|by rewrite Z.sub_diag|done].
  destruct Hrun as (? & ? & ?). split; congruence.
Qed.

(** ** The report and the metadata *)

(** Every reported partition has a row of the status, among those whose id
    is not in [ids]. *)
Definition backed (table : string) (st : status) (ids : list string) (rows : list Partition.row)
    (refs : list PartitionRef) : Prop :=
  ∀ ref, ref ∈ refs → ∃ r, r ∈ rows ∧ Partition.ID r ∉ ids ∧
    buildPartitionRef table r = Ok ref ∧ Partition.Status r = st.

Definition agrees (table : string) (ids : list string) (rows : list Partition.row)
    (rep : SweepReport) : Prop :=
  backed table dropped ids rows (Dropped rep) ∧ backed table detached ids rows (Detached rep) ∧
  backed table detached ids rows (Archived rep).

Lemma backed_snoc table st ids rows refs ref r :
  backed table st ids rows refs → r ∈ rows → Partition.ID r ∉ ids →
  buildPartitionRef table r = Ok ref → Partition.Status r = st →
  backed table st ids rows (refs ++ [ref])%list.
Proof.
  intros Hb Hr Hi Href Hst x [Hx| ->%list_elem_of_singleton]%elem_of_app; [by apply Hb|].
  by exists r.
Qed.

(** A round on [c] leaves the other rows alone. *)
Lemma backed_step table st D c ids refs w w' :
  touches (with_id [Partition.ID c]) D (db w) (db w') →
  backed table st (Partition.ID c :: ids) (partitions (meta (db w))) refs →
  backed table st ids (partitions (meta (db w'))) refs.
Proof.
  intros (_ & _ & Hf & _) Hb ref Href. destruct (Hb ref Href) as (r & Hr & Hi & ? & ?).
  apply not_elem_of_cons in Hi as [Hne Hi].
  destruct (Forall2_elem_l _ _ _ _ Hf Hr) as (r' & Hr' & [->|(Hq & _)]); [by exists r|].
  by apply list_elem_of_singleton in Hq.
Qed.

(** The candidates still to come are as they were listed. *)
Definition todo (table : string) (l : list Partition.row) (rep : SweepReport) (w : World C) : Prop :=
  NoDup (Partition.ID <$> l) ∧ (∀ c, c ∈ l → c ∈ partitions (meta (db w))) ∧
  agrees table (Partition.ID <$> l) (partitions (meta (db w))) rep.

Lemma todo_step table D c l rep w w' :
  todo table (c :: l) rep w → touches (with_id [Partition.ID c]) D (db w) (db w') →
  todo table l rep w' ∧ Partition.ID c ∉ Partition.ID <$> l ∧ present c w.
Proof.
  intros (Hnd & Hin & Hd & Hde & Har) Ht. apply NoDup_cons in Hnd as [Hc Hnd].
  split_and!; [|done|].
  - split_and!; [done| |]; [|by split_and!; eapply backed_step].
    intros c' Hc'. destruct Ht as (_ & _ & Hf & _).
    destruct (Forall2_elem_l _ _ _ c' Hf) as (r' & Hr' & [->|(Hq & _)]); [apply Hin; by right|done|].
    apply list_elem_of_singleton in Hq. destruct Hc. rewrite <- Hq. by apply list_elem_of_fmap_2.
  - exists (Partition.Status c). replace (Partition.set_status _ c) with c by (by destruct c).
    apply Hin. by left.
Qed.

Lemma todo_skipped table l rep ref w : todo table l rep w → todo table l (add_skipped ref rep) w.
Proof. done. Qed.

(** What a round adds: a skipped partition, or one that was retired. *)
Definition round (table : string) (c : Partition.row) (rep rep' : SweepReport) (w : World C) : Prop :=
  (∃ ref, rep' = add_skipped ref rep) ∨
  (∃ ref d s, buildPartitionRef table c = Ok ref ∧ final_status d = Some s ∧
     rep' = dry_report d ref rep ∧ Partition.set_status s c ∈ partitions (meta (db w))).

Lemma triple_sweep_one_round hook o label prow rep c :
  passive hook → dryRun o = false →
  triple (present c) (sweep_one hook o label prow rep c)
    (λ rep' w, round (Parent.TableName prow) c rep rep' w).
Proof.
  intros Hh Ho. unfold sweep_one, skipped_counter.
  assert (∀ ref w, round (Parent.TableName prow) c rep (add_skipped ref rep) w) as Hskip
    by (intros; left; by eexists).
  destruct (buildPartitionRef _ _) as [ref|e] eqn:Href.
  2:{ apply triple_emit_ret; [apply _|auto]. }
  eapply (triple_bind _ _ _ _ (λ _, present c)).
  { intros w d w' Hp Hrun. eapply (closed w); [exact Hp|].
    eapply (Stable_decide_hook later); [exact Hh|exact Hrun]. }
  intros d. cbv beta. destruct (_ && _); [apply triple_emit_ret; [apply _|auto]|]. rewrite Ho.
  destruct (bool_decide _); [apply triple_emit_ret; [apply _|auto]|].
  eapply (triple_bind _ _ _ _ (λ r w, ∀ u, r = Ok u →
    ∃ s, final_status d = Some s ∧ Partition.set_status s c ∈ partitions (meta (db w)))).
  { apply triple_attempt; [done|]. eapply triple_weaken; [apply triple_apply|done|eauto]. }
  assert (∀ r : res unit, Closed (λ w : World C, ∀ u, r = Ok u →
    ∃ s, final_status d = Some s ∧ Partition.set_status s c ∈ partitions (meta (db w)))) as Hcl.
  { intros r w w' H [Hd _] u Hu. rewrite Hd. by apply (H u). }
  intros [u|e]; cbv beta; [|apply triple_emit_ret; [apply Hcl|auto]].
  unfold done_report. destruct d; try (by intros w ? ? Hw; destruct (Hw u eq_refl) as (s & ? & _)).
  all: apply triple_emit_ret; [apply (Hcl (Ok u))|]; intros w Hw;
    destruct (Hw u eq_refl) as (s & Hs & Hr); right; by eexists ref, _, s.
Qed.

Lemma todo_round table c l rep rep' w :
  round table c rep rep' w → Partition.ID c ∉ Partition.ID <$> l →
  todo table l rep w → todo table l rep' w.
Proof.
  intros [[ref ->]|(ref & d & s & Href & Hs & -> & Hr)] Hc (Hnd & Hin & Hd & Hde & Har); [done|].
  destruct d; try done; injection Hs as <-; split_and!; try done; split_and!; try done;
    (eapply backed_snoc; [eassumption|exact Hr|exact Hc|exact Href|done]).
Qed.

Lemma triple_sweep_one hook o label prow rep c l :
  passive hook → dryRun o = false →
  triple (todo (Parent.TableName prow) (c :: l) rep) (sweep_one hook o label prow rep c)
    (λ rep' w, todo (Parent.TableName prow) l rep' w).
Proof.
  intros Hh Ho w rep' w' Hw Hrun.
  pose proof (Stable_sweep_one (λ _, True) hook o label prow rep c Hh (λ _ _, I) _ _ _ Hrun) as Ht.
  destruct (todo_step _ _ _ _ _ _ _ Hw Ht) as (Hw' & Hc & Hp).
  eapply todo_round; [|exact Hc|exact Hw']. by eapply triple_sweep_one_round.
Qed.

(** C13: the report agrees with the metadata: after a sweep that returns and
    was no dry run, with a passive hook, every partition it reports dropped
    has a row that is [dropped], every one it reports detached or archived a
    row that is [detached], whatever failed for the others. *)
Theorem Sweep_report_agrees hook schema table opts w rep w' :
  WF (meta (db w)) → passive hook → dryRun (evalSweepOptions opts) = false →
  Sweep hook schema table opts w = (Ret (rep, None), w') →
  ∃ prow, get_parent (schema, table) (meta (db w)) = Ok prow ∧
    agrees (Parent.TableName prow) [] (partitions (meta (db w'))) rep.
Proof.
  intros Hwf Hh Ho [[_ H]|(prow & n & k & label & w1 & w2 & o1 & Hp & Hrun)]%Sweep_run;
    [by destruct (H rep)|].
  cbv zeta in Hrun. destruct Hrun as ([Hd1 _] & Hrun & [Hd2 _] & Hret).
  destruct (Hret rep None eq_refl) as [-> _]. exists prow. split; [done|]. rewrite Hd2.
  set (cs := list_expired _ _ _) in *. set (o := evalSweepOptions opts) in *.
  pose proof (triple_foldM (λ l rep, todo (Parent.TableName prow) l rep)
    (sweep_one hook o label prow) (λ s x l, triple_sweep_one hook o label prow s x l Hh Ho)
    cs (empty_report o (Z.of_nat (length cs)))) as Hfold.
  apply Hfold in Hrun; [by apply Hrun|]. split_and!.
  - unfold cs, list_expired, scanned. rewrite merge_sort_Permutation.
    apply NoDup_fmap_filter. rewrite env_scan_perm. by apply wf_ids.
  - intros c Hc. rewrite Hd1. by apply (candidates_elem _ _ k) in Hc as [_ ?].
  - split_and!; intros ref Href; exfalso; revert Href; apply not_elem_of_nil.
Qed.
End report.

(** ** A sweep that meets no failure *)

(** Retiring the rows of a list, one by one and at once. *)
Definition mark_all (s : status) (cs : list Partition.row) (m : Meta) : Meta :=
  fold_left (λ m c, mark s (Partition.ID c) m) cs m.

Lemma mark_all_elem s cs m r' :
  r' ∈ partitions (mark_all s cs m) ↔
  ∃ r, r ∈ partitions m ∧
       r' = if bool_decide (Partition.ID r ∈ Partition.ID <$> cs) then Partition.set_status s r else r.
Proof.
  revert m. induction cs as [|c cs IH]; intros m.
  { cbn. split; [by exists r'|]. by intros (r & ? & ->). }
  unfold mark_all. cbn [fold_left]. fold (mark_all s cs (mark s (Partition.ID c) m)).
  assert (∀ r, (if bool_decide (Partition.ID (if bool_decide (Partition.ID r = Partition.ID c)
                                              then Partition.set_status s r else r)
                                ∈ Partition.ID <$> cs)
                then Partition.set_status s (if bool_decide (Partition.ID r = Partition.ID c)
                                             then Partition.set_status s r else r)
                else if bool_decide (Partition.ID r = Partition.ID c)
                     then Partition.set_status s r else r) =
               if bool_decide (Partition.ID r ∈ Partition.ID <$> c :: cs)
               then Partition.set_status s r else r) as Heq.
  { intros r. rewrite (mark_update Partition.ID) by done. rewrite fmap_cons.
    destruct (decide (Partition.ID r = Partition.ID c)) as [Hc|Hc],
      (decide (Partition.ID r ∈ Partition.ID <$> cs)) as [Hi|Hi].
    - by rewrite (bool_decide_eq_true_2 _ Hc), (bool_decide_eq_true_2 _ Hi), bool_decide_eq_true_2 by (by right).
    - rewrite (bool_decide_eq_true_2 _ Hc), (bool_decide_eq_false_2 _ Hi), bool_decide_eq_true_2; [done|].
      rewrite Hc. by left.
    - by rewrite (bool_decide_eq_false_2 _ Hc), (bool_decide_eq_true_2 _ Hi), bool_decide_eq_true_2 by (by right).
    - rewrite (bool_decide_eq_false_2 _ Hc), (bool_decide_eq_false_2 _ Hi), bool_decide_eq_false_2; [done|].
      by apply not_elem_of_cons. }
  rewrite IH. split.
  - intros (r1 & (r & Hr & ->)%mark_elem & ->). exists r. split; [done|apply Heq].
  - intros (r & Hr & ->). eexists. split; [apply mark_elem; by exists r|symmetry; apply Heq].
Qed.

Section total.
Context {C : Type} {E : Env C} {L : EnvLaws E} {QE : Quiet E}.
Context (accepts : ∀ sql c, ∃ n c', pg_exec sql [] c = Ok (n, c')).

Lemma succeeds_Exec_meta m sql :
  succeeds (λ d : DB C, meta d = m) (Exec sql []) (λ _ d, meta d = m).
Proof.
  apply succeeds_statement. intros n d Hd. destruct (accepts sql (catalog d)) as (x & c & ->).
  by do 2 eexists.
Qed.
Lemma succeeds_mark_meta m s id :
  succeeds (λ d : DB C, meta d = m) (meta_write (λ m, Ok (tt, mark s id m)) : M C unit)
    (λ _ d, meta d = mark s id m).
Proof. apply succeeds_statement. intros n d <-. by do 2 eexists. Qed.

Lemma succeeds_drop m prow c cs ct :
  splitFQ (Partition.Name c) = Some (cs, ct) →
  succeeds (λ d, meta d = m) (applyDecision prow c HookDrop)
    (λ _ d, meta d = mark dropped (Partition.ID c) m).
Proof.
  intros Hc. unfold applyDecision. rewrite Hc. apply succeeds_in_tx.
  eapply succeeds_bind; [apply succeeds_wrapping, succeeds_Exec_meta|].
  intros n. apply succeeds_wrapping, succeeds_mark_meta.
Qed.

Lemma succeeds_sweep_one m o label prow rep c :
  dryRun o = false → is_Some (splitFQ (Partition.Name c)) →
  succeeds (λ d, meta d = m) (sweep_one None o label prow rep c)
    (λ rep' d, meta d = mark dropped (Partition.ID c) m ∧
       ∃ ref, buildPartitionRef (Parent.TableName prow) c = Ok ref ∧ rep' = add_dropped ref rep).
Proof.
  intros Ho [[cs ct] Hc]. unfold sweep_one.
  destruct (buildPartitionRef (Parent.TableName prow) c) as [ref|e] eqn:Href;
    [|unfold buildPartitionRef in Href; by rewrite Hc in Href].
  intros w Hw. rewrite Ho.
  destruct (succeeds_Do _ (retryPolicy "retention-apply") _ _
              (succeeds_drop m prow c cs ct Hc) w Hw) as ([] & w1 & Hrun & H1).
  eexists _, _. split.
  - cbn [decide_hook]. erewrite bind_Ret; [|reflexivity]. cbn [bool_decide decide_rel andb].
    rewrite (bool_decide_false (HookDrop = HookArchive)), (bool_decide_false (HookDrop = HookSkip)) by done.
    cbn [andb]. erewrite bind_Ret; [|apply attempt_Ret, Hrun]. reflexivity.
  - cbn. split; [exact H1|]. by exists ref.
Qed.

Lemma sweep_fold o label prow l rep m :
  dryRun o = false → (∀ c, c ∈ l → is_Some (splitFQ (Partition.Name c))) →
  succeeds (λ d, meta d = m) (foldM (sweep_one None o label prow) rep l)
    (λ rep' d, meta d = mark_all dropped l m ∧ Skipped rep' = Skipped rep ∧
       length (Dropped rep') = (length (Dropped rep) + length l)%nat ∧
       Considered rep' = Considered rep).
Proof.
  intros Ho. revert rep m. induction l as [|c l IH]; intros rep m Hl; cbn.
  { apply succeeds_ret. intros d ->. split_and!; auto. }
  eapply succeeds_bind; [apply succeeds_sweep_one; [done|apply Hl; by left]|].
  intros rep1 w [Hm (ref & _ & ->)].
  destruct (IH (add_dropped ref rep) (mark dropped (Partition.ID c) m)) with (w := w)
    as (rep' & w' & Hrun & H1 & H2 & H3 & H4); [intros; apply Hl; by right|done|].
  exists rep', w'. split; [done|]. split_and!; [done|done| |done].
  rewrite H3. cbn. rewrite length_app. cbn. lia.
Qed.

Lemma Stable_sweep_one_ticks o label prow rep c : Stable ticks (sweep_one None o label prow rep c).
Proof.
  unfold sweep_one, applyDecision, decide_hook, skipped_counter, done_report, MarkPartitionDropped, MarkPartitionDetached.
  stable; apply Stable_statement_ticks.
Qed.

(** A run in which nothing fails: what it retires. *)
Lemma Sweep_runs schema table opts prow w :
  dryRun (evalSweepOptions opts) = false →
  get_parent (schema, table) (meta (db w)) = Ok prow →
  (∀ r, r ∈ partitions (meta (db w)) → is_Some (splitFQ (Partition.Name r))) →
  ∃ rep w' n cs, Sweep None schema table opts w = (Ret (rep, None), w') ∧ (tick w <= n < tick w')%nat ∧
    Z.of_nat (length (Dropped rep)) = Considered rep ∧ Skipped rep = [] ∧
    let cutoff := timestamptz (computeCutoff (UTC (env_now n)) (Parent.RetentionPeriod prow)) in
    (∀ c, c ∈ cs ↔ expired (Parent.ID prow) cutoff c = true ∧ c ∈ partitions (meta (db w))) ∧
    meta (db w') = mark_all dropped cs (meta (db w)).
Proof.
  intros Ho Hp Hnames. unfold Sweep. cbv zeta. rewrite bind_Now. set (w0 := mkWorld _ _ _).
  set (o := evalSweepOptions opts) in *. set (label := _ +:+ "." +:+ _). set (f := _ ≫= _).
  assert (∀ w1, ∃ w2, f w1 = (Ret tt, w2) ∧ later w1 w2) as Hf.
  { intros w1. eexists. split; [reflexivity|]. split; cbn; auto. }
  unfold deferring. erewrite bind_Ret.
  2:{ apply attempt_Ret. unfold GetParentTable. rewrite quiet_meta_read. cbn [db w0]. rewrite Hp. reflexivity. }
  unfold sweep. rewrite bind_Now. cbv zeta. set (n := tick _). set (w1 := mkWorld _ (S n) _).
  set (cutoff := computeCutoff _ _).
  erewrite bind_Ret.
  2:{ apply attempt_Ret. unfold ListExpiredPartitions. rewrite quiet_meta_read. reflexivity. }
  set (cs := list_expired _ _ _). set (w2 := mkWorld (db w1) _ _).
  assert (∀ c, c ∈ cs ↔ expired (Parent.ID prow) (timestamptz cutoff) c = true ∧ c ∈ partitions (meta (db w))) as Hcs.
  { intros c. apply (candidates_elem _ _ (tick w1)). }
  destruct (sweep_fold o label prow cs (empty_report o (Z.of_nat (length cs))) (meta (db w)) Ho)
    with (w := w2) as (rep & w3 & Hrun & Hm & Hsk & Hlen & Hcon); [|done|].
  { intros c [_ Hc]%Hcs. by apply Hnames. }
  assert (ticks w2 w3) as Ht3.
  { revert Hrun. apply Stable_foldM; [apply _|]. intros. apply Stable_sweep_one_ticks. }
  rewrite (bind_Ret _ _ _ _ _ Hrun). destruct (Hf w3) as (w4 & Hw4 & [Hd4 Ht4]).
  unfold ticks in Ht3. cbn in Ht3.
  exists rep, w4, n, cs. cbn. rewrite Hw4. split_and!; [done|cbn; lia|lia| |done|exact Hcs|by rewrite Hd4].
  rewrite Hlen, Hcon. cbn. lia.
Qed.

Lemma mark_all_expired pid cutoff cs m :
  (∀ c, c ∈ cs ↔ expired pid cutoff c = true ∧ c ∈ partitions m) →
  ∀ r, r ∈ partitions (mark_all dropped cs m) → expired pid cutoff r = false.
Proof.
  intros Hcs r (r0 & Hr0 & ->)%mark_all_elem.
  case_bool_decide as Hid; [unfold expired; cbn; rewrite (bool_decide_eq_false_2 (dropped = active)) by done; by rewrite andb_false_r|].
  apply not_true_is_false. intros Hex. apply Hid, list_elem_of_fmap_2, Hcs. by split.
Qed.

(** C12: retention is complete. With no hook, not as a dry run, when no
    statement fails and PostgreSQL accepts the DDL, [Sweep] of a registered
    parent returns, skips nothing, drops every candidate, and leaves no
    partition of the parent active that had expired at the reading of the
    clock it took. *)
Theorem Sweep_total schema table opts prow w :
  dryRun (evalSweepOptions opts) = false →
  get_parent (schema, table) (meta (db w)) = Ok prow →
  (∀ r, r ∈ partitions (meta (db w)) → is_Some (splitFQ (Partition.Name r))) →
  ∃ rep w' n, Sweep None schema table opts w = (Ret (rep, None), w') ∧ (tick w <= n < tick w')%nat ∧
    Z.of_nat (length (Dropped rep)) = Considered rep ∧ Skipped rep = [] ∧
    let cutoff := timestamptz (computeCutoff (UTC (env_now n)) (Parent.RetentionPeriod prow)) in
    ∀ r, r ∈ partitions (meta (db w')) → expired (Parent.ID prow) cutoff r = false.
Proof.
  intros Ho Hp Hn. destruct (Sweep_runs schema table opts prow w Ho Hp Hn)
    as (rep & w' & n & cs & Hrun & Hclock & Hlen & Hsk & Hcs & Hm).
  exists rep, w', n. split_and!; [done|lia|lia|done|done|]. rewrite Hm. by apply mark_all_expired.
Qed.
End total.

(** ** Dropping a parent's partitions *)

Section drop_all.
Context {C : Type} {E : Env C} {L : EnvLaws E}.

Definition drop_ddl (d : DB C) (pid sql : string) : Prop :=
  ∃ r cs ct, r ∈ partitions (meta d) ∧ Partition.ParentTableID r = pid ∧
    splitFQ (Partition.Name r) = Some (cs, ct) ∧ sql = buildDropIfExistsDDL cs ct.

(** The loop body of [DropAll]. *)
Definition drop_row (row : Partition.row) : M C unit :=
  match splitFQ (Partition.Name row) with
  | None => fail (Msg "retention: unexpected FQ shape")
  | Some (childSchema, childTable) =>
      wrapping "retention: drop"
        (Do (retryPolicy "retention-drop") (dropOne childSchema childTable (Partition.ID row)))
  end.

Lemma Stable_drop_row (D : string → Prop) c :
  (∀ cs ct, splitFQ (Partition.Name c) = Some (cs, ct) → D (buildDropIfExistsDDL cs ct)) →
  Stable (on_db (touches (with_id [Partition.ID c]) D)) (drop_row c).
Proof.
  intros HD. unfold drop_row, dropOne, MarkPartitionDropped.
  stable; [by apply Stable_Exec_touches, HD|]. apply Stable_mark_touches; [by left|done].
Qed.

Lemma triple_drop_row c :
  triple (λ _, True) (drop_row c)
    (λ _ w, ∀ r, r ∈ partitions (meta (db w)) → Partition.ID r = Partition.ID c → Partition.Status r = dropped).
Proof.
  unfold drop_row. destruct (splitFQ _) as [[cs ct]|]; [|apply triple_fail].
  assert (∀ u : unit, Closed (λ w : World C, ∀ r, r ∈ partitions (meta (db w)) →
            Partition.ID r = Partition.ID c → Partition.Status r = dropped)) as Hcl.
  { intros _ w w' H [Hd _]. by rewrite Hd. }
  apply triple_wrapping, triple_Do; [by intros w w'|exact Hcl|done|].
  apply triple_in_tx; [by intros w w'|exact Hcl|].
  eapply triple_bind; [apply triple_wrapping; by apply (triple_Exec (λ _, True))|]. intros n.
  apply triple_wrapping, triple_meta_write. intros w a m' _ H. apply Ok_inj in H as [= <- <-].
  intros r' (r & Hr & ->)%mark_elem Hid. rewrite (mark_update Partition.ID) in Hid by done.
  by rewrite bool_decide_true.
Qed.

(** The rows of the parent that are not dropped are among those to come. *)
Definition left_to_drop (pid : string) (l : list Partition.row) (w : World C) : Prop :=
  ∀ r, r ∈ partitions (meta (db w)) → Partition.ParentTableID r = pid →
    Partition.Status r = dropped ∨ Partition.ID r ∈ Partition.ID <$> l.

Lemma triple_drop_row_left pid c l :
  triple (left_to_drop pid (c :: l)) (drop_row c) (λ _, left_to_drop pid l).
Proof.
  intros w u w' Hl Hrun.
  pose proof (triple_drop_row c _ _ _ I Hrun) as Hc.
  pose proof (Stable_drop_row (λ _, True) c (λ _ _ _, I) _ _ _ Hrun) as (_ & _ & Hf & _).
  intros r' Hr' Hp. destruct (Forall2_elem_r _ _ _ _ Hf Hr') as (r & Hr & [->|(Hid & _ & Heq)]).
  - destruct (Hl r Hr Hp) as [?|Hin]; [by left|]. rewrite fmap_cons in Hin.
    apply elem_of_cons in Hin as [Hin|Hin]; [left; by apply Hc|by right].
  - left. apply list_elem_of_singleton in Hid. apply Hc; [done|]. by rewrite Heq.
Qed.

(** The reads of [DropAll], and its loop. *)
Lemma DropAll_run schema table w o w' :
  DropAll schema table w = (o, w') →
  (db w' = db w ∧ (o = Ret tt →
     (∃ n e, (env_fault n = Some (Lost e) ∨ env_fault n = Some (Applied e)) ∧ Is e NoRows = true) ∨
     ∃ e, get_parent (schema, table) (meta (db w)) = Err e)) ∨
  ∃ prow n w1, get_parent (schema, table) (meta (db w)) = Ok prow ∧ db w1 = db w ∧
    forM drop_row (list_partitions (Parent.ID prow) (scanned n (meta (db w)))) w1 = (o, w').
Proof.
  intros Hrun. unfold DropAll in Hrun. fold drop_row in Hrun.
  apply bind_inv in Hrun as [(r & w1 & Hget & Hrun)|[(e & Hget & He)|[Hget He]]];
    apply attempt_inv in Hget as (og & Hget & Hog).
  2,3: apply meta_read_run in Hget as [[Hd _] _]; left; subst o; by split.
  destruct (meta_read_run _ _ _ _ Hget) as [[Hd1 _] Hg].
  destruct og as [prow|e|]; [|injection Hog as ->|done].
  - injection Hog as ->. destruct Hg as [_ Hg].
    apply bind_inv in Hrun as [(rows & w2 & Hlist & Hrun)|[(e & Hlist & ->)|[Hlist ->]]];
      apply wrapping_inv in Hlist as (ol & [[Hd2 _] Hl]%meta_read_run & Hol).
    2,3: left; split; [congruence|done].
    destruct ol as [l|e|]; [|done..]. injection Hol as ->. destruct Hl as [n <-%Ok_inj].
    right. exists prow, n, w2. rewrite Hd1 in Hrun. split_and!; [done|congruence|done].
  - left. destruct (Is e NoRows) eqn:He; injection Hrun as <- <-; (split; [done|]); [|done]. intros _.
    apply meta_read_fail in Hget as [[n Hn]|[n Hn]]; [right|left]; eauto.
Qed.

Lemma DropAll_touches schema table w o w' :
  DropAll schema table w = (o, w') → WF (meta (db w)) →
  db w' = db w ∨
  ∃ prow, get_parent (schema, table) (meta (db w)) = Ok prow ∧
    touches (λ r, Partition.ParentTableID r = Parent.ID prow)
      (drop_ddl (db w) (Parent.ID prow)) (db w) (db w').
Proof.
  intros [[? _]|(prow & n & w1 & Hp & Hd & Hrun)]%DropAll_run Hwf; [by left|]. right. exists prow.
  split; [done|]. set (l := list_partitions _ _) in Hrun.
  assert (∀ r, r ∈ l → Partition.ParentTableID r = Parent.ID prow ∧ r ∈ partitions (meta (db w))) as Hl.
  { intros r. unfold l, list_partitions, scanned.
    by rewrite merge_sort_Permutation, list_elem_of_filter, env_scan_perm. }
  assert (Stable (on_db (touches (with_id (Partition.ID <$> l)) (drop_ddl (db w) (Parent.ID prow))))
            (forM drop_row l)) as Hs.
  { apply Stable_forM; [apply _|]. intros c Hc.
    eapply Stable_weaken; [apply (Stable_drop_row (drop_ddl (db w) (Parent.ID prow)))|].
    - intros cs ct Hct. apply Hl in Hc as [? ?]. by exists c, cs, ct.
    - intros wa wb. apply touches_mono. unfold with_id.
      intros r _ Hr%list_elem_of_singleton. rewrite Hr. by apply list_elem_of_fmap_2. }
  apply Hs in Hrun. unfold on_db in Hrun. rewrite Hd in Hrun.
  eapply touches_mono; [|exact Hrun]. unfold with_id.
  intros r Hr (c & Hid & [Hc Hin]%Hl)%list_elem_of_fmap.
  by rewrite (NoDup_fmap_elem_eq _ _ r c (wf_ids _ Hwf) Hr Hin Hid).
Qed.

Lemma DropAll_leaves_none prow n (w1 w' : World C) :
  forM drop_row (list_partitions (Parent.ID prow) (scanned n (meta (db w1)))) w1 = (Ret tt, w') →
  ∀ r, r ∈ partitions (meta (db w')) → Partition.ParentTableID r = Parent.ID prow →
  Partition.Status r = dropped.
Proof.
  set (l := list_partitions _ _). intros Hrun r Hr Hpar.
  destruct (triple_forM (left_to_drop (Parent.ID prow)) drop_row
    (λ c l, triple_drop_row_left (Parent.ID prow) c l) l w1 tt w') with (r := r) as [?|Hno];
    [|exact Hrun|done|done|done|by apply not_elem_of_nil in Hno].
  intros r0 Hr0 Hp0. right. apply list_elem_of_fmap_2. unfold l, list_partitions, scanned.
  by rewrite merge_sort_Permutation, list_elem_of_filter, env_scan_perm.
Qed.

(** C9: [DropAll] touches the partitions of its parent only, with a [DROP
    TABLE IF EXISTS] of their own tables each, whatever fails; and when it
    returns without error, every one of them, the default included, is
    dropped. (The parent is registered; the driver reports a missing row for
    an empty result only.) *)
Theorem DropAll_drops schema table prow w o w' :
  get_parent (schema, table) (meta (db w)) = Ok prow → WF (meta (db w)) →
  (∀ n e, env_fault n = Some (Lost e) ∨ env_fault n = Some (Applied e) → Is e NoRows = false) →
  DropAll schema table w = (o, w') →
  (db w' = db w ∨
   touches (λ r, Partition.ParentTableID r = Parent.ID prow)
     (drop_ddl (db w) (Parent.ID prow)) (db w) (db w')) ∧
  (o = Ret tt → ∀ r, r ∈ partitions (meta (db w')) →
     Partition.ParentTableID r = Parent.ID prow → Partition.Status r = dropped).
Proof.
  intros Hp Hwf Hhonest Hrun. split.
  - destruct (DropAll_touches _ _ _ _ _ Hrun Hwf) as [?|(prow' & Hp' & ?)]; [by left|right].
    rewrite Hp in Hp'. by apply Ok_inj in Hp' as <-.
  - intros ->. apply DropAll_run in Hrun as [[_ H]|(prow' & n & w1 & Hp' & Hd & Hrun)].
    + destruct (H eq_refl) as [(n & e & Hf & He)|[e He]]; [|by rewrite Hp in He].
      by rewrite (Hhonest n e Hf) in He.
    + rewrite Hp in Hp'. apply Ok_inj in Hp' as <-. rewrite <- Hd in Hrun.
      by eapply DropAll_leaves_none.
Qed.
End drop_all.

(** ** Examples *)

Definition retained (id name : string) (from to : Time) (is_default : bool) : Partition.row :=
  Partition.mk id name "P1" None "created_at" "range" from to is_default active.

(** [app.events] keeps 30 days; at [noon] of 2026-06-15, April has expired, the
    14th of June has not, and neither has the default. *)
Definition april : Partition.row :=
  Eval vm_compute in retained "A" "app.events_20260415" (DateUTC 2026 4 15 0 0 0 0) (DateUTC 2026 4 16 0 0 0 0) false.
Definition june : Partition.row :=
  Eval vm_compute in retained "J" "app.events_20260614" (DateUTC 2026 6 14 0 0 0 0) (DateUTC 2026 6 15 0 0 0 0) false.
Definition the_default : Partition.row := retained "D" "app.events_default" zero_Time zero_Time true.
Definition retention_parent : Parent.row := events None "daily" thirty_days 2.
Definition retention_world : World (list string) :=
  start (mkMeta [retention_parent] [] [april; june; the_default]).

Lemma retention_world_WF : WF (meta (db retention_world)).
Proof.
  split; cbn.
  - apply NoDup_singleton.
  - apply NoDup_singleton.
  - apply NoDup_nil_2.
  - by intros t ?%not_elem_of_nil.
  - by apply (bool_decide_unpack _).
  - by apply (bool_decide_unpack _).
  - apply NoDup_nil_2.
  - by apply (bool_decide_unpack _).
  - intros r Hr. repeat (apply elem_of_cons in Hr as [->|Hr]; [done|]). by apply not_elem_of_nil in Hr.
  - intros r Hr. repeat (apply elem_of_cons in Hr as [->|Hr]; [done|]). by apply not_elem_of_nil in Hr.
Qed.

(** Interaction 7 of a run fails for good. *)
Definition failing : Env (list string) :=
  scenario no_rows (λ n, if (n =? 7)%nat then Some (Lost (PgError "42501")) else None) (λ _, noon).

Lemma passive_None {C} : passive (@None (PartitionRef → M C HookDecision)).
Proof. by intros h ref. Qed.

(** A hook that archives everything. *)
Definition archiver {C} : Hook C := Some (λ _, mret HookArchive).
Lemma passive_archiver {C} : passive (@archiver C).
Proof. intros h ref [= <-]. apply Stable_ret, _. Qed.

Lemma Sweep_touches_only_expired_witness :
  let r := Sweep (E := failing) None "app" "events" [] retention_world in
  db r.2 = db retention_world ∨
  ∃ prow n, get_parent ("app", "events") (meta (db retention_world)) = Ok prow ∧
    let cutoff := timestamptz (E := failing)
                    (computeCutoff (UTC (env_now (Env := failing) n)) (Parent.RetentionPeriod prow)) in
    touches (E := failing) (λ r, expired (Parent.ID prow) cutoff r = true)
      (expired_ddl (E := failing) prow cutoff (db retention_world)) (db retention_world) (db r.2).
Proof.
  intros r. apply (Sweep_touches_only_expired (E := failing) None "app" "events" [] retention_world r.1).
  - exact retention_world_WF.
  - exact passive_None.
  - apply surjective_pairing.
Defined.

Lemma Sweep_dry_run_witness :
  let r := Sweep (E := calm noon) archiver "app" "events" [WithDryRun true] retention_world in
  db r.2 = db retention_world.
Proof.
  intros r. apply (Sweep_dry_run (E := calm noon) archiver "app" "events" [WithDryRun true] retention_world r.1).
  - reflexivity.
  - exact passive_archiver.
  - apply surjective_pairing.
Defined.

(** The world and the report of the sweep of the example. *)
Definition swept : SweepReport * World (list string) :=
  Eval vm_compute in
    match Sweep (E := calm noon) None "app" "events" [] retention_world with
    | (Ret (rep, _), w') => (rep, w')
    | (_, w') => (mkSweepReport [] [] [] [] 0 true, w')
    end.

Lemma Sweep_accounts_witness :
  reported swept.1 = Considered swept.1 ∧ DryRun swept.1 = dryRun (evalSweepOptions []).
Proof.
  apply (Sweep_accounts (E := calm noon) None "app" "events" [] retention_world swept.1 swept.2).
  vm_compute. reflexivity.
Defined.

Lemma Sweep_report_agrees_witness :
  ∃ prow, get_parent ("app", "events") (meta (db retention_world)) = Ok prow ∧
    agrees (Parent.TableName prow) [] (partitions (meta (db swept.2))) swept.1.
Proof.
  apply (Sweep_report_agrees (E := calm noon) None "app" "events" [] retention_world swept.1 swept.2).
  - exact retention_world_WF.
  - exact passive_None.
  - reflexivity.
  - vm_compute. reflexivity.
Defined.

Lemma Sweep_total_witness :
  ∃ rep w' n, Sweep (E := calm noon) None "app" "events" [] retention_world = (Ret (rep, None), w') ∧
    (0 <= n < tick w')%nat ∧ Z.of_nat (length (Dropped rep)) = Considered rep ∧ Skipped rep = [] ∧
    let cutoff := timestamptz (E := calm noon)
      (computeCutoff (UTC (env_now (Env := calm noon) n)) (Parent.RetentionPeriod retention_parent)) in
    ∀ r, r ∈ partitions (meta (db w')) → expired (Parent.ID retention_parent) cutoff r = false.
Proof.
  apply (Sweep_total (E := calm noon)).
  - intros sql c. do 2 eexists. reflexivity.
  - reflexivity.
  - reflexivity.
  - intros r Hr. repeat (apply elem_of_cons in Hr as [->|Hr]; [by eexists|]). by apply not_elem_of_nil in Hr.
Defined.

Lemma DropAll_drops_witness :
  let r := DropAll (E := failing) "app" "events" retention_world in
  (db r.2 = db retention_world ∨
   touches (E := failing) (λ r, Partition.ParentTableID r = "P1")
     (drop_ddl (E := failing) (db retention_world) "P1") (db retention_world) (db r.2)) ∧
  (r.1 = Ret tt → ∀ x, x ∈ partitions (meta (db r.2)) →
     Partition.ParentTableID x = "P1" → Partition.Status x = dropped).
Proof.
  intros r. apply (DropAll_drops (E := failing) "app" "events" retention_parent retention_world r.1).
  - reflexivity.
  - exact retention_world_WF.
  - intros n e. cbn. destruct (n =? 7)%nat; by intros [[= <-]|[=]].
  - apply surjective_pairing.
Defined.
