(* ===== verification/Cutoff.v ===== *)
(** * The retention cutoff ([internal/retention/cutoff.go])

    [computeCutoff] against the calendar of [GoTime]. *)

From S2P Require Import Prelude GoTime Store Retention Scenario.
Local Open Scope Z_scope.

(** [m] calendar months before [now]: the same clock and the same day number
    of the earlier month, a day number past the end of it running on into the
    next month. *)
Definition months_before (now : Time) (m : Z) : Z :=
  (month_start (month_index (local_day now) - m) + (DayOf now - 1) - unix_epoch_days) * Day
  + local_clock now.

(** The intervals whose negation fits the columns' widths. *)
Definition sound_interval (iv : PgInterval) : Prop :=
  IntervalValid iv = true ∧ 0 <= Months iv < 2 ^ 31 ∧ 0 <= Days iv < 2 ^ 31 ∧
  0 <= Microseconds iv ∧ Microseconds iv * Microsecond <= int64_max.

Lemma months_before_0 now : zone now = 0 → months_before now 0 = unix_ns now.
Proof.
  intros Hz. unfold months_before. rewrite Z.sub_0_r, <- local_day_month_start.
  symmetry. by apply utc_ns_split.
Qed.

Lemma months_before_le now m : zone now = 0 → 0 <= m → months_before now m <= unix_ns now.
Proof.
  intros Hz Hm. rewrite <- (months_before_0 now Hz). unfold months_before.
  assert (0 <= Day) by done. rewrite Z.sub_0_r.
  pose proof (month_start_mono (month_index (local_day now) - m) (month_index (local_day now))
                ltac:(lia)).
  apply Z.add_le_mono_r, Z.mul_le_mono_nonneg_r; lia.
Qed.

Lemma computeCutoff_eq now iv :
  zone now = 0 → sound_interval iv →
  computeCutoff now iv =
  mkTime (months_before now (Months iv) - Days iv * Day - Microseconds iv * Microsecond) 0.
Proof.
  intros Hz (Hv & Hm & Hd & Hu & Hmax). unfold computeCutoff. rewrite Hv. cbn [negb].
  set (t1 := if Months iv =? 0 then now else _).
  assert (t1 = mkTime (months_before now (Months iv)) 0) as ->.
  { unfold t1. destruct (Z.eqb_spec (Months iv) 0) as [Heq|Hne].
    - rewrite Heq, months_before_0 by done. by destruct now; cbn in *; subst.
    - rewrite wrap32_id, AddDate_spec by lia. unfold months_before. f_equal.
      replace (month_index (local_day now) + 12 * 0 + - Months iv)
        with (month_index (local_day now) - Months iv) by lia. lia. }
  set (z := months_before _ _).
  set (t2 := if Days iv =? 0 then _ else _).
  assert (t2 = mkTime (z - Days iv * Day) 0) as ->.
  { unfold t2. destruct (Z.eqb_spec (Days iv) 0) as [->|Hne]; [f_equal; lia|].
    rewrite wrap32_id, AddDate_days by (done || lia). cbn [unix_ns]. f_equal. lia. }
  destruct (Z.eqb_spec (Microseconds iv) 0) as [->|Hne]; [f_equal; lia|].
  unfold Add. cbn [unix_ns zone]. f_equal. unfold int64_max, Microsecond in *.
  rewrite (wrap64_id (- _)) by (unfold int64_min, int64_max; lia).
  rewrite wrap64_id by (unfold int64_min, int64_max; lia). lia.
Qed.

(** The cutoff subtracts each component of the retention period in its own
    unit, exactly: the months as calendar months, the days and microseconds as
    durations; and, for periods within the columns' widths, it is never after
    the clock. *)
Theorem computeCutoff_exact now iv :
  zone now = 0 → sound_interval iv →
  unix_ns (computeCutoff now iv) =
    months_before now (Months iv) - Days iv * Day - Microseconds iv * Microsecond ∧
  unix_ns (computeCutoff now iv) <= unix_ns now.
Proof.
  intros Hz Hiv. rewrite computeCutoff_eq by done. cbn [unix_ns]. split; [done|].
  destruct Hiv as (_ & Hm & Hd & Hu & _). pose proof (months_before_le now (Months iv) Hz (proj1 Hm)).
  assert (0 < Day) by done. assert (0 < Microsecond) by done. nia.
Qed.

Lemma computeCutoff_exact_witness :
  unix_ns (computeCutoff noon (mkPgInterval 3600000000 2 1 true)) =
    months_before noon 1 - 2 * Day - 3600000000 * Microsecond ∧
  unix_ns (computeCutoff noon (mkPgInterval 3600000000 2 1 true)) <= unix_ns noon.
Proof.
  apply (computeCutoff_exact noon (mkPgInterval 3600000000 2 1 true)); [reflexivity|].
  repeat split; vm_compute; congruence.
Defined.

(** a retention of "1 month" is not a month at the end of a long one: on
    2026-03-31 the cutoff is 2026-03-03, so the partitions of 1 and 2 March,
    not a month old, are expired. *)
Theorem computeCutoff_month_end :
  computeCutoff (DateUTC 2026 3 31 12 0 0 0) (mkPgInterval 0 0 1 true) = DateUTC 2026 3 3 12 0 0 0.
Proof. vm_compute. reflexivity. Qed.
