(* ===== verification/Registry.v ===== *)
(** * The registry ([internal/registry])

    Parents and tenants enter and leave the metadata here.  The registry calls
    two other components through interfaces: a provisioner, which creates the
    partitions of what was registered, and, when it is set, a dropper.  What
    it needs of them are the classes [Provisioning] and [Dropping]; the
    theorems are proved against these. *)

From S2P Require Import Prelude GoTime GoStrings Errs Naming Store World Logic Repo Provisioner.
Local Open Scope string_scope.
Local Open Scope Z_scope.

(** ** Types ([types.go]) *)

Module ParentConfig.
Record t := mk {
  SchemaName : string;
  TableName : string;
  TenantColumn : string;
  PartitionBy : string;
  PartitionType : string;
  RetentionSchema : string;
  PartitionInterval : Z;
  Premake : Z;
  RetentionPeriod : Z;
  RetentionKeepTable : bool;
  DisableAutomaticMaintenance : bool
}.
End ParentConfig.

Module ParentInfo.
Record t := mk {
  SchemaName : string;
  TableName : string;
  TenantColumn : string;
  PartitionBy : string;
  PartitionType : string;
  PartitionInterval : string;
  RetentionSchema : string;
  Premake : Z;
  RetentionPeriod : Z;
  RetentionKeepTable : bool;
  AutomaticMaintenance : bool
}.
End ParentInfo.

(** [TenantConfig], [TenantRef] and [TenantInfo] have the same three fields. *)
Module TenantConfig.
Record t := mk { ParentSchema : string; ParentName : string; TenantId : string }.
End TenantConfig.

Record removeOptions := mkRemoveOptions { cascadeDrop : bool }.
Definition RemoveOption : Type := removeOptions → removeOptions.
Definition WithCascadeDrop : RemoveOption := λ _, mkRemoveOptions true.
Definition evalRemoveOptions (opts : list RemoveOption) : removeOptions :=
  fold_left (λ o opt, opt o) opts (mkRemoveOptions false).

(** ** Conversions *)

Definition defaultPremake : Z := 4.

Definition optionalText (s : string) : option string :=
  if bool_decide (s = "") then None else Some s.
Definition optionalTextValue (t : option string) : string :=
  match t with Some s => s | None => "" end.

Definition intervalFromDuration (d : Z) : PgInterval := mkPgInterval (Z.quot d Microsecond) 0 0 true.
Definition durationFromInterval (iv : PgInterval) : Z :=
  if negb (IntervalValid iv) then 0
  else
    let total := wrap64 (Microseconds iv * Microsecond) in
    let total := wrap64 (total + wrap64 (wrap64 (Days iv * 24) * Hour)) in
    wrap64 (total + wrap64 (wrap64 (wrap64 (Months iv * 30) * 24) * Hour)).

Definition parentInfoFromRow (row : Parent.row) : ParentInfo.t :=
  ParentInfo.mk (Parent.SchemaName row) (Parent.TableName row)
    (optionalTextValue (Parent.TenantColumn row)) (Parent.PartitionBy row) (Parent.PartitionType row)
    (Parent.PartitionInterval row) (optionalTextValue (Parent.RetentionSchema row)) (Parent.Premake row)
    (durationFromInterval (Parent.RetentionPeriod row)) (Parent.RetentionKeepTable row)
    (Parent.AutomaticMaintenance row).

(** ** Validation ([validate.go]) *)

Definition validateIdentifier (kind value : string) : res unit :=
  if bool_decide (value = "") then Err (Msg "partman: %s is required")
  else if negb (word_regex value) then
    Err (Wrap "%w: %s %q (allowed: %s)" (Sentinel ErrInvalidIdentifier))
  else Ok tt.

Definition validateParentIdentifiers (cfg : ParentConfig.t) : res unit :=
  validateIdentifier "schema_name" (ParentConfig.SchemaName cfg) ;;
  validateIdentifier "table_name" (ParentConfig.TableName cfg) ;;
  validateIdentifier "partition_by" (ParentConfig.PartitionBy cfg) ;;
  (if bool_decide (ParentConfig.TenantColumn cfg = "") then Ok tt
   else validateIdentifier "tenant_column" (ParentConfig.TenantColumn cfg)) ;;
  (if bool_decide (ParentConfig.RetentionSchema cfg = "") then Ok tt
   else validateIdentifier "retention_schema" (ParentConfig.RetentionSchema cfg)).

(** The four catalog queries, up to white space. *)
Definition table_query : string :=
  "SELECT 1 FROM pg_class c JOIN pg_namespace n ON c.relnamespace = n.oid WHERE n.nspname = $1 AND c.relname = $2".
Definition partitioned_query : string :=
  "SELECT p.partstrat::text FROM pg_partitioned_table p JOIN pg_class c ON c.oid = p.partrelid JOIN pg_namespace n ON n.oid = c.relnamespace WHERE n.nspname = $1 AND c.relname = $2".
Definition column_query : string :=
  "SELECT 1 FROM information_schema.columns WHERE table_schema = $1 AND table_name = $2 AND column_name = $3".
Definition schema_query : string := "SELECT 1 FROM pg_namespace WHERE nspname = $1".

(** ** Operations ([registry.go]) *)

(** The provisioner and the dropper the registry is constructed with. *)
Record Deps (C : Type) := mkDeps {
  provisioner : ParentRef.t → option string → M C EnsureReport;
  dropper : option (ParentRef.t → M C unit)
}.
Arguments mkDeps {C}. Arguments provisioner {C}. Arguments dropper {C}.

Section registry.
Context {C : Type} {E : Env C}.

(** The common shape of the assertions: the row, [missing] without one. *)
Definition assertRow (sql : string) (args : list value) (missing : error) (ctx : string)
    : M C (list value) :=
  r ← attempt (QueryRow sql args);
  match r with
  | Ok row => mret row
  | Err e => if Is e NoRows then fail missing else fail (Wrap ctx e)
  end.

Definition assertTableExists (schema table : string) : M C unit :=
  assertRow table_query [VText schema; VText table] (Msg "partman: target %s.%s does not exist")
    "partman: assertTableExists %s.%s: %w" ;; mret tt.
Definition assertPartitionedByRange (schema table : string) : M C unit :=
  row ← assertRow partitioned_query [VText schema; VText table]
          (Wrap "%w: %s.%s" (Sentinel ErrTargetNotPartitioned))
          "partman: assertPartitionedByRange %s.%s: %w";
  if bool_decide (head row = Some (VText "r")) then mret tt
  else fail (Wrap "%w: %s.%s uses partstrat=%q, want 'r'" (Sentinel ErrTargetNotPartitioned)).
Definition assertColumnExists (schema table column : string) : M C unit :=
  assertRow column_query [VText schema; VText table; VText column] (Wrap "%w: %s.%s.%s" (Sentinel ErrColumnMissing))
    "partman: assertColumnExists %s.%s.%s: %w" ;; mret tt.
Definition assertSchemaExists (schema : string) : M C unit :=
  assertRow schema_query [VText schema] (Wrap "%w: %s" (Sentinel ErrArchiveSchemaMissing))
    "partman: assertSchemaExists %s: %w" ;; mret tt.

(** The row [RegisterParent] inserts. *)
Definition parent_params (cfg : ParentConfig.t) (intervalLabel id : string) : Parent.row :=
  let partitionType :=
    if bool_decide (ParentConfig.PartitionType cfg = "") then "range" else ParentConfig.PartitionType cfg in
  let premake :=
    if ParentConfig.Premake cfg =? 0 then defaultPremake else wrap32 (ParentConfig.Premake cfg) in
  Parent.mk id (ParentConfig.SchemaName cfg) (ParentConfig.TableName cfg)
    (optionalText (ParentConfig.TenantColumn cfg)) (ParentConfig.PartitionBy cfg) partitionType
    intervalLabel (intervalFromDuration (ParentConfig.RetentionPeriod cfg))
    (ParentConfig.RetentionKeepTable cfg) (optionalText (ParentConfig.RetentionSchema cfg))
    (negb (ParentConfig.DisableAutomaticMaintenance cfg)) premake.

Definition RegisterParent (deps : Deps C) (cfg : ParentConfig.t) : M C unit :=
  let schema := ParentConfig.SchemaName cfg in
  let table := ParentConfig.TableName cfg in
  lift (validateParentIdentifiers cfg) ;;
  assertTableExists schema table ;;
  assertPartitionedByRange schema table ;;
  assertColumnExists schema table (ParentConfig.PartitionBy cfg) ;;
  (if bool_decide (ParentConfig.TenantColumn cfg = "") then mret tt
   else assertColumnExists schema table (ParentConfig.TenantColumn cfg)) ;;
  (if bool_decide (ParentConfig.RetentionSchema cfg = "") then mret tt
   else assertSchemaExists (ParentConfig.RetentionSchema cfg)) ;;
  intervalLabel ← lift (PartitionIntervalLabel (ParentConfig.PartitionInterval cfg));
  id ← ulid_Make;
  r ← attempt (UpsertParentTable (parent_params cfg intervalLabel id));
  match r with
  | Err e =>
      if Is e NoRows then fail (Wrap "%w: %s.%s" (Sentinel ErrParentAlreadyExists))
      else fail (Wrap "partman: insert parent row: %w" e)
  | Ok _ =>
      if negb (bool_decide (ParentConfig.TenantColumn cfg = "")) then mret tt
      else
        wrapping "partman: provision partitions for %s.%s: %w"
          (provisioner deps (ParentRef.mk schema table) None) ;;
        mret tt
  end.

Definition RegisterTenant (deps : Deps C) (cfg : TenantConfig.t) : M C unit :=
  let schema := TenantConfig.ParentSchema cfg in
  let table := TenantConfig.ParentName cfg in
  let tenant := TenantConfig.TenantId cfg in
  lift (validateIdentifier "parent_schema" schema) ;;
  lift (validateIdentifier "parent_name" table) ;;
  lift (validateIdentifier "tenant_id" tenant) ;;
  r ← attempt (GetParentTable schema table);
  match r with
  | Err e =>
      if Is e NoRows then fail (Wrap "%w: %s.%s" (Sentinel ErrParentNotFound))
      else fail (Wrap "partman: load parent for tenant: %w" e)
  | Ok prow =>
      if negb (hasTenantCol prow) then fail (Wrap "%w: %s.%s" (Sentinel ErrParentNotTenanted))
      else
        rows ← wrapping "partman: insert tenant row: %w" (UpsertTenant (Parent.ID prow) tenant);
        if rows =? 0 then fail (Wrap "%w: %s under %s.%s" (Sentinel ErrTenantAlreadyExists))
        else
          wrapping "partman: provision partitions for %s.%s tenant=%s: %w"
            (provisioner deps (ParentRef.mk schema table) (Some tenant)) ;;
          mret tt
  end.

Definition RemoveParent (deps : Deps C) (ref : ParentRef.t) (opts : list RemoveOption) : M C unit :=
  let schema := ParentRef.SchemaName ref in
  let table := ParentRef.TableName ref in
  lift (validateIdentifier "schema_name" schema) ;;
  lift (validateIdentifier "table_name" table) ;;
  (if cascadeDrop (evalRemoveOptions opts) then
     match dropper deps with
     | None => fail (Msg "partman: WithCascadeDrop requires Retention (ADR-0006) not yet wired")
     | Some dropAll => wrapping "partman: cascade drop parent %s.%s: %w" (dropAll ref)
     end
   else mret tt) ;;
  wrapping "partman: delete parent row: %w" (DeleteParentTable schema table) ;;
  mret tt.

Definition RemoveTenant (ref : TenantConfig.t) : M C unit :=
  let schema := TenantConfig.ParentSchema ref in
  let table := TenantConfig.ParentName ref in
  lift (validateIdentifier "parent_schema" schema) ;;
  lift (validateIdentifier "parent_name" table) ;;
  lift (validateIdentifier "tenant_id" (TenantConfig.TenantId ref)) ;;
  r ← attempt (GetParentTable schema table);
  match r with
  | Err e =>
      if Is e NoRows then mret tt else fail (Wrap "partman: load parent for tenant remove: %w" e)
  | Ok prow =>
      wrapping "partman: delete tenant row: %w"
        (DeleteTenant (Parent.ID prow) (TenantConfig.TenantId ref)) ;;
      mret tt
  end.

Definition ListParents : M C (list ParentInfo.t) :=
  rows ← wrapping "partman: list parents: %w" ListParentTables;
  mret (parentInfoFromRow <$> rows).

Definition ListTenants (ref : ParentRef.t) : M C (list TenantConfig.t) :=
  let schema := ParentRef.SchemaName ref in
  let table := ParentRef.TableName ref in
  lift (validateIdentifier "schema_name" schema) ;;
  lift (validateIdentifier "table_name" table) ;;
  r ← attempt (GetParentTable schema table);
  match r with
  | Err e =>
      if Is e NoRows then fail (Wrap "%w: %s.%s" (Sentinel ErrParentNotFound))
      else fail (Wrap "partman: load parent for list tenants: %w" e)
  | Ok prow =>
      trows ← wrapping "partman: list tenants: %w" (ListTenantsForParent (Parent.ID prow));
      mret ((λ row, TenantConfig.mk schema table (Tenant.ID row)) <$> trows)
  end.
End registry.
