(* ===== verification/Registration.v ===== *)
(** * What the registry promises

    The interfaces of the registry with the provisioner and with retention,
    and its contract against them: what each operation leaves of the metadata,
    whatever fails. *)

From S2P Require Import Prelude GoTime GoStrings Errs Naming Store World Logic Repo Scenario Provisioner Ensure Retention Sweep Registry.
Local Open Scope string_scope.
Local Open Scope Z_scope.

(** ** Interfaces *)

(** A provisioner adds partition rows and touches nothing else of the
    metadata. *)
Class Provisioning {C} {E : Env C} (p : ParentRef.t → option string → M C EnsureReport) : Prop := {
  provisioning_adds ref tenant : Stable (on_db (only_adds (λ _, True))) (p ref tenant);
  provisioning_meta ref tenant : Stable meta_steps (p ref tenant)
}.

(** The rows of the registered parent [key]. *)
Definition of_parent (key : string * string) (m : Meta) (r : Partition.row) : Prop :=
  ∃ prow, get_parent key m = Ok prow ∧ Partition.ParentTableID r = Parent.ID prow.

(** A dropper retires rows of its parent and touches nothing else. *)
Definition drops (ref : ParentRef.t) (m m' : Meta) : Prop :=
  parent_tables m' = parent_tables m ∧ tenants m' = tenants m ∧
  Forall2 (retired_if (of_parent (ParentRef.SchemaName ref, ParentRef.TableName ref) m))
    (partitions m) (partitions m').
Class Dropping {C} {E : Env C} (d : ParentRef.t → M C unit) : Prop := {
  dropping_drops ref w o w' :
    WF (meta (db w)) → d ref w = (o, w') → drops ref (meta (db w)) (meta (db w'));
  dropping_meta ref : Stable meta_steps (d ref)
}.

(** ** The implementations *)

#[export] Instance EnsurePartitions_provisioning {C} {E : Env C} : Provisioning EnsurePartitions.
Proof.
  split; [|exact Stable_EnsurePartitions_meta]. intros ref tenant.
  unfold EnsurePartitions, ensure, createInTx, create_bounded, create_default.
  stable; try apply Stable_Exec_adds; by apply Stable_UpsertPartition_adds.
Qed.

(** [retentionDropperAdapter] ([manager.go]). *)
Definition retentionDropperAdapter {C} {E : Env C} (ref : ParentRef.t) : M C unit :=
  DropAll (ParentRef.SchemaName ref) (ParentRef.TableName ref).

#[export] Instance DropAll_dropping {C} {E : Env C} {L : EnvLaws E} : Dropping retentionDropperAdapter.
Proof.
  split; [|intros; apply Stable_DropAll_meta].
  intros ref w o w' Hwf Hrun. unfold retentionDropperAdapter in Hrun.
  destruct (DropAll_touches _ _ _ _ _ Hrun Hwf) as [->|(prow & Hp & H1 & H2 & H3 & _)].
  - split_and!; [done..|]. apply Forall_Forall2_diag, Forall_true. intros r. by left.
  - split_and!; [done..|]. eapply Forall2_impl_elem; [exact H3|].
    intros r r' _ [->|(? & ? & ?)]; [by left|]. right. split_and!; [by exists prow|done..].
Qed.

(** ** What the assertions establish *)

Section registration.
Context {C : Type} {E : Env C}.

(** The catalog answers [sql] with at least one row, the first [row]. *)
Definition answers (sql : string) (args row : list value) (d : DB C) : Prop :=
  ∃ rows, pg_query sql args (catalog d) = Ok (row :: rows).

(** The target of [cfg] exists, with what [cfg] names. *)
Record validated (cfg : ParentConfig.t) (d : DB C) : Prop := {
  valid_identifiers : validateParentIdentifiers cfg = Ok tt;
  valid_table : ∃ row, answers table_query [VText (ParentConfig.SchemaName cfg); VText (ParentConfig.TableName cfg)] row d;
  valid_partitioned : ∃ row,
    answers partitioned_query [VText (ParentConfig.SchemaName cfg); VText (ParentConfig.TableName cfg)] row d ∧
    head row = Some (VText "r");
  valid_column : ∃ row,
    answers column_query [VText (ParentConfig.SchemaName cfg); VText (ParentConfig.TableName cfg); VText (ParentConfig.PartitionBy cfg)] row d;
  valid_tenant : ParentConfig.TenantColumn cfg ≠ "" → ∃ row,
    answers column_query [VText (ParentConfig.SchemaName cfg); VText (ParentConfig.TableName cfg); VText (ParentConfig.TenantColumn cfg)] row d;
  valid_archive : ParentConfig.RetentionSchema cfg ≠ "" → ∃ row,
    answers schema_query [VText (ParentConfig.RetentionSchema cfg)] row d
}.

Lemma looks_QueryRow sql args : looks (QueryRow sql args) (λ row d, answers sql args row d).
Proof.
  unfold QueryRow. apply (looks_bind _ (λ rows d, pg_query sql args (catalog d) = Ok rows)).
  - apply looks_QueryRows.
  - intros [|row rows]; [apply looks_fail|]. eapply looks_weaken; [apply looks_ret|].
    intros x d -> Hq. by exists rows.
Qed.

Lemma looks_assertRow sql args missing ctx :
  looks (assertRow sql args missing ctx) (λ row d, answers sql args row d).
Proof.
  unfold assertRow. eapply looks_bind; [apply looks_attempt, looks_QueryRow|]. intros [row|e].
  - eapply looks_weaken; [apply looks_ret|]. by intros x d -> ?.
  - case_match; apply looks_fail.
Qed.

Lemma looks_assert sql args missing ctx :
  looks (assertRow sql args missing ctx ;; mret tt) (λ _ d, ∃ row, answers sql args row d).
Proof.
  eapply looks_bind; [apply looks_assertRow|]. intros row.
  eapply looks_weaken; [apply looks_ret|]. intros [] d _ H. by exists row.
Qed.
Lemma looks_assertPartitioned schema table :
  looks (assertPartitionedByRange schema table)
    (λ _ d, ∃ row, answers partitioned_query [VText schema; VText table] row d ∧ head row = Some (VText "r")).
Proof.
  unfold assertPartitionedByRange. eapply looks_bind; [apply looks_assertRow|]. intros row.
  case_bool_decide as Hr; [|apply looks_fail].
  eapply looks_weaken; [apply looks_ret|]. intros [] d _ H. by exists row.
Qed.
Lemma looks_optional (P : Prop) `{!Decision P} (m : M C unit) (K : DB C → Prop) :
  looks m (λ _, K) → looks (if bool_decide P then mret tt else m) (λ _ d, ¬ P → K d).
Proof.
  intros Hm. case_bool_decide as HP.
  - eapply looks_weaken; [apply looks_ret|]. by intros.
  - eapply looks_weaken; [exact Hm|]. auto.
Qed.

(** What [RegisterParent] does once the checks passed. *)
Definition register_row (deps : Deps C) (cfg : ParentConfig.t) (label id : string) : M C unit :=
  r ← attempt (UpsertParentTable (parent_params cfg label id));
  match r with
  | Err e =>
      if Is e NoRows then fail (Wrap "%w: %s.%s" (Sentinel ErrParentAlreadyExists))
      else fail (Wrap "partman: insert parent row: %w" e)
  | Ok _ =>
      if negb (bool_decide (ParentConfig.TenantColumn cfg = "")) then mret tt
      else
        wrapping "partman: provision partitions for %s.%s: %w"
          (provisioner deps (ParentRef.mk (ParentConfig.SchemaName cfg) (ParentConfig.TableName cfg)) None) ;;
        mret tt
  end.

(** The checks that come before anything is written. *)
Lemma RegisterParent_checks deps cfg w o w' :
  RegisterParent deps cfg w = (o, w') →
  (db w' = db w ∧ o ≠ Ret tt) ∨
  ∃ label id w1, db w1 = db w ∧ validated cfg (db w) ∧
    PartitionIntervalLabel (ParentConfig.PartitionInterval cfg) = Ok label ∧
    register_row deps cfg label id w1 = (o, w').
Proof.
  set (R := _ ∨ _). assert (∀ w1, later w w1 → later w1 w' ∧ (∀ b, o ≠ Ret b) → R) as Hstop.
  { intros w1 [H1 _] [[H2 _] Ho]. left. split; [congruence|apply Ho]. }
  intros Hrun. unfold RegisterParent in Hrun. cbv zeta in Hrun.
  apply (bind_looks_inv _ _ _ _ _ _ (looks_lift _)) in Hrun as [([] & w1 & H1 & K1 & Hrun)|H]; [|by eapply Hstop].
  apply (bind_looks_inv _ _ _ _ _ _ (looks_assert _ _ _ _)) in Hrun as [([] & w2 & H2 & K2 & Hrun)|H]; [|by eapply Hstop].
  apply (bind_looks_inv _ _ _ _ _ _ (looks_assertPartitioned _ _)) in Hrun as [([] & w3 & H3 & K3 & Hrun)|H];
    [|eapply Hstop, H; by etrans].
  apply (bind_looks_inv _ _ _ _ _ _ (looks_assert _ _ _ _)) in Hrun as [([] & w4 & H4 & K4 & Hrun)|H];
    [|eapply Hstop, H; by repeat (etrans; [done|])].
  apply (bind_looks_inv _ _ _ _ _ _ (looks_optional _ _ _ (looks_assert _ _ _ _))) in Hrun as [([] & w5 & H5 & K5 & Hrun)|H];
    [|eapply Hstop, H; by repeat (etrans; [done|])].
  apply (bind_looks_inv _ _ _ _ _ _ (looks_optional _ _ _ (looks_assert _ _ _ _))) in Hrun as [([] & w6 & H6 & K6 & Hrun)|H];
    [|eapply Hstop, H; by repeat (etrans; [done|])].
  apply (bind_looks_inv _ _ _ _ _ _ (looks_lift _)) in Hrun as [(label & w7 & H7 & K7 & Hrun)|H];
    [|eapply Hstop, H; by repeat (etrans; [done|])].
  destruct H1 as [H1 _], H2 as [H2 _], H3 as [H3 _], H4 as [H4 _], H5 as [H5 _], H6 as [H6 _], H7 as [H7 _].
  right. eexists label, _, _. split_and!; [| |done|exact Hrun]; [cbn; congruence|].
  rewrite H6, H5, H4, H3, H2, H1 in *. by split.
Qed.

(** The step that both registrations end with. *)
Lemma provision_run p `{!Provisioning p} s ref tenant w o w' :
  (wrapping s (p ref tenant) ;; mret tt) w = (o, w') →
  ∃ new, meta (db w') =
    mkMeta (parent_tables (meta (db w))) (tenants (meta (db w))) (partitions (meta (db w)) ++ new).
Proof.
  intros Hrun. assert (∃ o3, p ref tenant w = (o3, w')) as [o3 Hp].
  { apply bind_inv in Hrun as [(rep & w3 & Hp & Hrun)|[(e & Hp & _)|[Hp _]]];
      apply wrapping_inv in Hp as (o3 & Hp & _); try injection Hrun as _ <-; eauto. }
  apply provisioning_adds in Hp as (Hp1 & Hp2 & new & Hp3 & _). exists new.
  destruct (meta (db w')) as [mp mt mr]. cbn in *. by subst.
Qed.

(** [upsert_parent] refuses a name that is taken. *)
Lemma upsert_parent_Ok a r m m' :
  upsert_parent a m = Ok (r, m') →
  get_parent (Parent.key a) m = Err NoRows ∧ m' = mkMeta (parent_tables m ++ [a]) (tenants m) (partitions m).
Proof.
  unfold upsert_parent. destruct (negb _); [done|]. destruct (existsb _ _) eqn:Ex; [done|].
  intros [= _ <-]. split; [|done]. rewrite existsb_false in Ex. unfold get_parent.
  destruct (List.find _ _) as [x|] eqn:Hf; [|done]. apply find_Some_elem in Hf as [Hx Hk].
  specialize (Ex x Hx). unfold parent_conflict in Ex. by rewrite Hk, orb_true_r in Ex.
Qed.

Lemma register_row_run deps `{!Provisioning (provisioner deps)} cfg label id w o w' :
  register_row deps cfg label id w = (o, w') →
  (db w' = db w ∧ o ≠ Ret tt) ∨
  ∃ new, get_parent (ParentConfig.SchemaName cfg, ParentConfig.TableName cfg) (meta (db w)) = Err NoRows ∧
    meta (db w') = mkMeta (parent_tables (meta (db w)) ++ [parent_params cfg label id])
                     (tenants (meta (db w))) (partitions (meta (db w)) ++ new) ∧
    (ParentConfig.TenantColumn cfg ≠ "" → new = []).
Proof.
  intros Hrun. unfold register_row in Hrun.
  apply bind_inv in Hrun as [(r & w2 & Hup & Hrun)|[(e & Hup & He)|[Hup He]]];
    apply attempt_inv in Hup as (og & Hup & Hog);
    apply meta_write_run in Hup as [[[Hd2 _] (e2 & -> & _)]|(a & m' & Hu & Hd2 & Hout)];
    try (destruct Hout as [->|(e2 & n & -> & _)]); try done;
    try (apply upsert_parent_Ok in Hu as [Hfree ->]).
  - injection Hog as ->. left. by case_match; injection Hrun as <- <-.
  - injection Hog as ->. right. case_bool_decide as Ht; cbn [negb] in Hrun.
    + apply provision_run in Hrun as [new Hm]; [|done]. exists new.
      split_and!; [done| |done]. by rewrite Hm, Hd2.
    + injection Hrun as _ <-. exists []. split_and!; [done| |done].
      rewrite Hd2. cbn. by rewrite app_nil_r.
  - injection Hog as ->. right. exists [].
    case_match; injection Hrun as _ <-; (split_and!; [done| |done]); rewrite Hd2; cbn; by rewrite app_nil_r.
Qed.

(** C19: [RegisterParent] is all or nothing up to provisioning.  Whatever
    fails, either nothing changed, and the call did not return; or the
    identifiers, the target, its columns and the archive schema were
    checked, the name was free, the metadata gained exactly the row of the
    configuration, and partitions were only added, none under a tenanted
    parent. *)
Theorem RegisterParent_spec deps `{!Provisioning (provisioner deps)} cfg w o w' :
  RegisterParent deps cfg w = (o, w') →
  (db w' = db w ∧ o ≠ Ret tt) ∨
  ∃ label id new, validated cfg (db w) ∧
    PartitionIntervalLabel (ParentConfig.PartitionInterval cfg) = Ok label ∧
    get_parent (ParentConfig.SchemaName cfg, ParentConfig.TableName cfg) (meta (db w)) = Err NoRows ∧
    meta (db w') = mkMeta (parent_tables (meta (db w)) ++ [parent_params cfg label id])
                     (tenants (meta (db w))) (partitions (meta (db w)) ++ new) ∧
    (ParentConfig.TenantColumn cfg ≠ "" → new = []).
Proof.
  intros [?|(label & id & w1 & Hd & Hv & Hl & Hrun)]%RegisterParent_checks; [by left|].
  apply register_row_run in Hrun as [?|(new & Hrun)]; [| |done]; rewrite Hd in *; [by left|].
  right. by exists label, id, new.
Qed.

(** ** Tenants *)

(** Why [RegisterTenant] refuses a tenant, from the metadata. *)
Definition tenant_verdict (cfg : TenantConfig.t) (m : Meta) : option sentinel :=
  match get_parent (TenantConfig.ParentSchema cfg, TenantConfig.ParentName cfg) m with
  | Err _ => Some ErrParentNotFound
  | Ok prow =>
      if negb (hasTenantCol prow) then Some ErrParentNotTenanted
      else if has_tenant (Parent.ID prow) (TenantConfig.TenantId cfg) m then Some ErrTenantAlreadyExists
      else None
  end.

Definition valid_tenant_config (cfg : TenantConfig.t) : Prop :=
  word_regex (TenantConfig.ParentSchema cfg) = true ∧ word_regex (TenantConfig.ParentName cfg) = true ∧
  word_regex (TenantConfig.TenantId cfg) = true.

Lemma validateIdentifier_Ok kind value :
  validateIdentifier kind value = Ok tt ↔ value ≠ "" ∧ word_regex value = true.
Proof.
  unfold validateIdentifier. case_bool_decide; [split; [done|by intros []]|].
  destruct (word_regex value); cbn; naive_solver.
Qed.
Lemma word_regex_nonempty s : word_regex s = true → s ≠ "".
Proof. by intros H ->. Qed.

(** What every call with an argument that is not an identifier does. *)
Lemma bind_identifier_inv {B} kind value (k : unit → M C B) w o w' :
  (lift (validateIdentifier kind value) ≫= k) w = (o, w') →
  (word_regex value = true ∧ k tt w = (o, w')) ∨ (w' = w ∧ ∀ b, o ≠ Ret b).
Proof. intros [([] & [_ ?]%validateIdentifier_Ok & ?)|?]%bind_lift_inv; [by left|by right]. Qed.

Lemma get_parent_attempt schema table w o w' :
  attempt (GetParentTable schema table) w = (o, w') →
  db w' = db w ∧ ∃ r, o = Ret r ∧
    match r with
    | Ok prow => get_parent (schema, table) (meta (db w)) = Ok prow
    | Err e => get_parent (schema, table) (meta (db w)) = Err e ∨
               ∃ n, env_fault n = Some (Lost e) ∨ env_fault n = Some (Applied e)
    end.
Proof.
  intros (og & Hg & Hog)%attempt_inv. pose proof Hg as [[Hd _] Hr]%meta_read_run.
  split; [done|]. destruct og as [prow|e|]; [| |done]; subst o; eexists; (split; [done|]).
  - by destruct Hr as [_ Hr].
  - apply meta_read_fail in Hg as [[_ ?]|?]; auto.
Qed.

Lemma UpsertTenant_run pid id w o w' :
  UpsertTenant pid id w = (o, w') →
  (db w' = db w ∧ (o = Ret 0 ∨ ∃ e, o = Fail e)) ∨
  (has_tenant pid id (meta (db w)) = false ∧
   db w' = mkDB (mkMeta (parent_tables (meta (db w))) (tenants (meta (db w)) ++ [Tenant.mk id pid])
                   (partitions (meta (db w)))) (catalog (db w)) ∧
   (o = Ret 1 ∨ ∃ e, o = Fail e)).
Proof.
  intros [[[Hd _] (e & -> & _)]|(a & m' & Hu & Hd & Ho)]%meta_write_run; [left; eauto|].
  unfold upsert_tenant in Hu. cbn [Tenant.ID Tenant.ParentTableID] in Hu.
  destruct (has_tenant _ _ _); [left|right; destruct (has_parent _ _); [|done]];
    injection Hu as <- <-; (destruct Ho as [->|(e & n & -> & _)]);
    split_and?; eauto; rewrite Hd; by destruct (db w).
Qed.

(** C21: [RegisterTenant] is all or nothing up to provisioning.  Whatever
    fails, either nothing changed, and the call did not return; or the
    tenant was admissible (registered tenanted parent, tenant unknown), the
    metadata gained exactly its row, and partitions were only added. *)
Theorem RegisterTenant_spec deps `{!Provisioning (provisioner deps)} cfg w o w' :
  RegisterTenant deps cfg w = (o, w') →
  (db w' = db w ∧ o ≠ Ret tt) ∨
  ∃ prow new, valid_tenant_config cfg ∧ tenant_verdict cfg (meta (db w)) = None ∧
    get_parent (TenantConfig.ParentSchema cfg, TenantConfig.ParentName cfg) (meta (db w)) = Ok prow ∧
    meta (db w') = mkMeta (parent_tables (meta (db w)))
                     (tenants (meta (db w)) ++ [Tenant.mk (TenantConfig.TenantId cfg) (Parent.ID prow)])
                     (partitions (meta (db w)) ++ new).
Proof.
  intros Hrun. unfold RegisterTenant in Hrun. cbv zeta in Hrun.
  apply bind_identifier_inv in Hrun as [[V1 Hrun]|[-> Ho]]; [|left; split; [done|apply Ho]].
  apply bind_identifier_inv in Hrun as [[V2 Hrun]|[-> Ho]]; [|left; split; [done|apply Ho]].
  apply bind_identifier_inv in Hrun as [[V3 Hrun]|[-> Ho]]; [|left; split; [done|apply Ho]].
  apply bind_inv in Hrun as [(r & w1 & Hget & Hrun)|[(e & Hget & He)|[Hget He]]];
    apply get_parent_attempt in Hget as (Hd1 & r' & Hr & Hg); try done.
  injection Hr as <-. destruct r as [prow|e].
  2:{ left. case_match; injection Hrun as <- <-; (split; [congruence|done]). }
  destruct (hasTenantCol prow) eqn:Ht; cbn [negb] in Hrun.
  2:{ left. injection Hrun as <- <-. split; [congruence|done]. }
  assert (tenant_verdict cfg (meta (db w)) = None ↔
          has_tenant (Parent.ID prow) (TenantConfig.TenantId cfg) (meta (db w)) = false) as Hverdict.
  { unfold tenant_verdict. rewrite Hg, Ht. cbn [negb]. by destruct (has_tenant _ _ _). }
  apply bind_inv in Hrun as [(rows & w2 & Hup & Hrun)|[(e & Hup & He)|[Hup He]]];
    apply wrapping_inv in Hup as (ou & Hup & Hou);
    apply UpsertTenant_run in Hup as [[Hd2 [->|[e2 ->]]]|(Hh & Hd2 & [->|[e2 ->]])]; try done;
    rewrite Hd1 in Hd2; try rewrite Hd1 in Hh.
  - injection Hou as ->. injection Hrun as <- <-. by left.
  - injection Hou as ->. apply provision_run in Hrun as [new Hm]; [|done]. right. exists prow, new.
    split_and!; [by split|by apply Hverdict|done|]. by rewrite Hm, Hd2.
  - left. by subst.
  - right. exists prow, []. split_and!; [by split|by apply Hverdict|done|].
    rewrite Hd2. cbn. by rewrite app_nil_r.
Qed.

(** ** When no statement fails *)

Context {QE : Quiet E}.

Lemma answers_run sql args row missing ctx w :
  answers sql args row (db w) →
  ∃ w1, assertRow sql args missing ctx w = (Ret row, w1) ∧ db w1 = db w.
Proof.
  intros [rows Hq]. set (w1 := mkWorld (db w) (S (tick w)) (trace w)). exists w1. split; [|done].
  assert (QueryRow sql args w = (Ret row, w1)) as Hrun.
  { unfold QueryRow. rewrite (bind_Ret _ _ _ (row :: rows) w1); [done|].
    unfold QueryRows. by rewrite quiet_statement, Hq. }
  unfold assertRow. by rewrite (bind_Ret _ _ _ _ _ (attempt_Ret _ _ _ _ Hrun)).
Qed.
Lemma bind_assert_run {B} sql args missing ctx (k : unit → M C B) w d :
  (∃ row, answers sql args row d) → db w = d →
  ∃ w1, ((assertRow sql args missing ctx ;; mret tt) ≫= k) w = k tt w1 ∧ db w1 = d.
Proof.
  intros [row Ha] <-. destruct (answers_run _ _ _ missing ctx w Ha) as (w1 & H & Hd).
  exists w1. split; [|done]. assert ((assertRow sql args missing ctx ;; mret tt) w = (Ret tt, w1)) as Hrun
    by (by rewrite (bind_Ret _ _ _ _ _ H)).
  by rewrite (bind_Ret _ _ _ _ _ Hrun).
Qed.
Lemma bind_partitioned_run {B} schema table (k : unit → M C B) w d :
  (∃ row, answers partitioned_query [VText schema; VText table] row d ∧ head row = Some (VText "r")) → db w = d →
  ∃ w1, (assertPartitionedByRange schema table ≫= k) w = k tt w1 ∧ db w1 = d.
Proof.
  intros (row & Ha & Hr) <-.
  destruct (answers_run _ _ _ (Wrap "%w: %s.%s" (Sentinel ErrTargetNotPartitioned))
    "partman: assertPartitionedByRange %s.%s: %w" w Ha) as (w1 & H & Hd).
  exists w1. split; [|done].
  assert (assertPartitionedByRange schema table w = (Ret tt, w1)) as Hrun.
  { unfold assertPartitionedByRange. rewrite (bind_Ret _ _ _ _ _ H). by rewrite bool_decide_true. }
  by rewrite (bind_Ret _ _ _ _ _ Hrun).
Qed.
Lemma bind_optional_run {B} (P : Prop) `{!Decision P} sql args missing ctx (k : unit → M C B) w d :
  (¬ P → ∃ row, answers sql args row d) → db w = d →
  ∃ w1, ((if bool_decide P then mret tt else assertRow sql args missing ctx ;; mret tt) ≫= k) w = k tt w1 ∧
        db w1 = d.
Proof. intros Ha Hd. case_bool_decide as HP; [by exists w|]. apply bind_assert_run; auto. Qed.

Lemma RegisterParent_checked deps cfg label w :
  validated cfg (db w) → PartitionIntervalLabel (ParentConfig.PartitionInterval cfg) = Ok label →
  ∃ n w1, db w1 = db w ∧ RegisterParent deps cfg w = register_row deps cfg label (env_ulid n) w1.
Proof.
  intros [V1 V2 V3 V4 V5 V6] Hl. unfold RegisterParent. cbv zeta. rewrite V1, bind_lift_Ok.
  edestruct (bind_assert_run (B := unit) table_query) as (w1 & H1 & D1); [exact V2|reflexivity|].
  unfold assertTableExists, assertColumnExists, assertSchemaExists. erewrite H1.
  edestruct (bind_partitioned_run (B := unit)) as (w2 & H2 & D2); [exact V3|exact D1|]. erewrite H2.
  edestruct (bind_assert_run (B := unit) column_query) as (w3 & H3 & D3); [exact V4|exact D2|]. erewrite H3.
  edestruct (bind_optional_run (B := unit)) as (w4 & H4 & D4); [exact V5|exact D3|]. erewrite H4.
  edestruct (bind_optional_run (B := unit)) as (w5 & H5 & D5); [exact V6|exact D4|]. erewrite H5.
  rewrite Hl, bind_lift_Ok. by eexists (tick w5), (mkWorld (db w5) (S (tick w5)) (trace w5)).
Qed.

Lemma upsert_parent_taken a r m :
  get_parent (Parent.key a) m = Ok r → IntervalValid (Parent.RetentionPeriod a) = true →
  upsert_parent a m = Err NoRows.
Proof.
  unfold get_parent, upsert_parent. intros Hg ->. cbn [negb].
  destruct (List.find _ _) eqn:Hf; [|done]. apply find_Some_elem in Hf as [Hin Hk].
  replace (existsb _ _) with true; [done|]. symmetry. apply existsb_true. eexists. split; [done|].
  unfold parent_conflict. by rewrite Hk, orb_true_r.
Qed.
Lemma upsert_parent_free a e m :
  get_parent (Parent.key a) m = Err e → IntervalValid (Parent.RetentionPeriod a) = true →
  (∀ r, r ∈ parent_tables m → Parent.ID r ≠ Parent.ID a) →
  ∃ m', upsert_parent a m = Ok (a, m').
Proof.
  unfold get_parent, upsert_parent. intros Hg -> Hid. cbn [negb].
  destruct (List.find _ _) eqn:Hf; [done|].
  replace (existsb _ _) with false; [by eexists|]. symmetry. apply existsb_false. intros x Hx.
  pose proof (find_None_elem _ _ x Hf Hx) as Hk. cbn in Hk. unfold parent_conflict.
  by rewrite Hk, bool_decide_false by auto.
Qed.

(** Total correctness of [RegisterParent].  When no statement fails and
    the checks pass, the call returns if the name is free and provisioning
    returns, and fails with [ErrParentAlreadyExists], changing nothing, if
    the name is taken. *)
Theorem RegisterParent_total deps cfg label w :
  validated cfg (db w) → PartitionIntervalLabel (ParentConfig.PartitionInterval cfg) = Ok label →
  (∀ n r, r ∈ parent_tables (meta (db w)) → Parent.ID r ≠ env_ulid n) →
  (∀ w1, ParentConfig.TenantColumn cfg = "" →
     ∃ rep w2, provisioner deps (ParentRef.mk (ParentConfig.SchemaName cfg) (ParentConfig.TableName cfg))
                 None w1 = (Ret rep, w2)) →
  match get_parent (ParentConfig.SchemaName cfg, ParentConfig.TableName cfg) (meta (db w)) with
  | Ok _ => ∃ e w', RegisterParent deps cfg w = (Fail e, w') ∧
              Is e (Sentinel ErrParentAlreadyExists) = true ∧ db w' = db w
  | Err _ => ∃ w', RegisterParent deps cfg w = (Ret tt, w')
  end.
Proof.
  intros Hv Hl Hids Hp. destruct (RegisterParent_checked deps cfg label w Hv Hl) as (n & w1 & Hd & ->).
  unfold register_row. set (a := parent_params _ _ _).
  change (ParentConfig.SchemaName cfg, ParentConfig.TableName cfg) with (Parent.key a).
  destruct (get_parent _ _) as [r|e] eqn:Hg.
  - eexists _, _. erewrite bind_Ret.
    2:{ apply attempt_Fail. unfold UpsertParentTable, meta_write. rewrite quiet_statement, Hd.
        rewrite (upsert_parent_taken a r) by done. reflexivity. }
    by split_and!.
  - destruct (upsert_parent_free a e (meta (db w)) Hg eq_refl) as [m' Hu].
    { intros r Hr. by apply Hids. }
    set (w2 := mkWorld (mkDB m' (catalog (db w))) (S (tick w1)) (trace w1)).
    erewrite (bind_Ret _ _ _ _ w2).
    2:{ apply attempt_Ret. unfold UpsertParentTable, meta_write. rewrite quiet_statement, Hd, Hu.
        reflexivity. }
    case_bool_decide as Ht; cbn [negb]; [|by eexists].
    destruct (Hp w2 Ht) as (rep & w3 & Hrun). exists w3.
    erewrite bind_Ret; [reflexivity|]. apply wrapping_Ret. exact Hrun.
Qed.

(** Total correctness of [RegisterTenant].  When no statement fails, the
    call on identifiers fails with the sentinel of the verdict on the
    metadata (unknown parent, parent without tenants, known tenant) and
    changes nothing; without one it returns if provisioning does. *)
Theorem RegisterTenant_total deps cfg w :
  valid_tenant_config cfg →
  (∀ w1, ∃ rep w2, provisioner deps (ParentRef.mk (TenantConfig.ParentSchema cfg)
     (TenantConfig.ParentName cfg)) (Some (TenantConfig.TenantId cfg)) w1 = (Ret rep, w2)) →
  match tenant_verdict cfg (meta (db w)) with
  | Some s => ∃ e w', RegisterTenant deps cfg w = (Fail e, w') ∧
                Is e (Sentinel s) = true ∧ db w' = db w
  | None => ∃ w', RegisterTenant deps cfg w = (Ret tt, w')
  end.
Proof.
  intros (V1 & V2 & V3) Hp. unfold RegisterTenant. cbv zeta.
  rewrite !(proj2 (validateIdentifier_Ok _ _)) by eauto using word_regex_nonempty.
  rewrite !bind_lift_Ok. unfold tenant_verdict.
  set (w1 := mkWorld (db w) (S (tick w)) (trace w)).
  destruct (get_parent _ (meta (db w))) as [prow|e] eqn:Hg.
  - rewrite (bind_Ret _ _ _ (Ok prow) w1).
    2:{ apply attempt_Ret. unfold GetParentTable. by rewrite quiet_meta_read, Hg. }
    destruct (hasTenantCol prow); cbn [negb].
    2:{ eexists _, w1. split; [reflexivity|]. by split. }
    assert (has_parent (Parent.ID prow) (meta (db w)) = true) as Hpar.
    { apply has_parent_true. exists prow. split; [|done]. unfold get_parent in Hg.
      destruct (List.find _ _) eqn:Hf; [|done]. injection Hg as ->. exact (proj1 (find_Some_elem _ _ _ Hf)). }
    destruct (has_tenant _ _ _) eqn:Hh.
    + eexists _, _. rewrite (bind_Ret _ _ _ 0 (mkWorld (db w) (S (tick w1)) (trace w))).
      2:{ apply wrapping_Ret. unfold UpsertTenant, meta_write. rewrite quiet_statement.
          unfold upsert_tenant. cbn [db w1 Tenant.ID Tenant.ParentTableID]. rewrite Hh.
          cbn. by destruct (db w). }
      by split_and!.
    + set (m' := mkMeta (parent_tables (meta (db w))) (tenants (meta (db w)) ++
                   [Tenant.mk (TenantConfig.TenantId cfg) (Parent.ID prow)]) (partitions (meta (db w)))).
      set (wi := mkWorld (mkDB m' (catalog (db w))) (S (tick w1)) (trace w)).
      destruct (Hp wi) as (rep & w2 & Hrun). exists w2. rewrite (bind_Ret _ _ _ 1 wi).
      2:{ apply wrapping_Ret. unfold UpsertTenant, meta_write. rewrite quiet_statement.
          unfold upsert_tenant. cbn [db w1 Tenant.ID Tenant.ParentTableID]. rewrite Hh, Hpar.
          reflexivity. }
      cbn [Z.eqb]. by rewrite (bind_Ret _ _ _ _ _ (wrapping_Ret _ _ _ _ _ Hrun)).
  - eexists _, w1. assert (e = NoRows) as -> by (unfold get_parent in Hg; case_match; by simplify_eq).
    rewrite (bind_Ret _ _ _ (Err NoRows) w1).
    2:{ apply attempt_Fail. unfold GetParentTable. by rewrite quiet_meta_read, Hg. }
    by split_and!.
Qed.

End registration.

(** ** Examples *)

(** The catalog says yes. *)
Definition one_row (sql : string) (args : list value) : res (list (list value)) := Ok [[VText "r"]].
Definition catalogued : Env (list string) := scenario one_row no_fault (λ _, noon).
#[export] Instance catalogued_quiet : Quiet catalogued.
Proof. by intros n. Qed.
(** The reply of the [INSERT] of the parent is lost. *)
Definition catalogued_lossy : Env (list string) :=
  scenario one_row (λ n, if (n =? 4)%nat then Some (Applied (PgError "08006")) else None) (λ _, noon).

Definition wired {E : Env (list string)} : Deps (list string) :=
  mkDeps EnsurePartitions (Some retentionDropperAdapter).
Definition unprovisioned : Deps (list string) := mkDeps (λ _ _ w, (Ret (mkEnsureReport 0 false), w)) None.

Definition events_config (tenantColumn : string) : ParentConfig.t :=
  ParentConfig.mk "app" "events" tenantColumn "created_at" "" "" PartitionDayInterval 2
    (30 * PartitionDayInterval) false false.
Definition acme : TenantConfig.t := TenantConfig.mk "app" "events" "acme".
Definition tenanted_meta : Meta := mkMeta [events (Some "org") "daily" thirty_days 2] [] [].

Lemma validated_events c d : c = "" ∨ c = "org" → validated (E := catalogued) (events_config c) d.
Proof.
  intros Hc. split; [by destruct Hc as [-> | ->]|..]; intros; exists [VText "r"]; try split; try done;
    by exists [].
Qed.

Lemma RegisterParent_spec_witness :
  let r := RegisterParent (E := catalogued_lossy) (wired (E := catalogued_lossy)) (events_config "") (start empty_Meta) in
  r.1 = Fail (Wrap "partman: insert parent row: %w" (PgError "08006")) ∧
  length (parent_tables (meta (db r.2))) = 1%nat ∧
  ((db r.2 = db (start empty_Meta) ∧ r.1 ≠ Ret tt) ∨
   ∃ label id new, validated (E := catalogued_lossy) (events_config "") (db (start empty_Meta)) ∧
     PartitionIntervalLabel PartitionDayInterval = Ok label ∧
     get_parent ("app", "events") empty_Meta = Err NoRows ∧
     meta (db r.2) = mkMeta [parent_params (events_config "") label id] [] new ∧
     ("" ≠ "" → new = [])).
Proof.
  intros r. split; [vm_compute; reflexivity|]. split; [vm_compute; reflexivity|].
  apply (RegisterParent_spec (E := catalogued_lossy) (wired (E := catalogued_lossy)) (events_config "") (start empty_Meta)).
  apply surjective_pairing.
Defined.

Lemma RegisterParent_total_witness :
  ∃ w', RegisterParent (E := catalogued) unprovisioned (events_config "") (start empty_Meta) = (Ret tt, w').
Proof.
  apply (RegisterParent_total (E := catalogued) unprovisioned (events_config "") "daily" (start empty_Meta)).
  - apply validated_events. by left.
  - reflexivity.
  - by intros n r ?%not_elem_of_nil.
  - intros w1 _. by eexists _, _.
Defined.

Lemma RegisterTenant_spec_witness :
  let r := RegisterTenant (E := catalogued) (wired (E := catalogued)) acme (start tenanted_meta) in
  r.1 = Ret tt ∧
  ((db r.2 = db (start tenanted_meta) ∧ r.1 ≠ Ret tt) ∨
   ∃ prow new, valid_tenant_config acme ∧ tenant_verdict acme tenanted_meta = None ∧
     get_parent ("app", "events") tenanted_meta = Ok prow ∧
     meta (db r.2) = mkMeta (parent_tables tenanted_meta) [Tenant.mk "acme" (Parent.ID prow)] new).
Proof.
  intros r. split; [vm_compute; reflexivity|].
  apply (RegisterTenant_spec (E := catalogued) (wired (E := catalogued)) acme (start tenanted_meta)).
  apply surjective_pairing.
Defined.

Lemma RegisterTenant_total_witness :
  ∃ w', RegisterTenant (E := catalogued) unprovisioned acme (start tenanted_meta) = (Ret tt, w').
Proof.
  apply (RegisterTenant_total (E := catalogued) unprovisioned acme (start tenanted_meta)).
  - by split_and!.
  - intros w1. by eexists _, _.
Defined.
