(* ===== verification/Removal.v ===== *)
(** * What leaves the registry, and what it shows

    The contracts of [RemoveParent] and [RemoveTenant], of the listings, and
    of the conversions between a configuration, its row and its listing. *)

From S2P Require Import Prelude GoTime GoStrings Errs Naming Store World Logic Repo Scenario Provisioner Ensure Retention Sweep Registry Registration.
Local Open Scope string_scope.
Local Open Scope Z_scope.

Section removal.
Context {C : Type} {E : Env C}.

Lemma DeleteParentTable_run schema table w o w' :
  DeleteParentTable schema table w = (o, w') →
  (db w' = db w ∧ (∃ e, o = Fail e)) ∨
  meta (db w') = (delete_parent (schema, table) (meta (db w))).2 ∧
  catalog (db w') = catalog (db w).
Proof.
  intros [[[Hd _] (e & -> & _)]|(a & m' & Hu & Hd & _)]%meta_write_run; [left; eauto|right].
  apply Ok_inj in Hu. by rewrite Hd, Hu.
Qed.

(** What a deletion leaves does not depend on what became of the rows it
    deletes. *)
Lemma delete_parent_drops ref m m' :
  drops ref m m' → WF m →
  delete_parent (ParentRef.SchemaName ref, ParentRef.TableName ref) m' =
  delete_parent (ParentRef.SchemaName ref, ParentRef.TableName ref) m.
Proof.
  set (key := (_, _)). intros (Hp & Ht & Hr) Hwf. fold key in Hr. unfold delete_parent. rewrite Hp, Ht.
  f_equal. f_equal. set (ids := Parent.ID <$> _). clearbody key. revert Hr.
  assert (∀ r, of_parent key m r → Partition.ParentTableID r ∈ ids) as Hids.
  { intros r (prow & Hg & ->). unfold get_parent in Hg. destruct (List.find _ _) as [x|] eqn:Hf; [|done].
    injection Hg as ->. apply find_Some_elem in Hf as [Hin Hk%bool_decide_eq_true].
    apply list_elem_of_fmap_2, list_elem_of_filter. auto. }
  generalize (partitions m) (partitions m'). induction 1 as [|r r' l l' Hr Hl IH]; [done|].
  rewrite !filter_cons, IH. destruct Hr as [->|(Hof & _ & ->)]; [done|].
  apply Hids in Hof. by rewrite !decide_False by (intros Hn; by apply Hn).
Qed.

Lemma drops_refl ref m : drops ref m m.
Proof. split_and!; [done..|]. apply Forall_Forall2_diag, Forall_true. intros r. by left. Qed.

Lemma cascade_run deps ref (cascade : bool) s e w o w' :
  (∀ d, dropper deps = Some d → Dropping d) → WF (meta (db w)) →
  (if cascade then match dropper deps with
                   | None => fail e
                   | Some dropAll => wrapping s (dropAll ref)
                   end
   else mret tt) w = (o, w') →
  drops ref (meta (db w)) (meta (db w')) ∧ (cascade = false → w' = w) ∧
  (cascade = true → o = Ret tt → ∃ d, dropper deps = Some d ∧ d ref w = (Ret tt, w')).
Proof.
  intros Hdrop Hwf. destruct cascade.
  2:{ intros [= <- <-]. split_and!; [apply drops_refl|done..]. }
  destruct (dropper deps) as [d|]; cycle 1.
  { intros [= <- <-]. split_and!; [apply drops_refl|done..]. }
  specialize (Hdrop d eq_refl). intros (o1 & Hd & Ho)%wrapping_inv.
  split_and!; [by eapply dropping_drops|done|]. intros _ ->.
  destruct o1 as [[]|e1|]; [|done..]. by exists d.
Qed.

Lemma delete_run schema table s w o w' :
  (wrapping s (DeleteParentTable schema table) ;; mret tt) w = (o, w') →
  (db w' = db w ∧ o ≠ Ret tt) ∨
  (meta (db w') = (delete_parent (schema, table) (meta (db w))).2 ∧ catalog (db w') = catalog (db w)).
Proof.
  intros Hrun. assert (∃ o1, DeleteParentTable schema table w = (o1, w') ∧
    ((∃ e, o1 = Fail e) → o ≠ Ret tt)) as (o1 & Hdel & Ho1); cycle 1.
  { apply DeleteParentTable_run in Hdel as [[Hd He]|Hdel]; [left; auto|by right]. }
  apply bind_inv in Hrun as [(n & w2 & Hdel & Hrest)|[(e & Hdel & ->)|[Hdel ->]]];
    apply wrapping_inv in Hdel as (o1 & Hdel & Ho1); try (injection Hrest as <- <-);
    exists o1; (split; [done|]); intros [e' ->]; by simplify_eq.
Qed.

(** C20: [RemoveParent] deletes a parent with everything that hangs on it, and
    nothing else.  Whatever fails, either the call did not return, and (but
    for the retirement of the parent's own partitions in a cascade) nothing
    changed; or the metadata are those before the call without the parent,
    its tenants and its partitions, and a cascade asked for has dropped the
    tables first. *)
Theorem RemoveParent_spec deps ref opts w o w' :
  (∀ d, dropper deps = Some d → Dropping d) →
  WF (meta (db w)) →
  RemoveParent deps ref opts w = (o, w') →
  let cascade := cascadeDrop (evalRemoveOptions opts) in
  (o ≠ Ret tt ∧ drops ref (meta (db w)) (meta (db w')) ∧ (cascade = false → db w' = db w)) ∨
  (meta (db w') =
     (delete_parent (ParentRef.SchemaName ref, ParentRef.TableName ref) (meta (db w))).2 ∧
   (cascade = true → ∃ d w1, dropper deps = Some d ∧ d ref w = (Ret tt, w1)) ∧
   (cascade = false → catalog (db w') = catalog (db w))).
Proof.
  intros Hdrop Hwf Hrun cascade. unfold RemoveParent in Hrun. cbv zeta in Hrun. fold cascade in Hrun.
  assert (∀ o, (∀ b, o ≠ Ret b) → w' = w →
    o ≠ Ret tt ∧ drops ref (meta (db w)) (meta (db w')) ∧ (cascade = false → db w' = db w)) as Hstop.
  { intros o' Ho ->. split_and!; [apply Ho|apply drops_refl|done]. }
  apply bind_identifier_inv in Hrun as [[V1 Hrun]|[Hw Ho]]; [|left; by apply Hstop].
  apply bind_identifier_inv in Hrun as [[V2 Hrun]|[Hw Ho]]; [|left; by apply Hstop].
  apply bind_inv in Hrun as [([] & w1 & Hcas & Hrun)|[(e & Hcas & ->)|[Hcas ->]]];
    (apply (cascade_run deps ref cascade) in Hcas as (Hd1 & Hw1 & Hran); [|exact Hdrop|exact Hwf]).
  2, 3: left; split_and!; [done..|]; intros Hc; by rewrite Hw1.
  apply delete_run in Hrun as [[Hd Ho]|[Hm Hc]]; [left|right].
  - rewrite Hd. split_and!; [done..|]. intros ?. by rewrite Hw1.
  - rewrite Hm, Hc, (delete_parent_drops ref _ _ Hd1 Hwf). split_and!; [done| |].
    + intros Hc1. destruct (Hran Hc1 eq_refl) as (d & ? & ?). by exists d, w1.
    + intros ?. by rewrite Hw1.
Qed.

(** [RemoveTenant] deletes a tenant with its partitions, and nothing
    else.  Whatever fails, either nothing changed, and the call returned only
    because the parent is unknown; or the metadata are those before the call
    without the tenant and its partitions. *)
Theorem RemoveTenant_spec ref w o w' :
  (∀ n e, env_fault n = Some (Lost e) ∨ env_fault n = Some (Applied e) → Is e NoRows = false) →
  RemoveTenant ref w = (o, w') →
  let key := (TenantConfig.ParentSchema ref, TenantConfig.ParentName ref) in
  (db w' = db w ∧ (o = Ret tt → get_parent key (meta (db w)) = Err NoRows)) ∨
  ∃ prow, get_parent key (meta (db w)) = Ok prow ∧
    db w' = mkDB (delete_tenant (Parent.ID prow) (TenantConfig.TenantId ref) (meta (db w))).2
              (catalog (db w)).
Proof.
  intros Hhonest Hrun key. unfold RemoveTenant in Hrun. cbv zeta in Hrun.
  assert (∀ w1 w2 : World C, w2 = w1 ∧ (∀ b, o ≠ Ret b) → db w1 = db w → db w2 = db w ∧
    (o = Ret tt → get_parent key (meta (db w)) = Err NoRows)) as Hstop.
  { intros w1 w2 [-> Ho] ->. split; [done|]. intros ->. by destruct (Ho tt). }
  apply bind_identifier_inv in Hrun as [[_ Hrun]|H]; [|left; by eapply Hstop].
  apply bind_identifier_inv in Hrun as [[_ Hrun]|H]; [|left; by eapply Hstop].
  apply bind_identifier_inv in Hrun as [[_ Hrun]|H]; [|left; by eapply Hstop].
  apply bind_inv in Hrun as [(r & w1 & Hget & Hrun)|[(e & Hget & He)|[Hget He]]];
    apply get_parent_attempt in Hget as (Hd1 & r' & Hr & Hg); try done.
  injection Hr as <-. destruct r as [prow|e].
  2:{ left. destruct (Is e NoRows) eqn:He; injection Hrun as <- <-; (split; [done|]); [|done].
      intros _. destruct Hg as [Hg|[n Hn]]; [|by rewrite (Hhonest n e Hn) in He].
      unfold get_parent in Hg |- *. by destruct (List.find _ _). }
  assert (∃ o1, DeleteTenant (Parent.ID prow) (TenantConfig.TenantId ref) w1 = (o1, w') ∧
    ((∃ e, o1 = Fail e) → o ≠ Ret tt)) as (o1 & Hdel & Ho1).
  { apply bind_inv in Hrun as [(n & w2 & Hdel & Hrest)|[(e & Hdel & ->)|[Hdel ->]]];
      apply wrapping_inv in Hdel as (o1 & Hdel & Ho1); try (injection Hrest as <- <-);
      exists o1; (split; [done|]); intros [e' ->]; by simplify_eq. }
  apply meta_write_run in Hdel as [[[Hd2 _] (e & -> & _)]|(a & m' & Hu & Hd2 & _)].
  - left. split; [congruence|]. intros ->. destruct Ho1; eauto.
  - right. exists prow. split; [done|]. rewrite Hd1 in Hu, Hd2. apply Ok_inj in Hu. by rewrite Hu.
Qed.

(** ** The listings *)

(** [ListTenants] returns the registered tenants of the parent, each once
    (up to their order), and only those, changing nothing. *)
Theorem ListTenants_spec `{!EnvLaws E} ref w l w' :
  ListTenants ref w = (Ret l, w') →
  db w' = db w ∧
  ∃ prow, get_parent (ParentRef.SchemaName ref, ParentRef.TableName ref) (meta (db w)) = Ok prow ∧
    l ≡ₚ (λ row, TenantConfig.mk (ParentRef.SchemaName ref) (ParentRef.TableName ref) (Tenant.ID row))
           <$> filter (λ row, Tenant.ParentTableID row = Parent.ID prow) (tenants (meta (db w))).
Proof.
  intros Hrun. unfold ListTenants in Hrun. cbv zeta in Hrun.
  apply bind_identifier_inv in Hrun as [[_ Hrun]|[_ H]]; [|by destruct (H l)].
  apply bind_identifier_inv in Hrun as [[_ Hrun]|[_ H]]; [|by destruct (H l)].
  apply bind_inv in Hrun as [(r & w1 & Hget & Hrun)|[(e & _ & He)|[_ He]]]; [|done..].
  apply get_parent_attempt in Hget as (Hd1 & r' & Hr & Hg). injection Hr as <-.
  destruct r as [prow|e]; [|by case_match].
  apply bind_inv in Hrun as [(rows & w2 & Hlist & Hrun)|[(e & _ & He)|[_ He]]]; [|done..].
  apply wrapping_inv in Hlist as (ol & [[Hd2 _] Hl]%meta_read_run & Hol).
  destruct ol as [rows'|e|]; [|done..]. injection Hol as ->. destruct Hl as [n <-%Ok_inj].
  injection Hrun as <- <-. split; [congruence|]. exists prow. split; [done|].
  unfold list_tenants. cbn [tenants]. by rewrite merge_sort_Permutation, env_scan_perm, Hd1.
Qed.

Lemma ListParents_run `{!EnvLaws E} w l w' :
  ListParents w = (Ret l, w') →
  db w' = db w ∧ l ≡ₚ parentInfoFromRow <$> parent_tables (meta (db w)).
Proof.
  intros Hrun. unfold ListParents in Hrun.
  apply bind_inv in Hrun as [(rows & w2 & Hlist & Hrun)|[(e & _ & He)|[_ He]]]; [|done..].
  apply wrapping_inv in Hlist as (ol & [[Hd2 _] Hl]%meta_read_run & Hol).
  destruct ol as [rows'|e|]; [|done..]. injection Hol as ->. destruct Hl as [n <-%Ok_inj].
  injection Hrun as <- <-. split; [done|].
  unfold list_parents. cbn [parent_tables]. by rewrite merge_sort_Permutation, env_scan_perm.
Qed.
End removal.

(** ** Round trips *)

(** A duration survives the interval column up to its microseconds. *)
Lemma durationFromInterval_intervalFromDuration d :
  int64_min <= d <= int64_max →
  durationFromInterval (intervalFromDuration d) = Z.quot d Microsecond * Microsecond.
Proof.
  intros Hd. unfold durationFromInterval, intervalFromDuration. cbn [IntervalValid Microseconds Days Months negb].
  assert (int64_min <= Z.quot d Microsecond * Microsecond <= int64_max) as Hq
    by (unfold int64_min, int64_max, Microsecond in *; dlia).
  change (wrap64 (wrap64 (0 * 24) * Hour)) with 0.
  change (wrap64 (wrap64 (wrap64 (0 * 30) * 24) * Hour)) with 0.
  rewrite (wrap64_id (_ ÷ _ * _)), !Z.add_0_r by exact Hq. by rewrite !wrap64_id by (by rewrite ?wrap64_id).
Qed.

(** The information a listing gives on a configuration. *)
Definition configured (cfg : ParentConfig.t) (label : string) : ParentInfo.t :=
  ParentInfo.mk (ParentConfig.SchemaName cfg) (ParentConfig.TableName cfg)
    (ParentConfig.TenantColumn cfg) (ParentConfig.PartitionBy cfg)
    (if bool_decide (ParentConfig.PartitionType cfg = "") then "range" else ParentConfig.PartitionType cfg)
    label (ParentConfig.RetentionSchema cfg)
    (if ParentConfig.Premake cfg =? 0 then 4 else ParentConfig.Premake cfg)
    (Z.quot (ParentConfig.RetentionPeriod cfg) Microsecond * Microsecond)
    (ParentConfig.RetentionKeepTable cfg) (negb (ParentConfig.DisableAutomaticMaintenance cfg)).

Lemma optionalText_roundtrip s : optionalTextValue (optionalText s) = s.
Proof. unfold optionalText. by case_bool_decide. Qed.

Lemma parentInfo_configured cfg label id :
  int64_min <= ParentConfig.RetentionPeriod cfg <= int64_max →
  - 2 ^ 31 <= ParentConfig.Premake cfg < 2 ^ 31 →
  parentInfoFromRow (parent_params cfg label id) = configured cfg label.
Proof.
  intros Hr Hp. unfold parentInfoFromRow.
  rewrite (durationFromInterval_intervalFromDuration _ Hr :
             durationFromInterval (Parent.RetentionPeriod (parent_params cfg label id)) = _).
  unfold configured, parent_params. cbv zeta. cbn. rewrite !optionalText_roundtrip. f_equal.
  destruct (_ =? 0); [done|]. by apply wrap32_id.
Qed.

(** C39: [ListParents] after a [RegisterParent] that returned shows the
    configuration that was registered (its retention to the microsecond, the
    defaults filled in) next to the parents there were before, for a
    configuration whose retention fits 64 and whose premake fits 32 bits. *)
Theorem ListParents_registered {C} {E : Env C} `{!EnvLaws E} deps `{!Provisioning (provisioner deps)}
    cfg (w w1 : World C) l w' :
  int64_min <= ParentConfig.RetentionPeriod cfg <= int64_max →
  - 2 ^ 31 <= ParentConfig.Premake cfg < 2 ^ 31 →
  RegisterParent deps cfg w = (Ret tt, w1) →
  ListParents w1 = (Ret l, w') →
  ∃ label, PartitionIntervalLabel (ParentConfig.PartitionInterval cfg) = Ok label ∧
    l ≡ₚ configured cfg label :: (parentInfoFromRow <$> parent_tables (meta (db w))).
Proof.
  intros Hr Hp Hreg [_ Hlist]%ListParents_run.
  apply RegisterParent_checks in Hreg as [[_ Hno]|(label & id & w2 & Hd & _ & Hl & Hrun)]; [done|].
  exists label. split; [done|].
  apply register_row_run in Hrun as [[_ Hno]|(new & _ & Hm & _)]; [done| |done].
  rewrite Hlist, Hm, Hd. cbn. by rewrite fmap_app, Permutation_app_comm, fmap_cons, parentInfo_configured.
Qed.

(** ** Examples *)

(** The registry of the example, its sequence of calls. *)
Definition registered_world : World (list string) :=
  (RegisterParent (E := catalogued) (wired (E := catalogued)) (events_config "") (start empty_Meta)).2.

Lemma ListParents_registered_witness :
  ∃ label, PartitionIntervalLabel PartitionDayInterval = Ok label ∧
    [configured (events_config "") "daily"] ≡ₚ [configured (events_config "") label].
Proof.
  apply (ListParents_registered (E := catalogued) (wired (E := catalogued)) (events_config "") (start empty_Meta) registered_world
           [configured (events_config "") "daily"]
           (ListParents (E := catalogued) registered_world).2).
  - split; vm_compute; congruence.
  - split; vm_compute; congruence.
  - vm_compute. reflexivity.
  - vm_compute. reflexivity.
Defined.

(** The reply of the deletion is lost, after a cascade. *)
Definition acme_meta : Meta :=
  mkMeta [events (Some "org") "daily" thirty_days 2] [Tenant.mk "acme" "P1"] [].
Lemma acme_meta_WF : WF acme_meta.
Proof.
  split; cbn; try apply NoDup_singleton; try apply NoDup_nil_2; try (by intros ? ?%not_elem_of_nil).
  by intros t ->%list_elem_of_singleton.
Qed.

Lemma RemoveParent_spec_witness :
  let r := RemoveParent (E := catalogued_lossy) (wired (E := catalogued_lossy)) app_events [WithCascadeDrop]
             (start acme_meta) in
  (r.1 ≠ Ret tt ∧ drops app_events acme_meta (meta (db r.2)) ∧ (true = false → db r.2 = db (start acme_meta))) ∨
  (meta (db r.2) = (delete_parent ("app", "events") acme_meta).2 ∧
   (true = true → ∃ d w1, dropper (wired (E := catalogued_lossy)) = Some d ∧
      d app_events (start acme_meta) = (Ret tt, w1)) ∧
   (true = false → catalog (db r.2) = catalog (db (start acme_meta)))).
Proof.
  intros r. apply (RemoveParent_spec (E := catalogued_lossy) (wired (E := catalogued_lossy)) app_events [WithCascadeDrop] (start acme_meta) r.1).
  - intros d [= <-]. apply _.
  - exact acme_meta_WF.
  - apply surjective_pairing.
Defined.

Lemma RemoveTenant_spec_witness :
  let r := RemoveTenant (E := calm noon) acme (start acme_meta) in
  (db r.2 = db (start acme_meta) ∧ (r.1 = Ret tt → get_parent ("app", "events") acme_meta = Err NoRows)) ∨
  ∃ prow, get_parent ("app", "events") acme_meta = Ok prow ∧
    db r.2 = mkDB (delete_tenant (Parent.ID prow) "acme" acme_meta).2 [].
Proof.
  intros r. apply (RemoveTenant_spec (E := calm noon) acme (start acme_meta) r.1).
  - by intros n e [[=]|[=]].
  - apply surjective_pairing.
Defined.

Lemma ListTenants_spec_witness :
  db (ListTenants (E := calm noon) app_events (start acme_meta)).2 = db (start acme_meta) ∧
  ∃ prow, get_parent ("app", "events") acme_meta = Ok prow ∧
    [acme] ≡ₚ (λ row, TenantConfig.mk "app" "events" (Tenant.ID row))
                <$> filter (λ row, Tenant.ParentTableID row = Parent.ID prow) (tenants acme_meta).
Proof.
  apply (ListTenants_spec (E := calm noon) app_events (start acme_meta) [acme]).
  vm_compute. reflexivity.
Defined.

(** [app.events] as [RegisterParent] records it with a zero [RetentionPeriod],
    and the partition of yesterday. *)
Definition keep_all_config : ParentConfig.t :=
  ParentConfig.mk "app" "events" "" "created_at" "" "" PartitionDayInterval 2 0 false false.
Definition keep_all_world : World (list string) :=
  start (mkMeta [parent_params keep_all_config "daily" "P1"] [] [june; the_default]).

(** a retention period of zero keeps nothing: a sweep drops the partition of
    yesterday. *)
Theorem zero_retention_drops_yesterday :
  (λ r, (Partition.Name r, Partition.Status r)) <$>
    partitions (meta (db (Sweep (E := calm noon) None "app" "events" [] keep_all_world).2)) =
  [("app.events_20260614", dropped); ("app.events_default", active)].
Proof. vm_compute. reflexivity. Qed.
