(* ===== verification/AdvisoryLock.v ===== *)
(** * Advisory locks ([internal/maintainer/advisory_lock.go])

    The lock of a parent is a session-scoped advisory lock of PostgreSQL on
    the hashes of its schema and table; [poolLocker] is the [Locker] the
    maintainer is constructed with. *)

From S2P Require Import Prelude GoTime Errs Store World Logic.
Local Open Scope string_scope.

Section advisory_lock.
Context {C : Type} {E : Env C}.

Definition try_lock_sql : string := "SELECT pg_try_advisory_lock(hashtext($1), hashtext($2))".
Definition unlock_sql : string := "SELECT pg_advisory_unlock(hashtext($1), hashtext($2))".

(** [row.Scan(&b)] *)
Definition scan_bool (row : list value) : res bool :=
  match row with
  | [VBool b] => Ok b
  | _ => Err (Msg "cannot scan")
  end.

Definition TryLock (conn : nat) (schema table : string) : M C bool :=
  wrapping "maintainer: pg_try_advisory_lock: %w"
    (row ← Call conn try_lock_sql [VText schema; VText table]; lift (scan_bool row)).

Definition Unlock (conn : nat) (schema table : string) : M C unit :=
  released ← wrapping "maintainer: pg_advisory_unlock: %w"
    (row ← Call conn unlock_sql [VText schema; VText table]; lift (scan_bool row));
  if negb released then fail (Msg "maintainer: pg_advisory_unlock returned false for %s.%s")
  else mret tt.

(** [poolLocker.TryLock]: the release function of the lock, when it is held.
    [conn.Release] does not change what the model shows; an error of [Unlock]
    is logged. *)
Definition poolLocker_TryLock (schema table : string) : M C (option (M C unit)) :=
  conn ← wrapping "maintainer: acquire conn: %w" Acquire;
  locked ← TryLock conn schema table;
  if negb locked then mret None
  else mret (Some (attempt (Unlock conn schema table) ;; mret tt)).
End advisory_lock.
