(* ===== verification/Locks.v ===== *)
(** * Who holds a parent

    The maintainers and drains of any number of processes, each with a
    connection of its pool, against the advisory locks of PostgreSQL.  A step of
    a worker is one call of [AdvisoryLock], or a call on the pool; steps
    interleave freely, the environment may fail each statement, and a session
    may end at any time, also while its worker is at work.  Two workers whose
    sessions live never work on one parent at a time; when every unlock is
    sent or closes its connection, no lock outlives its worker.  A worker
    whose session has ended does not learn of it: [lock_lost]. *)

From S2P Require Import Prelude GoTime GoStrings Errs Store World Logic AdvisoryLock.
From stdpp Require Import gmap.
Local Open Scope string_scope.
Local Open Scope nat_scope.

(** ** What the workers rely on *)

Notation key := (Z * Z)%type.

(** Session-level advisory locks of PostgreSQL: [pg_try_advisory_lock] grants a
    lock unless another session holds it, as often as it is asked;
    [pg_advisory_unlock] takes one hold back and says whether there was one;
    the locks of a session end with it. *)
Class AdvisoryLocks {C} (E : Env C) := {
  hashtext : string → Z;
  (** how often a session holds a lock *)
  held : C → nat → key → nat;
  (** the end of a session *)
  end_session : nat → C → C;
  try_answers s schema table c :
    let k := (hashtext schema, hashtext table) in
    ∃ b c', pg_call s try_lock_sql [VText schema; VText table] c = Ok ([VBool b], c') ∧
      (b = true ↔ ∀ s', s' ≠ s → held c s' k = 0) ∧
      ∀ s' k', held c' s' k' = held c s' k' + (if b && bool_decide (s' = s) && bool_decide (k' = k) then 1 else 0);
  unlock_answers s schema table c :
    let k := (hashtext schema, hashtext table) in
    ∃ b c', pg_call s unlock_sql [VText schema; VText table] c = Ok ([VBool b], c') ∧
      (b = true ↔ held c s k ≠ 0) ∧
      ∀ s' k', held c' s' k' = held c s' k' - (if bool_decide (s' = s) && bool_decide (k' = k) then 1 else 0);
  end_session_held s c s' k : held (end_session s c) s' k = if bool_decide (s' = s) then 0 else held c s' k
}.

(** A pool of connections ([pgxpool]): it lends a connection to one caller at
    a time, and does not lend again what came back closed. *)
Class ConnPool (P : Type) := {
  new_pool : P;
  (** the number settles what the pool leaves open; [None] is an error *)
  pool_acquire : nat → P → option (nat * P);
  (** [conn.Release]; whether the connection is closed *)
  pool_release : nat → bool → P → P;
  lent : P → nat → Prop;
  retired : P → nat → Prop;
  new_pool_fresh c : ¬ lent new_pool c ∧ ¬ retired new_pool c;
  acquire_lends n p c p' : pool_acquire n p = Some (c, p') →
    ¬ lent p c ∧ ¬ retired p c ∧ (∀ c', lent p' c' ↔ c' = c ∨ lent p c') ∧ (∀ c', retired p' c' ↔ retired p c');
  release_returns c closed p : lent p c →
    (∀ c', lent (pool_release c closed p) c' ↔ c' ≠ c ∧ lent p c') ∧
    (∀ c', retired (pool_release c closed p) c' ↔ (closed = true ∧ c' = c) ∨ retired p c')
}.

Section locking.
Context {C P : Type} (E0 : Env C) {HL : AdvisoryLocks E0} {HP : ConnPool P} (c0 : C).

Definition key_of_table (schema table : string) : key := (hashtext schema, hashtext table).

(** What becomes of a statement: it is answered; or it is not sent, because its
    context is cancelled or the connection is gone, which pgx may then close;
    or it is executed and the reply is lost, and pgx closes the connection. *)
Inductive delivery := Answered | NotSent (e : error) (close : bool) | NoReply (e : error).
Definition fault_of (d : delivery) : option fault :=
  match d with Answered => None | NotSent e _ => Some (Lost e) | NoReply e => Some (Applied e) end.
Definition closes (d : delivery) : bool :=
  match d with Answered => false | NotSent _ close => close | NoReply _ => true end.

(** The environment of one statement. *)
Definition lock_env (d : delivery) : Env C := {|
  pg_exec := pg_exec; pg_query := pg_query; pg_call := pg_call (Env := E0); Sanitize := Sanitize;
  env_fault _ := fault_of d; env_session := env_session; env_now := env_now; env_ctx := env_ctx;
  env_ulid := env_ulid; env_rand := env_rand; env_scan := λ A, env_scan (C := C) A;
  env_collate := env_collate; env_zone := env_zone (C := C)
|}.

(** A call on the lock table. *)
Definition on_table {A} (m : M C A) (t : C) : outcome A * C :=
  let '(o, w) := m (mkWorld (mkDB empty_Meta t) O []) in (o, catalog (db w)).
Definition try_on (d : delivery) (c : nat) (schema table : string) (t : C) : outcome bool * C :=
  on_table (TryLock (E := lock_env d) c schema table) t.
Definition unlock_on (d : delivery) (c : nat) (schema table : string) (t : C) : outcome unit * C :=
  on_table (Unlock (E := lock_env d) c schema table) t.

(** ** Workers *)

(** A maintainer or a drain at its parent; [c] is its connection, and the
    number of its session. *)
Inductive worker :=
| Waiting (schema table : string)                  (* before [pool.Acquire] *)
| Acquired (c : nat) (schema table : string)       (* before [TryLock] *)
| Working (c : nat) (schema table : string)        (* [TryLock] has returned true *)
| Releasing (c : nat) (closed : bool)              (* before [conn.Release] *)
| Finished.

(** [gone]: the sessions that have ended. *)
Record system := mkSystem { lock_table : C; pool : P; gone : gset nat; workers : list worker }.

Definition set_worker (i : nat) (x : worker) (s : system) : system :=
  mkSystem (lock_table s) (pool s) (gone s) (<[i := x]> (workers s)).
Definition with_table (t : C) (s : system) : system := mkSystem t (pool s) (gone s) (workers s).
Definition with_pool (p : P) (s : system) : system := mkSystem (lock_table s) p (gone s) (workers s).

(** No statement reaches a session that has ended. *)
Definition possible (c : nat) (d : delivery) (s : system) : bool :=
  match d with NotSent _ _ => true | _ => negb (bool_decide (c ∈ gone s)) end.

Inductive action :=
| Arrive (schema table : string)          (* another worker *)
| Get (i n : nat)                         (* [pool.Acquire] *)
| Try (i : nat) (d : delivery)
| Finish (i : nat) (d : delivery)         (* the work is over: returned, failed or panicked *)
| Put (i : nat)                           (* [conn.Release] *)
| Hang (c : nat).                         (* a session ends *)

Definition act (a : action) (s : system) : option system :=
  match a with
  | Arrive schema table => Some (mkSystem (lock_table s) (pool s) (gone s) (workers s ++ [Waiting schema table]))
  | Get i n =>
      match workers s !! i with
      | Some (Waiting schema table) =>
          match pool_acquire n (pool s) with
          | Some (c, p) => Some (set_worker i (Acquired c schema table) (with_pool p s))
          | None => Some (set_worker i Finished s)
          end
      | _ => None
      end
  | Try i d =>
      match workers s !! i with
      | Some (Acquired c schema table) =>
          if possible c d s then
            let '(o, t) := try_on d c schema table (lock_table s) in
            let next := match o with Ret true => Working c schema table | _ => Releasing c (closes d) end in
            Some (set_worker i next (with_table t s))
          else None
      | _ => None
      end
  | Finish i d =>
      match workers s !! i with
      | Some (Working c schema table) =>
          if possible c d s then
            let '(_, t) := unlock_on d c schema table (lock_table s) in
            Some (set_worker i (Releasing c (closes d)) (with_table t s))
          else None
      | _ => None
      end
  | Put i =>
      match workers s !! i with
      | Some (Releasing c closed) => Some (set_worker i Finished (with_pool (pool_release c closed (pool s)) s))
      | _ => None
      end
  | Hang c => Some (mkSystem (end_session c (lock_table s)) (pool s) ({[c]} ∪ gone s) (workers s))
  end.
Fixpoint acts (l : list action) (s : system) : option system :=
  match l with [] => Some s | a :: l => s' ← act a s; acts l s' end.

Definition no_workers : system := mkSystem c0 new_pool ∅ [].
Inductive reached : system → Prop :=
| reached_init : reached no_workers
| reached_act s a s' : reached s → act a s = Some s' → reached s'.
End locking.
Arguments system C P : clear implicits.

(** ** The calls on the table *)

Section proofs.
Context {C P : Type} (E0 : Env C) {HL : AdvisoryLocks E0} {HP : ConnPool P}.
(** Nobody holds a lock at the start. *)
Context (c0 : C) (Hfree : ∀ s k, held c0 s k = 0).
Notation key_of_table := (key_of_table E0).
Notation system := (system C P).
Notation act := (act E0).
Notation reached := (reached E0 c0).

(** What a call may do to the table: nothing; give [c] the key, if nobody else
    has it; take one hold of it away. *)
Definition same_locks (t t' : C) : Prop := ∀ c k, held t' c k = held t c k.
Definition gives (c : nat) (k : key) (t t' : C) : Prop :=
  (∀ c', c' ≠ c → held t c' k = 0) ∧
  ∀ c' k', held t' c' k' = held t c' k' + (if bool_decide (c' = c) && bool_decide (k' = k) then 1 else 0).
Definition takes (c : nat) (k : key) (t t' : C) : Prop :=
  ∀ c' k', held t' c' k' = held t c' k' - (if bool_decide (c' = c) && bool_decide (k' = k) then 1 else 0).

Lemma try_on_run d c schema table t o t' :
  try_on E0 d c schema table t = (o, t') →
  (same_locks t t' ∧ o ≠ Ret true) ∨
  (gives c (key_of_table schema table) t t' ∧ (o = Ret true ∧ d = Answered ∨ o ≠ Ret true ∧ ∃ e, d = NoReply e)).
Proof.
  unfold try_on, on_table, TryLock, Call, statement, wrapping, lift. cbn [env_fault lock_env].
  unfold next_tick, get_db, put_db, set_db, mbind, M_bind.
  destruct (try_answers c schema table t) as (b & t1 & Hc & Hb & Hh).
  assert (b = false → same_locks t t1) as Hsame by (intros -> c' k'; rewrite Hh; cbn; lia).
  assert (b = true → gives c (key_of_table schema table) t t1) as Hgives.
  { intros ->. split; [by apply Hb|exact Hh]. }
  destruct d as [|e close|e]; cbn; rewrite ?Hc; cbn.
  - destruct b; cbn; intros [= <- <-]; [right|left]; auto.
  - intros [= <- <-]. by left.
  - intros [= <- <-]. destruct b; [right|left]; eauto 6.
Qed.
Lemma unlock_on_run d c schema table t o t' :
  unlock_on E0 d c schema table t = (o, t') →
  (same_locks t t' ∧ ∃ e close, d = NotSent e close) ∨ takes c (key_of_table schema table) t t'.
Proof.
  unfold unlock_on, on_table, Unlock, Call, statement, wrapping, lift. cbn [env_fault lock_env].
  unfold next_tick, get_db, put_db, set_db, mbind, M_bind.
  destruct (unlock_answers c schema table t) as (b & t1 & Hc & _ & Hh).
  destruct d as [|e close|e]; cbn; rewrite ?Hc; cbn; intros Hrun.
  - right. destruct b; cbn in Hrun; injection Hrun as <- <-; exact Hh.
  - left. injection Hrun as <- <-. split; [done|by eauto].
  - right. injection Hrun as <- <-. exact Hh.
Qed.

(** No two sessions hold a lock. *)
Definition exclusive (t : C) : Prop := ∀ c c' k, held t c k ≠ 0 → held t c' k ≠ 0 → c = c'.
(** The table changes for one session only. *)
Record local (c : nat) (t t' : C) : Prop := {
  local_others c' k : c' ≠ c → held t' c' k = held t c' k;
  local_exclusive : exclusive t → exclusive t'
}.
Lemma local_fewer c t t' :
  (∀ c' k, c' ≠ c → held t' c' k = held t c' k) → (∀ k, held t' c k <= held t c k) → local c t t'.
Proof.
  intros Ho Hc. split; [done|]. intros Hx c1 c2 k H1 H2.
  assert (∀ c', held t' c' k ≠ 0 → held t c' k ≠ 0) as Hs.
  { intros c'. destruct (decide (c' = c)) as [->|Hn]; [specialize (Hc k); lia|by rewrite Ho]. }
  by eapply Hx; apply Hs.
Qed.
Lemma same_locks_local c t t' : same_locks t t' → local c t t'.
Proof. intros Hs. apply local_fewer; intros; by rewrite Hs. Qed.
Lemma takes_local c k t t' : takes c k t t' → local c t t'.
Proof.
  intros Ht. apply local_fewer; [intros c' k' Hn|intros k']; rewrite Ht; [rewrite (bool_decide_false (c' = c)) by done; cbn|]; lia.
Qed.
Lemma gives_local c k t t' : gives c k t t' → local c t t'.
Proof.
  intros [Hfree' Hh]. split.
  - intros c' k' Hn. rewrite Hh, (bool_decide_false (c' = c)) by done. cbn. lia.
  - intros Hx c1 c2 k'. rewrite !Hh. destruct (decide (k' = k)) as [->|Hn].
    + rewrite (bool_decide_true (k = k)), !andb_true_r by done. intros H1 H2.
      assert (∀ c', held t c' k + (if bool_decide (c' = c) then 1 else 0) ≠ 0 → c' = c) as Hone.
      { intros c'. destruct (decide (c' = c)); [done|]. rewrite bool_decide_false, Hfree' by done. lia. }
      by rewrite (Hone _ H1), (Hone _ H2).
    + rewrite (bool_decide_false (k' = k)), !andb_false_r, !Nat.add_0_r by done. apply Hx.
Qed.
Lemma end_session_local c t : local c t (end_session c t).
Proof.
  apply local_fewer; [intros c' k Hn|intros k]; rewrite end_session_held.
  - by rewrite bool_decide_false.
  - rewrite bool_decide_true by done. lia.
Qed.

(** ** What holds in every reachable state *)

Definition conn_of (x : worker) : option nat :=
  match x with Acquired c _ _ | Working c _ _ | Releasing c _ => Some c | _ => None end.
Record sound (s : system) : Prop := {
  sound_table : exclusive (lock_table s);
  sound_gone c k : c ∈ gone s → held (lock_table s) c k = 0;
  sound_conn i x c : workers s !! i = Some x → conn_of x = Some c → lent (pool s) c ∧ ¬ retired (pool s) c;
  sound_apart i j x y c : workers s !! i = Some x → workers s !! j = Some y →
    conn_of x = Some c → conn_of y = Some c → i = j;
  sound_work i c schema table : workers s !! i = Some (Working c schema table) → c ∉ gone s →
    held (lock_table s) c (key_of_table schema table) ≠ 0
}.

Lemma lookup_set (s : system) i x y j z :
  workers s !! i = Some x → <[i := y]> (workers s) !! j = Some z →
  (j = i ∧ z = y) ∨ (j ≠ i ∧ workers s !! j = Some z).
Proof.
  intros Hi. destruct (decide (j = i)) as [->|Hn].
  - rewrite list_lookup_insert_eq by (by eapply lookup_lt_Some). intros [= <-]. auto.
  - rewrite list_lookup_insert_ne by done. auto.
Qed.

(** A step of worker [i] with its connection [c]. *)
Lemma sound_own s i x y c t :
  sound s → workers s !! i = Some x → conn_of x = Some c → conn_of y = Some c →
  local c (lock_table s) t → (c ∈ gone s → ∀ k, held t c k = 0) →
  (∀ schema table, y = Working c schema table → held t c (key_of_table schema table) ≠ 0) →
  sound (set_worker i y (with_table t s)).
Proof.
  intros [H1 H2 H3 H4 H5] Hi Hx Hy Hl Hg Hw. split; cbn.
  - by apply Hl.
  - intros c' k Hc. destruct (decide (c' = c)) as [->|Hn]; [by apply Hg|]. rewrite (local_others _ _ _ Hl) by done. by apply H2.
  - intros j z c' Hj Hz. destruct (lookup_set _ _ _ _ _ _ Hi Hj) as [[-> ->]|[_ Hj']]; [|by eapply H3].
    rewrite Hy in Hz. injection Hz as <-. by eapply H3.
  - intros j1 j2 z1 z2 c' Hj1 Hj2 Hz1 Hz2.
    destruct (lookup_set _ _ _ _ _ _ Hi Hj1) as [[-> ->]|[Hn1 Hj1']], (lookup_set _ _ _ _ _ _ Hi Hj2) as [[-> ->]|[Hn2 Hj2']].
    + done.
    + assert (c' = c) as -> by congruence. by eapply (H4 i j2).
    + assert (c' = c) as -> by congruence. by eapply (H4 j1 i).
    + by eapply (H4 j1 j2).
  - intros j c' schema table Hj Hc. destruct (lookup_set _ _ _ _ _ _ Hi Hj) as [[-> Heq]|[Hn Hj']].
    + subst y. cbn in Hy. injection Hy as ->. by apply Hw.
    + assert (c' ≠ c) as Hne by (intros ->; apply Hn; by eapply (H4 j i)).
      rewrite (local_others _ _ _ Hl) by done. by apply (H5 j).
Qed.

(** A worker that takes a connection of the pool, or gives one back. *)
Lemma sound_pool s i x y p :
  sound s → workers s !! i = Some x → (∀ c schema table, y ≠ Working c schema table) →
  (∀ c, conn_of y = Some c → lent p c ∧ ¬ retired p c ∧ ∀ j z, workers s !! j = Some z → conn_of z ≠ Some c) →
  (∀ j z c, j ≠ i → workers s !! j = Some z → conn_of z = Some c → lent p c ∧ ¬ retired p c) →
  sound (set_worker i y (with_pool p s)).
Proof.
  intros [H1 H2 H3 H4 H5] Hi Hnw Hy Ho. split; cbn; try done.
  - intros j z c Hj Hz. destruct (lookup_set _ _ _ _ _ _ Hi Hj) as [[-> ->]|[Hn Hj']]; [|by eapply Ho].
    by destruct (Hy c Hz) as (? & ? & _).
  - intros j1 j2 z1 z2 c Hj1 Hj2 Hz1 Hz2.
    destruct (lookup_set _ _ _ _ _ _ Hi Hj1) as [[-> ->]|[_ Hj1']], (lookup_set _ _ _ _ _ _ Hi Hj2) as [[-> ->]|[_ Hj2']].
    + done.
    + destruct (Hy c Hz1) as (_ & _ & Hno). by destruct (Hno _ _ Hj2').
    + destruct (Hy c Hz2) as (_ & _ & Hno). by destruct (Hno _ _ Hj1').
    + by eapply (H4 j1 j2).
  - intros j c sc tb Hj Hc. destruct (lookup_set _ _ _ _ _ _ Hi Hj) as [[_ Heq]|[_ Hj']]; [by destruct (Hnw c sc tb)|by apply (H5 j)].
Qed.

Lemma possible_gone c d (s : system) : possible c d s = true → c ∈ gone s → ∃ e close, d = NotSent e close.
Proof. intros Hp Hg. destruct d; cbn in Hp; eauto; by rewrite bool_decide_true in Hp. Qed.
Lemma same_locks_gone s c t : sound s → same_locks (lock_table s) t → c ∈ gone s → ∀ k, held t c k = 0.
Proof. intros Hs Hsame Hg k. rewrite Hsame. by apply (sound_gone _ Hs). Qed.

Lemma sound_act s a s' : sound s → act a s = Some s' → sound s'.
Proof.
  intros Hs. destruct a as [sc tb|i n|i d|i d|i|c]; cbn [Locks.act].
  - intros [= <-]. destruct Hs as [H1 H2 H3 H4 H5].
    assert (∀ j y c, (workers s ++ [Waiting sc tb])%list !! j = Some y → conn_of y = Some c → workers s !! j = Some y) as Hold.
    { intros j y c. rewrite lookup_app. destruct (workers s !! j); [done|]. by intros [_ <-]%list_lookup_singleton_Some. }
    split; cbn; auto.
    + intros j y c Hj Hy. eapply H3; eauto.
    + intros j1 j2 y1 y2 c Hj1 Hj2 Hy1 Hy2. eapply (H4 j1 j2); eauto.
    + intros j c sc' tb' Hj. eapply H5, (Hold j _ c); eauto.
  - destruct (workers s !! i) as [[]|] eqn:Hi; try done.
    destruct (pool_acquire n (pool s)) as [[c p]|] eqn:Ha; intros [= <-].
    + destruct (acquire_lends _ _ _ _ Ha) as (Hnl & Hnr & Hl & Hr). eapply sound_pool; [done|exact Hi|done|..].
      * intros c' [= <-]. split_and!; [apply Hl; by left|by rewrite Hr|].
        intros j z Hj Hz. apply Hnl. by apply (sound_conn _ Hs j z).
      * intros j z c' _ Hj Hz. destruct (sound_conn _ Hs _ _ _ Hj Hz). rewrite Hl, Hr. auto.
    + replace s with (with_pool (pool s) s) at 1 by by destruct s.
      eapply sound_pool; [done|exact Hi|done..|]. intros j z c _ Hj Hz. by apply (sound_conn _ Hs j z).
  - destruct (workers s !! i) as [[|c sc tb| | |]|] eqn:Hi; try done. destruct (possible c d s) eqn:Hp; [|done].
    destruct (try_on _ _ _ _ _ _) as [o t] eqn:Ht. apply try_on_run in Ht. intros [= <-].
    eapply sound_own; [done|exact Hi|done| | |..].
    { by destruct o as [[]| |]. }
    { destruct Ht as [[Hsame _]|[Hg _]]; [by apply same_locks_local|by eapply gives_local]. }
    { intros Hg. destruct (possible_gone _ _ _ Hp Hg) as (e & close & ->).
      destruct Ht as [[Hsame _]|[_ [[_ [=]]|(_ & ? & [=])]]]. by eapply same_locks_gone. }
    intros sc' tb' Hw. destruct Ht as [[_ Hno]|[[_ Hh] _]]; [by destruct o as [[]| |]|].
    destruct o as [[]| |]; try done. injection Hw as <- <-. rewrite Hh, !bool_decide_true by done. cbn. lia.
  - destruct (workers s !! i) as [[| |c sc tb| |]|] eqn:Hi; try done. destruct (possible c d s) eqn:Hp; [|done].
    destruct (unlock_on _ _ _ _ _ _) as [o t] eqn:Ht. apply unlock_on_run in Ht. intros [= <-].
    eapply sound_own; [done|exact Hi|done|done| | |done].
    + destruct Ht as [[Hsame _]|Hh]; [by apply same_locks_local|by eapply takes_local].
    + intros Hg k. pose proof (sound_gone _ Hs c k Hg) as H0. destruct Ht as [[Hsame _]|Hh]; [by rewrite Hsame|]. rewrite Hh, H0. done.
  - destruct (workers s !! i) as [[| | |c closed|]|] eqn:Hi; try done. intros [= <-].
    destruct (sound_conn _ Hs _ _ c Hi) as [Hc Hn]; [done|]. destruct (release_returns c closed (pool s) Hc) as [Hl Hr].
    eapply sound_pool; [done|exact Hi|done..|]. intros j z c' Hji Hj Hz. destruct (sound_conn _ Hs _ _ _ Hj Hz).
    assert (c' ≠ c) by (intros ->; apply Hji; by eapply (sound_apart _ Hs j i)). rewrite Hl, Hr. naive_solver.
  - intros [= <-]. pose proof (end_session_local c (lock_table s)) as Hl. destruct Hs as [H1 H2 H3 H4 H5]. split; cbn.
    + by apply Hl.
    + intros c' k. rewrite elem_of_union, elem_of_singleton, end_session_held. case_bool_decide; [done|]. intros [?|?]; [done|by apply H2].
    + done.
    + done.
    + intros j c' sc tb Hj Hc. rewrite end_session_held, bool_decide_false by set_solver. apply (H5 j); [done|set_solver].
Qed.
Lemma reached_sound s : reached s → sound s.
Proof.
  induction 1 as [|s a s' _ IH Ha]; [|by eapply sound_act]. split; cbn; try done.
  intros c c' k []. apply Hfree.
Qed.

(** C17: one worker per parent.  Whatever the interleaving of any number of
    maintainers and drains, whichever statements fail, whichever sessions end
    and whatever the hash function: as long as the session of a worker that
    has been granted the lock of a parent lives, no other worker whose session
    lives has one of the same key, and none is granted it. *)
Theorem lock_exclusion s i c schema table :
  reached s → workers s !! i = Some (Working c schema table) → c ∉ gone s →
  (∀ j c' schema' table', workers s !! j = Some (Working c' schema' table') → c' ∉ gone s →
     key_of_table schema' table' = key_of_table schema table → j = i) ∧
  (∀ j d c' schema' table' s', workers s !! j = Some (Acquired c' schema' table') →
     key_of_table schema' table' = key_of_table schema table → act (Try j d) s = Some s' →
     ∃ closed, workers s' !! j = Some (Releasing c' closed)).
Proof.
  intros Hs%reached_sound Hi Hc. pose proof (sound_work _ Hs _ _ _ _ Hi Hc) as Hh. split.
  - intros j c' sc tb Hj Hc' Hk. pose proof (sound_work _ Hs _ _ _ _ Hj Hc') as Hh'. rewrite Hk in Hh'.
    assert (c' = c) as -> by (by eapply (sound_table _ Hs)). by eapply (sound_apart _ Hs).
  - intros j d c' sc tb s' Hj Hk. cbn [Locks.act]. rewrite Hj. destruct (possible c' d s); [|done].
    destruct (try_on _ _ _ _ _ _) as [o t] eqn:Ht. apply try_on_run in Ht. intros [= <-]. exists (closes d).
    unfold set_worker. cbn [workers with_table]. rewrite list_lookup_insert_eq by by eapply lookup_lt_Some. f_equal.
    destruct o as [[]| |]; try done. destruct Ht as [[_ ?]|[[Hf _] _]]; [done|]. rewrite Hk in Hf.
    assert (c ≠ c') as Hne by (intros ->; assert (i = j) as -> by (by eapply (sound_apart _ Hs)); congruence).
    by destruct (Hh (Hf c Hne)).
Qed.

(** ** When every unlock is sent, or closes its connection *)

Definition clean (a : action) (s : system) : bool :=
  match a with
  | Finish i (NotSent _ false) =>
      match workers s !! i with Some (Working c _ _) => bool_decide (c ∈ gone s) | _ => true end
  | _ => true
  end.
Inductive reached_clean : system → Prop :=
| clean_init : reached_clean (no_workers c0)
| clean_act s a s' : reached_clean s → clean a s = true → act a s = Some s' → reached_clean s'.
Lemma clean_reached s : reached_clean s → reached s.
Proof. induction 1; by econstructor. Qed.

(** A worker is at work on a table of the key; the connection is closed. *)
Definition owned (s : system) (c : nat) (k : key) : Prop :=
  ∃ i schema table, workers s !! i = Some (Working c schema table) ∧ k = key_of_table schema table.
Definition closed (s : system) (c : nat) : Prop :=
  retired (pool s) c ∨ ∃ i, workers s !! i = Some (Releasing c true).
Definition tidy (s : system) : Prop :=
  ∀ c k, held (lock_table s) c k = 0 ∨ held (lock_table s) c k = 1 ∧ (owned s c k ∨ closed s c).

(** A step of worker [i]: only the locks of its connection need a look. *)
Lemma tidy_own s i x y c t :
  tidy s → workers s !! i = Some x → conn_of x = Some c → local c (lock_table s) t →
  (∀ b, x ≠ Releasing c b) →
  (∀ k, held t c k = 0 ∨ held t c k = 1 ∧
     ((∃ schema table, y = Working c schema table ∧ k = key_of_table schema table) ∨ y = Releasing c true)) →
  tidy (set_worker i y (with_table t s)).
Proof.
  intros Ht Hi Hx Hl Hnr Hk c' k. cbn. assert (<[i:=y]> (workers s) !! i = Some y) as Hy
    by by rewrite list_lookup_insert_eq by (by eapply lookup_lt_Some).
  destruct (decide (c' = c)) as [->|Hn].
  - destruct (Hk k) as [?|[Hh [(sc & tb & -> & ->)| ->]]]; [by left|right..]; (split; [done|]).
    + left. by exists i, sc, tb.
    + right. right. by exists i.
  - rewrite (local_others _ _ _ Hl) by done.
    assert (∀ j z, conn_of z = Some c' → workers s !! j = Some z → <[i:=y]> (workers s) !! j = Some z) as Hj.
    { intros j z Hz Hj. rewrite list_lookup_insert_ne; [done|]. intros ->. congruence. }
    destruct (Ht c' k) as [?|[Hh [(j & sc & tb & Hjw & ->)|[Hr|[j Hjw]]]]]; [by left|right..]; (split; [done|]).
    + left. exists j, sc, tb. split; [by apply Hj|done].
    + right. by left.
    + right. right. exists j. by apply Hj.
Qed.
(** A step that leaves the table alone and takes no lock away from its owner. *)
Lemma tidy_same s s' :
  tidy s → (∀ c k, held (lock_table s') c k = held (lock_table s) c k) →
  (∀ c k, owned s c k → owned s' c k) → (∀ c, closed s c → closed s' c) → tidy s'.
Proof. intros Ht Hh Ho Hc c k. rewrite Hh. destruct (Ht c k) as [?|[? [?|?]]]; auto. Qed.

Lemma tidy_act s a s' : sound s → tidy s → clean a s = true → act a s = Some s' → tidy s'.
Proof.
  intros Hs Ht Hc. destruct a as [sc tb|i n|i d|i d|i|c]; cbn [Locks.act].
  - intros [= <-]. apply (tidy_same s); [done|done|..].
    + intros c k (j & sc' & tb' & Hj & ->). exists j, sc', tb'. split; [|done]. by apply lookup_app_l_Some.
    + intros c [?|[j Hj]]; [by left|right]. exists j. by apply lookup_app_l_Some.
  - destruct (workers s !! i) as [[]|] eqn:Hi; try done.
    assert (∀ j z y c, conn_of z = Some c → workers s !! j = Some z → <[i:=y]> (workers s) !! j = Some z) as Hj.
    { intros j z y c Hz Hj. rewrite list_lookup_insert_ne; [done|]. intros ->. rewrite Hi in Hj. by injection Hj as <-. }
    destruct (pool_acquire n (pool s)) as [[c p]|] eqn:Ha; intros [= <-]; (apply (tidy_same s); [done|done|..]).
    + intros c' k (j & sc & tb & Hw & ->). exists j, sc, tb. split; [by eapply Hj|done].
    + destruct (acquire_lends _ _ _ _ Ha) as (_ & _ & _ & Hr). intros c' [?|[j Hw]]; [left; by apply Hr|right].
      exists j. by eapply Hj.
    + intros c' k (j & sc & tb & Hw & ->). exists j, sc, tb. split; [by eapply Hj|done].
    + intros c' [?|[j Hw]]; [by left|right]. exists j. by eapply Hj.
  - destruct (workers s !! i) as [[|c sc tb| | |]|] eqn:Hi; try done. destruct (possible c d s); [|done].
    destruct (try_on _ _ _ _ _ _) as [o t] eqn:Hon. apply try_on_run in Hon. intros [= <-].
    assert (∀ k, held (lock_table s) c k = 0) as Hnone.
    { intros k. destruct (Ht c k) as [?|[_ [(j & sc' & tb' & Hj & _)|[Hr|[j Hj]]]]]; [done|..].
      - assert (i = j) as -> by (by eapply (sound_apart _ Hs)). congruence.
      - by destruct (sound_conn _ Hs _ _ c Hi).
      - assert (i = j) as -> by (by eapply (sound_apart _ Hs)). congruence. }
    eapply tidy_own; [done|exact Hi|done| |done|].
    { destruct Hon as [[Hsame _]|[Hg _]]; [by apply same_locks_local|by eapply gives_local]. }
    intros k. destruct Hon as [[Hsame _]|[[_ Hh] Ho]]; [left; by rewrite Hsame|]. rewrite Hh, Hnone, bool_decide_true by done.
    cbn. case_bool_decide as Hk; [right|by left]. split; [done|].
    destruct Ho as [[-> _]|[Ho [e ->]]]; [left; by exists sc, tb|right]. by destruct o as [[]| |].
  - destruct (workers s !! i) as [[| |c sc tb| |]|] eqn:Hi; try done. destruct (possible c d s); [|done].
    destruct (unlock_on _ _ _ _ _ _) as [o t] eqn:Hon. apply unlock_on_run in Hon. intros [= <-].
    assert (∀ k, held (lock_table s) c k = 0 ∨ held (lock_table s) c k = 1 ∧ k = key_of_table sc tb) as Hone.
    { intros k. destruct (Ht c k) as [?|[Hh [(j & sc' & tb' & Hj & ->)|[Hr|[j Hj]]]]]; [by left|..].
      - assert (i = j) as -> by (by eapply (sound_apart _ Hs)). rewrite Hi in Hj. injection Hj as <- <-. by right.
      - by destruct (sound_conn _ Hs _ _ c Hi).
      - assert (i = j) as -> by (by eapply (sound_apart _ Hs)). congruence. }
    eapply tidy_own; [done|exact Hi|done| |done|].
    { destruct Hon as [[Hsame _]|Hh]; [by apply same_locks_local|by eapply takes_local]. }
    intros k. destruct Hon as [[Hsame (e & close & ->)]|Hh].
    + rewrite Hsame. destruct close; cbn in Hc |- *.
      * destruct (Hone k) as [?|[? _]]; auto.
      * rewrite Hi, bool_decide_eq_true in Hc. left. by apply (sound_gone _ Hs).
    + left. rewrite Hh. destruct (Hone k) as [-> |[-> ->]]; [done|]. by rewrite !bool_decide_true.
  - destruct (workers s !! i) as [[| | |c b|]|] eqn:Hi; try done. intros [= <-].
    destruct (sound_conn _ Hs _ _ c Hi) as [Hl _]; [done|]. destruct (release_returns c b (pool s) Hl) as [_ Hr].
    assert (∀ j z, z ≠ Releasing c b → workers s !! j = Some z → <[i:=Finished]> (workers s) !! j = Some z) as Hj.
    { intros j z Hz Hj. rewrite list_lookup_insert_ne; [done|]. intros ->. congruence. }
    apply (tidy_same s); [done|done|..].
    + intros c' k (j & sc & tb & Hw & ->). exists j, sc, tb. split; [by apply Hj|done].
    + intros c' [?|[j Hw]]; [left; apply Hr; by right|]. destruct (decide (c' = c ∧ b = true)) as [[-> ->]|Hn].
      * left. apply Hr. by left.
      * right. exists j. apply Hj; [|done]. intros [= -> <-]. by destruct Hn.
  - intros [= <-] c' k. cbn. rewrite end_session_held. case_bool_decide; [by left|]. apply Ht.
Qed.

(** C18: the lock table.  When every unlock is sent, or closes its connection,
    then in every reachable state a session holds a lock at most once; each
    one that is held belongs to a worker at work on a table of its key, or to
    the session of a closed connection, with which it ends; and every worker at
    work holds its lock as long as its session lives. *)
Theorem lock_released s c k :
  reached_clean s →
  (held (lock_table s) c k = 0 ∨ held (lock_table s) c k = 1) ∧
  (held (lock_table s) c k = 1 → owned s c k ∨ closed s c) ∧
  (owned s c k → c ∉ gone s → held (lock_table s) c k = 1).
Proof.
  intros Hr. pose proof (reached_sound _ (clean_reached _ Hr)) as Hs.
  assert (tidy s) as Ht.
  { clear Hs. induction Hr as [|s a s' Hr IH Hc Ha]; [intros c' k'; left; apply Hfree|].
    eapply tidy_act; [|exact IH|done..]. by apply reached_sound, clean_reached. }
  split_and!.
  - destruct (Ht c k) as [?|[? _]]; auto.
  - intros H1. destruct (Ht c k) as [?|[_ ?]]; [congruence|done].
  - intros (i & sc & tb & Hi & ->) Hg. pose proof (sound_work _ Hs _ _ _ _ Hi Hg).
    destruct (Ht c (key_of_table sc tb)) as [?|[? _]]; done.
Qed.
End proofs.

(** ** Runs *)

(** A lock table: how often a session holds a lock. *)
Notation table := (list (nat * key)).
Definition count_held (L : table) (c : nat) (k : key) : nat := length (filter (λ e, e = (c, k)) L).
Fixpoint remove_one (e : nat * key) (L : table) : table :=
  match L with [] => [] | x :: L => if bool_decide (x = e) then L else x :: remove_one e L end.
Definition hash (s : string) : Z := Z.of_nat (String.length s).
Definition table_call (c : nat) (sql : string) (args : list value) (L : table) : res (list value * table) :=
  match args with
  | [VText schema; VText tbl] =>
      let k := (hash schema, hash tbl) in
      if bool_decide (sql = try_lock_sql) then
        if forallb (λ e, bool_decide (e.2 = k → e.1 = c)) L then Ok ([VBool true], (c, k) :: L) else Ok ([VBool false], L)
      else Ok ([VBool (negb (bool_decide (count_held L c k = 0)))], remove_one (c, k) L)
  | _ => Err (PgError "42883")
  end.
(** The rest of the environment plays no part. *)
Definition plain : Env table := {|
  pg_exec _ _ _ := Err NoRows; pg_query _ _ _ := Err NoRows; pg_call := table_call;
  Sanitize ids := GoStrings.Join "." ids; env_fault _ := None; env_session _ := 0; env_now _ := zero_Time; env_ctx _ := None;
  env_ulid _ := ""; env_rand _ := 0%Q; env_scan _ _ l := l; env_collate _ _ := true; env_zone := 0%Z
|}.

Lemma count_held_cons e L c k : count_held (e :: L) c k = count_held L c k + (if bool_decide (e = (c, k)) then 1 else 0).
Proof. unfold count_held. rewrite filter_cons. destruct (decide (e = (c, k))); [rewrite bool_decide_true|rewrite bool_decide_false]; cbn; try done; lia. Qed.
Lemma count_held_zero L c k : count_held L c k = 0 ↔ (c, k) ∉ L.
Proof.
  induction L as [|e L IH]; [split; [intros _; apply not_elem_of_nil|done]|].
  rewrite count_held_cons, not_elem_of_cons. case_bool_decide; [split; [lia|naive_solver]|]. rewrite Nat.add_0_r, IH. naive_solver.
Qed.
Lemma count_held_remove c k L c' k' :
  count_held (remove_one (c, k) L) c' k' = count_held L c' k' - (if bool_decide (c' = c) && bool_decide (k' = k) then 1 else 0).
Proof.
  assert (bool_decide (c' = c) && bool_decide (k' = k) = bool_decide ((c, k) = (c', k'))) as ->.
  { rewrite <- bool_decide_and. apply bool_decide_ext. naive_solver. }
  induction L as [|e L IH]; [done|]. cbn [remove_one]. destruct (bool_decide (e = (c, k))) eqn:He.
  - apply bool_decide_eq_true in He as ->. rewrite count_held_cons. lia.
  - apply bool_decide_eq_false in He. rewrite !count_held_cons, IH. destruct (bool_decide (e = (c', k'))) eqn:He'; [|lia].
    apply bool_decide_eq_true in He' as ->. rewrite (bool_decide_false ((c, k) = _)) by congruence. lia.
Qed.
#[export] Instance plain_locks : AdvisoryLocks plain.
Proof.
  refine {| hashtext := hash; held := count_held; end_session c L := filter (λ e, e.1 ≠ c) L |}.
  - intros s schema tbl L. cbn [pg_call plain table_call]. rewrite bool_decide_true by done.
    destruct (forallb _ L) eqn:Hf; (eexists _, _; split; [reflexivity|]); rewrite <- Is_true_true, forallb_True, Forall_forall in Hf || idtac.
    + split.
      * split; [intros _ s' Hs|done]. apply count_held_zero. intros Hin%Hf. apply bool_decide_spec in Hin. by apply Hs, Hin.
      * intros s' k'. rewrite count_held_cons. f_equal. cbn. rewrite <- bool_decide_and.
        erewrite bool_decide_ext; [reflexivity|]. naive_solver.
    + split; [|intros; cbn; lia]. split; [done|]. intros Hnone. exfalso. apply not_true_iff_false in Hf. apply Hf, forallb_forall.
      intros [c k] Hin. apply bool_decide_eq_true. cbn. intros ->. destruct (decide (c = s)) as [|Hn]; [done|].
      apply list_elem_of_In in Hin. by apply Hnone, count_held_zero in Hn.
  - intros s schema tbl L. cbn [pg_call plain table_call]. rewrite bool_decide_false by done.
    eexists _, _. split; [reflexivity|]. split; [|apply count_held_remove].
    by rewrite negb_true_iff, bool_decide_eq_false.
  - intros s L s' k. induction L as [|[c k1] L IH]; [by case_bool_decide|]. rewrite filter_cons. cbn [fst].
    destruct (decide (c ≠ s)) as [Hn|Hn]; rewrite ?count_held_cons, IH; (case_bool_decide; [|]).
    all: try (subst s'; by rewrite (bool_decide_false ((c, k1) = _)) by congruence). { done. } { done. }
    apply dec_stable in Hn as ->. rewrite (bool_decide_false ((s, k1) = _)) by congruence. lia.
Defined.

(** A pool: the connections that are lent, and those that came back closed.  It
    lends the connection of the number it is given, idle or new. *)
Notation connections := (gset nat * gset nat)%type.
#[export] Instance any_pool : ConnPool connections.
Proof.
  refine {| new_pool := (∅, ∅);
    pool_acquire n p := if bool_decide (n ∈ p.1 ∪ p.2) then None else Some (n, ({[n]} ∪ p.1, p.2));
    pool_release c closed p := (p.1 ∖ {[c]}, if closed then {[c]} ∪ p.2 else p.2);
    lent p c := c ∈ p.1; retired p c := c ∈ p.2 |}.
  - set_solver.
  - intros n p c p'. case_bool_decide as Hn; [done|]. intros [= <- <-]. cbn. set_solver.
  - intros c closed p Hc. cbn. destruct closed; set_solver.
Defined.

Notation start := (no_workers (P := connections) ([] : table)).
Definition after (l : list action) : system table connections := default start (acts plain l start).

Lemma acts_reached l s s' : reached plain [] s → acts plain l s = Some s' → reached (P := connections) plain [] s'.
Proof.
  revert s. induction l as [|a l IH]; intros s Hs; cbn; [by intros [= <-]|].
  destruct (act plain a s) as [s1|] eqn:Ha; [|done]. cbn. apply IH. by econstructor.
Qed.
(** Every step of [l] is clean. *)
Fixpoint all_clean (l : list action) (s : system table connections) : bool :=
  match l with [] => true | a :: l => clean a s && match act plain a s with Some s' => all_clean l s' | None => false end end.
Lemma acts_clean l s s' :
  reached_clean plain [] s → all_clean l s = true → acts plain l s = Some s' → reached_clean (P := connections) plain [] s'.
Proof.
  revert s. induction l as [|a l IH]; intros s Hs; cbn; [by intros _ [= <-]|].
  rewrite andb_true_iff. intros [Hc Hl].
  destruct (act plain a s) as [s1|] eqn:Ha; [|done]. cbn. apply IH; [by econstructor|done].
Qed.

Lemma nobody s k : held (E := plain) ([] : table) s k = 0.
Proof. done. Qed.

(** Two workers at two parents; a third is about to ask for the first parent. *)
Definition busy : list action :=
  [Arrive "app" "events"; Get 0 0; Try 0 Answered; Arrive "app" "logs"; Get 1 1; Try 1 Answered;
   Arrive "app" "events"; Get 2 2].
Lemma lock_exclusion_witness :
  workers (after busy) = [Working 0 "app" "events"; Working 1 "app" "logs"; Acquired 2 "app" "events"] ∧
  (∀ j c schema tbl, workers (after busy) !! j = Some (Working c schema tbl) → c ∉ gone (after busy) →
     key_of_table plain schema tbl = key_of_table plain "app" "events" → j = 0) ∧
  ∀ d s', act plain (Try 2 d) (after busy) = Some s' → ∃ closed, workers s' !! 2 = Some (Releasing 2 closed).
Proof.
  destruct (lock_exclusion plain [] nobody (after busy) 0 0 "app" "events") as [H1 H2].
  - apply (acts_reached busy start); [constructor|vm_compute; reflexivity].
  - vm_compute. reflexivity.
  - vm_compute. done.
  - split_and!; [vm_compute; reflexivity|exact H1|]. intros d s'. by apply (H2 2 d 2 "app" "events").
Defined.
(** One worker's unlock is not sent and its connection closed; another is at
    work. *)
Definition partly : list action :=
  [Arrive "app" "events"; Get 0 0; Try 0 Answered; Arrive "app" "logs"; Get 1 1; Try 1 Answered;
   Finish 0 (NotSent Canceled true)].
Lemma lock_released_witness :
  held (E := plain) (lock_table (after partly)) 0 (3%Z, 6%Z) = 1 ∧
  (owned plain (after partly) 0 (3%Z, 6%Z) ∨ closed (after partly) 0) ∧
  held (E := plain) (lock_table (after partly)) 1 (3%Z, 4%Z) = 1.
Proof.
  assert (reached_clean plain [] (after partly)) as Hr.
  { apply (acts_clean partly start); [constructor|vm_compute; reflexivity..]. }
  split; [vm_compute; reflexivity|]. split.
  - apply (lock_released plain [] nobody (after partly)); [exact Hr|vm_compute; reflexivity].
  - apply (lock_released plain [] nobody (after partly)); [exact Hr|..].
    + exists 1, "app", "logs". split; vm_compute; reflexivity.
    + vm_compute. set_solver.
Defined.

(** A lock whose unlock was not sent stays behind.  [release] unlocks with
    the context of the pass: when that is cancelled during the work, the
    statement is not sent, and the connection goes back to the pool with the
    lock.  Nobody works, yet a worker with another connection is refused;
    one that draws the same connection takes the lock a second time, and its
    own unlock leaves the first hold in place, so the next is refused again. *)
Theorem lock_leak :
  let cancelled := [Arrive "app" "events"; Get 0 0; Try 0 Answered; Finish 0 (NotSent Canceled false); Put 0] in
  let refused i c := [Arrive "app" "events"; Get i c; Try i Answered] in
  workers (after cancelled) = [Finished] ∧
  workers (after (cancelled ++ refused 1 1)) = [Finished; Releasing 1 false] ∧
  workers (after (cancelled ++ refused 1 0)) = [Finished; Working 0 "app" "events"] ∧
  workers (after (cancelled ++ refused 1 0 ++ [Finish 1 Answered; Put 1] ++ refused 2 1)) =
    [Finished; Finished; Releasing 1 false].
Proof. vm_compute. split_and!; reflexivity. Qed.

(** A worker whose session ends during its work goes on: nothing asks for the
    lock again before the unlock, so another worker joins it at the parent. *)
Theorem lock_lost :
  workers (after [Arrive "app" "events"; Get 0 0; Try 0 Answered; Hang 0; Arrive "app" "events"; Get 1 1; Try 1 Answered]) =
  [Working 0 "app" "events"; Working 1 "app" "events"].
Proof. vm_compute. reflexivity. Qed.
