(* ===== verification/Drain.v ===== *)
(** * The drain ([internal/drain])

    [PartitionData] moves the rows of a parent's default partition into the
    bounded partitions they belong to: batch by batch, one transaction per
    target, under the advisory lock of the parent.  The SQL text is built as
    in [sql.go]; what it means is [Query]. *)

From S2P Require Import Prelude GoTime GoStrings Errs Naming Periods Store World Logic Repo Retry Provisioner AdvisoryLock.
Local Open Scope string_scope.
Local Open Scope Z_scope.

(** ** Options ([options.go]) *)

Module Options.
Record t := mk { Tenant : option string; BatchSize : Z; MaxBatches : Z }.
End Options.
Definition defaultBatchSize : Z := 1000.
Definition resolved (o : Options.t) : Options.t :=
  Options.mk (Options.Tenant o)
    (if Options.BatchSize o <=? 0 then defaultBatchSize else Options.BatchSize o)
    (if Options.MaxBatches o <? 0 then 0 else Options.MaxBatches o).

(** ** Grouping ([bounds_group.go]) *)

Record groupKey := mkGroupKey { KBounds : Bounds; KTenant : string; KTenantOK : bool }.
#[export] Instance groupKey_eq_dec : EqDecision groupKey.
Proof. solve_decision. Defined.

Record batchRow := mkBatchRow { Control : Time; RTenant : string; CTID : Z; RTenantOK : bool }.

(** [out[k] = append(out[k], ctid)] on a map, kept as its entries. *)
Definition groups : Type := list (groupKey * list Z).
Fixpoint add_to_group (k : groupKey) (ctid : Z) (g : groups) : groups :=
  match g with
  | [] => [(k, [ctid])]
  | (k', l) :: g =>
      if bool_decide (k = k') then (k', (l ++ [ctid])%list) :: g else (k', l) :: add_to_group k ctid g
  end.
Definition row_key (r : batchRow) (b : Bounds) : groupKey := mkGroupKey b (RTenant r) (RTenantOK r).
Fixpoint group_rows (interval : Z) (out : groups) (rows : list batchRow) : res groups :=
  match rows with
  | [] => Ok out
  | r :: rows =>
      b ← BoundsFor (Control r) interval;
      group_rows interval (add_to_group (row_key r b) (CTID r) out) rows
  end.
Definition groupByBounds (rows : list batchRow) (interval : Z) : res groups := group_rows interval [] rows.

(** ** Reports and anomalies ([drain.go]) *)

Record Anomaly := mkAnomaly { MissingPartitionBounds : Bounds; ATenantId : string; RowCount : Z }.
Record Report := mkReport { Anomalies : list Anomaly; RowsMoved : Z; BatchesRun : Z }.
Definition empty_drain : Report := mkReport [] 0 0.
Definition add_anomalies (l : list Anomaly) (r : Report) : Report :=
  mkReport (Anomalies r ++ l)%list (RowsMoved r) (BatchesRun r).
Definition add_moved (n : Z) (r : Report) : Report := mkReport (Anomalies r) (RowsMoved r + n) (BatchesRun r).
Definition add_batch (r : Report) : Report := mkReport (Anomalies r) (RowsMoved r) (BatchesRun r + 1).

(** [anomalyTracker]: the counts, in the order of the first record. *)
Definition anomalyTracker : Type := list (groupKey * Z).
Fixpoint record (k : groupKey) (n : Z) (a : anomalyTracker) : anomalyTracker :=
  match a with
  | [] => [(k, n)]
  | (k', m) :: a => if bool_decide (k = k') then (k', m + n) :: a else (k', m) :: record k n a
  end.
Definition tracker_keys (a : anomalyTracker) : list groupKey := a.*1.
Definition tracker_list (a : anomalyTracker) : list Anomaly :=
  (λ '(k, n), mkAnomaly (KBounds k) (KTenant k) n) <$> a.

Definition pgTenantID (key : groupKey) : option string :=
  if negb (KTenantOK key) || bool_decide (KTenant key = "") then None else Some (KTenant key).

Definition intervalFromLabel (label : string) : res Z :=
  if bool_decide (label = "hourly") then Ok PartitionHourInterval
  else if bool_decide (label = "daily") then Ok PartitionDayInterval
  else if bool_decide (label = "weekly") then Ok PartitionWeekInterval
  else if bool_decide (label = "monthly") then Ok PartitionMonthInterval
  else Err (Msg "unknown partition_interval label %q").

Definition retryPolicy (op : string) : Policy :=
  mkPolicy true op (MaxAttempts Default) (BaseDelay Default) (MaxDelay Default) (Jitter Default).

(** ** SQL text ([sql.go]) *)

Record readParams := mkReadParams {
  PSchema : string;
  DefaultTable : string;
  ControlCol : string;
  TenantCol : string;
  PTenant : option string;
  AnomalyKeys : list groupKey;
  PBatchSize : Z
}.

Definition sqlTenantArg (k : groupKey) : value :=
  if negb (KTenantOK k) || bool_decide (KTenant k = "") then VNull else VText (KTenant k).

(** The columns of [insertColumnsSQL], up to white space, and the check of
    [assertDefaultExists]. *)
Definition insertColumnsSQL : string :=
  "SELECT column_name FROM information_schema.columns WHERE table_schema = $1 AND table_name = $2 AND is_generated = 'NEVER' ORDER BY ordinal_position".
Definition default_query : string :=
  "SELECT 1 FROM pg_class c JOIN pg_namespace n ON c.relnamespace = n.oid WHERE n.nspname = $1 AND c.relname = $2".

(** [$n], with [n] the number of arguments so far. *)
Definition placeholder (args : list value) : string := "$" +:+ Itoa (Z.of_nat (length args)).

(** [rows.Scan] of one row of the batch; NULL and the infinities scan into a
    [pgtype.Timestamptz] with the zero time. *)
Definition scan_time (v : value) : option Time :=
  match v with VTime t => Some t | VNull | VInfinity _ => Some zero_Time | _ => None end.
Definition scan_batchRow (tenantExists : bool) (row : list value) : res batchRow :=
  let bad := Err (Msg "cannot scan") in
  match row, tenantExists with
  | [VTid c; ctrl; tenant], true =>
      match scan_time ctrl, tenant with
      | Some t, VText s => Ok (mkBatchRow (UTC t) s c true)
      | Some t, VNull => Ok (mkBatchRow (UTC t) "" c false)
      | _, _ => bad
      end
  | [VTid c; ctrl], false =>
      match scan_time ctrl with
      | Some t => Ok (mkBatchRow (UTC t) "" c false)
      | None => bad
      end
  | _, _ => bad
  end.
Fixpoint scan_rows {A} (scan : list value → res A) (rows : list (list value)) : res (list A) :=
  match rows with
  | [] => Ok []
  | row :: rows => x ← scan row; l ← scan_rows scan rows; Ok (x :: l)
  end.
Definition scan_text (row : list value) : res string :=
  match row with [VText s] => Ok s | _ => Err (Msg "cannot scan") end.

(** The loop over the rows of the null summary; what was appended before an
    error stays. *)
Fixpoint null_anomalies (tenantCol : string) (rows : list (list value)) (r : Report)
    : Report * option error :=
  match rows with
  | [] => (r, None)
  | row :: rows =>
      match row, bool_decide (tenantCol = "") with
      | [VInt count], true =>
          null_anomalies tenantCol rows
            (if count =? 0 then r else add_anomalies [mkAnomaly zero_Bounds "" count] r)
      | [VText t; VInt count], false =>
          null_anomalies tenantCol rows
            (if count =? 0 then r else add_anomalies [mkAnomaly zero_Bounds t count] r)
      | [VNull; VInt count], false =>
          null_anomalies tenantCol rows
            (if count =? 0 then r else add_anomalies [mkAnomaly zero_Bounds "" count] r)
      | _, _ => (r, Some (Msg "cannot scan"))
      end
  end.

Section drain.
Context {C : Type} {E : Env C}.

Fixpoint anomaly_clauses (p : readParams) (sql : string) (args : list value) (ks : list groupKey)
    : string * list value :=
  match ks with
  | [] => (sql, args)
  | k :: ks =>
      let ctrlQ := Sanitize [ControlCol p] in
      let from_args := (args ++ [VTime (From (KBounds k))])%list in
      let args := (from_args ++ [VTime (To (KBounds k))])%list in
      let sql := sql +:+ " AND NOT (" +:+ ctrlQ +:+ " >= " +:+ placeholder from_args +:+ " AND "
                   +:+ ctrlQ +:+ " < " +:+ placeholder args in
      if bool_decide (TenantCol p = "") then anomaly_clauses p (sql +:+ ")") args ks
      else
        let args := (args ++ [sqlTenantArg k])%list in
        anomaly_clauses p
          (sql +:+ " AND " +:+ Sanitize [TenantCol p] +:+ " IS NOT DISTINCT FROM " +:+ placeholder args
             +:+ ")") args ks
  end.

Definition buildReadBatch (p : readParams) : string * list value :=
  let ctrlQ := Sanitize [ControlCol p] in
  let sql := "SELECT ctid, " +:+ ctrlQ
               +:+ (if bool_decide (TenantCol p = "") then "" else ", " +:+ Sanitize [TenantCol p])
               +:+ " FROM " +:+ Sanitize [PSchema p] +:+ "." +:+ Sanitize [DefaultTable p]
               +:+ " WHERE " +:+ ctrlQ +:+ " IS NOT NULL" in
  let '(sql, args) :=
    match PTenant p with
    | Some t =>
        if bool_decide (TenantCol p = "") then (sql, [])
        else (sql +:+ " AND " +:+ Sanitize [TenantCol p] +:+ " = " +:+ placeholder [VText t], [VText t])
    | None => (sql, [])
    end in
  let '(sql, args) := anomaly_clauses p sql args (AnomalyKeys p) in
  let args := (args ++ [VInt (PBatchSize p)])%list in
  (sql +:+ " ORDER BY " +:+ ctrlQ +:+ " LIMIT " +:+ placeholder args +:+ " FOR UPDATE SKIP LOCKED", args).

Definition quoteFQ (fq : string) : string :=
  match Cut "." fq with
  | None => Sanitize [fq]
  | Some (schema, name) => Sanitize [schema] +:+ "." +:+ Sanitize [name]
  end.

Definition buildMoveCTE (schema defaultTable targetFQ : string) (cols : list string) : string :=
  let colList := Join ", " ((λ c, Sanitize [c]) <$> cols) in
  "WITH moved AS (DELETE FROM " +:+ Sanitize [schema] +:+ "." +:+ Sanitize [defaultTable]
    +:+ " WHERE ctid = ANY($1::tid[]) RETURNING " +:+ colList +:+ ") INSERT INTO " +:+ quoteFQ targetFQ
    +:+ " (" +:+ colList +:+ ") SELECT " +:+ colList +:+ " FROM moved".

Definition buildNullSummary (schema defaultTable controlCol tenantCol : string) (tenant : option string)
    : string * list value :=
  let ctrlQ := Sanitize [controlCol] in
  let table := Sanitize [schema] +:+ "." +:+ Sanitize [defaultTable] in
  if bool_decide (tenantCol = "") then
    ("SELECT count(*) FROM " +:+ table +:+ " WHERE " +:+ ctrlQ +:+ " IS NULL", [])
  else
    let tenantQ := Sanitize [tenantCol] in
    let sql := "SELECT " +:+ tenantQ +:+ ", count(*) FROM " +:+ table +:+ " WHERE " +:+ ctrlQ +:+ " IS NULL" in
    match tenant with
    | Some t => (sql +:+ " AND " +:+ tenantQ +:+ " = " +:+ placeholder [VText t] +:+ " GROUP BY " +:+ tenantQ,
                 [VText t])
    | None => (sql +:+ " GROUP BY " +:+ tenantQ, [])
    end.

(** ** Statements ([drain.go]) *)

Definition assertDefaultExists (schema name : string) : M C unit :=
  r ← attempt (QueryRow default_query [VText schema; VText name]);
  match r with
  | Ok _ => mret tt
  | Err e =>
      if Is e NoRows then fail (Wrap "%w: %s.%s" (Sentinel ErrDefaultPartitionMissing))
      else fail (Wrap "drain: assert default exists: %w" e)
  end.

Definition lookupInsertColumns (schema table : string) : M C (list string) :=
  rows ← QueryRows insertColumnsSQL [VText schema; VText table];
  lift (scan_rows scan_text rows).

Definition readBatch (rq : string * list value) (tenantExists : bool) : M C (list batchRow) :=
  rows ← QueryRows rq.1 rq.2;
  lift (scan_rows (scan_batchRow tenantExists) rows).

Definition moveGroup (schema defaultTable targetFQ : string) (cols : list string) (ctids : list Z) : M C Z :=
  in_tx "begin tx: %w" "commit: %w" (Exec (buildMoveCTE schema defaultTable targetFQ cols) [VTids ctids]).

Definition appendNullAnomalies (schema defaultTable controlCol tenantCol : string)
    (tenant : option string) (r : Report) : M C (Report * option error) :=
  let '(sql, args) := buildNullSummary schema defaultTable controlCol tenantCol tenant in
  rows ← attempt (QueryRows sql args);
  match rows with
  | Err e => mret (r, Some e)
  | Ok rows => mret (null_anomalies tenantCol rows r)
  end.

(** ** The loop

    What the loop has found out when it stops: the report, the anomalies, and
    the error it stopped with. *)
Definition stopped : Type := Report * anomalyTracker * option error.

Section loop.
Context (schema defaultTable parentLabel tenantCol : string) (prow : Parent.row).
Context (cols : list string) (interval : Z) (o : Options.t).

Fixpoint drain_groups (gs : groups) (report : Report) (anomalies : anomalyTracker) : M C stopped :=
  match gs with
  | [] => mret (report, anomalies, None)
  | (key, ctids) :: gs =>
      target ← attempt (FindActivePartitionByBounds (Parent.ID prow) (pgTenantID key)
                          (From (KBounds key)) (To (KBounds key)));
      match target with
      | Err e =>
          if Is e NoRows then drain_groups gs report (record key (Z.of_nat (length ctids)) anomalies)
          else mret (report, anomalies, Some (Wrap "drain: lookup target: %w" e))
      | Ok target =>
          moved ← attempt (Do (retryPolicy "drain-move")
                             (moveGroup schema defaultTable (Partition.Name target) cols ctids));
          match moved with
          | Err e => mret (report, anomalies, Some (Wrap "drain: move group: %w" e))
          | Ok moved =>
              emit (Counter "partman.drain_rows_moved_total" moved ["parent"; parentLabel]) ;;
              drain_groups gs (add_moved moved report) anomalies
          end
      end
  end.

Definition read_params (anomalies : anomalyTracker) : readParams :=
  mkReadParams schema defaultTable (Parent.PartitionBy prow) tenantCol (Options.Tenant o)
    (tracker_keys anomalies) (Options.BatchSize o).

(** At most [fuel] rounds; [None] when they are not enough. *)
Fixpoint drain_batches (fuel : nat) (batchIdx : Z) (report : Report) (anomalies : anomalyTracker)
    : M C (option stopped) :=
  match fuel with
  | O => mret None
  | S fuel =>
      if negb ((Options.MaxBatches o =? 0) || (batchIdx <? Options.MaxBatches o))
      then mret (Some (report, anomalies, None))
      else
        canceled ← ctx_Err;
        match canceled with
        | Some e => mret (Some (report, anomalies, Some e))
        | None =>
            rows ← attempt (readBatch (buildReadBatch (read_params anomalies))
                              (negb (bool_decide (tenantCol = ""))));
            match rows with
            | Err e => mret (Some (report, anomalies, Some (Wrap "drain: read batch: %w" e)))
            | Ok [] => mret (Some (report, anomalies, None))
            | Ok rows =>
                let report := add_batch report in
                emit (Counter "partman.drain_batches_total" 1 ["parent"; parentLabel]) ;;
                match groupByBounds rows interval with
                | Err e => mret (Some (report, anomalies, Some (Wrap "drain: group rows: %w" e)))
                | Ok gs =>
                    gs ← range gs;
                    r ← drain_groups gs report anomalies;
                    match r with
                    | (report, anomalies, Some e) => mret (Some (report, anomalies, Some e))
                    | (report, anomalies, None) => drain_batches fuel (batchIdx + 1) report anomalies
                    end
                end
            end
        end
  end.

(** [PartitionData] from the batch loop on. *)
Definition drain (fuel : nat) : M C (option (Report * option error)) :=
  r ← drain_batches fuel 0 empty_drain [];
  match r with
  | None => mret None
  | Some (report, _, Some e) => mret (Some (report, Some e))
  | Some (report, anomalies, None) =>
      r ← appendNullAnomalies schema defaultTable (Parent.PartitionBy prow) tenantCol (Options.Tenant o) report;
      match r with
      | (report, Some e) => mret (Some (report, Some (Wrap "drain: null summary: %w" e)))
      | (report, None) =>
          let report := add_anomalies (tracker_list anomalies) report in
          let n := Z.of_nat (length (Anomalies report)) in
          (if 0 <? n then emit (Counter "partman.drain_anomalies_total" n ["parent"; parentLabel])
           else mret tt) ;;
          Now ;;
          mret (Some (report, None))
      end
  end.
End loop.

(** The parent's lock is held: load the parent and what the loop needs. *)
Definition partition_locked (fuel : nat) (ref : ParentRef.t) (o : Options.t)
    : M C (option (Report * option error)) :=
  let schema := ParentRef.SchemaName ref in
  let table := ParentRef.TableName ref in
  let stop e : M C (option (Report * option error)) := mret (Some (empty_drain, Some e)) in
  r ← attempt (GetParentTable schema table);
  match r with
  | Err e =>
      stop (if Is e NoRows then Wrap "%w: %s.%s" (Sentinel ErrParentNotFound)
            else Wrap "drain: load parent: %w" e)
  | Ok prow =>
      match intervalFromLabel (Parent.PartitionInterval prow) with
      | Err e => stop (Wrap "drain: %w" e)
      | Ok interval =>
          let tenantCol := default "" (Parent.TenantColumn prow) in
          let defaultTable := table +:+ "_default" in
          cols ← attempt (lookupInsertColumns schema table);
          match cols with
          | Err e => stop (Wrap "drain: lookup columns: %w" e)
          | Ok cols =>
              if bool_decide (cols = []) then stop (Msg "drain: parent %s.%s has no non-generated columns")
              else
                ok ← attempt (assertDefaultExists schema defaultTable);
                match ok with
                | Err e => stop e
                | Ok _ => drain schema defaultTable (schema +:+ "." +:+ table) tenantCol prow cols interval o fuel
                end
          end
      end
  end.

(** [func (d *Impl) PartitionData(ctx, ref, opts) (Report, error)] with at most
    [fuel] rounds of its loop. *)
Definition PartitionData (fuel : nat) (ref : ParentRef.t) (opts : Options.t)
    : M C (option (Report * option error)) :=
  let o := resolved opts in
  let schema := ParentRef.SchemaName ref in
  let table := ParentRef.TableName ref in
  let stop e : M C (option (Report * option error)) := mret (Some (empty_drain, Some e)) in
  start ← Now;
  deferring
    (now ← Now;
     emit (Histogram "partman.drain_duration_seconds" (Sub now start) ["parent"; schema +:+ "." +:+ table]))
    (conn ← attempt Acquire;
     match conn with
     | Err e => stop (Wrap "drain: acquire conn: %w" e)
     | Ok conn =>
         locked ← attempt (TryLock conn schema table);
         match locked with
         | Err e => stop (Wrap "drain: try lock: %w" e)
         | Ok false => stop (Sentinel ErrLockContention)
         | Ok true =>
             deferring (attempt (Unlock conn schema table) ;; mret tt)
               (partition_locked fuel ref o)
         end
     end).
End drain.
