(* ===== verification/Query.v ===== *)
(** * What the drain's SQL means

    The statements of [internal/drain/sql.go] as syntax with its SQL semantics
    (three-valued logic, positional parameters), and the proof that the text
    and the arguments the code builds are a rendering of that syntax.  The
    class [Heap] states what the drain relies on in PostgreSQL: queries return
    what their semantics says, the move statement moves. *)

From S2P Require Import Prelude GoTime GoStrings Errs Naming Periods Store World Logic Repo Retry Provisioner AdvisoryLock Drain.
Local Open Scope string_scope.
Local Open Scope Z_scope.

(** ** Syntax *)

(** A condition on a column; [n] is the number of a parameter. *)
Inductive cond :=
| IsNull (col : string)
| IsNotNull (col : string)
| EqArg (col : string) (n : nat)
| GeArg (col : string) (n : nat)
| LtArg (col : string) (n : nat)
| SameArg (col : string) (n : nat)      (* IS NOT DISTINCT FROM *)
| NotAll (cs : list cond).              (* NOT (... AND ...) *)

Record select := mkSelect {
  sel_cols : list string;               (* after ctid *)
  sel_from : string * string;
  sel_where : list cond;
  sel_order : string;
  sel_limit : nat
}.
Record count := mkCount {
  cnt_group : option string;
  cnt_from : string * string;
  cnt_where : list cond
}.

(** ** Semantics *)

(** A row of a table: its [ctid] and its columns. *)
Record heap_row := mkHeapRow { ctid : Z; col : string → value }.

Definition parameter (args : list value) (n : nat) : value := default VNull (args !! pred n).

(** The place of an infinity, when every instant is at 0. *)
Definition sign (positive : bool) : Z := if positive then 1 else -1.
Definition sql_compare (f : Z → Z → bool) (a b : value) : option bool :=
  match a, b with
  | VNull, _ | _, VNull => None
  | VTime a, VTime b => Some (f (unix_ns a) (unix_ns b))
  | VInfinity a, VTime _ => Some (f (sign a) 0)
  | VTime _, VInfinity b => Some (f 0 (sign b))
  | VInfinity a, VInfinity b => Some (f (sign a) (sign b))
  | VInt a, VInt b => Some (f a b)
  | _, _ => Some false
  end.
Definition sql_eq (a b : value) : option bool :=
  match a, b with
  | VNull, _ | _, VNull => None
  | VText a, VText b => Some (bool_decide (a = b))
  | _, _ => sql_compare Z.eqb a b
  end.
Definition not_distinct (a b : value) : bool :=
  match a, b with
  | VNull, VNull => true
  | VNull, _ | _, VNull => false
  | _, _ => default false (sql_eq a b)
  end.
Definition and3 (a b : option bool) : option bool :=
  match a, b with
  | Some false, _ | _, Some false => Some false
  | Some true, Some true => Some true
  | _, _ => None
  end.

Fixpoint eval_cond (args : list value) (row : string → value) (c : cond) : option bool :=
  match c with
  | IsNull x => Some (bool_decide (row x = VNull))
  | IsNotNull x => Some (negb (bool_decide (row x = VNull)))
  | EqArg x n => sql_eq (row x) (parameter args n)
  | GeArg x n => sql_compare Z.geb (row x) (parameter args n)
  | LtArg x n => sql_compare Z.ltb (row x) (parameter args n)
  | SameArg x n => Some (not_distinct (row x) (parameter args n))
  | NotAll cs => negb <$> foldr (λ c b, and3 (eval_cond args row c) b) (Some true) cs
  end.
Definition eval_all (args : list value) (row : string → value) (cs : list cond) : option bool :=
  foldr (λ c b, and3 (eval_cond args row c) b) (Some true) cs.
(** [WHERE]: unknown is not true. *)
Definition holds (args : list value) (cs : list cond) (r : heap_row) : Prop :=
  eval_all args (col r) cs = Some true.
#[export] Instance holds_dec args cs r : Decision (holds args cs r).
Proof. unfold holds. apply _. Defined.

Definition not_after (x : string) (a b : heap_row) : Prop :=
  match col a x, col b x with
  | (VTime _ | VInfinity _), (VTime _ | VInfinity _) => sql_compare Z.leb (col a x) (col b x) = Some true
  | _, _ => True
  end.

(** [out] is an answer to [q] on a table with the rows [rows], none of which
    another session has locked. *)
Definition selected (q : select) (args : list value) (rows : list heap_row) (out : list (list value)) : Prop :=
  ∃ l limit, l ≡ₚ filter (holds args (sel_where q)) rows ∧ StronglySorted (not_after (sel_order q)) l ∧
    parameter args (sel_limit q) = VInt limit ∧
    out = (λ r, VTid (ctid r) :: (col r <$> sel_cols q)) <$> take (Z.to_nat limit) l.
Definition counted (q : count) (args : list value) (rows : list heap_row) (out : list (list value)) : Prop :=
  let l := filter (holds args (cnt_where q)) rows in
  match cnt_group q with
  | None => out = [[VInt (Z.of_nat (length l))]]
  | Some g =>
      ∃ keys, NoDup keys ∧ (∀ v, v ∈ keys ↔ ∃ r, r ∈ l ∧ col r g = v) ∧
        out = (λ v, [v; VInt (Z.of_nat (length (filter (λ r, col r g = v) l)))]) <$> keys
  end.

(** ** Text *)

Section text.
Context {C : Type} {E : Env C}.

Definition dollar (n : nat) : string := "$" +:+ Itoa (Z.of_nat n).
Fixpoint render_cond (c : cond) : string :=
  match c with
  | IsNull x => Sanitize [x] +:+ " IS NULL"
  | IsNotNull x => Sanitize [x] +:+ " IS NOT NULL"
  | EqArg x n => Sanitize [x] +:+ " = " +:+ dollar n
  | GeArg x n => Sanitize [x] +:+ " >= " +:+ dollar n
  | LtArg x n => Sanitize [x] +:+ " < " +:+ dollar n
  | SameArg x n => Sanitize [x] +:+ " IS NOT DISTINCT FROM " +:+ dollar n
  | NotAll cs => "NOT (" +:+ Join " AND " (render_cond <$> cs) +:+ ")"
  end.
Definition render_where (cs : list cond) : string := Join " AND " (render_cond <$> cs).
Definition render_select (q : select) : string :=
  "SELECT " +:+ Join ", " ("ctid" :: ((λ c, Sanitize [c]) <$> sel_cols q))
    +:+ " FROM " +:+ Sanitize [(sel_from q).1] +:+ "." +:+ Sanitize [(sel_from q).2]
    +:+ " WHERE " +:+ render_where (sel_where q)
    +:+ " ORDER BY " +:+ Sanitize [sel_order q]
    +:+ " LIMIT " +:+ dollar (sel_limit q) +:+ " FOR UPDATE SKIP LOCKED".
Definition render_count (q : count) : string :=
  "SELECT " +:+ match cnt_group q with Some g => Sanitize [g] +:+ ", " | None => "" end +:+ "count(*)"
    +:+ " FROM " +:+ Sanitize [(cnt_from q).1] +:+ "." +:+ Sanitize [(cnt_from q).2]
    +:+ " WHERE " +:+ render_where (cnt_where q)
    +:+ match cnt_group q with Some g => " GROUP BY " +:+ Sanitize [g] | None => "" end.
End text.

(** ** The batch query

    What [buildReadBatch] builds, as syntax. *)

Definition tenanted (p : readParams) : bool := negb (bool_decide (TenantCol p = "")).
Definition tenant_conds (p : readParams) : list cond :=
  match PTenant p with Some _ => if tenanted p then [EqArg (TenantCol p) 1] else [] | None => [] end.
Definition tenant_args (p : readParams) : list value :=
  match PTenant p with Some t => if tenanted p then [VText t] else [] | None => [] end.
(** The condition of one key, when [n] arguments precede its own. *)
Definition key_cond (p : readParams) (n : nat) : cond :=
  NotAll ([GeArg (ControlCol p) (n + 1); LtArg (ControlCol p) (n + 2)]
          ++ if tenanted p then [SameArg (TenantCol p) (n + 3)] else []).
Definition key_arg (p : readParams) (k : groupKey) : list value :=
  [VTime (From (KBounds k)); VTime (To (KBounds k))] ++ if tenanted p then [sqlTenantArg k] else [].
Fixpoint key_conds (p : readParams) (n : nat) (ks : list groupKey) : list cond :=
  match ks with
  | [] => []
  | k :: ks => key_cond p n :: key_conds p (n + length (key_arg p k)) ks
  end.
Definition read_args (p : readParams) : list value :=
  tenant_args p ++ (AnomalyKeys p ≫= key_arg p) ++ [VInt (PBatchSize p)].
Definition read_select (p : readParams) : select :=
  mkSelect (ControlCol p :: if tenanted p then [TenantCol p] else []) (PSchema p, DefaultTable p)
    (IsNotNull (ControlCol p) :: tenant_conds p ++ key_conds p (length (tenant_args p)) (AnomalyKeys p))
    (ControlCol p) (length (read_args p)).

Section build.
Context {C : Type} {E : Env C}.

Fixpoint and_all (cs : list cond) : string :=
  match cs with [] => "" | c :: cs => " AND " +:+ render_cond c +:+ and_all cs end.

Lemma render_where_cons c cs : render_where (c :: cs) = render_cond c +:+ and_all cs.
Proof.
  unfold render_where. revert c. induction cs as [|d cs IH]; intros c; [by rewrite app_string_nil_r|].
  specialize (IH d). cbn [fmap list_fmap Join] in IH |- *. cbn [and_all]. by rewrite <- IH.
Qed.
Lemma and_all_app cs ds : and_all (cs ++ ds) = and_all cs +:+ and_all ds.
Proof. induction cs as [|c cs IH]; [done|]. cbn [app and_all]. by rewrite IH, !app_string_assoc. Qed.

Lemma anomaly_clauses_render p sql args ks :
  anomaly_clauses p sql args ks =
  (sql +:+ and_all (key_conds p (length args) ks), (args ++ (ks ≫= key_arg p))%list).
Proof.
  revert sql args. induction ks as [|k ks IH]; intros sql args; cbn [anomaly_clauses].
  { cbn. by rewrite app_string_nil_r, app_nil_r. }
  cbn [key_conds and_all mbind list_bind]. unfold key_arg at 1 2, key_cond, placeholder, dollar, tenanted.
  case_bool_decide; rewrite IH; cbn [negb app]; rewrite !length_app; cbn [length]; rewrite <- !app_assoc;
    cbn [app]; cbn [render_cond fmap list_fmap Join]; unfold dollar;
    rewrite <- !Nat.add_assoc; cbn [Nat.add]; f_equal; rewrite !app_string_assoc; reflexivity.
Qed.

(** The text and the arguments of the batch query render [read_select]. *)
Lemma buildReadBatch_render p : buildReadBatch p = (render_select (read_select p), read_args p).
Proof.
  unfold buildReadBatch, render_select, read_select, read_args. cbn [sel_cols sel_from sel_where sel_order sel_limit fst snd].
  rewrite render_where_cons, and_all_app. unfold tenant_conds, tenant_args, tenanted, dollar, placeholder.
  destruct (PTenant p) as [t|]; case_bool_decide; cbn [negb app length and_all];
    rewrite anomaly_clauses_render; cbn [length app]; f_equal;
    cbn [fmap list_fmap Join render_cond]; unfold dollar; rewrite ?app_string_assoc; reflexivity.
Qed.
End build.

(** ** What it selects *)

(** A row of the control and the tenant column's types. *)
Record typed (p : readParams) (r : heap_row) : Prop := {
  typed_control : col r (ControlCol p) = VNull ∨ (∃ t, col r (ControlCol p) = VTime t) ∨
    ∃ b, col r (ControlCol p) = VInfinity b;
  typed_tenant : tenanted p = true → col r (TenantCol p) = VNull ∨ ∃ s, col r (TenantCol p) = VText s
}.
(** [r] lies in the bounds of [k], and is of its tenant. *)
Definition covered (p : readParams) (r : heap_row) (k : groupKey) : Prop :=
  ∃ t, col r (ControlCol p) = VTime t ∧
    unix_ns (From (KBounds k)) <= unix_ns t < unix_ns (To (KBounds k)) ∧
    (tenanted p = true → not_distinct (col r (TenantCol p)) (sqlTenantArg k) = true).
(** The rows the batch query is for. *)
Record wanted (p : readParams) (r : heap_row) : Prop := {
  wanted_control : col r (ControlCol p) ≠ VNull;
  wanted_tenant t : PTenant p = Some t → tenanted p = true → col r (TenantCol p) = VText t;
  wanted_keys k : k ∈ AnomalyKeys p → ¬ covered p r k
}.

Lemma and3_true a b : and3 a b = Some true ↔ a = Some true ∧ b = Some true.
Proof. destruct a as [[]|], b as [[]|]; naive_solver. Qed.
Lemma eval_all_cons args row c cs :
  eval_all args row (c :: cs) = Some true ↔ eval_cond args row c = Some true ∧ eval_all args row cs = Some true.
Proof. apply and3_true. Qed.
Lemma eval_all_app args row cs ds :
  eval_all args row (cs ++ ds) = Some true ↔ eval_all args row cs = Some true ∧ eval_all args row ds = Some true.
Proof. induction cs as [|c cs IH]; cbn [app]; [naive_solver|]. rewrite !eval_all_cons, IH. tauto. Qed.

Lemma parameter_app pre l n : parameter (pre ++ l) (length pre + S n) = parameter l (S n).
Proof. unfold parameter. rewrite lookup_app_r by lia. do 2 f_equal. lia. Qed.

Lemma eval_key_cond p r pre k post :
  typed p r → col r (ControlCol p) ≠ VNull →
  eval_cond (pre ++ key_arg p k ++ post) (col r) (key_cond p (length pre)) = Some true ↔ ¬ covered p r k.
Proof.
  intros Ht Hn. destruct (typed_control _ _ Ht) as [?|Hc]; [done|clear Hn].
  unfold key_cond, covered. cbn [eval_cond app].
  assert (∀ n, parameter (pre ++ key_arg p k ++ post) (length pre + S n) = parameter (key_arg p k ++ post) (S n)) as Hp
    by (intros; apply parameter_app).
  set (lo := From (KBounds k)) in *. set (hi := To (KBounds k)) in *.
  unfold key_arg in *. fold lo hi in Hp |- *. destruct (tenanted p) eqn:Htp; cbn [app foldr eval_cond] in *;
    rewrite (Hp 0%nat), (Hp 1%nat), ?(Hp 2%nat); unfold parameter; cbn [pred lookup list_lookup];
    cbn [default from_option id]; (destruct Hc as [[t Hc]|[b Hc]]; rewrite Hc; cbn [sql_compare];
      [|by destruct b; repeat case_match; split; try done; intros _ (? & [=] & _)]).
  - set (d := not_distinct _ _).
    destruct (Z.geb_spec (unix_ns t) (unix_ns lo)), (Z.ltb_spec (unix_ns t) (unix_ns hi)), d eqn:E3;
      cbn; split; try done;
      try (intros _ (t' & [= <-] & ? & Hd); try specialize (Hd eq_refl); lia || congruence).
    intros Hn. exfalso. apply Hn. exists t. split; [done|]. split; [lia|done].
  - destruct (Z.geb_spec (unix_ns t) (unix_ns lo)), (Z.ltb_spec (unix_ns t) (unix_ns hi));
      cbn; split; try done; try (intros _ (t' & [= <-] & ? & Hd); lia).
    intros Hn. exfalso. apply Hn. exists t. split; [done|]. split; [lia|done].
Qed.

Lemma eval_key_conds p r pre ks post :
  typed p r → col r (ControlCol p) ≠ VNull →
  eval_all (pre ++ (ks ≫= key_arg p) ++ post) (col r) (key_conds p (length pre) ks) = Some true ↔
  ∀ k, k ∈ ks → ¬ covered p r k.
Proof.
  intros Ht Hc. revert pre. induction ks as [|k ks IH]; intros pre; cbn [key_conds mbind list_bind].
  { split; [by intros _ k ?%not_elem_of_nil|done]. }
  rewrite eval_all_cons, <- app_assoc, (eval_key_cond p r) by done.
  replace (length pre + length (key_arg p k))%nat with (length (pre ++ key_arg p k)) by (by rewrite length_app).
  rewrite (app_assoc pre), IH. setoid_rewrite elem_of_cons. naive_solver.
Qed.

(** On a table of the right types, the query of [buildReadBatch] selects the
    rows with a control value, of the tenant asked for, that no recorded
    anomaly covers. *)
Lemma read_selects p r : typed p r → holds (read_args p) (sel_where (read_select p)) r ↔ wanted p r.
Proof.
  intros Ht. unfold holds, read_select. cbn [sel_where]. rewrite eval_all_cons, eval_all_app. cbn [eval_cond].
  destruct (decide (col r (ControlCol p) = VNull)) as [Hn|Hn].
  { rewrite bool_decide_true by done. split; [by intros [? _]|]. by intros [? _ _]. }
  rewrite bool_decide_false by done.
  unfold read_args. rewrite (eval_key_conds p r) by done. unfold tenant_conds, tenant_args.
  assert (∀ Q : Prop, (∀ s, PTenant p = Some s → tenanted p = true → col r (TenantCol p) = VText s) ↔ Q →
    (Some (negb false) = Some true ∧ Q ∧ (∀ k, k ∈ AnomalyKeys p → ¬ covered p r k) ↔ wanted p r)) as Hw.
  { intros Q HQ. split.
    - intros (_ & Hq & Hk). split; [done|by apply HQ|done].
    - intros [_ Hs Hk]. split_and!; [done|by apply HQ|done]. }
  apply Hw. clear Hw. destruct (PTenant p) as [s|]; [|naive_solver].
  destruct (tenanted p) eqn:Htp; [|naive_solver]. cbn [app eval_all foldr]. rewrite and3_true. cbn [eval_cond].
  unfold parameter. cbn [pred lookup list_lookup]. cbn [default from_option id].
  destruct (typed_tenant _ _ Ht Htp) as [-> | [s' ->]]; cbn.
  - split; [intros Hx; by specialize (Hx s eq_refl eq_refl)|naive_solver].
  - split.
    + intros Hx. specialize (Hx s eq_refl eq_refl). injection Hx as ->. by rewrite bool_decide_true.
    + intros [[= Hb%bool_decide_eq_true] _] s2 [= <-] _. by rewrite Hb.
Qed.

(** ** The null summary *)

Definition null_count (p : readParams) : count :=
  mkCount (if tenanted p then Some (TenantCol p) else None) (PSchema p, DefaultTable p)
    (IsNull (ControlCol p) :: tenant_conds p).

(** Its text and arguments render [null_count]. *)
Lemma buildNullSummary_render {C} {E : Env C} p :
  buildNullSummary (PSchema p) (DefaultTable p) (ControlCol p) (TenantCol p) (PTenant p) =
  (render_count (null_count p), tenant_args p).
Proof.
  unfold buildNullSummary, render_count, null_count, tenant_conds, tenant_args, tenanted, placeholder.
  cbn [cnt_group cnt_from cnt_where fst snd]. rewrite render_where_cons.
  destruct (PTenant p) as [t|]; case_bool_decide; cbn [negb and_all render_cond];
    f_equal; rewrite ?app_string_assoc, ?app_string_nil_r; cbn; rewrite ?app_string_nil_r, ?app_string_assoc; reflexivity.
Qed.

(** The rows it counts. *)
Definition null_row (p : readParams) (r : heap_row) : Prop :=
  col r (ControlCol p) = VNull ∧
  (∀ t, PTenant p = Some t → tenanted p = true → col r (TenantCol p) = VText t).
Lemma null_selects p r :
  typed p r → holds (tenant_args p) (cnt_where (null_count p)) r ↔ null_row p r.
Proof.
  intros Ht. unfold holds, null_count, null_row, tenant_conds, tenant_args. cbn [cnt_where].
  rewrite eval_all_cons. cbn [eval_cond].
  assert (Some (bool_decide (col r (ControlCol p) = VNull)) = Some true ↔ col r (ControlCol p) = VNull) as ->
    by (case_bool_decide; naive_solver).
  apply and_iff_compat_l. destruct (PTenant p) as [s|]; [|naive_solver].
  destruct (tenanted p) eqn:Htp; [|naive_solver]. cbn [eval_all foldr]. rewrite and3_true. cbn [eval_cond].
  unfold parameter. cbn [pred lookup list_lookup]. cbn [default from_option id].
  destruct (typed_tenant _ _ Ht Htp) as [-> | [s' ->]]; cbn.
  - split; [naive_solver|]. intros Hx. by specialize (Hx s eq_refl eq_refl).
  - case_bool_decide as Hs; naive_solver.
Qed.

(** ** Their parameters *)

Inductive sql_type := TText | TTime | TInt.
Definition has_type (ty : sql_type) (v : value) : bool :=
  match ty, v with
  | _, VNull | TText, VText _ | TTime, VTime _ | TTime, VInfinity _ | TInt, VInt _ => true
  | _, _ => false
  end.

(** The placeholders of a condition in the order of the text, each with the
    type of the column it is compared with. *)
Fixpoint cond_params (ty : string → sql_type) (c : cond) : list (nat * sql_type) :=
  match c with
  | IsNull _ | IsNotNull _ => []
  | EqArg x n | GeArg x n | LtArg x n | SameArg x n => [(n, ty x)]
  | NotAll cs => cs ≫= cond_params ty
  end.
Definition where_params (ty : string → sql_type) (cs : list cond) : list (nat * sql_type) := cs ≫= cond_params ty.
Definition select_params (ty : string → sql_type) (q : select) : list (nat * sql_type) :=
  where_params ty (sel_where q) ++ [(sel_limit q, TInt)].
(** Each placeholder once, numbered in order, with an argument of its type. *)
Definition well_typed (ps : list (nat * sql_type)) (args : list value) : Prop :=
  ps.*1 = seq 1 (length args) ∧ Forall2 (λ ty v, has_type ty v = true) ps.*2 args.

Section typed_params.
(** The types of the table's columns, whatever they are but for the two that
    the drain compares. *)
Context (p : readParams) (ty : string → sql_type).
Context (Hcontrol : ty (ControlCol p) = TTime) (Htenant : tenanted p = true → ty (TenantCol p) = TText).

(** Well-typed, when [n] arguments precede. *)
Definition well_typed_from (n : nat) (ps : list (nat * sql_type)) (args : list value) : Prop :=
  ps.*1 = seq (S n) (length args) ∧ Forall2 (λ ty v, has_type ty v = true) ps.*2 args.
Lemma well_typed_app n ps args ps' args' :
  well_typed_from n ps args → well_typed_from (n + length args) ps' args' →
  well_typed_from n (ps ++ ps') (args ++ args').
Proof.
  intros [H1 H2] [H3 H4]. split; rewrite !fmap_app; [|by apply Forall2_app].
  by rewrite H1, H3, length_app, seq_app.
Qed.

Lemma sqlTenantArg_text k : has_type TText (sqlTenantArg k) = true.
Proof. unfold sqlTenantArg. by destruct (_ || _). Qed.
Lemma key_cond_typed n k : well_typed_from n (cond_params ty (key_cond p n)) (key_arg p k).
Proof.
  unfold key_cond, key_arg, well_typed_from. cbn [cond_params].
  destruct (tenanted p) eqn:Htp; cbn; rewrite Hcontrol, ?Htenant by done; cbn;
    (split; [repeat f_equal; lia|]); repeat constructor. apply sqlTenantArg_text.
Qed.
Lemma key_conds_typed n ks : well_typed_from n (where_params ty (key_conds p n ks)) (ks ≫= key_arg p).
Proof.
  revert n. induction ks as [|k ks IH]; intros n; [by split|].
  apply well_typed_app; [apply key_cond_typed|apply IH].
Qed.
Lemma tenant_conds_typed : well_typed_from 0 (where_params ty (tenant_conds p)) (tenant_args p).
Proof.
  unfold tenant_conds, tenant_args. destruct (PTenant p) as [t|]; [|by split].
  destruct (tenanted p) eqn:Htp; [|by split]. cbn. rewrite Htenant by done. by repeat constructor.
Qed.

(** C38: the parameters of the generated queries are in order and of the right
    type, for a table whose control column is a timestamp and whose tenant
    column, if it has one, a text.  The text of the batch query and of the null summary holds the
    placeholders [$1], [$2], ... once each and in order, as many as there are
    arguments, and every argument has the type of the column its placeholder
    is compared with (the limit an integer), or is NULL. *)
Theorem queries_well_typed {C} {E : Env C} :
  (∃ q, (buildReadBatch p).1 = render_select q ∧
        well_typed (select_params ty q) (buildReadBatch p).2) ∧
  (∃ q, (buildNullSummary (PSchema p) (DefaultTable p) (ControlCol p) (TenantCol p) (PTenant p)).1 = render_count q ∧
        well_typed (where_params ty (cnt_where q))
          (buildNullSummary (PSchema p) (DefaultTable p) (ControlCol p) (TenantCol p) (PTenant p)).2).
Proof.
  rewrite buildReadBatch_render, buildNullSummary_render. split.
  - exists (read_select p). split; [done|]. unfold select_params, read_select, read_args. cbn [sel_where sel_limit].
    change (where_params ty (IsNotNull ?x :: ?cs)) with (where_params ty cs).
    unfold where_params at 1. rewrite bind_app, <- app_assoc.
    apply (well_typed_app 0); [exact tenant_conds_typed|]. apply well_typed_app; [apply key_conds_typed|].
    split; [|by repeat constructor]. cbn [fmap list_fmap fst length seq]. f_equal. rewrite !length_app. cbn [length]. lia.
  - exists (null_count p). split; [done|apply tenant_conds_typed].
Qed.
End typed_params.

(** ** The heap

    What the drain relies on in PostgreSQL, for the default partition of [p]
    and with the columns [cols] of the parent [table]. *)

Definition source (p : readParams) : string * string := (PSchema p, DefaultTable p).
Definition with_keys (ks : list groupKey) (p : readParams) : readParams :=
  mkReadParams (PSchema p) (DefaultTable p) (ControlCol p) (TenantCol p) (PTenant p) ks (PBatchSize p).

(** Two rows that agree on [cols]; generated columns may differ. *)
Definition same_on (cols : list string) (r r' : heap_row) : Prop := ∀ c, c ∈ cols → col r' c = col r c.

(** The effect of the move statement on the tables [v]. *)
Definition moves (src dst : string * string) (cols : list string) (ctids : list Z) (n : Z)
    (v v' : string * string → option (list heap_row)) : Prop :=
  ∃ rows target new target',
    v src = Some rows ∧ v dst = Some target ∧
    v' src = Some (filter (λ r, ctid r ∉ ctids) rows) ∧
    v' dst = Some target' ∧ target' ≡ₚ target ++ new ∧
    Forall2 (same_on cols) (filter (λ r, ctid r ∈ ctids) rows) new ∧
    n = Z.of_nat (length new) ∧
    ∀ rel, rel ≠ src → rel ≠ dst → v' rel = v rel.

Class Heap {C} (E : Env C) (table : string) (p : readParams) (cols : list string) := {
  (** the rows of a table *)
  view : C → string * string → option (list heap_row);
  (** the partition constraint of a table *)
  admits : C → string * string → heap_row → Prop;
  heap_ctids c rows : view c (source p) = Some rows → NoDup (ctid <$> rows);
  heap_typed c rows r : view c (source p) = Some rows → r ∈ rows → typed p r;
  heap_columns c rows :
    pg_query insertColumnsSQL [VText (PSchema p); VText table] c = Ok rows → rows = (λ x, [VText x]) <$> cols;
  (** the two queries *)
  heap_select ks c rows out :
    let q := with_keys ks p in
    view c (source p) = Some rows →
    pg_query (render_select (read_select q)) (read_args q) c = Ok out →
    selected (read_select q) (read_args q) rows out;
  heap_count c rows out :
    view c (source p) = Some rows →
    pg_query (render_count (null_count p)) (tenant_args p) c = Ok out →
    counted (null_count p) (tenant_args p) rows out;
  (** the move *)
  heap_move c fq dst ctids n c' :
    Cut "." fq = Some dst → dst ≠ source p →
    pg_exec (buildMoveCTE (PSchema p) (DefaultTable p) fq cols) [VTids ctids] c = Ok (n, c') →
    moves (source p) dst cols ctids n (view c) (view c') ∧ ∀ rel r, admits c' rel r ↔ admits c rel r;
  (** the lock functions do not touch the tables *)
  heap_call s sql args c row c' :
    sql = try_lock_sql ∨ sql = unlock_sql → pg_call s sql args c = Ok (row, c') →
    (∀ rel, view c' rel = view c rel) ∧ ∀ rel r, admits c' rel r ↔ admits c rel r
}.

(** The statements are accepted: the default partition exists, and a row goes
    where the partition constraint admits it. *)
Class HeapAccepts {C} (E : Env C) (table : string) (p : readParams) (cols : list string)
    `{!Heap E table p cols} : Prop := {
  accepts_columns c : ∃ rows, pg_query insertColumnsSQL [VText (PSchema p); VText table] c = Ok rows;
  accepts_default c rows : view c (source p) = Some rows →
    ∃ row out, pg_query default_query [VText (PSchema p); VText (DefaultTable p)] c = Ok (row :: out);
  accepts_select ks c rows : view c (source p) = Some rows →
    ∃ out, pg_query (render_select (read_select (with_keys ks p))) (read_args (with_keys ks p)) c = Ok out;
  accepts_count c rows : view c (source p) = Some rows →
    ∃ out, pg_query (render_count (null_count p)) (tenant_args p) c = Ok out;
  accepts_move c fq dst ctids rows target :
    Cut "." fq = Some dst → dst ≠ source p →
    view c (source p) = Some rows → view c dst = Some target →
    (∀ r, r ∈ rows → ctid r ∈ ctids → admits c dst r) →
    ∃ n c', pg_exec (buildMoveCTE (PSchema p) (DefaultTable p) fq cols) [VTids ctids] c = Ok (n, c')
}.
