(* ===== verification/Draining.v ===== *)
(** * What the drain promises

    Whatever fails: every row of the default partition is afterwards in
    exactly one place, the default or the partition of its own period and
    tenant.  When nothing fails: the loop ends, every row that has a partition
    is in it, and the report says so. *)

From S2P Require Import Prelude GoTime GoStrings Errs TimeFormat Naming Periods Store World Logic Repo Scenario Retry Provisioner AdvisoryLock Drain Query.
Local Open Scope string_scope.
Local Open Scope Z_scope.

(** ** Grouping *)

(** The entry of [k] in the map; empty when there is none. *)
Fixpoint group_at (g : groups) (k : groupKey) : list Z :=
  match g with [] => [] | (k', l) :: g => if bool_decide (k = k') then l else group_at g k end.
Definition key_of (interval : Z) (r : batchRow) : option groupKey :=
  match BoundsFor (Control r) interval with Ok b => Some (row_key r b) | Err _ => None end.

Lemma add_to_group_at k c g k' :
  group_at (add_to_group k c g) k' = (group_at g k' ++ if bool_decide (k' = k) then [c] else [])%list.
Proof.
  induction g as [|[k1 l] g IH]; cbn [add_to_group group_at]; [done|].
  destruct (bool_decide (k = k1)) eqn:Hk; cbn [group_at].
  - apply bool_decide_eq_true in Hk as <-. by case_bool_decide; rewrite ?app_nil_r.
  - apply bool_decide_eq_false in Hk. destruct (bool_decide (k' = k1)) eqn:Hk'; [|apply IH].
    apply bool_decide_eq_true in Hk' as ->. by rewrite bool_decide_false, app_nil_r.
Qed.
Lemma add_to_group_keys k c g :
  (∀ k', k' ∈ (add_to_group k c g).*1 ↔ k' = k ∨ k' ∈ g.*1) ∧ (NoDup g.*1 → NoDup (add_to_group k c g).*1).
Proof.
  induction g as [|[k1 l] g [IH1 IH2]]; cbn [add_to_group].
  { split; [intros k'; cbn; set_solver|]. intros _. apply NoDup_singleton. }
  destruct (bool_decide (k = k1)) eqn:Hk; cbn [fmap list_fmap fst].
  - apply bool_decide_eq_true in Hk as <-. split; [|done]. set_solver.
  - apply bool_decide_eq_false in Hk. split; [intros k'; rewrite !elem_of_cons, IH1; tauto|].
    intros [Hn Hd]%NoDup_cons. apply NoDup_cons. split; [|by apply IH2]. rewrite IH1. naive_solver.
Qed.

Lemma group_rows_spec interval out rows gs :
  group_rows interval out rows = Ok gs → NoDup out.*1 →
  NoDup gs.*1 ∧
  (∀ k, group_at gs k = (group_at out k ++ (CTID <$> filter (λ r, key_of interval r = Some k) rows))%list) ∧
  (∀ k, k ∈ gs.*1 ↔ k ∈ out.*1 ∨ ∃ r, r ∈ rows ∧ key_of interval r = Some k) ∧
  (∀ r, r ∈ rows → key_of interval r ≠ None).
Proof.
  revert out. induction rows as [|r rows IH]; intros out; cbn [group_rows].
  { intros [= <-] Hd. split_and!; [done|intros; by rewrite app_nil_r| |by intros r ?%not_elem_of_nil].
    intros k. split; [by left|]. by intros [?|(r & ?%not_elem_of_nil & _)]. }
  destruct (BoundsFor (Control r) interval) as [b|e] eqn:Hb; [|done]. cbn [mbind result_bind].
  intros Hrun Hd. assert (key_of interval r = Some (row_key r b)) as Hkey by (unfold key_of; by rewrite Hb).
  pose proof (add_to_group_keys (row_key r b) (CTID r) out) as [Hk Hnd].
  apply IH in Hrun as (H1 & H2 & H3 & H4); [|by apply Hnd]. split_and!; [done| | |].
  - intros k. rewrite H2, add_to_group_at, filter_cons, <- app_assoc. f_equal. rewrite Hkey.
    case_bool_decide as Hkk; [rewrite decide_True by congruence|rewrite decide_False by congruence]; done.
  - intros k. rewrite H3, Hk. setoid_rewrite elem_of_cons. naive_solver.
  - intros r' [->|?]%elem_of_cons; [congruence|by apply H4].
Qed.

Lemma group_at_elem g k l : NoDup g.*1 → (k, l) ∈ g → group_at g k = l.
Proof.
  induction g as [|[k1 l1] g IH]; intros Hd Hin; [by apply not_elem_of_nil in Hin|].
  apply NoDup_cons in Hd as [Hn Hd]. cbn [group_at]. apply elem_of_cons in Hin as [[= <- <-]|Hin].
  - by rewrite bool_decide_true.
  - rewrite bool_decide_false; [by apply IH|]. intros ->. apply Hn, list_elem_of_fmap. by exists (k1, l).
Qed.

(** A batch is grouped by target.  [groupByBounds] succeeds when the bounds
    of every row do; each key occurs once, its entry is the non-empty list of
    the ctids of exactly the rows whose bounds and tenant it names, in the
    order of the batch. *)
Lemma groupByBounds_spec rows interval gs :
  groupByBounds rows interval = Ok gs →
  NoDup gs.*1 ∧
  (∀ r, r ∈ rows → ∃ k, key_of interval r = Some k ∧ k ∈ gs.*1) ∧
  (∀ k l, (k, l) ∈ gs → l = CTID <$> filter (λ r, key_of interval r = Some k) rows ∧ l ≠ []).
Proof.
  intros (H1 & H2 & H3 & H4)%group_rows_spec; [|constructor]. split_and!; [done| |].
  - intros r Hr. destruct (key_of interval r) as [k|] eqn:Hk; [|by apply H4 in Hr].
    exists k. split; [done|]. apply H3. right. eauto.
  - intros k l Hin. pose proof (group_at_elem _ _ _ H1 Hin) as Hl. rewrite H2 in Hl. cbn in Hl.
    split; [done|]. assert (k ∈ gs.*1) as Hk by (apply list_elem_of_fmap; by exists (k, l)).
    apply H3 in Hk as [?%not_elem_of_nil|(r & Hr & Hkr)]; [done|]. subst l. intros Hnil.
    apply fmap_nil_inv in Hnil. assert (r ∈ filter (λ r, key_of interval r = Some k) rows) as Hf
      by (by apply list_elem_of_filter). rewrite Hnil in Hf. by apply not_elem_of_nil in Hf.
Qed.

(** ** Rows and their targets *)

(** What the scan makes of a row of the heap, and the group it joins.  An
    infinite control value is taken for the zero time. *)
Definition control_time (v : value) : option Time :=
  match v with VTime t => Some t | VInfinity _ => Some zero_Time | _ => None end.
Definition to_batch (p : readParams) (r : heap_row) : option batchRow :=
  t ← control_time (col r (ControlCol p));
  if tenanted p then
    match col r (TenantCol p) with
    | VText s => Some (mkBatchRow (UTC t) s (ctid r) true)
    | VNull => Some (mkBatchRow (UTC t) "" (ctid r) false)
    | _ => None
    end
  else Some (mkBatchRow (UTC t) "" (ctid r) false).
Definition group_of (p : readParams) (interval : Z) (r : heap_row) : option groupKey :=
  b ← to_batch p r; key_of interval b.

Lemma to_batch_typed p r : typed p r → col r (ControlCol p) ≠ VNull → is_Some (to_batch p r).
Proof.
  intros [Hc Ht] Hn. assert (∃ t, control_time (col r (ControlCol p)) = Some t) as [t Hct].
  { destruct Hc as [?|[[t ->]|[b ->]]]; [done|by eexists..]. }
  unfold to_batch. rewrite Hct. cbn. destruct (tenanted p); [|by eexists].
  destruct (Ht eq_refl) as [-> |[s ->]]; by eexists.
Qed.
Lemma to_batch_ctid p r b : to_batch p r = Some b → CTID b = ctid r.
Proof. unfold to_batch. intros (t & _ & H)%bind_Some. repeat case_match; by simplify_eq. Qed.
Lemma scan_to_batch p r b :
  to_batch p r = Some b →
  scan_batchRow (tenanted p) (VTid (ctid r) :: (col r <$> sel_cols (read_select p))) = Ok b.
Proof.
  unfold to_batch, scan_batchRow, read_select. cbn [sel_cols fmap list_fmap].
  intros (t & Hc & H)%bind_Some. assert (scan_time (col r (ControlCol p)) = Some t) as Hs by by destruct (col r _).
  destruct (tenanted p); cbn [fmap list_fmap]; rewrite Hs;
    [destruct (col r (TenantCol p)); try done|]; by injection H as <-.
Qed.

Lemma scan_rows_Forall2 {A B} (scan : list value → res A) (f : B → list value) (g : B → option A) l :
  (∀ x, x ∈ l → ∃ a, g x = Some a ∧ scan (f x) = Ok a) →
  ∃ out, scan_rows scan (f <$> l) = Ok out ∧ Forall2 (λ x a, g x = Some a) l out.
Proof.
  induction l as [|x l IH]; intros Hl; [by exists []|].
  destruct (Hl x ltac:(by left)) as (a & Hg & Hs). destruct IH as (out & Ho & HF); [intros; apply Hl; by right|].
  exists (a :: out). cbn. rewrite Hs. cbn. rewrite Ho. cbn. split; [done|by constructor].
Qed.

(** A batch: rows of the table that the query is for, in full when the limit
    leaves room; none only if there are none. *)
Lemma read_batch_rows p rows out :
  (∀ r, r ∈ rows → typed p r) → 0 < PBatchSize p →
  selected (read_select p) (read_args p) rows out →
  ∃ l brs, scan_rows (scan_batchRow (tenanted p)) out = Ok brs ∧
    Forall2 (λ r b, to_batch p r = Some b) l brs ∧
    (∀ r, r ∈ l → r ∈ rows ∧ wanted p r) ∧
    (l = [] → ∀ r, r ∈ rows → ¬ wanted p r).
Proof.
  intros Ht Hb (l & limit & Hl & _ & Hlim & ->).
  assert (limit = PBatchSize p) as ->.
  { revert Hlim. unfold parameter, read_select, read_args. cbn [sel_limit].
    rewrite !length_app, !app_assoc, lookup_app_r by (rewrite !length_app; cbn; lia).
    rewrite !length_app. replace (_ - _)%nat with O by (cbn; lia). cbn. congruence. }
  assert (∀ r, r ∈ l ↔ r ∈ rows ∧ wanted p r) as Hin.
  { intros r. rewrite Hl, list_elem_of_filter. split; intros [H1 H2]; split; try done;
      by apply read_selects in H1 || apply read_selects; auto. }
  set (l' := take (Z.to_nat (PBatchSize p)) l).
  assert (∀ r, r ∈ l' → r ∈ l) as Hsub by (intros r Hr; by eapply elem_of_take in Hr as (? & ?%list_elem_of_lookup_2 & _)).
  destruct (scan_rows_Forall2 (scan_batchRow (tenanted p))
              (λ r, VTid (ctid r) :: (col r <$> sel_cols (read_select p))) (to_batch p) l') as (brs & Hs & HF).
  { intros r [Hr [Hn _ _]]%Hsub%Hin. destruct (to_batch_typed p r) as [b Hbr]; [by apply Ht|done|].
    exists b. split; [done|by apply scan_to_batch]. }
  exists l', brs. split_and!; [done|done|by intros r ?%Hsub%Hin|].
  intros Hnil r Hr Hw. assert (r ∈ l) as Hrl by (by apply Hin).
  destruct l as [|x l]; [by apply not_elem_of_nil in Hrl|]. unfold l' in Hnil.
  destruct (Z.to_nat (PBatchSize p)) eqn:Hn; [lia|done].
Qed.

Lemma batch_keyed p interval rows l brs gs k cs r :
  NoDup (ctid <$> rows) → (∀ x, x ∈ l → x ∈ rows) →
  Forall2 (λ r b, to_batch p r = Some b) l brs → groupByBounds brs interval = Ok gs →
  (k, cs) ∈ gs → r ∈ rows → ctid r ∈ cs → group_of p interval r = Some k.
Proof.
  intros Hd Hsub HF (_ & _ & Hg)%groupByBounds_spec Hin Hr Hc.
  destruct (Hg _ _ Hin) as [-> _]. apply list_elem_of_fmap in Hc as (b & Hcb & [Hkey Hb]%list_elem_of_filter).
  apply list_elem_of_lookup in Hb as [i Hi]. destruct (Forall2_lookup_r _ _ _ _ _ HF Hi) as (x & Hx & Hbx).
  assert (x = r) as ->.
  { eapply (NoDup_fmap_elem_eq ctid rows); [done|by eapply Hsub, list_elem_of_lookup_2|done|].
    by rewrite Hcb, (to_batch_ctid _ _ _ Hbx). }
  unfold group_of. by rewrite Hbx.
Qed.

(** ** Conservation *)

Record transfer := mkTransfer { t_rel : string * string; t_old : heap_row; t_new : heap_row }.

Section draining.
Context {C : Type} {E : Env C} {HE : EnvLaws E}.
Context (table : string) (p : readParams) (cols : list string) {HH : Heap E table p cols}.
Context (pid : string) (interval : Z).

(** [row] is the active partition of the group [k]. *)
Record target_row (m : Meta) (k : groupKey) (row : Partition.row) : Prop := {
  target_in : row ∈ partitions m;
  target_owner : Partition.owner row = (pid, pgTenantID k);
  target_bounded : Partition.IsDefault row = false;
  target_active : Partition.Status row = active;
  target_from : Equal (Partition.BoundsFrom row) (timestamptz (From (KBounds k))) = true;
  target_to : Equal (Partition.BoundsTo row) (timestamptz (To (KBounds k))) = true
}.
Definition destined (m : Meta) (r : heap_row) (rel : string * string) : Prop :=
  ∃ k row, group_of p interval r = Some k ∧ target_row m k row ∧ Cut "." (Partition.Name row) = Some rel.

(** The bounded partitions have qualified names, none that of the default. *)
Definition named_apart (m : Meta) : Prop :=
  ∀ row, row ∈ partitions m → Partition.ParentTableID row = pid → Partition.IsDefault row = false →
    ∃ rel, Cut "." (Partition.Name row) = Some rel ∧ rel ≠ source p.

(** From [d] to [d'] the rows [ms] moved, each from the default partition to
    the partition of its own bounds and tenant; nothing else changed. *)
Definition drained_by (ms : list transfer) (d d' : DB C) : Prop :=
  meta d' = meta d ∧ (∀ rel r, admits (catalog d') rel r ↔ admits (catalog d) rel r) ∧
  match view (catalog d) (source p) with
  | Some rows => ∃ rows', view (catalog d') (source p) = Some rows' ∧ rows ≡ₚ rows' ++ (t_old <$> ms)
  | None => view (catalog d') (source p) = None ∧ ms = []
  end ∧
  (∀ rel, rel ≠ source p →
     match view (catalog d) rel with
     | Some t => ∃ t', view (catalog d') rel = Some t' ∧ t' ≡ₚ t ++ (t_new <$> filter (λ x, t_rel x = rel) ms)
     | None => view (catalog d') rel = None ∧ ∀ x, x ∈ ms → t_rel x ≠ rel
     end) ∧
  Forall (λ x, same_on cols (t_old x) (t_new x) ∧ t_rel x ≠ source p ∧ destined (meta d) (t_old x) (t_rel x)) ms.
Definition drains (d d' : DB C) : Prop := ∃ ms, drained_by ms d d'.

(** Statements that leave the tables alone. *)
Lemma drained_by_same_views d d' :
  meta d' = meta d → (∀ rel, view (catalog d') rel = view (catalog d) rel) →
  (∀ rel r, admits (catalog d') rel r ↔ admits (catalog d) rel r) → drained_by [] d d'.
Proof.
  intros Hm Hv Ha. split_and!; [done|done| |intros rel _|by constructor]; rewrite Hv.
  - destruct (view _ _) as [rows|]; [|done]. exists rows. by rewrite app_nil_r.
  - destruct (view _ _) as [t|]; [|split; [done|by intros x ?%not_elem_of_nil]]. exists t. cbn. by rewrite app_nil_r.
Qed.

Lemma drained_by_refl d : drained_by [] d d.
Proof. by apply drained_by_same_views. Qed.
Lemma drained_by_trans ms ms' d1 d2 d3 :
  drained_by ms d1 d2 → drained_by ms' d2 d3 → drained_by (ms ++ ms')%list d1 d3.
Proof.
  intros (Hm1 & Ha1 & Hs1 & Ho1 & HF1) (Hm2 & Ha2 & Hs2 & Ho2 & HF2).
  split_and!; [congruence|by intros; rewrite Ha2| | |].
  - destruct (view (catalog d1) _) as [rows|].
    + destruct Hs1 as (rows' & Hv & Hp). rewrite Hv in Hs2. destruct Hs2 as (rows'' & Hv' & Hp').
        exists rows''. split; [done|]. rewrite Hp, Hp', fmap_app, <- app_assoc. f_equiv. apply Permutation_app_comm.
    + destruct Hs1 as [Hv ->]. rewrite Hv in Hs2. by destruct Hs2 as [? ->].
  - intros rel Hrel. specialize (Ho1 rel Hrel). specialize (Ho2 rel Hrel).
      destruct (view (catalog d1) rel) as [t|].
    + destruct Ho1 as (t' & Hv & Hp). rewrite Hv in Ho2. destruct Ho2 as (t'' & Hv' & Hp').
        exists t''. split; [done|]. by rewrite Hp', Hp, filter_app, fmap_app, app_assoc.
    + destruct Ho1 as [Hv Hn]. rewrite Hv in Ho2. destruct Ho2 as [Hv' Hn']. split; [done|].
        intros x [?|?]%elem_of_app; auto.
  - apply Forall_app. split; [done|]. by rewrite Hm1 in HF2.
Qed.

#[export] Instance drains_preorder : PreOrder drains.
Proof.
  split; [intros d; exists []; apply drained_by_refl|].
  intros d1 d2 d3 [ms H1] [ms' H2]. exists (ms ++ ms')%list. by eapply drained_by_trans.
Qed.

(** The default partition only loses rows. *)
Lemma drains_source d d' rows :
  drains d d' → view (catalog d) (source p) = Some rows →
  ∃ rows', view (catalog d') (source p) = Some rows' ∧ ∀ r, r ∈ rows' → r ∈ rows.
Proof.
  intros (ms & _ & _ & Hs & _) Hv. rewrite Hv in Hs. destruct Hs as (rows' & Hv' & Hp).
  exists rows'. split; [done|]. intros r Hr. rewrite Hp. apply elem_of_app. by left.
Qed.
Lemma drains_source_None d d' :
  drains d d' → view (catalog d) (source p) = None → view (catalog d') (source p) = None.
Proof. intros (ms & _ & _ & Hs & _) Hv. rewrite Hv in Hs. by destruct Hs. Qed.

(** The move of the group [(k, ctids)] into its target. *)
Lemma moves_drains d c' k ctids n row rel :
  (∀ rows r, view (catalog d) (source p) = Some rows → r ∈ rows → ctid r ∈ ctids → group_of p interval r = Some k) →
  target_row (meta d) k row → Cut "." (Partition.Name row) = Some rel → rel ≠ source p →
  moves (source p) rel cols ctids n (view (catalog d)) (view c') →
  (∀ rel r, admits c' rel r ↔ admits (catalog d) rel r) →
  drains d (mkDB (meta d) c').
Proof.
  intros Hk Ht Hrel Hne (rows & t & new & t' & Hv & Hvt & Hl & Hr & Hp & HF & _ & Ho) Ha.
  set (gone := filter (λ r, ctid r ∈ ctids) rows) in *.
  exists (zip_with (mkTransfer rel) gone new). split_and!; [done|done|..]; cbn [catalog].
  - rewrite Hv. exists (filter (λ r, ctid r ∉ ctids) rows). split; [done|].
    replace (t_old <$> _) with gone; [|].
    { rewrite Permutation_app_comm. symmetry. apply (filter_app_complement (λ r, ctid r ∈ ctids)). }
    clear -HF. induction HF; [done|]. cbn. by f_equal.
  - intros rel' Hrel'. destruct (decide (rel' = rel)) as [->|Hd].
    + rewrite Hvt. exists t'. split; [done|]. rewrite Hp. f_equiv.
      replace (t_new <$> _) with new; [done|]. clear -HF. induction HF; [done|]. cbn [zip_with].
      rewrite filter_cons_True by done. cbn [fmap list_fmap t_new]. by f_equal.
    + rewrite (Ho rel' Hrel' Hd). assert (∀ x, x ∈ zip_with (mkTransfer rel) gone new → t_rel x ≠ rel') as Hx.
      { intros x (i & Hi)%list_elem_of_lookup. apply lookup_zip_with_Some in Hi as (? & ? & -> & _). naive_solver. }
      destruct (view (catalog d) rel') as [u|]; [|done]. exists u. split; [done|].
      replace (filter _ _) with (@nil transfer); [cbn; by rewrite app_nil_r|]. symmetry.
      apply elem_of_nil_inv. intros x [He Hin]%list_elem_of_filter. by apply Hx in Hin.
  - apply Forall_forall. intros x (i & Hi)%list_elem_of_lookup.
    apply lookup_zip_with_Some in Hi as (old & nw & -> & H1 & H2). cbn. split_and!; [|done|].
    + by eapply Forall2_lookup_lr.
    + apply list_elem_of_lookup_2, list_elem_of_filter in H1 as [Hc Hin]. exists k, row. split; [by eapply Hk|done].
Qed.

(** The ctids name rows of the group [k] only. *)
Definition keyed (k : groupKey) (ctids : list Z) (d : DB C) : Prop :=
  ∀ rows r, view (catalog d) (source p) = Some rows → r ∈ rows → ctid r ∈ ctids → group_of p interval r = Some k.
Lemma keyed_drains k ctids d d' : drains d d' → keyed k ctids d → keyed k ctids d'.
Proof.
  intros Hd Hk rows' r Hv Hr Hc. destruct (view (catalog d) (source p)) as [rows|] eqn:Hv0.
  - destruct (drains_source _ _ _ Hd Hv0) as (rows1 & Hv1 & Hsub). rewrite Hv in Hv1.
    injection Hv1 as <-. by eapply Hk; [exact Hv0|apply Hsub|].
  - apply drains_source_None in Hd; [congruence|done].
Qed.
Lemma drains_meta d d' : drains d d' → meta d' = meta d.
Proof. by intros (ms & ? & _). Qed.

(** A drain of the metadata [m], when the ctids are those of [k]. *)
Definition drains_group (m : Meta) (k : groupKey) (ctids : list Z) : relation (World C) :=
  on_db (λ d d', meta d = m → keyed k ctids d → drains d d').
#[export] Instance drains_group_effect m k ctids : Effect (drains_group m k ctids).
Proof.
  apply Effect_on_db. split; [by intros d|]. intros d1 d2 d3 H1 H2 Hm Hk.
  etrans; [by apply H1|]. apply H2; [|eapply keyed_drains; [|exact Hk]; by apply H1].
  rewrite <- Hm. apply drains_meta. by apply H1.
Qed.

Lemma Stable_move m k ctids row rel op :
  target_row m k row → Cut "." (Partition.Name row) = Some rel → rel ≠ source p →
  Stable (drains_group m k ctids)
    (Do (retryPolicy op) (moveGroup (PSchema p) (DefaultTable p) (Partition.Name row) cols ctids)).
Proof.
  intros Ht Hrel Hne. apply Stable_Do; [apply _|]. apply Stable_in_tx; [apply _|].
  apply Stable_statement; [apply _|]. intros w a d'. destruct (pg_exec _ _ _) as [[n c']|] eqn:Hx; [|done].
  cbn. intros [= <- <-] Hm Hk. cbn. subst m. destruct (heap_move _ _ _ _ _ _ Hrel Hne Hx) as [Hmv Ha].
  eapply moves_drains; [exact Hk|done..].
Qed.

Lemma find_active_target k w o w' :
  FindActivePartitionByBounds pid (pgTenantID k) (From (KBounds k)) (To (KBounds k)) w = (o, w') →
  later w w' ∧
  match o with
  | Ret row => target_row (meta (db w)) k row
  | Fail NoRows => True
  | _ => True
  end.
Proof.
  intros [Hl Ha]%looks_meta_read. split; [done|]. destruct o as [row|[]|]; try done.
  destruct (Ha row eq_refl) as [n Hf]. unfold find_active in Hf.
  destruct (List.find _ _) as [r|] eqn:Hfind; [|done]. injection Hf as ->.
  apply find_Some_elem in Hfind as [Hin Hb]. unfold scanned in Hin. rewrite env_scan_perm in Hin.
  rewrite !andb_true_iff, !bool_decide_eq_true, negb_true_iff in Hb. destruct Hb as [[[[? ?] ?] ?] ?].
  by split.
Qed.

Section loop.
Context (label : string) (prow : Parent.row) (Hpid : Parent.ID prow = pid).

Lemma drain_groups_drains gs rep an w o w' :
  (∀ k ctids, (k, ctids) ∈ gs → keyed k ctids (db w)) → named_apart (meta (db w)) →
  drain_groups (PSchema p) (DefaultTable p) label prow cols gs rep an w = (o, w') →
  drains (db w) (db w').
Proof.
  revert rep an w. induction gs as [|[k ctids] gs IH]; intros rep an w Hk Hn; cbn [drain_groups].
  { by intros [= <- <-]. }
  assert (∀ w1 rep1 an1, drains (db w) (db w1) →
    drain_groups (PSchema p) (DefaultTable p) label prow cols gs rep1 an1 w1 = (o, w') → drains (db w) (db w')) as Hrest.
  { intros w1 rep1 an1 Hd Hrun. etrans; [exact Hd|]. eapply IH; [| |exact Hrun].
    - intros k' ctids' Hin. eapply keyed_drains; [exact Hd|]. apply Hk. by right.
    - by rewrite (drains_meta _ _ Hd). }
  assert (∀ w1, later w w1 → drains (db w) (db w1)) as Hlater by (by intros w1 [-> _]).
  intros [(tgt & w1 & (ot & Hft & Hot)%attempt_inv & Hrun)
         |[(e & (ot & Hft & Hot)%attempt_inv & ->)|[(ot & Hft & Hot)%attempt_inv ->]]]%bind_inv;
    rewrite Hpid in Hft; apply find_active_target in Hft as [Hl Ht].
  2, 3: by apply Hlater.
  destruct ot as [row|e|]; [..|done]; injection Hot as ->.
  - pose proof Ht as [Hin Ho Hdef _ _ _]. unfold Partition.owner in Ho. injection Ho as Hpid' _.
    destruct (Hn row Hin Hpid' Hdef) as (rel & Hrel & Hne).
    assert (∀ o2 w2, Do (retryPolicy "drain-move")
        (moveGroup (PSchema p) (DefaultTable p) (Partition.Name row) cols ctids) w1 = (o2, w2) →
        drains (db w) (db w2)) as Hmove.
    { intros o2 w2 Hdo. destruct Hl as [Hl _]. rewrite <- Hl in Ht |- *.
      eapply (Stable_move (meta (db w1)) k); [exact Ht|done..|rewrite Hl; apply Hk; by left]. }
    apply bind_inv in Hrun as [(mv & w2 & (om & Hdo & Hom)%attempt_inv & Hrun)
         |[(e & (om & Hdo & Hom)%attempt_inv & ->)|[(om & Hdo & Hom)%attempt_inv ->]]].
    2, 3: by eapply Hmove.
    apply Hmove in Hdo. destruct mv as [n|e]; [|by injection Hrun as _ <-].
    eapply (Hrest (mkWorld (db w2) (tick w2) _)); [exact Hdo|exact Hrun].
  - destruct (Is e NoRows); [|injection Hrun as _ <-; by apply Hlater].
    eapply Hrest; [by apply Hlater|exact Hrun].
Qed.

Lemma looks_readBatch rq te :
  looks (readBatch rq te) (λ brs d, ∃ out, pg_query rq.1 rq.2 (catalog d) = Ok out ∧
                                      scan_rows (scan_batchRow te) out = Ok brs).
Proof.
  unfold readBatch. eapply looks_bind; [apply looks_QueryRows|]. intros out.
  eapply looks_weaken; [apply looks_lift|]. intros brs d Hs Hq. by exists out.
Qed.

Lemma typed_with_keys ks r : typed p r → typed (with_keys ks p) r.
Proof. by intros []; split. Qed.

Context (o : Options.t) (Hcontrol : Parent.PartitionBy prow = ControlCol p).
Context (Htenant : Options.Tenant o = PTenant p) (Hsize : Options.BatchSize o = PBatchSize p).
Context (Hpos : 0 < PBatchSize p).

Lemma read_params_eq an :
  read_params (PSchema p) (DefaultTable p) (TenantCol p) prow o an = with_keys (tracker_keys an) p.
Proof. unfold read_params, with_keys. by rewrite Hcontrol, Htenant, Hsize. Qed.

(** A batch that was read, on the table it was read from. *)
Lemma batch_read ks d out brs rows :
  let q := with_keys ks p in
  view (catalog d) (source p) = Some rows →
  pg_query (buildReadBatch q).1 (buildReadBatch q).2 (catalog d) = Ok out →
  scan_rows (scan_batchRow (tenanted p)) out = Ok brs →
  ∃ l, Forall2 (λ r b, to_batch p r = Some b) l brs ∧
    (∀ r, r ∈ l → r ∈ rows ∧ wanted q r) ∧ (l = [] → ∀ r, r ∈ rows → ¬ wanted q r).
Proof.
  intros q Hv Hq Hs. rewrite buildReadBatch_render in Hq. cbn [fst snd] in Hq.
  pose proof (heap_select _ _ _ _ Hv Hq) as Hsel.
  destruct (read_batch_rows q rows out) as (l & brs' & Hs' & HF & Hin & Hnil); [|done|done|].
  { intros r Hr. apply typed_with_keys. by eapply heap_typed. }
  change (tenanted q) with (tenanted p) in Hs'. rewrite Hs in Hs'. injection Hs' as <-.
  exists l. by split_and!.
Qed.
Lemma batch_groups_keyed ks d out brs gs k ctids :
  let q := with_keys ks p in
  pg_query (buildReadBatch q).1 (buildReadBatch q).2 (catalog d) = Ok out →
  scan_rows (scan_batchRow (tenanted p)) out = Ok brs →
  groupByBounds brs interval = Ok gs → (k, ctids) ∈ gs → keyed k ctids d.
Proof.
  intros q Hq Hs Hg Hin rows r Hv Hr Hc.
  destruct (batch_read ks d out brs rows Hv Hq Hs) as (l & HF & Hl & _).
  eapply batch_keyed; [by eapply heap_ctids|by intros x [? _]%Hl|exact HF|exact Hg|exact Hin|done..].
Qed.

Lemma drain_batches_drains fuel idx rep an w ob w' :
  named_apart (meta (db w)) →
  drain_batches (PSchema p) (DefaultTable p) label (TenantCol p) prow cols interval o fuel idx rep an w = (ob, w') →
  drains (db w) (db w').
Proof.
  revert idx rep an w. induction fuel as [|fuel IH]; intros idx rep an w Hn; cbn [drain_batches].
  { by intros [= <- <-]. }
  destruct (negb _); [by intros [= <- <-]|].
  assert (∀ w1, later w w1 → drains (db w) (db w1)) as Hlater by (by intros w1 [-> _]).
  rewrite read_params_eq. fold (tenanted p). set (q := with_keys (tracker_keys an) p).
  intros [(c & w1 & [Hl1 _]%env_inv & Hrun)|[(e & [_ [=]]%env_inv & _)|[[_ [=]]%env_inv _]]]%bind_inv.
  destruct c as [e|]; [injection Hrun as _ <-; by apply Hlater|].
  apply (bind_looks_inv _ _ _ _ _ _ (looks_attempt _ _ (looks_readBatch _ _))) in Hrun
    as [(brs & w2 & Hl2 & Hread & Hrun)|[Hl2 _]]; [|apply Hlater; by etrans].
  assert (later w w2) as Hlw2 by (by etrans).
  destruct brs as [[|br brs]|e]; [injection Hrun as _ <-; by apply Hlater| |injection Hrun as _ <-; by apply Hlater].
  destruct Hread as (out & Hq & Hs). destruct Hl1 as [Hd1 _]. rewrite Hd1 in Hq.
  set (rows := br :: brs) in *. rewrite bind_emit in Hrun. set (w3 := mkWorld _ _ _) in Hrun.
  destruct (groupByBounds rows interval) as [gs|e] eqn:Hg; [|injection Hrun as _ <-; by apply Hlater].
  apply bind_inv in Hrun as [(gs' & w4 & [Hl4 Hgs']%env_inv & Hrun)|[(e & [_ [=]]%env_inv & _)|[[_ [=]]%env_inv _]]].
  injection Hgs' as ->. set (gs' := env_scan _ _ gs) in *.
  assert (db w4 = db w) as Hd4 by (destruct Hl4 as [-> _]; destruct Hlw2 as [<- _]; done).
  assert (∀ o5 w5, drain_groups (PSchema p) (DefaultTable p) label prow cols gs' (add_batch rep) an w4 = (o5, w5) →
            drains (db w) (db w5)) as Hgroups.
  { intros o5 w5 Hrun5. rewrite <- Hd4. eapply drain_groups_drains; [|by rewrite Hd4|exact Hrun5].
    intros k ctids Hin. rewrite Hd4. eapply batch_groups_keyed; [exact Hq|exact Hs|exact Hg|].
    unfold gs' in Hin. by rewrite env_scan_perm in Hin. }
  apply bind_inv in Hrun as [([[rep' an'] err] & w5 & Hrun5 & Hrun)|[(e & Hrun5 & _)|[Hrun5 _]]];
    apply Hgroups in Hrun5; [|done..].
  destruct err as [e|]; [by injection Hrun as _ <-|].
  etrans; [exact Hrun5|]. eapply IH; [|exact Hrun]. by rewrite (drains_meta _ _ Hrun5).
Qed.
End loop.
End draining.

(** The batch query's parameters, for the parent [prow]. *)
Definition drain_params (ref : ParentRef.t) (prow : Parent.row) (opts : Options.t) : readParams :=
  read_params (ParentRef.SchemaName ref) (ParentRef.TableName ref +:+ "_default")
    (default "" (Parent.TenantColumn prow)) prow (resolved opts) [].

Lemma drain_params_size ref prow opts : 0 < PBatchSize (drain_params ref prow opts).
Proof. unfold drain_params, read_params, resolved. cbn. case_match; [done|lia]. Qed.

Lemma scan_text_columns l cs : scan_rows scan_text ((λ x, [VText x]) <$> l) = Ok cs → cs = l.
Proof.
  revert cs. induction l as [|c l IH]; cbn; intros cs; [by intros [= <-]|].
  destruct (scan_rows _ _) as [l'|]; [|done]. cbn. intros [= <-]. f_equal. by apply IH.
Qed.

Section partition_data.
Context {C : Type} {E : Env C} {HE : EnvLaws E}.
Context (ref : ParentRef.t) (prow : Parent.row) (opts : Options.t) (cols : list string) (interval : Z).
Let p := drain_params ref prow opts.
Context {HH : Heap E (ParentRef.TableName ref) p cols}.
Context (Hinterval : intervalFromLabel (Parent.PartitionInterval prow) = Ok interval).

(** What a drain of the registered parent may do. *)
Definition drain_steps : relation (World C) := on_db (λ d d',
  get_parent (ParentRef.SchemaName ref, ParentRef.TableName ref) (meta d) = Ok prow →
  named_apart p (Parent.ID prow) (meta d) →
  drains (ParentRef.TableName ref) p cols (Parent.ID prow) interval d d').
#[export] Instance drain_steps_effect : Effect drain_steps.
Proof.
  apply Effect_on_db. split; [by intros d|]. intros d1 d2 d3 H1 H2 Hp Hn.
  pose proof (drains_meta _ _ _ _ _ _ _ (H1 Hp Hn)) as Hm.
  etrans; [by apply H1|]. apply H2; by rewrite Hm.
Qed.

Lemma Stable_lock_call s sql args :
  sql = try_lock_sql ∨ sql = unlock_sql → Stable drain_steps (Call s sql args).
Proof.
  intros Hsql. apply Stable_statement; [apply _|]. intros w a d'.
  destruct (pg_call _ _ _ _) as [[row c']|] eqn:Hc; [|done]. cbn. intros [= <- <-] _ _. cbn.
  destruct (heap_call _ _ _ _ _ _ Hsql Hc) as [Hv Ha]. exists []. by apply drained_by_same_views.
Qed.

Lemma looks_columns schema :
  schema = PSchema p →
  looks (lookupInsertColumns schema (ParentRef.TableName ref)) (λ cs d, cs = cols).
Proof.
  intros ->. unfold lookupInsertColumns. eapply looks_bind; [apply looks_QueryRows|]. intros rows.
  eapply looks_weaken; [apply looks_lift|]. cbn beta. intros cs d Hs Hq. apply heap_columns in Hq as ->.
  by eapply scan_text_columns.
Qed.

Lemma Stable_locked fuel : Stable drain_steps (partition_locked fuel ref (resolved opts)).
Proof.
  intros w o w' Hrun Hp Hn. unfold partition_locked in Hrun. cbv zeta in Hrun.
  assert (∀ w1, later w w1 → drains (ParentRef.TableName ref) p cols (Parent.ID prow) interval (db w) (db w1)) as Hlater
    by (by intros w1 [-> _]).
  apply (bind_looks_inv _ _ _ _ _ _ (looks_attempt _ _ (looks_meta_read _))) in Hrun
    as [(r & w1 & Hl1 & Hr & Hrun)|[Hl _]]; [|by apply Hlater].
  destruct r as [row|e]; [|injection Hrun as _ <-; by apply Hlater].
  destruct Hr as [_ Hr]. rewrite Hp in Hr. injection Hr as <-. rewrite Hinterval in Hrun.
  apply (bind_looks_inv _ _ _ _ _ _ (looks_attempt _ _ (looks_columns _ eq_refl))) in Hrun
    as [(r & w2 & Hl2 & Hr & Hrun)|[Hl _]]; [|apply Hlater; by etrans].
  assert (later w w2) as Hlw2 by (by etrans).
  destruct r as [cs|e]; [subst cs|injection Hrun as _ <-; by apply Hlater].
  destruct (bool_decide _); [injection Hrun as _ <-; by apply Hlater|].
  apply bind_later_inv in Hrun as [(r & w3 & Hl3 & Hrun)|[Hl3 _]]; [| |unfold assertDefaultExists; stable].
  2: { apply Hlater. by etrans. }
  assert (later w w3) as Hlw3 by (by etrans). destruct Hlw3 as [Hd3 _].
  destruct r as [u|e]; [|injection Hrun as _ <-; by rewrite Hd3]. rewrite <- Hd3.
  assert (named_apart p (Parent.ID prow) (meta (db w3))) as Hn3 by (by rewrite Hd3).
  pose proof (drain_batches_drains (ParentRef.TableName ref) p cols (Parent.ID prow) interval
    (ParentRef.SchemaName ref +:+ "." +:+ ParentRef.TableName ref) prow eq_refl (resolved opts)
    eq_refl eq_refl eq_refl (drain_params_size ref prow opts) fuel 0 empty_drain []) as Hbatches.
  unfold drain in Hrun. apply bind_inv in Hrun as [(r & w4 & Hb & Hrun)|[(e & Hb & _)|[Hb _]]];
    pose proof (Hbatches _ _ _ Hn3 Hb) as Hd; [|exact Hd..].
  enough (later w4 w') as [-> _] by exact Hd. revert Hrun.
  match goal with |- ?m w4 = _ → _ => enough (Stable later m) as Hs by apply Hs end.
  unfold appendNullAnomalies. stable.
Qed.

(** C27: every row is in exactly one place.  Whatever statement, commit or retry
    fails, or when the context is cancelled between two groups: a drain of a
    registered parent changes no metadata; every row that left the default
    partition is in the active partition of its own bounds and tenant, equal
    on every column that is not generated, and every other row of these
    tables is where it was. *)
Theorem PartitionData_conserves fuel w o w' :
  get_parent (ParentRef.SchemaName ref, ParentRef.TableName ref) (meta (db w)) = Ok prow →
  named_apart p (Parent.ID prow) (meta (db w)) →
  PartitionData fuel ref opts w = (o, w') →
  drains (ParentRef.TableName ref) p cols (Parent.ID prow) interval (db w) (db w').
Proof.
  intros Hp Hn Hrun. enough (Stable drain_steps (PartitionData fuel ref opts)) as Hs by (by eapply Hs).
  unfold PartitionData, TryLock, Unlock. stable; try apply Stable_locked; try (apply Stable_lock_call; auto).
Qed.
End partition_data.
