(* ===== verification/DrainTotal.v ===== *)
(** * The drain comes to an end

    When no statement fails: every round moves a row or sets it aside, so the
    loop ends; then no row with a partition is left in the default, and what
    is left is accounted for in the report.  A row whose tenant is the empty
    string breaks the argument: the loop reads it for ever. *)

From S2P Require Import Prelude GoTime GoStrings Errs TimeFormat Naming Periods Store World Logic Repo Scenario Retry Provisioner AdvisoryLock Drain Query Draining.
Local Open Scope string_scope.
Local Open Scope Z_scope.

(** ** Keys and rows *)

(** The rows a drain is for. *)
Definition in_scope (p : readParams) (r : heap_row) : Prop :=
  ∀ t, PTenant p = Some t → tenanted p = true → col r (TenantCol p) = VText t.
(** The tenant of a row is not the empty string, and its control value is not
    infinite. *)
Record regular (p : readParams) (r : heap_row) : Prop := {
  regular_tenant : tenanted p = true → col r (TenantCol p) ≠ VText "";
  regular_control b : col r (ControlCol p) ≠ VInfinity b
}.

Lemma group_of_inv p interval r k :
  group_of p interval r = Some k →
  ∃ t, control_time (col r (ControlCol p)) = Some t ∧ BoundsFor (UTC t) interval = Ok (KBounds k) ∧
    (if tenanted p then
       (col r (TenantCol p) = VText (KTenant k) ∧ KTenantOK k = true) ∨
       (col r (TenantCol p) = VNull ∧ KTenant k = "" ∧ KTenantOK k = false)
     else KTenant k = "" ∧ KTenantOK k = false).
Proof.
  unfold group_of, to_batch, key_of. intros H.
  destruct (control_time _) as [t|]; [|done]. exists t. split; [done|].
  destruct (tenanted p); [destruct (col r (TenantCol p)) eqn:Hc; try done|]; cbn in H;
    destruct (BoundsFor _ _) as [b|]; try done; injection H as <-; cbn; auto.
Qed.

(** The condition that excludes a recorded key meets exactly its rows. *)
Lemma sqlTenantArg_same p interval r k :
  regular p r → group_of p interval r = Some k →
  tenanted p = true → not_distinct (col r (TenantCol p)) (sqlTenantArg k) = true.
Proof.
  intros [Hn _] (t & _ & _ & Hk)%group_of_inv Ht. rewrite Ht in Hk. specialize (Hn Ht). unfold sqlTenantArg.
  destruct Hk as [[Hc ->]|(-> & _ & ->)]; [|done]. rewrite Hc in *. cbn [negb orb].
  rewrite bool_decide_false by congruence. cbn. by rewrite bool_decide_true.
Qed.
Lemma covered_of_group p interval r k :
  regular p r → group_of p interval r = Some k → covered p r k.
Proof.
  intros Hn Hg. pose proof (group_of_inv _ _ _ _ Hg) as (t & Hc & Hb & _). exists t.
  split; [pose proof (regular_control _ _ Hn) as Hf; destruct (col r (ControlCol p)); try done; [by injection Hc as ->|by destruct (Hf positive)]|].
  split; [|by eapply sqlTenantArg_same]. by apply BoundsFor_contains in Hb.
Qed.
Lemma group_of_covered p interval r r0 k :
  typed p r → regular p r → regular p r0 → group_of p interval r0 = Some k → covered p r k →
  group_of p interval r = Some k.
Proof.
  intros Ht [Hn _] [Hn0 _] (t0 & _ & Hb & Hk)%group_of_inv (t & Hc & Hin & Hs).
  unfold group_of, to_batch, key_of. rewrite Hc. cbn [control_time].
  assert (BoundsFor (UTC t) interval = Ok (KBounds k)) as Hbt by (by eapply BoundsFor_inside).
  destruct k as [b s ok]. cbn in *. destruct (tenanted p) eqn:Htp; cbn.
  - specialize (Hs eq_refl). specialize (Hn eq_refl). specialize (Hn0 eq_refl). unfold sqlTenantArg in Hs. cbn in Hs.
    destruct (typed_tenant _ _ Ht Htp) as [Hct|[s' Hct]]; rewrite Hct in *; cbn; rewrite Hbt; unfold row_key; cbn;
      destruct Hk as [[Hc0 ->]|(_ & -> & ->)]; cbn in Hs; try done.
    + case_bool_decide; [congruence|done].
    + case_bool_decide; [done|]. cbn in Hs. by apply bool_decide_eq_true in Hs as ->.
  - destruct Hk as [-> ->]. by rewrite Hbt.
Qed.

Lemma BoundsFor_label label interval t :
  intervalFromLabel label = Ok interval → ∃ b, BoundsFor t interval = Ok b.
Proof. unfold intervalFromLabel. intros H. repeat case_bool_decide; simplify_eq; by eexists. Qed.

Lemma groupByBounds_Ok rows interval label :
  intervalFromLabel label = Ok interval → ∃ gs, groupByBounds rows interval = Ok gs.
Proof.
  intros Hl. unfold groupByBounds. generalize (@nil (groupKey * list Z)). induction rows as [|r rows IH]; intros out; [by eexists|].
  cbn [group_rows]. destruct (BoundsFor_label _ _ (Control r) Hl) as [b ->]. apply IH.
Qed.

(** ** A count that decreases *)

Lemma filter_decreases {A} (P Q : A → Prop) `{!∀ x, Decision (P x)} `{!∀ x, Decision (Q x)} l l' x0 :
  NoDup l → NoDup l' → (∀ x, x ∈ l' → x ∈ l) → (∀ x, x ∈ l' → Q x → P x) →
  x0 ∈ l → P x0 → (x0 ∈ l' → ¬ Q x0) →
  (length (filter Q l') < length (filter P l))%nat.
Proof.
  intros Hl Hl' Hsub HQP Hx0 HP Hn. change (length (x0 :: filter Q l') <= length (filter P l))%nat.
  apply submseteq_length, NoDup_submseteq.
  - apply NoDup_cons. split; [|by apply NoDup_filter]. intros [HQ Hin]%list_elem_of_filter. by apply Hn.
  - intros x [->|[HQ Hin]%list_elem_of_filter]%elem_of_cons; apply list_elem_of_filter; auto.
Qed.

Lemma record_keys k n a k' : k' ∈ tracker_keys (record k n a) ↔ k' = k ∨ k' ∈ tracker_keys a.
Proof.
  unfold tracker_keys. induction a as [|[k1 m] a IH]; cbn [record]; [cbn; set_solver|].
  case_bool_decide as Hk; cbn [fmap list_fmap fst]; rewrite !elem_of_cons; [naive_solver|]. rewrite IH. tauto.
Qed.

(** ** When no statement fails *)

Section total.
Context {C : Type} {E : Env C} {HE : EnvLaws E} {QE : Quiet E}.
Context (Hctx : ∀ n, env_ctx n = None).
Context (table : string) (p : readParams) (cols : list string).
Context {HH : Heap E table p cols} {HA : HeapAccepts E table p cols}.
Context (pid : string) (interval : Z) (plabel : string) (Hinterval : intervalFromLabel plabel = Ok interval).

Notation drained_by := (drained_by table p cols pid interval).
Notation drains := (drains table p cols pid interval).
Notation keyed := (keyed table p cols interval).

(** The state a drain starts from: the default partition exists, no row of it
    that the drain is for has an empty tenant or an infinite control value, and the active partitions of the metadata
    exist and admit the rows of their bounds and tenant. *)
Record ready (d : DB C) (rows : list heap_row) : Prop := {
  ready_view : view (catalog d) (source p) = Some rows;
  ready_named : named_apart p pid (meta d);
  ready_regular r : r ∈ rows → in_scope p r → regular p r;
  ready_targets k row rel :
    target_row pid (meta d) k row → Cut "." (Partition.Name row) = Some rel →
    ∃ t, view (catalog d) rel = Some t ∧ ∀ r, group_of p interval r = Some k → admits (catalog d) rel r
}.

Lemma ready_drained d d' ms rows :
  ready d rows → drained_by ms d d' →
  ∃ rows', ready d' rows' ∧ rows ≡ₚ rows' ++ (t_old <$> ms).
Proof.
  intros [Hv Hn Ht Hr] (Hm & Ha & Hs & Ho & _). rewrite Hv in Hs. destruct Hs as (rows' & Hv' & Hp).
  exists rows'. split; [|done]. split; [done|by rewrite Hm| |].
  - intros r Hin. apply Ht. rewrite Hp. apply elem_of_app. by left.
  - rewrite Hm. intros k row rel Htr Hrel. destruct (Hr _ _ _ Htr Hrel) as (t & Hvt & Hadm).
    destruct Htr as [Hin Hown Hdef _ _ _]. unfold Partition.owner in Hown. injection Hown as Hpid _.
    destruct (Hn row Hin Hpid Hdef) as (rel' & Hrel' & Hne). rewrite Hrel in Hrel'. injection Hrel' as <-.
    specialize (Ho rel Hne). rewrite Hvt in Ho. destruct Ho as (t' & Hvt' & _). exists t'. split; [done|].
    intros r Hg. by apply Ha, Hadm.
Qed.

(** No active partition of the group. *)
Definition missing (m : Meta) (k : groupKey) : Prop := ∀ row, ¬ target_row pid m k row.

Lemma find_active_quiet k w :
  ∃ o w1, FindActivePartitionByBounds pid (pgTenantID k) (From (KBounds k)) (To (KBounds k)) w = (o, w1) ∧
    db w1 = db w ∧
    ((∃ row, o = Ret row ∧ target_row pid (meta (db w)) k row) ∨ (o = Fail NoRows ∧ missing (meta (db w)) k)).
Proof.
  destruct (FindActivePartitionByBounds _ _ _ _ w) as [o w1] eqn:Hf. exists o, w1. split; [done|].
  pose proof (find_active_target pid k w o w1 Hf) as [[Hd _] Ht]. split; [done|].
  unfold FindActivePartitionByBounds in Hf. rewrite quiet_meta_read in Hf. injection Hf as <- _.
  unfold find_active in *. destruct (List.find _ _) as [row|] eqn:Hfind; [left; by exists row|right].
  split; [done|]. intros row [H1 H2 H3 H4 H5 H6].
  eapply find_None_elem in Hfind; [|unfold scanned; by rewrite env_scan_perm].
  by rewrite H2, H3, H4, H5, H6, !bool_decide_true in Hfind by done.
Qed.

Section loop.
Context (label : string) (prow : Parent.row) (Hpid : Parent.ID prow = pid).

Definition after_groups (gs : groups) (rep rep' : Report) (an an' : anomalyTracker) (ms : list transfer)
    (d d' : DB C) : Prop :=
  drained_by ms d d' ∧
  RowsMoved rep' = RowsMoved rep + Z.of_nat (length ms) ∧ Anomalies rep' = Anomalies rep ∧
  (∀ k, k ∈ tracker_keys an → k ∈ tracker_keys an') ∧
  (∀ k, k ∈ tracker_keys an' → k ∈ tracker_keys an ∨ (k ∈ gs.*1 ∧ missing (meta d) k)) ∧
  (∀ k ctids, (k, ctids) ∈ gs →
     k ∈ tracker_keys an' ∨
     ∀ rows' r, view (catalog d') (source p) = Some rows' → r ∈ rows' → ctid r ∉ ctids).

Lemma drains_by ms d d' : drained_by ms d d' → drains d d'.
Proof. by exists ms. Qed.

(** The move of one group goes through at the first attempt. *)
Lemma move_quiet w k ctids row rows :
  ready (db w) rows → keyed k ctids (db w) → target_row pid (meta (db w)) k row →
  ∃ n w1 ms,
    Do (retryPolicy "drain-move")
      (moveGroup (PSchema p) (DefaultTable p) (Partition.Name row) cols ctids) w = (Ret n, w1) ∧
    drained_by ms (db w) (db w1) ∧ n = Z.of_nat (length ms) ∧
    ∀ rows' r, view (catalog (db w1)) (source p) = Some rows' → r ∈ rows' → ctid r ∉ ctids.
Proof.
  intros Hr Hk Ht. pose proof Ht as [Hin Hown Hdef _ _ _]. unfold Partition.owner in Hown. injection Hown as Hp _.
  destruct (ready_named _ _ Hr row Hin Hp Hdef) as (rel & Hrel & Hne).
  destruct (ready_targets _ _ Hr _ _ _ Ht Hrel) as (t & Hvt & Hadm).
  destruct (accepts_move (catalog (db w)) _ _ ctids rows t Hrel Hne (ready_view _ _ Hr) Hvt) as (n & c' & Hx).
  { intros r Hin' Hc. apply Hadm. by eapply Hk; [apply Hr|..]. }
  pose proof (heap_move _ _ _ _ _ _ Hrel Hne Hx) as [Hmv Ha].
  pose proof (moves_drains table p cols pid interval _ _ _ _ _ _ _ Hk Ht Hrel Hne Hmv Ha) as [ms Hms].
  eexists n, _, ms. split_and!.
  - apply Do_Ret. unfold moveGroup. apply in_tx_Ret. apply quiet_Exec. exact Hx.
  - exact Hms.
  - destruct Hmv as (rows0 & t0 & new & t' & Hv & _ & Hl & _ & _ & HF & -> & _).
    destruct Hms as (_ & _ & Hs & _). rewrite Hv in Hs. cbn [catalog] in Hs. rewrite Hl in Hs.
    destruct Hs as (rows1 & [= <-] & Hperm). apply Permutation_length in Hperm.
    rewrite length_app, length_fmap in Hperm. apply Forall2_length in HF.
    pose proof (Permutation_length (filter_app_complement (λ r, ctid r ∈ ctids) rows0)) as Hc.
    rewrite length_app in Hc. f_equal. change (λ r, ctid r ∉ ctids) with (λ r, ¬ ctid r ∈ ctids) in *. lia.
  - cbn [db catalog]. destruct Hmv as (rows0 & t0 & new & t' & Hv & _ & Hl & _). rewrite Hl.
    intros rows' r [= <-] [? _]%list_elem_of_filter. done.
Qed.

Lemma drain_groups_quiet gs rep an w rows :
  ready (db w) rows → (∀ k ctids, (k, ctids) ∈ gs → keyed k ctids (db w)) →
  ∃ rep' an' w' ms,
    drain_groups (PSchema p) (DefaultTable p) label prow cols gs rep an w = (Ret (rep', an', None), w') ∧
    after_groups gs rep rep' an an' ms (db w) (db w').
Proof.
  revert rep an w rows. induction gs as [|[k ctids] gs IH]; intros rep an w rows Hr Hk; cbn [drain_groups].
  { exists rep, an, w, []. split; [done|]. unfold after_groups. cbn. split_and!; [|lia|done..| |].
    - apply drained_by_refl.
    - auto.
    - by intros k ctids ?%not_elem_of_nil. }
  rewrite Hpid. destruct (find_active_quiet k w) as (o & w1 & Hf & Hd1 & Ho).
  destruct Ho as [(row & -> & Ht)|[-> Hmiss]].
  - rewrite (bind_Ret _ _ _ _ _ (attempt_Ret _ _ _ _ Hf)). rewrite <- Hd1 in Hr, Ht.
    destruct (move_quiet w1 k ctids row rows Hr) as (n & w2 & ms & Hdo & Hms & -> & Hgone); [|done|].
    { rewrite Hd1. apply Hk. by left. }
    rewrite (bind_Ret _ _ _ _ _ (attempt_Ret _ _ _ _ Hdo)), bind_emit. set (w3 := mkWorld _ _ _).
    destruct (ready_drained _ _ _ _ Hr Hms) as (rows' & Hr' & _).
    destruct (IH (add_moved (Z.of_nat (length ms)) rep) an w3 rows') as (rep' & an' & w' & ms' & Hrun & HA').
    { exact Hr'. }
    { intros k' ctids' Hin. eapply keyed_drains; [by eapply drains_by, Hms|]. rewrite Hd1. apply Hk. by right. }
    exists rep', an', w'. rewrite Hd1 in Hms. destruct HA' as (H1 & H2 & H3 & H4 & H5 & H6).
    assert (∃ ms'', drained_by ms'' (db w) (db w') ∧ length ms'' = (length ms + length ms')%nat) as (ms'' & Hms'' & Hlen).
    { exists (ms ++ ms')%list. split; [by eapply drained_by_trans|by rewrite length_app]. }
    exists ms''. split; [exact Hrun|]. assert (meta (db w3) = meta (db w)) as Hm by apply Hms.
    unfold after_groups. split_and!; [done| | |done| |].
    + rewrite H2, Hlen. cbn. lia.
    + done.
    + intros k' [?|[Hin ?]]%H5; [by left|right]. rewrite Hm in *. split; [by right|done].
    + intros k' ctids' [[= -> ->]|Hin]%elem_of_cons; [|by apply H6].
      right. intros rs r Hv Hin. assert (drains (db w3) (db w')) as Hd by by eapply drains_by.
      destruct (drains_source table p cols pid interval _ _ rows' Hd (ready_view _ _ Hr')) as (rs' & Hv' & Hsub).
      rewrite Hv in Hv'. injection Hv' as <-. apply (Hgone rows'); [apply Hr'|by apply Hsub].
  - rewrite (bind_Ret _ _ _ _ _ (attempt_Fail _ _ _ _ Hf)). change (Is NoRows NoRows) with true. cbn iota.
    rewrite <- Hd1 in Hr.
    destruct (IH rep (record k (Z.of_nat (length ctids)) an) w1 rows) as (rep' & an' & w' & ms & Hrun & HA').
    { exact Hr. }
    { intros k' ctids' Hin. rewrite Hd1. apply Hk. by right. }
    exists rep', an', w', ms. split; [exact Hrun|]. rewrite Hd1 in HA'.
    destruct HA' as (H1 & H2 & H3 & H4 & H5 & H6). unfold after_groups. split_and!; [done..| | |].
    + intros k' Hk'. apply H4, record_keys. by right.
    + intros k' [[->|?]%record_keys|[? ?]]%H5; [right; split; [by left|done]|by left|right; split; [by right|done]].
    + intros k' ctids' [[= -> ->]|Hin]%elem_of_cons; [|by apply H6]. left. apply H4, record_keys. by left.
Qed.

Context (o : Options.t) (Hcontrol : Parent.PartitionBy prow = ControlCol p).
Context (Htenant : Options.Tenant o = PTenant p) (Hsize : Options.BatchSize o = PBatchSize p).
Context (Hpos : 0 < PBatchSize p) (Hmax : Options.MaxBatches o = 0).

(** The recorded keys: groups of rows, without a partition. *)
Definition recorded (an : anomalyTracker) (m : Meta) : Prop :=
  ∀ k, k ∈ tracker_keys an → missing m k ∧ ∃ r, regular p r ∧ group_of p interval r = Some k.

Definition query_at (an : anomalyTracker) : readParams := with_keys (tracker_keys an) p.
(** The rows the next batch is read from. *)
Definition pending (an : anomalyTracker) (rows : list heap_row) : list heap_row :=
  filter (holds (read_args (query_at an)) (sel_where (read_select (query_at an)))) rows.

(** The groups of a batch: what they are made of, and that they cover it. *)
Lemma batch_groups l brs gs :
  Forall2 (λ r b, to_batch p r = Some b) l brs → groupByBounds brs interval = Ok gs →
  (∀ r, r ∈ l → ∃ k ctids, group_of p interval r = Some k ∧ (k, ctids) ∈ gs ∧ ctid r ∈ ctids) ∧
  (∀ k, k ∈ gs.*1 → ∃ r, r ∈ l ∧ group_of p interval r = Some k).
Proof.
  intros HF (_ & Hcover & Hg)%groupByBounds_spec. split.
  - intros r [i Hi]%list_elem_of_lookup. destruct (Forall2_lookup_l _ _ _ _ _ HF Hi) as (b & Hib & Hb).
    destruct (Hcover b) as (k & Hk & Hin); [by eapply list_elem_of_lookup_2|].
    apply list_elem_of_fmap in Hin as ([k' ctids] & -> & Hin). exists k', ctids.
    split; [unfold group_of; by rewrite Hb|]. split; [done|]. destruct (Hg _ _ Hin) as [-> _].
    apply list_elem_of_fmap. exists b. split; [symmetry; by apply (to_batch_ctid p)|].
    apply list_elem_of_filter. split; [done|by eapply list_elem_of_lookup_2].
  - intros k ([k' ctids] & -> & Hin)%list_elem_of_fmap. destruct (Hg _ _ Hin) as [-> Hne]. cbn.
    destruct (filter _ brs) as [|b bs] eqn:Hf; [done|].
    assert (b ∈ filter (λ r, key_of interval r = Some k') brs) as [Hk Hb]%list_elem_of_filter by (rewrite Hf; by left).
    apply list_elem_of_lookup in Hb as [i Hi]. destruct (Forall2_lookup_r _ _ _ _ _ HF Hi) as (r & Hir & Hr).
    exists r. split; [by eapply list_elem_of_lookup_2|]. unfold group_of. by rewrite Hr.
Qed.

(** A round makes progress. *)
Lemma round_decreases an an' d d' rows rows' (gs gs' : groups) rep rep' ms r :
  after_groups gs' rep rep' an an' ms d d' → ready d rows → ready d' rows' → rows ≡ₚ rows' ++ (t_old <$> ms) →
  (∀ x, x ∈ gs' ↔ x ∈ gs) → r ∈ rows → wanted (query_at an) r →
  (∃ k ctids, group_of p interval r = Some k ∧ (k, ctids) ∈ gs ∧ ctid r ∈ ctids) →
  (length (pending an' rows') < length (pending an rows))%nat.
Proof.
  intros (_ & _ & _ & Hmono & _ & Hdone) Hr Hr' Hperm Hgs Hin Hw (k & ctids & Hk & Hg & Hc).
  pose proof (NoDup_fmap_1 _ _ (heap_ctids _ _ (ready_view _ _ Hr))) as Hnd.
  assert (∀ x, x ∈ rows' → x ∈ rows) as Hsub by (intros x Hx; rewrite Hperm; apply elem_of_app; by left).
  unfold pending. apply (filter_decreases _ _ _ _ r); [done| |done| |done| |].
  - rewrite Hperm in Hnd. by apply NoDup_app in Hnd as [? _].
  - intros x Hx HQ. assert (typed p x) as Hty by (by eapply heap_typed; [apply Hr'|]).
    apply read_selects in HQ as [Hc1 Ht1 Hk1]; [|by apply typed_with_keys].
    apply read_selects; [by apply typed_with_keys|]. split; [done..|].
    intros k' Hk'. apply (Hk1 k'). by apply Hmono.
  - apply read_selects; [apply typed_with_keys; by eapply heap_typed; [apply Hr|]|done].
  - intros Hin' HQ. apply Hgs, Hdone in Hg as [Hrec|Hgone].
    + apply read_selects in HQ as [_ _ HQ]; [|apply typed_with_keys; by eapply heap_typed; [apply Hr'|]].
      apply (HQ k Hrec). apply (covered_of_group p interval); [apply (ready_regular _ _ Hr r Hin); exact (wanted_tenant _ _ Hw)|exact Hk].
    + eapply Hgone; [apply Hr'|done..].
Qed.

Lemma drain_batches_quiet fuel idx rep an w rows :
  ready (db w) rows → recorded an (meta (db w)) → (length (pending an rows) < fuel)%nat →
  ∃ rep' an' w' ms rows',
    drain_batches (PSchema p) (DefaultTable p) label (TenantCol p) prow cols interval o fuel idx rep an w =
      (Ret (Some (rep', an', None)), w') ∧
    drained_by ms (db w) (db w') ∧ RowsMoved rep' = RowsMoved rep + Z.of_nat (length ms) ∧
    Anomalies rep' = Anomalies rep ∧ recorded an' (meta (db w)) ∧
    ready (db w') rows' ∧ rows ≡ₚ rows' ++ (t_old <$> ms) ∧
    ∀ r, r ∈ rows' → ¬ wanted (query_at an') r.
Proof.
  revert idx rep an w rows. induction fuel as [|fuel IH]; intros idx rep an w rows Hr Han Hf; [lia|].
  cbn [drain_batches]. rewrite Hmax. cbn [Z.eqb orb negb].
  rewrite (read_params_eq p prow o Hcontrol Htenant Hsize an).
  fold (tenanted p) (query_at an). unfold ctx_Err. rewrite bind_env, Hctx. set (w1 := mkWorld _ _ _).
  assert (db w1 = db w) as Hd1 by done.
  destruct (accepts_select (tracker_keys an) (catalog (db w)) rows (ready_view _ _ Hr)) as [out Hq].
  pose proof (heap_select (tracker_keys an) _ _ _ (ready_view _ _ Hr) Hq) as Hsel.
  destruct (read_batch_rows (query_at an) rows out) as (l & brs & Hs & HF & Hl & Hnil); [|done|done|].
  { intros r Hin. apply typed_with_keys. by eapply heap_typed; [apply Hr|]. }
  assert (readBatch (buildReadBatch (query_at an)) (tenanted p) w1 =
          (Ret brs, mkWorld (db w) (S (tick w1)) (trace w1))) as Hread.
  { unfold readBatch. rewrite buildReadBatch_render. cbn [fst snd].
    rewrite (bind_Ret _ _ _ _ _ (quiet_QueryRows _ _ w1 out Hq)).
    change (tenanted p) with (tenanted (query_at an)). by rewrite Hs. }
  rewrite (bind_Ret _ _ _ _ _ (attempt_Ret _ _ _ _ Hread)).
  destruct HF as [|r b l brs Hrb HF].
  { exists rep, an. eexists _, [], rows. split_and!; [reflexivity|apply drained_by_refl|cbn; lia|done|done|done| |].
    - cbn. by rewrite app_nil_r.
    - intros r Hin. by apply Hnil. }
  set (w2 := mkWorld _ _ _). rewrite bind_emit. set (w3 := mkWorld _ _ _).
  destruct (groupByBounds_Ok (b :: brs) interval plabel Hinterval) as [gs Hg]. rewrite Hg.
  unfold range. rewrite bind_env. set (gs' := env_scan _ _ gs). set (w4 := mkWorld _ _ _).
  assert (∀ x, x ∈ gs' ↔ x ∈ gs) as Hgs by (intros x; unfold gs'; by rewrite env_scan_perm).
  pose proof (batch_groups (r :: l) (b :: brs) gs ltac:(by constructor) Hg) as [Hcov Hmade].
  destruct (drain_groups_quiet gs' (add_batch rep) an w4 rows) as (rep1 & an1 & w5 & ms & Hrun & Haft).
  { exact Hr. }
  { intros k ctids Hin%Hgs. eapply (batch_groups_keyed table p cols interval Hpos (tracker_keys an) (db w) out);
      [by rewrite buildReadBatch_render|exact Hs|exact Hg|exact Hin]. }
  rewrite (bind_Ret _ _ _ _ _ Hrun). pose proof Haft as (Hms & Hmoved & Hanom & Hmono & Hnew & _).
  destruct (ready_drained _ _ _ _ Hr Hms) as (rows1 & Hr1 & Hperm). destruct (Hl r ltac:(by left)) as [Hrin Hrw].
  destruct (IH (idx + 1) rep1 an1 w5 rows1 Hr1) as (rep2 & an2 & w6 & ms2 & rows2 & Hrun2 & Hms2 & Hmoved2 & Hanom2 & Hrec2 & Hr2 & Hperm2 & Hend).
  { assert (meta (db w5) = meta (db w)) as -> by apply Hms. intros k [?|[Hin Hmiss]]%Hnew; [by apply Han|].
    split; [done|]. destruct (Hmade k) as (r' & Hr' & Hk').
    - apply list_elem_of_fmap in Hin as (x & -> & Hx%Hgs). by apply list_elem_of_fmap_2.
    - exists r'. split; [|done]. destruct (Hl r') as [? Hw]; [done|]. apply (ready_regular _ _ Hr); [done|]. exact (wanted_tenant _ _ Hw). }
  { eapply Nat.lt_le_trans; [|by apply Nat.lt_succ_r]. eapply round_decreases; [exact Haft|exact Hr|exact Hr1|done|done|done|done|].
    apply Hcov. by left. }
  exists rep2, an2, w6, (ms ++ ms2)%list, rows2. split_and!; [exact Hrun2|by eapply drained_by_trans| |by rewrite Hanom2, Hanom| |done| |done].
  - rewrite Hmoved2, Hmoved, length_app. cbn. lia.
  - by assert (meta (db w5) = meta (db w)) as <- by apply Hms.
  - rewrite Hperm, Hperm2, fmap_app, <- app_assoc. f_equiv. apply Permutation_app_comm.
Qed.
End loop.
End total.

(** ** The null summary *)

Definition tenant_name (p : readParams) (r : heap_row) : string :=
  if tenanted p then match col r (TenantCol p) with VText s => s | _ => "" end else "".
Definition of_value (v : value) : string := match v with VText s => s | _ => "" end.

Lemma add_anomalies_app l l' r : add_anomalies l' (add_anomalies l r) = add_anomalies (l ++ l') r.
Proof. unfold add_anomalies. cbn. by rewrite app_assoc. Qed.

Lemma null_anomalies_groups tenantCol (f : value → Z) keys r :
  tenantCol ≠ "" → (∀ v, v ∈ keys → 0 < f v ∧ (v = VNull ∨ ∃ s, v = VText s)) →
  null_anomalies tenantCol ((λ v, [v; VInt (f v)]) <$> keys) r =
  (add_anomalies ((λ v, mkAnomaly zero_Bounds (of_value v) (f v)) <$> keys) r, None).
Proof.
  intros Ht. revert r. induction keys as [|v keys IH]; intros r Hk.
  { unfold add_anomalies. cbn. rewrite app_nil_r. by destruct r. }
  destruct (Hk v ltac:(by left)) as [Hf Hv]. cbn [fmap list_fmap null_anomalies].
  rewrite (bool_decide_false (tenantCol = "")) by done. assert (f v =? 0 = false) as Hz by lia.
  destruct Hv as [-> |[s ->]]; rewrite Hz, IH, add_anomalies_app by (intros; apply Hk; by right); done.
Qed.

(** The null rows of the tenant of [r]. *)
Definition null_peers (p : readParams) (rows : list heap_row) (r : heap_row) : list heap_row :=
  filter (λ x, holds (tenant_args p) (cnt_where (null_count p)) x ∧
               bool_decide (tenanted p = true → col x (TenantCol p) = col r (TenantCol p)) = true) rows.

Lemma null_anomalies_counted p rows out r :
  (∀ x, x ∈ rows → typed p x) → counted (null_count p) (tenant_args p) rows out →
  ∃ l, null_anomalies (TenantCol p) out r = (add_anomalies l r, None) ∧
    ∀ x, x ∈ rows → null_row p x →
      mkAnomaly zero_Bounds (tenant_name p x) (Z.of_nat (length (null_peers p rows x))) ∈ l.
Proof.
  intros Hty. unfold counted, null_count, tenant_name, null_peers. cbn [cnt_group cnt_where].
  set (P := holds (tenant_args p) _).
  assert (∀ x, x ∈ rows → null_row p x → x ∈ filter P rows) as Hin.
  { intros x Hx Hn. apply list_elem_of_filter. split; [|done]. apply null_selects; auto. }
  destruct (tenanted p) eqn:Htp.
  - unfold tenanted in Htp. apply negb_true_iff, bool_decide_eq_false in Htp.
    intros (keys & _ & Hkeys & ->). rewrite null_anomalies_groups; [|done|].
    + eexists. split; [reflexivity|]. intros x Hx Hn. apply list_elem_of_fmap.
      exists (col x (TenantCol p)). split; [|apply Hkeys; exists x; split; [by apply Hin|done]].
      unfold of_value. do 3 f_equal. rewrite list_filter_filter. apply list_filter_iff. intros y.
      rewrite bool_decide_eq_true. naive_solver.
    + intros v (x & Hx & <-)%Hkeys. split.
      * match goal with |- 0 < Z.of_nat (length ?l) => assert (x ∈ l) as Hx' by (by apply list_elem_of_filter); destruct l end.
        { by apply not_elem_of_nil in Hx'. } cbn; lia.
      * apply list_elem_of_filter in Hx as [_ Hx]. apply (typed_tenant _ _ (Hty _ Hx)).
        unfold tenanted. by rewrite bool_decide_false.
  - unfold tenanted in Htp. apply negb_false_iff in Htp. intros ->. cbn [null_anomalies]. rewrite Htp.
    destruct (Z.of_nat (length (filter P rows)) =? 0) eqn:Hz.
    + exists []. unfold add_anomalies. rewrite app_nil_r. split; [by destruct r|]. intros x Hx Hn.
      apply Hin in Hn; [|done]. destruct (filter P rows); [by apply not_elem_of_nil in Hn|by cbn in Hz].
    + eexists. split; [reflexivity|]. intros x Hx Hn. apply list_elem_of_singleton. do 3 f_equal.
      apply list_filter_iff. intros y. rewrite bool_decide_eq_true. naive_solver.
Qed.

(** ** The call *)

(** The bounds an anomaly shows for [r]: none for a null control column. *)
Definition row_bounds (p : readParams) (interval : Z) (r : heap_row) : Bounds :=
  match group_of p interval r with Some k => KBounds k | None => zero_Bounds end.

Lemma group_of_typed p interval label r :
  intervalFromLabel label = Ok interval → typed p r → col r (ControlCol p) ≠ VNull →
  ∃ k, group_of p interval r = Some k.
Proof.
  intros Hi Ht Hn. destruct (to_batch_typed p r Ht Hn) as [b Hb].
  destruct (BoundsFor_label _ _ (Control b) Hi) as [bs Hbs]. exists (row_key b bs).
  unfold group_of, key_of. rewrite Hb. cbn. by rewrite Hbs.
Qed.
Lemma group_of_tenant p interval r k : group_of p interval r = Some k → tenant_name p r = KTenant k.
Proof.
  intros (t & _ & _ & Hk)%group_of_inv. unfold tenant_name.
  destruct (tenanted p); [|by destruct Hk as [-> _]]. by destruct Hk as [[-> _]|(-> & -> & _)].
Qed.
Lemma tracker_list_elem an k :
  k ∈ tracker_keys an → ∃ n, mkAnomaly (KBounds k) (KTenant k) n ∈ tracker_list an.
Proof.
  intros ([k' n] & -> & Hin)%list_elem_of_fmap. exists n. apply list_elem_of_fmap. by exists (k', n).
Qed.

Section partition_total.
Context {C : Type} {E : Env C} {HE : EnvLaws E} {QE : Quiet E}.
Context (Hctx : ∀ n, env_ctx n = None).
Context (ref : ParentRef.t) (prow : Parent.row) (opts : Options.t) (cols : list string) (interval : Z).
Let p := drain_params ref prow opts.
Context {HH : Heap E (ParentRef.TableName ref) p cols} {HA : HeapAccepts E (ParentRef.TableName ref) p cols}.
Context (Hinterval : intervalFromLabel (Parent.PartitionInterval prow) = Ok interval).
Context (Hmax : Options.MaxBatches opts <= 0).

Notation drained_by := (drained_by (ParentRef.TableName ref) p cols (Parent.ID prow) interval).
Notation destined := (destined p (Parent.ID prow) interval).
Notation ready := (ready (ParentRef.TableName ref) p cols (Parent.ID prow) interval).
Notation label := (ParentRef.SchemaName ref +:+ "." +:+ ParentRef.TableName ref).

(** The outcome of a drain that ran to its end. *)
Definition complete (d d' : DB C) (report : Report) : Prop :=
  ∃ ms rows', drained_by ms d d' ∧ RowsMoved report = Z.of_nat (length ms) ∧
    view (catalog d') (source p) = Some rows' ∧
    ∀ r, r ∈ rows' → in_scope p r →
      (∀ rel, ¬ destined (meta d) r rel) ∧
      ∃ n, mkAnomaly (row_bounds p interval r) (tenant_name p r) n ∈ Anomalies report.

(** What the last, empty batch says about the rows that are left. *)
Lemma leftover m an r rows d :
  view (catalog d) (source p) = Some rows → r ∈ rows → regular p r → in_scope p r →
  col r (ControlCol p) ≠ VNull → recorded p (Parent.ID prow) interval an m →
  ¬ wanted (query_at p an) r →
  (∀ rel, ¬ destined m r rel) ∧
  ∃ n, mkAnomaly (row_bounds p interval r) (tenant_name p r) n ∈ tracker_list an.
Proof.
  intros Hv Hin Hn Hs Hc Hrec Hw. assert (typed p r) as Ht by (by eapply heap_typed).
  destruct (group_of_typed p interval _ r Hinterval Ht Hc) as [k Hk].
  destruct (decide (k ∈ tracker_keys an)) as [Hka|Hka].
  - destruct (Hrec _ Hka) as [Hmiss _]. split.
    + intros rel (k' & row & Hk' & Hrow & _). rewrite Hk in Hk'. injection Hk' as <-. by eapply Hmiss.
    + unfold row_bounds. rewrite Hk, (group_of_tenant _ _ _ _ Hk). by apply tracker_list_elem.
  - exfalso. apply Hw. split; [done|done|]. intros k' Hk' Hcov. change (k' ∈ tracker_keys an) in Hk'.
    destruct (Hrec _ Hk') as (_ & r0 & Hn0 & Hr0). apply Hka.
    assert (group_of p interval r = Some k') as Hg
      by (eapply (group_of_covered p interval r r0); [done..|exact Hr0|exact Hcov]).
    congruence.
Qed.

Lemma drain_quiet fuel w rows :
  ready (db w) rows → (length rows < fuel)%nat →
  ∃ report w',
    drain (ParentRef.SchemaName ref) (ParentRef.TableName ref +:+ "_default") label
      (default "" (Parent.TenantColumn prow)) prow cols interval (resolved opts) fuel w =
      (Ret (Some (report, None)), w') ∧
    complete (db w) (db w') report.
Proof.
  intros Hr Hf. assert (Options.MaxBatches (resolved opts) = 0) as Hm0 by (unfold resolved; cbn; case_match; lia).
  destruct (drain_batches_quiet Hctx (ParentRef.TableName ref) p cols (Parent.ID prow) interval _ Hinterval
    label prow eq_refl (resolved opts) eq_refl eq_refl eq_refl (drain_params_size ref prow opts) Hm0
    fuel 0 empty_drain [] w rows Hr) as (rep & an & w1 & ms & rows' & Hrun & Hms & Hmoved & Hanom & Hrec & Hr' & Hperm & Hend).
  { by intros k ?%not_elem_of_nil. }
  { eapply Nat.le_lt_trans; [apply length_filter|done]. }
  unfold drain. rewrite (bind_Ret _ _ _ _ _ Hrun).
  destruct (accepts_count (catalog (db w1)) rows' (ready_view _ _ _ _ _ _ _ Hr')) as [out Hq].
  pose proof (heap_count _ _ _ (ready_view _ _ _ _ _ _ _ Hr') Hq) as Hcnt.
  destruct (null_anomalies_counted p rows' out rep) as (l & Hl & Hnull); [|done|].
  { intros x Hx. by eapply heap_typed; [apply Hr'|]. }
  set (w2 := mkWorld (db w1) (S (tick w1)) (trace w1)).
  assert (appendNullAnomalies (ParentRef.SchemaName ref) (ParentRef.TableName ref +:+ "_default")
    (Parent.PartitionBy prow) (default "" (Parent.TenantColumn prow)) (Options.Tenant (resolved opts)) rep w1 =
    (Ret (add_anomalies l rep, None), w2)) as Happ.
  { unfold appendNullAnomalies. pose proof (buildNullSummary_render p) as Hb. cbn in Hb. cbn [resolved Options.Tenant].
    rewrite Hb. rewrite (bind_Ret _ _ _ _ _ (attempt_Ret _ _ _ _ (quiet_QueryRows _ _ w1 out Hq))). cbn in Hl. by rewrite Hl. }
  rewrite (bind_Ret _ _ _ _ _ Happ). set (report := add_anomalies _ (add_anomalies _ _)).
  assert (complete (db w) (db w1) report) as Hcomplete.
  { exists ms, rows'. split; [done|]. split; [exact Hmoved|]. split; [apply Hr'|]. intros r Hin Hs.
    destruct (decide (col r (ControlCol p) = VNull)) as [Hc|Hc].
    - split; [intros rel (k & row & (t & Hc' & _)%group_of_inv & _); by rewrite Hc in Hc'|].
      exists (Z.of_nat (length (null_peers p rows' r))). unfold report. cbn. rewrite Hanom. cbn.
      apply elem_of_app. left. unfold row_bounds, group_of, to_batch. rewrite Hc. cbn. by apply Hnull.
    - destruct (leftover (meta (db w)) an r rows' (db w1)) as [Hd [n Hn]]; [apply Hr'|done| |done..|by apply Hend|].
      { by apply (ready_regular _ _ _ _ _ _ _ Hr'). }
      split; [done|]. exists n. unfold report. cbn. apply elem_of_app. by right. }
  destruct (0 <? _); [rewrite bind_emit|rewrite (bind_Ret _ _ _ tt w2) by done];
    rewrite bind_Now; eexists report, _; (split; [reflexivity|]); exact Hcomplete.
Qed.

Lemma scan_text_Ok l : scan_rows scan_text ((λ x, [VText x]) <$> l) = Ok l.
Proof. induction l as [|x l IH]; [done|]. cbn in *. by rewrite IH. Qed.

Lemma partition_locked_quiet fuel w rows :
  get_parent (ParentRef.SchemaName ref, ParentRef.TableName ref) (meta (db w)) = Ok prow → cols ≠ [] →
  ready (db w) rows → (length rows < fuel)%nat →
  ∃ report w',
    partition_locked fuel ref (resolved opts) w = (Ret (Some (report, None)), w') ∧
    complete (db w) (db w') report.
Proof.
  intros Hp Hcols Hr Hf. unfold partition_locked. cbv zeta.
  set (w1 := mkWorld (db w) (S (tick w)) (trace w)). set (w2 := mkWorld (db w) (S (tick w1)) (trace w)).
  set (w3 := mkWorld (db w) (S (tick w2)) (trace w)).
  rewrite (bind_Ret _ _ _ (Ok prow) w1); [|apply attempt_Ret; unfold GetParentTable; by rewrite quiet_meta_read, Hp].
  rewrite Hinterval. destruct (accepts_columns (catalog (db w))) as [crows Hq].
  rewrite (bind_Ret _ _ _ (Ok cols) w2).
  2:{ apply attempt_Ret. unfold lookupInsertColumns.
      rewrite (bind_Ret _ _ _ _ _ (quiet_QueryRows _ _ w1 crows Hq)).
      rewrite (heap_columns _ _ Hq), scan_text_Ok. done. }
  rewrite bool_decide_false by done.
  destruct (accepts_default _ _ (ready_view _ _ _ _ _ _ _ Hr)) as (row & out & Hd).
  rewrite (bind_Ret _ _ _ (Ok tt) w3).
  2:{ apply attempt_Ret. unfold assertDefaultExists, QueryRow. rewrite (bind_Ret _ _ _ (Ok row) w3); [done|].
      apply attempt_Ret. by rewrite (bind_Ret _ _ _ _ _ (quiet_QueryRows _ _ w2 (row :: out) Hd)). }
  by apply (drain_quiet fuel w3 rows).
Qed.

Lemma call_quiet s sql args w :
  sql = try_lock_sql ∨ sql = unlock_sql →
  ∃ o w', attempt (Call s sql args) w = (Ret o, w') ∧ drained_by [] (db w) (db w').
Proof.
  intros Hsql. unfold Call, attempt. rewrite quiet_statement.
  destruct (pg_call s sql args (catalog (db w))) as [[row c']|e] eqn:Hc; cbn; (eexists _, _; split; [reflexivity|]).
  - destruct (heap_call _ _ _ _ _ _ Hsql Hc) as [Hv Ha]. by apply drained_by_same_views.
  - apply drained_by_refl.
Qed.
Lemma unlock_quiet conn schema table w :
  ∃ w', (attempt (Unlock conn schema table) ;; mret tt) w = (Ret tt, w') ∧ drained_by [] (db w) (db w').
Proof.
  unfold Unlock. destruct (call_quiet conn unlock_sql [VText schema; VText table] w) as (o & w' & Hc & Hd); [by right|].
  exists w'. split; [|done]. apply attempt_inv in Hc as (o1 & Hc & Ho).
  unfold attempt, wrapping, mbind, M_bind. rewrite Hc. destruct o1 as [row|e|]; [|done|done].
  unfold lift. destruct (scan_bool row) as [[]|]; done.
Qed.
Lemma complete_extend d0 d d' d'' report :
  drained_by [] d0 d → complete d d' report → drained_by [] d' d'' → complete d0 d'' report.
Proof.
  intros H0 (ms & rows' & Hms & Hmv & Hv & Hrest) Hd. pose proof Hd as (_ & _ & Hs & _).
  rewrite Hv in Hs. destruct Hs as (rows'' & Hv' & Hperm). cbn in Hperm. rewrite app_nil_r in Hperm.
  exists ms, rows''. split_and!; [|done|done|].
  - rewrite <- (app_nil_r ms). eapply drained_by_trans; [|exact Hd].
    change ms with ([] ++ ms)%list. by eapply drained_by_trans.
  - intros r Hr Hs. assert (meta d0 = meta d) as -> by (symmetry; apply H0). apply Hrest; [by rewrite Hperm|done].
Qed.

(** C28: the drain ends and leaves nothing behind.  When no statement fails, the
    lock is free and no row of the drain's scope has the empty string as its
    tenant or an infinite control value, a drain without a limit on its batches
    returns: as many rounds as there are rows
    in the default partition, and one more, are enough.  Every row that left
    is in its partition, their number is [RowsMoved]; every row of the drain's
    scope that is still in the default partition has no partition, and an
    anomaly of the report names its bounds (none for a null) and tenant. *)
Theorem PartitionData_total fuel w rows :
  get_parent (ParentRef.SchemaName ref, ParentRef.TableName ref) (meta (db w)) = Ok prow → cols ≠ [] →
  (∀ s, ∃ c', pg_call s try_lock_sql [VText (ParentRef.SchemaName ref); VText (ParentRef.TableName ref)]
                (catalog (db w)) = Ok ([VBool true], c')) →
  ready (db w) rows → (length rows < fuel)%nat →
  ∃ report w', PartitionData fuel ref opts w = (Ret (Some (report, None)), w') ∧
    complete (db w) (db w') report.
Proof.
  intros Hp Hcols Hlock Hr Hf. unfold PartitionData. cbv zeta. rewrite bind_Now. set (w1 := mkWorld _ _ _).
  set (w2 := mkWorld (db w) (S (tick w1)) (trace w)). set (conn := env_session (tick w1)).
  destruct (Hlock conn) as [c' Hc]. set (w3 := mkWorld (mkDB (meta (db w)) c') (S (tick w2)) (trace w)).
  destruct (heap_call _ _ _ _ _ _ (or_introl eq_refl) Hc) as [Hv Ha].
  assert (drained_by [] (db w) (db w3)) as Hd3 by by apply drained_by_same_views.
  destruct (ready_drained _ _ _ _ _ _ _ _ _ Hr Hd3) as (rows3 & Hr3 & Hperm). cbn in Hperm. rewrite app_nil_r in Hperm.
  destruct (partition_locked_quiet fuel w3 rows3) as (report & w4 & Hrun & Hcomplete); [done..|by rewrite <- Hperm|].
  destruct (unlock_quiet conn (ParentRef.SchemaName ref) (ParentRef.TableName ref) w4) as (w5 & Hun & Hd5).
  assert (Acquire w1 = (Ret conn, w2)) as Hacq by (unfold Acquire; run_unfold; by rewrite quiet).
  assert (TryLock conn (ParentRef.SchemaName ref) (ParentRef.TableName ref) w2 = (Ret true, w3)) as Htry.
  { unfold TryLock. apply wrapping_Ret. unfold Call. rewrite (bind_Ret _ _ _ [VBool true] w3); [done|].
    rewrite quiet_statement. cbn [db catalog w2]. by rewrite Hc. }
  eexists report, _. split.
  - eapply deferring_Ret.
    + rewrite (bind_Ret _ _ _ _ _ (attempt_Ret _ _ _ _ Hacq)), (bind_Ret _ _ _ _ _ (attempt_Ret _ _ _ _ Htry)).
      eapply deferring_Ret; [exact Hrun|exact Hun].
    + rewrite bind_Now. reflexivity.
  - cbn [db]. by eapply complete_extend.
Qed.
End partition_total.
