(* ===== verification/DrainScenario.v ===== *)
(** * A drain at work

    A concrete heap that has the laws of [Query], and the drain run on it: the
    hypotheses of [Draining] and [DrainTotal] can be met, and what the code
    does at its corners can be computed. *)

From S2P Require Import Prelude GoTime GoStrings Errs TimeFormat Naming Periods Store World Logic Repo Scenario Retry Provisioner Ensure AdvisoryLock Drain Query Draining DrainTotal.
Local Open Scope string_scope.
Local Open Scope Z_scope.

(** ** The heap *)

(** The parent [app.events], with the tenant column [org]. *)
Definition tenanted_events : Parent.row := events (Some "org") "daily" thirty_days 2.
Definition event_columns : list string := ["id"; "org"; "created_at"].
(** Batches of two rows. *)
Definition by_two : Options.t := Options.mk None 2 0.
Definition events_params (opts : Options.t) : readParams := drain_params app_events tenanted_events opts.

Definition tables : Type := list ((string * string) * list heap_row).
Fixpoint rows_of (rel : string * string) (c : tables) : option (list heap_row) :=
  match c with
  | [] => None
  | (rel', rows) :: c => if bool_decide (rel' = rel) then Some rows else rows_of rel c
  end.
Fixpoint set_rows (rel : string * string) (rows : list heap_row) (c : tables) : tables :=
  match c with
  | [] => []
  | (rel', rows') :: c => if bool_decide (rel' = rel) then (rel', rows) :: c else (rel', rows') :: set_rows rel rows c
  end.

Lemma rows_of_set rel rows c rows0 :
  rows_of rel c = Some rows0 → rows_of rel (set_rows rel rows c) = Some rows.
Proof.
  induction c as [|[rel' rows'] c IH]; [done|]. cbn. destruct (bool_decide (rel' = rel)) eqn:Hb; cbn; rewrite Hb; auto.
Qed.
Lemma rows_of_set_ne rel rel2 rows c : rel2 ≠ rel → rows_of rel2 (set_rows rel rows c) = rows_of rel2 c.
Proof.
  intros Hne. induction c as [|[rel' rows'] c IH]; [done|]. cbn.
  destruct (bool_decide (rel' = rel)) eqn:Hb; cbn; [|by rewrite IH].
  apply bool_decide_eq_true in Hb as ->. by rewrite bool_decide_false.
Qed.

Section heap.
Context (opts : Options.t).
Let p := events_params opts.

Definition typed_b (r : heap_row) : bool :=
  (match col r "created_at" with VNull | VTime _ | VInfinity _ => true | _ => false end) &&
  (match col r "org" with VNull | VText _ => true | _ => false end).
Definition valid (rows : list heap_row) : bool :=
  bool_decide (NoDup (ctid <$> rows)) && forallb typed_b rows.
Definition view_of (c : tables) (rel : string * string) : option (list heap_row) :=
  match rows_of rel c with
  | Some rows => if bool_decide (rel = source p) && negb (valid rows) then None else Some rows
  | None => None
  end.

Definition sort_key (r : heap_row) : Z * Z :=
  match col r "created_at" with VTime t => (0, unix_ns t) | VInfinity b => (sign b, 0) | _ => (0, 0) end.
Definition key_le (a b : heap_row) : Prop :=
  (sort_key a).1 < (sort_key b).1 ∨ (sort_key a).1 = (sort_key b).1 ∧ (sort_key a).2 <= (sort_key b).2.
#[export] Instance key_le_dec : RelDecision key_le.
Proof. unfold key_le. intros a b. apply _. Defined.
Definition run_select (q : select) (args : list value) (rows : list heap_row) : list (list value) :=
  let limit := match parameter args (sel_limit q) with VInt n => Z.to_nat n | _ => O end in
  (λ r, VTid (ctid r) :: (col r <$> sel_cols q)) <$>
    take limit (merge_sort key_le (filter (holds args (sel_where q)) rows)).
Definition run_count (q : count) (args : list value) (rows : list heap_row) : list (list value) :=
  let l := filter (holds args (cnt_where q)) rows in
  match cnt_group q with
  | None => [[VInt (Z.of_nat (length l))]]
  | Some g => (λ v, [v; VInt (Z.of_nat (length (filter (λ r, col r g = v) l)))]) <$>
                remove_dups ((λ r, col r g) <$> l)
  end.

(** The keys of the query do not matter, only their number. *)
Definition some_key : groupKey := mkGroupKey zero_Bounds "" false.
Definition query_of (args : list value) : readParams :=
  with_keys (repeat some_key (Nat.div (pred (length args)) 3)) p.

Definition heap_query {E : Env tables} (sql : string) (args : list value) (c : tables)
    : res (list (list value)) :=
  if bool_decide (sql = insertColumnsSQL) then Ok ((λ x, [VText x]) <$> event_columns)
  else match view_of c (source p) with
       | None => Err (PgError "42P01")
       | Some rows =>
           if bool_decide (sql = default_query) then Ok [[VInt 1]]
           else if bool_decide (sql = render_count (null_count p)) then Ok (run_count (null_count p) args rows)
           else
             let q := query_of args in
             if bool_decide (sql = render_select (read_select q)) then Ok (run_select (read_select q) args rows)
             else Err (PgError "42601")
       end.

Definition qualified (rel : string * string) : string := rel.1 +:+ "." +:+ rel.2.
Definition heap_exec {E : Env tables} (sql : string) (args : list value) (c : tables) : res (Z * tables) :=
  match view_of c (source p), args with
  | Some rows, [VTids ctids] =>
      match List.find (λ e : (string * string) * list heap_row,
              bool_decide (sql = buildMoveCTE (PSchema p) (DefaultTable p) (qualified e.1) event_columns) &&
              bool_decide (Cut "." (qualified e.1) = Some e.1) && negb (bool_decide (e.1 = source p))) c with
      | Some (rel, _) =>
          let moved := filter (λ r, ctid r ∈ ctids) rows in
          match rows_of rel c with
          | Some target =>
              Ok (Z.of_nat (length moved),
                  set_rows rel (target ++ moved) (set_rows (source p) (filter (λ r, ctid r ∉ ctids) rows) c))
          | None => Err (PgError "42P01")
          end
      | None => Err (PgError "42P01")
      end
  | _, _ => Err (PgError "42P01")
  end.
End heap.

(** An environment on this heap; [faults] decides which interaction fails. *)
Definition heap_base : Env tables := {|
  pg_exec sql args c := Err NoRows; pg_query sql args c := Err NoRows; pg_call _ sql args c := Err NoRows;
  Sanitize ids := Join "." ids; env_fault _ := None; env_session _ := O; env_now _ := noon; env_ctx _ := None;
  env_ulid := unary_id; env_rand _ := 0%Q; env_scan _ _ l := l;
  env_collate a b := match String.compare a b with Gt => false | _ => true end; env_zone := 0
|}.
Definition heap_env (opts : Options.t) (faults : nat → option fault) : Env tables := {|
  pg_exec := heap_exec opts (E := heap_base);
  pg_query := heap_query opts (E := heap_base);
  pg_call _ sql args c := Ok ([VBool true], c);
  Sanitize ids := Join "." ids; env_fault := faults; env_session _ := O; env_now _ := noon; env_ctx _ := None;
  env_ulid := unary_id; env_rand _ := 0%Q; env_scan _ _ l := l;
  env_collate a b := match String.compare a b with Gt => false | _ => true end; env_zone := 0
|}.

#[export] Instance heap_env_laws opts f : EnvLaws (heap_env opts f).
Proof. by split. Qed.
#[export] Instance heap_env_quiet opts : Quiet (heap_env opts no_fault).
Proof. by intros n. Qed.

(** ** Its laws *)

Section laws.
Context (opts : Options.t) (f : nat → option fault).
Let p := events_params opts.
Let E := heap_env opts f.

Lemma quoteFQ_qualified fq dst : Cut "." fq = Some dst → quoteFQ (E := heap_base) fq = fq.
Proof. intros H. unfold quoteFQ. rewrite H. destruct dst as [s t]. by apply Cut_Some in H as [-> _]. Qed.
Lemma qualified_Cut fq dst : Cut "." fq = Some dst → qualified dst = fq.
Proof. destruct dst as [s t]. by intros [-> _]%Cut_Some. Qed.

Lemma buildMoveCTE_inj schema table fq fq' :
  quoteFQ (E := heap_base) fq = fq → quoteFQ (E := heap_base) fq' = fq' →
  buildMoveCTE (E := heap_base) schema table fq event_columns =
  buildMoveCTE (E := heap_base) schema table fq' event_columns → fq = fq'.
Proof.
  unfold buildMoveCTE. intros -> ->. cbv zeta. intros H%app_string_inj_r%app_string_inj_r%app_string_inj_r%app_string_inj_r%app_string_inj_r%app_string_inj_r%app_string_inj_r.
  pose proof (f_equal String.length H) as Hl. rewrite !(length_app_string fq), !(length_app_string fq') in Hl.
  apply app_string_inj_len in H as [? _]; [done|lia].
Qed.

Lemma key_arg_length k : length (key_arg p k) = 3%nat.
Proof. done. Qed.
Lemma key_conds_number n ks : key_conds p n ks = key_conds p n (repeat some_key (length ks)).
Proof. revert n. induction ks as [|k ks IH]; intros n; [done|]. cbn [key_conds length repeat]. by rewrite IH. Qed.
Lemma key_conds_with_keys l n ks : key_conds (with_keys l p) n ks = key_conds p n ks.
Proof. revert n. induction ks as [|k ks IH]; intros n; [done|]. cbn [key_conds]. by rewrite IH. Qed.
Lemma key_args_length ks : length (ks ≫= key_arg p) = (3 * length ks)%nat.
Proof. induction ks as [|k ks IH]; [done|]. rewrite bind_cons, length_app, IH, key_arg_length. cbn [length]. lia. Qed.
Lemma read_args_length ks :
  length (read_args (with_keys ks p)) = (length (tenant_args p) + 3 * length ks + 1)%nat.
Proof.
  unfold read_args. rewrite !length_app. change (AnomalyKeys (with_keys ks p)) with ks.
  change (key_arg (with_keys ks p)) with (key_arg p). rewrite key_args_length.
  change (tenant_args (with_keys ks p)) with (tenant_args p). cbn [length]. lia.
Qed.
Lemma query_of_read ks :
  read_select (query_of opts (read_args (with_keys ks p))) = read_select (with_keys ks p).
Proof.
  unfold query_of. rewrite read_args_length.
  assert (length (tenant_args p) = 0 ∨ length (tenant_args p) = 1)%nat as Ht
    by (unfold tenant_args, p, events_params, drain_params, read_params; cbn; destruct (Options.Tenant _); cbn; auto).
  replace (Nat.div _ 3) with (length ks).
  2:{ destruct Ht as [-> | ->]; [apply Nat.div_unique with O|apply Nat.div_unique with 1%nat]; lia. }
  unfold read_select. cbn [sel_cols]. f_equal; [|by rewrite !read_args_length, repeat_length].
  f_equal. f_equal. rewrite !key_conds_with_keys.
  change (tenant_args (with_keys ?l p)) with (tenant_args p).
  cbn [AnomalyKeys with_keys]. symmetry. apply key_conds_number.
Qed.

(** The texts of the queries differ early. *)
Lemma select_text q :
  let sql := render_select (E := heap_base) (read_select q) in
  sql ≠ insertColumnsSQL ∧ sql ≠ default_query ∧ sql ≠ render_count (E := heap_base) (null_count p).
Proof.
  split_and!; intros H%(f_equal (String.get 8)); [lazy in H; discriminate..|].
  revert H. unfold render_select, render_count, null_count, p, events_params, drain_params, read_params. cbn.
  by destruct (Options.Tenant opts).
Qed.
Lemma count_text :
  render_count (E := heap_base) (null_count p) ≠ insertColumnsSQL ∧
  render_count (E := heap_base) (null_count p) ≠ default_query.
Proof. split; intros H%(f_equal (String.get 7)); lazy in H; discriminate. Qed.

Lemma heap_query_select ks c rows :
  view_of opts c (source p) = Some rows →
  pg_query (Env := E) (render_select (E := E) (read_select (with_keys ks p))) (read_args (with_keys ks p)) c =
  Ok (run_select (read_select (with_keys ks p)) (read_args (with_keys ks p)) rows).
Proof.
  intros Hv. destruct (select_text (with_keys ks p)) as (H1 & H2 & H3).
  cbn [pg_query E heap_env]. unfold heap_query. fold p. rewrite Hv.
  change (render_select (E := E) ?q) with (render_select (E := heap_base) q).
  rewrite (bool_decide_false _ H1), (bool_decide_false _ H2), (bool_decide_false _ H3). cbv zeta.
  rewrite query_of_read, bool_decide_true; reflexivity.
Qed.
Lemma heap_query_count c rows :
  view_of opts c (source p) = Some rows →
  pg_query (Env := E) (render_count (E := E) (null_count p)) (tenant_args p) c =
  Ok (run_count (null_count p) (tenant_args p) rows).
Proof.
  intros Hv. destruct count_text as [H1 H2]. cbn [pg_query E heap_env]. unfold heap_query. fold p. rewrite Hv.
  change (render_count (E := E) ?q) with (render_count (E := heap_base) q).
  rewrite (bool_decide_false _ H1), (bool_decide_false _ H2), bool_decide_true; reflexivity.
Qed.

Lemma run_select_selected q args rows limit :
  parameter args (sel_limit q) = VInt limit → sel_order q = "created_at" →
  selected q args rows (run_select q args rows).
Proof.
  intros Hl Ho. exists (merge_sort key_le (filter (holds args (sel_where q)) rows)), limit.
  split_and!; [apply merge_sort_Permutation| |done|unfold run_select; by rewrite Hl].
  rewrite Ho, <- (list_fmap_id (merge_sort _ _)). apply (StronglySorted_fmap id key_le).
  - unfold key_le, sort_key, not_after, id. intros a b.
    destruct (col a _) as [| | | |t|[]| |], (col b _) as [| | | |t'|[]| |]; cbn; try done; try lia. intros H. f_equal. lia.
  - apply StronglySorted_merge_sort; unfold key_le; [intros a b c; lia|intros a b; lia].
Qed.
Lemma run_count_counted q args rows : counted q args rows (run_count q args rows).
Proof.
  unfold counted, run_count. destruct (cnt_group q) as [g|]; [|done].
  eexists _. split; [apply NoDup_remove_dups|]. split; [|reflexivity].
  intros v. rewrite elem_of_remove_dups, list_elem_of_fmap. naive_solver.
Qed.

(** What the move statement does when it names a target. *)
Definition moved_to (rel : string * string) (ctids : list Z) (rows target : list heap_row) (c : tables) : tables :=
  set_rows rel (target ++ filter (λ r, ctid r ∈ ctids) rows)
    (set_rows (source p) (filter (λ r, ctid r ∉ ctids) rows) c).

Lemma rows_of_elem rel rows c : (rel, rows) ∈ c → is_Some (rows_of rel c).
Proof.
  induction c as [|[rel' rows'] c IH]; [by intros ?%not_elem_of_nil|]. cbn.
  intros [[= <- <-]|Hin]%elem_of_cons; [by rewrite bool_decide_true|]. case_bool_decide; [done|by apply IH].
Qed.
Lemma elem_rows_of rel rows c : rows_of rel c = Some rows → ∃ rows', (rel, rows') ∈ c.
Proof.
  induction c as [|[rel' rows'] c IH]; [done|]. cbn. case_bool_decide as Hr.
  - intros _. subst. exists rows'. by left.
  - intros [r' Hin]%IH. exists r'. by right.
Qed.
Lemma view_of_inv c rel rows : view_of opts c rel = Some rows → rows_of rel c = Some rows.
Proof. unfold view_of. destruct (rows_of rel c); [|done]. by destruct (_ && _). Qed.
Lemma view_of_ne c rel : rel ≠ source p → view_of opts c rel = rows_of rel c.
Proof. intros Hn. unfold view_of. fold p. rewrite bool_decide_false by done. by destruct (rows_of rel c). Qed.
Lemma view_of_valid c rows : view_of opts c (source p) = Some rows → valid rows = true.
Proof.
  unfold view_of. fold p. rewrite bool_decide_true by done. destruct (rows_of _ c) as [r|]; [|done].
  destruct (valid r) eqn:Hv; cbn; congruence.
Qed.
Lemma valid_filter (P : heap_row → Prop) `{!∀ r, Decision (P r)} rows :
  valid rows = true → valid (filter P rows) = true.
Proof.
  unfold valid. rewrite !andb_true_iff, !bool_decide_eq_true, !forallb_forall. intros [Hd Hf]. split.
  - eapply sublist_NoDup; [exact Hd|apply fmap_sublist, sublist_filter].
  - intros r Hr. apply Hf. apply list_elem_of_In in Hr. apply list_elem_of_In.
    by apply list_elem_of_filter in Hr as [_ ?].
Qed.

(** The one target the text of the statement names. *)
Lemma exec_target fq dst :
  Cut "." fq = Some dst →
  let sql := buildMoveCTE (E := heap_base) (PSchema p) (DefaultTable p) fq event_columns in
  ∀ e, bool_decide (sql = buildMoveCTE (E := heap_base) (PSchema p) (DefaultTable p) (qualified e) event_columns) &&
       bool_decide (Cut "." (qualified e) = Some e) = true → e = dst.
Proof.
  intros Hc sql e. rewrite andb_true_iff, !bool_decide_eq_true. intros [Hs He].
  apply buildMoveCTE_inj in Hs; [congruence|by eapply quoteFQ_qualified..].
Qed.
Lemma heap_exec_inv fq dst ctids c n c' :
  Cut "." fq = Some dst →
  pg_exec (Env := E) (buildMoveCTE (E := E) (PSchema p) (DefaultTable p) fq event_columns) [VTids ctids] c = Ok (n, c') →
  ∃ rows target, view_of opts c (source p) = Some rows ∧ rows_of dst c = Some target ∧
    n = Z.of_nat (length (filter (λ r, ctid r ∈ ctids) rows)) ∧ c' = moved_to dst ctids rows target c.
Proof.
  intros Hc. cbn [pg_exec E heap_env]. unfold heap_exec. fold p.
  destruct (view_of opts c (source p)) as [rows|]; [|done].
  destruct (List.find _ c) as [[rel r0]|] eqn:Hf; [|done]. apply find_Some_elem in Hf as [_ Hb].
  cbn [fst] in Hb. apply andb_true_iff in Hb as [Hb _]. apply (exec_target fq dst Hc) in Hb as ->.
  destruct (rows_of dst c) as [target|]; [|done]. intros [= <- <-]. by exists rows, target.
Qed.
Lemma heap_exec_runs fq dst ctids c rows target :
  Cut "." fq = Some dst → dst ≠ source p →
  view_of opts c (source p) = Some rows → rows_of dst c = Some target →
  ∃ n c', pg_exec (Env := E) (buildMoveCTE (E := E) (PSchema p) (DefaultTable p) fq event_columns) [VTids ctids] c = Ok (n, c').
Proof.
  intros Hc Hne Hv Ht. cbn [pg_exec E heap_env]. unfold heap_exec. fold p. rewrite Hv.
  destruct (List.find _ c) as [[rel r0]|] eqn:Hf.
  - apply find_Some_elem in Hf as [_ Hb]. cbn [fst] in Hb. apply andb_true_iff in Hb as [Hb _].
    apply (exec_target fq dst Hc) in Hb as ->. rewrite Ht. by eexists _, _.
  - destruct (elem_rows_of _ _ _ Ht) as [r0 Hin]. eapply find_None_elem in Hf; [|exact Hin].
    exfalso. cbn [fst] in Hf. rewrite (qualified_Cut fq) in Hf by done.
    rewrite !bool_decide_true in Hf by done. by rewrite bool_decide_false in Hf.
Qed.
Lemma moved_to_moves dst ctids rows target c :
  dst ≠ source p → view_of opts c (source p) = Some rows → rows_of dst c = Some target →
  moves (source p) dst event_columns ctids (Z.of_nat (length (filter (λ r, ctid r ∈ ctids) rows)))
    (view_of opts c) (view_of opts (moved_to dst ctids rows target c)).
Proof.
  intros Hne Hv Ht. pose proof (view_of_inv _ _ _ Hv) as Hr.
  exists rows, target, (filter (λ r, ctid r ∈ ctids) rows), (target ++ filter (λ r, ctid r ∈ ctids) rows)%list.
  unfold moved_to. split_and!; [done|by rewrite view_of_ne| | |done| |done|].
  - unfold view_of. fold p. rewrite rows_of_set_ne by done. erewrite rows_of_set by done.
    rewrite (valid_filter _ rows) by (by eapply view_of_valid). by rewrite andb_false_r.
  - rewrite view_of_ne by done. erewrite rows_of_set; [done|]. by rewrite rows_of_set_ne.
  - apply Forall_Forall2_diag, Forall_forall. by intros r _ x _.
  - intros rel H1 H2. by rewrite !view_of_ne, !rows_of_set_ne by done.
Qed.

Lemma valid_typed rows r : valid rows = true → r ∈ rows → typed p r.
Proof.
  unfold valid. rewrite andb_true_iff, forallb_forall. intros [_ Hf] Hr%list_elem_of_In%Hf.
  unfold typed_b in Hr. apply andb_true_iff in Hr as [H1 H2]. split.
  - change (ControlCol p) with "created_at". destruct (col r "created_at"); try done; [by left|right; left; by eexists|right; right; by eexists].
  - intros _. change (TenantCol p) with "org". destruct (col r "org"); try done; [by left|right; by eexists].
Qed.
Lemma read_args_limit ks : parameter (read_args (with_keys ks p)) (sel_limit (read_select (with_keys ks p))) = VInt (PBatchSize p).
Proof.
  unfold parameter, read_select, read_args. cbn [sel_limit].
  rewrite !length_app, !app_assoc, lookup_app_r by (rewrite !length_app; cbn; lia).
  rewrite !length_app. by replace (_ - _)%nat with O by (cbn; lia).
Qed.
End laws.

#[export] Instance heap_env_heap opts f : Heap (heap_env opts f) "events" (events_params opts) event_columns.
Proof.
  refine {| view := view_of opts; admits _ _ _ := True |}.
  - intros c rows Hv%view_of_valid. unfold valid in Hv. by apply andb_true_iff in Hv as [Hv%bool_decide_eq_true _].
  - intros c rows r Hv%view_of_valid Hr. by eapply valid_typed.
  - intros c rows. cbn [pg_query heap_env]. unfold heap_query. rewrite bool_decide_true by done. congruence.
  - intros ks c rows out q Hv. unfold q. rewrite (heap_query_select _ _ _ _ _ Hv). intros [= <-].
    eapply run_select_selected; [apply read_args_limit|done].
  - intros c rows out Hv. rewrite (heap_query_count _ _ _ _ Hv). intros [= <-]. apply run_count_counted.
  - intros c fq dst ctids n c' Hc Hne Hx. split; [|done].
    destruct (heap_exec_inv _ _ _ _ _ _ _ _ Hc Hx) as (rows & target & Hv & Ht & -> & ->). by apply moved_to_moves.
  - intros s sql args c row c' _ [= _ <-]. done.
Defined.
#[export] Instance heap_env_accepts opts f :
  HeapAccepts (heap_env opts f) "events" (events_params opts) event_columns.
Proof.
  split.
  - intros c. cbn [pg_query heap_env]. unfold heap_query. rewrite bool_decide_true by done. by eexists.
  - intros c rows Hv. cbn [pg_query heap_env]. unfold heap_query. rewrite bool_decide_false by (by vm_compute).
    change (view_of opts c (source (events_params opts)) = Some rows) in Hv. rewrite Hv, bool_decide_true by done.
    by eexists _, [].
  - intros ks c rows Hv. rewrite (heap_query_select _ _ _ _ _ Hv). by eexists.
  - intros c rows Hv. rewrite (heap_query_count _ _ _ _ Hv). by eexists.
  - intros c fq dst ctids rows target Hc Hne Hv Ht _. eapply heap_exec_runs; [exact Hc|exact Hne|exact Hv|].
    change (view_of opts c dst = Some target) in Ht. by apply view_of_inv in Ht.
Qed.

(** ** Drains *)

(** 2026-06-14 and 2026-06-15, 00:00 UTC. *)
Definition june_14 : Time := Eval vm_compute in DateUTC 2026 6 14 0 0 0 0.
Definition june_15 : Time := Eval vm_compute in DateUTC 2026 6 15 0 0 0 0.
Definition june_16 : Time := Eval vm_compute in DateUTC 2026 6 16 0 0 0 0.

(** A row of [app.events]. *)
Definition event_row (tid : Z) (org created_at : value) : heap_row :=
  mkHeapRow tid (λ c, if bool_decide (c = "id") then VInt tid
                      else if bool_decide (c = "org") then org
                      else if bool_decide (c = "created_at") then created_at else VNull).
Definition acme_june_15 : Partition.row :=
  Partition.mk "Q1" "app.events_ACME_20260615" "P1" (Some "acme") "created_at" "range" june_15 june_16 false active.
Definition acme_default : Partition.row :=
  Partition.mk "Q2" "app.events_default" "P1" None "created_at" "range" zero_Time zero_Time true active.
Definition stock_meta : Meta :=
  mkMeta [tenanted_events] [Tenant.mk "acme" "P1"] [acme_june_15; acme_default].
(** The default partition holds [rows]; acme has a partition for one day. *)
Definition stock (rows : list heap_row) : World tables :=
  mkWorld (mkDB stock_meta [(("app", "events_default"), rows); (("app", "events_ACME_20260615"), [])]) O [].

(** Two rows of that day, one of another day, one without a control value. *)
Definition mixed_rows : list heap_row :=
  [event_row 1 (VText "acme") (VTime noon); event_row 2 (VText "beta") (VTime noon);
   event_row 3 (VText "acme") (VTime june_15); event_row 4 (VText "acme") (VTime june_14);
   event_row 5 VNull VNull].

(** The reply of the [n]th interaction is lost. *)
Definition lost_reply (n m : nat) : option fault :=
  if (m =? n)%nat then Some (Applied (NetError true)) else None.

Lemma stock_apart : named_apart (events_params by_two) "P1" stock_meta.
Proof.
  intros row [-> |[-> |?%not_elem_of_nil]%elem_of_cons]%elem_of_cons; [|done|done].
  intros _ _. exists ("app", "events_ACME_20260615"). split; [by vm_compute|]. by vm_compute.
Qed.
Lemma mixed_ready : ready (E := heap_env by_two no_fault) "events" (events_params by_two) event_columns "P1" PartitionDayInterval
  (db (stock mixed_rows)) mixed_rows.
Proof.
  split; [by vm_compute|exact stock_apart| |].
  - intros r Hr _. unfold mixed_rows in Hr. rewrite !elem_of_cons, elem_of_nil in Hr.
    destruct Hr as [-> |[-> |[-> |[-> |[-> |[]]]]]]; by vm_compute.
  - intros k row rel [Hin _ Hdef _ _ _] Hrel. exists [].
    apply elem_of_cons in Hin as [-> |[-> |?%not_elem_of_nil]%elem_of_cons]; [|done|done].
    split; [|done]. replace rel with ("app", "events_ACME_20260615"); [by vm_compute|].
    vm_compute in Hrel. congruence.
Qed.

(** With the reply of a commit lost. *)
Lemma PartitionData_conserves_witness :
  drains (E := heap_env by_two (lost_reply 13)) "events" (events_params by_two) event_columns "P1" PartitionDayInterval
    (db (stock mixed_rows))
    (db (PartitionData (E := heap_env by_two (lost_reply 13)) 10 app_events by_two (stock mixed_rows)).2).
Proof.
  apply (PartitionData_conserves (E := heap_env by_two (lost_reply 13)) app_events tenanted_events by_two event_columns
           PartitionDayInterval eq_refl 10 (stock mixed_rows)
           (PartitionData (E := heap_env by_two (lost_reply 13)) 10 app_events by_two (stock mixed_rows)).1).
  - by vm_compute.
  - exact stock_apart.
  - apply surjective_pairing.
Defined.
Lemma PartitionData_total_witness :
  ∃ report w', PartitionData (E := heap_env by_two no_fault) 6 app_events by_two (stock mixed_rows) =
                 (Ret (Some (report, None)), w') ∧
    complete (E := heap_env by_two no_fault) app_events tenanted_events by_two event_columns PartitionDayInterval
      (db (stock mixed_rows)) (db w') report.
Proof.
  apply (PartitionData_total (E := heap_env by_two no_fault) (λ _, eq_refl) app_events tenanted_events by_two event_columns
           PartitionDayInterval eq_refl ltac:(by vm_compute) 6 (stock mixed_rows) mixed_rows).
  - by vm_compute.
  - done.
  - intros s. by eexists.
  - exact mixed_ready.
  - cbn. lia.
Defined.

(** ** Its corners *)

(** A row whose tenant is the empty string is looked up, and excluded from the
    next batch, as a row without tenant; but [''] is distinct from NULL, so
    that the next batch reads it again.  A row whose control value is infinite
    is taken for one of the first day of the year 1, and is not excluded with
    that day. *)
Inductive stuck := Nameless | Endless (positive : bool).
Definition stuck_rows (x : stuck) : list heap_row :=
  match x with
  | Nameless => [event_row 1 (VText "") (VTime noon)]
  | Endless b => [event_row 1 (VText "acme") (VInfinity b)]
  end.
Definition nameless_key : groupKey := Eval vm_compute in
  mkGroupKey (mkBounds (UTC june_15) (UTC june_16)) "" true.
Definition stuck_key (x : stuck) : groupKey :=
  match x with
  | Nameless => nameless_key
  | Endless _ => mkGroupKey (mkBounds (UTC zero_Time) (UTC (AddDate zero_Time 0 0 1))) "acme" true
  end.
Definition stuck_batch (x : stuck) : batchRow :=
  match x with
  | Nameless => mkBatchRow (UTC noon) "" 1 true
  | Endless _ => mkBatchRow (UTC zero_Time) "acme" 1 true
  end.
Definition rounds (fuel : nat) (i : Z) (report : Report) (an : anomalyTracker) : M tables (option stopped) :=
  drain_batches (E := heap_env by_two no_fault) "app" "events_default" "app.events" "org" tenanted_events event_columns
    PartitionDayInterval (resolved by_two) fuel i report an.

Lemma stuck_round x fuel i report an w :
  db w = db (stock (stuck_rows x)) → an = [] ∨ (∃ n, an = [(stuck_key x, n)]) →
  ∃ n w', rounds (S fuel) i report an w = rounds fuel (i + 1) (add_batch report) [(stuck_key x, n)] w' ∧
    db w' = db (stock (stuck_rows x)).
Proof.
  intros Hdb Han. destruct w as [d t tr]. cbn [db] in Hdb. subst d. unfold rounds. cbn [drain_batches].
  change (Options.MaxBatches (resolved by_two)) with 0. cbn [Z.eqb orb negb].
  set (w1 := mkWorld (db (stock (stuck_rows x))) (S t) tr). set (w2 := mkWorld (db (stock (stuck_rows x))) (S (S t)) tr).
  rewrite (bind_Ret _ _ _ None w1) by done.
  rewrite (bind_Ret _ _ _ (Ok [stuck_batch x]) w2)
    by (destruct Han as [-> |[n ->]], x as [|[]]; vm_compute; reflexivity).
  rewrite bind_emit.
  change (groupByBounds _ _) with (groupByBounds [stuck_batch x] PartitionDayInterval).
  replace (groupByBounds _ _) with (Ok [(stuck_key x, [1])] : res groups) by (destruct x as [|[]]; vm_compute; reflexivity).
  set (w3 := mkWorld (db (stock (stuck_rows x))) (S (S (S t))) (trace w2 ++ [Counter "partman.drain_batches_total" 1 ["parent"; "app.events"]])%list).
  rewrite (bind_Ret _ _ _ [(stuck_key x, [1])] w3) by done.
  set (w4 := mkWorld (db w3) (S (tick w3)) (trace w3)).
  destruct Han as [-> |[n ->]].
  - rewrite (bind_Ret _ _ _ (add_batch report, [(stuck_key x, 1)], None) w4) by (destruct x as [|[]]; vm_compute; reflexivity).
    by exists 1, w4.
  - rewrite (bind_Ret _ _ _ (add_batch report, [(stuck_key x, n + 1)], None) w4) by (destruct x as [|[]]; vm_compute; reflexivity).
    by exists (n + 1), w4.
Qed.
Lemma stuck_rounds x fuel i report an w :
  db w = db (stock (stuck_rows x)) → an = [] ∨ (∃ n, an = [(stuck_key x, n)]) →
  ∃ w', rounds fuel i report an w = (Ret None, w').
Proof.
  revert i report an w. induction fuel as [|fuel IH]; intros i report an w Hdb Han; [by eexists|].
  destruct (stuck_round x fuel i report an w Hdb Han) as (n & w' & -> & Hdb'). apply IH; eauto.
Qed.
Lemma stuck_locked x fuel t tr :
  ∃ w', partition_locked (E := heap_env by_two no_fault) fuel app_events (resolved by_two)
          (mkWorld (db (stock (stuck_rows x))) t tr) = (Ret None, w').
Proof.
  unfold partition_locked. cbv zeta.
  rewrite (bind_Ret _ _ _ (Ok tenanted_events) (mkWorld (db (stock (stuck_rows x))) (S t) tr)) by (destruct x as [|[]]; vm_compute; reflexivity).
  change (intervalFromLabel _) with (Ok PartitionDayInterval : res Z). cbv iota.
  rewrite (bind_Ret _ _ _ (Ok event_columns) (mkWorld (db (stock (stuck_rows x))) (S (S t)) tr)) by (destruct x as [|[]]; vm_compute; reflexivity).
  rewrite bool_decide_false by done.
  rewrite (bind_Ret _ _ _ (Ok tt) (mkWorld (db (stock (stuck_rows x))) (S (S (S t))) tr)) by (destruct x as [|[]]; vm_compute; reflexivity).
  unfold drain.
  destruct (stuck_rounds x fuel 0 empty_drain [] (mkWorld (db (stock (stuck_rows x))) (S (S (S t))) tr)) as [w' Hr]; [done|by left|].
  exists w'. by rewrite (bind_Ret _ _ _ _ _ Hr).
Qed.

(** C30: two rows that keep the drain busy for ever.  Nothing fails, the default
    partition holds one row, whose tenant is the empty string or whose control
    value is an infinity, and no batch limit is set: no number of rounds is
    enough for [PartitionData] to return, though the context is checked in
    every round.  The key of the first is excluded from the next batch with
    [IS NOT DISTINCT FROM NULL], which [''] is not; that of the second with
    the bounds of a day, in which no infinity is. *)
Theorem PartitionData_diverges x fuel :
  (PartitionData (E := heap_env by_two no_fault) fuel app_events by_two (stock (stuck_rows x))).1 = Ret None.
Proof.
  unfold PartitionData. cbv zeta. rewrite bind_Now. unfold deferring at 1.
  set (start := mkWorld _ _ _). set (w1 := mkWorld (db (stock (stuck_rows x))) 2 []).
  set (w2 := mkWorld (db (stock (stuck_rows x))) 3 []).
  rewrite (bind_Ret _ _ _ (Ok O) w1), (bind_Ret _ _ _ (Ok true) w2) by (destruct x as [|[]]; vm_compute; reflexivity).
  unfold deferring. destruct (stuck_locked x fuel 3 []) as [w' Hl]. subst w2. rewrite Hl. by destruct w'.
Qed.

(** The report of a call, and how many rows each table holds afterwards. *)
Definition outcome_of (opts : Options.t) (faults : nat → option fault) (rows : list heap_row)
    : option (Report * option error) * list nat :=
  let '(o, w) := PartitionData (E := heap_env opts faults) 10 app_events opts (stock rows) in
  (match o with Ret r => r | _ => None end, length <$> (catalog (db w)).*2).

(** Two rows without a partition; batches of one row.  The second row is
    excluded with the first and never counted. *)
Example anomaly_undercount :
  outcome_of (Options.mk None 1 0) no_fault [event_row 1 (VText "beta") (VTime noon); event_row 2 (VText "beta") (VTime noon)] =
  (Some (mkReport [mkAnomaly (mkBounds june_15 june_16) "beta" 1] 0 1, None), [2; 0]%nat).
Proof. vm_compute. reflexivity. Qed.

(** The reply of the commit of the first move is lost; the move is retried
    and finds nothing: two rows left, one is reported. *)
Example moved_undercount :
  (λ r, RowsMoved r.1) <$> (outcome_of by_two (lost_reply 13) mixed_rows).1 = Some 1 ∧
  (outcome_of by_two (lost_reply 13) mixed_rows).2 = [3; 2]%nat ∧
  (λ r, (RowsMoved r.1, r.2)) <$> (outcome_of by_two no_fault mixed_rows).1 = Some (2, None).
Proof. vm_compute. done. Qed.

(** The types of the columns of [app.events]. *)
Definition event_type (c : string) : sql_type :=
  if bool_decide (c = "created_at") then TTime else if bool_decide (c = "id") then TInt else TText.
(** A batch query of one tenant, with two recorded anomalies. *)
Lemma queries_well_typed_witness :
  let p := with_keys [nameless_key; nameless_key] (events_params (Options.mk (Some "acme") 2 0)) in
  (∃ q, (buildReadBatch (E := heap_base) p).1 = render_select (E := heap_base) q ∧
        well_typed (select_params event_type q) (buildReadBatch (E := heap_base) p).2) ∧
  (∃ q, (buildNullSummary (E := heap_base) (PSchema p) (DefaultTable p) (ControlCol p) (TenantCol p) (PTenant p)).1 =
          render_count (E := heap_base) q ∧
        well_typed (where_params event_type (cnt_where q))
          (buildNullSummary (E := heap_base) (PSchema p) (DefaultTable p) (ControlCol p) (TenantCol p) (PTenant p)).2).
Proof. intros p. apply (queries_well_typed p event_type); [reflexivity|intros _; reflexivity]. Defined.
