(* ===== verification/Scheduler.v ===== *)
(** * The scheduler ([internal/maintainer/scheduler.go])

    One goroutine runs [Maintain] on every tick until it is stopped.  The
    model interleaves any number of calls of [start] and [stop], the loops
    they spawn and the goroutines that wait for the loops; a step is what a
    goroutine does between two points where another can run: a critical
    section of [s.mu], an operation on a channel or on [s.wg].  [sync.WaitGroup]
    is modelled with its two panics. *)

From S2P Require Import Prelude Errs.
From stdpp Require Import gmap.
Local Open Scope string_scope.
Local Open Scope Z_scope.

(** ** Threads *)

Definition errAlreadyStarted : error := Msg "maintainer: already started".

(** Where a goroutine is.  A loop holds the channel it read from [s.done] and
    whether its ticker has a tick ready. *)
Inductive thread :=
| StartLock                                     (* [start], before its critical section *)
| StartSpawn                                    (* before [go s.loop(ctx)] *)
| LoopEntry                                     (* [loop], before it reads [s.done] *)
| LoopSelect (ch : option nat) (tick : bool)    (* at the [select] *)
| LoopMaintain (ch : option nat) (tick : bool)  (* inside [Maintain] *)
| LoopDefer                                     (* before [s.wg.Done()] *)
| StopLock                                      (* [stop], before its critical section *)
| StopSpawn                                     (* before it starts its waiter *)
| StopSelect (waiter : nat)                     (* at its [select] *)
| WaitCall                                      (* the waiter, before [s.wg.Wait()] *)
| WaitBlocked                                   (* asleep in it *)
| WaitWoken                                     (* woken, not yet returned from it *)
| Returned (err : option error)                 (* a call that returned; [None] is nil *)
| Ended.                                        (* a goroutine that ended; a waiter has closed [waitCh] *)

#[export] Instance thread_eq_dec : EqDecision thread.
Proof. solve_decision. Defined.

(** [made]: how many channels were made; [panicked]: the process is dead. *)
Record scheduler := mkScheduler {
  running : bool;
  s_done : option nat;
  closed : gset nat;
  made : nat;
  wg : nat;
  threads : list thread;
  panicked : bool
}.
Definition newScheduler : scheduler := mkScheduler false None ∅ 0 0 [] false.

Definition with_threads (l : list thread) (s : scheduler) : scheduler :=
  mkScheduler (running s) (s_done s) (closed s) (made s) (wg s) l (panicked s).
Definition goto (i : nat) (t : thread) (s : scheduler) : scheduler := with_threads (<[i := t]> (threads s)) s.
Definition spawn (t : thread) (s : scheduler) : scheduler := with_threads (threads s ++ [t]) s.
Definition with_wg (n : nat) (s : scheduler) : scheduler :=
  mkScheduler (running s) (s_done s) (closed s) (made s) n (threads s) (panicked s).
Definition crash (s : scheduler) : scheduler :=
  mkScheduler (running s) (s_done s) (closed s) (made s) (wg s) (threads s) true.

(** ** [sync.WaitGroup] *)

Definition wake (t : thread) : thread := match t with WaitBlocked => WaitWoken | t => t end.
(** [wg.Done()] *)
Definition wg_Done (s : scheduler) : scheduler :=
  match wg s with
  | O => crash s                                                  (* negative counter *)
  | S O => with_wg 0 (with_threads (wake <$> threads s) s)
  | S n => with_wg n s
  end.

(** ** Steps *)

(** Which case a [select] takes; what the environment does. *)
Inductive move := Next | TakeTick | TakeDone | TakeWait | TakeCtx (e : error) | Ticks.
Inductive label := CallStart | CallStop | Step (i : nat) (c : move).

(** The critical section of [start]. *)
Definition start_section (i : nat) (s : scheduler) : scheduler :=
  if running s then goto i (Returned (Some errAlreadyStarted)) s
  else goto i StartSpawn
         (mkScheduler true (Some (made s)) (closed s) (S (made s)) (S (wg s)) (threads s) (panicked s)).
(** The critical section of [stop]; [close] panics on nil and on a closed
    channel. *)
Definition stop_section (i : nat) (s : scheduler) : scheduler :=
  if running s then
    match s_done s with
    | Some ch =>
        if bool_decide (ch ∈ closed s) then crash s
        else goto i StopSpawn
               (mkScheduler false (s_done s) ({[ch]} ∪ closed s) (made s) (wg s) (threads s) (panicked s))
    | None => crash s
    end
  else goto i (Returned None) s.

Definition thread_step (i : nat) (t : thread) (c : move) (s : scheduler) : option scheduler :=
  match t, c with
  | StartLock, Next => Some (start_section i s)
  | StartSpawn, Next => Some (spawn LoopEntry (goto i (Returned None) s))
  | LoopEntry, Next => Some (goto i (LoopSelect (s_done s) false) s)
  | LoopSelect (Some ch) _, TakeDone => if bool_decide (ch ∈ closed s) then Some (goto i LoopDefer s) else None
  | LoopSelect ch true, TakeTick => Some (goto i (LoopMaintain ch false) s)
  | LoopSelect ch _, Ticks => Some (goto i (LoopSelect ch true) s)
  | LoopMaintain ch tick, Next => Some (goto i (LoopSelect ch tick) s)
  | LoopMaintain ch _, Ticks => Some (goto i (LoopMaintain ch true) s)
  | LoopDefer, Next => Some (wg_Done (goto i Ended s))
  | StopLock, Next => Some (stop_section i s)
  | StopSpawn, Next => Some (spawn WaitCall (goto i (StopSelect (length (threads s))) s))
  | StopSelect w, TakeWait => if bool_decide (threads s !! w = Some Ended) then Some (goto i (Returned None) s) else None
  | StopSelect _, TakeCtx e => Some (goto i (Returned (Some e)) s)
  | WaitCall, Next => Some (goto i (if bool_decide (wg s = O) then Ended else WaitBlocked) s)
  | WaitWoken, Next => Some (if bool_decide (wg s = O) then goto i Ended s else crash s)   (* reused too early *)
  | _, _ => None
  end.

Definition exec (l : label) (s : scheduler) : option scheduler :=
  if panicked s then None
  else match l with
       | CallStart => Some (spawn StartLock s)
       | CallStop => Some (spawn StopLock s)
       | Step i c => t ← threads s !! i; thread_step i t c s
       end.
Fixpoint run (ls : list label) (s : scheduler) : option scheduler :=
  match ls with
  | [] => Some s
  | l :: ls => s' ← exec l s; run ls s'
  end.

(** ** Counting threads *)

Notation tally := sum_list_with.

Lemma tally_insert (f : thread → nat) l i t t' :
  l !! i = Some t → (tally f (<[i := t']> l) + f t = tally f l + f t')%nat.
Proof.
  revert i. induction l as [|x l IH]; intros [|i]; try done; simpl; [intros [= ->]; lia|].
  intros Hi%IH. lia.
Qed.
Lemma tally_wake (f : thread → nat) l : (∀ t, f (wake t) <= f t)%nat → (tally f (wake <$> l) <= tally f l)%nat.
Proof. intros Hf. induction l as [|t l IH]; [done|]. cbn. specialize (Hf t). cbn in IH. lia. Qed.
Lemma tally_ge (f : thread → nat) l i t : l !! i = Some t → (f t <= tally f l)%nat.
Proof.
  revert i. induction l as [|x l IH]; intros [|i]; try done; cbn; [intros [= ->]; lia|]. intros Hi%IH. lia.
Qed.
Lemma tally_ext (f g : thread → nat) l : (∀ t, t ∈ l → f t = g t) → tally f l = tally g l.
Proof.
  induction l as [|t l IH]; intros Hfg; [done|]. cbn. rewrite Hfg by by left. rewrite IH; [done|].
  intros x Hx. apply Hfg. by right.
Qed.

(** Goroutines that [s.wg] counts: from [Add] to [Done]. *)
Definition live (t : thread) : nat :=
  match t with StartSpawn | LoopEntry | LoopSelect _ _ | LoopMaintain _ _ | LoopDefer => 1 | _ => 0 end.
