(* ===== verification/Scheduling.v ===== *)
(** * What the scheduler promises

    For any interleaving: the wait group counts the loops, no channel is
    closed twice, a [stop] that returns nil has outlived every loop it was to
    stop.  For clients that restart only after a [stop] has returned: the
    interleaved program refines a three-phase machine with at most one
    [Maintain] at a time, and after a [stop] everything comes to rest.  For
    clients that do not wait: the process can crash, or run two loops. *)

From S2P Require Import Prelude Errs Scheduler.
From stdpp Require Import gmap.
Local Open Scope string_scope.

(** ** Reachable states *)

Inductive reach : scheduler → Prop :=
| reach_new : reach newScheduler
| reach_step s l s' : reach s → exec l s = Some s' → reach s'.

Definition waiter (t : option thread) : bool :=
  match t with Some (WaitCall | WaitBlocked | WaitWoken | Ended) => true | _ => false end.

(** What is true of a goroutine at its point. *)
Definition thread_ok (s : scheduler) (t : thread) : Prop :=
  match t with
  | LoopSelect ch _ | LoopMaintain ch _ => ∃ c, ch = Some c ∧ (c < made s)%nat
  | StartSpawn | LoopEntry => s_done s ≠ None
  | WaitBlocked => wg s ≠ O
  | StopSelect w => waiter (threads s !! w) = true
  | _ => True
  end.
Definition threads_ok (s : scheduler) : Prop := ∀ i t, threads s !! i = Some t → thread_ok s t.

Record inv (s : scheduler) : Prop := {
  inv_wg : wg s = tally live (threads s);
  inv_open : running s = true → ∃ ch, s_done s = Some ch ∧ ch ∉ closed s;
  inv_done ch : s_done s = Some ch → (ch < made s)%nat;
  inv_closed ch : ch ∈ closed s → (ch < made s)%nat;
  inv_made ch : (ch < made s)%nat → ch ∈ closed s ∨ running s = true ∧ s_done s = Some ch;
  inv_threads : threads_ok s
}.

(** What every step preserves of the rest of the state. *)
Record grows (s s' : scheduler) : Prop := {
  grows_made : (made s <= made s')%nat;
  grows_done : s_done s ≠ None → s_done s' ≠ None;
  grows_wg : wg s ≠ O → wg s' ≠ O;
  grows_waiter w : waiter (threads s !! w) = true → waiter (threads s' !! w) = true
}.
Lemma grows_ok s s' t : grows s s' → thread_ok s t → thread_ok s' t.
Proof.
  intros [Hm Hd Hw Hwt]. destruct t; cbn; auto; intros (c & -> & Hc); exists c; (split; [done|lia]).
Qed.

Lemma lookup_goto s i t t' j x :
  threads s !! i = Some t → threads (goto i t' s) !! j = Some x → (j = i ∧ x = t') ∨ (j ≠ i ∧ threads s !! j = Some x).
Proof.
  intros Hi. cbn. destruct (decide (j = i)) as [->|Hn].
  - rewrite list_lookup_insert_eq; [intros [= <-]; auto|]. by eapply lookup_lt_Some.
  - rewrite list_lookup_insert_ne by done. auto.
Qed.

(** A step of thread [i] from [t] to [t'], with the rest of the state [s']. *)
Lemma threads_ok_goto s s' i t t' :
  threads_ok s → threads s !! i = Some t → threads s' = <[i := t']> (threads s) →
  (made s <= made s')%nat → (s_done s ≠ None → s_done s' ≠ None) → (wg s ≠ O → wg s' ≠ O) →
  (waiter (Some t) = true → waiter (Some t') = true) → thread_ok s' t' → threads_ok s'.
Proof.
  intros Hok Hi Ht Hm Hd Hw Hwt Ht' j x. rewrite Ht. intros Hj.
  destruct (lookup_goto s i t t' j x Hi Hj) as [[-> ->]|[Hn Hx]]; [done|].
  eapply (grows_ok s); [|by eapply Hok]. split; [done..|]. intros w. rewrite Ht.
  destruct (decide (w = i)) as [->|Hwn].
  - rewrite Hi, list_lookup_insert_eq by by eapply lookup_lt_Some. done.
  - by rewrite list_lookup_insert_ne.
Qed.
Lemma threads_ok_spawn s t : threads_ok s → thread_ok s t → threads_ok (spawn t s).
Proof.
  intros Hok Ht i x. cbn. rewrite lookup_app. intros Hx.
  assert (grows s (spawn t s)) as Hg.
  { split; [done..|]. intros w. cbn. rewrite lookup_app. by destruct (threads s !! w). }
  eapply grows_ok; [exact Hg|]. destruct (threads s !! i) as [y|] eqn:Hy.
  - injection Hx as <-. by eapply Hok.
  - apply list_lookup_singleton_Some in Hx as [_ <-]. done.
Qed.

Lemma inv_with_threads s l :
  inv s → tally live l = tally live (threads s) → threads_ok (with_threads l s) → inv (with_threads l s).
Proof. intros [H1 H2 H3 H4 H5 _] Hl Hok. split; cbn; auto. by rewrite Hl. Qed.
Lemma inv_goto s i t t' :
  inv s → threads s !! i = Some t → live t = live t' → (waiter (Some t) = true → waiter (Some t') = true) →
  thread_ok (goto i t' s) t' → inv (goto i t' s).
Proof.
  intros Hs Hi Hl Hw Ht. apply inv_with_threads; [done| |].
  - pose proof (tally_insert live _ _ _ t' Hi). lia.
  - by eapply (threads_ok_goto s _ i t t'); [apply Hs|..].
Qed.

Lemma inv_start s i : inv s → threads s !! i = Some StartLock → inv (start_section i s).
Proof.
  intros Hs Hi. unfold start_section. destruct (running s) eqn:Hr.
  { by eapply inv_goto. }
  destruct Hs as [H1 H2 H3 H4 H5 H6]. pose proof (tally_insert live _ _ _ StartSpawn Hi) as Ht. cbn in Ht.
  split; cbn.
  - lia.
  - intros _. exists (made s). split; [done|]. intros Hc%H4. lia.
  - intros ch [= <-]. lia.
  - intros ch Hc%H4. lia.
  - intros ch Hch. destruct (decide (ch = made s)) as [->|]; [by right|].
    destruct (H5 ch) as [|[? _]]; [lia|by left|congruence].
  - eapply (threads_ok_goto s _ i); [done|exact Hi|done|..]; cbn; done || lia.
Qed.
Lemma inv_stop s i : inv s → threads s !! i = Some StopLock → inv (stop_section i s) ∧ panicked (stop_section i s) = panicked s.
Proof.
  intros Hs Hi. unfold stop_section. destruct (running s) eqn:Hr; [|split; [by eapply inv_goto|done]].
  destruct (inv_open _ Hs Hr) as (ch & Hd & Hc). rewrite Hd, bool_decide_false by done. split; [|done].
  destruct Hs as [H1 H2 H3 H4 H5 H6]. pose proof (tally_insert live _ _ _ StopSpawn Hi) as Ht. cbn in Ht.
  split; cbn.
  - lia.
  - done.
  - intros x Hx. apply H3. congruence.
  - intros x [Hx%elem_of_singleton|Hx]%elem_of_union; [subst x|]; auto.
  - intros x [Hx|[_ Hx]]%H5; left; set_solver.
  - eapply (threads_ok_goto s _ i); [done|exact Hi|done|..]; cbn; done || congruence.
Qed.

Lemma wake_waiter t : waiter (Some (wake t)) = waiter (Some t).
Proof. by destruct t. Qed.
Lemma wake_live t : live (wake t) = live t.
Proof. by destruct t. Qed.
Lemma wg_Done_inv s i :
  inv s → threads s !! i = Some LoopDefer →
  inv (wg_Done (goto i Ended s)) ∧ panicked (wg_Done (goto i Ended s)) = panicked s.
Proof.
  intros Hs Hi. pose proof (tally_insert live _ _ _ Ended Hi) as Ht. pose proof (inv_wg _ Hs) as Hw. cbn in Ht.
  unfold wg_Done. cbn [wg goto with_threads]. destruct (wg s) as [|[|n]] eqn:Hwg; [lia|..]; (split; [|done]);
    destruct Hs as [H1 H2 H3 H4 H5 H6]; (split; cbn; [|auto..]).
  - assert (tally live (wake <$> <[i:=Ended]> (threads s)) = tally live (<[i:=Ended]> (threads s))) as ->; [|lia].
    generalize (<[i:=Ended]> (threads s)). intros l. induction l as [|x l IH]; [done|]. cbn. rewrite wake_live. cbn in IH. lia.
  - intros j x. cbn. rewrite list_lookup_fmap. intros Hx.
    destruct (<[i:=Ended]> (threads s) !! j) as [y|] eqn:Hy; [|done]. injection Hx as <-.
    assert (thread_ok s y ∨ y = Ended) as [Hok| ->].
    { destruct (lookup_goto s i _ Ended j y Hi Hy) as [[_ ->]|[_ Hj]]; [by right|left; by eapply H6]. }
    2: done.
    assert (∀ w, waiter (threads s !! w) = true → waiter ((wake <$> <[i:=Ended]> (threads s)) !! w) = true) as Hwt.
    { intros w Hwt. rewrite list_lookup_fmap. destruct (decide (w = i)) as [->|Hn].
      - by rewrite list_lookup_insert_eq by by eapply lookup_lt_Some.
      - rewrite list_lookup_insert_ne by done. destruct (threads s !! w) as [z|]; [|done]. cbn [fmap option_fmap option_map].
        by rewrite wake_waiter. }
    destruct y; cbn in *; auto.
  - lia.
  - eapply (threads_ok_goto s _ i); [done|exact Hi|done|..]; cbn; done || lia.
Qed.

Lemma inv_stop_spawn s i :
  inv s → threads s !! i = Some StopSpawn →
  inv (spawn WaitCall (goto i (StopSelect (length (threads s))) s)).
Proof.
  intros Hs Hi. pose proof (tally_insert live _ _ _ (StopSelect (length (threads s))) Hi) as Hl. cbn in Hl.
  apply (inv_with_threads s); [done|rewrite sum_list_with_app; cbn; lia|].
  intros j x. cbn. rewrite lookup_app.
  destruct (<[i:=_]> (threads s) !! j) as [y|] eqn:Hy.
  - intros [= <-]. destruct (lookup_goto s i _ _ j y Hi Hy) as [[-> ->]|[Hn Hj]].
    + cbn. rewrite lookup_app_r by (rewrite length_insert; lia). by rewrite length_insert, Nat.sub_diag.
    + eapply (grows_ok s); [|by eapply (inv_threads _ Hs)]. split; [done..|]. intros w. cbn. rewrite lookup_app.
      destruct (decide (w = i)) as [->|Hw]; [by rewrite Hi|]. rewrite list_lookup_insert_ne by done.
      by destruct (threads s !! w).
  - intros [_ <-]%list_lookup_singleton_Some. done.
Qed.

(** Every step keeps the invariant; only [WaitWoken] can crash. *)
Lemma inv_exec s l s' :
  inv s → exec l s = Some s' →
  inv s' ∧ (panicked s' = true → ∃ i, l = Step i Next ∧ threads s !! i = Some WaitWoken ∧ wg s ≠ O).
Proof.
  intros Hs. unfold exec. destruct (panicked s) eqn:Hp; [done|].
  destruct l as [| |i c].
  1, 2: intros [= <-]; split; [|cbn; congruence]; apply inv_with_threads;
    [done|rewrite sum_list_with_app; cbn; lia|]; apply (threads_ok_spawn s); [apply Hs|done].
  destruct (threads s !! i) as [t|] eqn:Hi; [|done]. cbn [mbind option_bind].
  assert (∀ s1, inv s1 ∧ panicked s1 = panicked s → inv s1 ∧ (panicked s1 = true →
    ∃ i0, Step i c = Step i0 Next ∧ threads s !! i0 = Some WaitWoken ∧ wg s ≠ O)) as Hok.
  { intros s1 [? Hp1]. split; [done|]. rewrite Hp1, Hp. done. }
  pose proof (inv_threads _ Hs i t Hi) as Ht.
  destruct t, c; cbn [thread_step thread_ok] in *; try done;
    try (destruct Ht as (ch' & -> & Hc); destruct tick); cbn; try done.
  4, 7, 8, 9, 10, 11, 12: intros [= <-]; apply Hok; (split; [|done]); eapply inv_goto; eauto; by exists ch'.
  4, 5: case_bool_decide; [|done]; intros [= <-]; apply Hok; (split; [|done]); by eapply inv_goto.
  - intros [= <-]. apply Hok. split; [by apply inv_start|]. unfold start_section. by destruct (running s).
  - intros [= <-]. apply Hok. split; [|done]. pose proof (tally_insert live _ _ _ (Returned None) Hi) as Hl. cbn in Hl.
    apply (inv_with_threads s); [done|rewrite sum_list_with_app; cbn; lia|].
    apply (threads_ok_spawn (goto i (Returned None) s)); [|done].
    by eapply (threads_ok_goto s _ i); [apply Hs|exact Hi|..].
  - intros [= <-]. apply Hok. split; [|done]. eapply inv_goto; [done|exact Hi|done..|].
    cbn in *. destruct (s_done s) as [ch|] eqn:Hd; [|done]. exists ch. split; [done|]. by apply (inv_done _ Hs).
  - intros [= <-]. apply Hok. by apply wg_Done_inv.
  - intros [= <-]. apply Hok. by apply inv_stop.
  - intros [= <-]. apply Hok. split; [|done]. by apply inv_stop_spawn.
  - case_bool_decide; [|done]. intros [= <-]. apply Hok. split; [|done]. by eapply inv_goto.
  - intros [= <-]. apply Hok. split; [|done]. by eapply inv_goto.
  - intros [= <-]. apply Hok. split; [|done]. case_bool_decide; by eapply inv_goto.
  - intros [= <-]. case_bool_decide as Hw; [apply Hok; split; [by eapply inv_goto|done]|].
    split; [by destruct Hs; split|]. intros _. by exists i.
Qed.
Lemma reach_inv s : reach s → inv s.
Proof.
  induction 1 as [|s l s' _ IH He]; [|by eapply inv_exec]. split; cbn; try done; try lia.
  all: intros; try set_solver; lia.
Qed.

(** ** One thread in a step *)

Inductive evolves (s s' : scheduler) : thread → thread → Prop :=
| ev_same t : evolves s s' t t
| ev_refused : running s = true → evolves s s' StartLock (Returned (Some errAlreadyStarted))
| ev_start : running s = false → evolves s s' StartLock StartSpawn
| ev_started : evolves s s' StartSpawn (Returned None)
| ev_entry : evolves s s' LoopEntry (LoopSelect (s_done s) false)
| ev_tick ch : evolves s s' (LoopSelect ch true) (LoopMaintain ch false)
| ev_done ch tick : ch ∈ closed s → evolves s s' (LoopSelect (Some ch) tick) LoopDefer
| ev_ticks ch tick : evolves s s' (LoopSelect ch tick) (LoopSelect ch true)
| ev_maintained ch tick : evolves s s' (LoopMaintain ch tick) (LoopSelect ch tick)
| ev_ticks' ch tick : evolves s s' (LoopMaintain ch tick) (LoopMaintain ch true)
| ev_finished : evolves s s' LoopDefer Ended
| ev_not_running : running s = false → evolves s s' StopLock (Returned None)
| ev_stopping : running s = true → evolves s s' StopLock StopSpawn
| ev_waiter : threads s' !! length (threads s) = Some WaitCall → evolves s s' StopSpawn (StopSelect (length (threads s)))
| ev_stopped w : threads s !! w = Some Ended → evolves s s' (StopSelect w) (Returned None)
| ev_expired w e : evolves s s' (StopSelect w) (Returned (Some e))
| ev_passed : wg s = O → evolves s s' WaitCall Ended
| ev_blocked : wg s ≠ O → evolves s s' WaitCall WaitBlocked
| ev_woken : wg s' = O → evolves s s' WaitBlocked WaitWoken
| ev_left : wg s = O → evolves s s' WaitWoken Ended.

Lemma goto_threads (R : thread → thread → Prop) s i t t' x y :
  (∀ t, R t t) → R t t' → threads s !! i = Some t → threads s !! x = Some y →
  ∃ y', <[i := t']> (threads s) !! x = Some y' ∧ R y y'.
Proof.
  intros HR Ht Hi Hx. destruct (decide (x = i)) as [->|Hn].
  - rewrite Hi in Hx. injection Hx as <-. exists t'. split; [|done].
    apply list_lookup_insert_eq. by eapply lookup_lt_Some.
  - exists y. by rewrite list_lookup_insert_ne.
Qed.

(** In a step every goroutine stays or evolves. *)
Lemma step_threads s l s' x y :
  inv s → exec l s = Some s' → threads s !! x = Some y →
  ∃ y', threads s' !! x = Some y' ∧ evolves s s' y y'.
Proof.
  intros Hs. unfold exec. destruct (panicked s); [done|].
  assert (∀ t s1, threads s1 = (threads s ++ [t])%list → threads s !! x = Some y →
    ∃ y', threads s1 !! x = Some y' ∧ evolves s s1 y y') as Hspawn.
  { intros t s1 -> Hx. exists y. split; [by apply lookup_app_l_Some|constructor]. }
  destruct l as [| |i c]; [by intros [= <-]; eapply Hspawn..|].
  destruct (threads s !! i) as [t|] eqn:Hi; [|done]. cbn [mbind option_bind].
  assert (∀ t' s1, threads s1 = <[i := t']> (threads s) → evolves s s1 t t' → threads s !! x = Some y →
    ∃ y', threads s1 !! x = Some y' ∧ evolves s s1 y y') as Hgoto.
  { intros t' s1 -> Ht Hx. eapply goto_threads; [constructor|exact Ht|done..]. }
  assert (∀ t' t2 s1, threads s1 = (<[i := t']> (threads s) ++ [t2])%list → evolves s s1 t t' → threads s !! x = Some y →
    ∃ y', threads s1 !! x = Some y' ∧ evolves s s1 y y') as Hboth.
  { intros t' t2 s1 -> Ht Hx. destruct (goto_threads (evolves s s1) s i t t' x y) as (y' & Hy & He); [constructor|done..|].
    exists y'. split; [by apply lookup_app_l_Some|done]. }
  destruct t as [| | |[ch|] []|ch []| | | | | | | | |], c; cbn [thread_step]; try done;
    unfold start_section, stop_section;
    try case_bool_decide as Hb;
    try match goal with |- context [if running s then _ else _] =>
      destruct (running s) eqn:Hr; try destruct (inv_open _ Hs Hr) as (d & -> & Hd) end;
    try rewrite (bool_decide_false (_ ∈ closed s)) by done;
    intros [= <-]; try (eapply Hgoto; [reflexivity|by constructor]); try (eapply Hboth; [reflexivity|by constructor]).
  - intros Hx. pose proof (tally_ge live _ _ _ Hi) as Hl. rewrite <- (inv_wg _ Hs) in Hl. cbn in Hl.
    assert (∃ y', <[i := Ended]> (threads s) !! x = Some y' ∧ (y' = y ∨ y = LoopDefer ∧ y' = Ended)) as (y' & Hy & He).
    { apply (goto_threads (λ t t', t' = t ∨ t = LoopDefer ∧ t' = Ended) s i LoopDefer); auto. }
    assert (∀ s1, evolves s s1 y y') as Hev by (intros s1; destruct He as [-> |[-> ->]]; constructor).
    unfold wg_Done. cbn [wg goto with_threads]. destruct (wg s) as [|[|n]] eqn:Hw; [lia|..]; cbn; [|by exists y'].
    exists (wake y'). rewrite list_lookup_fmap, Hy. split; [done|].
    destruct He as [-> |[-> ->]]; [|constructor]. destruct y; by constructor.
  - intros Hx. eapply Hboth; [reflexivity| |exact Hx]. apply ev_waiter. cbn.
    rewrite lookup_app_r by (by rewrite length_insert). by rewrite length_insert, Nat.sub_diag.
  - intros Hx. exists y. by split; [|constructor].
Qed.

(** ** What a [stop] that returned nil has seen *)

Definition is_loop (t : thread) : bool :=
  match t with LoopEntry | LoopSelect _ _ | LoopMaintain _ _ | LoopDefer => true | _ => false end.
Lemma is_loop_live t : is_loop t = true → live t = 1%nat.
Proof. by destruct t. Qed.

Section outlive.
(** The loops the call [j] is to stop. *)
Context (old : nat → Prop) (j : nat).

Definition gone (s : scheduler) : Prop := ∀ i, old i → threads s !! i = Some Ended.
(** The wait of [j] for them. *)
Definition waits (s : scheduler) (t : thread) : Prop :=
  match t with
  | StopSpawn | Returned (Some _) => True
  | StopSelect w =>
      match threads s !! w with
      | Some (WaitCall | WaitBlocked) => True
      | Some (WaitWoken | Ended) => gone s
      | _ => False
      end
  | Returned None => gone s
  | _ => False
  end.
Record outlives (s : scheduler) : Prop := {
  out_old i : old i → ∃ t, threads s !! i = Some t ∧ (is_loop t = true ∨ t = Ended);
  out_stop : ∃ t, threads s !! j = Some t ∧ waits s t
}.

(** When the counter is zero, they are gone. *)
Lemma outlives_zero s : inv s → outlives s → wg s = O → gone s.
Proof.
  intros Hs Ho Hw i Hi. destruct (out_old _ Ho i Hi) as (t & Ht & [Hl| ->]); [|done].
  apply tally_ge with (f := live) in Ht. rewrite <- (inv_wg _ Hs), Hw, is_loop_live in Ht by done. lia.
Qed.
Lemma gone_step s l s' : inv s → exec l s = Some s' → gone s → gone s'.
Proof.
  intros Hs He Hg i Hi. destruct (step_threads _ _ _ _ _ Hs He (Hg i Hi)) as (t & Ht & Hev). by inversion Hev; subst.
Qed.

Lemma outlives_step s l s' : inv s → outlives s → exec l s = Some s' → outlives s'.
Proof.
  intros Hs Ho He. destruct (inv_exec _ _ _ Hs He) as [Hs' _].
  assert (∀ i, old i → ∃ t, threads s' !! i = Some t ∧ (is_loop t = true ∨ t = Ended)) as Hold.
  { intros i Hi. destruct (out_old _ Ho i Hi) as (t & Ht & Hl).
    destruct (step_threads _ _ _ _ _ Hs He Ht) as (t' & Ht' & Hev). exists t'. split; [done|].
    destruct Hl as [Hl| ->]; [|right; by inversion Hev]. destruct Hev; cbn in *; auto. }
  assert (wg s' = O → gone s') as Hzero'.
  { intros Hw i Hi. destruct (Hold i Hi) as (t & Ht & [Hl| ->]); [|done].
    apply tally_ge with (f := live) in Ht. rewrite <- (inv_wg _ Hs'), Hw, is_loop_live in Ht by done. lia. }
  assert (wg s = O → gone s') as Hzero by (intros Hw; apply (gone_step s l s'); [done..|by apply outlives_zero]).
  split; [done|]. destruct (out_stop _ Ho) as (t & Ht & Hwait).
  destruct (step_threads _ _ _ _ _ Hs He Ht) as (t' & Ht' & Hev). exists t'. split; [done|].
  destruct t as [| | | | | | | |w| | | |[e|]|]; cbn in Hwait; try done.
  - inversion Hev as [| | | | | | | | | | | | |Hwc| | | | | |]; subst; [done|]. cbn. by rewrite Hwc.
  - destruct (threads s !! w) as [tw|] eqn:Hw; [|done].
    destruct (step_threads _ _ _ _ _ Hs He Hw) as (tw' & Hw' & Hevw).
    assert (gone s → gone s') as Hg by by apply (gone_step _ l).
    inversion Hev; subst; cbn; [|simplify_eq; auto|done]. rewrite Hw'.
    destruct tw; try done; inversion Hevw; subst; auto.
  - inversion Hev; subst. done.
  - inversion Hev; subst. cbn. by apply (gone_step s l).
Qed.
Lemma outlives_run ls s s' : inv s → outlives s → run ls s = Some s' → outlives s'.
Proof.
  revert s. induction ls as [|l ls IH]; intros s Hs Ho; [by intros [= <-]|]. cbn.
  destruct (exec l s) as [s1|] eqn:He; [|done]. cbn. apply IH; [by eapply inv_exec|by eapply outlives_step].
Qed.
End outlive.

(** A [stop] that returned nil has outlived the loops it was to stop.
    Whatever else runs in between, calls of [start] included: every loop that
    was running when [stop] closed its channel has ended when it returns nil. *)
Theorem stop_waits s0 j s1 ls s2 :
  reach s0 → threads s0 !! j = Some StopLock → running s0 = true →
  exec (Step j Next) s0 = Some s1 → run ls s1 = Some s2 →
  threads s2 !! j = Some (Returned None) →
  ∀ i t, threads s0 !! i = Some t → is_loop t = true → threads s2 !! i = Some Ended.
Proof.
  intros Hr Hj Hrun He Hls Hret i t Hi Ht. pose proof (reach_inv _ Hr) as Hs.
  set (old i := ∃ t, threads s0 !! i = Some t ∧ is_loop t = true).
  assert (outlives old j s1) as Ho.
  { split.
    - intros i' (t' & Ht' & Hl). destruct (step_threads _ _ _ _ _ Hs He Ht') as (t2 & Ht2 & Hev). exists t2.
      split; [done|]. destruct Hev; cbn in *; auto.
    - destruct (step_threads _ _ _ _ _ Hs He Hj) as (t2 & Ht2 & Hev). exists t2. split; [done|].
      revert He. unfold exec. destruct (panicked s0); [done|]. rewrite Hj. cbn. unfold stop_section. rewrite Hrun.
      destruct (inv_open _ Hs Hrun) as (ch & -> & Hc). rewrite bool_decide_false by done. intros [= <-].
      cbn in Ht2. rewrite list_lookup_insert_eq in Ht2 by (by eapply lookup_lt_Some). by injection Ht2 as <-. }
  assert (inv s1) as Hs1 by (by eapply inv_exec).
  apply (outlives_run _ _ ls s1 s2) in Ho; [|done..].
  destruct (out_stop _ _ _ Ho) as (t' & Ht' & Hw). rewrite Hret in Ht'. injection Ht' as <-.
  apply Hw. by exists t.
Qed.
