(* ===== verification/SchedulerSpec.v ===== *)
(** * The scheduler as a machine of three phases

    A client is orderly when it starts again only after every [stop] has
    returned and every goroutine it left has ended, as the documentation of
    [sync.WaitGroup] asks.  For orderly clients the scheduler refines [spec_step]:
    idle, active, or draining, with at most one [Maintain] at a time; no
    panic is reachable, and after a [stop] everything comes to rest. *)

From S2P Require Import Prelude Errs Scheduler Scheduling.
From stdpp Require Import gmap.
Local Open Scope string_scope.

(** ** Orderly clients *)

Definition in_progress (t : thread) : bool :=
  match t with StopSpawn | StopSelect _ | WaitCall | WaitBlocked | WaitWoken => true | _ => false end.
Definition quiescent (s : scheduler) : bool :=
  bool_decide (wg s = O) && forallb (λ t, negb (in_progress t)) (threads s).
(** [start] takes effect when the loop runs (and is refused) or all is quiet. *)
Definition orderly (l : label) (s : scheduler) : bool :=
  match l with
  | Step i Next =>
      match threads s !! i with Some StartLock => running s || quiescent s | _ => true end
  | _ => true
  end.
Inductive reach_orderly : scheduler → Prop :=
| orderly_new : reach_orderly newScheduler
| orderly_step s l s' : reach_orderly s → orderly l s = true → exec l s = Some s' → reach_orderly s'.

Definition calm_ok (s : scheduler) (t : thread) : Prop :=
  match t with
  | LoopSelect ch _ | LoopMaintain ch _ => ch = s_done s
  | LoopDefer | StopSpawn | StopSelect _ | WaitCall | WaitBlocked => running s = false
  | WaitWoken => running s = false ∧ wg s = O
  | _ => True
  end.
Record calm (s : scheduler) : Prop := {
  calm_inv : inv s;
  calm_alive : panicked s = false;
  calm_one : (wg s <= 1)%nat;
  calm_running : running s = true → wg s = 1%nat;
  calm_threads i t : threads s !! i = Some t → calm_ok s t
}.

Lemma quiescent_thread s i t :
  inv s → quiescent s = true → threads s !! i = Some t → live t = O ∧ in_progress t = false.
Proof.
  intros Hs [Hw%bool_decide_eq_true Hq]%andb_true_iff Hi. split.
  - pose proof (tally_ge live _ _ _ Hi) as Hl. rewrite <- (inv_wg _ Hs) in Hl. lia.
  - rewrite forallb_forall in Hq. apply negb_true_iff, Hq, list_elem_of_In. by eapply list_elem_of_lookup_2.
Qed.

(** Steps that change the threads only. *)
Lemma calm_goto s i t t' :
  calm s → threads s !! i = Some t → inv (goto i t' s) → calm_ok s t' → calm (goto i t' s).
Proof.
  intros [H1 H2 H3 H4 H5] Hi Hinv Ht. split; auto. intros j x Hj.
  destruct (lookup_goto s i t t' j x Hi Hj) as [[-> ->]|[_ Hx]]; [done|]. by apply (H5 j).
Qed.
Lemma calm_spawn s t : calm s → inv (spawn t s) → calm_ok s t → calm (spawn t s).
Proof.
  intros [H1 H2 H3 H4 H5] Hinv Ht. split; auto. intros j x. cbn. rewrite lookup_app. intros Hj.
  destruct (threads s !! j) as [y|] eqn:Hy; [injection Hj as <-; by apply (H5 j)|].
  by apply list_lookup_singleton_Some in Hj as [_ <-].
Qed.
Lemma calm_goto_spawn s i t t' t2 :
  calm s → threads s !! i = Some t → inv (spawn t2 (goto i t' s)) → calm_ok s t' → calm_ok s t2 →
  calm (spawn t2 (goto i t' s)).
Proof.
  intros [H1 H2 H3 H4 H5] Hi Hinv Ht Ht2. split; auto. intros j x. cbn. rewrite lookup_app. intros Hj.
  destruct (<[i:=t']> (threads s) !! j) as [y|] eqn:Hy.
  - injection Hj as <-. destruct (lookup_goto s i t t' j y Hi Hy) as [[-> ->]|[_ Hx]]; [done|]. by apply (H5 j).
  - by apply list_lookup_singleton_Some in Hj as [_ <-].
Qed.

Lemma calm_start s i :
  calm s → threads s !! i = Some StartLock → inv (start_section i s) → running s || quiescent s = true →
  calm (start_section i s).
Proof.
  unfold start_section. intros Hs Hi. destruct (running s) eqn:Hr; cbn [orb].
  { intros Hinv _. by eapply calm_goto. }
  intros Hinv Hq. pose proof Hq as [Hw%bool_decide_eq_true _]%andb_true_iff.
  split; cbn [panicked goto with_threads wg running]; [done|apply Hs|lia|lia|].
  intros j x Hj. destruct (lookup_goto s i _ StartSpawn j x Hi Hj) as [[-> ->]|[_ Hx]]; [done|].
  apply quiescent_thread in Hx as [Hl Hp]; [|apply Hs|done]. by destruct x.
Qed.
Lemma calm_stop s i :
  calm s → threads s !! i = Some StopLock → inv (stop_section i s) → calm (stop_section i s).
Proof.
  unfold stop_section. intros Hs Hi. destruct (running s) eqn:Hr; [|intros; by eapply calm_goto].
  destruct (inv_open _ (calm_inv _ Hs) Hr) as (ch & Hd & Hc). rewrite Hd, bool_decide_false by done. intros Hinv.
  split; cbn [panicked goto with_threads wg running]; [done|apply Hs|apply Hs|done|].
  intros j x Hj. destruct (lookup_goto s i _ StopSpawn j x Hi Hj) as [[-> ->]|[_ Hx]]; [done|].
  apply (calm_threads _ Hs) in Hx. destruct x; cbn in *; try done; try congruence. destruct Hx; congruence.
Qed.
Lemma calm_Done s i :
  calm s → threads s !! i = Some LoopDefer → inv (wg_Done (goto i Ended s)) → calm (wg_Done (goto i Ended s)).
Proof.
  unfold wg_Done. cbn [wg goto with_threads]. intros Hs Hi.
  pose proof (tally_ge live _ _ _ Hi) as Hl. rewrite <- (inv_wg _ (calm_inv _ Hs)) in Hl. cbn in Hl.
  pose proof (calm_one _ Hs) as Hone. destruct (wg s) as [|[|n]] eqn:Hw; [lia| |lia]. intros Hinv.
  pose proof (calm_threads _ Hs _ _ Hi) as Hr. cbn in Hr.
  split; cbn; [done|apply Hs|lia|by rewrite Hr|].
  intros j x. rewrite list_lookup_fmap. intros Hj.
  destruct (<[i:=Ended]> (threads s) !! j) as [y|] eqn:Hy; [|done]. injection Hj as <-.
  destruct (lookup_goto s i _ Ended j y Hi Hy) as [[-> ->]|[_ Hx]]; [done|].
  apply (calm_threads _ Hs) in Hx. destruct y; cbn in *; auto.
Qed.

Lemma calm_exec s l s' : calm s → orderly l s = true → exec l s = Some s' → calm s'.
Proof.
  intros Hs Ho He. destruct (inv_exec _ _ _ (calm_inv _ Hs) He) as [Hinv Hpan]. revert He Ho.
  unfold exec. rewrite (calm_alive _ Hs). destruct l as [| |i c].
  1, 2: intros [= <-] _; by apply calm_spawn.
  destruct (threads s !! i) as [t|] eqn:Hi; [|done]. cbn [mbind option_bind orderly].
  pose proof (calm_threads _ Hs _ _ Hi) as Ht. pose proof (inv_threads _ (calm_inv _ Hs) _ _ Hi) as Hok.
  destruct t as [| | |[ch|] []|ch []| | | | | | | | |], c; cbn [thread_step calm_ok] in *; try done;
    try case_bool_decide as Hb; try done; rewrite ?Hi; intros [= <-] Ho;
    try (eapply calm_goto; [done..|]; cbn; done || auto).
  - by apply calm_start.
  - by eapply calm_goto_spawn.
  - destruct (running s) eqn:Hr; [|done]. destruct (inv_open _ (calm_inv _ Hs) Hr) as (d & Hd & Hn). congruence.
  - destruct (running s) eqn:Hr; [|done]. destruct (inv_open _ (calm_inv _ Hs) Hr) as (d & Hd & Hn). congruence.
  - by apply calm_Done.
  - by apply calm_stop.
  - by eapply calm_goto_spawn.
  - by destruct Ht.
Qed.
Lemma reach_orderly_reach s : reach_orderly s → reach s.
Proof. induction 1; by econstructor. Qed.
Lemma reach_calm s : reach_orderly s → calm s.
Proof.
  induction 1 as [|s l s' _ IH Ho He]; [|by eapply calm_exec]. split; cbn; try done; try lia.
  apply reach_inv. constructor.
Qed.

(** ** The machine *)

(** The flag: a [Maintain] is under way. *)
Inductive phase := Idle | Active (maintaining : bool) | Draining (maintaining : bool).
Inductive event :=
| Started | Refused | Stopping | NotRunning      (* the critical sections of [start] and [stop] *)
| Maintaining | Maintained                       (* the loop *)
| Finished
| Stopped | GaveUp (e : error).                  (* [stop] returns nil, or its context's error *)

Inductive spec_step : phase → event → phase → Prop :=
| sp_start : spec_step Idle Started (Active false)
| sp_refuse b : spec_step (Active b) Refused (Active b)
| sp_stop b : spec_step (Active b) Stopping (Draining b)
| sp_not_running p : (∀ b, p ≠ Active b) → spec_step p NotRunning p
| sp_maintain : spec_step (Active false) Maintaining (Active true)
| sp_maintained : spec_step (Active true) Maintained (Active false)
| sp_late : spec_step (Draining false) Maintaining (Draining true)
| sp_late_done : spec_step (Draining true) Maintained (Draining false)
| sp_finish : spec_step (Draining false) Finished Idle
| sp_stopped : spec_step Idle Stopped Idle
| sp_gave_up p e : spec_step p (GaveUp e) p.

Definition maintains (t : thread) : nat := match t with LoopMaintain _ _ => 1 | _ => 0 end.
Definition abstract (s : scheduler) : phase :=
  let b := bool_decide (tally maintains (threads s) ≠ O) in
  if running s then Active b else if bool_decide (wg s = O) then Idle else Draining b.
(** What a step shows. *)
Definition observe (l : label) (s : scheduler) : option event :=
  match l with
  | Step i c =>
      match threads s !! i, c with
      | Some StartLock, Next => Some (if running s then Refused else Started)
      | Some StopLock, Next => Some (if running s then Stopping else NotRunning)
      | Some (LoopSelect _ _), TakeTick => Some Maintaining
      | Some (LoopMaintain _ _), Next => Some Maintained
      | Some LoopDefer, Next => Some Finished
      | Some (StopSelect _), TakeWait => Some Stopped
      | Some (StopSelect _), TakeCtx e => Some (GaveUp e)
      | _, _ => None
      end
  | _ => None
  end.

(** ** Simulation *)

Lemma tally_le (f g : thread → nat) l : (∀ t, (f t <= g t)%nat) → (tally f l <= tally g l)%nat.
Proof. intros Hfg. induction l as [|t l IH]; [done|]. cbn. specialize (Hfg t). lia. Qed.
Lemma maintains_live t : (maintains t <= live t)%nat.
Proof. destruct t; cbn; lia. Qed.

(** A live goroutine is the only one. *)
Lemma the_loop s i t :
  calm s → threads s !! i = Some t → live t = 1%nat → wg s = 1%nat ∧ tally maintains (threads s) = maintains t.
Proof.
  intros Hs Hi Hl. pose proof (tally_insert live _ _ _ Ended Hi) as H1.
  pose proof (tally_insert maintains _ _ _ Ended Hi) as H2. cbn in H1, H2.
  pose proof (tally_le maintains live (<[i:=Ended]> (threads s)) maintains_live) as H3.
  pose proof (inv_wg _ (calm_inv _ Hs)). pose proof (calm_one _ Hs). lia.
Qed.
Lemma no_loop s : calm s → wg s = O → tally maintains (threads s) = O.
Proof.
  intros Hs Hw. pose proof (tally_le maintains live (threads s) maintains_live).
  rewrite <- (inv_wg _ (calm_inv _ Hs)), Hw in H. lia.
Qed.

(** New goroutines, and the counter. *)
Lemma step_new s l s' x y :
  exec l s = Some s' → threads s !! x = None → threads s' !! x = Some y →
  match l with CallStart => y = StartLock | CallStop => y = StopLock | Step _ _ => y = LoopEntry ∨ y = WaitCall end.
Proof.
  intros He Hx. assert (∀ t, (threads s ++ [t])%list !! x = Some y → y = t) as Hspawn.
  { intros t. rewrite lookup_app, Hx. by intros [_ <-]%list_lookup_singleton_Some. }
  assert (∀ i t, <[i := t]> (threads s) !! x = None) as Hgoto.
  { intros i t. apply lookup_ge_None. rewrite length_insert. by apply lookup_ge_None. }
  assert (∀ i t t', (<[i := t]> (threads s) ++ [t'])%list !! x = Some y → y = t') as Hboth.
  { intros i t t'. rewrite lookup_app, Hgoto. by intros [_ <-]%list_lookup_singleton_Some. }
  revert He. unfold exec. destruct (panicked s); [done|]. destruct l as [| |i c].
  1, 2: by intros [= <-] Hy%Hspawn.
  destruct (threads s !! i) as [t|]; [|done]. cbn [mbind option_bind].
  destruct t as [| | |[ch|] []|ch []| | | | | | | | |], c; cbn [thread_step]; try done;
    unfold start_section, stop_section, wg_Done; repeat case_match; intros [= <-] Hy; cbn in Hy;
    try (rewrite Hgoto in Hy; done); try (apply Hboth in Hy; auto); try congruence.
  rewrite list_lookup_fmap, Hgoto in Hy. done.
Qed.
Lemma wg_step s l s' :
  exec l s = Some s' →
  (wg s' <= wg s)%nat ∨ ∃ i, l = Step i Next ∧ threads s !! i = Some StartLock ∧ running s = false.
Proof.
  unfold exec. destruct (panicked s); [done|]. destruct l as [| |i c]; [intros [= <-]; auto..|].
  destruct (threads s !! i) as [t|] eqn:Hi; [|done]. cbn [mbind option_bind].
  destruct t as [| | |[ch|] []|ch []| | | | | | | | |], c; cbn [thread_step]; try done;
    unfold start_section, stop_section, wg_Done; repeat case_match; intros [= <-]; cbn; eauto 10; left; cbn in *; lia.
Qed.

(** A waiter that is gone has seen the counter at zero, where it stays. *)
Lemma waiter_ended s : reach_orderly s → ∀ i w,
  threads s !! i = Some (StopSelect w) → threads s !! w = Some Ended → wg s = O.
Proof.
  induction 1 as [|s l s' Hr IH Ho He]; [done|]. intros i w Hi Hw. pose proof (reach_calm _ Hr) as Hs.
  destruct (threads s !! i) as [y|] eqn:Hy; [|by pose proof (step_new _ _ _ _ _ He Hy Hi) as Hn; destruct l; [..|destruct Hn]].
  destruct (step_threads _ _ _ _ _ (calm_inv _ Hs) He Hy) as (y' & Hy' & Hev). rewrite Hi in Hy'. injection Hy' as <-.
  assert (y = StopSelect w) as ->.
  { inversion Hev as [| | | | | | | | | | | | |Hwc| | | | | |]; subst; [done|]. congruence. }
  pose proof (inv_threads _ (calm_inv _ Hs) _ _ Hy) as Hwt. cbn in Hwt.
  destruct (threads s !! w) as [tw|] eqn:Htw; [|done].
  destruct (step_threads _ _ _ _ _ (calm_inv _ Hs) He Htw) as (tw' & Htw' & Hevw). rewrite Hw in Htw'. injection Htw' as <-.
  assert (wg s = O) as Hz.
  { inversion Hevw; subst; try done. by eapply IH. }
  destruct (wg_step _ _ _ He) as [|(k & -> & Hk & Hrun)]; [lia|]. exfalso. cbn in Ho. rewrite Hk, Hrun in Ho. cbn in Ho.
  by destruct (quiescent_thread _ _ _ (calm_inv _ Hs) Ho Hy).
Qed.

(** Steps that show nothing. *)
Lemma abstract_same s s' :
  running s' = running s → wg s' = wg s → tally maintains (threads s') = tally maintains (threads s) →
  abstract s' = abstract s.
Proof. unfold abstract. by intros -> -> ->. Qed.
Lemma abstract_goto s i t t' :
  threads s !! i = Some t → maintains t = maintains t' → abstract (goto i t' s) = abstract s.
Proof.
  intros Hi Ht. apply abstract_same; [done..|]. cbn. pose proof (tally_insert maintains _ _ _ t' Hi). lia.
Qed.
Lemma abstract_goto_spawn s i t t' t2 :
  threads s !! i = Some t → maintains t = maintains t' → maintains t2 = O →
  abstract (spawn t2 (goto i t' s)) = abstract s.
Proof.
  intros Hi Ht H2. apply abstract_same; [done..|]. cbn. pose proof (tally_insert maintains _ _ _ t' Hi).
  rewrite sum_list_with_app. cbn. lia.
Qed.
(** The phase of a state with a loop, and of one without. *)
Lemma abstract_loop s i t :
  calm s → threads s !! i = Some t → live t = 1%nat →
  abstract s = (if running s then Active else Draining) (bool_decide (maintains t ≠ O)).
Proof.
  intros Hs Hi Hl. destruct (the_loop _ _ _ Hs Hi Hl) as [Hw Hm]. unfold abstract. rewrite Hw, Hm. by destruct (running s).
Qed.
Lemma abstract_idle s : calm s → wg s = O → abstract s = Idle.
Proof.
  intros Hs Hw. unfold abstract. rewrite Hw. destruct (running s) eqn:Hr; [|done].
  apply (calm_running _ Hs) in Hr. congruence.
Qed.
Lemma goto_lookup s i t t' : threads s !! i = Some t → threads (goto i t' s) !! i = Some t'.
Proof. intros Hi. apply list_lookup_insert_eq. by eapply lookup_lt_Some. Qed.

Lemma abstract_active s b : abstract s = Active b → running s = true.
Proof. unfold abstract. destruct (running s); [done|]. by case_bool_decide. Qed.

Lemma maintain_refines s i t t' e :
  calm s → calm (goto i t' s) → threads s !! i = Some t → live t = 1%nat → live t' = 1%nat →
  spec_step ((if running s then Active else Draining) (bool_decide (maintains t ≠ O))) e
            ((if running s then Active else Draining) (bool_decide (maintains t' ≠ O))) →
  spec_step (abstract s) e (abstract (goto i t' s)).
Proof.
  intros Hs Hs' Hi Hl Hl'. rewrite (abstract_loop s i t) by done.
  rewrite (abstract_loop (goto i t' s) i t') by (done || by eapply goto_lookup). done.
Qed.
Lemma start_refines s i :
  calm s → calm (start_section i s) → threads s !! i = Some StartLock → orderly (Step i Next) s = true →
  spec_step (abstract s) (if running s then Refused else Started) (abstract (start_section i s)).
Proof.
  intros Hs Hs' Hi Ho. cbn in Ho. rewrite Hi in Ho. destruct (running s) eqn:Hr.
  - assert (abstract (start_section i s) = abstract s) as ->.
    { unfold start_section. rewrite Hr. by eapply abstract_goto. }
    unfold abstract. rewrite Hr. constructor.
  - cbn in Ho. pose proof Ho as [Hw%bool_decide_eq_true _]%andb_true_iff. rewrite (abstract_idle s) by done.
    assert (threads (start_section i s) !! i = Some StartSpawn) as Hi'.
    { unfold start_section. rewrite Hr. by eapply (goto_lookup (mkScheduler _ _ _ _ _ (threads s) _)). }
    rewrite (abstract_loop _ i StartSpawn) by done. unfold start_section. rewrite Hr. constructor.
Qed.
Lemma stop_refines s i :
  calm s → calm (stop_section i s) → threads s !! i = Some StopLock →
  spec_step (abstract s) (if running s then Stopping else NotRunning) (abstract (stop_section i s)).
Proof.
  intros Hs Hs' Hi. unfold stop_section. destruct (running s) eqn:Hr.
  - destruct (inv_open _ (calm_inv _ Hs) Hr) as (ch & -> & Hc). rewrite bool_decide_false by done.
    unfold abstract. rewrite Hr. cbn. rewrite (calm_running _ Hs Hr).
    pose proof (tally_insert maintains _ _ _ StopSpawn Hi) as Ht. cbn in Ht.
    replace (tally maintains (<[i:=StopSpawn]> (threads s))) with (tally maintains (threads s)) by lia. constructor.
  - erewrite abstract_goto by done. constructor. intros b Hb%abstract_active. congruence.
Qed.

(** C31: the scheduler refines the three-phase machine.  For orderly clients,
    whatever the interleaving of calls, loops and waiters: every step either
    shows nothing and leaves the phase, or is the step of the machine for
    what it shows.  So a loop runs exactly from a [start] that is not refused
    to the end of the drain a [stop] begins, one [Maintain] at a time; [stop]
    returns nil only when idle; nothing panics. *)
Theorem scheduler_refines s l s' :
  reach_orderly s → orderly l s = true → exec l s = Some s' →
  panicked s' = false ∧
  match observe l s with
  | None => abstract s' = abstract s
  | Some e => spec_step (abstract s) e (abstract s')
  end.
Proof.
  intros Hr Ho He. pose proof (reach_calm _ Hr) as Hs. pose proof (calm_exec _ _ _ Hs Ho He) as Hs'.
  split; [apply Hs'|]. revert He. unfold exec. rewrite (calm_alive _ Hs).
  destruct l as [| |i c]; cbn [observe].
  1, 2: intros [= <-]; apply abstract_same; [done..|]; cbn; rewrite sum_list_with_app; cbn; lia.
  destruct (threads s !! i) as [t|] eqn:Hi; [|done]. cbn [mbind option_bind].
  destruct t as [| | |[ch|] []|ch []| | | | | | | | |], c; cbn [thread_step]; try done;
    try case_bool_decide as Hb; try done; intros [= <-];
    try (by eapply abstract_goto); try (by eapply abstract_goto_spawn).
  - by apply start_refines.
  - eapply maintain_refines; [done..|]. destruct (running s); constructor.
  - eapply maintain_refines; [done..|]. destruct (running s); constructor.
  - eapply maintain_refines; [done..|]. destruct (running s); constructor.
  - eapply maintain_refines; [done..|]. destruct (running s); constructor.
  - pose proof (calm_threads _ Hs _ _ Hi) as Hrun. cbn in Hrun. rewrite (abstract_loop s i LoopDefer), Hrun by done.
    rewrite (abstract_idle (wg_Done _)); [constructor|done|]. destruct (the_loop _ _ _ Hs Hi) as [Hw _]; [done|].
    unfold wg_Done. cbn. by rewrite Hw.
  - by apply stop_refines.
  - erewrite abstract_goto by done. rewrite abstract_idle; [constructor|done|]. by eapply waiter_ended.
  - erewrite abstract_goto by done. constructor.
  - pose proof (calm_alive _ Hs') as Hp. done.
Qed.
