(* ===== verification/SchedulerRest.v ===== *)
(** * The scheduler at rest, and in trouble

    Once stopped, and not started again, the scheduler comes to rest: no
    goroutine is left, every call has returned.  A client that does not wait
    for [stop] can crash the process or be left with two loops. *)

From S2P Require Import Prelude Errs Scheduler Scheduling SchedulerSpec.
From stdpp Require Import gmap.
Local Open Scope string_scope.

(** ** Work left *)

Definition rank (t : thread) : nat :=
  match t with
  | StopLock => 6 | StopSpawn => 5 | StartSpawn => 4
  | LoopEntry => 3 | WaitCall => 3 | WaitBlocked => 2
  | LoopMaintain _ tick => if tick then 5 else 3
  | LoopSelect _ tick => if tick then 4 else 2
  | LoopDefer | StopSelect _ | WaitWoken => 1
  | StartLock | Returned _ | Ended => 0
  end.
Definition effort (s : scheduler) : nat := tally rank (threads s).

(** Stopped, with no call of [start] under way. *)
Record stopped (s : scheduler) : Prop := {
  stopped_calm : calm s;
  stopped_running : running s = false;
  stopped_calls i : threads s !! i ≠ Some StartLock
}.
Definition is_ticks (l : label) : bool := match l with Step _ Ticks => true | _ => false end.
Definition is_step (l : label) : bool := match l with Step _ _ => true | _ => false end.

Lemma effort_goto s i t t' :
  threads s !! i = Some t → (effort (goto i t' s) + rank t = effort s + rank t')%nat.
Proof. apply tally_insert. Qed.
Lemma effort_spawn s t : effort (spawn t s) = (effort s + rank t)%nat.
Proof. unfold effort. cbn. rewrite sum_list_with_app. cbn. lia. Qed.
Lemma effort_Done s : (effort (wg_Done s) <= effort s)%nat.
Proof.
  unfold effort, wg_Done. destruct (wg s) as [|[|n]]; cbn; [done| |done].
  apply tally_wake. intros t. destruct t; cbn; lia.
Qed.

(** A step of a goroutine takes work away, a tick adds at most two. *)
Lemma effort_step s i c s' :
  stopped s → exec (Step i c) s = Some s' →
  stopped s' ∧ (if is_ticks (Step i c) then effort s' <= effort s + 2 else effort s' < effort s)%nat.
Proof.
  intros [Hs Hr Hno] He.
  assert (orderly (Step i c) s = true) as Ho.
  { cbn. destruct c; try done. specialize (Hno i). destruct (threads s !! i) as [[]|]; done. }
  pose proof (calm_exec _ _ _ Hs Ho He) as Hs'.
  assert (∀ x, threads s' !! x ≠ Some StartLock) as Hno'.
  { intros x Hx. destruct (threads s !! x) as [y|] eqn:Hy.
    - destruct (step_threads _ _ _ _ _ (calm_inv _ Hs) He Hy) as (y' & Hy' & Hev). rewrite Hx in Hy'.
      injection Hy' as <-. inversion Hev; subst. by eapply Hno.
    - by destruct (step_new _ _ _ _ _ He Hy Hx). }
  enough (running s' = false ∧ if is_ticks (Step i c) then effort s' <= effort s + 2 else effort s' < effort s)%nat
    as [? ?] by (split; [by split|done]).
  revert He. unfold exec. rewrite (calm_alive _ Hs).
  destruct (threads s !! i) as [t|] eqn:Hi; [|done]. cbn [mbind option_bind].
  pose proof (λ t', effort_goto s i t t' Hi) as Hgo.
  assert (∀ t', (rank t' < rank t)%nat → (effort (goto i t' s) < effort s)%nat) as Hlow
    by (intros t' ?; specialize (Hgo t'); lia).
  assert (∀ t', (rank t' <= rank t + 2)%nat → (effort (goto i t' s) <= effort s + 2)%nat) as Htick
    by (intros t' ?; specialize (Hgo t'); lia).
  assert (∀ t' t2, (rank t' + rank t2 < rank t)%nat → (effort (spawn t2 (goto i t' s)) < effort s)%nat) as Hboth
    by (intros t' t2 ?; specialize (Hgo t'); rewrite effort_spawn; lia).
  destruct t as [| | |[ch|] []|ch []| | | | | | | | |], c; cbn [thread_step is_ticks]; try done;
    try case_bool_decide as Hb; try done; intros [= <-];
    try (split; [exact Hr|]; first [apply Hlow|apply Htick|apply Hboth]; cbn; lia).
  - by destruct (Hno i).
  - split; [by unfold wg_Done; cbn; repeat case_match|]. eapply Nat.le_lt_trans; [apply effort_Done|]. apply Hlow. cbn. lia.
  - unfold stop_section. rewrite Hr. split; [exact Hr|]. apply Hlow. cbn. lia.
  - by pose proof (calm_alive _ Hs').
Qed.

Lemma effort_run ls s s' :
  stopped s → forallb is_step ls = true → run ls s = Some s' →
  stopped s' ∧ (length (filter (λ l, is_ticks l = false) ls) + effort s'
                <= effort s + 2 * length (filter (λ l, is_ticks l = true) ls))%nat.
Proof.
  revert s. induction ls as [|l ls IH]; intros s Hs; [intros _ [= <-]; split; [done|cbn; lia]|].
  cbn [forallb]. rewrite andb_true_iff. intros [Hl Hls]. destruct l as [| |i c]; [done..|]. cbn [run].
  destruct (exec (Step i c) s) as [s1|] eqn:He; [|done]. cbn [mbind option_bind]. intros Hrun.
  destruct (effort_step _ _ _ _ Hs He) as [Hs1 Hef]. destruct (IH s1 Hs1 Hls Hrun) as [Hs' Hb]. split; [done|].
  rewrite !filter_cons. destruct (is_ticks (Step i c)); cbn [length]; repeat case_decide; cbn [length]; done || lia.
Qed.

(** ** Rest *)

Definition settled (t : thread) : bool := match t with Ended | Returned _ => true | _ => false end.
(** No goroutine is left; every call has returned. *)
Definition at_rest (s : scheduler) : Prop :=
  wg s = O ∧ ∀ i t, threads s !! i = Some t → settled t = true.
(** What a goroutine can do by itself. *)
Definition own (c : move) : bool := match c with Ticks | TakeCtx _ => false | _ => true end.

Lemma loop_moves s i t :
  stopped s → threads s !! i = Some t → live t = 1%nat → ∃ c s', own c = true ∧ exec (Step i c) s = Some s'.
Proof.
  intros [Hs Hr Hno] Hi Hl. unfold exec. rewrite (calm_alive _ Hs), Hi. cbn [mbind option_bind].
  pose proof (inv_threads _ (calm_inv _ Hs) _ _ Hi) as Hok.
  destruct t; try done; try (by exists Next; eexists); cbn in Hok.
  - destruct Hok as (c & -> & Hc). assert (c ∈ closed s) as Hin.
    { apply (inv_made _ (calm_inv _ Hs)) in Hc as [|[? _]]; [done|congruence]. }
    exists TakeDone. destruct tick; cbn; rewrite bool_decide_true by done; by eexists.
Qed.
Lemma some_loop s : inv s → wg s ≠ O → ∃ i t, threads s !! i = Some t ∧ live t = 1%nat.
Proof.
  intros Hs Hw. rewrite (inv_wg _ Hs) in Hw. induction (threads s) as [|t l IH]; [done|].
  cbn in Hw. destruct (live t) as [|n] eqn:Hl.
  - destruct IH as (i & t' & Hi & Hl'); [lia|]. by exists (S i), t'.
  - exists O, t. split; [done|]. by destruct t.
Qed.

Lemma thread_moves s i t :
  stopped s → threads s !! i = Some t → settled t = false →
  ∃ j c s', own c = true ∧ exec (Step j c) s = Some s'.
Proof.
  intros Hs Hi Ht. destruct (decide (live t = 1%nat)) as [Hl|Hl].
  { exists i. by eapply loop_moves. }
  pose proof (inv_threads _ (calm_inv _ (stopped_calm _ Hs)) _ _ Hi) as Hok.
  assert (∀ j x, threads s !! j = Some x → (x = StopLock ∨ x = StopSpawn ∨ x = WaitCall ∨ x = WaitWoken) →
    ∃ j c s', own c = true ∧ exec (Step j c) s = Some s') as Hnext.
  { intros j x Hj Hx. exists j, Next. unfold exec. rewrite (calm_alive _ (stopped_calm _ Hs)), Hj.
    cbn [mbind option_bind]. destruct Hx as [-> |[-> |[-> | ->]]]; by eexists. }
  assert (wg s ≠ O → ∃ j c s', own c = true ∧ exec (Step j c) s = Some s') as Hloop.
  { intros (j & x & Hj & Hx)%some_loop; [|apply Hs]. exists j. by eapply loop_moves. }
  destruct t as [| | | | | | | |w| | | | |]; try done; try (by eapply Hnext; eauto).
  - by destruct (stopped_calls _ Hs i).
  - cbn in Hok. destruct (threads s !! w) as [x|] eqn:Hx; [|done].
    destruct x; try done; [by eapply Hnext; eauto|apply Hloop; by apply (inv_threads _ (calm_inv _ (stopped_calm _ Hs)) _ _ Hx)
      |by eapply Hnext; eauto|].
    exists i, TakeWait. unfold exec. rewrite (calm_alive _ (stopped_calm _ Hs)), Hi. cbn. rewrite Hx. by eexists.
  - by apply Hloop.
Qed.

(** A stopped scheduler comes to rest.  From any state an orderly client can
    reach in which the loop was told to stop and no [start] is under way: the
    goroutines can take only so many steps (two more for each tick that comes
    in), and until no goroutine is left and every call of [start] and [stop]
    has returned one of them can take a step, whichever [Maintain] was
    interrupted and however many calls of [stop] wait, none of their contexts
    expiring. *)
Theorem stop_rests s ls s' :
  reach_orderly s → running s = false → (∀ i, threads s !! i ≠ Some StartLock) →
  forallb is_step ls = true → run ls s = Some s' →
  (length (filter (λ l, is_ticks l = false) ls) <= effort s + 2 * length (filter (λ l, is_ticks l = true) ls))%nat ∧
  (at_rest s' ∨ ∃ i c s'', own c = true ∧ exec (Step i c) s' = Some s'').
Proof.
  intros Hr Hrun Hno Hls He. destruct (effort_run ls s s') as [Hs' Hb]; [split; [by apply reach_calm|done..]|done..|].
  split; [lia|]. destruct (decide (Forall (λ t, settled t = true) (threads s'))) as [Hf|Hf].
  - left. rewrite Forall_lookup in Hf. split; [|exact Hf]. destruct (decide (wg s' = O)) as [|Hw]; [done|].
    destruct (some_loop s') as (i & t & Hi & Hl); [apply Hs'|done|]. specialize (Hf i t Hi). by destruct t.
  - right. apply not_Forall_Exists, Exists_exists in Hf as (t & (i & Hi)%list_elem_of_lookup & Ht); [|apply _].
    eapply (thread_moves s' i t); [exact Hs'|exact Hi|]. apply not_true_is_false. exact Ht.
Qed.

(** ** Witnesses *)

(** One [start], one tick, a [Maintain], a [stop], in the order of the
    threads: 0 the caller of [start], 1 the loop, 2 the caller of [stop], 3 its
    waiter. *)
Definition started : list label :=
  [CallStart; Step 0 Next; Step 0 Next; Step 1 Next; Step 1 Ticks; Step 1 TakeTick].
Definition stopping : list label := [CallStop; Step 2 Next; Step 2 Next; Step 3 Next].
Definition drained : list label := [Step 1 Next; Step 1 TakeDone; Step 1 Next].

Fixpoint run_orderly (ls : list label) (s : scheduler) : option scheduler :=
  match ls with
  | [] => Some s
  | l :: ls => if orderly l s then s' ← exec l s; run_orderly ls s' else None
  end.
Lemma run_orderly_reach ls s s' : reach_orderly s → run_orderly ls s = Some s' → reach_orderly s'.
Proof.
  revert s. induction ls as [|l ls IH]; intros s Hs; cbn; [by intros [= <-]|].
  destruct (orderly l s) eqn:Ho; [|done]. destruct (exec l s) as [s1|] eqn:He; [|done]. cbn.
  apply IH. by econstructor.
Qed.

Definition state_after (ls : list label) : scheduler := default newScheduler (run ls newScheduler).
Lemma reach_after ls : run_orderly ls newScheduler = Some (state_after ls) → reach_orderly (state_after ls).
Proof. apply run_orderly_reach. constructor. Qed.

Definition calling : scheduler := state_after (started ++ [CallStop]).
Lemma stop_waits_witness :
  threads (state_after (started ++ stopping ++ drained ++ [Step 3 Next; Step 2 TakeWait])) !! 1%nat = Some Ended.
Proof.
  apply (stop_waits calling 2 (state_after (started ++ [CallStop; Step 2 Next]))
           ([Step 2 Next; Step 3 Next] ++ drained ++ [Step 3 Next; Step 2 TakeWait])
           (state_after (started ++ stopping ++ drained ++ [Step 3 Next; Step 2 TakeWait])))
    with (i := 1%nat) (t := LoopMaintain (Some O) false); try (vm_compute; reflexivity).
  apply reach_orderly_reach, reach_after. vm_compute. reflexivity.
Defined.

Lemma scheduler_refines_witness :
  panicked (state_after (started ++ [CallStop; Step 2 Next])) = false ∧
  spec_step (Active true) Stopping (Draining true).
Proof.
  apply (scheduler_refines calling (Step 2 Next) (state_after (started ++ [CallStop; Step 2 Next]))).
  - apply reach_after. vm_compute. reflexivity.
  - vm_compute. reflexivity.
  - vm_compute. reflexivity.
Defined.

Lemma stop_rests_witness :
  let s := state_after (started ++ stopping) in
  let ls := (Step 1 Ticks :: drained ++ [Step 3 Next])%list in
  (length (filter (λ l, is_ticks l = false) ls) <= effort s + 2 * length (filter (λ l, is_ticks l = true) ls))%nat ∧
  (at_rest (state_after (started ++ stopping ++ ls)) ∨
   ∃ i c s'', own c = true ∧ exec (Step i c) (state_after (started ++ stopping ++ ls)) = Some s'').
Proof.
  intros s ls. apply (stop_rests s ls).
  - apply reach_after. vm_compute. reflexivity.
  - vm_compute. reflexivity.
  - intros i Hi. revert Hi. vm_compute. destruct i as [|[|[|[|i]]]]; done.
  - vm_compute. reflexivity.
  - vm_compute. reflexivity.
Defined.

(** ** Restarts that do not wait *)

(** A [stop] whose context expires during a [Maintain], then a [start]. *)
Definition restart_early : list label :=
  started ++ stopping ++ [Step 2 (TakeCtx DeadlineExceeded); Step 1 Next; Step 1 TakeDone; CallStart].

(** A restart after a timed-out [stop] can crash the process, and a restart
    during a [stop] can leave two loops.  The first [stop] returned its
    context's error, its waiter sleeps in [wg.Wait]; the loop ends and wakes
    it, the next [start] returns nil and adds to the wait group, and the waiter
    finds it in use: a panic that nothing recovers.  And if the first loop
    has not read [s.done] when [stop] closes it, the [start] that follows gives
    it a fresh channel: both loops run [Maintain], on a channel that only the
    next [stop] closes, and the first [stop] still waits. *)
Theorem restart_hazards :
  (∃ s, run (restart_early ++ [Step 1 Next; Step 4 Next; Step 4 Next; Step 3 Next]) newScheduler = Some s ∧
     threads s !! 4%nat = Some (Returned None) ∧ panicked s = true) ∧
  (∃ s, run ([CallStart; Step 0 Next; Step 0 Next; CallStop; Step 2 Next; Step 2 Next; Step 3 Next;
              CallStart; Step 4 Next; Step 4 Next; Step 1 Next; Step 5 Next;
              Step 1 Ticks; Step 5 Ticks; Step 1 TakeTick; Step 5 TakeTick]) newScheduler = Some s ∧
     threads s !! 1%nat = Some (LoopMaintain (Some 1%nat) false) ∧
     threads s !! 5%nat = Some (LoopMaintain (Some 1%nat) false) ∧
     threads s !! 2%nat = Some (StopSelect 3) ∧ threads s !! 3%nat = Some WaitBlocked ∧
     1%nat ∉ closed s).
Proof. split; eexists; (split; [vm_compute; reflexivity|]); by vm_compute. Qed.
