(* ===== verification/Maintainer.v ===== *)
(** * The maintenance loop ([internal/maintainer])

    One tick of the loop: [Maintain] walks the registered parents and, under
    the lock of each, ensures its partitions and sweeps the expired ones.  The
    registry, the provisioner, the retention and the locker are the interfaces
    the Go package declares; what it needs of them are the classes below.  The
    log lines are left out, their readings of the clock are not. *)

From S2P Require Import Prelude GoTime GoStrings Errs Naming Store World Logic Repo Provisioner Retention Registry.
Local Open Scope string_scope.
Local Open Scope Z_scope.

(** ** Interfaces *)

(** [ParentLister], [PartitionEnsurer], [RetentionSweeper] and [Locker].
    [TryLock] yields the release function when the lock is held. *)
Record Deps (C : Type) := mkDeps {
  lister_parents : M C (list ParentInfo.t);
  lister_tenants : ParentRef.t → M C (list TenantConfig.t);
  ensurer : ParentRef.t → option string → M C EnsureReport;
  sweeper : ParentRef.t → M C (SweepReport * option error);
  locker : string → string → M C (option (M C unit))
}.
Arguments mkDeps {C}. Arguments lister_parents {C}. Arguments lister_tenants {C}.
Arguments ensurer {C}. Arguments sweeper {C}. Arguments locker {C}.

(** ** Code *)

Inductive parentResult := parentResultProcessed | parentResultLocked | parentResultPanicked.

(** The counters of [Maintain]. *)
Record Counts := mkCounts { processed : Z; skipped : Z; panicked : Z }.

Definition count (result : parentResult) (c : Counts) : Counts :=
  match result with
  | parentResultLocked => mkCounts (processed c) (skipped c + 1) (panicked c)
  | parentResultProcessed => mkCounts (processed c + 1) (skipped c) (panicked c)
  | parentResultPanicked => mkCounts (processed c) (skipped c) (panicked c + 1)
  end.

Definition parentLabel (p : ParentInfo.t) : string :=
  ParentInfo.SchemaName p +:+ "." +:+ ParentInfo.TableName p.

Section maintainer.
Context {C : Type} {E : Env C}.

Definition ref_of (p : ParentInfo.t) : ParentRef.t :=
  ParentRef.mk (ParentInfo.SchemaName p) (ParentInfo.TableName p).

(** [EnsurePartitions] for the parent, or for each of its tenants; what it
    creates is counted, its errors are logged. *)
Definition add_report (created : Z * bool) (rep : EnsureReport) : Z * bool :=
  (created.1 + BoundedCreated rep, created.2 || DefaultCreated rep).
Definition ensure_for (deps : Deps C) (ref : ParentRef.t) (created : Z * bool) (tenant : option string)
    : M C (Z * bool) :=
  rep ← attempt (ensurer deps ref tenant);
  match rep with
  | Err _ => mret created
  | Ok rep => mret (add_report created rep)
  end.
Definition ensure_all (deps : Deps C) (p : ParentInfo.t) : M C (Z * bool) :=
  if bool_decide (ParentInfo.TenantColumn p = "") then ensure_for deps (ref_of p) (0, false) None
  else
    tenants ← attempt (lister_tenants deps (ref_of p));
    match tenants with
    | Err _ => mret (0, false)
    | Ok tenants =>
        foldM (λ created tn, ensure_for deps (ref_of p) created (Some (TenantConfig.TenantId tn)))
          (0, false) tenants
    end.

(** The step under the lock. *)
Definition process_locked (deps : Deps C) (p : ParentInfo.t) : M C parentResult :=
  ensure_all deps p ;;
  attempt (sweeper deps (ref_of p)) ;;
  Now ;;
  emit (Counter "partman.parents_processed_total" 1 ["parent"; parentLabel p]) ;;
  mret parentResultProcessed.

Definition processParent (deps : Deps C) (p : ParentInfo.t) : M C parentResult :=
  let label := parentLabel p in
  Now ;;
  recovering
    (emit (Counter "partman.parents_panicked_total" 1 ["parent"; label]) ;;
     mret parentResultPanicked)
    (r ← attempt (locker deps (ParentInfo.SchemaName p) (ParentInfo.TableName p));
     match r with
     | Err _ => mret parentResultLocked
     | Ok None =>
         emit (Counter "partman.lock_skipped_total" 1 ["parent"; label]) ;;
         mret parentResultLocked
     | Ok (Some release) => deferring release (process_locked deps p)
     end).

(** One round of the loop of [Maintain]. *)
Definition maintain_one (deps : Deps C) (c : Counts) (p : ParentInfo.t) : M C Counts :=
  canceled ← ctx_Err;
  match canceled with
  | Some e => fail e
  | None =>
      if negb (ParentInfo.AutomaticMaintenance p) then mret c
      else result ← processParent deps p; mret (count result c)
  end.

Definition Maintain (deps : Deps C) : M C unit :=
  Now ;;
  parents ← wrapping "maintainer: list parents: %w" (lister_parents deps);
  tickStart ← Now;
  foldM (maintain_one deps) (mkCounts 0 0 0) parents ;;
  now ← Now;
  emit (Counter "partman.maintenance_runs_total" 1 []) ;;
  emit (Histogram "partman.maintenance_duration_seconds" (Sub now tickStart) []).
End maintainer.
