(* ===== verification/Maintenance.v ===== *)
(** * What the maintenance loop promises

    One bad parent does not stop the loop; locks are released; a parent that
    opted out of maintenance keeps its partitions; the integrity of the
    metadata is kept.  Proved against the interfaces of [Maintainer], which
    the registry, the provisioner and the retention implement. *)

From S2P Require Import Prelude GoTime GoStrings Errs TimeFormat Naming Periods Store World Logic Repo Retry Scenario Provisioner Ensure Retention Sweep Registry Registration Removal Maintainer.
Local Open Scope string_scope.
Local Open Scope Z_scope.

(** ** Other parents are left alone *)

Section frames.
Context {C : Type} {E : Env C}.

(** The parents, the tenants and the partitions of [pid] stay as they are. *)
Definition frames (pid : string) (d d' : DB C) : Prop :=
  parent_tables (meta d') = parent_tables (meta d) ∧ tenants (meta d') = tenants (meta d) ∧
  filter (λ r, Partition.ParentTableID r = pid) (partitions (meta d')) =
  filter (λ r, Partition.ParentTableID r = pid) (partitions (meta d)).

#[export] Instance frames_preorder pid : PreOrder (frames pid).
Proof.
  split; [by intros d|]. intros d1 d2 d3 (H1 & H2 & H3) (H4 & H5 & H6).
  split_and!; congruence.
Qed.

(** [ref] names no parent with the id [pid]. *)
Definition foreign (ref : ParentRef.t) (pid : string) (m : Meta) : Prop :=
  ∀ prow, get_parent (ParentRef.SchemaName ref, ParentRef.TableName ref) m = Ok prow → Parent.ID prow ≠ pid.

(** What the maintainer needs of its provisioner, its retention, its locker
    and its registry. *)
Class Ensuring (e : ParentRef.t → option string → M C EnsureReport) : Prop := {
  ensuring_frames ref tenant pid w o w' :
    foreign ref pid (meta (db w)) → e ref tenant w = (o, w') → frames pid (db w) (db w');
  ensuring_meta ref tenant : Stable meta_steps (e ref tenant)
}.
Class Sweeping (s : ParentRef.t → M C (SweepReport * option error)) : Prop := {
  sweeping_frames ref pid w o w' :
    WF (meta (db w)) → foreign ref pid (meta (db w)) → s ref w = (o, w') → frames pid (db w) (db w');
  sweeping_meta ref : Stable meta_steps (s ref)
}.
Definition same_meta : relation (World C) := on_db (λ d d', meta d' = meta d).
Class Locking (l : string → string → M C (option (M C unit))) : Prop := {
  locking_lock schema table : Stable same_meta (l schema table);
  locking_release schema table w release w' :
    l schema table w = (Ret (Some release), w') → Stable same_meta release
}.
Class Listing (ps : M C (list ParentInfo.t)) (ts : ParentRef.t → M C (list TenantConfig.t)) : Prop := {
  listing_parents w o w' :
    ps w = (o, w') → db w' = db w ∧
    ∀ l, o = Ret l → l ≡ₚ parentInfoFromRow <$> parent_tables (meta (db w));
  listing_tenants ref : Stable later (ts ref)
}.

#[export] Instance same_meta_effect : Effect same_meta.
Proof. apply Effect_on_db. split; [by intros d|]. intros d1 d2 d3 H1 H2. congruence. Qed.

Lemma same_meta_frames pid w w' : same_meta w w' → on_db (frames pid) w w'.
Proof. intros H. unfold on_db, frames. by rewrite H. Qed.
Lemma same_meta_steps w w' : same_meta w w' → meta_steps w w'.
Proof. intros H. unfold meta_steps, on_db. rewrite H. apply rtc_refl. Qed.
End frames.

(** ** Isolation *)

Section isolation.
Context {C : Type} {E : Env C}.

Lemma ensure_for_never_fails deps ref created tenant (w : World C) e w' :
  ensure_for deps ref created tenant w ≠ (Fail e, w').
Proof.
  unfold ensure_for. intros [(r & w1 & _ & H)|[(e1 & H & _)|[_ H]]]%bind_inv; [by destruct r| |done].
  by apply attempt_inv in H as ([] & _ & ?).
Qed.
Lemma foldM_never_fails {S X} (f : S → X → M C S) l :
  (∀ s x w e w', f s x w ≠ (Fail e, w')) → ∀ s w e w', foldM f s l w ≠ (Fail e, w').
Proof.
  intros Hf. induction l as [|x l IH]; intros s w e w'; cbn; [done|].
  intros [(s' & w1 & _ & H)|[(e1 & H & _)|[_ H]]]%bind_inv; [by eapply IH|by eapply Hf|done].
Qed.
Lemma process_locked_never_fails deps p (w : World C) e w' :
  process_locked deps p w ≠ (Fail e, w').
Proof.
  unfold process_locked. intros [(r & w1 & _ & H)|[(e1 & H & _)|[_ H]]]%bind_inv; [| |done].
  - apply bind_inv in H as [(r1 & w2 & _ & H)|[(e1 & H & _)|[_ H]]]; [done| |done].
    by apply attempt_inv in H as ([] & _ & ?).
  - revert H. unfold ensure_all. case_bool_decide as Ht; [apply ensure_for_never_fails|].
    intros [(ts & w2 & _ & H)|[(e2 & H & _)|[_ H]]]%bind_inv; [| |done].
    + destruct ts as [ts|]; [|done]. revert H. apply foldM_never_fails.
      intros. apply ensure_for_never_fails.
    + by apply attempt_inv in H as ([] & _ & ?).
Qed.

(** C14: one parent cannot stop the loop, and a lock is never kept.  Whatever
    the registry, the provisioner, the retention and the locker do, errors
    and panics included, the step of a parent returns; the work is done
    under the lock only; once it is held, the release function runs last,
    also after a panic; and only a step in which neither panicked counts as
    processed. *)
Theorem processParent_isolated (deps : Deps C) p (w : World C) :
  ∃ result w', processParent deps p w = (Ret result, w') ∧
  let w0 := mkWorld (db w) (S (tick w)) (trace w) in
  match locker deps (ParentInfo.SchemaName p) (ParentInfo.TableName p) w0 with
  | (Ret (Some release), w1) =>
      ∃ o w2 o' w3, process_locked deps p w1 = (o, w2) ∧ release w2 = (o', w3) ∧ db w' = db w3 ∧
        (result = parentResultProcessed ↔ o = Ret parentResultProcessed ∧ o' ≠ Panic)
  | (_, w1) => db w' = db w1 ∧ result ≠ parentResultProcessed
  end.
Proof.
  unfold processParent. cbv zeta. rewrite bind_Now. set (w0 := mkWorld _ _ _). unfold recovering.
  destruct (locker _ _ _ w0) as [[[release|]|e|] w1] eqn:Hl.
  - rewrite (bind_Ret _ _ _ _ _ (attempt_Ret _ _ _ _ Hl)). unfold deferring.
    destruct (process_locked deps p w1) as [o w2] eqn:Hp. destruct (release w2) as [o' w3] eqn:Hr.
    assert (o = Panic ∨ o = Ret parentResultProcessed) as Ho.
    { destruct o as [r|e|]; [right|by apply process_locked_never_fails in Hp|by left].
      unfold process_locked in Hp.
      apply bind_inv in Hp as [(x & wx & _ & Hp)|[(? & _ & ?)|[_ ?]]]; [|done..].
      apply bind_inv in Hp as [(y & wy & _ & Hp)|[(? & _ & ?)|[_ ?]]]; [|done..].
      by injection Hp as <- _. }
    destruct Ho as [-> | ->], o'; (eexists _, _; split; [reflexivity|]);
      (do 4 eexists; split_and!; [reflexivity|exact Hr|done|]); naive_solver.
  - rewrite (bind_Ret _ _ _ _ _ (attempt_Ret _ _ _ _ Hl)). eexists _, _. split; [reflexivity|]. done.
  - rewrite (bind_Ret _ _ _ _ _ (attempt_Fail _ _ _ _ Hl)). eexists _, _. split; [reflexivity|]. done.
  - unfold attempt, mbind, M_bind. rewrite Hl. eexists _, _. split; [reflexivity|]. done.
Qed.
End isolation.

(** ** Opting out *)

Section maintenance.
Context {C : Type} {E : Env C} (deps : Deps C).
Context `{!Ensuring (ensurer deps)} `{!Sweeping (sweeper deps)} `{!Locking (locker deps)}.
Context `{!Listing (lister_parents deps) (lister_tenants deps)}.

(** A step of a parent moves the world by any [R] its parts move it by. *)
Lemma Stable_processParent (R : relation (World C)) `{!Effect R} p :
  (∀ tenant, Stable R (ensurer deps (ref_of p) tenant)) →
  Stable R (sweeper deps (ref_of p)) →
  (∀ w w', same_meta w w' → R w w') →
  Stable R (processParent deps p).
Proof.
  intros He Hs Hmeta. unfold processParent. cbv zeta.
  apply Stable_bind; [done|stable|intros _].
  apply Stable_recovering; [done|stable|].
  apply Stable_bind_run; [done| |].
  { apply Stable_attempt. eapply Stable_weaken; [apply locking_lock|exact Hmeta]. }
  intros w r w1 (o & Hl & Ho)%attempt_inv. destruct o as [[release|]|e|]; [..|done]; injection Ho as ->.
  2, 3: stable.
  apply Stable_deferring; [done| |].
  - eapply Stable_weaken; [by eapply locking_release|exact Hmeta].
  - unfold process_locked, ensure_all, ensure_for. stable; try done.
    all: eapply Stable_weaken; [apply listing_tenants|]; intros; by apply effect_later.
Qed.

Lemma Stable_maintain_one (R : relation (World C)) `{!Effect R} c p :
  (ParentInfo.AutomaticMaintenance p = true → Stable R (processParent deps p)) →
  Stable R (maintain_one deps c p).
Proof.
  intros Hp. unfold maintain_one. destruct (ParentInfo.AutomaticMaintenance p); cbn [negb]; stable.
  by apply Hp.
Qed.

(** What a tick does once the parents are listed. *)
Lemma Maintain_run (R : relation (World C)) `{!Effect R} w o w' :
  Maintain deps w = (o, w') →
  (∀ row c, row ∈ parent_tables (meta (db w)) → Stable R (maintain_one deps c (parentInfoFromRow row))) →
  ∃ w1, db w1 = db w ∧ R w1 w'.
Proof.
  unfold Maintain. rewrite bind_Now. set (w0 := mkWorld _ _ _). intros Hrun HR.
  apply bind_inv in Hrun as [(ps & w1 & Hps & Hrun)|[(e & Hps & _)|[Hps _]]];
    apply wrapping_inv in Hps as (op & Hps & Ho); apply listing_parents in Hps as [Hd Hps].
  2, 3: exists w'; split; [exact Hd|]; by apply effect_later.
  destruct op as [l|e|]; [|done..]. injection Ho as ->. specialize (Hps l eq_refl).
  exists w1. split; [exact Hd|]. revert Hrun.
  enough (Stable R (tickStart ← Now; foldM (maintain_one deps) (mkCounts 0 0 0) l ;;
    now ← Now; emit (Counter "partman.maintenance_runs_total" 1 []) ;;
    emit (Histogram "partman.maintenance_duration_seconds" (Sub now tickStart) []))) as Hs by apply Hs.
  stable. rename select (_ ∈ l) into Hin. rewrite Hps in Hin.
  apply list_elem_of_fmap in Hin as (row & -> & Hrow). by apply HR.
Qed.

(** A tick is a sequence of statements of the schema. *)
Lemma Maintain_meta w o w' : Maintain deps w = (o, w') → meta_steps w w'.
Proof.
  intros Hrun. destruct (Maintain_run meta_steps _ _ _ Hrun) as (w1 & Hd & Hs).
  - intros row c _. apply Stable_maintain_one; [apply _|]. intros _. apply Stable_processParent; [apply _|..].
    + intros. apply ensuring_meta.
    + apply sweeping_meta.
    + apply same_meta_steps.
  - unfold meta_steps, on_db in Hs |- *. by rewrite Hd in Hs.
Qed.

(** Maintenance keeps the integrity of the schema, whatever fails or panics on
    the way. *)
Theorem Maintain_keeps_WF w o w' :
  WF (meta (db w)) → Maintain deps w = (o, w') → WF (meta (db w')).
Proof. intros Hwf Hs%Maintain_meta. by eapply WF_statements. Qed.
(** Two rows of one table with the same name are the same parent. *)
Lemma get_parent_same m row prow :
  WF m → row ∈ parent_tables m → get_parent (Parent.key row) m = Ok prow → prow = row.
Proof.
  intros Hwf Hrow Hg. unfold get_parent in Hg. destruct (List.find _ _) eqn:Hf; [|done].
  injection Hg as ->. apply find_Some_elem in Hf as [Hin Hk%bool_decide_eq_true].
  by eapply (NoDup_fmap_elem_eq Parent.key); [apply wf_parent_keys| | |].
Qed.

(** C15: a parent that disabled automatic maintenance is left alone: a tick,
    whatever fails or panics in it, neither adds to its partition rows nor
    changes one of them. *)
Theorem Maintain_respects_opt_out row w o w' :
  WF (meta (db w)) → row ∈ parent_tables (meta (db w)) →
  Parent.AutomaticMaintenance row = false →
  Maintain deps w = (o, w') →
  filter (λ r, Partition.ParentTableID r = Parent.ID row) (partitions (meta (db w'))) =
  filter (λ r, Partition.ParentTableID r = Parent.ID row) (partitions (meta (db w))).
Proof.
  intros Hwf Hrow Hauto Hrun. set (pts := parent_tables (meta (db w))).
  set (Rd := λ d d' : DB C, parent_tables (meta d) = pts ∧ WF (meta d) →
               frames (Parent.ID row) d d' ∧ WF (meta d')).
  assert (PreOrder Rd) as Hpre.
  { split; [intros d [_ ?]; by split|]. intros d1 d2 d3 H1 H2 [Hd Hwf1].
    destruct (H1 (conj Hd Hwf1)) as [Hf Hwf2].
    destruct H2 as [Hf' ?]; [split; [|done]; destruct Hf as [Hf _]; congruence|].
    split; [by etrans|done]. }
  assert (∀ m m', rtc meta_step m m' → WF m → WF m') as Hkeep.
  { intros m m' Hs Hwf1. by eapply WF_statements. }
  destruct (Maintain_run (on_db Rd) _ _ _ Hrun) as (w1 & Hd & Hs).
  - intros row' c Hrow'. apply Stable_maintain_one; [apply _|]. intros Hauto'.
    assert (∀ m, parent_tables m = pts → foreign (ref_of (parentInfoFromRow row')) (Parent.ID row) m) as Hf.
    { intros m Hm prow Hg. assert (get_parent (Parent.key row') (meta (db w)) = Ok prow) as Hg'
        by (unfold get_parent in *; by rewrite Hm in Hg).
      apply get_parent_same in Hg' as ->; [|done..]. intros Hid.
      pose proof (NoDup_fmap_elem_eq _ _ _ _ (wf_parent_ids _ Hwf) Hrow' Hrow Hid) as ->.
      unfold parentInfoFromRow in Hauto'. cbn in Hauto'. congruence. }
    apply Stable_processParent; [apply _|..].
    + intros tenant wa oa wb Hab [Hm Hwfa]. split; [eapply ensuring_frames; [by apply Hf|exact Hab]|].
      eapply Hkeep; [eapply ensuring_meta, Hab|done].
    + intros wa oa wb Hab [Hm Hwfa]. split; [eapply sweeping_frames; [done|by apply Hf|exact Hab]|].
      eapply Hkeep; [eapply sweeping_meta, Hab|done].
    + intros wa wb Hab [_ Hwfa]. split; [by apply same_meta_frames|]. by rewrite Hab.
  - unfold on_db, Rd in Hs. rewrite Hd in Hs. by destruct Hs as [(_ & _ & ?) _].
Qed.
End maintenance.

(** ** How a tick ends *)

Section outcome.
Context {C : Type} {E : Env C}.

Lemma processParent_returns (deps : Deps C) p (w : World C) :
  ∃ result w', processParent deps p w = (Ret result, w').
Proof.
  unfold processParent. cbv zeta. rewrite bind_Now. set (w0 := mkWorld _ _ _). unfold recovering.
  match goal with |- context [match ?m w0 with _ => _ end] =>
    destruct (m w0) as [[r|e|] w1] eqn:Hrun; [by eexists _, _| |by eexists _, _]
  end. exfalso.
  apply bind_inv in Hrun as [(r & w2 & _ & Hrun)|[(e1 & (o1 & _ & Ho)%attempt_inv & _)|[_ ?]]];
    [|by destruct o1|done].
  destruct r as [[release|]|]; [|done..]. unfold deferring in Hrun.
  destruct (process_locked deps p w2) as [o w3] eqn:Hp. destruct (release w3) as [[] w4]; [..|done];
    injection Hrun as -> _; by apply process_locked_never_fails in Hp.
Qed.

Definition visited (c : Counts) : Z := processed c + skipped c + panicked c.

Lemma maintain_one_run deps c p (w : World C) o w' :
  maintain_one deps c p w = (o, w') →
  (∃ n e, env_ctx n = Some e ∧ o = Fail e) ∨
  ∃ c', o = Ret c' ∧
    visited c' = visited c + (if ParentInfo.AutomaticMaintenance p then 1 else 0).
Proof.
  unfold maintain_one. intros [(x & w1 & [= <- <-] & Hrun)|[(e & Hctx & _)|[Hctx _]]]%bind_inv; [|done..].
  destruct (env_ctx (tick w)) as [e|] eqn:Hc.
  - injection Hrun as <- <-. left. by exists (tick w), e.
  - right. destruct (ParentInfo.AutomaticMaintenance p); cbn [negb] in Hrun.
    + edestruct processParent_returns as (result & w2 & Hp). rewrite (bind_Ret _ _ _ _ _ Hp) in Hrun.
      injection Hrun as <- <-. eexists. split; [done|]. unfold visited. destruct result; cbn; lia.
    + injection Hrun as <- <-. exists c. split; [done|lia].
Qed.

(** The number of parents that did not opt out. *)
Definition automatic (l : list ParentInfo.t) : Z :=
  Z.of_nat (length (filter (λ p, ParentInfo.AutomaticMaintenance p = true) l)).

Lemma maintain_all_run deps l c (w : World C) o w' :
  foldM (maintain_one deps) c l w = (o, w') →
  (∃ n e, env_ctx n = Some e ∧ o = Fail e) ∨
  ∃ c', o = Ret c' ∧ visited c' = visited c + automatic l.
Proof.
  revert c w. induction l as [|p l IH]; intros c w; cbn.
  { intros [= <- <-]. right. exists c. split; [done|]. unfold automatic. cbn. lia. }
  intros [(c1 & w1 & H1 & H2)|[(e & H1 & ->)|[H1 ->]]]%bind_inv;
    apply maintain_one_run in H1 as [(n & e1 & Hc & ?)|(c2 & Hc2 & Hv)]; simplify_eq; [|by left; eauto].
  apply IH in H2 as [?|(c3 & -> & Hv3)]; [by left|right]. exists c3. split; [done|].
  rewrite Hv3, Hv. unfold automatic. rewrite filter_cons.
  destruct (ParentInfo.AutomaticMaintenance p); [rewrite decide_True by done|rewrite decide_False by done];
    cbn [length]; lia.
Qed.

(** C16: only the context and the listing stop a tick.  [Maintain] panics only
    if the listing panics; it fails only with the error of the listing or of
    the context; otherwise it returns, and has visited every parent that did
    not opt out exactly once. *)
Theorem Maintain_outcome (deps : Deps C) (w : World C) o w' :
  Maintain deps w = (o, w') →
  let w0 := mkWorld (db w) (S (tick w)) (trace w) in
  match lister_parents deps w0 with
  | (Panic, _) => o = Panic
  | (Fail e, _) => o = Fail (Wrap "maintainer: list parents: %w" e)
  | (Ret parents, w1) =>
      (∃ n e, env_ctx n = Some e ∧ o = Fail e) ∨
      (o = Ret tt ∧ ∃ c w2,
         foldM (maintain_one deps) (mkCounts 0 0 0) parents
           (mkWorld (db w1) (S (tick w1)) (trace w1)) = (Ret c, w2) ∧
         processed c + skipped c + panicked c = automatic parents)
  end.
Proof.
  unfold Maintain. rewrite bind_Now. cbv zeta. set (w0 := mkWorld _ _ _). intros Hrun.
  destruct (lister_parents deps w0) as [[ps|e|] w1] eqn:Hps.
  - rewrite (bind_Ret _ _ _ _ _ (wrapping_Ret _ _ _ _ _ Hps)), bind_Now in Hrun.
    destruct (foldM _ _ _ _) as [oc w2] eqn:Hfold.
    pose proof (maintain_all_run _ _ _ _ _ _ Hfold) as [(n & e & Hc & ->)|(c & -> & Hv)].
    + left. exists n, e. split; [done|]. unfold mbind, M_bind in Hrun. rewrite Hfold in Hrun.
      by injection Hrun as <- _.
    + right. rewrite (bind_Ret _ _ _ _ _ Hfold) in Hrun. injection Hrun as <- _. split; [done|].
      exists c, w2. split; [done|]. exact Hv.
  - unfold wrapping, mbind, M_bind in Hrun. rewrite Hps in Hrun. by injection Hrun as <- _.
  - unfold wrapping, mbind, M_bind in Hrun. rewrite Hps in Hrun. by injection Hrun as <- _.
Qed.
End outcome.

(** ** The implementations *)

Section implementations.
Context {C : Type} {E : Env C}.

Lemma only_adds_frames (P : Partition.row → Prop) pid (d d' : DB C) :
  (∀ r, P r → Partition.ParentTableID r ≠ pid) → only_adds P d d' → frames pid d d'.
Proof.
  intros HP (H1 & H2 & new & H3 & Hnew). split_and!; [done..|]. rewrite H3, filter_app.
  replace (filter _ new) with (@nil Partition.row); [by rewrite app_nil_r|].
  symmetry. clear H3. induction Hnew as [|r new Hr _ IH]; [done|]. rewrite filter_cons_False; [done|by apply HP].
Qed.
Lemma touches_frames Q D pid (d d' : DB C) :
  (∀ r, Q r → Partition.ParentTableID r ≠ pid) → touches Q D d d' → frames pid d d'.
Proof.
  intros HQ (H1 & H2 & H3 & _). split_and!; [done..|].
  induction H3 as [|r r' l l' Hr _ IH]; [done|]. rewrite !filter_cons, IH.
  destruct Hr as [->|(Hq & _ & ->)]; [done|]. apply HQ in Hq. by rewrite !decide_False.
Qed.

Lemma Stable_ensure_frames label prow tenant pid :
  Parent.ID prow ≠ pid → Stable (on_db (frames pid)) (ensure label prow tenant).
Proof.
  intros Hpid. set (P := λ r, Partition.ParentTableID r = Parent.ID prow).
  apply (Stable_weaken (on_db (only_adds P))).
  - unfold ensure, createInTx, create_bounded, create_default.
    stable; try apply Stable_Exec_adds; by apply Stable_UpsertPartition_adds.
  - intros w w'. apply only_adds_frames. by intros r ->.
Qed.

#[export] Instance EnsurePartitions_ensuring : Ensuring EnsurePartitions.
Proof.
  split; [|exact Stable_EnsurePartitions_meta]. intros ref tenant pid w o w' Hf Hrun.
  destruct (get_parent (ParentRef.SchemaName ref, ParentRef.TableName ref) (meta (db w))) as [prow|e] eqn:Hg.
  - destruct (EnsurePartitions_run ref tenant prow w o w' Hg Hrun)
      as [[[Hd _] _]|(label & w1 & o1 & w2 & [Hd1 _] & Hens & [Hd2 _] & _)]; [by rewrite Hd|].
    rewrite Hd2, <- Hd1. eapply Stable_ensure_frames; [by apply Hf|exact Hens].
  - unfold EnsurePartitions in Hrun. cbv zeta in Hrun. rewrite bind_Now in Hrun.
    apply deferring_inv in Hrun as (o1 & w1 & Hrun & [Hd _] & _); [|stable]. rewrite Hd.
    apply bind_inv in Hrun as [(r & w2 & Hget & Hrun)|[(e' & Hget & _)|[Hget _]]];
      apply get_parent_attempt in Hget as (Hd2 & r' & Hr & Hg'); try done.
    injection Hr as <-. cbn [db] in Hd2, Hg'. destruct r as [prow|e']; [congruence|].
    destruct (Is e' NoRows); injection Hrun as _ <-; by rewrite Hd2.
Qed.

(** [retention.Impl.Sweep] with the options of the maintainer: none. *)
Definition sweep_parent (hook : Hook C) (ref : ParentRef.t) : M C (SweepReport * option error) :=
  Sweep hook (ParentRef.SchemaName ref) (ParentRef.TableName ref) [].

Lemma sweep_parent_sweeping `{!EnvLaws E} hook : passive hook → Sweeping (sweep_parent hook).
Proof.
  intros Hh. split.
  - intros ref pid w o w' Hwf Hf Hrun. unfold sweep_parent in Hrun.
    apply Sweep_run in Hrun as [[[Hd _] _]|(prow & n & k & label & w1 & w2 & o1 & Hp & Hrun)].
    { by rewrite Hd. }
    cbv zeta in Hrun. destruct Hrun as ([Hd1 _] & Hrun & [Hd2 _] & _). rewrite Hd2.
    rewrite <- Hd1 in Hrun, Hwf |- *. eapply touches_frames; [|by eapply candidates_touches].
    intros r Hr. unfold expired in Hr. rewrite !andb_true_iff, bool_decide_eq_true in Hr.
    destruct Hr as [[[-> _] _] _]. by apply Hf.
  - intros ref. unfold sweep_parent. apply Stable_Sweep_meta. intros h r Hr.
    eapply Stable_weaken; [by apply (Hh h)|]. intros w w' [[Hd _] _].
    unfold meta_steps, on_db. rewrite Hd. apply rtc_refl.
Qed.

#[export] Instance registry_listing `{!EnvLaws E} : Listing ListParents ListTenants.
Proof.
  split.
  - intros w o w' Hrun. destruct o as [l|e|].
    + apply ListParents_run in Hrun as [Hd Hl]. split; [done|]. by intros l' [= <-].
    + split; [|done].
      assert (Stable later (ListParents (C := C))) as Hs by (unfold ListParents; stable).
      by apply Hs in Hrun as [? _].
    + split; [|done].
      assert (Stable later (ListParents (C := C))) as Hs by (unfold ListParents; stable).
      by apply Hs in Hrun as [? _].
  - intros ref. unfold ListTenants. stable.
Qed.
End implementations.

(** ** Examples *)

(** A lock that is always free. *)
Definition free_lock {C} (schema table : string) : M C (option (M C unit)) := mret (Some (mret tt)).
#[export] Instance free_lock_locking {C} {E : Env C} : Locking (C := C) free_lock.
Proof.
  split; [intros; apply Stable_ret, _|].
  intros schema table w release w' [= <- _]. apply Stable_ret, _.
Qed.

Definition composed {E : Env (list string)} : Deps (list string) :=
  mkDeps ListParents ListTenants EnsurePartitions (sweep_parent None) free_lock.
#[export] Instance composed_ensuring {E : Env (list string)} : Ensuring (ensurer composed).
Proof. apply EnsurePartitions_ensuring. Qed.
#[export] Instance composed_sweeping {E : Env (list string)} `{!EnvLaws E} : Sweeping (sweeper composed).
Proof. apply sweep_parent_sweeping, passive_None. Qed.
#[export] Instance composed_locking {E : Env (list string)} : Locking (locker composed).
Proof. apply free_lock_locking. Qed.
#[export] Instance composed_listing {E : Env (list string)} `{!EnvLaws E} :
  Listing (lister_parents composed) (lister_tenants composed).
Proof. apply registry_listing. Qed.

(** [app.events] opted out and keeps its April; [app.logs] did not. *)
Definition opted_out : Parent.row :=
  Parent.mk "P1" "app" "events" None "created_at" "range" "daily" thirty_days false None false 2.
Definition logs : Parent.row :=
  Parent.mk "P2" "app" "logs" None "created_at" "range" "daily" thirty_days false None true 2.
Definition maintained_world : World (list string) :=
  start (mkMeta [opted_out; logs] [] [april]).

Lemma maintained_world_WF : WF (meta (db maintained_world)).
Proof.
  split; cbn; try apply NoDup_singleton; try apply NoDup_nil_2; try (by apply (bool_decide_unpack _));
    intros ?; rewrite ?list_elem_of_singleton; try (by intros ?%not_elem_of_nil); by intros ->.
Qed.

(** A provisioner that panics. *)
Definition crashing {E : Env (list string)} : Deps (list string) :=
  mkDeps ListParents ListTenants (λ _ _, panic) (sweep_parent None) free_lock.

Lemma Maintain_keeps_WF_witness :
  WF (meta (db (Maintain (E := failing) (composed (E := failing)) maintained_world).2)).
Proof.
  eapply (Maintain_keeps_WF (E := failing) (composed (E := failing)) maintained_world).
  - exact maintained_world_WF.
  - apply surjective_pairing.
Defined.

Lemma Maintain_respects_opt_out_witness :
  let w' := (Maintain (E := calm noon) (composed (E := calm noon)) maintained_world).2 in
  length (partitions (meta (db w'))) = 5%nat ∧
  filter (λ r, Partition.ParentTableID r = "P1") (partitions (meta (db w'))) = [april].
Proof.
  intros w'. split; [vm_compute; reflexivity|].
  eapply (Maintain_respects_opt_out (E := calm noon) (composed (E := calm noon)) opted_out maintained_world).
  - exact maintained_world_WF.
  - by left.
  - reflexivity.
  - apply surjective_pairing.
Defined.

Lemma Maintain_outcome_witness :
  let r := Maintain (E := calm noon) (crashing (E := calm noon)) maintained_world in
  (∃ n e, env_ctx (Env := calm noon) n = Some e ∧ r.1 = Fail e) ∨
  (r.1 = Ret tt ∧ ∃ c w2,
     foldM (maintain_one (E := calm noon) (crashing (E := calm noon))) (mkCounts 0 0 0)
       (parentInfoFromRow <$> [opted_out; logs]) (mkWorld (db maintained_world) 3 []) = (Ret c, w2) ∧
     processed c + skipped c + panicked c = automatic (parentInfoFromRow <$> [opted_out; logs])).
Proof.
  intros r. apply (Maintain_outcome (E := calm noon) (crashing (E := calm noon)) maintained_world r.1 r.2).
  apply surjective_pairing.
Defined.
