(* ===== verification/Wiring.v ===== *)
(** * Construction ([options.go], [manager.go], the [New] of each component)

    [New] applies the options to a manager with defaults, checks what is
    required, and constructs the six components from it.  Pointers and
    interface values that may be nil are options; the pool, the clock, the
    hook, the logger and the meter themselves are opaque. *)

From S2P Require Import Prelude GoTime Errs.
Local Open Scope string_scope.
Local Open Scope Z_scope.

Section wiring.
Context {Pool Clock Hook Logger Meter Locker : Type}.
(** [slog.Default()] and the meter that drops everything. *)
Context (slog_Default : Logger) (noopMeter : Meter).

(** ** Configurations and components *)

Record provisioner_Config := mkProvisionerConfig
  { pc_Pool : option Pool; pc_Clock : option Clock; pc_Logger : option Logger; pc_Meter : option Meter }.
Record provisioner_Impl := mkProvisionerImpl
  { pv_pool : Pool; pv_clock : Clock; pv_logger : Logger; pv_meter : Meter }.
Record retention_Config := mkRetentionConfig
  { rc_Pool : option Pool; rc_Clock : option Clock; rc_Hook : option Hook; rc_Logger : option Logger; rc_Meter : option Meter }.
Record retention_Impl := mkRetentionImpl
  { rt_pool : Pool; rt_clock : Clock; rt_hook : option Hook; rt_logger : Logger; rt_meter : Meter }.
(** The dropper is the adapter around a retention. *)
Record registry_Config := mkRegistryConfig {
  gc_Pool : option Pool; gc_Provisioner : option provisioner_Impl; gc_Dropper : option retention_Impl;
  gc_Logger : option Logger
}.
Record registry_Impl := mkRegistryImpl
  { rg_pool : Pool; rg_provisioner : provisioner_Impl; rg_dropper : option retention_Impl; rg_logger : Logger }.
Record importer_Config := mkImporterConfig { ic_Pool : option Pool; ic_Logger : option Logger }.
Record importer_Impl := mkImporterImpl { im_pool : Pool; im_logger : Logger }.
Record drain_Config := mkDrainConfig
  { dc_Pool : option Pool; dc_Logger : option Logger; dc_Meter : option Meter; dc_Clock : option Clock }.
Record drain_Impl := mkDrainImpl { dr_pool : Pool; dr_logger : Logger; dr_meter : Meter; dr_clock : Clock }.
(** The lock of the pool, or one that a test injects. *)
Inductive locker_Impl := poolLocker (pool : Pool) (logger : Logger) | injected (l : Locker).
Record maintainer_Config := mkMaintainerConfig {
  mc_Registry : option registry_Impl; mc_Provisioner : option provisioner_Impl; mc_Retention : option retention_Impl;
  mc_Clock : option Clock; mc_Meter : option Meter; mc_Locker : option Locker; mc_Pool : option Pool;
  mc_Logger : option Logger; mc_Schedule : Z
}.
(** The scheduler it is given is that of [Scheduler]. *)
Record maintainer_Impl := mkMaintainerImpl {
  mt_registry : registry_Impl; mt_provisioner : provisioner_Impl; mt_retention : retention_Impl;
  mt_clock : Clock; mt_meter : Meter; mt_locker : locker_Impl; mt_pool : option Pool; mt_logger : Logger; mt_schedule : Z
}.

Definition require {A} (x : option A) (missing : string) : res A :=
  match x with Some a => Ok a | None => Err (Msg missing) end.

Definition provisioner_New (cfg : provisioner_Config) : res provisioner_Impl :=
  pool ← require (pc_Pool cfg) "provisioner: Config.Pool is required";
  clock ← require (pc_Clock cfg) "provisioner: Config.Clock is required";
  Ok (mkProvisionerImpl pool clock (default slog_Default (pc_Logger cfg)) (default noopMeter (pc_Meter cfg))).
Definition retention_New (cfg : retention_Config) : res retention_Impl :=
  pool ← require (rc_Pool cfg) "retention: Config.Pool is required";
  clock ← require (rc_Clock cfg) "retention: Config.Clock is required";
  Ok (mkRetentionImpl pool clock (rc_Hook cfg) (default slog_Default (rc_Logger cfg)) (default noopMeter (rc_Meter cfg))).
Definition registry_New (cfg : registry_Config) : res registry_Impl :=
  pool ← require (gc_Pool cfg) "registry: Config.Pool is required";
  provisioner ← require (gc_Provisioner cfg) "registry: Config.Provisioner is required";
  Ok (mkRegistryImpl pool provisioner (gc_Dropper cfg) (default slog_Default (gc_Logger cfg))).
Definition importer_New (cfg : importer_Config) : res importer_Impl :=
  pool ← require (ic_Pool cfg) "importer: Config.Pool is required";
  Ok (mkImporterImpl pool (default slog_Default (ic_Logger cfg))).
Definition drain_New (cfg : drain_Config) : res drain_Impl :=
  pool ← require (dc_Pool cfg) "drain: Config.Pool is required";
  clock ← require (dc_Clock cfg) "drain: Config.Clock is required";
  Ok (mkDrainImpl pool (default slog_Default (dc_Logger cfg)) (default noopMeter (dc_Meter cfg)) clock).

Definition defaultSchedule : Z := Hour.
Definition maintainer_New (cfg : maintainer_Config) : res maintainer_Impl :=
  registry ← require (mc_Registry cfg) "maintainer: Config.Registry is required";
  provisioner ← require (mc_Provisioner cfg) "maintainer: Config.Provisioner is required";
  retention ← require (mc_Retention cfg) "maintainer: Config.Retention is required";
  clock ← require (mc_Clock cfg) "maintainer: Config.Clock is required";
  let logger := default slog_Default (mc_Logger cfg) in
  let meter := default noopMeter (mc_Meter cfg) in
  let schedule := if mc_Schedule cfg <=? 0 then defaultSchedule else mc_Schedule cfg in
  locker ← match mc_Locker cfg with
           | Some l => Ok (injected l)
           | None =>
               pool ← require (mc_Pool cfg) "maintainer: Config.Pool is required when Config.Locker is nil";
               Ok (poolLocker pool logger)
           end;
  Ok (mkMaintainerImpl registry provisioner retention clock meter locker (mc_Pool cfg) logger schedule).

(** ** The manager *)

Record internals := mkInternals {
  in_provisioner : provisioner_Impl; in_retention : retention_Impl; in_registry : registry_Impl;
  in_maintainer : maintainer_Impl; in_importer : importer_Impl; in_drain : drain_Impl
}.
Record Manager := mkManager {
  clock : option Clock; meter : option Meter; mdb : option Pool; logger : option Logger;
  hook : option Hook; schedule : Z
}.

Definition Option : Type := Manager → res Manager.
Definition WithDB (p : option Pool) : Option := λ m,
  Ok (mkManager (clock m) (meter m) p (logger m) (hook m) (schedule m)).
Definition WithClock (c : option Clock) : Option := λ m,
  Ok (mkManager c (meter m) (mdb m) (logger m) (hook m) (schedule m)).
Definition WithLogger (l : option Logger) : Option := λ m,
  Ok (mkManager (clock m) (meter m) (mdb m) l (hook m) (schedule m)).
Definition WithHook (h : option Hook) : Option := λ m,
  Ok (mkManager (clock m) (meter m) (mdb m) (logger m) h (schedule m)).
Definition WithScheduleInterval (d : Z) : Option := λ m,
  Ok (mkManager (clock m) (meter m) (mdb m) (logger m) (hook m) d).
Definition WithMeter (mtr : option Meter) : Option := λ m,
  Ok (mkManager (clock m) mtr (mdb m) (logger m) (hook m) (schedule m)).

Definition wrap_err {A} (s : string) (r : res A) : res A :=
  match r with Ok a => Ok a | Err e => Err (Wrap s e) end.

Definition initInternals (m : Manager) : res internals :=
  prov ← wrap_err "gopartman: init provisioner: %w"
    (provisioner_New {| pc_Pool := mdb m; pc_Clock := clock m; pc_Logger := logger m; pc_Meter := meter m |});
  ret ← wrap_err "gopartman: init retention: %w"
    (retention_New {| rc_Pool := mdb m; rc_Clock := clock m; rc_Hook := hook m; rc_Logger := logger m; rc_Meter := meter m |});
  reg ← wrap_err "gopartman: init registry: %w"
    (registry_New {| gc_Pool := mdb m; gc_Provisioner := Some prov; gc_Dropper := Some ret; gc_Logger := logger m |});
  maint ← wrap_err "gopartman: init maintainer: %w"
    (maintainer_New {| mc_Pool := mdb m; mc_Registry := Some reg; mc_Provisioner := Some prov; mc_Retention := Some ret;
       mc_Clock := clock m; mc_Logger := logger m; mc_Meter := meter m; mc_Schedule := schedule m; mc_Locker := None |});
  imp ← wrap_err "gopartman: init importer: %w" (importer_New {| ic_Pool := mdb m; ic_Logger := logger m |});
  dr ← wrap_err "gopartman: init drain: %w"
    (drain_New {| dc_Pool := mdb m; dc_Clock := clock m; dc_Logger := logger m; dc_Meter := meter m |});
  Ok (mkInternals prov ret reg maint imp dr).

Fixpoint apply_options (opts : list Option) (m : Manager) : res Manager :=
  match opts with
  | [] => Ok m
  | opt :: opts => m ← opt m; apply_options opts m
  end.
Definition defaultScheduleInterval : Z := Hour.
Definition default_manager : Manager :=
  mkManager None (Some noopMeter) None (Some slog_Default) None defaultScheduleInterval.
Definition New (opts : list Option) : res (Manager * internals) :=
  m ← apply_options opts default_manager;
  match mdb m, clock m with
  | None, _ => Err (Msg "gopartman: WithDB is required")
  | _, None => Err (Msg "gopartman: WithClock is required")
  | Some _, Some _ => i ← initInternals m; Ok (m, i)
  end.

(** ** What a manager is *)

(** Every component has the pool [p], the clock [c], a logger and a meter; the
    registry provisions and drops through the components of the maintainer;
    the ticker's interval is positive. *)
Record wired_to (m : Manager) (p : Pool) (c : Clock) (i : internals) : Prop := {
  wired_provisioner : in_provisioner i = mkProvisionerImpl p c (default slog_Default (logger m)) (default noopMeter (meter m));
  wired_retention : in_retention i =
    mkRetentionImpl p c (hook m) (default slog_Default (logger m)) (default noopMeter (meter m));
  wired_registry : in_registry i =
    mkRegistryImpl p (in_provisioner i) (Some (in_retention i)) (default slog_Default (logger m));
  wired_maintainer : in_maintainer i =
    mkMaintainerImpl (in_registry i) (in_provisioner i) (in_retention i) c (default noopMeter (meter m))
      (poolLocker p (default slog_Default (logger m))) (Some p) (default slog_Default (logger m))
      (if schedule m <=? 0 then Hour else schedule m);
  wired_importer : in_importer i = mkImporterImpl p (default slog_Default (logger m));
  wired_drain : in_drain i = mkDrainImpl p (default slog_Default (logger m)) (default noopMeter (meter m)) c;
  wired_schedule : 0 < mt_schedule (in_maintainer i)
}.

(** C40: [New] on every branch.  It fails with the error of the first option that
    fails, then with the missing option, the pool before the clock; else it
    returns, no component refuses its configuration, and the manager is
    wired: one pool and one clock throughout, no nil logger or meter, and a
    positive interval whatever [WithScheduleInterval] said, so that
    [time.NewTicker] cannot panic. *)
Theorem New_spec (opts : list Option) :
  match apply_options opts default_manager with
  | Err e => New opts = Err e
  | Ok m =>
      match mdb m, clock m with
      | None, _ => New opts = Err (Msg "gopartman: WithDB is required")
      | Some _, None => New opts = Err (Msg "gopartman: WithClock is required")
      | Some p, Some c => ∃ i, New opts = Ok (m, i) ∧ wired_to m p c i
      end
  end.
Proof.
  unfold New. destruct (apply_options opts default_manager) as [m|e]; [|done]. cbn [mbind result_bind].
  destruct (mdb m) as [p|] eqn:Hp; [|done]. destruct (clock m) as [c|] eqn:Hc; [|done].
  unfold initInternals. rewrite Hp, Hc. cbn. eexists. split; [reflexivity|].
  split; try done. cbn. destruct (Z.leb_spec (schedule m) 0); [done|lia].
Qed.
End wiring.
