(* ===== verification/Importer.v ===== *)
(** * The importer ([internal/importer])

    [Import] reconciles the children PostgreSQL lists for a registered parent
    with the metadata: it parses the name and the bound expression of each
    child, records the ones that agree, and reports the others.  The reasons
    of the report keep their format strings, not the rendered values. *)

From S2P Require Import Prelude GoTime GoStrings Errs TimeFormat TimeParse Naming Store World Logic Repo Provisioner Retention.
Local Open Scope string_scope.
Local Open Scope Z_scope.

(** ** Bound expressions ([parse_bounds.go]) *)

Record parsedBound := mkParsedBound {
  BBounds : Bounds;
  BTenantId : string;
  BIsDefault : bool
}.

Definition pgTimestampLayouts : list layout :=
  [mkLayout " " ShortTZ; mkLayout " " NumTZ; mkLayout " " ShortTZ; mkLayout " " NumTZ;
   mkLayout "T" ColonTZ; mkLayout "T" ColonTZ].

(** The regular expression [^FOR VALUES FROM \((.* )\) TO \((.* )\)$] (without
    the blanks) and its two submatches: the first group is as long as possible,
    and neither holds a line break. *)
Definition no_newline (s : string) : bool := all_bytes (λ c, negb (code c =? 10)) s.
Definition boundedRE (expr : string) : option (string * string) :=
  rest ← CutPrefix "FOR VALUES FROM (" expr;
  '(body, tail) ← CutLast ")" rest;
  '(from, to) ← CutLastString ") TO (" body;
  if bool_decide (tail = "") && no_newline body then Some (from, to) else None.

Definition quote : ascii := "'".

(** The loop of [splitTuple] from the byte [body[i]], with its variables. *)
Fixpoint splitTuple_loop (body cur : string) (inQuote : bool) (parts : list string) : res (list string) :=
  match body with
  | "" =>
      if inQuote then Err (Msg "unterminated quoted literal in %q")
      else
        let parts := (parts ++ [TrimSpace cur])%list in
        if bool_decide ("" ∈ parts) then Err (Msg "empty tuple element in %q") else Ok parts
  | String c rest =>
      if Ascii.eqb c quote then
        match inQuote, rest with
        | true, String d rest' =>
            if Ascii.eqb d quote then splitTuple_loop rest' (cur +:+ "'") true parts
            else splitTuple_loop rest (cur +:+ "'") false parts
        | _, _ => splitTuple_loop rest (cur +:+ "'") (negb inQuote) parts
        end
      else if Ascii.eqb c "," && negb inQuote
      then splitTuple_loop rest "" inQuote (parts ++ [TrimSpace cur])%list
      else splitTuple_loop rest (cur +:+ String c "") inQuote parts
  end.
Definition splitTuple (body : string) : res (list string) := splitTuple_loop body "" false [].

Definition stripCast (v : string) : string :=
  match CutLastString "::" v with
  | Some (a, _) => if bool_decide (a = "") then v else a
  | None => v
  end.

Definition unquote (v : string) : res string :=
  let v := stripCast v in
  let bad := Err (Msg "value %q is not a single-quoted literal") in
  match v with
  | String q r =>
      if Ascii.eqb q quote then
        match CutLast quote r with
        | Some (inner, "") => Ok (ReplaceAll inner "''" "'")
        | _ => bad
        end
      else bad
  | "" => bad
  end.

Definition parsePGTimestamp (v : string) : res Time :=
  let raw := match unquote v with Ok raw => raw | Err _ => stripCast v end in
  let fix try_layouts (ls : list layout) : res Time :=
    match ls with
    | [] => Err (Msg "timestamp %q does not match any known PG layout")
    | l :: ls => match ParseUTC l raw with Ok t => Ok t | Err _ => try_layouts ls end
    end in
  try_layouts pgTimestampLayouts.

Definition parseBoundExpr (expr : string) : res parsedBound :=
  let expr := TrimSpace expr in
  if bool_decide (expr = "DEFAULT") then Ok (mkParsedBound zero_Bounds "" true)
  else
    match boundedRE expr with
    | None => Err (Msg "bound expression %q: unrecognized shape")
    | Some (from, to) =>
        fromParts ← wrap "bound FROM: %w" (splitTuple from);
        toParts ← wrap "bound TO: %w" (splitTuple to);
        if negb (length fromParts =? length toParts)%nat then
          Err (Msg "bound FROM has %d parts, TO has %d")
        else
          match fromParts, toParts with
          | [f], [t] =>
              fromTS ← wrap "bound FROM timestamp: %w" (parsePGTimestamp f);
              toTS ← wrap "bound TO timestamp: %w" (parsePGTimestamp t);
              Ok (mkParsedBound (mkBounds fromTS toTS) "" false)
          | [fTenant; f], [tTenant; t] =>
              fromTenant ← wrap "bound FROM tenant: %w" (unquote fTenant);
              toTenant ← wrap "bound TO tenant: %w" (unquote tTenant);
              if negb (bool_decide (fromTenant = toTenant)) then
                Err (Msg "bound tenant mismatch between FROM (%q) and TO (%q)")
              else
                fromTS ← wrap "bound FROM timestamp: %w" (parsePGTimestamp f);
                toTS ← wrap "bound TO timestamp: %w" (parsePGTimestamp t);
                Ok (mkParsedBound (mkBounds fromTS toTS) (ToUpper fromTenant) false)
          | _, _ => Err (Msg "bound tuple has %d parts; expected 1 or 2")
          end
    end.

(** ** Intervals ([interval.go]) *)

Inductive intervalKind := intervalUnknown | intervalHourly | intervalDaily | intervalWeekly | intervalMonthly.

Definition intervalKindFromLabel (label : string) : res intervalKind :=
  if bool_decide (label = "hourly") then Ok intervalHourly
  else if bool_decide (label = "daily") then Ok intervalDaily
  else if bool_decide (label = "weekly") then Ok intervalWeekly
  else if bool_decide (label = "monthly") then Ok intervalMonthly
  else Err (Msg "importer: unknown partition_interval label %q").

Definition intervalMatches (k : intervalKind) (b : Bounds) : bool :=
  match k with
  | intervalHourly => Sub (To b) (From b) =? PartitionHourInterval
  | intervalDaily => Sub (To b) (From b) =? PartitionDayInterval
  | intervalWeekly => Sub (To b) (From b) =? PartitionWeekInterval
  | intervalMonthly => Equal (AddDate (From b) 0 1 0) (To b)
  | intervalUnknown => false
  end.

(** ** Reports ([types.go]) *)

Record DriftedPartition := mkDrifted {
  DName : string; NameBounds : Bounds; ActualBound : string; DReason : string
}.
(** The reason is its text and the error that follows it. *)
Record SkippedPartition := mkSkipped { SName : string; SReason : string; SCause : error }.
Record ReconcileReport := mkReconcileReport {
  Imported : list PartitionRef;
  Drifted : list DriftedPartition;
  Orphaned : list PartitionRef;
  SkippedChildren : list SkippedPartition
}.
Definition empty_reconcile : ReconcileReport := mkReconcileReport [] [] [] [].

Definition add_imported (x : PartitionRef) (r : ReconcileReport) : ReconcileReport :=
  mkReconcileReport (Imported r ++ [x]) (Drifted r) (Orphaned r) (SkippedChildren r).
Definition add_drifted (x : DriftedPartition) (r : ReconcileReport) : ReconcileReport :=
  mkReconcileReport (Imported r) (Drifted r ++ [x]) (Orphaned r) (SkippedChildren r).
Definition add_skipped_child (x : SkippedPartition) (r : ReconcileReport) : ReconcileReport :=
  mkReconcileReport (Imported r) (Drifted r) (Orphaned r) (SkippedChildren r ++ [x]).
Definition with_orphans (l : list PartitionRef) (r : ReconcileReport) : ReconcileReport :=
  mkReconcileReport (Imported r) (Drifted r) (Orphaned r ++ l) (SkippedChildren r).

(** ** The import ([importer.go]) *)

Record pgChild := mkPgChild { CSchemaName : string; Relname : string; BoundExpr : string }.
Definition fq (c : pgChild) : string := CSchemaName c +:+ "." +:+ Relname c.

(** The texts of [compareNameAndBound]; [""] means aligned. *)
Definition compareNameAndBound (name : TableName) (bound : parsedBound) : string :=
  if negb (eqb (Naming.IsDefault name) (BIsDefault bound)) then
    if Naming.IsDefault name then "name says DEFAULT but bound is a range"
    else "name says range but bound is DEFAULT"
  else if Naming.IsDefault name then ""
  else if negb (bool_decide (ToUpper (Naming.TenantId name) = BTenantId bound)) then
    "tenant mismatch: name=%q, bound=%q"
  else if negb (Equal (From (TBounds name)) (UTC (From (BBounds bound)))) then
    "bounds.From mismatch: name=%s, bound=%s"
  else "".

Definition imported_row (prow : Parent.row) (id name : string) (bound : parsedBound) : Partition.row :=
  if BIsDefault bound then
    Partition.mk id name (Parent.ID prow) None (Parent.PartitionBy prow) (Parent.PartitionType prow)
      zero_Time zero_Time true active
  else
    Partition.mk id name (Parent.ID prow)
      (if bool_decide (BTenantId bound = "") then None else Some (BTenantId bound))
      (Parent.PartitionBy prow) (Parent.PartitionType prow)
      (From (BBounds bound)) (To (BBounds bound)) false active.

Definition buildRef (name : TableName) (bound : parsedBound) : PartitionRef :=
  mkPartitionRef (if BIsDefault bound then zero_Bounds else BBounds bound)
    (Naming.SchemaName name) (Naming.ParentName name) (BTenantId bound) (BIsDefault bound).

Definition refFromMetadata (ep : Partition.row) : res PartitionRef :=
  tn ← Parse (Partition.Name ep);
  Ok (mkPartitionRef
        (if Partition.IsDefault ep then zero_Bounds
         else mkBounds (Partition.BoundsFrom ep) (Partition.BoundsTo ep))
        (Naming.SchemaName tn) (Naming.ParentName tn) (default "" (Partition.TenantID ep))
        (Partition.IsDefault ep)).

(** The pre-flight pass over the children. *)
Fixpoint preflight (k : intervalKind) (children : list pgChild) : res unit :=
  match children with
  | [] => Ok tt
  | c :: children =>
      match parseBoundExpr (BoundExpr c) with
      | Err _ => preflight k children
      | Ok pb =>
          if BIsDefault pb then preflight k children
          else if negb (intervalMatches k (BBounds pb)) then
            Err (Wrap "%w: child %s has bound %s but parent %s.%s is %s" (Sentinel ErrIntervalMismatch))
          else preflight k children
      end
  end.

(** Metadata rows whose table PostgreSQL does not list. *)
Definition orphans (seen : list string) (existing : list Partition.row) : list PartitionRef :=
  (λ ep, match refFromMetadata ep with
         | Ok ref => ref
         | Err _ => mkPartitionRef zero_Bounds "" (Partition.Name ep) "" false
         end) <$> filter (λ ep, Partition.Name ep ∉ seen) existing.

(** The query of [listChildrenFromPG], up to white space, and its scan. *)
Definition children_query : string :=
  "SELECT n.nspname, c.relname, pg_get_expr(c.relpartbound, c.oid) AS bound_expr FROM pg_inherits i JOIN pg_class c ON c.oid = i.inhrelid JOIN pg_namespace n ON n.oid = c.relnamespace WHERE i.inhparent = to_regclass($1) ORDER BY c.relname".
Fixpoint scan_children (rows : list (list value)) : res (list pgChild) :=
  match rows with
  | [] => Ok []
  | [VText schema; VText relname; VText expr] :: rows =>
      cs ← scan_children rows; Ok (mkPgChild schema relname expr :: cs)
  | _ :: _ => Err (Wrap "importer: scan child: %w" (Msg "cannot scan"))
  end.

Section importer.
Context {C : Type} {E : Env C}.

Definition listChildrenFromPG (parentSchema parentTable : string) : M C (list pgChild) :=
  rows ← wrapping "importer: list children of %s: %w"
           (QueryRows children_query [VText (parentSchema +:+ "." +:+ parentTable)]);
  lift (scan_children rows).

Definition loadKnownTenants (parentID : string) : M C (list string) :=
  rows ← wrapping "importer: list tenants: %w" (ListTenantsForParent parentID);
  mret (Tenant.ID <$> rows).

Definition insertMetadata (prow : Parent.row) (name : string) (bound : parsedBound) : M C unit :=
  id ← ulid_Make;
  wrapping "importer: upsert metadata for %s: %w" (UpsertPartition (imported_row prow id name bound)).

(** The tenant of a child is registered unless it is known. *)
Definition register_child_tenant (prow : Parent.row) (tenant : string) (known : list string)
    : M C (list string) :=
  if bool_decide (tenant = "") || bool_decide (tenant ∈ known) then mret known
  else
    wrapping "importer: auto-register tenant %q for %s: %w" (UpsertTenant (Parent.ID prow) tenant) ;;
    mret (tenant :: known).

(** One round of the main loop; its state is the report and [knownTenants]. *)
Definition import_one (prow : Parent.row) (existingNames : list string)
    (st : ReconcileReport * list string) (c : pgChild) : M C (ReconcileReport * list string) :=
  let '(report, known) := st in
  match Parse (fq c) with
  | Err e => mret (add_skipped_child (mkSkipped (fq c) "non-conforming name: " e) report, known)
  | Ok nameParsed =>
      match parseBoundExpr (BoundExpr c) with
      | Err e =>
          mret (add_skipped_child (mkSkipped (fq c) "unrecognized bound expression: " e) report, known)
      | Ok boundParsed =>
          let reason := compareNameAndBound nameParsed boundParsed in
          if negb (bool_decide (reason = "")) then
            mret (add_drifted (mkDrifted (fq c) (TBounds nameParsed) (BoundExpr c) reason) report, known)
          else
            known ← register_child_tenant prow (BTenantId boundParsed) known;
            if bool_decide (fq c ∈ existingNames) then mret (report, known)
            else
              insertMetadata prow (fq c) boundParsed ;;
              mret (add_imported (buildRef nameParsed boundParsed) report, known)
      end
  end.

(** [Import] after the pre-flight. *)
Definition reconcile (prow : Parent.row) (children : list pgChild) : M C ReconcileReport :=
  existing ← wrapping "importer: list metadata: %w" (ListPartitionsForParent (Parent.ID prow));
  known ← loadKnownTenants (Parent.ID prow);
  st ← foldM (import_one prow (Partition.Name <$> existing)) (empty_reconcile, known) children;
  mret (with_orphans (orphans (fq <$> children) existing) st.1).

Definition Import (ref : ParentRef.t) : M C ReconcileReport :=
  let schema := ParentRef.SchemaName ref in
  let table := ParentRef.TableName ref in
  r ← attempt (GetParentTable schema table);
  match r with
  | Err e =>
      if Is e NoRows then fail (Wrap "%w: %s.%s" (Sentinel ErrParentNotFound))
      else fail (Wrap "importer: load parent: %w" e)
  | Ok prow =>
      k ← wrapping "importer: parent %s.%s: %w" (lift (intervalKindFromLabel (Parent.PartitionInterval prow)));
      children ← listChildrenFromPG schema table;
      lift (preflight k children) ;;
      reconcile prow children
  end.
End importer.
