(* ===== verification/BoundExpr.v ===== *)
(** * Bound expressions, read back

    [parseBoundExpr] against the form in which PostgreSQL prints the bounds of
    a partition ([pg_get_expr] in a UTC session): what is printed is read
    back. *)

From S2P Require Import Prelude GoTime GoStrings Errs TimeFormat TimeParse Naming Importer.
Local Open Scope string_scope.
Local Open Scope Z_scope.

(** ** The printed form *)

Definition quoted (s : string) : string := "'" +:+ s +:+ "'".
Definition printed_tuple (tenant : option string) (t : Time) : string :=
  match tenant with
  | None => quoted (pg_timestamp t)
  | Some s => quoted s +:+ ", " +:+ quoted (pg_timestamp t)
  end.
Definition printed_bound (tenant : option string) (b : Bounds) : string :=
  "FOR VALUES FROM (" +:+ printed_tuple tenant (From b) +:+ ") TO (" +:+ printed_tuple tenant (To b) +:+ ")".

(** ** Bytes *)

(** No byte of [s] is [c]. *)
Definition without (c : ascii) (s : string) : bool := all_bytes (λ d, negb (Ascii.eqb d c)) s.

Definition ts_byte (c : ascii) : bool :=
  is_digit c || Ascii.eqb c "-" || Ascii.eqb c " " || Ascii.eqb c ":" || Ascii.eqb c "+".

Lemma appendInt_2_digits z : 0 <= z < 100 → all_bytes is_digit (appendInt z 2) = true.
Proof.
  intros H. rewrite appendInt_2 by lia. cbn [all_bytes]. by rewrite !is_digit_chr by dlia.
Qed.
Lemma appendInt_4_digits z : 0 <= z <= 9999 → all_bytes is_digit (appendInt z 4) = true.
Proof.
  intros H. rewrite appendInt_4 by lia. cbn [all_bytes]. by rewrite !is_digit_chr by dlia.
Qed.
Lemma digits_ts s : all_bytes is_digit s = true → all_bytes ts_byte s = true.
Proof. apply all_bytes_impl. intros c Hc. unfold ts_byte. by rewrite Hc. Qed.

(** The parts of a printed time. *)
Lemma second_stamp_parts t :
  second_stamp t = true →
  0 <= Year t <= 9999 ∧ 0 <= Month t < 100 ∧ 0 <= DayOf t < 100 ∧
  0 <= HourOf t < 100 ∧ 0 <= MinuteOf t < 100 ∧ 0 <= SecondOf t < 100.
Proof.
  unfold second_stamp. rewrite !andb_true_iff, !Z.eqb_eq, !Z.leb_le. intros [[[_ Hs] ?] ?].
  pose proof (Month_bounds t). pose proof (DayOf_small t). destruct (clock_parts t Hs) as (_ & ? & ? & ?). lia.
Qed.

Lemma pg_timestamp_bytes t : second_stamp t = true → all_bytes ts_byte (pg_timestamp t) = true.
Proof.
  intros (? & ? & ? & ? & ? & ?)%second_stamp_parts. unfold pg_timestamp.
  rewrite !all_bytes_app, !(digits_ts (appendInt _ 2)), (digits_ts (appendInt _ 4));
    auto using appendInt_2_digits, appendInt_4_digits.
Qed.

Lemma without_ts c s : ts_byte c = false → all_bytes ts_byte s = true → without c s = true.
Proof.
  intros Hc. apply all_bytes_impl. intros d Hd. apply negb_true_iff, Ascii.eqb_neq. intros ->. congruence.
Qed.
Lemma without_word c s : is_word c = false → all_bytes is_word s = true → without c s = true.
Proof.
  intros Hc. apply all_bytes_impl. intros d Hd. apply negb_true_iff, Ascii.eqb_neq. intros ->. congruence.
Qed.
Lemma without_app c s t : without c (s +:+ t) = without c s && without c t.
Proof. apply all_bytes_app. Qed.

(** ** Strings *)

Lemma substring_all s n : (String.length s <= n)%nat → String.substring 0 n s = s.
Proof.
  revert n. induction s as [|c s IH]; intros [|n] H; cbn in *; try done; [lia|].
  f_equal. apply IH. lia.
Qed.
Lemma prefix_app p s : String.prefix p (p +:+ s) = true.
Proof. induction p as [|c p IH]; cbn; [by destruct s|]. by destruct (Ascii.ascii_dec c c). Qed.
Lemma substring_app p s n :
  (String.length s <= n)%nat → String.substring (String.length p) n (p +:+ s) = s.
Proof. intros H. induction p as [|c p IH]; cbn; [by apply substring_all|done]. Qed.

Lemma CutPrefix_app p s : CutPrefix p (p +:+ s) = Some s.
Proof.
  unfold CutPrefix. rewrite prefix_app, substring_app; [done|]. rewrite length_app_string. lia.
Qed.

Lemma prefix_head c p d s : Ascii.eqb c d = false → String.prefix (String c p) (String d s) = false.
Proof. intros H. apply Ascii.eqb_neq in H. cbn. by destruct (Ascii.ascii_dec c d). Qed.

Lemma CutLastString_None c p s : without c s = true → CutLastString (String c p) s = None.
Proof.
  induction s as [|d s IH]; [done|]. unfold without. cbn [all_bytes].
  intros [Hd Hs]%andb_true_iff. cbn [CutLastString]. rewrite IH by done.
  rewrite prefix_head; [done|]. apply negb_true_iff in Hd. by rewrite Ascii.eqb_sym.
Qed.
Lemma CutLastString_app c p a b :
  without c (p +:+ b) = true →
  CutLastString (String c p) (a +:+ String c p +:+ b) = Some (a, b).
Proof.
  intros Hp. induction a as [|d a IH].
  - change ("" +:+ String c p +:+ b) with (String c (p +:+ b)). cbn [CutLastString].
    rewrite CutLastString_None by done.
    change (String c (p +:+ b)) with (String c p +:+ b). rewrite prefix_app, substring_app; [done|].
    rewrite length_app_string. lia.
  - change (String d a +:+ String c p +:+ b) with (String d (a +:+ String c p +:+ b)).
    cbn [CutLastString]. by rewrite IH.
Qed.

(** [s] keeps its ends under [TrimSpace]. *)
Lemma TrimSpace_id c s d :
  visible c = true → visible d = true →
  TrimSpace (String c (s +:+ String d "")) = String c (s +:+ String d "").
Proof.
  intros Hc Hd. unfold TrimSpace. rewrite visible_left by done.
  change (String c (s +:+ String d "")) with (String c s +:+ String d "").
  by apply TrimRightSpace_snoc.
Qed.
Lemma TrimSpace_quoted s : TrimSpace (quoted s) = quoted s.
Proof. by apply (TrimSpace_id "'" s "'"). Qed.
Lemma TrimSpace_space s : TrimSpace (String " " s) = TrimSpace s.
Proof. done. Qed.

Lemma ReplaceAll_without s : without "'" s = true → ReplaceAll s "''" "'" = s.
Proof.
  unfold ReplaceAll. induction s as [|c s IH]; [done|]. unfold without. cbn [all_bytes].
  intros [Hc Hs]%andb_true_iff. cbn [replace_all].
  rewrite prefix_head by (rewrite Ascii.eqb_sym; by apply negb_true_iff). by rewrite IH.
Qed.

(** ** Tuples *)

(** The loop of [splitTuple] inside a literal without quotes. *)
Lemma splitTuple_literal s cur parts rest :
  without quote s = true →
  splitTuple_loop (s +:+ rest) cur true parts = splitTuple_loop rest (cur +:+ s) true parts.
Proof.
  revert cur. induction s as [|c s IH]; intros cur; [intros _; by rewrite app_string_nil_r|].
  unfold without. cbn [all_bytes]. intros [Hc%negb_true_iff Hs]%andb_true_iff.
  cbn [String.append splitTuple_loop]. rewrite Hc, andb_false_r, IH by done.
  by rewrite app_string_assoc.
Qed.

(** Through a literal that is followed by no other quote. *)
Lemma splitTuple_quoted s cur parts rest :
  without quote s = true → (∀ r, rest ≠ String quote r) →
  splitTuple_loop (quoted s +:+ rest) cur false parts =
  splitTuple_loop rest (cur +:+ quoted s) false parts.
Proof.
  intros Hs Hr. unfold quoted. cbn [String.append splitTuple_loop].
  change (Ascii.eqb "'" quote) with true. cbn [negb].
  rewrite !app_string_assoc, splitTuple_literal by done. cbn [String.append splitTuple_loop].
  change (Ascii.eqb "'" quote) with true.
  destruct rest as [|d rest]; cbn [negb].
  - by rewrite !app_string_assoc.
  - destruct (Ascii.eqb d quote) eqn:Hd; [|by rewrite !app_string_assoc].
    apply Ascii.eqb_eq in Hd as ->. by destruct (Hr rest).
Qed.

Lemma splitTuple_printed tenant t :
  second_stamp t = true → (∀ s, tenant = Some s → word_regex s = true) →
  splitTuple (printed_tuple tenant t) =
  Ok (match tenant with None => [quoted (pg_timestamp t)]
                      | Some s => [quoted s; quoted (pg_timestamp t)] end).
Proof.
  intros Ht Hw. assert (without quote (pg_timestamp t) = true) as Hts
    by (apply without_ts; [done|by apply pg_timestamp_bytes]).
  unfold splitTuple, printed_tuple. destruct tenant as [s|].
  - assert (without quote s = true) as Hs by (apply without_word, word_regex_bytes; auto).
    rewrite splitTuple_quoted by done. change (", " +:+ quoted (pg_timestamp t))
      with (String "," (String " " (quoted (pg_timestamp t)))).
    cbn [splitTuple_loop]. change (Ascii.eqb "," quote) with false. cbn [Ascii.eqb Bool.eqb andb negb].
    change (Ascii.eqb " " quote) with false.
    rewrite <- (app_string_nil_r (quoted (pg_timestamp t))), splitTuple_quoted by done.
    cbn [splitTuple_loop String.append app]. rewrite app_string_nil_r, TrimSpace_space, !TrimSpace_quoted.
    by rewrite bool_decide_false by (by rewrite !elem_of_cons, elem_of_nil; intros [?|[?|?]]).
  - rewrite <- (app_string_nil_r (quoted (pg_timestamp t))), splitTuple_quoted by done.
    cbn [splitTuple_loop String.append app]. rewrite app_string_nil_r, TrimSpace_quoted.
    by rewrite bool_decide_false by (by rewrite elem_of_cons, elem_of_nil; intros [?|?]).
Qed.

(** ** Literals *)

(** No cast in [s]. *)
Definition castless (s : string) : Prop := CutLastString "::" s = None.

Lemma castless_without s : without ":" s = true → castless s.
Proof. apply CutLastString_None. Qed.
Lemma castless_cons c s : Ascii.eqb ":" c = false → castless s → castless (String c s).
Proof. intros Hc Hs. unfold castless. cbn [CutLastString]. by rewrite Hs, (prefix_head ":" ":" c s Hc). Qed.
Lemma castless_app s t : without ":" s = true → castless t → castless (s +:+ t).
Proof.
  induction s as [|c s IH]; [done|]. unfold without. cbn [all_bytes].
  intros [Hc%negb_true_iff Hs]%andb_true_iff Ht. apply castless_cons; [by rewrite Ascii.eqb_sym|by apply IH].
Qed.
(** A colon before something else. *)
Lemma castless_colon c s : Ascii.eqb ":" c = false → castless (String c s) → castless (String ":" (String c s)).
Proof.
  intros Hc Hs. unfold castless in *. cbn [CutLastString] in *. rewrite Hs.
  change (String.prefix "::" (String ":" (String c s))) with (String.prefix ":" (String c s)).
  by rewrite (prefix_head ":" "" c s Hc).
Qed.
Lemma castless_digits z s : 0 <= z < 100 → castless s → castless (":" +:+ appendInt z 2 +:+ s).
Proof.
  intros H Hs. rewrite appendInt_2 by lia. cbn [String.append].
  assert (∀ k, 0 <= k < 10 → Ascii.eqb ":" (chr (48 + k)) = false) as Hd.
  { intros k Hk. apply Ascii.eqb_neq. intros Heq. pose proof (is_digit_chr k Hk) as Hd.
    by rewrite <- Heq in Hd. }
  apply castless_colon; [apply Hd; dlia|].
  apply castless_cons; [apply Hd; dlia|]. apply castless_cons; [apply Hd; dlia|done].
Qed.

Lemma unquote_quoted s :
  without quote s = true → castless (quoted s) → unquote (quoted s) = Ok s.
Proof.
  intros Hs Hc. unfold unquote, stripCast. rewrite Hc. unfold quoted. cbn [String.append].
  change (Ascii.eqb "'" quote) with true. cbv beta iota zeta.
  unfold quote in *. rewrite (CutLast_app "'" s "") by done. by rewrite ReplaceAll_without.
Qed.

Lemma castless_word s : all_bytes is_word s = true → castless (quoted s).
Proof.
  intros Hs. apply castless_without. unfold quoted. rewrite !without_app.
  by rewrite (without_word ":" s) by done.
Qed.
Lemma castless_timestamp t : second_stamp t = true → castless (quoted (pg_timestamp t)).
Proof.
  intros Ht. pose proof Ht as (? & ? & ? & ? & ? & ?)%second_stamp_parts.
  assert (∀ z, 0 <= z < 100 → without ":" (appendInt z 2) = true) as Hd2.
  { intros z Hz. eapply all_bytes_impl; [|by apply appendInt_2_digits].
    intros c Hc. apply negb_true_iff, Ascii.eqb_neq. by intros ->. }
  assert (without ":" (appendInt (Year t) 4) = true) as Hd4.
  { eapply all_bytes_impl; [|by apply appendInt_4_digits].
    intros c Hc. apply negb_true_iff, Ascii.eqb_neq. by intros ->. }
  unfold quoted, pg_timestamp. rewrite !app_string_assoc.
  do 8 (apply castless_app; [by auto|]). apply castless_digits; [done|].
  apply castless_digits; [done|]. by apply castless_without.
Qed.

Lemma parsePGTimestamp_printed t :
  second_stamp t = true → parsePGTimestamp (quoted (pg_timestamp t)) = Ok t.
Proof.
  intros Ht. unfold parsePGTimestamp.
  rewrite unquote_quoted by (by apply castless_timestamp || (apply without_ts; [done|by apply pg_timestamp_bytes])).
  unfold pgTimestampLayouts. by rewrite ParseUTC_pg_timestamp.
Qed.

(** ** Expressions *)

Definition tuple_byte (c : ascii) : bool :=
  is_word c || ts_byte c || Ascii.eqb c "'" || Ascii.eqb c ",".
Lemma printed_tuple_bytes tenant t :
  second_stamp t = true → (∀ s, tenant = Some s → word_regex s = true) →
  all_bytes tuple_byte (printed_tuple tenant t) = true.
Proof.
  intros Ht Hw. assert (all_bytes tuple_byte (pg_timestamp t) = true) as Hts.
  { eapply all_bytes_impl; [|by apply pg_timestamp_bytes]. intros c Hc. unfold tuple_byte.
    by rewrite Hc, orb_true_r. }
  unfold printed_tuple, quoted. destruct tenant as [s|]; rewrite !all_bytes_app, Hts; [|done].
  assert (all_bytes tuple_byte s = true) as ->; [|done].
  eapply all_bytes_impl; [|apply word_regex_bytes; auto]. intros c Hc. unfold tuple_byte. by rewrite Hc.
Qed.
Lemma tuple_without c s : tuple_byte c = false → all_bytes tuple_byte s = true → without c s = true.
Proof.
  intros Hc. apply all_bytes_impl. intros d Hd. apply negb_true_iff, Ascii.eqb_neq. intros ->. congruence.
Qed.
Lemma tuple_no_newline s : all_bytes tuple_byte s = true → no_newline s = true.
Proof.
  apply all_bytes_impl. intros c Hc. apply negb_true_iff, Z.eqb_neq. intros Hn.
  assert (c = chr 10) as -> by (rewrite <- Hn; symmetry; apply chr_code). done.
Qed.

Lemma boundedRE_printed a b :
  all_bytes tuple_byte a = true → all_bytes tuple_byte b = true →
  boundedRE ("FOR VALUES FROM (" +:+ a +:+ ") TO (" +:+ b +:+ ")") = Some (a, b).
Proof.
  intros Ha Hb. unfold boundedRE. rewrite CutPrefix_app. cbn [mbind option_bind].
  replace (a +:+ ") TO (" +:+ b +:+ ")") with ((a +:+ ") TO (" +:+ b) +:+ ")")
    by by rewrite !app_string_assoc.
  rewrite (CutLast_app ")" (a +:+ ") TO (" +:+ b) "") by done. cbn [mbind option_bind].
  change ") TO (" with (String ")" " TO (") at 1 2.
  rewrite CutLastString_app by (rewrite without_app; by rewrite (tuple_without ")" b)).
  cbn [mbind option_bind]. unfold no_newline in *.
  rewrite !all_bytes_app. fold (no_newline a) (no_newline b).
  by rewrite (tuple_no_newline a), (tuple_no_newline b).
Qed.

(** Bound expressions round trip.  The bounds of a partition as PostgreSQL
    prints them (whole seconds of a four-digit year, in a UTC session), with
    or without a tenant that is a word, are read back exactly, the tenant in
    upper case. *)
Lemma parseBoundExpr_printed tenant b :
  second_stamp (From b) = true → second_stamp (To b) = true →
  (∀ s, tenant = Some s → word_regex s = true) →
  parseBoundExpr (printed_bound tenant b) =
  Ok (mkParsedBound b (ToUpper (default "" tenant)) false).
Proof.
  intros Hf Ht Hw. unfold parseBoundExpr.
  assert (TrimSpace (printed_bound tenant b) = printed_bound tenant b) as ->.
  { set (x := "OR VALUES FROM (" +:+ printed_tuple tenant (From b) +:+ ") TO (" +:+ printed_tuple tenant (To b)).
    replace (printed_bound tenant b) with (String "F" (x +:+ String ")" "")); [by apply TrimSpace_id|].
    unfold x, printed_bound. by rewrite !app_string_assoc. }
  rewrite bool_decide_false by (unfold printed_bound; discriminate).
  unfold printed_bound. rewrite boundedRE_printed by (by apply printed_tuple_bytes).
  rewrite !splitTuple_printed by done. cbn [wrap mbind result_bind].
  assert (∀ s, tenant = Some s → unquote (quoted s) = Ok s) as Hu.
  { intros s Hs%Hw%word_regex_bytes. apply unquote_quoted; [by apply without_word|by apply castless_word]. }
  destruct b as [f t]. cbn [From To] in *. destruct tenant as [s|]; cbn [length Nat.eqb negb].
  - rewrite !(Hu s eq_refl). cbn [wrap mbind result_bind]. rewrite bool_decide_true by done. cbn [negb].
    by rewrite !parsePGTimestamp_printed.
  - by rewrite !parsePGTimestamp_printed.
Qed.

(** Literals outside the words are not read back: a tenant that contains
    ["::"] is taken for a literal with a cast, doubled quotes are folded
    twice, and a zone of half an hour fits no layout. *)
Theorem bound_literal_pitfalls :
  parseBoundExpr "FOR VALUES FROM ('a::b', '2026-06-15 00:00:00+00') TO ('a::b', '2026-06-16 00:00:00+00')" =
    Err (Wrap "bound FROM tenant: %w" (Msg "value %q is not a single-quoted literal")) ∧
  match parseBoundExpr
    "FOR VALUES FROM ('a''''b', '2026-06-15 00:00:00+00') TO ('a''''b', '2026-06-16 00:00:00+00')" with
  | Ok b => BTenantId b = "A'B"
  | Err _ => False
  end ∧
  parseBoundExpr "FOR VALUES FROM ('2026-06-15 05:30:00+05:30') TO ('2026-06-16 05:30:00+05:30')" =
    Err (Wrap "bound FROM timestamp: %w" (Msg "timestamp %q does not match any known PG layout")).
Proof. split_and!; vm_compute; reflexivity. Qed.
