(* ===== verification/Import.v ===== *)
(** * What the import promises

    [Import] against its specification: the report is a function of the
    children PostgreSQL lists and of the metadata; rows are added only for
    children whose name and bound agree; nothing is written when a child has
    another interval; a second import finds nothing to do. *)

From S2P Require Import Prelude GoTime GoStrings Errs TimeFormat TimeParse Naming Periods Store World Logic Repo Scenario Provisioner Ensure Retention Registry Registration Importer BoundExpr.
Local Open Scope string_scope.
Local Open Scope Z_scope.

(** ** Specification *)

(** Name and bound of a child that agree. *)
Definition aligned (c : pgChild) : option (TableName * parsedBound) :=
  match Parse (fq c), parseBoundExpr (BoundExpr c) with
  | Ok tn, Ok pb => if bool_decide (compareNameAndBound tn pb = "") then Some (tn, pb) else None
  | _, _ => None
  end.

(** The fate of a child, given the names the metadata have. *)
Definition imports (names : list string) (c : pgChild) : option PartitionRef :=
  if bool_decide (fq c ∈ names) then None
  else (λ '(tn, pb), buildRef tn pb) <$> aligned c.
Definition drifts (c : pgChild) : option DriftedPartition :=
  match Parse (fq c), parseBoundExpr (BoundExpr c) with
  | Ok tn, Ok pb =>
      let reason := compareNameAndBound tn pb in
      if bool_decide (reason = "") then None
      else Some (mkDrifted (fq c) (TBounds tn) (BoundExpr c) reason)
  | _, _ => None
  end.
Definition skips (c : pgChild) : option SkippedPartition :=
  match Parse (fq c), parseBoundExpr (BoundExpr c) with
  | Err e, _ => Some (mkSkipped (fq c) "non-conforming name: " e)
  | Ok _, Err e => Some (mkSkipped (fq c) "unrecognized bound expression: " e)
  | Ok _, Ok _ => None
  end.
Definition expected_report (existing : list Partition.row) (children : list pgChild) : ReconcileReport :=
  mkReconcileReport (omap (imports (Partition.Name <$> existing)) children) (omap drifts children)
    (orphans (fq <$> children) existing) (omap skips children).

(** A child whose bound is not one interval of the parent. *)
Definition mismatched (k : intervalKind) (c : pgChild) : Prop :=
  ∃ pb, parseBoundExpr (BoundExpr c) = Ok pb ∧ BIsDefault pb = false ∧
        intervalMatches k (BBounds pb) = false.

Lemma preflight_Ok k children : preflight k children = Ok tt ↔ ∀ c, c ∈ children → ¬ mismatched k c.
Proof.
  induction children as [|c cs IH]; cbn [preflight].
  { split; [by intros _ c ?%not_elem_of_nil|done]. }
  assert (∀ P : Prop, (∀ x, x ∈ c :: cs → ¬ mismatched k x) ↔ ¬ mismatched k c ∧ ∀ x, x ∈ cs → ¬ mismatched k x) as Hcons.
  { intros _. setoid_rewrite elem_of_cons. split; [auto|]. intros [? ?] x [->|?]; auto. }
  rewrite (Hcons True), <- IH. unfold mismatched. clear Hcons IH.
  destruct (parseBoundExpr (BoundExpr c)) as [pb|e]; [|naive_solver].
  destruct (BIsDefault pb) eqn:Hd; [|destruct (intervalMatches k (BBounds pb)) eqn:Hm]; cbn [negb].
  - split; [intros Hp; split; [|done]|by intros []]. intros (pb' & [= <-] & ? & _). congruence.
  - split; [intros Hp; split; [|done]|by intros []]. intros (pb' & [= <-] & _ & ?). congruence.
  - split; [done|]. intros [Hn _]. destruct Hn. by exists pb.
Qed.

Section import.
Context {C : Type} {E : Env C} {L : EnvLaws E}.

(** PostgreSQL lists these children. *)
Definition listed (ref : ParentRef.t) (children : list pgChild) (d : DB C) : Prop :=
  ∃ rows, pg_query children_query [VText (ParentRef.SchemaName ref +:+ "." +:+ ParentRef.TableName ref)] (catalog d) = Ok rows ∧
    scan_children rows = Ok children.

Lemma looks_listChildren ref :
  looks (listChildrenFromPG (ParentRef.SchemaName ref) (ParentRef.TableName ref)) (listed ref).
Proof.
  unfold listChildrenFromPG. eapply looks_bind; [apply looks_wrapping, looks_QueryRows|].
  intros rows. eapply looks_weaken; [apply looks_lift|]. intros cs d Hs Hq. by exists rows.
Qed.
(** A run of [Import] up to the main loop. *)
Lemma Import_run ref w o w' :
  Import ref w = (o, w') →
  (later w w' ∧ ∀ rep, o ≠ Ret rep) ∨
  ∃ prow k children n known w1,
    get_parent (ParentRef.SchemaName ref, ParentRef.TableName ref) (meta (db w)) = Ok prow ∧
    intervalKindFromLabel (Parent.PartitionInterval prow) = Ok k ∧
    listed ref children (db w) ∧ preflight k children = Ok tt ∧ later w w1 ∧
    let existing := list_partitions (Parent.ID prow) (scanned n (meta (db w))) in
    (∃ m, known = Tenant.ID <$> list_tenants env_collate (Parent.ID prow)
              (mkMeta (parent_tables (meta (db w))) (env_scan _ m (tenants (meta (db w)))) (partitions (meta (db w))))) ∧
    (st ← foldM (import_one prow (Partition.Name <$> existing)) (empty_reconcile, known) children;
     mret (with_orphans (orphans (fq <$> children) existing) st.1)) w1 = (o, w').
Proof.
  intros Hrun. unfold Import in Hrun. cbv zeta in Hrun.
  assert (∀ w1, later w w1 → later w1 w' ∧ (∀ b, o ≠ Ret b) → later w w' ∧ ∀ rep, o ≠ Ret rep) as Hstop.
  { intros w1 H1 [H2 Ho]. split; [by etrans|done]. }
  apply (bind_looks_inv _ _ _ _ _ _ (looks_attempt _ _ (looks_meta_read _))) in Hrun
    as [(r & w1 & H1 & K1 & Hrun)|H]; [|by left].
  destruct r as [prow|e].
  2:{ left. destruct (Is e NoRows); injection Hrun as <- <-; by split. }
  destruct K1 as [_ K1].
  apply (bind_looks_inv _ _ _ _ _ _ (looks_wrapping _ _ _ (looks_lift _))) in Hrun
    as [(k & w2 & H2 & K2 & Hrun)|H]; [|left; by eapply Hstop].
  apply (bind_looks_inv _ _ _ _ _ _ (looks_listChildren ref)) in Hrun
    as [(cs & w3 & H3 & K3 & Hrun)|H]; [|left; eapply Hstop, H; by etrans].
  apply (bind_looks_inv _ _ _ _ _ _ (looks_lift _)) in Hrun
    as [([] & w4 & H4 & K4 & Hrun)|H]; [|left; eapply Hstop, H; by repeat (etrans; [done|])].
  unfold reconcile in Hrun.
  apply (bind_looks_inv _ _ _ _ _ _ (looks_wrapping _ _ _ (looks_meta_read _))) in Hrun
    as [(existing & w5 & H5 & K5 & Hrun)|H]; [|left; eapply Hstop, H; by repeat (etrans; [done|])].
  assert (looks (loadKnownTenants (Parent.ID prow)) (λ known d, ∃ m, known = Tenant.ID <$>
      list_tenants env_collate (Parent.ID prow)
              (mkMeta (parent_tables (meta d)) (env_scan _ m (tenants (meta d))) (partitions (meta d))))) as Hk.
  { unfold loadKnownTenants. eapply looks_bind; [apply looks_wrapping, looks_meta_read|]. intros rows.
    eapply looks_weaken; [apply looks_ret|]. intros known d -> [m <-%Ok_inj]. by exists m. }
  apply (bind_looks_inv _ _ _ _ _ _ Hk) in Hrun
    as [(known & w6 & H6 & K6 & Hrun)|H]; [|left; eapply Hstop, H; by repeat (etrans; [done|])].
  right. destruct K5 as [n K5%Ok_inj]. exists prow, k, cs, n, known, w6.
  assert (later w w3) as Hl3 by (etrans; [exact H1|]; etrans; [exact H2|exact H3]).
  assert (later w w4) as Hl4 by (etrans; [exact Hl3|exact H4]).
  assert (later w w5) as Hl5 by (etrans; [exact Hl4|exact H5]).
  pose proof (proj1 H1) as D1. assert (db w2 = db w) as D2 by (by rewrite (proj1 H2), D1).
  split; [exact K1|]. split; [exact K2|]. split; [by rewrite <- D2|]. split; [exact K4|].
  split; [etrans; [exact Hl5|exact H6]|]. cbv zeta. split.
  - destruct K6 as [m K6]. exists m. by rewrite (proj1 Hl5) in K6.
  - rewrite (proj1 Hl4) in K5. by subst existing.
Qed.

(** ** The report *)

Definition report_with (rep : ReconcileReport) (names : list string) (cs : list pgChild) : ReconcileReport :=
  mkReconcileReport (Imported rep ++ omap (imports names) cs) (Drifted rep ++ omap drifts cs)
    (Orphaned rep) (SkippedChildren rep ++ omap skips cs).

Lemma import_one_report prow names rep known c (w : World C) rep' known' w' :
  import_one prow names (rep, known) c w = (Ret (rep', known'), w') → rep' = report_with rep names [c].
Proof.
  unfold import_one, report_with. cbn [omap list_omap]. unfold imports, drifts, skips, aligned.
  destruct (Parse (fq c)) as [tn|e].
  2:{ intros [= <- <- <-]. unfold add_skipped_child. destruct (bool_decide (fq c ∈ names)); cbn; by rewrite ?app_nil_r. }
  destruct (parseBoundExpr (BoundExpr c)) as [pb|e].
  2:{ intros [= <- <- <-]. unfold add_skipped_child. destruct (bool_decide (fq c ∈ names)); cbn; by rewrite ?app_nil_r. }
  cbv zeta. destruct (bool_decide (compareNameAndBound tn pb = "")) eqn:Hr; cbn [negb].
  2:{ intros [= <- <- <-]. unfold add_drifted. destruct (bool_decide (fq c ∈ names)); cbn; by rewrite ?app_nil_r. }
  intros [(known1 & w1 & _ & Hrun)|[(? & _ & ?)|[_ ?]]]%bind_inv; [|done..].
  destruct (bool_decide (fq c ∈ names)); cbn.
  - injection Hrun as <- <- <-. rewrite !app_nil_r. by destruct rep.
  - apply bind_inv in Hrun as [(x & w2 & _ & Hrun)|[(? & _ & ?)|[_ ?]]]; [|done..].
    injection Hrun as <- <- <-. unfold add_imported. by rewrite !app_nil_r.
Qed.

Lemma import_fold_report prow names cs rep known (w : World C) st w' :
  foldM (import_one prow names) (rep, known) cs w = (Ret st, w') → st.1 = report_with rep names cs.
Proof.
  revert rep known w. induction cs as [|c cs IH]; intros rep known w; cbn [foldM].
  { intros [= <- <-]. unfold report_with. cbn. rewrite !app_nil_r. by destruct rep. }
  intros [([rep1 known1] & w1 & H1 & H2)|[(? & _ & ?)|[_ ?]]]%bind_inv; [|done..].
  apply import_one_report in H1 as ->. apply IH in H2 as ->. unfold report_with. cbn.
  rewrite <- !app_assoc. f_equal; f_equal; cbn; by case_match.
Qed.

(** C24: the report of an import is exact.  When [Import] returns, the parent is
    registered, no child that PostgreSQL lists has a bound of another
    interval, and the report is the one the children and the metadata
    determine: new agreeing children imported, disagreeing ones drifted with
    the reason, unreadable ones skipped with the cause, metadata without a
    table orphaned. *)
Theorem Import_report_exact ref w rep w' :
  Import ref w = (Ret rep, w') →
  ∃ prow k children n,
    get_parent (ParentRef.SchemaName ref, ParentRef.TableName ref) (meta (db w)) = Ok prow ∧
    intervalKindFromLabel (Parent.PartitionInterval prow) = Ok k ∧
    listed ref children (db w) ∧ (∀ c, c ∈ children → ¬ mismatched k c) ∧
    rep = expected_report (list_partitions (Parent.ID prow) (scanned n (meta (db w)))) children.
Proof.
  intros [[_ Ho]|(prow & k & cs & n & known & w1 & Hp & Hk & Hl & Hpre & _ & _ & Hrun)]%Import_run;
    [by destruct (Ho rep)|].
  exists prow, k, cs, n. split_and!; [done|done|done|by apply preflight_Ok|].
  apply bind_inv in Hrun as [([rep1 known1] & w2 & Hrun & Hret)|[(? & _ & ?)|[_ ?]]]; [|done..].
  injection Hret as <- _. apply import_fold_report in Hrun as Hrep. cbn [fst] in *. rewrite Hrep.
  unfold with_orphans, report_with, expected_report. cbn. done.
Qed.

(** ** What is written *)

(** [r] is the row of a child whose name and bound agree. *)
Definition recorded (prow : Parent.row) (children : list pgChild) (r : Partition.row) : Prop :=
  ∃ c tn pb id, c ∈ children ∧ aligned c = Some (tn, pb) ∧ r = columns (imported_row prow id (fq c) pb).
(** [t] is the tenant of one. *)
Definition recorded_tenant (prow : Parent.row) (children : list pgChild) (t : Tenant.row) : Prop :=
  ∃ c tn pb, c ∈ children ∧ aligned c = Some (tn, pb) ∧ BTenantId pb ≠ "" ∧
             t = Tenant.mk (BTenantId pb) (Parent.ID prow).

Definition records (prow : Parent.row) (children : list pgChild) (d d' : DB C) : Prop :=
  catalog d' = catalog d ∧ parent_tables (meta d') = parent_tables (meta d) ∧
  (∃ ts, tenants (meta d') = (tenants (meta d) ++ ts)%list ∧ Forall (recorded_tenant prow children) ts) ∧
  (∃ rs, partitions (meta d') = (partitions (meta d) ++ rs)%list ∧ Forall (recorded prow children) rs).

#[export] Instance records_preorder prow children : PreOrder (records prow children).
Proof.
  split.
  - intros d. split_and!; [done..|exists []|exists []]; by rewrite app_nil_r.
  - intros d1 d2 d3 (H1 & H2 & (t1 & H3 & H4) & r1 & H5 & H6) (K1 & K2 & (t2 & K3 & K4) & r2 & K5 & K6).
    split_and!; [congruence..|exists (t1 ++ t2)%list|exists (r1 ++ r2)%list];
      (split; [rewrite ?K3, ?H3, ?K5, ?H5; by rewrite app_assoc|by apply Forall_app]).
Qed.

Lemma Stable_UpsertTenant_records prow children t :
  recorded_tenant prow children (Tenant.mk t (Parent.ID prow)) →
  Stable (on_db (records prow children)) (UpsertTenant (Parent.ID prow) t).
Proof.
  intros Ht w o w' [[Hd _]|(_ & Hd & _)]%UpsertTenant_run; unfold on_db; rewrite Hd; [done|].
  split_and!; [done..| |exists []; by rewrite app_nil_r].
  exists [Tenant.mk t (Parent.ID prow)]. split; [done|by apply Forall_singleton].
Qed.
Lemma Stable_UpsertPartition_records prow children a :
  recorded prow children (columns a) →
  Stable (on_db (records prow children)) (UpsertPartition a).
Proof.
  intros Ha. apply Stable_meta_write; [apply _|]. intros w x m' H.
  destruct (upsert_partition _ _) as [m1|] eqn:Hu; [|done]. apply Ok_inj in H as [= _ <-].
  apply upsert_partition_adds in Hu as (rs & -> & Hrs). split_and!; [done..| |].
  - exists []. by rewrite app_nil_r.
  - exists rs. split; [done|]. destruct Hrs as [-> | ->]; [done|by apply Forall_singleton].
Qed.

Lemma Stable_import_one prow children names st c :
  c ∈ children → Stable (on_db (records prow children)) (import_one prow names st c).
Proof.
  intros Hc. unfold import_one, register_child_tenant, insertMetadata. destruct st as [rep known].
  destruct (Parse (fq c)) as [tn|] eqn:Hn; [|stable].
  destruct (parseBoundExpr (BoundExpr c)) as [pb|] eqn:Hb; [|stable]. cbv zeta.
  destruct (bool_decide (compareNameAndBound tn pb = "")) eqn:Hr; cbn [negb]; [|stable].
  assert (aligned c = Some (tn, pb)) as Ha by (unfold aligned; by rewrite Hn, Hb, Hr).
  stable.
  - apply Stable_UpsertTenant_records. exists c, tn, pb. split_and!; [done|done| |done].
    rename select (_ || _ = false) into Ht. apply orb_false_iff in Ht as [Ht _]. by apply bool_decide_eq_false in Ht.
  - apply Stable_UpsertPartition_records. by eexists c, tn, pb, _.
Qed.

(** C25: an import only records what is there.  Whatever fails, [Import] runs no
    DDL, leaves parents and rows as they are, and adds at most rows and
    tenants of children that PostgreSQL lists for the registered parent and
    whose name and bound agree. *)
Theorem Import_only_records ref w o w' :
  Import ref w = (o, w') →
  db w' = db w ∨
  ∃ prow children,
    get_parent (ParentRef.SchemaName ref, ParentRef.TableName ref) (meta (db w)) = Ok prow ∧
    listed ref children (db w) ∧ records prow children (db w) (db w').
Proof.
  intros [[[Hd _] _]|(prow & k & cs & n & known & w1 & Hp & _ & Hl & _ & [Hd1 _] & _ & Hrun)]%Import_run;
    [by left|right].
  exists prow, cs. split_and!; [done|done|]. rewrite <- Hd1.
  revert Hrun. match goal with |- ?m w1 = _ → _ => enough (Stable (on_db (records prow cs)) m) as Hs by apply Hs end.
  stable. by apply Stable_import_one.
Qed.

(** An import does not start on a wrong parent.  When PostgreSQL lists a
    child whose bound is not one interval of the parent, [Import] does not
    return and changes nothing, whatever fails. *)
Theorem Import_mismatch ref prow k children c w o w' :
  get_parent (ParentRef.SchemaName ref, ParentRef.TableName ref) (meta (db w)) = Ok prow →
  intervalKindFromLabel (Parent.PartitionInterval prow) = Ok k →
  listed ref children (db w) → c ∈ children → mismatched k c →
  Import ref w = (o, w') →
  db w' = db w ∧ ∀ rep, o ≠ Ret rep.
Proof.
  intros Hp Hk (rows & Hq & Hs) Hc Hm
    [[[Hd _] Ho]|(prow' & k' & cs & _ & _ & _ & Hp' & Hk' & (rows' & Hq' & Hs') & Hpre & _)]%Import_run; [done|].
  assert (prow' = prow) as -> by congruence. assert (k' = k) as -> by congruence.
  assert (cs = children) as -> by congruence. exfalso. by eapply (proj1 (preflight_Ok k children)).
Qed.

(** ** Importing again *)

Context {QE : Quiet E}.

(** The metadata have the row and the tenant of [c] if it agrees. *)
Definition known_child (prow : Parent.row) (m : Meta) (c : pgChild) : Prop :=
  ∀ tn pb, aligned c = Some (tn, pb) →
    (∃ r, r ∈ partitions m ∧ Partition.ParentTableID r = Parent.ID prow ∧ Partition.Name r = fq c) ∧
    (BTenantId pb = "" ∨ has_tenant (Parent.ID prow) (BTenantId pb) m = true).

Lemma import_one_known prow m names known rep c (w : World C) :
  (∀ r, r ∈ partitions m → Partition.ParentTableID r = Parent.ID prow → Partition.Name r ∈ names) →
  (∀ t, has_tenant (Parent.ID prow) t m = true → t ∈ known) →
  known_child prow m c →
  ∃ rep', import_one prow names (rep, known) c w = (Ret (rep', known), w) ∧ Imported rep' = Imported rep.
Proof.
  intros Hnames Hknown Hc. unfold known_child, aligned in Hc. unfold import_one.
  destruct (Parse (fq c)) as [tn|e]; [|by eexists].
  destruct (parseBoundExpr (BoundExpr c)) as [pb|e]; [|by eexists]. cbv zeta.
  destruct (bool_decide (compareNameAndBound tn pb = "")); cbn [negb]; [|by eexists].
  destruct (Hc tn pb eq_refl) as [(r & Hr & Hp & Hn) Ht].
  assert (register_child_tenant prow (BTenantId pb) known w = (Ret known, w)) as Hreg.
  { unfold register_child_tenant. destruct Ht as [->|Ht%Hknown]; [done|].
    by rewrite (bool_decide_true (_ ∈ known)), orb_true_r by done. }
  rewrite (bind_Ret _ _ _ _ _ Hreg), bool_decide_true; [by eexists|]. rewrite <- Hn. by apply Hnames.
Qed.

Lemma import_fold_known prow m names known cs rep (w : World C) :
  (∀ r, r ∈ partitions m → Partition.ParentTableID r = Parent.ID prow → Partition.Name r ∈ names) →
  (∀ t, has_tenant (Parent.ID prow) t m = true → t ∈ known) →
  (∀ c, c ∈ cs → known_child prow m c) →
  ∃ rep', foldM (import_one prow names) (rep, known) cs w = (Ret (rep', known), w) ∧
          Imported rep' = Imported rep.
Proof.
  intros Hnames Hknown. revert rep. induction cs as [|c cs IH]; intros rep Hcs; cbn [foldM]; [by exists rep|].
  destruct (import_one_known prow m names known rep c w) as (rep1 & H1 & Hi1); [done..|apply Hcs; by left|].
  destruct (IH rep1) as (rep2 & H2 & Hi2); [intros; apply Hcs; by right|].
  exists rep2. rewrite (bind_Ret _ _ _ _ _ H1). split; [done|congruence].
Qed.

(** A second import finds nothing to do.  When no statement fails and the
    metadata have the row and the tenant of every agreeing child, [Import]
    returns, imports nothing and changes nothing. *)
Theorem Import_again ref prow k children w :
  get_parent (ParentRef.SchemaName ref, ParentRef.TableName ref) (meta (db w)) = Ok prow →
  intervalKindFromLabel (Parent.PartitionInterval prow) = Ok k →
  listed ref children (db w) → (∀ c, c ∈ children → ¬ mismatched k c) →
  (∀ c, c ∈ children → known_child prow (meta (db w)) c) →
  ∃ rep w', Import ref w = (Ret rep, w') ∧ Imported rep = [] ∧ db w' = db w.
Proof.
  intros Hp Hk (rows & Hq & Hs) Hpre Hc. unfold Import. cbv zeta.
  set (later_world := λ v : World C, mkWorld (db w) (S (tick v)) (trace w)).
  rewrite (bind_Ret _ _ _ (Ok prow) (later_world w)).
  2:{ apply attempt_Ret. unfold GetParentTable. by rewrite quiet_meta_read, Hp. }
  rewrite Hk, bind_wrapping_Ok.
  rewrite (bind_Ret _ _ _ children (later_world (later_world w))).
  2:{ unfold listChildrenFromPG. rewrite (bind_Ret _ _ _ rows (later_world (later_world w))); [by rewrite Hs|].
      apply wrapping_Ret. unfold QueryRows. rewrite quiet_statement. cbn [db later_world]. by rewrite Hq. }
  rewrite (proj2 (preflight_Ok k children) Hpre), bind_lift_Ok. unfold reconcile.
  set (w2 := later_world (later_world w)). set (w3 := later_world w2). set (w4 := later_world w3).
  set (existing := list_partitions (Parent.ID prow) (scanned (tick w2) (meta (db w)))).
  rewrite (bind_Ret _ _ _ existing w3).
  2:{ apply wrapping_Ret. unfold ListPartitionsForParent. by rewrite quiet_meta_read. }
  unfold loadKnownTenants. set (trows := list_tenants env_collate (Parent.ID prow)
    (mkMeta (parent_tables (meta (db w))) (env_scan _ (tick w3) (tenants (meta (db w)))) (partitions (meta (db w))))).
  rewrite (bind_Ret _ _ _ (Tenant.ID <$> trows) w4).
  2:{ rewrite (bind_Ret _ _ _ trows w4); [done|]. apply wrapping_Ret. unfold ListTenantsForParent.
      by rewrite quiet_meta_read. }
  destruct (import_fold_known prow (meta (db w)) (Partition.Name <$> existing) (Tenant.ID <$> trows)
              children empty_reconcile w4) as (rep & Hrun & Hi).
  - intros r Hr Hpar. apply list_elem_of_fmap_2. unfold existing, list_partitions, scanned.
    by rewrite merge_sort_Permutation, list_elem_of_filter, env_scan_perm.
  - intros t (r & Hr & Hkey)%has_tenant_true. injection Hkey as Hpar <-.
    apply list_elem_of_fmap_2. unfold trows, list_tenants. cbn [tenants].
    by rewrite merge_sort_Permutation, list_elem_of_filter, env_scan_perm.
  - done.
  - eexists _, w4. rewrite (bind_Ret _ _ _ _ _ Hrun). split; [reflexivity|]. by split.
Qed.
End import.

(** ** What the provisioner creates is imported *)

Definition importer_kind (k : kind) : intervalKind :=
  match k with
  | kindHourly => intervalHourly
  | kindDaily => intervalDaily
  | kindWeekly => intervalWeekly
  | kindMonthly => intervalMonthly
  | kindUnknown => intervalUnknown
  end.

Lemma matches_daily x y :
  y = x + Day → intervalMatches intervalDaily (mkBounds (mkTime x 0) (mkTime y 0)) = true.
Proof.
  intros ->. unfold intervalMatches, Sub. cbn [From To unix_ns].
  replace (x + Day - x) with Day by lia. vm_compute. reflexivity.
Qed.
Lemma matches_weekly x y :
  y = x + 7 * Day → intervalMatches intervalWeekly (mkBounds (mkTime x 0) (mkTime y 0)) = true.
Proof.
  intros ->. unfold intervalMatches, Sub. cbn [From To unix_ns].
  replace (x + 7 * Day - x) with (7 * Day) by lia. vm_compute. reflexivity.
Qed.
Lemma matches_monthly x :
  intervalMatches intervalMonthly (mkBounds (mkTime x 0) (mkTime (next_ns kindMonthly x) 0)) = true.
Proof.
  unfold intervalMatches, Equal, next_ns, nextUTC. cbn [From To]. cbn [unix_ns]. apply Z.eqb_refl.
Qed.

Lemma period_matches k z :
  k ≠ kindUnknown → k ≠ kindHourly → intervalMatches (importer_kind k) (period k z) = true.
Proof.
  intros Hk Hh. unfold period. destruct k; cbn [importer_kind].
  - by destruct Hk.
  - by destruct Hh.
  - apply matches_daily, next_daily.
  - apply matches_weekly, next_weekly.
  - apply matches_monthly.
Qed.

(** Midnights print as whole seconds. *)
Lemma midnight_stamp n : 0 <= Year (mkTime ((n - unix_epoch_days) * Day) 0) <= 9999 →
  second_stamp (mkTime ((n - unix_epoch_days) * Day) 0) = true.
Proof.
  intros Hy. unfold second_stamp. cbn [unix_ns zone]. rewrite !andb_true_iff, !Z.eqb_eq, !Z.leb_le.
  split_and!; [done| |lia|lia]. unfold Day, Hour, Minute. rewrite !Z.mul_assoc. apply Z_mod_mult.
Qed.

Lemma period_stamps k z :
  k ≠ kindUnknown → k ≠ kindHourly →
  0 <= Year (From (period k z)) <= 9999 → 0 <= Year (To (period k z)) <= 9999 →
  second_stamp (From (period k z)) = true ∧ second_stamp (To (period k z)) = true.
Proof.
  intros Hk Hh. pose proof (kind_grid k Hk). unfold period. cbn [From To].
  rewrite <- (grid_next (floor_ns k) (next_ns k)).
  destruct (floor_midnight k z Hk Hh) as [n ->].
  destruct (floor_midnight k (next_ns k ((n - unix_epoch_days) * Day)) Hk Hh) as [n' ->].
  intros. split; by apply midnight_stamp.
Qed.

(** C26: what the provisioner creates, the importer accepts. A daily, weekly
    or monthly partition of four-digit years, under the name the provisioner
    gives it, whose tenant, a word, the name shows without ambiguity, and
    whose bounds PostgreSQL prints in a UTC session, is no mismatch, and its
    name and bound agree. *)
Theorem provisioned_child_accepted prow tenant k z c :
  k ≠ kindUnknown → k ≠ kindHourly →
  0 <= Year (From (period k z)) <= 9999 → 0 <= Year (To (period k z)) <= 9999 →
  (∀ s, tenant = Some s → word_regex s = true) →
  Build (bounded_name prow tenant k (period k z)) = Ok (fq c) →
  tenant_unambiguous (bounded_name prow tenant k (period k z)) = true →
  BoundExpr c = printed_bound tenant (period k z) →
  ¬ mismatched (importer_kind k) c ∧
  aligned c = Some (parsed_form (bounded_name prow tenant k (period k z)),
                    mkParsedBound (period k z) (ToUpper (default "" tenant)) false).
Proof.
  intros Hk Hh Hf Ht Hw Hb Hu He. destruct (period_stamps k z Hk Hh Hf Ht) as [Sf St].
  pose proof (parseBoundExpr_printed tenant (period k z) Sf St Hw) as Hparse. rewrite <- He in Hparse.
  split.
  - intros (pb & Hpb & _ & Hm). rewrite Hparse in Hpb. apply Ok_inj in Hpb as <-. cbn [BBounds] in Hm.
    by rewrite period_matches in Hm.
  - unfold aligned. rewrite Hparse.
    rewrite (proj2 (Parse_Build_unambiguous _ _ Hb (λ _, Hf)) Hu).
    rewrite bool_decide_true; [done|]. unfold compareNameAndBound, parsed_form, bounded_name.
    cbn [Naming.IsDefault BIsDefault eqb negb Naming.TenantId BTenantId TBounds BBounds].
    rewrite ToUpper_idem, bool_decide_true; [|done|by destruct tenant; [apply word_regex_bytes, Hw|]]. cbn [negb].
    destruct (floor_midnight k z Hk Hh) as [n Hn].
    unfold Equal, rendered_from. cbn [unix_ns TBounds From UTC period].
    rewrite Hn. replace (local_day _) with n; [by rewrite Z.eqb_refl|].
    unfold local_day, local_ns. cbn [unix_ns zone]. unfold Day, Hour, Minute, Second, Millisecond, Microsecond. dlia.
Qed.

(** ** Examples *)

(** PostgreSQL lists a partition of today, one with another name and the
    default. *)
Definition listing (sql : string) (args : list value) : res (list (list value)) :=
  Ok (map (map VText)
     [["app"; "events_20260615"; "FOR VALUES FROM ('2026-06-15 00:00:00+00') TO ('2026-06-16 00:00:00+00')"];
      ["app"; "events_20260616"; "FOR VALUES FROM ('2026-06-17 00:00:00+00') TO ('2026-06-18 00:00:00+00')"];
      ["app"; "events_old"; "FOR VALUES FROM ('2020-01-01 00:00:00+00') TO ('2020-01-02 00:00:00+00')"];
      ["app"; "events_default"; "DEFAULT"]]).
Definition listing_children : list pgChild :=
  Eval vm_compute in match scan_children (match listing "" [] with Ok l => l | Err _ => [] end) with
                     | Ok l => l | Err _ => [] end.
Definition importing : Env (list string) := scenario listing no_fault (λ _, noon).
#[export] Instance importing_quiet : Quiet importing.
Proof. by intros n. Qed.
(** The reply of the last insertion is lost. *)
Definition importing_lossy : Env (list string) :=
  scenario listing (λ n, if (n =? 7)%nat then Some (Applied (PgError "08006")) else None) (λ _, noon).
Definition to_import : World (list string) := start (mkMeta [events None "daily" thirty_days 2] [] []).
Definition imported_world : World (list string) := (Import (E := importing) app_events to_import).2.

Lemma listed_example (w : World (list string)) : listed (E := importing) app_events listing_children (db w).
Proof. by eexists. Qed.

Lemma Import_report_exact_witness :
  let rep := mkReconcileReport
    [mkPartitionRef (mkBounds june_15 (Add june_15 Day)) "app" "events" "" false;
     mkPartitionRef zero_Bounds "app" "events" "" true]
    [mkDrifted "app.events_20260616" (mkBounds (Add june_15 Day) zero_Time)
       "FOR VALUES FROM ('2026-06-17 00:00:00+00') TO ('2026-06-18 00:00:00+00')"
       "bounds.From mismatch: name=%s, bound=%s"]
    [] [mkSkipped "app.events_old" "non-conforming name: " (Msg "suffix must be default or YYYYMMDD, got %q")] in
  ∃ prow k children n,
    get_parent ("app", "events") (meta (db to_import)) = Ok prow ∧
    intervalKindFromLabel (Parent.PartitionInterval prow) = Ok k ∧
    listed (E := importing) app_events children (db to_import) ∧
    (∀ c, c ∈ children → ¬ mismatched k c) ∧
    rep = expected_report (list_partitions (Parent.ID prow)
            (scanned (E := importing) n (meta (db to_import)))) children.
Proof.
  intros rep. apply (Import_report_exact (E := importing) app_events to_import rep imported_world).
  vm_compute. reflexivity.
Defined.

Lemma Import_only_records_witness :
  let r := Import (E := importing_lossy) app_events to_import in
  db r.2 = db to_import ∨
  ∃ prow children,
    get_parent ("app", "events") (meta (db to_import)) = Ok prow ∧
    listed (E := importing_lossy) app_events children (db to_import) ∧
    records (E := importing_lossy) prow children (db to_import) (db r.2).
Proof.
  intros r. apply (Import_only_records (E := importing_lossy) app_events to_import r.1).
  apply surjective_pairing.
Defined.

(** The same children under a parent that is registered as weekly. *)
Lemma Import_mismatch_witness :
  let w := start (mkMeta [events None "weekly" thirty_days 2] [] []) in
  let r := Import (E := importing) app_events w in
  db r.2 = db w ∧ ∀ rep, r.1 ≠ Ret rep.
Proof.
  intros w r. eapply (Import_mismatch (E := importing) app_events (events None "weekly" thirty_days 2)
    intervalWeekly listing_children).
  - reflexivity.
  - reflexivity.
  - apply listed_example.
  - by left.
  - eexists. split; [vm_compute; reflexivity|]. split; vm_compute; reflexivity.
  - apply surjective_pairing.
Defined.

Lemma Import_again_witness :
  ∃ rep w', Import (E := importing) app_events imported_world = (Ret rep, w') ∧ Imported rep = [] ∧
    db w' = db imported_world.
Proof.
  apply (Import_again (E := importing) app_events (events None "daily" thirty_days 2) intervalDaily listing_children).
  - vm_compute. reflexivity.
  - reflexivity.
  - apply listed_example.
  - apply preflight_Ok. vm_compute. reflexivity.
  - intros c Hc tn pb. repeat (apply elem_of_cons in Hc as [->|Hc]; [vm_compute; intros [= <- <-]|]);
      try (by apply not_elem_of_nil in Hc); try done;
      (split; [|by left]); first [eexists; split; [vm_compute; by left|by split]
                                 |eexists; split; [vm_compute; right; by left|by split]].
Defined.

Lemma provisioned_child_accepted_witness :
  let c := mkPgChild "app" "events_20260615"
             "FOR VALUES FROM ('2026-06-15 00:00:00+00') TO ('2026-06-16 00:00:00+00')" in
  let b := period kindDaily (unix_ns noon) in
  ¬ mismatched intervalDaily c ∧
  aligned c = Some (parsed_form (bounded_name daily_events None kindDaily b), mkParsedBound b "" false).
Proof.
  intros c b. refine (provisioned_child_accepted daily_events None kindDaily (unix_ns noon) c _ _ _ _ _ _ _ _).
  - discriminate.
  - discriminate.
  - vm_compute. split; congruence.
  - vm_compute. split; congruence.
  - discriminate.
  - vm_compute. reflexivity.
  - vm_compute. reflexivity.
  - vm_compute. reflexivity.
Defined.

(** ** Tenants in lower case *)

(** What PostgreSQL lists for the partitions of the metadata. *)
Definition listing_of (rows : list Partition.row) (sql : string) (args : list value) : res (list (list value)) :=
  Ok ((λ r, let '(schema, table) := default ("", "") (Provisioner.splitFQ (Partition.Name r)) in
            map VText
            [schema; table;
             if Partition.IsDefault r then "DEFAULT"
             else printed_bound (Partition.TenantID r) (mkBounds (Partition.BoundsFrom r) (Partition.BoundsTo r))])
        <$> rows).

(** A tenant in lower case becomes two.  The partitions of tenant [acme]
    are provisioned and then imported: the report is empty, as everything is
    known, but the parser has upper-cased the tenant, so a second tenant
    [ACME] is registered.  Provisioning it reports three partitions created and
    records none, because their names are those of [acme]. *)
Theorem import_phantom_tenant :
  let tenanted := events (Some "tenant_id") "daily" thirty_days 2 in
  let w0 := start (mkMeta [tenanted] [Tenant.mk "acme" "P1"] []) in
  let w1 := (EnsurePartitions (E := calm noon) app_events (Some "acme") w0).2 in
  let r2 := Import (E := scenario (listing_of (partitions (meta (db w1)))) no_fault (λ _, noon)) app_events w1 in
  let r3 := EnsurePartitions (E := calm noon) app_events (Some "ACME") r2.2 in
  r2.1 = Ret (mkReconcileReport [] [] [] []) ∧
  Tenant.ID <$> tenants (meta (db r2.2)) = ["acme"; "ACME"] ∧
  r3.1 = Ret (mkEnsureReport 3 false) ∧
  length (filter (λ r, Partition.TenantID r = Some "ACME") (partitions (meta (db r3.2)))) = 0%nat.
Proof. cbv zeta. split_and!; vm_compute; reflexivity. Qed.
