(* ===== verification/Manager.v ===== *)
(** * The facade ([manager.go], [drain.go], [clock.go])

    The calls of a manager, wired as [New] wires them: the registry provisions
    with [EnsurePartitions] and drops with [DropAll], the maintainer locks with
    the advisory lock of the pool.  Any sequence of calls, whatever fails in
    them, keeps the integrity of the metadata. *)

From S2P Require Import Prelude GoTime GoStrings Errs Naming Periods Store World Logic Repo Retry Scenario Provisioner Ensure Retention Sweep Registry Registration Removal AdvisoryLock Drain Maintainer Maintenance Importer Import.
Local Open Scope string_scope.
Local Open Scope Z_scope.

(** ** Options of a drain ([drain.go]) *)

Record drainOptions := mkDrainOptions { tenant : option string; batchSize : Z; maxBatches : Z }.
Definition DrainOption : Type := drainOptions → drainOptions.
Definition WithBatchSize (n : Z) : DrainOption := λ o,
  if 0 <? n then mkDrainOptions (tenant o) n (maxBatches o) else o.
Definition WithMaxBatches (n : Z) : DrainOption := λ o,
  if 0 <=? n then mkDrainOptions (tenant o) (batchSize o) n else o.
Definition WithTenant (t : string) : DrainOption := λ o, mkDrainOptions (Some t) (batchSize o) (maxBatches o).
Definition evalDrainOptions (opts : list DrainOption) : drainOptions :=
  fold_left (λ o opt, opt o) opts (mkDrainOptions None 0 0).
(** What [Manager.PartitionData] passes on. *)
Definition drain_Options (o : drainOptions) : Options.t := Options.mk (tenant o) (batchSize o) (maxBatches o).

(** The options one can give, as data: their meaning is the constructor's. *)
Inductive setting := SetBatchSize (n : Z) | SetMaxBatches (n : Z) | SetTenant (t : string).
Definition option_of (s : setting) : DrainOption :=
  match s with
  | SetBatchSize n => WithBatchSize n
  | SetMaxBatches n => WithMaxBatches n
  | SetTenant t => WithTenant t
  end.
(** The last of a list that is [Some]. *)
Definition last_of {A B} (f : A → option B) (l : list A) : option B := last (omap f l).
Definition batch_sizes (s : setting) : option Z :=
  match s with SetBatchSize n => if 0 <? n then Some n else None | _ => None end.
Definition batch_limits (s : setting) : option Z :=
  match s with SetMaxBatches n => if 0 <=? n then Some n else None | _ => None end.
Definition tenants_set (s : setting) : option string := match s with SetTenant t => Some t | _ => None end.

Lemma last_of_snoc {A B} (f : A → option B) l x :
  last_of f (l ++ [x]) = match f x with Some b => Some b | None => last_of f l end.
Proof. unfold last_of. rewrite omap_app. cbn. destruct (f x); [by rewrite last_snoc|by rewrite app_nil_r]. Qed.

Lemma evalDrainOptions_snoc opts opt : evalDrainOptions (opts ++ [opt]) = opt (evalDrainOptions opts).
Proof. unfold evalDrainOptions. by rewrite fold_left_app. Qed.

(** The options of a drain mean what their comments say.  The last positive
    batch size counts, 1000 without one; the last batch limit that is not
    negative counts, none without one; the last tenant counts, the empty
    string included, and all tenants without one. *)
Theorem drain_options_effective (l : list setting) :
  resolved (drain_Options (evalDrainOptions (option_of <$> l))) =
  Options.mk (last_of tenants_set l) (default 1000 (last_of batch_sizes l)) (default 0 (last_of batch_limits l)).
Proof.
  assert (evalDrainOptions (option_of <$> l) =
    mkDrainOptions (last_of tenants_set l) (default 0 (last_of batch_sizes l)) (default 0 (last_of batch_limits l)) ∧
    (∀ n, last_of batch_sizes l = Some n → 0 < n) ∧ (∀ n, last_of batch_limits l = Some n → 0 <= n)) as (-> & H1 & H2).
  { induction l as [|s l (IH & H1 & H2)] using rev_ind; [done|].
    rewrite fmap_app. cbn [fmap list_fmap]. rewrite evalDrainOptions_snoc, IH, !last_of_snoc. destruct s as [n|n|t]; cbn; [| |done].
    - unfold WithBatchSize. destruct (Z.ltb_spec 0 n); cbn; (split; [done|]); split; [naive_solver|done|done|done].
    - unfold WithMaxBatches. destruct (Z.leb_spec 0 n); cbn; (split; [done|]); split; [done|naive_solver|done|done]. }
  unfold resolved, drain_Options. cbn. f_equal.
  - destruct (last_of batch_sizes l) as [n|]; [|done]. cbn. specialize (H1 n eq_refl).
    by destruct (Z.leb_spec n 0); [lia|].
  - destruct (last_of batch_limits l) as [n|]; [|done]. cbn. specialize (H2 n eq_refl).
    by destruct (Z.ltb_spec n 0); [lia|].
Qed.

(** ** The simulated clock ([clock.go])

    Its operations are critical sections of one mutex: a history of the clock
    is a sequence of them. *)

Definition SimulatedClock : Type := Time.
Definition NewSimulatedClock (t : Time) : SimulatedClock := t.
Definition SetTime (t : Time) (c : SimulatedClock) : SimulatedClock := t.
Definition AdvanceTime (d : Z) (c : SimulatedClock) : SimulatedClock := Add c d.
Definition clock_Now (c : SimulatedClock) : Time := c.

(** ** Reports

    The reason of a skipped partition is its prefix followed by the text of
    the cause, as in [Importer]. *)

Module Public.
Record DriftedPartition := mkDrifted { Name : string; NameBounds : Bounds; ActualBound : string; Reason : string }.
Record SkippedPartition := mkSkipped { SName : string; SReason : string; SCause : error }.
Record ReconcileReport := mkReconcile {
  Imported : list PartitionRef; Drifted : list DriftedPartition; Orphaned : list PartitionRef;
  Skipped : list SkippedPartition
}.
Record DrainAnomaly := mkAnomaly { MissingPartitionBounds : Bounds; TenantId : string; RowCount : Z }.
Record DrainReport := mkDrainReport { Anomalies : list DrainAnomaly; RowsMoved : Z; BatchesRun : Z }.
End Public.

Definition convertDrifted (l : list DriftedPartition) : list Public.DriftedPartition :=
  (λ d, Public.mkDrifted (DName d) (NameBounds d) (ActualBound d) (DReason d)) <$> l.
Definition convertSkipped (l : list SkippedPartition) : list Public.SkippedPartition :=
  (λ s, Public.mkSkipped (SName s) (SReason s) (SCause s)) <$> l.
Definition convertDrainReport (r : Report) : Public.DrainReport :=
  Public.mkDrainReport
    ((λ a, Public.mkAnomaly (Drain.MissingPartitionBounds a) (ATenantId a) (Drain.RowCount a)) <$> Drain.Anomalies r)
    (Drain.RowsMoved r) (Drain.BatchesRun r).

(** ** The calls *)

Section manager.
Context {C : Type} {E : Env C} (hook : Hook C).

(** The interfaces as [initInternals] fills them. *)
Definition registry_deps : Registry.Deps C := Registry.mkDeps EnsurePartitions (Some retentionDropperAdapter).
Definition maintainer_deps : Maintainer.Deps C :=
  Maintainer.mkDeps ListParents ListTenants EnsurePartitions (sweep_parent hook) poolLocker_TryLock.

Definition Manager_Maintain : M C unit := Maintain maintainer_deps.
Definition Manager_RegisterParent (p : ParentConfig.t) : M C unit := RegisterParent registry_deps p.
Definition Manager_RegisterTenant (t : TenantConfig.t) : M C unit := RegisterTenant registry_deps t.
Definition Manager_RemoveParent (ref : ParentRef.t) (opts : list RemoveOption) : M C unit :=
  RemoveParent registry_deps ref opts.
Definition Manager_RemoveTenant (ref : TenantConfig.t) : M C unit := RemoveTenant ref.
Definition Manager_ListParents : M C (list ParentInfo.t) := ListParents.
Definition Manager_ListTenants (ref : ParentRef.t) : M C (list TenantConfig.t) := ListTenants ref.
Definition ImportExisting (ref : ParentRef.t) : M C Public.ReconcileReport :=
  rep ← Import (ParentRef.mk (ParentRef.SchemaName ref) (ParentRef.TableName ref));
  mret (Public.mkReconcile (Imported rep) (convertDrifted (Drifted rep)) (Orphaned rep)
          (convertSkipped (SkippedChildren rep))).
(** A drain that stopped with an error yields no report. *)
Definition Manager_PartitionData (fuel : nat) (ref : ParentRef.t) (opts : list DrainOption)
    : M C (option Public.DrainReport) :=
  r ← PartitionData fuel (ParentRef.mk (ParentRef.SchemaName ref) (ParentRef.TableName ref))
        (drain_Options (evalDrainOptions opts));
  match r with
  | None => mret None
  | Some (_, Some e) => fail e
  | Some (rep, None) => mret (Some (convertDrainReport rep))
  end.

(** ** Histories *)

Inductive request :=
| RqMaintain
| RqRegisterParent (p : ParentConfig.t)
| RqRegisterTenant (t : TenantConfig.t)
| RqRemoveParent (ref : ParentRef.t) (opts : list RemoveOption)
| RqRemoveTenant (ref : TenantConfig.t)
| RqListParents
| RqListTenants (ref : ParentRef.t)
| RqImport (ref : ParentRef.t)
| RqPartitionData (fuel : nat) (ref : ParentRef.t) (opts : list DrainOption).

(** The client goes on whatever a call returns; a panic ends the process. *)
Definition ignoring {A} (m : M C A) : M C unit := attempt m ;; mret tt.
Definition serve (r : request) : M C unit :=
  match r with
  | RqMaintain => ignoring Manager_Maintain
  | RqRegisterParent p => ignoring (Manager_RegisterParent p)
  | RqRegisterTenant t => ignoring (Manager_RegisterTenant t)
  | RqRemoveParent ref opts => ignoring (Manager_RemoveParent ref opts)
  | RqRemoveTenant ref => ignoring (Manager_RemoveTenant ref)
  | RqListParents => ignoring Manager_ListParents
  | RqListTenants ref => ignoring (Manager_ListTenants ref)
  | RqImport ref => ignoring (ImportExisting ref)
  | RqPartitionData fuel ref opts => ignoring (Manager_PartitionData fuel ref opts)
  end.
Definition serve_all (l : list request) : M C unit := forM serve l.

(** Every statement of every call is a statement of the schema. *)
Context {HE : EnvLaws E} (Hhook : passive hook).

Lemma Stable_Call_meta s sql args : Stable same_meta (Call s sql args).
Proof. apply Stable_Call; [apply _|]. done. Qed.
#[export] Instance poolLocker_locking : Locking poolLocker_TryLock.
Proof.
  assert (∀ c s t, Stable same_meta (Unlock c s t)) as Hun.
  { intros. unfold Unlock. stable; apply Stable_Call_meta. }
  split.
  - intros schema table. unfold poolLocker_TryLock, TryLock. stable; apply Stable_Call_meta.
  - intros schema table w release w' Hrun. unfold poolLocker_TryLock in Hrun.
    apply bind_inv in Hrun as [(c & w1 & _ & Hrun)|[(? & _ & ?)|[_ ?]]]; [|done..].
    apply bind_inv in Hrun as [(b & w2 & _ & Hrun)|[(? & _ & ?)|[_ ?]]]; [|done..].
    destruct b; [|done]. injection Hrun as <- _. stable.
Qed.

Lemma Stable_meta_Call s sql args : Stable meta_steps (Call s sql args).
Proof. eapply Stable_weaken; [apply Stable_Call_meta|]. apply same_meta_steps. Qed.
Hint Resolve Stable_meta_Call Stable_EnsurePartitions_meta Stable_DropAll_meta : stable.

Lemma Stable_assertRow sql args missing ctx : Stable meta_steps (assertRow sql args missing ctx).
Proof. unfold assertRow. stable. Qed.
Hint Resolve Stable_assertRow : stable.
Lemma Stable_RegisterParent_meta p : Stable meta_steps (Manager_RegisterParent p).
Proof.
  unfold Manager_RegisterParent, RegisterParent, assertTableExists, assertPartitionedByRange, assertColumnExists,
    assertSchemaExists. stable. apply Stable_EnsurePartitions_meta.
Qed.
Lemma Stable_RegisterTenant_meta t : Stable meta_steps (Manager_RegisterTenant t).
Proof. unfold Manager_RegisterTenant, RegisterTenant. stable. apply Stable_EnsurePartitions_meta. Qed.
Lemma Stable_RemoveParent_meta ref opts : Stable meta_steps (Manager_RemoveParent ref opts).
Proof.
  unfold Manager_RemoveParent, RemoveParent, registry_deps. cbn [dropper]. stable. apply Stable_DropAll_meta.
Qed.
Lemma Stable_RemoveTenant_meta ref : Stable meta_steps (RemoveTenant ref).
Proof. unfold RemoveTenant. stable. Qed.
Lemma Stable_Import_meta ref : Stable meta_steps (Import ref).
Proof.
  unfold Import, reconcile, import_one, register_child_tenant, insertMetadata, listChildrenFromPG, loadKnownTenants.
  stable.
Qed.
Lemma Stable_drain_groups_meta schema dt label prow cols gs report an :
  Stable meta_steps (drain_groups schema dt label prow cols gs report an).
Proof.
  revert report an. induction gs as [|[k l] gs IH]; intros report an; cbn [drain_groups]; stable.
  unfold moveGroup. stable.
Qed.
Hint Resolve Stable_drain_groups_meta : stable.
Lemma Stable_drain_batches_meta schema dt label tc prow cols interval o fuel i report an :
  Stable meta_steps (drain_batches schema dt label tc prow cols interval o fuel i report an).
Proof.
  revert i report an. induction fuel as [|fuel IH]; intros i report an; cbn [drain_batches]; unfold readBatch; stable.
  apply Stable_range, _.
Qed.
Hint Resolve Stable_drain_batches_meta : stable.
Lemma Stable_PartitionData_meta fuel ref opts : Stable meta_steps (PartitionData fuel ref opts).
Proof.
  unfold PartitionData, TryLock, Unlock, partition_locked, drain, appendNullAnomalies, lookupInsertColumns,
    assertDefaultExists. stable.
Qed.

Lemma Stable_Maintain_meta w o w' : Manager_Maintain w = (o, w') → meta_steps w w'.
Proof.
  intros Hrun. unfold Manager_Maintain in Hrun.
  assert (Ensuring (ensurer maintainer_deps)) by apply EnsurePartitions_ensuring.
  assert (Sweeping (sweeper maintainer_deps)) by by apply sweep_parent_sweeping.
  assert (Locking (locker maintainer_deps)) by apply poolLocker_locking.
  assert (Listing (lister_parents maintainer_deps) (lister_tenants maintainer_deps)) by apply registry_listing.
  by eapply (Maintain_meta maintainer_deps).
Qed.

Lemma Stable_serve r : Stable meta_steps (serve r).
Proof.
  unfold serve, ignoring. stable.
  - intros w o w'. apply Stable_Maintain_meta.
  - apply Stable_RegisterParent_meta.
  - apply Stable_RegisterTenant_meta.
  - apply Stable_RemoveParent_meta.
  - apply Stable_RemoveTenant_meta.
  - unfold Manager_ListParents, ListParents. stable.
  - unfold Manager_ListTenants, ListTenants. stable.
  - unfold ImportExisting. stable. apply Stable_Import_meta.
  - unfold Manager_PartitionData. stable. apply Stable_PartitionData_meta.
Qed.

(** The metadata stay consistent whatever clients ask for.  Any sequence of
    calls of a manager, under any faults, cancellations and panics (a panic
    ends it), from a consistent state: keys, unique names, one default per
    owner and foreign keys hold at the end, and the metadata got there by
    statements of the schema alone. *)
Theorem history_keeps_WF l w o w' :
  WF (meta (db w)) → serve_all l w = (o, w') →
  WF (meta (db w')) ∧ rtc meta_step (meta (db w)) (meta (db w')).
Proof.
  intros Hwf Hrun. enough (Stable meta_steps (serve_all l)) as Hs.
  { apply Hs in Hrun. split; [by eapply WF_statements|done]. }
  unfold serve_all. stable. apply Stable_serve.
Qed.
End manager.

(** ** Examples *)

(** Register, maintain, import, drain, remove and list, while replies to
    commits are lost. *)
Definition session : list request :=
  [RqRegisterParent (events_config ""); RqMaintain; RqImport app_events; RqPartitionData 3 app_events [WithBatchSize 2];
   RqRemoveParent app_events [WithCascadeDrop]; RqListParents].
Lemma history_keeps_WF_witness :
  let r := serve_all (E := catalogued_lossy) None session (start empty_Meta) in
  WF (meta (db r.2)) ∧ rtc meta_step empty_Meta (meta (db r.2)).
Proof.
  intros r. apply (history_keeps_WF (E := catalogued_lossy) None passive_None session (start empty_Meta) r.1).
  - exact WF_empty.
  - apply surjective_pairing.
Defined.
