(* ===== verification/Upkeep.v ===== *)
(** * What a tick achieves

    [Maintainer] composed with the provisioner, the retention, the registry
    and the advisory lock: in a run in which nothing fails and the locks are
    free, one tick leaves every parent under automatic maintenance up to
    date.  Proved against the interface [Reliable], which the components
    implement. *)

From S2P Require Import Prelude GoTime GoStrings Errs TimeFormat Naming Periods Store World Logic Repo Retry Scenario Provisioner Ensure Retention Sweep Registry Registration Removal AdvisoryLock Maintainer Maintenance Manager.
Local Open Scope string_scope.
Local Open Scope Z_scope.

(** ** Interface *)

Definition ref_row (row : Parent.row) : ParentRef.t :=
  ParentRef.mk (Parent.SchemaName row) (Parent.TableName row).
(** The tenants of a parent: none of its own when it has no tenant column. *)
Definition tenants_of (row : Parent.row) (m : Meta) : list string :=
  Tenant.ID <$> filter (λ t, Tenant.ParentTableID t = Parent.ID row) (tenants m).
Definition owners (row : Parent.row) (m : Meta) : list (option string) :=
  if hasTenantCol row then Some <$> tenants_of row m else [None].

Lemma tenants_of_NoDup row m : WF m → NoDup (tenants_of row m).
Proof.
  intros Hwf%wf_tenant_keys. unfold tenants_of. induction (tenants m) as [|t l IH]; [constructor|].
  rewrite fmap_cons in Hwf. apply NoDup_cons in Hwf as [Ht Hl]. rewrite filter_cons.
  destruct (decide _) as [Hp|_]; [|by apply IH]. rewrite fmap_cons. apply NoDup_cons. split; [|by apply IH].
  intros (t' & Hi & [Hp' Hin]%list_elem_of_filter)%list_elem_of_fmap. apply Ht, list_elem_of_fmap.
  exists t'. split; [|done]. unfold Tenant.key. congruence.
Qed.

Section interface.
Context {C : Type} {E : Env C}.

(** The cutoff of a sweep that reads the clock at interaction [n]. *)
Definition cutoff_at (row : Parent.row) (n : nat) : Time :=
  timestamptz (computeCutoff (UTC (env_now n)) (Parent.RetentionPeriod row)).

(** What the maintainer can rely on when nothing fails. *)
Class Reliable (deps : Deps C) : Prop := {
  reliable_parents w : ∃ l w', lister_parents deps w = (Ret l, w') ∧ later w w' ∧
    l ≡ₚ parentInfoFromRow <$> parent_tables (meta (db w));
  reliable_tenants row w :
    get_parent (Parent.key row) (meta (db w)) = Ok row →
    word_regex (Parent.SchemaName row) = true → word_regex (Parent.TableName row) = true →
    ∃ l w', lister_tenants deps (ref_row row) w = (Ret l, w') ∧ later w w' ∧
      TenantConfig.TenantId <$> l ≡ₚ tenants_of row (meta (db w));
  reliable_lock schema table w : ∃ release w', locker deps schema table w = (Ret (Some release), w') ∧
    same_meta w w' ∧ ticks w w' ∧
    ∀ w1, ∃ w2, release w1 = (Ret tt, w2) ∧ same_meta w1 w2 ∧ ticks w1 w2;
  reliable_ensure row tenant k w :
    get_parent (Parent.key row) (meta (db w)) = Ok row →
    parseIntervalLabel (Parent.PartitionInterval row) = Ok k →
    hasTenantCol row = negb (bool_decide (tenant = None)) →
    well_named row tenant → registered row tenant (db w) →
    (∀ n bs, target row k n = Ok bs → nameable k bs ∧ ready row tenant k bs w) →
    ∃ rep w' n bs, ensurer deps (ref_row row) tenant w = (Ret rep, w') ∧
      (tick w <= n < tick w')%nat ∧ target row k n = Ok bs ∧ complete row tenant bs (meta (db w')) ∧
      only_adds (added row tenant k) (db w) (db w') ∧ freshens w w' ∧ meta_steps w w';
  reliable_sweep row w :
    get_parent (Parent.key row) (meta (db w)) = Ok row →
    (∀ r, r ∈ rows_of w → is_Some (splitFQ (Partition.Name r))) →
    ∃ rep w' n cs, sweeper deps (ref_row row) w = (Ret (rep, None), w') ∧ (tick w <= n < tick w')%nat ∧
      (∀ c, c ∈ cs ↔ expired (Parent.ID row) (cutoff_at row n) c = true ∧ c ∈ rows_of w) ∧
      meta (db w') = mark_all dropped cs (meta (db w))
}.
End interface.

(** ** Up to date *)

Section upkeep.
Context {C : Type} {E : Env C} (deps : Deps C) {HR : Reliable deps}.

(** [b] has its partition, or had it until it was past the cutoff. *)
Definition kept (row : Parent.row) (tenant : option string) (b : Bounds) (cutoff : Time) (r : Partition.row) : Prop :=
  covers row tenant b (Partition.set_status active r) ∧
  (Partition.Status r = active ∨ unix_ns (Partition.BoundsTo r) <= unix_ns cutoff).
(** For readings [n] and later [n'] of the clock since [w0]: the target set of
    [n] and the default are there, nothing that had expired at [n'] is
    active. *)
Definition up_to_date (row : Parent.row) (tenant : option string) (k : kind) (w0 w : World C) : Prop :=
  ∃ n bs n', (tick w0 <= n < n')%nat ∧ (n' < tick w)%nat ∧ target row k n = Ok bs ∧
    (∀ b, b ∈ bs → ∃ r, r ∈ rows_of w ∧ kept row tenant b (cutoff_at row n') r) ∧
    (∃ r, r ∈ rows_of w ∧ is_default_of row r) ∧
    (∀ r, r ∈ rows_of w → expired (Parent.ID row) (cutoff_at row n') r = false).

Lemma up_to_date_frames row tenant k w0 w w' :
  frames (Parent.ID row) (db w) (db w') → ticks w w' →
  up_to_date row tenant k w0 w → up_to_date row tenant k w0 w'.
Proof.
  intros (_ & _ & Hf) Ht (n & bs & n' & Hn & Hn' & Hbs & Hb & (rd & Hrd & Hd) & Hx). unfold ticks in Ht.
  assert (∀ r, Partition.ParentTableID r = Parent.ID row → r ∈ rows_of w ↔ r ∈ rows_of w') as Hr.
  { intros r Hp. unfold rows_of. split; intros Hin.
    - eapply proj2, (list_elem_of_filter (λ r, Partition.ParentTableID r = Parent.ID row)).
      rewrite Hf. by apply list_elem_of_filter.
    - eapply proj2, (list_elem_of_filter (λ r, Partition.ParentTableID r = Parent.ID row)).
      rewrite <- Hf. by apply list_elem_of_filter. }
  exists n, bs, n'. split_and!; [lia..|done| | |].
  - intros b Hin. destruct (Hb b Hin) as (r & Hin' & Hk). exists r. split; [|done]. apply Hr; [apply Hk|done].
  - exists rd. split; [|done]. apply Hr; [|done]. destruct Hd as [Ho _]. by injection Ho.
  - intros r Hin. destruct (decide (Partition.ParentTableID r = Parent.ID row)) as [Hp|Hp].
    + by apply Hx, Hr.
    + unfold expired. by rewrite bool_decide_false.
Qed.

(** What a sweep leaves of a complete target set. *)
Lemma complete_swept row tenant bs cutoff cs m m' :
  WF m → complete row tenant bs m →
  (∀ c, c ∈ cs ↔ expired (Parent.ID row) cutoff c = true ∧ c ∈ partitions m) → m' = mark_all dropped cs m →
  (∀ b, b ∈ bs → ∃ r, r ∈ partitions m' ∧ kept row tenant b cutoff r) ∧
  (∃ r, r ∈ partitions m' ∧ is_default_of row r) ∧
  (∀ r, r ∈ partitions m' → expired (Parent.ID row) cutoff r = false).
Proof.
  intros Hwf [Hb (rd & Hrd & Hd)] Hcs ->.
  assert (∀ r, r ∈ partitions m → bool_decide (Partition.ID r ∈ Partition.ID <$> cs) = true →
            expired (Parent.ID row) cutoff r = true) as Hin.
  { intros r Hr (c & Hc & Hin)%bool_decide_eq_true%list_elem_of_fmap. apply Hcs in Hin as [Hx Hin].
    by rewrite (NoDup_fmap_elem_eq Partition.ID _ r c (wf_ids _ Hwf) Hr Hin Hc). }
  split_and!.
  - intros b Hin'. destruct (Hb b Hin') as (r & Hr & Hc). eexists. split; [apply mark_all_elem; by exists r|].
    destruct (bool_decide _) eqn:Hx.
    + apply Hin in Hx; [|done]. unfold expired in Hx. rewrite !andb_true_iff, Z.leb_le in Hx. split; [|right; by apply Hx].
      destruct Hc as (? & Hi & ?). split_and!; [done| |done]. unfold in_existing in *. cbn.
      rewrite (bool_decide_false (active ≠ active)) by auto. destruct (Partition.IsDefault r); cbn in *; [done|]. by destruct (bool_decide (Partition.Status r ≠ active)).
    + assert (Partition.Status r = active) as Ha.
      { destruct Hc as (_ & Hi & _). unfold in_existing in Hi. apply andb_true_iff in Hi as [Hi _].
        apply negb_true_iff, orb_false_iff in Hi as [_ Hi%bool_decide_eq_false]. destruct (decide (Partition.Status r = active)) as [|Hn]; [done|by destruct (Hi Hn)]. }
      split; [|by left]. by destruct r; cbn in *; subst.
  - eexists. split; [apply mark_all_elem; by exists rd|]. by destruct (bool_decide _).
  - by apply mark_all_expired.
Qed.

(** ** The state between two steps *)

(** The pairs of a parent under automatic maintenance and one of its owners. *)
Definition pair (w0 : World C) (row : Parent.row) (tenant : option string) : Prop :=
  row ∈ parent_tables (meta (db w0)) ∧ Parent.AutomaticMaintenance row = true ∧ tenant ∈ owners row (meta (db w0)).

Notation todo := (Parent.row → option string → Prop).
(** [P]: the pairs whose target set is still to be ensured. *)
Record healthy (P : todo) (w0 w : World C) : Prop := {
  healthy_parents : parent_tables (meta (db w)) = parent_tables (meta (db w0));
  healthy_tenants : tenants (meta (db w)) = tenants (meta (db w0));
  healthy_wf : WF (meta (db w));
  healthy_fresh : fresh_ids w;
  healthy_names r : r ∈ rows_of w → is_Some (splitFQ (Partition.Name r));
  healthy_ticks : ticks w0 w;
  healthy_ready row tenant k n bs : P row tenant → parseIntervalLabel (Parent.PartitionInterval row) = Ok k →
    target row k n = Ok bs → ready row tenant k bs w
}.

(** The assumptions on the start: every pair can be provisioned, and what is
    made for one does not stand in the way of another. *)
Record maintainable (w0 : World C) : Prop := {
  mt_wf : WF (meta (db w0));
  mt_fresh : fresh_ids w0;
  mt_split r : r ∈ rows_of w0 → is_Some (splitFQ (Partition.Name r));
  mt_kind row : row ∈ parent_tables (meta (db w0)) → Parent.AutomaticMaintenance row = true →
    word_regex (Parent.SchemaName row) = true ∧ word_regex (Parent.TableName row) = true ∧
    ∃ k, parseIntervalLabel (Parent.PartitionInterval row) = Ok k;
  mt_pair row tenant k n bs : pair w0 row tenant →
    parseIntervalLabel (Parent.PartitionInterval row) = Ok k → target row k n = Ok bs →
    well_named row tenant ∧ nameable k bs ∧ ready row tenant k bs w0;
  mt_apart row tenant k n bs row' tenant' k' r :
    pair w0 row tenant → pair w0 row' tenant' → (row, tenant) ≠ (row', tenant') →
    parseIntervalLabel (Parent.PartitionInterval row) = Ok k → target row k n = Ok bs →
    parseIntervalLabel (Parent.PartitionInterval row') = Ok k' → added row' tenant' k' r →
    (∀ b, b ∈ bs → claims row tenant k b r → covers row tenant b r) ∧
    (Build (default_name row k) = Ok (Partition.Name r) → is_default_of row r)
}.

Lemma healthy_start w0 : maintainable w0 → healthy (pair w0) w0 w0.
Proof.
  intros []. split; try done.
  intros row tenant k n bs Hp Hk Hbs. by eapply mt_pair0.
Qed.

Lemma healthy_weaken (P Q : todo) w0 w :
  (∀ row t, Q row t → P row t) → healthy P w0 w → healthy Q w0 w.
Proof. intros HQ []. split; try done. intros. eapply healthy_ready0; [by apply HQ|done..]. Qed.

Lemma healthy_same P w0 w w' : same_meta w w' → ticks w w' → healthy P w0 w → healthy P w0 w'.
Proof.
  intros Hm Ht []. unfold same_meta, on_db in Hm.
  assert (ticks w0 w') as Hticks by (by etrans).
  assert (rows_of w' = rows_of w) as Hr by (unfold rows_of; by rewrite Hm).
  split; rewrite ?Hm, ?Hr; try done.
  - eapply fresh_ids_rows; [intros r; rewrite Hr; eauto|exact Ht|done].
  - intros row t k n bs Hp Hk Hbs. destruct (healthy_ready0 row t k n bs Hp Hk Hbs) as [H1 H2 H3].
    split; rewrite Hr; [done|done|]. intros r i Hin Hi. apply H3; [done|by etrans].
Qed.
Lemma later_same (w w' : World C) : later w w' → same_meta w w' ∧ ticks w w'.
Proof. intros [Hd Ht]. split; [unfold same_meta, on_db; by rewrite Hd|done]. Qed.

Lemma healthy_get P w0 w row :
  healthy P w0 w → row ∈ parent_tables (meta (db w0)) → get_parent (Parent.key row) (meta (db w)) = Ok row.
Proof.
  intros [] Hin. rewrite <- healthy_parents0 in Hin. unfold get_parent.
  destruct (List.find _ _) as [p|] eqn:Hf.
  - apply find_Some_elem in Hf as [Hp Hk%bool_decide_eq_true]. f_equal.
    by apply (NoDup_fmap_elem_eq Parent.key _ p row (wf_parent_keys _ healthy_wf0)).
  - pose proof (find_None_elem _ _ row Hf Hin) as Hn. cbn in Hn. by rewrite bool_decide_true in Hn.
Qed.

(** ** Ensuring one pair *)

Lemma owners_col row tenant m : tenant ∈ owners row m → hasTenantCol row = negb (bool_decide (tenant = None)).
Proof.
  unfold owners. destruct (hasTenantCol row).
  - by intros (t & -> & _)%list_elem_of_fmap.
  - by intros ->%list_elem_of_singleton.
Qed.
Lemma healthy_registered P w0 w row tenant :
  healthy P w0 w → pair w0 row tenant → registered row tenant (db w).
Proof.
  intros [] (Hrow & _ & Ht). split.
  - apply has_parent_true. exists row. by rewrite healthy_parents0.
  - intros t ->. apply has_tenant_true. unfold owners in Ht.
    destruct (hasTenantCol row); [|by apply list_elem_of_singleton in Ht].
    apply list_elem_of_fmap in Ht as (t' & [= <-] & (x & -> & [Hp Hx]%list_elem_of_filter)%list_elem_of_fmap).
    exists x. rewrite healthy_tenants0. split; [done|]. unfold Tenant.key. by rewrite Hp.
Qed.

Lemma Build_split tn fq : Build tn = Ok fq → is_Some (splitFQ fq).
Proof.
  intros H. pose proof H as [Hv _]%Build_Ok.
  destruct (Build_succeeds tn Hv) as (fq' & a & b & H' & Hs). rewrite H in H'. injection H' as <-. by exists (a, b).
Qed.
Lemma added_split row tenant k r : added row tenant k r → is_Some (splitFQ (Partition.Name r)).
Proof. intros (_ & _ & _ & _ & [(_ & _ & H)|(_ & _ & z & H & _)]); by eapply Build_split. Qed.

(** Rows that are in nobody's way keep a pair ready. *)
Lemma ready_added row tenant k bs w w' new :
  rows_of w' = (rows_of w ++ new)%list → ticks w w' → fresh_ids w' →
  (∀ r, r ∈ new → (∀ b, b ∈ bs → claims row tenant k b r → covers row tenant b r) ∧
    (Build (default_name row k) = Ok (Partition.Name r) → is_default_of row r)) →
  ready row tenant k bs w → ready row tenant k bs w'.
Proof.
  intros Hr Ht Hf Hnew [H1 H2 H3]. split.
  - intros b r Hb Hin. rewrite Hr in Hin. apply elem_of_app in Hin as [Hin|Hin]; [by apply H1|by apply Hnew].
  - intros r Hin. rewrite Hr in Hin. apply elem_of_app in Hin as [Hin|Hin]; [by apply H2|by apply Hnew].
  - exact Hf.
Qed.

Lemma ensure_step (P : todo) w0 w row tenant k :
  maintainable w0 → (∀ row t, P row t → pair w0 row t) → healthy P w0 w →
  P row tenant → parseIntervalLabel (Parent.PartitionInterval row) = Ok k →
  ∃ rep w' n bs, ensurer deps (ref_row row) tenant w = (Ret rep, w') ∧ (tick w <= n < tick w')%nat ∧
    target row k n = Ok bs ∧ complete row tenant bs (meta (db w')) ∧
    only_adds (added row tenant k) (db w) (db w') ∧
    healthy (λ row' t', P row' t' ∧ (row', t') ≠ (row, tenant)) w0 w'.
Proof.
  intros Hmt HP Hh Hp Hk. pose proof (HP _ _ Hp) as Hpair. pose proof Hpair as (Hrow & Hauto & Ho).
  destruct (mt_kind w0 Hmt row Hrow Hauto) as (Hw1 & Hw2 & _).
  destruct (reliable_ensure row tenant k w) as (rep & w' & n & bs & Hrun & Hn & Hbs & Hc & Hadd & [Ht Hf] & Hs).
  - by eapply healthy_get.
  - done.
  - by eapply owners_col.
  - destruct (target_Ok row k 0 Hk) as [bs0 Hbs0]. by eapply mt_pair.
  - by eapply healthy_registered.
  - intros n bs Hbs. split; [by eapply mt_pair|by eapply healthy_ready].
  - exists rep, w', n, bs. split_and!; [done|lia|lia|done..|]. pose proof Hadd as (Hpt & Htn & new & Hrows & Hnew).
    pose proof Hh as []. rewrite Forall_forall in Hnew. split.
    + congruence.
    + congruence.
    + by eapply WF_statements.
    + by apply Hf.
    + intros r. unfold rows_of. rewrite Hrows. intros [Hr|Hr]%elem_of_app; [by apply healthy_names0|].
      by eapply added_split, Hnew.
    + by etrans.
    + intros row' t' k' n' bs' [Hp' Hne] Hk' Hbs'. eapply (ready_added row' t' k' bs' w w' new); [done|done|by apply Hf| |].
      * intros r Hr. eapply (mt_apart w0 Hmt row' t' k' n' bs' row tenant k r); auto.
      * by eapply healthy_ready0.
Qed.

(** ** Ensuring a parent *)

Definition ensured (row : Parent.row) (tenant : option string) (k : kind) (w0 w : World C) : Prop :=
  ∃ n bs, (tick w0 <= n < tick w)%nat ∧ target row k n = Ok bs ∧ complete row tenant bs (meta (db w)).
(** A step that only adds rows of [row]. *)
Record grows (row : Parent.row) (w w' : World C) : Prop := {
  grows_rows r : r ∈ rows_of w → r ∈ rows_of w';
  grows_ticks : ticks w w';
  grows_frames pid : pid ≠ Parent.ID row → frames pid (db w) (db w')
}.
#[export] Instance grows_preorder row : PreOrder (grows row).
Proof.
  split.
  - intros w. by split.
  - intros w1 w2 w3 [] []. split; [auto|by etrans|]. intros. etrans; eauto.
Qed.
Lemma later_grows row w w' : later w w' → grows row w w'.
Proof. intros [Hd Ht]. split; [unfold rows_of; by rewrite Hd|done|intros; by rewrite Hd]. Qed.
Lemma ensured_grows row tenant k w0 w w' : grows row w w' → ensured row tenant k w0 w → ensured row tenant k w0 w'.
Proof.
  intros [Hr Ht _] (n & bs & Hn & Hbs & Hb & (rd & Hrd & Hd)). unfold ticks in Ht.
  exists n, bs. split_and!; [lia..|done|]. split.
  - intros b Hin. destruct (Hb b Hin) as (r & Hin' & Hc). exists r. split; [by apply Hr|done].
  - exists rd. split; [by apply Hr|done].
Qed.
Lemma ensured_since row tenant k w0 w1 w : ticks w0 w1 → ensured row tenant k w1 w → ensured row tenant k w0 w.
Proof. unfold ticks. intros Ht (n & bs & Hn & ?). exists n, bs. split; [lia|done]. Qed.

Section parent.
Context (w0 : World C) (Hmt : maintainable w0).
Context (row : Parent.row) (Hrow : row ∈ parent_tables (meta (db w0))) (Hauto : Parent.AutomaticMaintenance row = true).
Context (k : kind) (Hk : parseIntervalLabel (Parent.PartitionInterval row) = Ok k).

Lemma ensure_for_run (P : todo) w created tenant :
  (∀ row t, P row t → pair w0 row t) → healthy P w0 w → P row tenant →
  ∃ created' w', ensure_for deps (ref_row row) created tenant w = (Ret created', w') ∧
    healthy (λ row' t', P row' t' ∧ (row', t') ≠ (row, tenant)) w0 w' ∧
    grows row w w' ∧ ensured row tenant k w w'.
Proof.
  intros HP Hh Hp. destruct (ensure_step P w0 w row tenant k) as (rep & w' & n & bs & Hrun & Hn & Hbs & Hc & Hadd & Hh'); [done..|].
  eexists _, w'. split_and!.
  - unfold ensure_for. by rewrite (bind_Ret _ _ _ _ _ (attempt_Ret _ _ _ _ Hrun)).
  - done.
  - pose proof Hadd as (_ & _ & new & Hrows & _). split.
    + intros r Hr. unfold rows_of. rewrite Hrows. apply elem_of_app. by left.
    + unfold ticks. lia.
    + intros pid Hpid. eapply only_adds_frames; [|exact Hadd]. intros r Hr. by destruct Hr as [-> _].
  - by exists n, bs.
Qed.

Lemma ensure_list_run {X} (g : X → option string) l (P : todo) w created :
  NoDup (g <$> l) → (∀ row t, P row t → pair w0 row t) → healthy P w0 w → (∀ x, x ∈ l → P row (g x)) →
  ∃ created' w', foldM (λ created x, ensure_for deps (ref_row row) created (g x)) created l w = (Ret created', w') ∧
    healthy (λ row' t', P row' t' ∧ ¬ (row' = row ∧ t' ∈ g <$> l)) w0 w' ∧
    grows row w w' ∧ ∀ x, x ∈ l → ensured row (g x) k w w'.
Proof.
  revert P w created. induction l as [|x l IH]; intros P w created Hd HP Hh Hl; cbn [foldM].
  { eexists created, w. split_and!; [done| |done|by intros ? ?%not_elem_of_nil].
    eapply healthy_weaken; [|exact Hh]. by intros row' t' [? _]. }
  rewrite fmap_cons in Hd. apply NoDup_cons in Hd as [Hx Hd].
  destruct (ensure_for_run P w created (g x) HP Hh) as (c1 & w1 & H1 & Hh1 & Hg1 & He1); [apply Hl; by left|].
  destruct (IH (λ row' t', P row' t' ∧ (row', t') ≠ (row, g x)) w1 c1 Hd) as (c2 & w2 & H2 & Hh2 & Hg2 & He2).
  - intros row' t' [? _]. by apply HP.
  - done.
  - intros y Hy. split; [apply Hl; by right|]. intros [= Heq]. apply Hx. rewrite <- Heq. by apply list_elem_of_fmap_2.
  - exists c2, w2. split_and!.
    + by rewrite (bind_Ret _ _ _ _ _ H1).
    + eapply healthy_weaken; [|exact Hh2]. cbn. intros row' t' [Hp Hn]. split_and!; [done| |].
      * intros [= -> ->]. apply Hn. split; [done|by left].
      * intros [-> Hin]. apply Hn. split; [done|by right].
    + by etrans.
    + intros y [->|Hy]%elem_of_cons; [by eapply ensured_grows|].
      eapply ensured_since; [apply Hg1|by apply He2].
Qed.

Lemma ensure_all_run (P : todo) w :
  (∀ row t, P row t → pair w0 row t) → healthy P w0 w → (∀ t, pair w0 row t → P row t) →
  ∃ created w', ensure_all deps (parentInfoFromRow row) w = (Ret created, w') ∧
    healthy (λ row' t', P row' t' ∧ row' ≠ row) w0 w' ∧
    grows row w w' ∧ ∀ t, pair w0 row t → ensured row t k w w'.
Proof.
  intros HP Hh Hrowp. unfold ensure_all. cbn [ParentInfo.TenantColumn parentInfoFromRow].
  change (ref_of (parentInfoFromRow row)) with (ref_row row).
  assert (∀ t, pair w0 row t ↔ t ∈ owners row (meta (db w0))) as Hpair by (intros t; unfold pair; naive_solver).
  destruct (hasTenantCol row) eqn:Hcol.
  - assert (optionalTextValue (Parent.TenantColumn row) ≠ "") as Hne.
    { unfold hasTenantCol in Hcol. destruct (Parent.TenantColumn row); [|done].
      by apply negb_true_iff, bool_decide_eq_false in Hcol. }
    rewrite bool_decide_false by done. destruct (mt_kind w0 Hmt row Hrow Hauto) as (Hw1 & Hw2 & _).
    destruct (reliable_tenants row w) as (l & w1 & Hl & [Hsame Ht]%later_same & Hlist); [by eapply healthy_get|done..|].
    rewrite (bind_Ret _ _ _ _ _ (attempt_Ret _ _ _ _ Hl)).
    assert (tenants_of row (meta (db w)) = tenants_of row (meta (db w0))) as Htn.
    { unfold tenants_of. by rewrite (healthy_tenants _ _ _ Hh). }
    rewrite Htn in Hlist.
    assert (∀ t, t ∈ (Some ∘ TenantConfig.TenantId) <$> l ↔ t ∈ owners row (meta (db w0))) as Hin.
    { intros t. unfold owners. rewrite Hcol, list_fmap_compose, Hlist. done. }
    destruct (ensure_list_run (Some ∘ TenantConfig.TenantId) l P w1 (0, false)) as (c & w2 & Hrun & Hh2 & Hg & He).
    + rewrite list_fmap_compose. apply NoDup_fmap_2; [by intros ? ? [=]|]. rewrite Hlist.
      apply tenants_of_NoDup, (mt_wf w0 Hmt).
    + done.
    + by eapply healthy_same.
    + intros x Hx. apply Hrowp, Hpair, Hin. by apply list_elem_of_fmap_2.
    + exists c, w2. split_and!; [exact Hrun| | |].
      * eapply healthy_weaken; [|exact Hh2]. cbn. intros row' t' [Hp Hn]. split; [done|]. by intros [-> _].
      * etrans; [|exact Hg]. split; [unfold rows_of; by rewrite Hsame|done|intros; by apply same_meta_frames].
      * intros t Ht'%Hpair%Hin. apply list_elem_of_fmap in Ht' as (x & -> & Hx).
        eapply ensured_since; [exact Ht|by apply He].
  - assert (optionalTextValue (Parent.TenantColumn row) = "") as He.
    { unfold hasTenantCol in Hcol. destruct (Parent.TenantColumn row); [|done].
      by apply negb_false_iff, bool_decide_eq_true in Hcol. }
    rewrite bool_decide_true by done.
    assert (∀ t, pair w0 row t ↔ t = None) as Hnone.
    { intros t. rewrite Hpair. unfold owners. by rewrite Hcol, list_elem_of_singleton. }
    destruct (ensure_for_run P w (0, false) None HP Hh) as (c & w' & Hrun & Hh' & Hg & Hens); [by apply Hrowp, Hnone|].
    exists c, w'. split_and!; [exact Hrun| |done|by intros t ->%Hnone].
    eapply healthy_weaken; [|exact Hh']. cbn. intros row' t' [Hp Hn]. split; [done|]. by intros [= -> _].
Qed.

(** ** Sweeping a parent *)

Lemma filter_fmap_frame (f : Partition.row → Partition.row) pid (l : list Partition.row) :
  (∀ r, r ∈ l → f r = r ∨ Partition.ParentTableID r ≠ pid ∧ Partition.ParentTableID (f r) ≠ pid) →
  filter (λ r, Partition.ParentTableID r = pid) (f <$> l) = filter (λ r, Partition.ParentTableID r = pid) l.
Proof.
  induction l as [|r l IH]; intros Hf; [done|]. rewrite fmap_cons, !filter_cons, IH by (intros; apply Hf; by right).
  destruct (Hf r) as [->|[H1 H2]]; [by left|done|]. by rewrite !decide_False.
Qed.
Lemma mark_all_tables s cs m :
  parent_tables (mark_all s cs m) = parent_tables m ∧ tenants (mark_all s cs m) = tenants m.
Proof. revert m. induction cs as [|c cs IH]; intros m; [done|]. apply (IH (mark s (Partition.ID c) m)). Qed.
Lemma mark_all_frames pid s cs m :
  (∀ r c, r ∈ partitions m → c ∈ cs → Partition.ID r = Partition.ID c → Partition.ParentTableID r ≠ pid) →
  filter (λ r, Partition.ParentTableID r = pid) (partitions (mark_all s cs m)) =
  filter (λ r, Partition.ParentTableID r = pid) (partitions m).
Proof.
  revert m. induction cs as [|c cs IH]; intros m Hm; [done|].
  unfold mark_all. cbn [fold_left]. fold (mark_all s cs (mark s (Partition.ID c) m)).
  rewrite (IH (mark s (Partition.ID c) m)).
  - apply filter_fmap_frame. intros r Hr. case_bool_decide as Hi; [right|by left].
    split; cbn; (apply (Hm r c); [done|by left|done]).
  - intros r' c' (r & Hr & ->)%mark_elem Hc' Hi. revert Hi.
    case_bool_decide; cbn; intros Hi; (apply (Hm r c'); [done|by right|done]).
Qed.
Lemma WF_mark_all s cs m : WF m → WF (mark_all s cs m).
Proof. revert m. induction cs as [|c cs IH]; intros m Hm; [done|]. apply (IH (mark s _ m)), WF_mark, Hm. Qed.

Lemma ready_swept row' t' k' bs w w' cs :
  (∀ r, r ∈ rows_of w → Partition.ID r ∈ Partition.ID <$> cs → Partition.ParentTableID r ≠ Parent.ID row') →
  meta (db w') = mark_all dropped cs (meta (db w)) → ticks w w' →
  ready row' t' k' bs w → ready row' t' k' bs w'.
Proof.
  intros Hcs Hm Ht [H1 H2 H3].
  assert (∀ r', r' ∈ rows_of w' → ∃ r, r ∈ rows_of w ∧
    (r' = r ∨ r' = Partition.set_status dropped r ∧ Partition.ParentTableID r ≠ Parent.ID row')) as Hr.
  { intros r' Hin. unfold rows_of in Hin. rewrite Hm in Hin. apply mark_all_elem in Hin as (r & Hin & ->).
    exists r. split; [done|]. case_bool_decide; [right|by left]. split; [done|by apply Hcs]. }
  split.
  - intros b r' Hb (r & Hin & [->|[-> Hne]])%Hr Hc; [by apply H1|].
    destruct Hne. by apply (H1 b r Hb Hin Hc).
  - intros r' (r & Hin & [->|[-> Hne]])%Hr Hc; [by apply H2|]. by apply (H2 r Hin Hc).
  - intros r' n (r & Hin & Hr')%Hr Hn. replace (Partition.ID r') with (Partition.ID r) by (by destruct Hr' as [->|[-> _]]).
    apply H3; [done|]. by etrans.
Qed.

Lemma sweep_step (P : todo) w1 w :
  (∀ row t, P row t → pair w0 row t) → (∀ t, ¬ P row t) → healthy P w0 w →
  (∀ t, pair w0 row t → ensured row t k w1 w) →
  ∃ rep w', sweeper deps (ref_row row) w = (Ret (rep, None), w') ∧ healthy P w0 w' ∧
    (∀ pid, pid ≠ Parent.ID row → frames pid (db w) (db w')) ∧ ticks w w' ∧
    ∀ t, pair w0 row t → up_to_date row t k w1 w'.
Proof.
  intros HP Hno Hh Hens. pose proof Hh as [Hpt Htn Hwf Hf Hsp Ht Hrd].
  destruct (reliable_sweep row w) as (rep & w' & n & cs & Hrun & Hn & Hcs & Hm); [by eapply healthy_get|done|].
  assert (ticks w w') as Htick by (unfold ticks; lia).
  assert (∀ r c, r ∈ rows_of w → c ∈ cs → Partition.ID r = Partition.ID c → Partition.ParentTableID r = Parent.ID row) as Hown.
  { intros r c Hr [Hx Hc]%Hcs Hi. rewrite (NoDup_fmap_elem_eq Partition.ID _ r c (wf_ids _ Hwf) Hr Hc Hi).
    unfold expired in Hx. rewrite !andb_true_iff, bool_decide_eq_true in Hx. by destruct Hx as [[[? _] _] _]. }
  destruct (mark_all_tables dropped cs (meta (db w))) as [Hpt' Htn']. rewrite <- Hm in Hpt', Htn'.
  assert (∀ r', r' ∈ rows_of w' → ∃ r, r ∈ rows_of w ∧ (r' = r ∨ r' = Partition.set_status dropped r)) as Hr'.
  { intros r' Hin. unfold rows_of in Hin. rewrite Hm in Hin. apply mark_all_elem in Hin as (r & Hin & ->).
    exists r. split; [done|]. case_bool_decide; auto. }
  exists rep, w'. split_and!; [done| | |done|].
  - split.
    + congruence.
    + congruence.
    + rewrite Hm. by apply WF_mark_all.
    + eapply fresh_ids_rows; [|exact Htick|done]. intros r' (r & Hr & [->| ->])%Hr'; by exists r.
    + intros r' (r & Hr & [->| ->])%Hr'; by apply (Hsp r).
    + by etrans.
    + intros row' t' k' n' bs Hp Hk' Hbs. eapply (ready_swept row' t' k' bs w w' cs); [|done|done|by eapply Hrd].
      intros r Hr (c & Hi & Hc)%list_elem_of_fmap Hid. rewrite (Hown r c) in Hid by done.
      pose proof (HP _ _ Hp) as (Hrow' & _). apply (Hno t').
      by rewrite (NoDup_fmap_elem_eq Parent.ID _ row row' (wf_parent_ids _ (mt_wf _ Hmt)) Hrow Hrow' Hid).
  - intros pid Hpid. unfold frames. split_and!; [done..|]. rewrite Hm. apply mark_all_frames.
    intros r c Hr Hc Hi. rewrite (Hown r c) by done. congruence.
  - intros t Hp. destruct (Hens t Hp) as (n1 & bs & Hn1 & Hbs & Hcomp).
    destruct (complete_swept row t bs (cutoff_at row n) cs (meta (db w)) (meta (db w'))) as (H1 & H2 & H3); [done..|].
    exists n1, bs, n. split_and!; [lia|lia|lia|done..].
Qed.

Lemma same_meta_frame pid (w w' : World C) : same_meta w w' → frames pid (db w) (db w').
Proof. apply same_meta_frames. Qed.

(** The step of a parent. *)
Lemma processParent_run (P : todo) w :
  (∀ row t, P row t → pair w0 row t) → healthy P w0 w → (∀ t, pair w0 row t → P row t) →
  ∃ w', processParent deps (parentInfoFromRow row) w = (Ret parentResultProcessed, w') ∧
    healthy (λ row' t', P row' t' ∧ row' ≠ row) w0 w' ∧
    (∀ pid, pid ≠ Parent.ID row → frames pid (db w) (db w')) ∧ ticks w w' ∧
    ∀ t, pair w0 row t → up_to_date row t k w w'.
Proof.
  intros HP Hh Hrowp. unfold processParent. cbv zeta. rewrite bind_Now. set (w1 := mkWorld _ _ _).
  destruct (later_same w w1 (later_tick w)) as [Hs1 Ht1].
  cbn [ParentInfo.SchemaName ParentInfo.TableName parentInfoFromRow].
  destruct (reliable_lock (Parent.SchemaName row) (Parent.TableName row) w1)
    as (release & w2 & Hlock & Hs2 & Ht2 & Hrel).
  destruct (ensure_all_run P w2 HP) as (created & w3 & Hens & Hh3 & Hg3 & He3); [by do 2 (eapply healthy_same; [done..|])|done|].
  destruct (sweep_step (λ row' t', P row' t' ∧ row' ≠ row) w2 w3) as (rep & w4 & Hsw & Hh4 & Hf4 & Ht4 & Hu4);
    [by intros row' t' [? _]; apply HP|by intros t [_ ?]|done|done|].
  set (w5 := mkWorld (db w4) (S (tick w4)) (trace w4)).
  set (w6 := mkWorld (db w5) (tick w5) (trace w5 ++ [Counter "partman.parents_processed_total" 1 ["parent"; parentLabel (parentInfoFromRow row)]])%list).
  assert (later w4 w6) as [Hs6 Ht6]%later_same by (split; cbn; auto).
  destruct (Hrel w6) as (w7 & Hrun7 & Hs7 & Ht7). exists w7.
  assert (process_locked deps (parentInfoFromRow row) w2 = (Ret parentResultProcessed, w6)) as Hproc.
  { unfold process_locked. rewrite (bind_Ret _ _ _ _ _ Hens).
    rewrite (bind_Ret _ _ _ _ _ (attempt_Ret _ _ _ _ Hsw)). reflexivity. }
  assert (ticks w4 w7 ∧ ∀ pid, frames pid (db w4) (db w7)) as [Ht47 Hf47].
  { split; [by etrans|]. intros pid. transitivity (db w6); by apply same_meta_frame. }
  split_and!.
  - unfold recovering. rewrite (bind_Ret _ _ _ _ _ (attempt_Ret _ _ _ _ Hlock)).
    by rewrite (deferring_Ret _ _ _ _ _ _ Hproc Hrun7).
  - by do 2 (eapply healthy_same; [done..|]).
  - intros pid Hpid. transitivity (db w1); [by apply same_meta_frame|].
    transitivity (db w2); [by apply same_meta_frame|]. transitivity (db w3); [by apply Hg3|].
    transitivity (db w4); [by apply Hf4|apply Hf47].
  - transitivity w1; [done|]. transitivity w2; [done|]. transitivity w3; [apply Hg3|]. by transitivity w4.
  - intros t Hp. eapply up_to_date_frames; [apply Hf47|exact Ht47|].
    destruct (Hu4 t Hp) as (n & bs & n' & Hn & Hrest). exists n, bs, n'. split; [|done].
    unfold ticks in *. lia.
Qed.
End parent.

(** ** The tick *)

Lemma maintain_all_run_healthy w0 rows (P : todo) c w :
  maintainable w0 → (∀ n, env_ctx n = None) → NoDup rows →
  (∀ row, row ∈ rows → row ∈ parent_tables (meta (db w0))) →
  (∀ row t, P row t → pair w0 row t) → (∀ row t, row ∈ rows → pair w0 row t → P row t) → healthy P w0 w →
  ∃ c' w', foldM (maintain_one deps) c (parentInfoFromRow <$> rows) w = (Ret c', w') ∧
    healthy (λ row t, P row t ∧ row ∉ rows) w0 w' ∧ ticks w w' ∧
    (∀ pid, pid ∉ Parent.ID <$> rows → frames pid (db w) (db w')) ∧
    ∀ row t k, row ∈ rows → pair w0 row t → parseIntervalLabel (Parent.PartitionInterval row) = Ok k →
      up_to_date row t k w w'.
Proof.
  intros Hmt Hctx Hd Hin HP. revert P c w HP Hd Hin. induction rows as [|row rows IH]; intros P c w HP Hd Hin Hrows Hh.
  { exists c, w. cbn. split_and!; [done| |done|done|by intros ? ? ? ?%not_elem_of_nil].
    eapply healthy_weaken; [|exact Hh]. by intros row t [? _]. }
  apply NoDup_cons in Hd as [Hrow Hd]. cbn [foldM fmap list_fmap].
  set (w1 := mkWorld (db w) (S (tick w)) (trace w)).
  destruct (later_same w w1 (later_tick w)) as [Hs1 Ht1].
  assert (healthy P w0 w1) as Hh1 by (by eapply healthy_same).
  assert (∃ c1 w2, maintain_one deps c (parentInfoFromRow row) w = (Ret c1, w2) ∧
    healthy (λ row' t', P row' t' ∧ row' ≠ row) w0 w2 ∧ ticks w1 w2 ∧
    (∀ pid, pid ≠ Parent.ID row → frames pid (db w1) (db w2)) ∧
    ∀ t k, pair w0 row t → parseIntervalLabel (Parent.PartitionInterval row) = Ok k → up_to_date row t k w1 w2)
    as (c1 & w2 & Hone & Hh2 & Ht2 & Hf2 & Hu2).
  { unfold maintain_one, ctx_Err. rewrite bind_env, Hctx. fold w1.
    cbn [ParentInfo.AutomaticMaintenance parentInfoFromRow]. destruct (Parent.AutomaticMaintenance row) eqn:Hauto; cbn [negb].
    - destruct (mt_kind w0 Hmt row) as (_ & _ & k & Hk); [apply Hin; by left|done|].
      destruct (processParent_run w0 Hmt row (Hin row ltac:(by left)) Hauto k Hk P w1) as (w2 & Hrun & Hh2 & Hf2 & Ht2 & Hu2);
        [done|done|intros; by apply Hrows; [left|]|].
      eexists _, w2. split_and!; [by rewrite (bind_Ret _ _ _ _ _ Hrun)|done|done|done|].
      intros t k' Hp Hk'. assert (k' = k) as -> by congruence. by apply Hu2.
    - exists c, w1. split_and!; [done| |done|done|].
      + eapply healthy_weaken; [|exact Hh1]. by intros row' t' [? _].
      + intros t k (_ & Ha & _). congruence. }
  destruct (IH (λ row' t', P row' t' ∧ row' ≠ row) c1 w2) as (c2 & w3 & Hrest & Hh3 & Ht3 & Hf3 & Hu3); [|done|..|done|].
  - intros row' t' [? _]. by apply HP.
  - intros row' Hr. apply Hin. by right.
  - intros row' t' Hr Hp. split; [apply Hrows; [by right|done]|]. by intros ->.
  - assert (Parent.ID row ∉ Parent.ID <$> rows) as Hid.
    { intros (row' & Hid & Hr)%list_elem_of_fmap. apply Hrow.
      rewrite (NoDup_fmap_elem_eq Parent.ID _ row row' (wf_parent_ids _ (mt_wf _ Hmt))); [done|..|done]; apply Hin; [by left|by right]. }
    exists c2, w3. rewrite (bind_Ret _ _ _ _ _ Hone). split_and!; [done| | | |].
    + eapply healthy_weaken; [|exact Hh3]. cbn. intros row' t' [Hp Hn]. apply not_elem_of_cons in Hn as [? ?]. by split.
    + transitivity w1; [exact Ht1|]. by transitivity w2.
    + intros pid [H1 H2]%not_elem_of_cons.
      transitivity (db w1); [by apply same_meta_frame|]. transitivity (db w2); [by apply Hf2|by apply Hf3].
    + assert (∀ row t k wa wb wc, ticks wa wb → up_to_date row t k wb wc → up_to_date row t k wa wc) as Hsince.
      { intros row' t k wa wb wc Ht (n & bs & n' & Hn & Hr). exists n, bs, n'. split; [|done]. unfold ticks in Ht. lia. }
      intros row' t k [->|Hr]%elem_of_cons Hp Hk.
      * eapply Hsince; [exact Ht1|]. eapply up_to_date_frames; [by apply Hf3|exact Ht3|by apply Hu2].
      * eapply Hsince; [|by apply Hu3]. by transitivity w1.
Qed.

Lemma Maintain_runs w :
  maintainable w → (∀ n, env_ctx n = None) →
  ∃ w', Maintain deps w = (Ret tt, w') ∧ WF (meta (db w')) ∧
    parent_tables (meta (db w')) = parent_tables (meta (db w)) ∧ tenants (meta (db w')) = tenants (meta (db w)) ∧
    ∀ row tenant k, pair w row tenant → parseIntervalLabel (Parent.PartitionInterval row) = Ok k →
      up_to_date row tenant k w w'.
Proof.
  intros Hmt Hctx. unfold Maintain. rewrite bind_Now. set (w1 := mkWorld _ _ _).
  destruct (reliable_parents w1) as (l & w2 & Hl & Hl2 & Hperm).
  apply Permutation_map_inv in Hperm as (rows & -> & Hperm).
  rewrite (bind_Ret _ _ _ _ _ (wrapping_Ret _ _ _ _ _ Hl)), bind_Now. set (w3 := mkWorld _ _ _).
  assert (later w w3) as [Hs3 Ht3]%later_same.
  { transitivity w1; [apply later_tick|]. transitivity w2; [done|apply later_tick]. }
  destruct (maintain_all_run_healthy w rows (pair w) (mkCounts 0 0 0) w3) as (c & w4 & Hrun & Hh4 & Ht4 & _ & Hu4).
  - done.
  - done.
  - rewrite <- Hperm. cbn. apply (NoDup_fmap_1 Parent.ID), (mt_wf _ Hmt).
  - intros row Hr. rewrite <- Hperm in Hr. exact Hr.
  - done.
  - done.
  - eapply healthy_same; [done..|]. by apply healthy_start.
  - change (map parentInfoFromRow rows) with (parentInfoFromRow <$> rows).
    rewrite (bind_Ret _ _ _ _ _ Hrun). eexists. split; [reflexivity|]. cbn [db]. destruct Hh4.
    split_and!; [done..|]. intros row t k Hp Hk.
    assert (row ∈ rows) as Hr by (rewrite <- Hperm; apply Hp).
    destruct (Hu4 row t k Hr Hp Hk) as (n & bs & n' & Hn & Hn' & Hrest). exists n, bs, n'. unfold ticks in *.
    split; [lia|]. split; [cbn; lia|exact Hrest].
Qed.
End upkeep.

(** ** The components *)

Section components.
Context {C : Type} {E : Env C} {L : EnvLaws E} {QE : Quiet E}.
Context (Hids : ∀ i j, env_ulid i = env_ulid j → i = j).
(** PostgreSQL executes the DDL and grants the locks. *)
Context (accepts : ∀ sql c, ∃ n c', pg_exec sql [] c = Ok (n, c')).
Context (grants : ∀ s schema table c, ∃ c', pg_call s try_lock_sql [VText schema; VText table] c = Ok ([VBool true], c')).

Lemma release_runs conn schema table (w : World C) :
  ∃ w', (attempt (Unlock conn schema table) ;; mret tt) w = (Ret tt, w') ∧ same_meta w w' ∧ ticks w w'.
Proof.
  destruct ((attempt (Unlock conn schema table) ;; mret tt) w) as [o w'] eqn:Hrun.
  assert (Stable same_meta (attempt (Unlock conn schema table) ;; mret tt)) as Hm.
  { unfold Unlock. stable; apply Stable_Call_meta. }
  assert (Stable ticks (attempt (Unlock conn schema table) ;; mret tt)) as Ht.
  { unfold Unlock. stable; apply Stable_statement_ticks. }
  exists w'. split_and!; [|by eapply Hm|by eapply Ht]. f_equal.
  unfold Unlock, Call, attempt, wrapping, mbind, M_bind in Hrun. rewrite quiet_statement in Hrun.
  destruct (pg_call _ _ _ _) as [[row c']|e]; cbn in Hrun; [|by injection Hrun].
  unfold lift in Hrun. destruct (scan_bool row) as [[]|]; cbn in Hrun; by injection Hrun.
Qed.

Lemma validateIdentifier_word kind s : word_regex s = true → validateIdentifier kind s = Ok tt.
Proof.
  intros Hw. unfold validateIdentifier. rewrite bool_decide_false by (by intros ->). by rewrite Hw.
Qed.

#[export] Instance maintainer_reliable : Reliable (maintainer_deps None).
Proof.
  split.
  - intros w. unfold maintainer_deps. cbn [lister_parents]. eexists _, _. split_and!.
    + unfold ListParents. erewrite bind_Ret; [reflexivity|]. apply wrapping_Ret. unfold ListParentTables.
      rewrite quiet_meta_read. reflexivity.
    + apply later_tick.
    + unfold list_parents. cbn [parent_tables]. by rewrite merge_sort_Permutation, env_scan_perm.
  - intros row w Hg Hw1 Hw2. unfold maintainer_deps. cbn [lister_tenants].
    set (w1 := mkWorld (db w) (S (tick w)) (trace w)). eexists _, _. split_and!.
    + unfold ListTenants. cbn [ref_row ParentRef.SchemaName ParentRef.TableName].
      rewrite !validateIdentifier_word by done. erewrite bind_Ret; [|reflexivity]. erewrite bind_Ret; [|reflexivity].
      rewrite (bind_Ret _ _ _ (Ok row) w1).
      2:{ apply attempt_Ret. unfold GetParentTable. rewrite quiet_meta_read. unfold Parent.key in Hg. by rewrite Hg. }
      erewrite bind_Ret; [reflexivity|]. apply wrapping_Ret. unfold ListTenantsForParent.
      rewrite quiet_meta_read. reflexivity.
    + transitivity w1; apply later_tick.
    + rewrite <- list_fmap_compose. unfold tenants_of, list_tenants. cbn [tenants].
      rewrite merge_sort_Permutation, env_scan_perm. done.
  - intros schema table w. unfold maintainer_deps. cbn [locker]. unfold poolLocker_TryLock.
    set (conn := env_session (tick w)). set (w1 := mkWorld (db w) (S (tick w)) (trace w)).
    destruct (grants conn schema table (catalog (db w1))) as [c' Hc].
    exists (attempt (Unlock conn schema table) ;; mret tt), (mkWorld (mkDB (meta (db w1)) c') (S (tick w1)) (trace w1)).
    assert (Acquire w = (Ret conn, w1)) as Hacq by (unfold Acquire; run_unfold; by rewrite quiet).
    assert (TryLock conn schema table w1 = (Ret true, mkWorld (mkDB (meta (db w1)) c') (S (tick w1)) (trace w1))) as Htry.
    { unfold TryLock. apply wrapping_Ret. unfold Call.
      erewrite bind_Ret; [|rewrite quiet_statement, Hc; reflexivity]. reflexivity. }
    split_and!.
    + rewrite (bind_Ret _ _ _ _ _ (wrapping_Ret _ _ _ _ _ Hacq)). by rewrite (bind_Ret _ _ _ _ _ Htry).
    + done.
    + unfold ticks. cbn. lia.
    + intros w2. apply release_runs.
  - intros row tenant k w Hg Hk Hcol Hwn Hreg Hpre. unfold maintainer_deps. cbn [ensurer].
    destruct (EnsurePartitions_runs accepts (ref_row row) tenant row k w Hids Hg Hk Hcol Hwn Hreg Hpre)
      as (rep & w' & n & bs & Hrun & Hn & Hbs & Hc & Hadd & Hf).
    exists rep, w', n, bs. split_and!; [done|lia|lia|done..|]. by eapply Stable_EnsurePartitions_meta.
  - intros row w Hg Hsp. unfold maintainer_deps. cbn [sweeper]. unfold sweep_parent.
    destruct (Sweep_runs accepts (Parent.SchemaName row) (Parent.TableName row) [] row w)
      as (rep & w' & n & cs & Hrun & Hn & _ & _ & Hcs & Hm); [done|done|done|].
    by exists rep, w', n, cs.
Qed.
(** C1: what the whole is for. When no statement fails, the context lives,
    the locks are free and PostgreSQL accepts the DDL, a tick of a manager
    without a hook returns, and leaves every parent under automatic
    maintenance up to date for each of its tenants: for two readings of the
    clock during the tick, the partitions of the period of the first and of
    the following [Premake] ones are there, active unless they were past the
    cutoff of the second; so is the default; and nothing that had expired at
    the second is active. The registrations stay as they were and the
    metadata consistent. The world is [maintainable] at the start: row ids
    are fresh, the automatic parents are daily, weekly or monthly and their
    names words, their target years have four digits, a row on a name or on
    the tenant and bounds of a target set is that pair's own active one, and
    no pair of a parent and a tenant makes names that are another's.
    [hourly_premake_lost] and [naming_pitfalls] show what happens outside. *)
Theorem Maintain_keeps_up w :
  maintainable w → (∀ n, env_ctx n = None) →
  ∃ w', Manager_Maintain None w = (Ret tt, w') ∧ WF (meta (db w')) ∧
    parent_tables (meta (db w')) = parent_tables (meta (db w)) ∧ tenants (meta (db w')) = tenants (meta (db w)) ∧
    ∀ row tenant k, pair w row tenant → parseIntervalLabel (Parent.PartitionInterval row) = Ok k →
      up_to_date row tenant k w w'.
Proof. apply Maintain_runs, maintainer_reliable. Qed.
End components.

(** Pairs whose names differ are in nobody's way. *)
Lemma apart_names {C} {E : Env C} row tenant k (bs : list Bounds) row' tenant' k' r :
  (∀ b b' s, Build (bounded_name row tenant k b) = Ok s → Build (bounded_name row' tenant' k' b') ≠ Ok s) →
  (∀ b s, Build (bounded_name row tenant k b) = Ok s → Build (default_name row' k') ≠ Ok s) →
  (∀ b s, Build (default_name row k) = Ok s → Build (bounded_name row' tenant' k' b) ≠ Ok s) →
  Parent.ID row = Parent.ID row' ∨ (∀ s, Build (default_name row k) = Ok s → Build (default_name row' k') ≠ Ok s) →
  Parent.ID row ≠ Parent.ID row' ∨ tenant ≠ tenant' →
  added row' tenant' k' r →
  (∀ b, b ∈ bs → claims row tenant k b r → covers row tenant b r) ∧
  (Build (default_name row k) = Ok (Partition.Name r) → is_default_of row r).
Proof.
  intros H1 H2 H3 H4 H5 (Hp & _ & _ & _ & [(Hd & Ht & Hn)|(Hd & Ht & z & Hn & _)]); split.
  - intros b _ [Hc|(t & _ & Htb)]; [by destruct (H2 b _ Hc)|]. unfold Partition.tenant_bounds in Htb. by rewrite Ht in Htb.
  - intros Hc. destruct H4 as [Hi|H4]; [|by destruct (H4 _ Hc)]. unfold is_default_of, Partition.owner. by rewrite Hp, Hi, Ht.
  - intros b _ [Hc|(t & -> & Htb)]; [by destruct (H1 b _ _ Hc Hn)|]. unfold Partition.tenant_bounds in Htb. rewrite Ht, Hp in Htb.
    destruct tenant' as [t'|]; [|done]. injection Htb as Hi -> _ _. by destruct H5 as [H5|H5]; [destruct H5; symmetry|].
  - intros Hc. by destruct (H3 _ _ Hc Hn).
Qed.

(** ** Examples *)

(** [app.events] keeps an April that has expired; [app.audit] has two tenants. *)
Definition audit : Parent.row :=
  Parent.mk "P2" "app" "audit" (Some "org") "created_at" "range" "monthly" thirty_days false None true 1.
Definition busy_world : World (list string) :=
  start (mkMeta [daily_events; audit] [Tenant.mk "acme" "P2"; Tenant.mk "globex" "P2"] [april]).

Lemma busy_world_WF : WF (meta (db busy_world)).
Proof.
  split; cbn; try apply NoDup_singleton; try (by apply (bool_decide_unpack _)).
  - intros t [-> | [-> | []%not_elem_of_nil]%elem_of_cons]%elem_of_cons; reflexivity.
  - by intros r ->%list_elem_of_singleton.
  - by intros r ->%list_elem_of_singleton.
Qed.
Lemma busy_pairs row tenant :
  pair busy_world row tenant →
  (row = daily_events ∧ tenant = None) ∨ (row = audit ∧ (tenant = Some "acme" ∨ tenant = Some "globex")).
Proof.
  intros ([-> | [-> | []%not_elem_of_nil]%elem_of_cons]%elem_of_cons & _ & Ht); [left|right].
  - by apply list_elem_of_singleton in Ht.
  - split; [done|]. cbn in Ht. by apply elem_of_cons in Ht as [-> | [-> | []%not_elem_of_nil]%elem_of_cons]; auto.
Qed.

(** Two names with different stems are different. *)
Ltac stems_differ := intros; intro;
  repeat match goal with H : Build _ = Ok _ |- _ => apply Build_Ok in H as [_ H] end; congruence || (subst; discriminate).

Lemma busy_maintainable : maintainable (E := calm noon) busy_world.
Proof.
  split.
  - exact busy_world_WF.
  - intros r n ->%list_elem_of_singleton _. by destruct n.
  - intros r ->%list_elem_of_singleton. by eexists.
  - intros row [-> | [-> | []%not_elem_of_nil]%elem_of_cons]%elem_of_cons _; (split; [reflexivity|split; [reflexivity|by eexists]]).
  - intros row tenant k n bs Hp Hk Hbs.
    assert (∀ r i, r ∈ rows_of busy_world → (tick busy_world <= i)%nat → Partition.ID r ≠ env_ulid (Env := calm noon) i) as Hfresh.
    { intros r i ->%list_elem_of_singleton _. by destruct i. }
    assert (∀ r, r ∈ rows_of busy_world → Partition.ParentTableID r = "P1" ∧ Partition.TenantID r = None ∧
      Partition.Name r = "app.events_20260415") as Hrows by (by intros r ->%list_elem_of_singleton).
    assert (years_ok bs = true ∧ k ≠ kindUnknown ∧ k ≠ kindHourly ∧
      ∀ b, b ∈ bs → Build (bounded_name row tenant k b) ≠ Ok "app.events_20260415") as (Hy & Hu & Hh & Hnames).
    { unfold target in Hbs. cbn [env_now calm scenario] in Hbs.
      apply busy_pairs in Hp as [[-> ->]|[-> [-> | ->]]]; vm_compute in Hk; injection Hk as <-; vm_compute in Hbs;
        injection Hbs as <-; (split; [vm_compute; reflexivity|]); (split; [done|]); (split; [done|]);
        intros b Hb Hc; repeat (apply elem_of_cons in Hb as [->|Hb]; [vm_compute in Hc; discriminate|]);
        by apply not_elem_of_nil in Hb. }
    split; [|split; [by eapply nameable_check|split; [| |exact Hfresh]]].
    + apply busy_pairs in Hp as [[-> ->]|[-> [-> | ->]]];
        (split; [reflexivity|split; [reflexivity|]]); by (left + right).
    + intros b r Hb (Hp1 & Ht1 & Hn1)%Hrows [Hc|(t & _ & Hc)].
      * rewrite Hn1 in Hc. by apply Hnames in Hc.
      * unfold Partition.tenant_bounds in Hc. by rewrite Ht1 in Hc.
    + intros r (Hp1 & Ht1 & Hn1)%Hrows Hc. rewrite Hn1 in Hc.
      apply busy_pairs in Hp as [[-> ->]|[-> _]]; by vm_compute in Hc.
  - intros row tenant k n bs row' tenant' k' r Hp Hp' Hne Hk Hbs Hk' Hadd.
    apply (apart_names (E := calm noon) row tenant k bs row' tenant' k' r); [..|exact Hadd]; clear Hadd Hbs.
    all: apply busy_pairs in Hp as [[-> ->]|[-> [-> | ->]]]; apply busy_pairs in Hp' as [[-> ->]|[-> [-> | ->]]];
      try done; try (left; done); try (right; done); try (right; stems_differ); stems_differ.
Qed.

Lemma Maintain_keeps_up_witness :
  ∃ w', Manager_Maintain (E := calm noon) None busy_world = (Ret tt, w') ∧ WF (meta (db w')) ∧
    parent_tables (meta (db w')) = [daily_events; audit] ∧
    tenants (meta (db w')) = [Tenant.mk "acme" "P2"; Tenant.mk "globex" "P2"] ∧
    up_to_date (E := calm noon) daily_events None kindDaily busy_world w' ∧
    up_to_date (E := calm noon) audit (Some "globex") kindMonthly busy_world w'.
Proof.
  destruct (Maintain_keeps_up (E := calm noon) unary_id_inj) with (w := busy_world) as (w' & Hrun & Hwf & Hp & Ht & Hu).
  - intros sql c. do 2 eexists. reflexivity.
  - intros s schema table c. eexists. reflexivity.
  - exact busy_maintainable.
  - reflexivity.
  - exists w'. split; [exact Hrun|]. split; [exact Hwf|]. split; [exact Hp|]. split; [exact Ht|].
    split; apply Hu; [|reflexivity| |reflexivity];
      (split; [|split; [reflexivity|]]); apply list_elem_of_In; vm_compute; auto.
Defined.
