(* ===== verification/Interleave.v ===== *)
(** * Calls that run next to each other

    A call of [World] runs to its end before another one starts.  [proc] is a
    call cut into atoms, each of which runs to its end: a statement, or a
    transaction.  Between two atoms of one call any atoms of others may run.
    [alone] runs a [proc] without others, and relates it to the call it is cut
    from; [runs] interleaves any number of them; [obeys] (every atom
    respects a relation), [within] (it does in the worlds of an invariant that
    all keep), [safe] (rely and guarantee, with the triples [sound], and [does]
    for calls that return) are the judgements that are sound for it. *)

From S2P Require Import Prelude GoTime Errs Store World Logic Retry.
Local Open Scope Z_scope.

(** ** Calls in atoms *)

Section proc.
Context {C : Type} {E : Env C}.

Inductive proc (A : Type) : Type :=
| Done (o : outcome A)
| Atom {X : Type} (m : M C X) (k : outcome X → proc A).
Arguments Done {A} o.
Arguments Atom {A X} m k.

Definition atom {A} (m : M C A) : proc A := Atom m Done.
Fixpoint p_then {A B} (p : proc A) (f : outcome A → proc B) : proc B :=
  match p with
  | Done o => f o
  | Atom m k => Atom m (λ o, p_then (k o) f)
  end.

(** The operations of [World], on calls in atoms. *)
#[export] Instance proc_ret : MRet proc := λ A a, Done (Ret a).
#[export] Instance proc_bind : MBind proc := λ A B k p,
  p_then p (λ o, match o with Ret a => k a | Fail e => Done (Fail e) | Panic => Done Panic end).
Definition p_fail {A} (e : error) : proc A := Done (Fail e).
Definition p_lift {A} (r : res A) : proc A := match r with Ok a => mret a | Err e => p_fail e end.
Definition p_attempt {A} (p : proc A) : proc (res A) :=
  p_then p (λ o, match o with Ret a => mret (Ok a) | Fail e => mret (Err e) | Panic => Done Panic end).
Definition p_wrapping {A} (s : string) (p : proc A) : proc A :=
  p_then p (λ o, match o with Fail e => p_fail (Wrap s e) | o => Done o end).
Definition p_deferring {A} (f : proc unit) (p : proc A) : proc A :=
  p_then p (λ o, p_then f (λ o', match o' with Panic => Done Panic | _ => Done o end)).
Definition p_recovering {A} (h p : proc A) : proc A :=
  p_then p (λ o, match o with Panic => h | o => Done o end).
Fixpoint p_foldM {S X} (f : S → X → proc S) (s : S) (l : list X) : proc S :=
  match l with
  | [] => mret s
  | x :: l' => s' ← f s x; p_foldM f s' l'
  end.
Fixpoint p_forM {X} (f : X → proc unit) (l : list X) : proc unit :=
  match l with
  | [] => mret tt
  | x :: l' => f x ;; p_forM f l'
  end.

(** The retries of [Retry.Do]; a pause is an atom. *)
Fixpoint p_do_loop {A} (p : Policy) (fn : proc A) (fuel : nat) (n : Z) : proc A :=
  r ← p_attempt fn;
  match r with
  | Ok a => mret a
  | Err e =>
      if negb (Retriable e) then p_fail e
      else
        atom (meter_counter p "partman.retry_attempts_total") ;;
        match fuel with
        | O => atom (exhausted p e)
        | S fuel' => atom (pause p n) ;; p_do_loop p fn fuel' (n + 1)
        end
  end.
Definition p_Do {A} (p : Policy) (fn : proc A) : proc A :=
  let max := if MaxAttempts p <=? 0 then 1 else MaxAttempts p in
  p_do_loop p fn (Z.to_nat (max - 1)) 1.

(** ** Alone *)

Fixpoint alone {A} (p : proc A) (w : World C) : outcome A * World C :=
  match p with
  | Done o => (o, w)
  | Atom m k => let '(o, w1) := m w in alone (k o) w1
  end.

(** [p] is [m] in atoms. *)
Definition cuts {A} (p : proc A) (m : M C A) : Prop := ∀ w, alone p w = m w.

Lemma alone_then {A B} (p : proc A) (f : outcome A → proc B) w :
  alone (p_then p f) w = let '(o, w1) := alone p w in alone (f o) w1.
Proof.
  revert w. induction p as [o|X m k IH]; intros w; cbn; [done|]. destruct (m w) as [o w1]. apply IH.
Qed.

Lemma cuts_atom {A} (m : M C A) : cuts (atom m) m.
Proof. intros w. cbn. by destruct (m w). Qed.
Lemma cuts_ret {A} (a : A) : cuts (mret a) (mret a).
Proof. done. Qed.
Lemma cuts_fail {A} e : cuts (p_fail e : proc A) (fail e).
Proof. done. Qed.
Lemma cuts_lift {A} (r : res A) : cuts (p_lift r) (lift r).
Proof. by destruct r. Qed.
Lemma cuts_bind {A B} (p : proc A) m (f : A → proc B) k :
  cuts p m → (∀ a, cuts (f a) (k a)) → cuts (p ≫= f) (m ≫= k).
Proof.
  intros Hm Hk w. unfold mbind, proc_bind, M_bind. rewrite alone_then, Hm.
  destruct (m w) as [[a|e|] w1]; [apply Hk|done..].
Qed.
Lemma cuts_attempt {A} (p : proc A) m : cuts p m → cuts (p_attempt p) (attempt m).
Proof.
  intros Hm w. unfold p_attempt, attempt. rewrite alone_then, Hm. by destruct (m w) as [[a|e|] w1].
Qed.
Lemma cuts_wrapping {A} s (p : proc A) m : cuts p m → cuts (p_wrapping s p) (wrapping s m).
Proof.
  intros Hm w. unfold p_wrapping, wrapping. rewrite alone_then, Hm. by destruct (m w) as [[a|e|] w1].
Qed.
Lemma cuts_deferring {A} f g (p : proc A) m : cuts f g → cuts p m → cuts (p_deferring f p) (deferring g m).
Proof.
  intros Hf Hm w. unfold p_deferring, deferring. rewrite alone_then, Hm. destruct (m w) as [o w1].
  rewrite alone_then, Hf. by destruct (g w1) as [[a|e|] w2].
Qed.
Lemma cuts_recovering {A} h g (p : proc A) m : cuts h g → cuts p m → cuts (p_recovering h p) (recovering g m).
Proof.
  intros Hh Hm w. unfold p_recovering, recovering. rewrite alone_then, Hm. by destruct (m w) as [[a|e|] w1].
Qed.
Lemma cuts_foldM {S X} (f : S → X → proc S) g l :
  (∀ s x, cuts (f s x) (g s x)) → ∀ s, cuts (p_foldM f s l) (foldM g s l).
Proof. intros Hf. induction l as [|x l IH]; intros s; cbn; [done|]. by apply cuts_bind. Qed.
Lemma cuts_forM {X} (f : X → proc unit) g l : (∀ x, cuts (f x) (g x)) → cuts (p_forM f l) (forM g l).
Proof. intros Hf. induction l as [|x l IH]; cbn; [done|]. by apply cuts_bind. Qed.
Lemma cuts_Do {A} pol (p : proc A) m : cuts p m → cuts (p_Do pol p) (Do pol m).
Proof.
  intros Hm. unfold p_Do, Do. generalize (Z.to_nat ((if MaxAttempts pol <=? 0 then 1 else MaxAttempts pol) - 1)).
  intros fuel. generalize 1. induction fuel as [|fuel IH]; intros n; cbn [p_do_loop do_loop];
    (apply cuts_bind; [by apply cuts_attempt|intros [a|e]; [done|destruct (negb _); [done|]]]);
    (apply cuts_bind; [apply cuts_atom|intros _]); [apply cuts_atom|].
  apply cuts_bind; [apply cuts_atom|intros _; apply IH].
Qed.

(** ** Next to each other *)

(** Atom by atom: a step of thread [i]; [None] when it has none left. *)
Definition turn {A} (i : nat) (s : World C * list (proc A)) : option (World C * list (proc A)) :=
  match s.2 !! i with
  | Some (Atom m k) => let '(o, w1) := m s.1 in Some (w1, <[i := k o]> s.2)
  | _ => None
  end.
Fixpoint runs {A} (l : list nat) (s : World C * list (proc A)) : option (World C * list (proc A)) :=
  match l with
  | [] => Some s
  | i :: l => s' ← turn i s; runs l s'
  end.

(** No schedule goes on for ever, and each can be completed. *)
Definition shorter {A} (q p : proc A) : Prop :=
  match p with Done _ => False | Atom m k => ∃ o, q = k o end.
Lemma shorter_wf {A} : well_founded (@shorter A).
Proof. intros p. induction p as [o|X m k IH]; constructor; [done|]. intros q [o ->]. apply IH. Qed.
Definition step_of {A} (ts' ts : list (proc A)) : Prop :=
  ∃ i p q, ts !! i = Some p ∧ shorter q p ∧ ts' = <[i := q]> ts.
Lemma step_of_wf {A} : well_founded (@step_of A).
Proof.
  intros ts. induction ts as [|p ts IH]; [constructor; by intros ? (i & p & q & [=] & _)|].
  revert ts IH. induction (shorter_wf p) as [p _ IHp]. intros ts Hacc. induction Hacc as [ts Hts IHts].
  constructor. intros ts' ([|i] & p' & q & Hi & Hq & ->); cbn in *.
  - injection Hi as <-. apply IHp; [done|by constructor].
  - apply IHts. by exists i, p', q.
Qed.
Lemma turn_step {A} i (s s' : World C * list (proc A)) : turn i s = Some s' → step_of s'.2 s.2.
Proof.
  unfold turn. destruct (s.2 !! i) as [[o|X m k]|] eqn:Hi; [done| |done]. destruct (m s.1) as [o w1].
  intros [= <-]. exists i, (Atom m k), (k o). split_and!; [done|by exists o|done].
Qed.

Definition busy {A} (p : proc A) : bool := match p with Done _ => false | Atom _ _ => true end.
Lemma busy_turn {A} i p (s : World C * list (proc A)) :
  s.2 !! i = Some p → busy p = true → ∃ s', turn i s = Some s'.
Proof.
  unfold turn. intros -> Hb. destruct p as [o|X m k]; [done|]. destruct (m s.1). by eexists.
Qed.
Lemma runs_ends {A} (choice : nat → nat) (s : World C * list (proc A)) :
  ∃ n, runs (choice <$> seq 0 n) s = None.
Proof.
  destruct s as [w ts]. revert choice w. induction (step_of_wf ts) as [ts _ IH]. intros choice w.
  destruct (turn (choice 0%nat) (w, ts)) as [[w1 ts1]|] eqn:Ht.
  - destruct (IH ts1 (turn_step _ _ _ Ht) (choice ∘ S) w1) as [n Hn]. exists (S n). cbn. rewrite Ht. cbn.
    by rewrite <- seq_shift, <- list_fmap_compose.
  - exists 1%nat. cbn. by rewrite Ht.
Qed.
Lemma runs_finish {A} (s : World C * list (proc A)) :
  ∃ l s', runs l s = Some s' ∧ ∀ p, p ∈ s'.2 → ∃ o, p = Done o.
Proof.
  destruct s as [w ts]. revert w. induction (step_of_wf ts) as [ts _ IH]. intros w.
  destruct (existsb busy ts) eqn:Hb.
  - apply existsb_true in Hb as (p & [i Hi]%list_elem_of_lookup & Hp).
    destruct (busy_turn i p (w, ts) Hi Hp) as [[w1 ts1] Ht].
    destruct (IH ts1 (turn_step _ _ _ Ht) w1) as (l & s' & Hl & Hs'). exists (i :: l), s'. cbn. by rewrite Ht.
  - exists [], (w, ts). split; [done|]. intros p Hp. rewrite existsb_false in Hb. specialize (Hb p Hp).
    destruct p; [by eexists|done].
Qed.

(** ** Effects

    A relation that every atom respects is respected by any schedule. *)

Section obeys.
Context (R : relation (World C)) {HR : Course R}.

Fixpoint obeys {A} (p : proc A) : Prop :=
  match p with Done _ => True | Atom m k => Stable R m ∧ ∀ o, obeys (k o) end.
Lemma obeys_then {A B} (p : proc A) (f : outcome A → proc B) : obeys p → (∀ o, obeys (f o)) → obeys (p_then p f).
Proof. intros Hp Hf. induction p as [o|X m k IH]; cbn in *; [done|]. split; [apply Hp|]. intros o. apply IH, Hp. Qed.
Lemma obeys_bind {A B} (p : proc A) (f : A → proc B) : obeys p → (∀ a, obeys (f a)) → obeys (p ≫= f).
Proof. intros Hp Hf. apply obeys_then; [done|]. by intros [a|e|]. Qed.
Lemma obeys_atom {A} (m : M C A) : Stable R m → obeys (atom m).
Proof. intros Hm. by split. Qed.
Lemma obeys_lift {A} (r : res A) : obeys (p_lift r).
Proof. by destruct r. Qed.
Lemma obeys_attempt {A} (p : proc A) : obeys p → obeys (p_attempt p).
Proof. intros Hp. apply obeys_then; [done|]. by intros [a|e|]. Qed.
Lemma obeys_wrapping {A} s (p : proc A) : obeys p → obeys (p_wrapping s p).
Proof. intros Hp. apply obeys_then; [done|]. by intros [a|e|]. Qed.
Lemma obeys_deferring {A} f (p : proc A) : obeys f → obeys p → obeys (p_deferring f p).
Proof. intros Hf Hp. apply obeys_then; [done|]. intros o. apply obeys_then; [done|]. by intros [a|e|]. Qed.
Lemma obeys_recovering {A} h (p : proc A) : obeys h → obeys p → obeys (p_recovering h p).
Proof. intros Hh Hp. apply obeys_then; [done|]. by intros [a|e|]. Qed.
Lemma obeys_foldM {S X} (f : S → X → proc S) l : (∀ s x, obeys (f s x)) → ∀ s, obeys (p_foldM f s l).
Proof. intros Hf. induction l as [|x l IH]; intros s; cbn; [done|]. by apply obeys_bind. Qed.
Lemma obeys_forM {X} (f : X → proc unit) l : (∀ x, obeys (f x)) → obeys (p_forM f l).
Proof. intros Hf. induction l as [|x l IH]; cbn; [done|]. by apply obeys_bind. Qed.
Lemma obeys_Do {A} pol (p : proc A) : obeys p → obeys (p_Do pol p).
Proof.
  intros Hp. unfold p_Do. generalize (Z.to_nat ((if MaxAttempts pol <=? 0 then 1 else MaxAttempts pol) - 1)).
  intros fuel. generalize 1. induction fuel as [|fuel IH]; intros n; cbn [p_do_loop];
    (apply obeys_bind; [by apply obeys_attempt|intros [a|e]; [done|destruct (negb _); [done|]]]);
    (apply obeys_bind; [apply obeys_atom; unfold meter_counter; stable|intros _]).
  - apply obeys_atom. unfold exhausted, meter_counter. stable.
  - apply obeys_bind; [apply obeys_atom; unfold pause; stable|intros _; apply IH].
Qed.
Lemma turn_obeys {A} i (s s' : World C * list (proc A)) :
  turn i s = Some s' → (∀ p, p ∈ s.2 → obeys p) → R s.1 s'.1 ∧ ∀ p, p ∈ s'.2 → obeys p.
Proof.
  unfold turn. destruct s as [w ts]. cbn [fst snd]. destruct (ts !! i) as [[o|X m k]|] eqn:Hi; [done| |done].
  destruct (m w) as [o w1] eqn:Hm. intros [= <-] Hs. cbn [fst snd].
  destruct (Hs (Atom m k)) as [HR' Hk]; [by eapply list_elem_of_lookup_2|]. split; [by eapply HR'|].
  intros p [j Hj]%list_elem_of_lookup. apply list_lookup_insert_Some in Hj as [(_ & <- & _)|[_ Hj]]; [apply Hk|].
  by eapply Hs, list_elem_of_lookup_2.
Qed.
Lemma runs_obeys {A} l (s s' : World C * list (proc A)) :
  runs l s = Some s' → (∀ p, p ∈ s.2 → obeys p) → R s.1 s'.1.
Proof.
  revert s. induction l as [|i l IH]; intros s; cbn; [intros [= <-] _; by apply course_refl|].
  destruct (turn i s) as [s1|] eqn:Ht; [|done]. intros Hl [H1 Hs1]%(turn_obeys _ _ _ Ht).
  eapply course_trans; [exact H1|by apply IH].
Qed.
End obeys.

(** ** Rely and guarantee *)

Section rely.
(** What a step of any thread may do. *)
Context (R : relation (World C)) {HR : PreOrder R}.

(** From [w], whatever the others do, the steps of [p] are in [R] and it ends
    in [Q]. *)
Fixpoint safe {A} (p : proc A) (Q : outcome A → World C → Prop) (w : World C) : Prop :=
  match p with
  | Done o => ∀ w', R w w' → Q o w'
  | Atom m k => ∀ w0 o w1, R w w0 → m w0 = (o, w1) → R w0 w1 ∧ safe (k o) Q w1
  end.

Lemma safe_others {A} (p : proc A) Q w w' : R w w' → safe p Q w → safe p Q w'.
Proof.
  destruct p as [o|X m k]; cbn; intros Hw Hs.
  - intros w'' Hw'. apply Hs. by transitivity w'.
  - intros w0 o w1 Hw'. apply Hs. by transitivity w'.
Qed.
Lemma safe_weaken {A} (p : proc A) (Q Q' : outcome A → World C → Prop) w :
  (∀ o w, Q o w → Q' o w) → safe p Q w → safe p Q' w.
Proof.
  intros HQ. revert w. induction p as [o|X m k IH]; intros w; cbn; [by auto|].
  intros Hs w0 o w1 Hw Hm. destruct (Hs w0 o w1 Hw Hm) as [? ?]. split; [done|]. by apply IH.
Qed.
Lemma safe_then {A B} (p : proc A) (f : outcome A → proc B) Q w :
  safe p (λ o w, safe (f o) Q w) w → safe (p_then p f) Q w.
Proof.
  revert w. induction p as [o|X m k IH]; intros w; cbn.
  - intros Hs. by apply Hs.
  - intros Hs w0 o w1 Hw Hm. destruct (Hs w0 o w1 Hw Hm) as [? ?]. split; [done|]. by apply IH.
Qed.

(** Any schedule. *)
Lemma turn_safe {A} i (Q : nat → outcome A → World C → Prop) s s' :
  turn i s = Some s' → (∀ j p, s.2 !! j = Some p → safe p (Q j) s.1) →
  R s.1 s'.1 ∧ ∀ j p, s'.2 !! j = Some p → safe p (Q j) s'.1.
Proof.
  unfold turn. destruct s as [w ts]. cbn [fst snd]. destruct (ts !! i) as [[o|X m k]|] eqn:Hi; [done| |done].
  destruct (m w) as [o w1] eqn:Hm. intros [= <-] Hs. cbn [fst snd].
  destruct (Hs i _ Hi w o w1) as [Hw Hk]; [done..|]. split; [done|]. intros j p Hj.
  apply list_lookup_insert_Some in Hj as [(-> & <- & _)|[_ Hj]]; [done|]. eapply safe_others; [exact Hw|by apply Hs].
Qed.
Lemma runs_safe {A} l (Q : nat → outcome A → World C → Prop) s s' :
  runs l s = Some s' → (∀ j p, s.2 !! j = Some p → safe p (Q j) s.1) →
  R s.1 s'.1 ∧ ∀ j p, s'.2 !! j = Some p → safe p (Q j) s'.1.
Proof.
  revert s. induction l as [|i l IH]; intros s; cbn; [intros [= <-]; by split|].
  destruct (turn i s) as [s1|] eqn:Ht; [|done]. intros Hl Hs.
  destruct (turn_safe i Q s s1 Ht Hs) as [H1 Hs1]. destruct (IH s1 Hl Hs1) as [H2 Hs2].
  split; [by transitivity s1.1|done].
Qed.

(** ** Triples under rely and guarantee *)

Context {HE : Effect R}.
(** What the others cannot falsify. *)
Class Rely (P : World C → Prop) : Prop := rely : ∀ w w', R w w' → P w → P w'.
(** Run from [P] next to others that respect [R], [p] respects [R] and ends
    in [Q]. *)
Definition sound {A} (P : World C → Prop) (p : proc A) (Q : outcome A → World C → Prop) : Prop :=
  (∀ o, Rely (Q o)) ∧ ∀ w, P w → safe p Q w.

#[export] Instance Rely_and P P' : Rely P → Rely P' → Rely (λ w, P w ∧ P' w).
Proof. intros H H' w w' Hr []. split; [by eapply H|by eapply H']. Qed.
#[export] Instance Rely_pure (P : Prop) : Rely (λ _, P).
Proof. by intros w w' _. Qed.
#[export] Instance Rely_all {X} (P : X → World C → Prop) : (∀ x, Rely (P x)) → Rely (λ w, ∀ x, P x w).
Proof. intros H w w' Hr Hp x. by eapply H. Qed.

Lemma sound_weaken {A} (P P' : World C → Prop) (p : proc A) Q Q' :
  sound P p Q → (∀ w, P' w → P w) → (∀ o w, Q o w → Q' o w) → (∀ o, Rely (Q' o)) → sound P' p Q'.
Proof. intros [_ Hs] HP HQ HR'. split; [done|]. intros w Hw. eapply safe_weaken; [exact HQ|]. by apply Hs, HP. Qed.
Lemma sound_pure {A} (K : Prop) P (p : proc A) Q :
  (∀ o, Rely (Q o)) → (∀ w, P w → K) → (K → sound P p Q) → sound P p Q.
Proof. intros HQ HK Hp. split; [done|]. intros w Hw. apply (proj2 (Hp (HK w Hw)) w Hw). Qed.
Lemma sound_ex {A X} (P : X → World C → Prop) (p : proc A) Q :
  (∀ o, Rely (Q o)) → (∀ x, sound (P x) p Q) → sound (λ w, ∃ x, P x w) p Q.
Proof. intros HQ Hp. split; [done|]. intros w [x Hw]. by apply (proj2 (Hp x)). Qed.
#[export] Instance Rely_ex {X} (P : X → World C → Prop) : (∀ x, Rely (P x)) → Rely (λ w, ∃ x, P x w).
Proof. intros H w w' Hr [x Hp]. exists x. by eapply H. Qed.
Lemma safe_frame {A} φ `{!Rely φ} (p : proc A) Q w : safe p Q w → φ w → safe p (λ o w, Q o w ∧ φ w) w.
Proof.
  revert w. induction p as [o|X m k IH]; intros w; cbn.
  - intros Hs Hw w' Hr. split; [by apply Hs|by eapply rely].
  - intros Hs Hw w1 o w2 Hr Hrun. destruct (Hs w1 o w2 Hr Hrun) as [H2 H3]. split; [done|].
    apply IH; [done|]. eapply rely; [exact H2|]. by eapply rely.
Qed.
Lemma sound_frame {A} φ `{!Rely φ} P (p : proc A) Q :
  sound P p Q → sound (λ w, P w ∧ φ w) p (λ o w, Q o w ∧ φ w).
Proof. intros [HQ Hp]. split; [intros o; apply _|]. intros w [Hw Hφ]. apply safe_frame; auto. Qed.
Lemma sound_done {A} (P : World C → Prop) (o : outcome A) Q `{!∀ o, Rely (Q o)} :
  (∀ w, P w → Q o w) → sound P (Done o) Q.
Proof. intros HQ. split; [done|]. intros w Hw. cbn. intros w' Hr. eapply rely; [exact Hr|]. by apply HQ. Qed.
Lemma sound_atom {A} P `{!Rely P} (m : M C A) Q `{!∀ o, Rely (Q o)} :
  (∀ w o w', P w → m w = (o, w') → R w w' ∧ Q o w') → sound P (atom m) Q.
Proof.
  intros Hm. split; [done|]. intros w Hw. cbn. intros w0 o w1 Hr Hrun.
  destruct (Hm w0 o w1) as [H1 H2]; [by eapply rely|done|]. split; [done|]. intros w2 Hr2. by eapply rely.
Qed.
Lemma sound_then {A B} P (p : proc A) T (f : outcome A → proc B) Q :
  sound P p T → (∀ o, Rely (Q o)) → (∀ o, sound (T o) (f o) Q) → sound P (p_then p f) Q.
Proof.
  intros [HT Hp] HQ Hf. split; [done|]. intros w Hw. apply safe_then.
  eapply safe_weaken; [|by apply Hp]. intros o w1 Ho. by apply (Hf o).
Qed.
Lemma sound_bind {A B} P (p : proc A) T (f : A → proc B) Q :
  sound P p T → (∀ o, Rely (Q o)) → (∀ a, sound (T (Ret a)) (f a) Q) →
  (∀ e w, T (Fail e) w → Q (Fail e) w) → (∀ w, T Panic w → Q Panic w) → sound P (p ≫= f) Q.
Proof.
  intros Hp HQ Hf He Hpan. eapply sound_then; [exact Hp|done|]. intros [a|e|]; [by apply Hf|..];
    apply sound_done; auto.
Qed.
Lemma sound_attempt {A} P (p : proc A) Q Q' :
  sound P p Q → (∀ o, Rely (Q' o)) → (∀ a w, Q (Ret a) w → Q' (Ret (Ok a)) w) →
  (∀ e w, Q (Fail e) w → Q' (Ret (Err e)) w) → (∀ w, Q Panic w → Q' Panic w) → sound P (p_attempt p) Q'.
Proof.
  intros Hp HQ' H1 H2 H3. eapply sound_then; [exact Hp|done|]. intros [a|e|]; apply sound_done; auto.
Qed.
Lemma sound_deferring {A} P f (p : proc A) Q :
  sound P p Q → (∀ o, sound (Q o) f (λ o' w, o' ≠ Panic ∧ Q o w)) → sound P (p_deferring f p) Q.
Proof.
  intros Hp Hf. pose proof Hp as [HQ _]. eapply sound_then; [exact Hp|done|]. intros o.
  eapply sound_then; [apply Hf|done|]. intros [a|e|]; apply sound_done; naive_solver.
Qed.
Lemma sound_foldM {S X} (I : S → World C → Prop) (f : S → X → proc S) l Q :
  (∀ s, Rely (I s)) → (∀ o, Rely (Q o)) → (∀ s w, I s w → Q (Ret s) w) →
  (∀ s x, x ∈ l → sound (I s) (f s x) (λ o w, match o with Ret s' => I s' w | o => Q o w end)) →
  ∀ s, sound (I s) (p_foldM f s l) Q.
Proof.
  intros HI HQ HIQ. induction l as [|x l IH]; intros Hf s; cbn; [by apply sound_done; auto|].
  eapply sound_bind; [apply Hf; by left|done| |done|done]. intros s'. apply IH. intros. apply Hf. by right.
Qed.

Lemma obeys_safe {A} (p : proc A) w : obeys R p → safe p (λ _ _, True) w.
Proof.
  revert w. induction p as [o|X m k IH]; intros w; [done|]. intros [Hm Hk] w0 o w1 _ Hrun.
  split; [by eapply Hm|apply IH, Hk].
Qed.
Lemma sound_obeys {A} P (p : proc A) : obeys R p → sound P p (λ _ _, True).
Proof. intros Hp. split; [intros o; apply _|]. intros w _. by apply obeys_safe. Qed.

(** Calls that leave the data base alone. *)
Definition harmless {A} (m : M C A) (V : outcome A → Prop) : Prop :=
  ∀ w o w', m w = (o, w') → later w w' ∧ V o.
Lemma sound_harmless {A} P `{!Rely P} (m : M C A) V Q `{!∀ o, Rely (Q o)} :
  harmless m V → (∀ o w, V o → P w → Q o w) → sound P (atom m) Q.
Proof.
  intros Hm HQ. apply sound_atom; [done..|]. intros w o w' Hw [Hl Ho]%Hm.
  assert (R w w') by by apply effect_later. split; [done|]. apply HQ; [done|]. by eapply rely.
Qed.
Lemma harmless_meter pol name : harmless (meter_counter pol name) (λ o, o = Ret tt).
Proof. intros w o w'. unfold meter_counter. destruct (Meter pol); intros [= <- <-]; by split. Qed.
Lemma harmless_exhausted {A} pol e : harmless (exhausted pol e : M C A) (λ o, o = Fail e).
Proof. intros w o w'. unfold exhausted, meter_counter. destruct (Meter pol); intros [= <- <-]; by split. Qed.
Lemma harmless_pause pol n : harmless (pause pol n : M C unit) (λ o, o ≠ Panic).
Proof.
  intros w o w'. unfold pause, rand_Float64, ctx_Err. run_unfold.
  destruct (env_ctx _); intros [= <- <-]; (split; [split; cbn; auto|done]).
Qed.

(** Retrying: a failed attempt leaves [P], and [F], after which failing is
    allowed. *)
Lemma sound_Do {A} P `{!Rely P} (F : Prop) pol (p : proc A) Q :
  sound P p (λ o w, match o with Fail _ => P w ∧ F | o => Q o w end) →
  (∀ o, Rely (Q o)) → (F → ∀ e w, P w → Q (Fail e) w) → sound P (p_Do pol p) Q.
Proof.
  intros Hp HQ HF. unfold p_Do. generalize (Z.to_nat ((if MaxAttempts pol <=? 0 then 1 else MaxAttempts pol) - 1)).
  intros fuel. generalize 1. induction fuel as [|fuel IH]; intros n; cbn [p_do_loop];
    (eapply (sound_bind _ _ (λ r w, match r with Ret (Ok a) => Q (Ret a) w | Ret (Err e) => P w ∧ F
                                     | Fail _ => False | Panic => Q Panic w end)); [|done| |done|done]).
  1,3: apply (sound_attempt _ _ _ _ Hp); [|done|by intros|done]; intros [[a|e]|e|]; (apply HQ || apply _).
  all: intros [a|e]; [by apply sound_done; auto|]; destruct (negb _); [by apply sound_done; naive_solver|].
  all: eapply (sound_bind _ _ (λ o w, (P w ∧ F) ∧ o = Ret tt)); [|done| |by intros ? ? [? ?]|by intros ? [? ?]].
  1,3: eapply sound_harmless; [apply _..|apply harmless_meter|by intros o w -> ?].
  all: intros [].
  - eapply sound_harmless; [apply _..|apply harmless_exhausted|]. intros o w -> [[? ?] _]. by apply HF.
  - eapply (sound_bind _ _ (λ o w, (P w ∧ F) ∧ o ≠ Panic)); [|done| | |by intros ? [_ []]].
    + eapply sound_harmless; [apply _..|apply harmless_pause|]. intros o w Ho [? _]. by split.
    + intros []. eapply sound_weaken; [apply (IH (n + 1))|by intros w [[? ?] ?]|done|done].
    + intros e' w [[? ?] _]. by apply HF.
Qed.
End rely.

(** Two relations at a time. *)
Definition both (R R' : relation (World C)) : relation (World C) := λ w w', R w w' ∧ R' w w'.
#[export] Instance both_preorder R R' : PreOrder R → PreOrder R' → PreOrder (both R R').
Proof. intros H H'. split; [by split|]. intros w1 w2 w3 [] []. split; by etrans. Qed.
#[export] Instance both_course R R' : Course R → Course R' → Course (both R R').
Proof.
  intros H H'. split.
  - intros w1 w2 w3 [] []. split; by etrans.
  - intros w w' Hw. split; by apply course_waits.
  - intros w w' []. split; by apply course_rollback.
Qed.
#[export] Instance Rely_both_l R R' P : Rely R P → Rely (both R R') P.
Proof. intros HP w w' [Hr _]. by apply HP. Qed.
#[export] Instance Rely_both_r R R' P : Rely R' P → Rely (both R R') P.
Proof. intros HP w w' [_ Hr]. by apply HP. Qed.
Lemma sound_both {A} (R R' : relation (World C)) P (p : proc A) Q :
  sound R P p Q → obeys R' p → sound (both R R') P p Q.
Proof.
  intros [HQ Hs] Hp. split; [intros o; apply _|]. intros w Hw. specialize (Hs w Hw). clear Hw HQ P.
  revert w Hs. induction p as [o|X m k IH]; intros w Hs.
  - intros w' [Hr _]. by apply Hs.
  - destruct Hp as [Hm Hk]. intros w0 o w1 [Hr _] Hrun. destruct (Hs w0 o w1 Hr Hrun) as [? ?].
    split; [split; [done|by eapply Hm]|]. by apply IH.
Qed.

(** ** Calls that return *)

Section returns.
Context (R : relation (World C)) {HR : PreOrder R} {HE : Course R}.
Notation Rely := (Rely R).

(** Run from [P] next to others that respect [R], [p] returns, and in [Q]. *)
Definition returned {A} (Q : A → World C → Prop) (o : outcome A) (w : World C) : Prop :=
  match o with Ret a => Q a w | _ => False end.
Definition does {A} (P : World C → Prop) (p : proc A) (Q : A → World C → Prop) : Prop := sound R P p (returned Q).

#[export] Instance Rely_returned {A} (Q : A → World C → Prop) o : (∀ a, Rely (Q a)) → Rely (returned Q o).
Proof. intros HQ. destruct o; apply HQ || apply Rely_pure. Qed.
Lemma does_weaken {A} (P P' : World C → Prop) (p : proc A) Q Q' :
  does P p Q → (∀ w, P' w → P w) → (∀ a w, Q a w → Q' a w) → (∀ a, Rely (Q' a)) → does P' p Q'.
Proof. intros Hp HP HQ HR'. eapply (sound_weaken R); [exact Hp|done|by intros [a|e|] w; [apply HQ|..]|intros o; apply _]. Qed.
Lemma does_ret {A} (P : World C → Prop) (a : A) Q `{!∀ a, Rely (Q a)} : (∀ w, P w → Q a w) → does P (mret a) Q.
Proof. intros HQ. apply (sound_done R); [intros o; apply _|exact HQ]. Qed.
Lemma does_bind {A B} P (p : proc A) Q (f : A → proc B) Q' :
  does P p Q → (∀ a, Rely (Q' a)) → (∀ a, does (Q a) (f a) Q') → does P (p ≫= f) Q'.
Proof. intros Hp HQ Hf. eapply (sound_bind R); [exact Hp|intros o; apply _|exact Hf|done|done]. Qed.
Lemma does_attempt {A} P (p : proc A) Q Q' `{!∀ a, Rely (Q' a)} :
  does P p Q → (∀ a w, Q a w → Q' (Ok a) w) → does P (p_attempt p) Q'.
Proof. intros Hp HQ. eapply (sound_attempt R); [exact Hp|intros o; apply _|exact HQ|done|done]. Qed.
(** A panic of [p] has to be caught. *)
Lemma does_recovering {A} P (h p : proc A) Q `{!∀ a, Rely (Q a)} T :
  sound R P p (λ o w, match o with Ret a => Q a w | Fail _ => False | Panic => T w end) →
  does T h Q → does P (p_recovering h p) Q.
Proof.
  intros Hp Hh. eapply (sound_then R); [exact Hp|intros o; apply _|]. intros [a|e|]; [|by apply (sound_done R); [intros o; apply _|]|exact Hh].
  apply (sound_done R); [intros o; apply _|done].
Qed.
Lemma does_foldM {S X} (I : list X → S → World C → Prop) (f : S → X → proc S) l s :
  (∀ done s, Rely (I done s)) →
  (∀ done x s, x ∈ l → does (I done s) (f s x) (I (done ++ [x]))) →
  does (I [] s) (p_foldM f s l) (I l).
Proof.
  intros HI Hf. change l with ([] ++ l)%list at 2. generalize (@nil X) as done.
  revert s. induction l as [|x l IH]; intros s done; cbn.
  - rewrite app_nil_r. by apply does_ret.
  - eapply does_bind; [by apply Hf; left|done|]. intros s'. replace (done ++ x :: l)%list with ((done ++ [x]) ++ l)%list.
    + apply IH. intros. apply Hf. by right.
    + by rewrite <- app_assoc.
Qed.
(** An atom that leaves the data base alone. *)
Lemma does_waits {A} P `{!Rely P} (m : M C A) Q `{!∀ a, Rely (Q a)} :
  Stable waits m → (∀ w o w', P w → P w' → m w = (o, w') → ∃ a, o = Ret a ∧ Q a w') → does P (atom m) Q.
Proof.
  intros Hm HQ. apply (sound_atom R); [done|intros o; apply _|]. intros w o w' Hw Hrun.
  assert (R w w') as Hr by (eapply course_waits, Hm, Hrun). split; [done|].
  destruct (HQ w o w' Hw) as (a & -> & Ha); [by eapply rely|done|exact Ha].
Qed.
End returns.

(** ** What is read stays known

    An invariant that every thread keeps, and what the atoms of one of them do
    from it, given what it has read. *)

Section within.
Context (I : World C → Prop).
Fixpoint within (G : relation (World C)) {A} (p : proc A) : Prop :=
  match p with
  | Done o => True
  | Atom m k => ∀ w o w', I w → m w = (o, w') → I w' ∧ G w w' ∧ within G (k o)
  end.
Lemma within_then G {A B} (p : proc A) (f : outcome A → proc B) :
  within G p → (∀ o, within G (f o)) → within G (p_then p f).
Proof.
  intros Hp Hf. induction p as [o|X m k IH]; cbn in *; [done|]. intros w o w' Hw Hrun.
  destruct (Hp w o w' Hw Hrun) as (? & ? & ?). split_and!; [done..|]. by apply IH.
Qed.
Lemma within_bind G {A B} (p : proc A) (f : A → proc B) :
  within G p → (∀ a, within G (f a)) → within G (p ≫= f).
Proof. intros Hp Hf. apply within_then; [done|]. by intros [a|e|]. Qed.
Lemma within_deferring G {A} f (p : proc A) : within G f → within G p → within G (p_deferring f p).
Proof. intros Hf Hp. apply within_then; [done|]. intros o. apply within_then; [done|]. by intros [a|e|]. Qed.
(** An atom, and what its result says. *)
Lemma within_atom_bind G {A B} (m : M C A) (f : A → proc B) :
  (∀ w o w', I w → m w = (o, w') → I w' ∧ G w w' ∧ ∀ a, o = Ret a → within G (f a)) → within G (atom m ≫= f).
Proof.
  intros Hm w o w' Hw Hrun. destruct (Hm w o w' Hw Hrun) as (? & ? & Hf). split_and!; [done..|].
  destruct o as [a|e|]; [by apply Hf|done..].
Qed.
Lemma within_obeys G {A} (p : proc A) : obeys (λ w w', I w → I w' ∧ G w w') p → within G p.
Proof.
  induction p as [o|X m k IH]; [done|]. intros [Hm Hk] w o w' Hw Hrun.
  destruct (Hm w o w' Hrun Hw). split_and!; [done..|apply IH, Hk].
Qed.
Lemma turn_within {A} i (G : nat → relation (World C)) (s s' : World C * list (proc A)) :
  turn i s = Some s' → I s.1 → (∀ j p, s.2 !! j = Some p → within (G j) p) →
  I s'.1 ∧ G i s.1 s'.1 ∧ ∀ j p, s'.2 !! j = Some p → within (G j) p.
Proof.
  unfold turn. destruct s as [w ts]. cbn [fst snd]. destruct (ts !! i) as [[o|X m k]|] eqn:Hi; [done| |done].
  destruct (m w) as [o w'] eqn:Hm. intros [= <-] Hw Hs. cbn [fst snd].
  destruct (Hs i _ Hi w o w' Hw Hm) as (? & ? & Hk). split_and!; [done..|]. intros j p Hj.
  apply list_lookup_insert_Some in Hj as [(-> & <- & _)|[_ Hj]]; [done|by apply Hs].
Qed.
Lemma runs_within {A} l (G : nat → relation (World C)) (s s' : World C * list (proc A)) :
  runs l s = Some s' → I s.1 → (∀ j p, s.2 !! j = Some p → within (G j) p) →
  I s'.1 ∧ ∀ j p, s'.2 !! j = Some p → within (G j) p.
Proof.
  revert s. induction l as [|i l IH]; intros s; cbn; [by intros [= <-]|].
  destruct (turn i s) as [s1|] eqn:Ht; [|done]. intros Hl Hw Hs.
  destruct (turn_within i G s s1 Ht Hw Hs) as (? & _ & ?). by apply (IH s1 Hl).
Qed.
End within.
End proc.
Arguments proc C A : clear implicits.
Arguments Done {C A} o.
Arguments Atom {C A X} m k.

(** Turns in a fixed order until every call has ended: the schedule, and where
    it leads. *)
Fixpoint robin {C A} (fuel : nat) (order : list nat) (s : World C * list (proc C A)) : list nat :=
  match fuel with
  | O => []
  | S fuel =>
      (fix round (l : list nat) (s : World C * list (proc C A)) :=
         match l with
         | [] => if existsb busy s.2 then robin fuel order s else []
         | i :: l => match turn i s with Some s' => i :: round l s' | None => round l s end
         end) order s
  end.

Create HintDb cuts.
#[export] Hint Resolve cuts_atom cuts_ret cuts_fail cuts_lift cuts_attempt cuts_wrapping cuts_deferring
  cuts_recovering cuts_foldM cuts_Do : cuts.
