(* ===== verification/Concurrent.v ===== *)
(** * The calls of concurrent managers, in atoms

    Several processes may run a manager on one data base: a tick, a call of
    [EnsurePartitions] and a sweep are many round trips, and those of other
    calls come between them.  Each call of [Provisioner], [Retention],
    [Registry], [AdvisoryLock] and [Maintainer] is written here in the atoms
    of [Interleave]: a statement, or a transaction, which PostgreSQL isolates.
    The [cuts] lemmas tie each to the call it is cut from. *)

From S2P Require Import Prelude GoTime GoStrings Errs Naming Periods Store World Logic Repo Retry Provisioner Retention Registry AdvisoryLock Maintainer Maintenance Manager Interleave.
Local Open Scope string_scope.
Local Open Scope Z_scope.

(** The [cuts] lemmas follow the program. *)
Ltac cut_step :=
  match goal with
  | |- cuts (_ ≫= _) (_ ≫= _) => apply cuts_bind
  | |- cuts (p_deferring _ _) _ => apply cuts_deferring
  | |- cuts (p_recovering _ _) _ => apply cuts_recovering
  | |- cuts (p_attempt _) _ => apply cuts_attempt
  | |- cuts (p_wrapping _ _) _ => apply cuts_wrapping
  | |- cuts (p_foldM _ _ _) _ => apply cuts_foldM
  | |- cuts (p_forM _ _) _ => apply cuts_forM
  | |- cuts (p_Do _ _) _ => apply cuts_Do
  | |- cuts (p_fail _) _ => apply cuts_fail
  | |- cuts (p_lift _) _ => apply cuts_lift
  | |- cuts (atom _) _ => apply cuts_atom
  | |- cuts (mret _) _ => apply cuts_ret
  | |- ∀ _, _ => intros ?
  | |- cuts (if ?b then _ else _) _ => destruct b
  | |- cuts (match ?x with _ => _ end) _ => destruct x
  | |- _ => solve [auto with cuts]
  end.
Ltac cut := cbv zeta; repeat (cut_step; cbv beta iota).

(** The effect of a call, atom by atom. *)
Ltac obey_step :=
  match goal with
  | |- obeys _ (_ ≫= _) => apply obeys_bind
  | |- obeys _ (p_deferring _ _) => apply obeys_deferring
  | |- obeys _ (p_recovering _ _) => apply obeys_recovering
  | |- obeys _ (p_attempt _) => apply obeys_attempt
  | |- obeys _ (p_wrapping _ _) => apply obeys_wrapping
  | |- obeys _ (p_foldM _ _ _) => apply obeys_foldM
  | |- obeys _ (p_forM _ _) => apply obeys_forM
  | |- obeys _ (p_Do _ _) => apply obeys_Do
  | |- obeys _ (p_lift _) => apply obeys_lift
  | |- obeys _ (atom _) => apply obeys_atom
  | |- obeys _ (p_fail _) => exact I
  | |- obeys _ (mret _) => exact I
  | |- ∀ _, _ => intros ?
  | |- obeys _ (if ?b then _ else _) => destruct b
  | |- obeys _ (match ?x with _ => _ end) => destruct x
  | |- Effect _ => apply _
  | |- Course _ => apply _
  end.
Ltac obey := cbv zeta; repeat (obey_step; cbv beta iota); stable.

Section concurrent.
Context {C : Type} {E : Env C}.

(** ** [internal/provisioner/provisioner.go] *)

Definition p_ensure (parentLabel : string) (prow : Parent.row) (tenant : option string)
    : proc C EnsureReport :=
  if hasTenantCol prow && bool_decide (tenant = None) then
    p_fail (Msg "provisioner: parent has TenantColumn; tenant is required")
  else if negb (hasTenantCol prow) && negb (bool_decide (tenant = None)) then
    p_fail (Msg "provisioner: parent has no TenantColumn; tenant must be nil")
  else
    k ← p_wrapping "provisioner: parent" (p_lift (parseIntervalLabel (Parent.PartitionInterval prow)));
    now ← atom Now;
    required ← p_lift (NextBoundsUTC (UTC now) (canonicalIntervalFor k) (Parent.Premake prow + 1));
    existing ← atom (wrapping "provisioner: list partitions" (ListPartitionsForParent (Parent.ID prow)));
    let existingSet := buildExistingSet existing tenant in
    let toCreate := filter (λ b, boundsKey b ∉ existingSet) required in
    d ← atom (attempt (GetDefaultPartition (Parent.ID prow) None));
    needDefault ← match d with
                  | Ok _ => mret false
                  | Err e => if Is e NoRows then mret true
                             else p_fail (Wrap "provisioner: lookup default" e)
                  end;
    if bool_decide (length toCreate = 0%nat) && negb needDefault then mret no_report
    else
      p_Do (Provisioner.retryPolicy "provisioner-ensure") (atom (createInTx prow tenant toCreate needDefault k)) ;;
      let n := Z.of_nat (length toCreate) in
      atom ((if 0 <? n then emit (Counter "partman.partitions_created_total" n ["parent"; parentLabel])
             else mret tt) ;;
            (if needDefault
             then emit (Counter "partman.default_partitions_created_total" 1 ["parent"; parentLabel])
             else mret tt) ;;
            mret (mkEnsureReport n needDefault)).

Definition p_EnsurePartitions (parent : ParentRef.t) (tenant : option string) : proc C EnsureReport :=
  let parentLabel := ParentRef.SchemaName parent +:+ "." +:+ ParentRef.TableName parent in
  start ← atom Now;
  p_deferring
    (now ← atom Now;
     atom (emit (Histogram "partman.provisioner_duration_seconds" (Sub now start) ["parent"; parentLabel])))
    (r ← atom (attempt (GetParentTable (ParentRef.SchemaName parent) (ParentRef.TableName parent)));
     match r with
     | Err e => if Is e NoRows then p_fail (Msg "provisioner: parent not registered")
                else p_fail (Wrap "provisioner: load parent" e)
     | Ok prow => p_ensure parentLabel prow tenant
     end).

(** ** [internal/retention/retention.go] *)

Definition p_sweep_one (hook : Hook C) (o : sweepOptions) (parentLabel : string) (prow : Parent.row)
    (report : SweepReport) (row : Partition.row) : proc C SweepReport :=
  match buildPartitionRef (Parent.TableName prow) row with
  | Err _ => atom (skipped_counter parentLabel "bad_metadata" ;; mret (add_skipped zero_PartitionRef report))
  | Ok ref =>
      decision ← atom (decide_hook hook ref);
      if bool_decide (decision = HookArchive) && negb (hasRetentionSchema (Parent.RetentionSchema prow))
      then atom (skipped_counter parentLabel "missing_archive_schema" ;; mret (add_skipped ref report))
      else if dryRun o then mret (dry_report decision ref report)
      else if bool_decide (decision = HookSkip)
      then atom (skipped_counter parentLabel "hook_skip" ;; mret (add_skipped ref report))
      else
        applyErr ← p_attempt (p_Do (Retention.retryPolicy "retention-apply") (atom (applyDecision prow row decision)));
        match applyErr with
        | Err _ => atom (skipped_counter parentLabel "ddl_error" ;; mret (add_skipped ref report))
        | Ok _ => atom (done_report parentLabel decision ref report)
        end
  end.

Definition p_sweep (hook : Hook C) (o : sweepOptions) (parentLabel : string) (prow : Parent.row)
    : proc C (SweepReport * option error) :=
  now ← atom Now;
  let cutoff := computeCutoff (UTC now) (Parent.RetentionPeriod prow) in
  r ← atom (attempt (ListExpiredPartitions (Parent.ID prow) cutoff));
  match r with
  | Err e => mret (empty_report o 0, Some (Wrap "retention: list expired" e))
  | Ok candidates =>
      report ← p_foldM (p_sweep_one hook o parentLabel prow)
                 (empty_report o (Z.of_nat (length candidates))) candidates;
      mret (report, None)
  end.

Definition p_Sweep (hook : Hook C) (schema table : string) (opts : list SweepOption)
    : proc C (SweepReport * option error) :=
  let o := evalSweepOptions opts in
  let parentLabel := schema +:+ "." +:+ table in
  start ← atom Now;
  p_deferring
    (now ← atom Now;
     atom (emit (Histogram "partman.retention_duration_seconds" (Sub now start) ["parent"; parentLabel])))
    (r ← atom (attempt (GetParentTable schema table));
     match r with
     | Err e =>
         mret (empty_report o 0,
               Some (if Is e NoRows then Wrap "%w: %s.%s" (Sentinel ErrParentNotFound)
                     else Wrap "retention: load parent" e))
     | Ok prow => p_sweep hook o parentLabel prow
     end).

(** ** [internal/registry/registry.go] *)

Definition p_ListTenants (ref : ParentRef.t) : proc C (list TenantConfig.t) :=
  let schema := ParentRef.SchemaName ref in
  let table := ParentRef.TableName ref in
  p_lift (validateIdentifier "schema_name" schema) ;;
  p_lift (validateIdentifier "table_name" table) ;;
  r ← atom (attempt (GetParentTable schema table));
  match r with
  | Err e =>
      if Is e NoRows then p_fail (Wrap "%w: %s.%s" (Sentinel ErrParentNotFound))
      else p_fail (Wrap "partman: load parent for list tenants: %w" e)
  | Ok prow =>
      trows ← atom (wrapping "partman: list tenants: %w" (ListTenantsForParent (Parent.ID prow)));
      mret (map (λ row, TenantConfig.mk schema table (Tenant.ID row)) trows)
  end.

(** ** [internal/maintainer/advisory_lock.go]

    The connection that holds the lock stands for its release function. *)

Definition p_poolLocker_TryLock (schema table : string) : proc C (option nat) :=
  conn ← atom (wrapping "maintainer: acquire conn: %w" Acquire);
  locked ← atom (TryLock conn schema table);
  if negb locked then mret None else mret (Some conn).
Definition release (schema table : string) (conn : nat) : M C unit := attempt (Unlock conn schema table) ;; mret tt.

(** ** [internal/maintainer/maintainer.go] *)

Context (hook : Hook C).

Definition p_ensure_for (ref : ParentRef.t) (created : Z * bool) (tenant : option string) : proc C (Z * bool) :=
  rep ← p_attempt (p_EnsurePartitions ref tenant);
  match rep with
  | Err _ => mret created
  | Ok rep => mret (add_report created rep)
  end.
Definition p_ensure_all (p : ParentInfo.t) : proc C (Z * bool) :=
  if bool_decide (ParentInfo.TenantColumn p = "") then p_ensure_for (ref_of p) (0, false) None
  else
    tenants ← p_attempt (p_ListTenants (ref_of p));
    match tenants with
    | Err _ => mret (0, false)
    | Ok tenants =>
        p_foldM (λ created tn, p_ensure_for (ref_of p) created (Some (TenantConfig.TenantId tn)))
          (0, false) tenants
    end.

Definition p_process_locked (p : ParentInfo.t) : proc C parentResult :=
  p_ensure_all p ;;
  p_attempt (p_Sweep hook (ParentInfo.SchemaName p) (ParentInfo.TableName p) []) ;;
  atom Now ;;
  atom (emit (Counter "partman.parents_processed_total" 1 ["parent"; parentLabel p])) ;;
  mret parentResultProcessed.

Definition p_processParent (p : ParentInfo.t) : proc C parentResult :=
  let label := parentLabel p in
  atom Now ;;
  p_recovering
    (atom (emit (Counter "partman.parents_panicked_total" 1 ["parent"; label])) ;;
     mret parentResultPanicked)
    (r ← p_attempt (p_poolLocker_TryLock (ParentInfo.SchemaName p) (ParentInfo.TableName p));
     match r with
     | Err _ => mret parentResultLocked
     | Ok None =>
         atom (emit (Counter "partman.lock_skipped_total" 1 ["parent"; label])) ;;
         mret parentResultLocked
     | Ok (Some conn) =>
         p_deferring (atom (release (ParentInfo.SchemaName p) (ParentInfo.TableName p) conn)) (p_process_locked p)
     end).

Definition p_maintain_one (c : Counts) (p : ParentInfo.t) : proc C Counts :=
  canceled ← atom ctx_Err;
  match canceled with
  | Some e => p_fail e
  | None =>
      if negb (ParentInfo.AutomaticMaintenance p) then mret c
      else result ← p_processParent p; mret (count result c)
  end.

Definition p_Maintain : proc C unit :=
  atom Now ;;
  parents ← atom (wrapping "maintainer: list parents: %w" ListParents);
  tickStart ← atom Now;
  p_foldM p_maintain_one (mkCounts 0 0 0) parents ;;
  now ← atom Now;
  atom (emit (Counter "partman.maintenance_runs_total" 1 [])) ;;
  atom (emit (Histogram "partman.maintenance_duration_seconds" (Sub now tickStart) [])).

(** ** The calls, alone *)


Lemma p_ensure_cuts label prow tenant : cuts (p_ensure label prow tenant) (ensure label prow tenant).
Proof. unfold p_ensure, ensure. cut. Qed.
Hint Resolve p_ensure_cuts : cuts.
Lemma p_EnsurePartitions_cuts parent tenant : cuts (p_EnsurePartitions parent tenant) (EnsurePartitions parent tenant).
Proof. unfold p_EnsurePartitions, EnsurePartitions. cut. Qed.
Hint Resolve p_EnsurePartitions_cuts : cuts.

Lemma p_sweep_one_cuts h o label prow report row :
  cuts (p_sweep_one h o label prow report row) (sweep_one h o label prow report row).
Proof. unfold p_sweep_one, sweep_one. cut. Qed.
Hint Resolve p_sweep_one_cuts : cuts.
Lemma p_Sweep_cuts h schema table opts : cuts (p_Sweep h schema table opts) (Sweep h schema table opts).
Proof. unfold p_Sweep, p_sweep, Sweep, sweep. cut. Qed.
Hint Resolve p_Sweep_cuts : cuts.

Lemma p_ListTenants_cuts ref : cuts (p_ListTenants ref) (ListTenants ref).
Proof. unfold p_ListTenants, ListTenants. cut. Qed.
Hint Resolve p_ListTenants_cuts : cuts.

(** A call whose result is read through [h]. *)
Lemma cuts_bind_map {A A' B} (h : A → A') (p : proc C A) m (f : A → proc C B) k :
  (∀ w, m w = ((a ← alone p; mret (h a)) : M C A') w) → (∀ a, cuts (f a) (k (h a))) → cuts (p ≫= f) (m ≫= k).
Proof.
  intros Hm Hk w. unfold mbind, proc_bind, M_bind. rewrite alone_then, Hm. unfold mbind, M_bind.
  destruct (alone p w) as [[a|e|] w1]; [apply Hk|done..].
Qed.
Definition lock_of (schema table : string) (r : res (option nat)) : res (option (M C unit)) :=
  match r with Ok conn => Ok (release schema table <$> conn) | Err e => Err e end.
Lemma p_TryLock_cuts schema table w :
  attempt (poolLocker_TryLock schema table) w =
  ((r ← alone (p_attempt (p_poolLocker_TryLock schema table)); mret (lock_of schema table r)) : M C _) w.
Proof.
  unfold poolLocker_TryLock, p_poolLocker_TryLock, p_attempt, attempt, mbind, M_bind, proc_bind, mret, M_ret, proc_ret.
  cbn. destruct (wrapping _ Acquire w) as [[conn|e|] w1]; cbn; [|done..].
  destruct (TryLock conn schema table w1) as [[[]|e|] w2]; done.
Qed.

Lemma p_processParent_cuts p : cuts (p_processParent p) (processParent (maintainer_deps hook) p).
Proof.
  unfold p_processParent, processParent. cbv zeta. apply cuts_bind; [cut|intros _]. apply cuts_recovering; [cut|].
  apply (cuts_bind_map (lock_of (ParentInfo.SchemaName p) (ParentInfo.TableName p)));
    [intros w; apply p_TryLock_cuts|].
  intros [[conn|]|e]; cbn [lock_of fmap option_fmap option_map]; [|cut..]. apply cuts_deferring; [cut|].
  unfold p_process_locked, process_locked, p_ensure_all, ensure_all, p_ensure_for, ensure_for. cut.
Qed.
Hint Resolve p_processParent_cuts : cuts.

(** The atoms of a tick, one after the other, are the tick. *)
Lemma p_Maintain_cuts : cuts p_Maintain (Manager_Maintain hook).
Proof. unfold p_Maintain, Manager_Maintain, Maintain, p_maintain_one, maintain_one. cut. Qed.
End concurrent.
