(* ===== verification/Requests.v ===== *)
(** * Every call of a manager, in atoms

    The requests that [Concurrent] does not have: registrations, removals,
    [ImportExisting] and [PartitionData].  With them any number of processes
    that serve any requests can be interleaved, statement by statement and
    transaction by transaction. *)

From S2P Require Import Prelude GoTime GoStrings Errs Naming Periods Store World Logic Repo Retry Scenario Provisioner Ensure Retention Sweep Registry Registration AdvisoryLock Maintainer Maintenance Importer Import Drain Manager Interleave Concurrent.
Local Open Scope string_scope.
Local Open Scope Z_scope.

Section requests.
Context {C : Type} {E : Env C}.

(** ** [internal/registry/registry.go] *)

Definition p_RegisterParent (cfg : ParentConfig.t) : proc C unit :=
  let schema := ParentConfig.SchemaName cfg in
  let table := ParentConfig.TableName cfg in
  p_lift (validateParentIdentifiers cfg) ;;
  atom (assertTableExists schema table) ;;
  atom (assertPartitionedByRange schema table) ;;
  atom (assertColumnExists schema table (ParentConfig.PartitionBy cfg)) ;;
  (if bool_decide (ParentConfig.TenantColumn cfg = "") then mret tt
   else atom (assertColumnExists schema table (ParentConfig.TenantColumn cfg))) ;;
  (if bool_decide (ParentConfig.RetentionSchema cfg = "") then mret tt
   else atom (assertSchemaExists (ParentConfig.RetentionSchema cfg))) ;;
  intervalLabel ← p_lift (PartitionIntervalLabel (ParentConfig.PartitionInterval cfg));
  id ← atom ulid_Make;
  r ← atom (attempt (UpsertParentTable (parent_params cfg intervalLabel id)));
  match r with
  | Err e =>
      if Is e NoRows then p_fail (Wrap "%w: %s.%s" (Sentinel ErrParentAlreadyExists))
      else p_fail (Wrap "partman: insert parent row: %w" e)
  | Ok _ =>
      if negb (bool_decide (ParentConfig.TenantColumn cfg = "")) then mret tt
      else
        p_wrapping "partman: provision partitions for %s.%s: %w"
          (p_EnsurePartitions (ParentRef.mk schema table) None) ;;
        mret tt
  end.

Definition p_RegisterTenant (cfg : TenantConfig.t) : proc C unit :=
  let schema := TenantConfig.ParentSchema cfg in
  let table := TenantConfig.ParentName cfg in
  let tenant := TenantConfig.TenantId cfg in
  p_lift (validateIdentifier "parent_schema" schema) ;;
  p_lift (validateIdentifier "parent_name" table) ;;
  p_lift (validateIdentifier "tenant_id" tenant) ;;
  r ← atom (attempt (GetParentTable schema table));
  match r with
  | Err e =>
      if Is e NoRows then p_fail (Wrap "%w: %s.%s" (Sentinel ErrParentNotFound))
      else p_fail (Wrap "partman: load parent for tenant: %w" e)
  | Ok prow =>
      if negb (hasTenantCol prow) then p_fail (Wrap "%w: %s.%s" (Sentinel ErrParentNotTenanted))
      else
        rows ← atom (wrapping "partman: insert tenant row: %w" (UpsertTenant (Parent.ID prow) tenant));
        if rows =? 0 then p_fail (Wrap "%w: %s under %s.%s" (Sentinel ErrTenantAlreadyExists))
        else
          p_wrapping "partman: provision partitions for %s.%s tenant=%s: %w"
            (p_EnsurePartitions (ParentRef.mk schema table) (Some tenant)) ;;
          mret tt
  end.

(** [DropAll] of [internal/retention/retention.go], which the adapter of
    [manager.go] hands to the registry. *)
Definition p_DropAll (schemaName tableName : string) : proc C unit :=
  r ← atom (attempt (GetParentTable schemaName tableName));
  match r with
  | Err e => if Is e NoRows then mret tt else p_fail (Wrap "retention: load parent" e)
  | Ok prow =>
      rows ← atom (wrapping "retention: list partitions" (ListPartitionsForParent (Parent.ID prow)));
      p_forM (λ row,
        match Retention.splitFQ (Partition.Name row) with
        | None => p_fail (Msg "retention: unexpected FQ shape")
        | Some (childSchema, childTable) =>
            p_wrapping "retention: drop"
              (p_Do (Retention.retryPolicy "retention-drop")
                 (atom (dropOne childSchema childTable (Partition.ID row))))
        end) rows
  end.

Definition p_RemoveParent (ref : ParentRef.t) (opts : list RemoveOption) : proc C unit :=
  let schema := ParentRef.SchemaName ref in
  let table := ParentRef.TableName ref in
  p_lift (validateIdentifier "schema_name" schema) ;;
  p_lift (validateIdentifier "table_name" table) ;;
  (if cascadeDrop (evalRemoveOptions opts)
   then p_wrapping "partman: cascade drop parent %s.%s: %w" (p_DropAll schema table)
   else mret tt) ;;
  atom (wrapping "partman: delete parent row: %w" (DeleteParentTable schema table)) ;;
  mret tt.

Definition p_RemoveTenant (ref : TenantConfig.t) : proc C unit :=
  let schema := TenantConfig.ParentSchema ref in
  let table := TenantConfig.ParentName ref in
  p_lift (validateIdentifier "parent_schema" schema) ;;
  p_lift (validateIdentifier "parent_name" table) ;;
  p_lift (validateIdentifier "tenant_id" (TenantConfig.TenantId ref)) ;;
  r ← atom (attempt (GetParentTable schema table));
  match r with
  | Err e =>
      if Is e NoRows then mret tt else p_fail (Wrap "partman: load parent for tenant remove: %w" e)
  | Ok prow =>
      atom (wrapping "partman: delete tenant row: %w"
        (DeleteTenant (Parent.ID prow) (TenantConfig.TenantId ref))) ;;
      mret tt
  end.

(** ** [internal/importer/importer.go] *)

Definition p_register_child_tenant (prow : Parent.row) (tenant : string) (known : list string)
    : proc C (list string) :=
  if bool_decide (tenant = "") || bool_decide (tenant ∈ known) then mret known
  else
    atom (wrapping "importer: auto-register tenant %q for %s: %w" (UpsertTenant (Parent.ID prow) tenant)) ;;
    mret (tenant :: known).

Definition p_import_one (prow : Parent.row) (existingNames : list string)
    (st : ReconcileReport * list string) (c : pgChild) : proc C (ReconcileReport * list string) :=
  let '(report, known) := st in
  match Parse (fq c) with
  | Err e => mret (add_skipped_child (mkSkipped (fq c) "non-conforming name: " e) report, known)
  | Ok nameParsed =>
      match parseBoundExpr (BoundExpr c) with
      | Err e =>
          mret (add_skipped_child (mkSkipped (fq c) "unrecognized bound expression: " e) report, known)
      | Ok boundParsed =>
          let reason := compareNameAndBound nameParsed boundParsed in
          if negb (bool_decide (reason = "")) then
            mret (add_drifted (mkDrifted (fq c) (TBounds nameParsed) (BoundExpr c) reason) report, known)
          else
            known ← p_register_child_tenant prow (BTenantId boundParsed) known;
            if bool_decide (fq c ∈ existingNames) then mret (report, known)
            else
              atom (insertMetadata prow (fq c) boundParsed) ;;
              mret (add_imported (buildRef nameParsed boundParsed) report, known)
      end
  end.

Definition p_reconcile (prow : Parent.row) (children : list pgChild) : proc C ReconcileReport :=
  existing ← atom (wrapping "importer: list metadata: %w" (ListPartitionsForParent (Parent.ID prow)));
  known ← atom (loadKnownTenants (Parent.ID prow));
  st ← p_foldM (p_import_one prow (Partition.Name <$> existing)) (empty_reconcile, known) children;
  mret (with_orphans (orphans (fq <$> children) existing) st.1).

Definition p_Import (ref : ParentRef.t) : proc C ReconcileReport :=
  let schema := ParentRef.SchemaName ref in
  let table := ParentRef.TableName ref in
  r ← atom (attempt (GetParentTable schema table));
  match r with
  | Err e =>
      if Is e NoRows then p_fail (Wrap "%w: %s.%s" (Sentinel ErrParentNotFound))
      else p_fail (Wrap "importer: load parent: %w" e)
  | Ok prow =>
      k ← p_wrapping "importer: parent %s.%s: %w" (p_lift (intervalKindFromLabel (Parent.PartitionInterval prow)));
      children ← atom (listChildrenFromPG schema table);
      p_lift (preflight k children) ;;
      p_reconcile prow children
  end.

(** ** [internal/drain/drain.go]

    The move of a group is one transaction. *)

Section loop.
Context (schema defaultTable parentLabel tenantCol : string) (prow : Parent.row).
Context (cols : list string) (interval : Z) (o : Options.t).

Fixpoint p_drain_groups (gs : groups) (report : Report) (anomalies : anomalyTracker) : proc C stopped :=
  match gs with
  | [] => mret (report, anomalies, None)
  | (key, ctids) :: gs =>
      target ← atom (attempt (FindActivePartitionByBounds (Parent.ID prow) (pgTenantID key)
                                (From (KBounds key)) (To (KBounds key))));
      match target with
      | Err e =>
          if Is e NoRows then p_drain_groups gs report (record key (Z.of_nat (length ctids)) anomalies)
          else mret (report, anomalies, Some (Wrap "drain: lookup target: %w" e))
      | Ok target =>
          moved ← p_attempt (p_Do (Drain.retryPolicy "drain-move")
                               (atom (moveGroup schema defaultTable (Partition.Name target) cols ctids)));
          match moved with
          | Err e => mret (report, anomalies, Some (Wrap "drain: move group: %w" e))
          | Ok moved =>
              atom (emit (Counter "partman.drain_rows_moved_total" moved ["parent"; parentLabel])) ;;
              p_drain_groups gs (add_moved moved report) anomalies
          end
      end
  end.

Fixpoint p_drain_batches (fuel : nat) (batchIdx : Z) (report : Report) (anomalies : anomalyTracker)
    : proc C (option stopped) :=
  match fuel with
  | O => mret None
  | S fuel =>
      if negb ((Options.MaxBatches o =? 0) || (batchIdx <? Options.MaxBatches o))
      then mret (Some (report, anomalies, None))
      else
        canceled ← atom ctx_Err;
        match canceled with
        | Some e => mret (Some (report, anomalies, Some e))
        | None =>
            rows ← atom (attempt (readBatch (buildReadBatch (read_params schema defaultTable tenantCol prow o anomalies))
                                    (negb (bool_decide (tenantCol = "")))));
            match rows with
            | Err e => mret (Some (report, anomalies, Some (Wrap "drain: read batch: %w" e)))
            | Ok [] => mret (Some (report, anomalies, None))
            | Ok rows =>
                let report := add_batch report in
                atom (emit (Counter "partman.drain_batches_total" 1 ["parent"; parentLabel])) ;;
                match groupByBounds rows interval with
                | Err e => mret (Some (report, anomalies, Some (Wrap "drain: group rows: %w" e)))
                | Ok gs =>
                    gs ← atom (range gs);
                    r ← p_drain_groups gs report anomalies;
                    match r with
                    | (report, anomalies, Some e) => mret (Some (report, anomalies, Some e))
                    | (report, anomalies, None) => p_drain_batches fuel (batchIdx + 1) report anomalies
                    end
                end
            end
        end
  end.

Definition p_drain (fuel : nat) : proc C (option (Report * option error)) :=
  r ← p_drain_batches fuel 0 empty_drain [];
  match r with
  | None => mret None
  | Some (report, _, Some e) => mret (Some (report, Some e))
  | Some (report, anomalies, None) =>
      r ← atom (appendNullAnomalies schema defaultTable (Parent.PartitionBy prow) tenantCol (Options.Tenant o) report);
      match r with
      | (report, Some e) => mret (Some (report, Some (Wrap "drain: null summary: %w" e)))
      | (report, None) =>
          let report := add_anomalies (tracker_list anomalies) report in
          let n := Z.of_nat (length (Anomalies report)) in
          (if 0 <? n then atom (emit (Counter "partman.drain_anomalies_total" n ["parent"; parentLabel]))
           else mret tt) ;;
          atom Now ;;
          mret (Some (report, None))
      end
  end.
End loop.

Definition p_partition_locked (fuel : nat) (ref : ParentRef.t) (o : Options.t)
    : proc C (option (Report * option error)) :=
  let schema := ParentRef.SchemaName ref in
  let table := ParentRef.TableName ref in
  let stop e : proc C (option (Report * option error)) := mret (Some (empty_drain, Some e)) in
  r ← atom (attempt (GetParentTable schema table));
  match r with
  | Err e =>
      stop (if Is e NoRows then Wrap "%w: %s.%s" (Sentinel ErrParentNotFound)
            else Wrap "drain: load parent: %w" e)
  | Ok prow =>
      match intervalFromLabel (Parent.PartitionInterval prow) with
      | Err e => stop (Wrap "drain: %w" e)
      | Ok interval =>
          let tenantCol := default "" (Parent.TenantColumn prow) in
          let defaultTable := table +:+ "_default" in
          cols ← atom (attempt (lookupInsertColumns schema table));
          match cols with
          | Err e => stop (Wrap "drain: lookup columns: %w" e)
          | Ok cols =>
              if bool_decide (cols = []) then stop (Msg "drain: parent %s.%s has no non-generated columns")
              else
                ok ← atom (attempt (assertDefaultExists schema defaultTable));
                match ok with
                | Err e => stop e
                | Ok _ => p_drain schema defaultTable (schema +:+ "." +:+ table) tenantCol prow cols interval o fuel
                end
          end
      end
  end.

Definition p_PartitionData (fuel : nat) (ref : ParentRef.t) (opts : Options.t)
    : proc C (option (Report * option error)) :=
  let o := resolved opts in
  let schema := ParentRef.SchemaName ref in
  let table := ParentRef.TableName ref in
  let stop e : proc C (option (Report * option error)) := mret (Some (empty_drain, Some e)) in
  start ← atom Now;
  p_deferring
    (now ← atom Now;
     atom (emit (Histogram "partman.drain_duration_seconds" (Sub now start) ["parent"; schema +:+ "." +:+ table])))
    (conn ← atom (attempt Acquire);
     match conn with
     | Err e => stop (Wrap "drain: acquire conn: %w" e)
     | Ok conn =>
         locked ← atom (attempt (TryLock conn schema table));
         match locked with
         | Err e => stop (Wrap "drain: try lock: %w" e)
         | Ok false => stop (Sentinel ErrLockContention)
         | Ok true => p_deferring (atom (release schema table conn)) (p_partition_locked fuel ref o)
         end
     end).

(** ** Requests ([manager.go], [drain.go]) *)

Definition p_ImportExisting (ref : ParentRef.t) : proc C Public.ReconcileReport :=
  rep ← p_Import (ParentRef.mk (ParentRef.SchemaName ref) (ParentRef.TableName ref));
  mret (Public.mkReconcile (Imported rep) (convertDrifted (Drifted rep)) (Orphaned rep)
          (convertSkipped (SkippedChildren rep))).
Definition p_Manager_PartitionData (fuel : nat) (ref : ParentRef.t) (opts : list DrainOption)
    : proc C (option Public.DrainReport) :=
  r ← p_PartitionData fuel (ParentRef.mk (ParentRef.SchemaName ref) (ParentRef.TableName ref))
        (drain_Options (evalDrainOptions opts));
  match r with
  | None => mret None
  | Some (_, Some e) => p_fail e
  | Some (rep, None) => mret (Some (convertDrainReport rep))
  end.

Context (hook : Hook C).
(** What a request does, without its report; and as a client that goes on. *)
Definition p_request (r : request) : proc C unit :=
  match r with
  | RqMaintain => p_Maintain hook
  | RqRegisterParent p => p_RegisterParent p
  | RqRegisterTenant t => p_RegisterTenant t
  | RqRemoveParent ref opts => p_RemoveParent ref opts
  | RqRemoveTenant ref => p_RemoveTenant ref
  | RqListParents => atom ListParents ;; mret tt
  | RqListTenants ref => p_ListTenants ref ;; mret tt
  | RqImport ref => p_ImportExisting ref ;; mret tt
  | RqPartitionData fuel ref opts => p_Manager_PartitionData fuel ref opts ;; mret tt
  end.
Definition p_serve (r : request) : proc C unit := p_attempt (p_request r) ;; mret tt.
Definition p_serve_all (l : list request) : proc C unit := p_forM p_serve l.

(** ** The calls, alone *)

Lemma p_RegisterParent_cuts cfg : cuts (p_RegisterParent cfg) (Manager_RegisterParent cfg).
Proof. unfold p_RegisterParent, Manager_RegisterParent, RegisterParent, registry_deps. cut; apply p_EnsurePartitions_cuts. Qed.
Lemma p_RegisterTenant_cuts cfg : cuts (p_RegisterTenant cfg) (Manager_RegisterTenant cfg).
Proof. unfold p_RegisterTenant, Manager_RegisterTenant, RegisterTenant, registry_deps. cut; apply p_EnsurePartitions_cuts. Qed.


Lemma p_DropAll_cuts schema table : cuts (p_DropAll schema table) (DropAll schema table).
Proof. unfold p_DropAll, DropAll. cut. Qed.
Hint Resolve p_RegisterParent_cuts p_RegisterTenant_cuts p_DropAll_cuts : cuts.
Lemma p_RemoveParent_cuts ref opts : cuts (p_RemoveParent ref opts) (Manager_RemoveParent ref opts).
Proof. unfold p_RemoveParent, Manager_RemoveParent, RemoveParent, registry_deps, retentionDropperAdapter. cut. Qed.
Lemma p_RemoveTenant_cuts ref : cuts (p_RemoveTenant ref) (RemoveTenant ref).
Proof. unfold p_RemoveTenant, RemoveTenant. cut. Qed.
Lemma p_Import_cuts ref : cuts (p_Import ref) (Import ref).
Proof.
  unfold p_Import, Import, p_reconcile, reconcile, p_import_one, import_one, p_register_child_tenant,
    register_child_tenant. cut.
Qed.

Lemma p_drain_groups_cuts schema dt label prow cols gs report an :
  cuts (p_drain_groups schema dt label prow cols gs report an) (drain_groups schema dt label prow cols gs report an).
Proof. revert report an. induction gs as [|[k l] gs IH]; intros report an; cbn [p_drain_groups drain_groups]; cut. Qed.
Hint Resolve p_drain_groups_cuts : cuts.
Lemma p_drain_batches_cuts schema dt label tc prow cols interval o fuel i report an :
  cuts (p_drain_batches schema dt label tc prow cols interval o fuel i report an)
       (drain_batches schema dt label tc prow cols interval o fuel i report an).
Proof. revert i report an. induction fuel as [|fuel IH]; intros i report an; cbn [p_drain_batches drain_batches]; cut. Qed.
Hint Resolve p_drain_batches_cuts : cuts.
Lemma p_PartitionData_cuts fuel ref opts : cuts (p_PartitionData fuel ref opts) (PartitionData fuel ref opts).
Proof. unfold p_PartitionData, PartitionData, p_partition_locked, partition_locked, p_drain, drain, release. cut. Qed.
Hint Resolve p_Import_cuts p_PartitionData_cuts p_RemoveParent_cuts p_RemoveTenant_cuts p_ListTenants_cuts : cuts.

(** A client does not look at the report. *)
Lemma cuts_ignoring {A} (p : proc C A) m : cuts p m → cuts (p_attempt (p ;; mret tt) ;; mret tt) (ignoring m).
Proof.
  intros Hp w. unfold ignoring, p_attempt, attempt, mbind, proc_bind, M_bind. rewrite !alone_then, Hp.
  by destruct (m w) as [[a|e|] w1].
Qed.
Lemma cuts_ignoring_unit (p : proc C unit) m : cuts p m → cuts (p_attempt p ;; mret tt) (ignoring m).
Proof. intros Hp. unfold ignoring. cut. Qed.
Hint Resolve p_Maintain_cuts p_RegisterParent_cuts p_RegisterTenant_cuts : cuts.
Lemma p_ImportExisting_cuts ref : cuts (p_ImportExisting ref) (ImportExisting ref).
Proof. unfold p_ImportExisting, ImportExisting. cut. Qed.
Lemma p_Manager_PartitionData_cuts fuel ref opts :
  cuts (p_Manager_PartitionData fuel ref opts) (Manager_PartitionData fuel ref opts).
Proof. unfold p_Manager_PartitionData, Manager_PartitionData. cut. Qed.
Lemma p_serve_cuts r : cuts (p_serve r) (serve hook r).
Proof.
  destruct r; cbn [serve]; unfold p_serve; cbn [p_request]; (apply cuts_ignoring_unit || apply cuts_ignoring).
  all: auto using p_ImportExisting_cuts, p_Manager_PartitionData_cuts with cuts.
Qed.

(** The atoms of a request, one after the other, are the request: each call
    of a manager, cut where the code goes to the data base so that a turn of
    another process may come between any two statements or transactions, has
    every branch, retry, loop and deferred call of the call that [World] runs
    in one piece, and so have the histories of a client. *)
Theorem requests_in_atoms :
  cuts (p_Maintain hook) (Manager_Maintain hook) ∧
  (∀ cfg, cuts (p_RegisterParent cfg) (Manager_RegisterParent cfg)) ∧
  (∀ cfg, cuts (p_RegisterTenant cfg) (Manager_RegisterTenant cfg)) ∧
  (∀ ref opts, cuts (p_RemoveParent ref opts) (Manager_RemoveParent ref opts)) ∧
  (∀ ref, cuts (p_RemoveTenant ref) (Manager_RemoveTenant ref)) ∧
  (∀ ref, cuts (p_ImportExisting ref) (ImportExisting ref)) ∧
  (∀ fuel ref opts, cuts (p_Manager_PartitionData fuel ref opts) (Manager_PartitionData fuel ref opts)) ∧
  ∀ l, cuts (p_serve_all l) (serve_all hook l).
Proof.
  split_and!; [..|intros l; apply cuts_forM, p_serve_cuts];
    auto using p_ImportExisting_cuts, p_Manager_PartitionData_cuts with cuts.
Qed.

(** ** Effects *)

Section asserts.
Context (R : relation (World C)) `{!Course R}.
Lemma Stable_assertTableExists schema table : Stable R (assertTableExists schema table).
Proof. unfold assertTableExists, assertRow. stable. Qed.
Lemma Stable_assertPartitionedByRange schema table : Stable R (assertPartitionedByRange schema table).
Proof. unfold assertPartitionedByRange, assertRow. stable. Qed.
Lemma Stable_assertColumnExists schema table column : Stable R (assertColumnExists schema table column).
Proof. unfold assertColumnExists, assertRow. stable. Qed.
Lemma Stable_assertSchemaExists schema : Stable R (assertSchemaExists schema).
Proof. unfold assertSchemaExists, assertRow. stable. Qed.
End asserts.
Hint Resolve Stable_assertTableExists Stable_assertPartitionedByRange Stable_assertColumnExists
  Stable_assertSchemaExists : stable.

(** The registry is asked to forget something. *)
Definition removes (r : request) : bool :=
  match r with RqRemoveParent _ _ | RqRemoveTenant _ => true | _ => false end.

(** A relation between worlds that respects every statement of the requests
    that are [allowed]. *)
Class Tolerant (R : relation (World C)) (allowed : request → bool) : Prop := {
  tol_course :: Course R;
  tol_exec sql args : Stable R (Exec sql args);
  tol_call s sql args : Stable R (Call s sql args);
  tol_part a : Stable R (UpsertPartition a);
  tol_mark s i : Stable R (meta_write (λ m, Ok (tt, mark s i m)) : M C unit);
  tol_parent cfg label id : allowed (RqRegisterParent cfg) = true → Stable R (UpsertParentTable (parent_params cfg label id));
  tol_tenant cfg pid : allowed (RqRegisterTenant cfg) = true → Stable R (UpsertTenant pid (TenantConfig.TenantId cfg));
  tol_import ref pid t : allowed (RqImport ref) = true → Stable R (UpsertTenant pid t);
  tol_remove ref opts : allowed (RqRemoveParent ref opts) = true →
    Stable R (DeleteParentTable (ParentRef.SchemaName ref) (ParentRef.TableName ref));
  tol_leave ref pid : allowed (RqRemoveTenant ref) = true → Stable R (DeleteTenant pid (TenantConfig.TenantId ref))
}.

(** What its statements do, a request does. *)
Section effects.
Context (R : relation (World C)) (allowed : request → bool) `{HR : !Tolerant R allowed} (Hhook : passive hook).
Let Hexec sql args : Stable R (Exec sql args) := tol_exec sql args.
Let Hcall s sql args : Stable R (Call s sql args) := tol_call s sql args.
Let Hpart a : Stable R (UpsertPartition a) := tol_part a.
Let Hmark s i : Stable R (meta_write (λ m, Ok (tt, mark s i m)) : M C unit) := tol_mark s i.

Lemma EnsurePartitions_obeys parent tenant : obeys R (p_EnsurePartitions parent tenant).
Proof. unfold p_EnsurePartitions, p_ensure, createInTx, create_bounded, create_default. obey. Qed.
Lemma Sweep_obeys schema table opts : obeys R (p_Sweep hook schema table opts).
Proof.
  unfold p_Sweep, p_sweep, p_sweep_one, decide_hook, applyDecision, done_report, skipped_counter,
    MarkPartitionDetached, MarkPartitionDropped.
  obey. eapply Stable_weaken; [by apply Hhook|apply course_waits].
Qed.
Lemma Maintain_obeys : obeys R (p_Maintain hook).
Proof.
  unfold p_Maintain, p_maintain_one, p_processParent, p_poolLocker_TryLock, TryLock, release, Unlock,
    p_process_locked, p_ensure_all, p_ensure_for, p_ListTenants, ListParents.
  obey; apply EnsurePartitions_obeys || apply Sweep_obeys.
Qed.
Lemma RegisterParent_obeys cfg : allowed (RqRegisterParent cfg) = true → obeys R (p_RegisterParent cfg).
Proof. intros Hr. unfold p_RegisterParent. obey; apply EnsurePartitions_obeys || by apply tol_parent. Qed.
Lemma RegisterTenant_obeys cfg : allowed (RqRegisterTenant cfg) = true → obeys R (p_RegisterTenant cfg).
Proof. intros Hr. unfold p_RegisterTenant. obey; apply EnsurePartitions_obeys || by apply tol_tenant. Qed.
Lemma DropAll_obeys schema table : obeys R (p_DropAll schema table).
Proof. unfold p_DropAll, dropOne, MarkPartitionDropped. obey. Qed.
Lemma RemoveParent_obeys ref opts : allowed (RqRemoveParent ref opts) = true → obeys R (p_RemoveParent ref opts).
Proof. intros Hr. unfold p_RemoveParent. obey; apply DropAll_obeys || by eapply tol_remove. Qed.
Lemma RemoveTenant_obeys ref : allowed (RqRemoveTenant ref) = true → obeys R (p_RemoveTenant ref).
Proof. intros Hr. unfold p_RemoveTenant. obey; by apply tol_leave. Qed.
Lemma Import_obeys ref : allowed (RqImport ref) = true → obeys R (p_ImportExisting ref).
Proof.
  intros Hr.
  unfold p_ImportExisting, p_Import, p_reconcile, p_import_one, p_register_child_tenant, insertMetadata, listChildrenFromPG,
    loadKnownTenants.
  obey; by eapply tol_import.
Qed.
Lemma drain_groups_obeys schema dt label prow cols gs report an :
  obeys R (p_drain_groups schema dt label prow cols gs report an).
Proof.
  revert report an. induction gs as [|[k l] gs IH]; intros report an; cbn [p_drain_groups]; unfold moveGroup; obey; apply IH.
Qed.
Lemma drain_batches_obeys schema dt label tc prow cols interval o fuel i report an :
  obeys R (p_drain_batches schema dt label tc prow cols interval o fuel i report an).
Proof.
  revert i report an. induction fuel as [|fuel IH]; intros i report an; cbn [p_drain_batches]; unfold readBatch; obey;
    apply drain_groups_obeys || apply IH || by apply Stable_range.
Qed.
Lemma PartitionData_obeys fuel ref opts : obeys R (p_PartitionData fuel ref opts).
Proof.
  unfold p_PartitionData, p_partition_locked, p_drain, TryLock, release, Unlock, appendNullAnomalies,
    lookupInsertColumns, assertDefaultExists.
  obey; apply drain_batches_obeys.
Qed.

Lemma request_obeys r : allowed r = true → obeys R (p_request r).
Proof.
  destruct r; cbn [p_request]; unfold p_Manager_PartitionData, p_ListTenants, ListParents; intros Hr; obey;
    auto using Maintain_obeys, RegisterParent_obeys, RegisterTenant_obeys, RemoveParent_obeys, RemoveTenant_obeys,
      Import_obeys, PartitionData_obeys.
Qed.
End effects.

(** Any number of processes, any requests. *)
#[export] Instance meta_steps_tolerant : Tolerant meta_steps (λ _, true).
Proof. split; auto using Stable_Mark, Stable_meta_Call with stable typeclass_instances. Qed.
Lemma serve_all_obeys_meta (Hhook : passive hook) l : obeys meta_steps (p_serve_all l).
Proof.
  unfold p_serve_all, p_serve. obey. by apply (request_obeys meta_steps (λ _, true)).
Qed.

(** C6: the metadata stay consistent whatever the clients of any number of
    processes ask for.  The requests of all of them, registrations, removals,
    imports, drains and ticks, are interleaved statement by statement in any
    order, under any faults, cancellations and panics (which end one process):
    from a consistent state, keys, unique names, one default per owner and
    foreign keys hold at every point, and the metadata got there by statements
    of the schema alone. *)
Theorem schedules_keep_WF (processes : list (list request)) l w w' ts :
  passive hook → WF (meta (db w)) → runs l (w, p_serve_all <$> processes) = Some (w', ts) →
  WF (meta (db w')) ∧ rtc meta_step (meta (db w)) (meta (db w')).
Proof.
  intros Hhook Hwf Hrun. enough (meta_steps w w') as Hs by (split; [by eapply WF_statements|done]).
  apply (runs_obeys meta_steps l (w, p_serve_all <$> processes) (w', ts) Hrun).
  intros p (requests & -> & _)%list_elem_of_fmap. by apply serve_all_obeys_meta.
Qed.
End requests.
#[export] Hint Resolve Stable_assertTableExists Stable_assertPartitionedByRange Stable_assertColumnExists
  Stable_assertSchemaExists : stable.

(** ** Examples *)

(** Two clients of two processes register the same parent, maintain, import
    and drain; one of them removes it and registers another one.  The reply to
    one commit is lost. *)
Definition audit_config : ParentConfig.t :=
  ParentConfig.mk "app" "audit" "" "created_at" "" "" PartitionDayInterval 2 (30 * PartitionDayInterval) false false.
Definition catalogued_late : Env (list string) :=
  scenario one_row (λ n, if (n =? 24)%nat then Some (Applied (PgError "08006")) else None) (λ _, noon).
Definition clients : list (list request) :=
  [[RqRegisterParent (events_config ""); RqMaintain; RqImport app_events; RqPartitionData 3 app_events [WithBatchSize 2]];
   [RqRegisterParent (events_config ""); RqRegisterTenant acme; RqMaintain; RqRemoveParent app_events [];
    RqRegisterParent audit_config; RqListParents]].
Definition clients_start : World (list string) * list (proc (list string) unit) :=
  (start empty_Meta, p_serve_all (E := catalogued_late) None <$> clients).
Definition clients_schedule : list nat := Eval vm_compute in robin 1000 [0; 0; 0; 1; 1]%nat clients_start.
Definition clients_done (r : option (World (list string) * list (proc (list string) unit))) : bool :=
  match r with
  | Some (w', ts) => negb (existsb busy ts) && bool_decide (Parent.TableName <$> parent_tables (meta (db w')) = ["audit"])
  | None => false
  end.
Lemma schedules_keep_WF_witness :
  match runs clients_schedule clients_start with
  | Some (w', ts) => clients_done (Some (w', ts)) = true ∧
      WF (meta (db w')) ∧ rtc meta_step empty_Meta (meta (db w'))
  | None => False
  end.
Proof.
  assert (clients_done (runs clients_schedule clients_start) = true) as Hs by (vm_compute; reflexivity).
  destruct (runs clients_schedule clients_start) as [[w' ts]|] eqn:Hrun; [|discriminate Hs].
  split; [exact Hs|].
  exact (schedules_keep_WF (E := catalogued_late) None clients clients_schedule (start empty_Meta) w' ts
    passive_None WF_empty Hrun).
Defined.
