(* ===== verification/Alongside.v ===== *)
(** * Calls that do not harm each other

    Ticks, calls of [EnsurePartitions] and sweeps of any number of processes on
    one data base, their atoms in any order and whatever fails.  No row is
    lost, and a row is only retired when it is past a cutoff of its own
    parent: a call that adds rows adds those of a target set, a call that
    retires rows has read them before, and what it read of a row still holds,
    whatever the others did.  The proof is against the interface [Standing] of
    an invariant; [Together] has a second, stronger instance of it. *)

From S2P Require Import Prelude GoTime GoStrings Errs TimeFormat Naming Periods Store World Logic Repo Retry Scenario Provisioner Ensure Retention Sweep Registry Registration Removal AdvisoryLock Maintainer Maintenance Manager Upkeep Interleave Concurrent.
Local Open Scope string_scope.
Local Open Scope Z_scope.

Section alongside.
Context {C : Type} {E : Env C} {L : EnvLaws E}.
Context (w0 : World C) (Hwf : WF (meta (db w0))).

(** ** Rows that may be retired *)

(** Past the cutoff of its parent at some reading of the clock. *)
Definition past (r : Partition.row) : Prop :=
  Partition.IsDefault r = false ∧
  ∃ row n, row ∈ parent_tables (meta (db w0)) ∧ Partition.ParentTableID r = Parent.ID row ∧
    unix_ns (Partition.BoundsTo r) <= unix_ns (cutoff_at row n).
Lemma past_status s r : past (Partition.set_status s r) ↔ past r.
Proof. done. Qed.

(** ** What a step may do *)

(** What a parent may add. *)
Definition owned (r : Partition.row) : Prop := ∃ row tenant k,
  row ∈ parent_tables (meta (db w0)) ∧ parseIntervalLabel (Parent.PartitionInterval row) = Ok k ∧ added row tenant k r.
(** Rows stay, new ones are of a target set, and only those past a cutoff are
    retired. *)
Record grown (w w' : World C) : Prop := {
  grown_keeps r : r ∈ rows_of w → ∃ r', r' ∈ rows_of w' ∧ retired_if past r r';
  grown_from r' : r' ∈ rows_of w' → ∃ r, (r ∈ rows_of w ∨ owned r) ∧ retired_if past r r'
}.
Lemma past_trans r1 r2 r3 : retired_if past r1 r2 → retired_if past r2 r3 → retired_if past r1 r3.
Proof. by apply retired_if_trans. Qed.
#[export] Instance grown_preorder : PreOrder grown.
Proof.
  split.
  - intros w. split; intros r Hr; exists r; (split; [auto|by left]).
  - intros w1 w2 w3 [H1 H2] [H3 H4]. split.
    + intros r (r2 & Hr2 & ?)%H1. destruct (H3 r2 Hr2) as (r3 & ? & ?). exists r3. split; [done|by eapply past_trans].
    + intros r3 (r2 & [Hr2|Ho] & ?)%H4; [|by exists r2; auto].
      destruct (H2 r2 Hr2) as (r1 & ? & ?). exists r1. split; [done|by eapply past_trans].
Qed.
Lemma grown_same w w' : rows_of w' = rows_of w → grown w w'.
Proof. intros Hr. split; intros r; rewrite Hr; intros Hin; exists r; (split; [auto|by left]). Qed.

(** An invariant that holds the registrations of the start. *)
Class Standing (inv : World C → Prop) : Prop := {
  standing_wf w : inv w → WF (meta (db w));
  standing_parents w : inv w → parent_tables (meta (db w)) = parent_tables (meta (db w0));
  standing_tenants w : inv w → tenants (meta (db w)) = tenants (meta (db w0));
  standing_same w w' : same_meta w w' → ticks w w' → inv w → inv w';
  standing_retire D w w' : ticks w w' → touches past D (db w) (db w') → meta_steps w w' → inv w → inv w'
}.

Lemma get_registered row :
  row ∈ parent_tables (meta (db w0)) → get_parent (Parent.key row) (meta (db w0)) = Ok row.
Proof.
  intros Hin. unfold get_parent. destruct (List.find _ _) as [p|] eqn:Hf.
  - apply find_Some_elem in Hf as [Hp Hk%bool_decide_eq_true]. f_equal.
    by apply (NoDup_fmap_elem_eq Parent.key _ p row (wf_parent_keys _ Hwf)).
  - pose proof (find_None_elem _ _ row Hf Hin) as Hn. cbn in Hn. by rewrite bool_decide_true in Hn.
Qed.

Section standing.
Context (inv : World C → Prop) {HS : Standing inv}.

Definition guarded (w w' : World C) : Prop := ticks w w' ∧ (inv w → inv w' ∧ grown w w').
Notation step := guarded.
#[export] Instance guarded_effect : Effect step.
Proof.
  assert (∀ w w', ticks w w' → same_meta w w' → step w w') as Hsame.
  { intros w w' Ht Hm. split; [done|]. intros Hi. split; [by eapply standing_same|].
    apply grown_same. unfold rows_of. by rewrite Hm. }
  split.
  - intros w1 w2 w3 [Ht1 H1] [Ht2 H2]. split; [by etrans|]. intros [Hi Hg]%H1. destruct (H2 Hi) as [? ?].
    split; [done|by etrans].
  - intros w w' [Hs Ht]%later_same. by apply Hsame.
  - intros w w' [Ht _]. by apply Hsame.
Qed.
#[export] Instance guarded_preorder : PreOrder step.
Proof. split; apply _. Qed.

Lemma touches_step Q D w w' :
  ticks w w' → touches Q D (db w) (db w') → meta_steps w w' →
  (inv w → ∀ r, r ∈ rows_of w → Q r → past r) → step w w'.
Proof.
  intros Ht Htouch Hs HQ. split; [done|]. intros Hi. apply (touches_mono Q past) in Htouch; [|by apply HQ].
  split; [by eapply standing_retire|]. destruct Htouch as (_ & _ & Hrows & _). split.
  - intros r Hr. destruct (Forall2_elem_l _ _ _ _ Hrows Hr) as (r' & ? & ?). by exists r'.
  - intros r' Hr'. destruct (Forall2_elem_r _ _ _ _ Hrows Hr') as (r & ? & ?). exists r. by split; [left|].
Qed.

(** ** Assertions the others respect *)

Notation sound := (sound step).
Lemma rely_inv (φ : World C → Prop) :
  (∀ w w', ticks w w' → grown w w' → φ w → φ w') → Rely step (λ w, inv w ∧ φ w).
Proof. intros Hφ w w' [Ht Hs] [Hi Hw]. destruct (Hs Hi) as [? Hg]. split; [done|by eapply Hφ]. Qed.
#[export] Instance rely_just_inv : Rely step inv.
Proof. intros w w' [_ Hs] Hi. by apply Hs. Qed.
#[export] Instance rely_since t : Rely step (λ w, inv w ∧ (t <= tick w)%nat).
Proof. apply rely_inv. intros w w' Ht _. unfold ticks in Ht. lia. Qed.

(** A row that was read, whatever its status now. *)
#[export] Instance rely_present c : Rely step (λ w, inv w ∧ present c w).
Proof.
  apply rely_inv. intros w w' _ [Hk _] [s Hs]. destruct (Hk _ Hs) as (r' & Hr' & [->|(_ & _ & Heq)]); [by exists s|].
  exists (Partition.Status r'). by rewrite Heq in Hr'.
Qed.

(** ** Sweeps *)

Lemma retire_step prow c d w o w' : past c → present c w → applyDecision prow c d w = (o, w') → step w w'.
Proof.
  intros Hpast [s Hs] Hrun.
  assert (Stable ticks (applyDecision prow c d)) as Ht.
  { unfold applyDecision, MarkPartitionDropped, MarkPartitionDetached. stable; apply Stable_statement_ticks. }
  assert (Stable meta_steps (applyDecision prow c d)) as Hm by (unfold applyDecision; stable).
  eapply touches_step; [by eapply Ht|by eapply (Stable_applyDecision (λ _, True))|by eapply Hm|].
  intros Hi r Hr Hid%list_elem_of_singleton.
  rewrite (NoDup_fmap_elem_eq Partition.ID _ r (Partition.set_status s c) (wf_ids _ (standing_wf w Hi)) Hr Hs Hid).
  by apply past_status.
Qed.

(** Whatever happens, the invariant. *)
Definition keep {A} (p : proc C A) : Prop := sound inv p (λ _, inv).
Lemma keep_done {A} (o : outcome A) : keep (Done o).
Proof. by apply (sound_done step); [apply _|]. Qed.
Lemma keep_fail {A} e : keep (p_fail e : proc C A).
Proof. apply keep_done. Qed.
Lemma keep_ret {A} (a : A) : keep (mret a).
Proof. apply keep_done. Qed.
Lemma keep_lift {A} (r : res A) : keep (p_lift r).
Proof. destruct r; apply keep_done. Qed.
Lemma keep_atom {A} (m : M C A) : Stable later m → keep (atom m).
Proof.
  intros Hm. apply (sound_harmless step inv m (λ _, True)); [apply _| |by intros].
  intros w o w' H. split; [by eapply Hm|done].
Qed.
Lemma keep_atom_meta {A} (m : M C A) : Stable same_meta m → Stable ticks m → keep (atom m).
Proof.
  intros Hm Ht. apply (sound_atom step); [apply _..|]. intros w o w' Hi Hrun.
  assert (step w w') as Hs.
  { apply Hm in Hrun as Hsame. apply Ht in Hrun as Htick. split; [done|]. intros Hw. split; [by eapply standing_same|].
    apply grown_same. unfold rows_of. by rewrite Hsame. }
  split; [done|]. exact (rely_just_inv _ _ Hs Hi).
Qed.
Lemma keep_bind {A B} (p : proc C A) (f : A → proc C B) : keep p → (∀ a, keep (f a)) → keep (p ≫= f).
Proof. intros Hp Hf. by eapply (sound_bind step); [exact Hp|apply _|..]. Qed.
Lemma keep_attempt {A} (p : proc C A) : keep p → keep (p_attempt p).
Proof. intros Hp. by eapply (sound_attempt step); [exact Hp|apply _|..]. Qed.
Lemma keep_deferring {A} f (p : proc C A) : keep f → keep p → keep (p_deferring f p).
Proof.
  intros Hf Hp. eapply (sound_then step); [exact Hp|apply _|]. intros o. eapply (sound_then step); [exact Hf|apply _|].
  intros [| |]; apply keep_done.
Qed.
Lemma keep_recovering {A} h (p : proc C A) : keep h → keep p → keep (p_recovering h p).
Proof. intros Hh Hp. eapply (sound_then step); [exact Hp|apply _|]. intros [| |]; [apply keep_done..|exact Hh]. Qed.
Lemma keep_foldM {S X} (f : S → X → proc C S) l : (∀ s x, x ∈ l → keep (f s x)) → ∀ s, keep (p_foldM f s l).
Proof.
  intros Hf s. apply (sound_foldM step (λ _, inv)); [apply _..|done|]. intros s' x Hx.
  eapply (sound_weaken step); [by apply (Hf s' x)|done|by intros [| |]|]. by intros [| |]; apply _.
Qed.
(** A call of which a result is known. *)
Definition known {A} (K : A → Prop) (p : proc C A) : Prop :=
  sound inv p (λ o w, inv w ∧ ∀ a, o = Ret a → K a).
Lemma known_keep {A} (p : proc C A) : keep p → known (λ _, True) p.
Proof. intros Hp. by eapply (sound_weaken step); [exact Hp|..|intros o; apply _]. Qed.
Lemma known_ret {A} (K : A → Prop) a : K a → known K (mret a).
Proof. intros HK. apply (sound_done step); [intros o; apply _|]. intros w Hw. split; [done|]. by intros ? [= <-]. Qed.
Lemma known_fail {A} (K : A → Prop) e : known K (p_fail e).
Proof. by apply (sound_done step); [intros o; apply _|]. Qed.
Lemma known_bind {A B} (K : A → Prop) (K' : B → Prop) p f :
  known K p → (∀ a, K a → known K' (f a)) → known K' (p ≫= f).
Proof.
  intros Hp Hf. eapply (sound_bind step); [exact Hp|intros o; apply _| |by intros e w []|by intros w []].
  intros a. apply (sound_pure step (K a)); [intros o; apply _|by intros w [_ Ha]; apply Ha|]. intros HK.
  eapply (sound_weaken step); [by apply Hf|by intros w []|done|intros o; apply _].
Qed.
Lemma keep_known {A B} (K : A → Prop) (p : proc C A) (f : A → proc C B) :
  known K p → (∀ a, K a → keep (f a)) → keep (p ≫= f).
Proof.
  intros Hp Hf. eapply (sound_weaken step); [apply (known_bind K (λ _, True) _ _ Hp)|done|by intros o w []|apply _].
  intros a Ha. by apply known_keep, Hf.
Qed.
Lemma known_atom {A} (K : A → Prop) (m : M C A) :
  (∀ w o w', inv w → m w = (o, w') → later w w' ∧ ∀ a, o = Ret a → K a) → known K (atom m).
Proof.
  intros Hm. apply (sound_atom step); [apply _|intros o; apply _|]. intros w o w' Hi Hrun.
  destruct (Hm w o w' Hi Hrun) as [Hl HK]. assert (step w w') as Hs by by apply effect_later.
  split; [done|]. split; [exact (rely_just_inv _ _ Hs Hi)|done].
Qed.
Lemma known_attempt {A} (K : A → Prop) (p : proc C A) :
  known K p → known (λ r, match r with Ok a => K a | Err _ => True end) (p_attempt p).
Proof.
  intros Hp. eapply (sound_attempt step); [exact Hp|intros o; apply _|..].
  - intros a w [Hi Ha]. split; [done|]. intros ? [= <-]. by apply Ha.
  - intros e w [Hi _]. split; [done|]. by intros ? [= <-].
  - intros w [Hi _]. by split.
Qed.

(** A registered parent that was read is one of the start. *)
Lemma read_parent schema table w o w' :
  inv w → attempt (GetParentTable schema table) w = (o, w') →
  later w w' ∧ ∃ r, o = Ret r ∧ match r with
    | Ok prow => get_parent (schema, table) (meta (db w0)) = Ok prow
    | Err e => (e = NoRows ∧ get_parent (schema, table) (meta (db w0)) = Err NoRows) ∨ ¬ Quiet E
    end.
Proof.
  intros Hi Hrun. assert (later w w') as Hl by (eapply (Stable_attempt later); [|exact Hrun]; by apply Stable_meta_read, _).
  split; [done|]. apply get_parent_attempt in Hrun as (_ & r & -> & Hr). exists r. split; [done|].
  assert (get_parent (schema, table) (meta (db w)) = get_parent (schema, table) (meta (db w0))) as Heq
    by (unfold get_parent; by rewrite (standing_parents w)).
  destruct r as [prow|e]; [by rewrite <- Heq|]. destruct Hr as [Hr|(n & Hf)]; [left|right].
  - assert (e = NoRows) as -> by (unfold get_parent in Hr; by case_match; simplify_eq). by rewrite <- Heq.
  - intros HQ. rewrite HQ in Hf. by destruct Hf.
Qed.

Ltac keeps :=
  repeat match goal with
  | |- keep (if ?b then _ else _) => destruct b
  | |- keep (p_fail _) => apply keep_fail
  | |- keep (mret _) => apply keep_ret
  | |- keep (p_lift _) => apply keep_lift
  | |- keep (p_attempt _) => apply keep_attempt
  | |- keep (p_deferring _ _) => apply keep_deferring
  | |- keep (p_recovering _ _) => apply keep_recovering
  | |- keep (_ ≫= _) => apply keep_bind; [|intros ?]
  | |- keep (atom _) => apply keep_atom; solve [stable]
  | |- keep (match ?x with _ => _ end) => destruct x
  end.

Section sweep.
Context (hook : Hook C) (Hhook : passive hook).

(** The candidates still to come: past the cutoff, and still there. *)
Lemma apply_sound prow c d :
  past c → sound (λ w, inv w ∧ present c w) (p_Do (Retention.retryPolicy "retention-apply") (atom (applyDecision prow c d)))
    (λ _, inv).
Proof.
  intros Hpast. apply (sound_Do step _ True); [|apply _|by intros _ e w []].
  apply (sound_atom step); [apply _|intros [| |]; apply _|]. intros w o w' [Hi Hc] Hrun.
  assert (step w w') as Hs by by eapply retire_step. split; [done|].
  destruct (rely_present c _ _ Hs (conj Hi Hc)). by destruct o.
Qed.
Lemma sweep_one_keep o label prow report c :
  past c → sound (λ w, inv w ∧ present c w) (p_sweep_one hook o label prow report c) (λ _, inv).
Proof.
  intros Hpast. set (mine := λ w : World C, inv w ∧ present c w).
  assert (∀ A (p : proc C A), keep p → sound mine p (λ _, inv)) as Hk.
  { intros A p Hp. eapply (sound_weaken step); [exact Hp|by intros w []|done|apply _]. }
  unfold p_sweep_one, skipped_counter, done_report.
  destruct (buildPartitionRef _ _) as [ref|e]; [|apply Hk; keeps].
  eapply (sound_bind step _ _ (λ _, mine)); [|apply _| |by intros ? ? []|by intros ? []].
  { apply (sound_harmless step _ _ (λ _, True)); [intros _; exact (rely_present c)| |by intros].
    intros w d w' H. split; [|done]. by eapply (Stable_decide_hook later hook ref Hhook). }
  intros d.
  destruct (_ && _); [apply Hk; keeps|]. destruct (dryRun o); [apply Hk; keeps|].
  destruct (bool_decide _); [apply Hk; keeps|].
  eapply (sound_bind step _ _ (λ _, inv)); [|apply _| |done|done].
  - by eapply (sound_attempt step); [apply apply_sound|apply _|..].
  - intros r. match goal with |- sound _ ?p _ => change (keep p) end. keeps.
Qed.

Lemma candidates_keep prow cutoff opt label :
  prow ∈ parent_tables (meta (db w0)) → (∃ n, cutoff = computeCutoff (UTC (env_now n)) (Parent.RetentionPeriod prow)) →
  keep (r ← atom (attempt (ListExpiredPartitions (Parent.ID prow) cutoff));
    match r with
    | Err e => mret (empty_report opt 0, Some (Wrap "retention: list expired" e))
    | Ok candidates =>
        report ← p_foldM (p_sweep_one hook opt label prow) (empty_report opt (Z.of_nat (length candidates))) candidates;
        mret (report, None)
    end).
Proof.
  intros Hprow [n Hcut].
  set (mine := λ (l : list Partition.row) (w : World C), inv w ∧ ∀ c, c ∈ l → past c ∧ present c w).
  assert (∀ l, Rely step (mine l)) as Hmine.
  { intros l w w' Hs [Hi Hc]. split; [by eapply rely_just_inv|]. intros c Hin. destruct (Hc c Hin) as [? Hpr].
    split; [done|]. by apply (rely_present c w w' Hs). }
  eapply (sound_bind step _ _ (λ o w, inv w ∧ ∀ l, o = Ret (Ok l) → mine l w));
    [|apply _| |by intros ? ? []|by intros ? []].
  - apply (sound_atom step); [apply _|intros o; apply Rely_and; [apply _|]|].
    { apply Rely_all. intros l w w' Hs Hl Ho. by eapply Hmine; [|apply Hl]. }
    intros w o w' Hi [Hl Hc]%candidates_run. assert (step w w') as Hs by by apply effect_later.
    split; [done|]. split; [by eapply rely_just_inv|]. intros l ->. destruct Hc as [i ->].
    apply (Hmine _ w w' Hs). split; [done|]. intros c [Hx Hin]%candidates_elem. split.
    + unfold expired in Hx. rewrite !andb_true_iff, !bool_decide_eq_true, negb_true_iff, Z.leb_le in Hx.
      destruct Hx as [[[Hpid Hle] Hd] _]. split; [done|]. exists prow, n. unfold cutoff_at. by rewrite <- Hcut.
    + exists (Partition.Status c). by destruct c.
  - intros [l|e].
    2:{ eapply (sound_weaken step); [apply (keep_ret (_, _))|by intros w []|done|apply _]. }
    eapply (sound_bind step _ _ (λ _, mine l)); [|apply _| |by intros ? ? []|by intros ? []].
    + eapply (sound_weaken step (mine l) _ _ (λ _, mine l)); [|intros w [_ Hw]; by apply Hw|done|apply _].
      apply (sound_foldM step (λ _, mine l)); [apply _..|done|]. intros rep c Hc.
      apply (sound_pure step (past c)); [by intros [| |]; apply _|intros w [_ Hw]; by apply Hw|]. intros Hpast.
      eapply (sound_weaken step);
        [apply (sound_frame step (mine l)), (sweep_one_keep opt label prow rep c Hpast)| |by intros [| |] w [_ Hw]|by intros [| |]; apply _].
      intros w Hw. pose proof Hw as [Hi Hcs]. split; [|done]. split; [done|]. by apply Hcs.
    + intros rep. eapply (sound_weaken step); [apply (keep_ret (_, _))|by intros w []|done|apply _].
Qed.
Lemma Sweep_keep schema table opts : keep (p_Sweep hook schema table opts).
Proof.
  unfold p_Sweep. apply keep_bind; [keeps|]. intros start. apply keep_deferring; [keeps|].
  apply (keep_known (λ r, ∀ prow, r = Ok prow → prow ∈ parent_tables (meta (db w0)))).
  { apply known_atom. intros w o w' Hi (Hl & r & -> & Hr)%(read_parent _ _ _ _ _ Hi). split; [done|]. intros a [= ->] prow ->.
    by apply get_parent_elem in Hr as [? _]. }
  intros [prow|e] Hprow; [|keeps]. specialize (Hprow prow eq_refl). unfold p_sweep.
  apply (keep_known (λ now, ∃ n, now = env_now n)).
  { apply known_atom. intros w o w' _ [= <- <-]. split; [apply later_tick|]. intros a [= <-]. by eexists. }
  intros ? [n ->]. apply candidates_keep; [done|by exists n].
Qed.
End sweep.

(** ** Ticks *)

(** The tenants of a parent of the start. *)
Lemma ListTenants_known row :
  row ∈ parent_tables (meta (db w0)) →
  known (λ l, ∀ tn, tn ∈ l → TenantConfig.TenantId tn ∈ tenants_of row (meta (db w0))) (p_ListTenants (ref_row row)).
Proof.
  intros Hrow. unfold p_ListTenants. cbn [ref_row ParentRef.SchemaName ParentRef.TableName].
  apply (known_bind (λ _, True)); [apply known_keep, keep_lift|intros _ _].
  apply (known_bind (λ _, True)); [apply known_keep, keep_lift|intros _ _].
  apply (known_bind (λ r, ∀ prow, r = Ok prow → prow = row)).
  { apply known_atom. intros w o w' Hi (Hl & r & -> & Hr)%(read_parent _ _ _ _ _ Hi). split; [done|].
    intros a [= ->] prow ->. pose proof (get_registered row Hrow) as Hg.
    unfold Parent.key in Hg. congruence. }
  intros [prow|e] Hprow; [|destruct (Is e NoRows); apply known_fail]. rewrite (Hprow prow eq_refl).
  apply (known_bind (λ l, ∀ t, t ∈ l → Tenant.ID t ∈ tenants_of row (meta (db w0)))).
  - apply known_atom. intros w o w' Hi Hrun.
    apply wrapping_inv in Hrun as (o' & [Hl Hr]%meta_read_run & Ho). split; [done|]. intros l ->.
    destruct o' as [l'|e|]; try done. injection Ho as ->. destruct Hr as [n Hr%Ok_inj]. intros t Ht.
    rewrite <- Hr in Ht. unfold list_tenants in Ht. cbn [tenants] in Ht.
    rewrite merge_sort_Permutation, env_scan_perm in Ht. unfold tenants_of. rewrite <- (standing_tenants w Hi).
    by apply list_elem_of_fmap_2.
  - intros l Hl. apply known_ret. by intros tn (t & -> & Ht%Hl)%list_elem_of_fmap.
Qed.

Section tick.
Context (hook : Hook C) (Hhook : passive hook).
(** Provisioning keeps the invariant. *)
Context (Hensure : ∀ row tenant, pair w0 row tenant → keep (p_EnsurePartitions (ref_row row) tenant)).

Lemma ensure_for_keep row created tenant :
  pair w0 row tenant → keep (p_ensure_for (ref_row row) created tenant).
Proof. intros Hp. unfold p_ensure_for. apply keep_bind; [by apply keep_attempt, Hensure|intros r; keeps]. Qed.

Lemma ensure_all_keep row :
  row ∈ parent_tables (meta (db w0)) → Parent.AutomaticMaintenance row = true →
  keep (p_ensure_all (parentInfoFromRow row)).
Proof.
  intros Hrow Hauto. unfold p_ensure_all. cbn [ParentInfo.TenantColumn parentInfoFromRow].
  change (ref_of (parentInfoFromRow row)) with (ref_row row).
  assert (∀ t, t ∈ owners row (meta (db w0)) → pair w0 row t) as Hpair by (intros t Ht; by split_and!).
  assert (hasTenantCol row = negb (bool_decide (optionalTextValue (Parent.TenantColumn row) = ""))) as Hcol.
  { unfold hasTenantCol. by destruct (Parent.TenantColumn row). }
  unfold owners in Hpair. rewrite Hcol in Hpair. case_bool_decide.
  - apply ensure_for_keep, Hpair. by left.
  - eapply keep_known; [by apply known_attempt, ListTenants_known|]. intros [l|e] Hl; [|keeps].
    apply keep_foldM. intros created tn Htn. apply ensure_for_keep, Hpair, list_elem_of_fmap_2, Hl, Htn.
Qed.

Lemma processParent_keep row :
  row ∈ parent_tables (meta (db w0)) → Parent.AutomaticMaintenance row = true →
  keep (p_processParent hook (parentInfoFromRow row)).
Proof.
  intros Hrow Hauto. unfold p_processParent, p_poolLocker_TryLock, p_process_locked, release. cbv zeta.
  apply keep_bind; [keeps|intros _]. apply keep_recovering; [keeps|].
  apply keep_bind; [apply keep_attempt|intros [[conn|]|e]; [|keeps..]].
  - apply keep_bind; [apply keep_atom_meta; stable|intros conn].
    apply keep_bind; [|intros locked; keeps].
    unfold TryLock. apply keep_atom_meta; stable; apply Stable_Call_meta || apply Stable_statement_ticks.
  - apply keep_deferring.
    + unfold Unlock. apply keep_atom_meta; stable; apply Stable_Call_meta || apply Stable_statement_ticks.
    + apply keep_bind; [by apply ensure_all_keep|intros _].
      apply keep_bind; [by apply keep_attempt, Sweep_keep|intros _]. keeps.
Qed.

Lemma Maintain_keep : keep (p_Maintain hook).
Proof.
  unfold p_Maintain. apply keep_bind; [keeps|intros _].
  apply (keep_known (λ l, ∀ p, p ∈ l → ∃ row, row ∈ parent_tables (meta (db w0)) ∧ p = parentInfoFromRow row)).
  - apply known_atom. intros w o w' Hi Hrun.
    apply wrapping_inv in Hrun as (o' & Hrun & Ho). unfold ListParents in Hrun.
    apply bind_inv in Hrun as [(l & w1 & Hrun & Hret)|[(e & Hrun & ->)|[Hrun ->]]];
      apply wrapping_inv in Hrun as (o1 & [Hl Hr]%meta_read_run & Ho1).
    + destruct o1 as [l1|e|]; try done. injection Ho1 as ->. injection Hret as <- <-. split; [done|]. intros a ->.
      injection Ho as ->. destruct Hr as [n Hr%Ok_inj]. intros p (row & -> & Hin)%list_elem_of_fmap. exists row.
      split; [|done]. rewrite <- Hr in Hin. unfold list_parents in Hin. cbn [parent_tables] in Hin.
      by rewrite merge_sort_Permutation, env_scan_perm, (standing_parents w Hi) in Hin.
    + split; [done|]. intros a ->. by destruct o1.
    + split; [done|]. intros a ->. by destruct o1.
  - intros parents Hparents. apply keep_bind; [keeps|intros start]. apply keep_bind; [|intros c; keeps].
    apply keep_foldM. intros c p Hin. unfold p_maintain_one. apply keep_bind; [keeps|intros [e|]; [keeps|]].
    destruct (Hparents p Hin) as (row & Hrow & ->). cbn [ParentInfo.AutomaticMaintenance parentInfoFromRow].
    destruct (Parent.AutomaticMaintenance row) eqn:Hauto; cbn [negb]; [|keeps].
    apply keep_bind; [by apply processParent_keep|intros result; keeps].
Qed.

End tick.
End standing.

(** ** Calls *)

Section calls.
Context (hook : Hook C).

(** A call of one of the processes. *)
Inductive call :=
| CallTick
| CallEnsure (ref : ParentRef.t) (tenant : option string)
| CallSweep (schema table : string) (opts : list SweepOption).
Definition p_call (c : call) : proc C unit :=
  match c with
  | CallTick => p_Maintain hook
  | CallEnsure ref tenant => p_EnsurePartitions ref tenant ;; mret tt
  | CallSweep schema table opts => p_Sweep hook schema table opts ;; mret tt
  end.
End calls.

(** ** Whoever calls *)

(** The metadata are consistent, the registrations those of the start. *)
Record consistent (w : World C) : Prop := {
  consistent_wf : WF (meta (db w));
  consistent_parents : parent_tables (meta (db w)) = parent_tables (meta (db w0));
  consistent_tenants : tenants (meta (db w)) = tenants (meta (db w0))
}.
#[export] Instance consistent_standing : Standing consistent.
Proof.
  split.
  - by intros w [].
  - by intros w [].
  - by intros w [].
  - intros w w' Hs _ []. unfold same_meta, on_db in Hs. split; by rewrite Hs.
  - intros D w w' _ (Hp & Ht & _) Hs []. split; [by eapply WF_statements|congruence..].
Qed.
Notation step := (guarded consistent).
Notation kept := (keep consistent).

Lemma adds_step row tenant k w w' :
  row ∈ parent_tables (meta (db w0)) → parseIntervalLabel (Parent.PartitionInterval row) = Ok k →
  ticks w w' → only_adds (added row tenant k) (db w) (db w') → meta_steps w w' → step w w'.
Proof.
  intros Hrow Hk Ht (Hpt & Htn & new & Hrows & Hnew) Hs. split; [done|]. intros []. split.
  - split; [by eapply WF_statements|congruence..].
  - rewrite Forall_forall in Hnew. split; unfold rows_of; rewrite Hrows.
    + intros r Hr. exists r. split; [apply elem_of_app; by left|by left].
    + intros r [Hr|Hr]%elem_of_app; exists r; (split; [|by left]); [by left|right].
      exists row, tenant, k. split_and!; [done..|]. by apply Hnew.
Qed.
Lemma createInTx_kept row tenant k todo nd :
  row ∈ parent_tables (meta (db w0)) → parseIntervalLabel (Parent.PartitionInterval row) = Ok k →
  (∀ b, b ∈ todo → ∃ z, b = period k z) → kept (atom (createInTx row tenant todo nd k)).
Proof.
  intros Hrow Hk Hmem. apply (sound_atom step); [apply _..|]. intros w o w' Hi Hrun.
  assert (step w w') as Hs; [|split; [done|exact (rely_just_inv _ _ _ Hs Hi)]].
  eapply adds_step; [exact Hrow|exact Hk| |by eapply Stable_createInTx_adds|].
  - assert (Stable ticks (createInTx row tenant todo nd k)) as Ht; [|by eapply Ht].
    unfold createInTx, create_bounded, create_default, UpsertPartition, Exec. stable; apply Stable_statement_ticks.
  - assert (Stable meta_steps (createInTx row tenant todo nd k)) as Hm; [|by eapply Hm].
    unfold createInTx, create_bounded, create_default. stable.
Qed.

Lemma keep_Do {A} (inv : World C → Prop) {HS : Standing inv} policy (p : proc C A) :
  keep inv p → keep inv (p_Do policy p).
Proof.
  intros Hp. apply (sound_Do (guarded inv) _ True); [|apply _|by intros _ e w Hw].
  by eapply (sound_weaken (guarded inv)); [exact Hp|done|intros [| |]|intros [| |]; apply _].
Qed.

(** ** Calls of [EnsurePartitions] *)

Lemma ensure_kept label row tenant : row ∈ parent_tables (meta (db w0)) → kept (p_ensure label row tenant).
Proof.
  intros Hrow. unfold p_ensure. destruct (_ && _); [apply keep_fail|]. destruct (_ && _); [apply keep_fail|].
  destruct (parseIntervalLabel _) as [k|e] eqn:Hk; [|apply keep_done].
  match goal with |- kept (_ ≫= ?f) => change (kept (f k)); cbv beta end.
  apply keep_bind; [apply _|apply keep_atom; [apply _|stable]|intros now].
  destruct (NextBoundsUTC _ _ _) as [bs|e] eqn:Hbs; [|apply keep_done].
  match goal with |- kept (_ ≫= ?f) => change (kept (f bs)); cbv beta zeta end.
  apply keep_bind; [apply _|apply keep_atom; [apply _|stable]|intros existing].
  apply keep_bind; [apply _|apply keep_atom; [apply _|stable]|intros d].
  apply keep_bind; [apply _|destruct d as [|e]; [|destruct (Is e NoRows)]; apply keep_done|intros nd].
  destruct (_ && _); [apply keep_ret|].
  apply keep_bind; [apply _|apply keep_Do, createInTx_kept; [apply _|done..|]|intros []].
  - intros b [_ Hb]%list_elem_of_filter. by eapply NextBoundsUTC_member.
  - apply keep_atom; [apply _|stable].
Qed.
Lemma EnsurePartitions_kept ref tenant : kept (p_EnsurePartitions ref tenant).
Proof.
  unfold p_EnsurePartitions. cbv zeta. apply keep_bind; [apply _|apply keep_atom; [apply _|stable]|intros start].
  apply keep_deferring; [apply _|apply keep_bind; [apply _|apply keep_atom; [apply _|stable]|intros now; apply keep_atom; [apply _|stable]]|].
  apply (keep_known consistent (λ r, ∀ prow, r = Ok prow → prow ∈ parent_tables (meta (db w0)))).
  - apply known_atom; [apply _|]. intros w o w' Hi (Hl & r & -> & Hr)%(read_parent _ _ _ _ _ _ Hi). split; [done|].
    intros a [= ->] prow ->. by apply get_parent_elem in Hr as [? _].
  - intros [prow|e] Hprow; [by apply ensure_kept, Hprow|]. destruct (Is e NoRows); apply keep_done.
Qed.

(** ** Schedules *)

Lemma call_kept hook c : passive hook → kept (p_call hook c).
Proof.
  intros Hh. destruct c as [|ref tenant|schema table opts]; cbn [p_call].
  - apply Maintain_keep; [apply _|done|]. intros. apply EnsurePartitions_kept.
  - apply keep_bind; [apply _|apply EnsurePartitions_kept|intros; apply keep_ret].
  - apply keep_bind; [apply _|apply Sweep_keep; [apply _|done]|intros; apply keep_ret].
Qed.
Lemma calls_step hook calls l w' ts :
  passive hook → runs l (w0, p_call hook <$> calls) = Some (w', ts) → step w0 w'.
Proof.
  intros Hh Hrun. apply (runs_safe step l (λ _ _, consistent) (w0, p_call hook <$> calls) (w', ts)); [done|].
  intros j p Hj. cbn [fst snd] in *. rewrite list_lookup_fmap in Hj.
  destruct (calls !! j) as [c|] eqn:Hc; [|done]. injection Hj as <-. by apply call_kept.
Qed.

(** C7: processes next to each other.  From any consistent metadata, with a
    hook that leaves the metadata alone: any number of ticks, calls of
    [EnsurePartitions] and sweeps, on whatever parents, tenants and cutoffs,
    with their atoms in any order, whichever locks are granted and whatever
    statement, commit or retry fails: at any point the metadata are
    consistent, the registrations are what they were, no row is lost, every
    new one is the default partition of a registered parent or a period of its
    interval under the name [Build] gives it, and a row is only ever retired
    when it is past a cutoff of its own parent. *)
Theorem metadata_survives hook calls l w' ts :
  passive hook → runs l (w0, p_call hook <$> calls) = Some (w', ts) →
  WF (meta (db w')) ∧ parent_tables (meta (db w')) = parent_tables (meta (db w0)) ∧
  tenants (meta (db w')) = tenants (meta (db w0)) ∧
  (∀ r, r ∈ rows_of w0 → ∃ r', r' ∈ rows_of w' ∧ retired_if past r r') ∧
  (∀ r', r' ∈ rows_of w' → ∃ r, (r ∈ rows_of w0 ∨ owned r) ∧ retired_if past r r').
Proof.
  intros Hh Hrun. destruct (calls_step hook calls l w' ts Hh Hrun) as [_ Hs].
  destruct Hs as [[] []]; [by split|by split_and!].
Qed.
End alongside.

(** ** Example *)

(** Next to an expired April of [app.events]: an hourly parent, and two tenants
    whose partitions have the same names. *)
Definition hits : Parent.row :=
  Parent.mk "P3" "app" "hits" None "created_at" "range" "hourly" thirty_days false None true 2.
Definition crowded : World (list string) :=
  start (mkMeta [daily_events; audit; hits] [Tenant.mk "acme" "P2"; Tenant.mk "ACME" "P2"] [april]).
Lemma crowded_WF : WF (meta (db crowded)).
Proof.
  split; cbn; try apply NoDup_singleton; try (by apply (bool_decide_unpack _)).
  - intros t [-> | [-> | []%not_elem_of_nil]%elem_of_cons]%elem_of_cons; reflexivity.
  - by intros r ->%list_elem_of_singleton.
  - by intros r ->%list_elem_of_singleton.
Qed.
Definition crowd_calls : list call :=
  [CallTick; CallEnsure (ref_row hits) None; CallSweep "app" "events" [];
   CallEnsure (ref_row audit) (Some "ACME"); CallTick].
Definition crowd_start : World (list string) * list (proc (list string) unit) :=
  (crowded, p_call (E := calm noon) None <$> crowd_calls).
Definition crowd_schedule : list nat := Eval vm_compute in robin 500 [0; 1; 2; 3; 4]%nat crowd_start.
Lemma metadata_survives_witness :
  match runs crowd_schedule crowd_start with
  | None => False
  | Some (w', ts) => WF (meta (db w')) ∧ parent_tables (meta (db w')) = [daily_events; audit; hits] ∧
      ∃ r', r' ∈ rows_of w' ∧ retired_if (past (E := calm noon) crowded) april r'
  end.
Proof.
  destruct (runs crowd_schedule crowd_start) as [[w' ts]|] eqn:Hrun.
  - destruct (metadata_survives (E := calm noon) crowded crowded_WF None crowd_calls crowd_schedule w' ts passive_None Hrun)
      as (Hwf & Hp & _ & Hk & _).
    split; [exact Hwf|]. split; [exact Hp|]. apply Hk. by left.
  - assert (match runs crowd_schedule crowd_start with Some _ => true | None => false end = true) as Hs
      by (vm_compute; reflexivity). by rewrite Hrun in Hs.
Defined.
