(* ===== verification/Together.v ===== *)
(** * Concurrent managers

    Ticks, calls of [EnsurePartitions] and sweeps that run next to each other
    on one data base, in any order of their atoms and whatever fails.  No call
    relies on the advisory lock: what protects the metadata is that each one
    only adds rows under names of its own target sets, or retires rows past a
    cutoff, and both leave the work of the others as it is. *)

From S2P Require Import Prelude GoTime GoStrings Errs TimeFormat Naming Periods Store World Logic Repo Retry Scenario Provisioner Ensure Retention Sweep Registry Registration Removal AdvisoryLock Maintainer Maintenance Manager Upkeep Interleave Concurrent Alongside.
Local Open Scope string_scope.
Local Open Scope Z_scope.

Section together.
Context {C : Type} {E : Env C} {L : EnvLaws E}.
Context (Hids : ∀ i j, env_ulid i = env_ulid j → i = j).
Context (w0 : World C) (Hmt : maintainable w0).

(** No target set has a period that ends before a cutoff. *)
Definition unexpired : Prop := ∀ row tenant k n n' bs b,
  pair w0 row tenant → parseIntervalLabel (Parent.PartitionInterval row) = Ok k →
  target row k n = Ok bs → b ∈ bs → unix_ns (cutoff_at row n') < unix_ns (To b).
Context (Hun : unexpired).

(** ** Rows of a target set *)

Section made.
Context (row : Parent.row) (tenant : option string) (k : kind).
(** The default partition or the one of a period of [bs]. *)
Definition made (bs : list Bounds) (r : Partition.row) : Prop :=
  added row tenant k r ∧
  (Partition.IsDefault r = false → ∃ b, b ∈ bs ∧ Build (bounded_name row tenant k b) = Ok (Partition.Name r) ∧
     Partition.BoundsFrom r = timestamptz (From b) ∧ Partition.BoundsTo r = timestamptz (To b)).

Lemma made_in_existing bs r : made bs r → Partition.IsDefault r = false → in_existing tenant r = true.
Proof.
  intros [(_ & Hs & _ & _ & Ht) _] Hd. unfold in_existing. rewrite Hd, Hs.
  rewrite (bool_decide_false (active ≠ active)) by auto. destruct Ht as [[Hd' _]|(_ & -> & _)]; [congruence|].
  by apply bool_decide_eq_true.
Qed.
Lemma made_covers bs b r :
  nameable k bs → b ∈ bs → made bs r → Partition.IsDefault r = false →
  Partition.BoundsFrom r = timestamptz (From b) → Partition.BoundsTo r = timestamptz (To b) → covers row tenant b r.
Proof.
  intros (Hk & _ & Hn) Hb Hm Hd Hf Ht. split_and!; [apply Hm|by eapply made_in_existing|].
  destruct (Hn b Hb) as [Hz _]. pose proof (timestamptz_key k b Hz Hk) as Hkey. rewrite <- Hkey.
  unfold boundsKey, row_bounds. cbn. by rewrite Hf, Ht.
Qed.
Lemma nameable_app bs bs' : nameable k bs → nameable k bs' → nameable k (bs ++ bs').
Proof. intros (H1 & H2 & H3) (_ & _ & H4). split_and!; [done..|]. intros b [?|?]%elem_of_app; auto. Qed.

(** What one call makes is in the way of no other of the same pair. *)
Lemma made_clear bs bs' r :
  nameable k bs → nameable k bs' → made bs r →
  (∀ b, b ∈ bs' → claims row tenant k b r → covers row tenant b r) ∧
  (Build (default_name row k) = Ok (Partition.Name r) → is_default_of row r).
Proof.
  intros Hn Hn' Hm. pose proof (nameable_app _ _ Hn Hn') as Happ.
  pose proof Hm as [(Hp & _ & _ & _ & Hcase) Hb].
  destruct Hcase as [(Hd & Ht & Hname)|(Hd & Ht & _)]; split.
  - intros b Hin [Hc|(t & _ & Hc)].
    + by destruct (bounded_default_names row tenant k bs' Hn' b r Hin Hc Hname).
    + unfold Partition.tenant_bounds in Hc. by rewrite Ht in Hc.
  - intros _. split; [|done]. unfold Partition.owner. by rewrite Hp, Ht.
  - destruct (Hb Hd) as (b0 & Hb0 & Hname & Hf & Hto). intros b Hin Hc.
    assert (covers row tenant b0 r) as Hcov by (by apply (made_covers bs)).
    destruct Hc as [Hc|(t & -> & Hc)].
    + assert (b = b0) as -> by (apply (claims_name row tenant k (bs ++ bs') Happ b b0 r); rewrite ?elem_of_app; auto). done.
    + unfold Partition.tenant_bounds in Hc. rewrite Ht in Hc. injection Hc as _ Hk1 Hk2.
      destruct Hcov as (? & ? & Hkey). split_and!; [done..|]. unfold boundsKey, row_bounds. cbn. by rewrite Hk1, Hk2.
  - destruct (Hb Hd) as (b0 & Hb0 & Hname & _). intros Hc.
    by destruct (bounded_default_names row tenant k bs Hn b0 r Hb0 Hname Hc).
Qed.

Lemma Stable_createInTx_made bs todo nd n :
  target row k n = Ok bs → (∀ b, b ∈ todo → b ∈ bs) →
  Stable (on_db (only_adds (made bs))) (createInTx row tenant todo nd k).
Proof.
  intros Hbs Hsub. assert (∀ b, b ∈ bs → ∃ z, b = period k z) as Hmem by (intros; by eapply NextBoundsUTC_member).
  unfold createInTx, create_bounded, create_default. stable; try apply Stable_Exec_adds; apply Stable_UpsertPartition_adds;
    (split; [split_and!; try done|]).
  - right. split_and!; [done..|].
    match goal with H : ?b ∈ todo |- _ => destruct (Hmem b (Hsub b H)) as [z ->] end. by exists z.
  - intros _. match goal with H : ?b ∈ todo |- _ => exists b end. split; [by apply Hsub|]. by split_and!.
  - by left.
  - done.
Qed.
End made.

(** ** What a step may do *)

Notation inv := (healthy (pair w0) w0).
Notation step := (guarded w0 inv).
Notation grown := (grown w0).
Notation past := (past w0).
Lemma parent_by_id row row' :
  row ∈ parent_tables (meta (db w0)) → row' ∈ parent_tables (meta (db w0)) → Parent.ID row = Parent.ID row' → row = row'.
Proof. intros H1 H2. apply (NoDup_fmap_elem_eq Parent.ID _ row row' (wf_parent_ids _ (mt_wf _ Hmt)) H1 H2). Qed.

(** Adding rows of a target set. *)
Lemma made_step row tenant k n bs w w' :
  pair w0 row tenant → parseIntervalLabel (Parent.PartitionInterval row) = Ok k → target row k n = Ok bs →
  only_adds (made row tenant k bs) (db w) (db w') → freshens w w' → meta_steps w w' → step w w'.
Proof.
  intros Hp Hk Hbs (Hpt & Htn & new & Hrows & Hnew) [Ht Hf] Hs. split; [exact Ht|]. intros Hi.
  rewrite Forall_forall in Hnew. split.
  - pose proof Hi as []. split.
    + congruence.
    + congruence.
    + by eapply WF_statements.
    + by apply Hf.
    + intros r. unfold rows_of. rewrite Hrows. intros [Hr|Hr]%elem_of_app; [by apply healthy_names|].
      by eapply added_split, Hnew.
    + by etrans.
    + intros row' t' k' n' bs' Hp' Hk' Hbs'. eapply (ready_added row' t' k' bs' w w' new); [done|done|by apply Hf| |].
      * intros r Hr. destruct (decide (Parent.ID row' = Parent.ID row ∧ t' = tenant)) as [[Hid ->]|Hne].
        -- assert (row' = row) as -> by (apply parent_by_id; [apply Hp'|apply Hp|done]).
           assert (k' = k) as -> by congruence.
           eapply made_clear; [|by eapply mt_pair|by apply Hnew]. by eapply mt_pair.
        -- eapply (mt_apart w0 Hmt row' t' k' n' bs' row tenant k r); auto; [|by apply Hnew].
           intros [= -> ->]. by apply Hne.
      * by eapply healthy_ready.
  - split; unfold rows_of; rewrite Hrows.
    + intros r Hr. exists r. split; [apply elem_of_app; by left|by left].
    + intros r [Hr|Hr]%elem_of_app; exists r; (split; [|by left]); [by left|right].
      exists row, tenant, k. split_and!; [apply Hp|done|]. by apply Hnew.
Qed.

(** Retiring rows that are past a cutoff. *)
Lemma not_past row tenant k n bs b r :
  pair w0 row tenant → parseIntervalLabel (Parent.PartitionInterval row) = Ok k → target row k n = Ok bs →
  b ∈ bs → covers row tenant b r → ¬ past r.
Proof.
  intros Hp Hk Hbs Hb (Hpid & _ & Hkey) (_ & row' & n' & Hrow' & Hpid' & Hle).
  assert (row' = row) as -> by (apply parent_by_id; [done|apply Hp|congruence]).
  pose proof (Hun row tenant k n n' bs b Hp Hk Hbs Hb) as Hlt. unfold boundsKey, row_bounds in Hkey.
  injection Hkey as _ Hto. cbn in Hto. lia.
Qed.

Lemma healthy_retire D w w' :
  ticks w w' → touches past D (db w) (db w') → meta_steps w w' → inv w → inv w'.
Proof.
  intros Ht Htouch Hs Hi. destruct Htouch as (Hpt & Htn & Hrows & _). pose proof Hi as [].
  assert (∀ r', r' ∈ rows_of w' → ∃ r, r ∈ rows_of w ∧ retired_if past r r') as Hfrom
    by (intros r' Hr'; by apply (Forall2_elem_r _ _ _ _ Hrows Hr')).
  split.
  - congruence.
  - congruence.
  - by eapply WF_statements.
  - eapply fresh_ids_rows; [|exact Ht|done]. intros r' (r & Hr & [->|(_ & _ & ->)])%Hfrom; by exists r.
  - intros r' (r & Hr & [->|(_ & _ & ->)])%Hfrom; by apply (healthy_names r).
  - by etrans.
  - intros row t k n bs Hp Hk Hbs. destruct (healthy_ready row t k n bs Hp Hk Hbs) as [H1 H2 H3]. split.
    + intros b r' Hb (r & Hr & [->|(Hpast & _ & Heq)])%Hfrom Hc; [by apply H1|]. rewrite Heq in Hc.
      by destruct (not_past row t k n bs b r Hp Hk Hbs Hb (H1 b r Hb Hr Hc)).
    + intros r' (r & Hr & [->|(Hpast & _ & Heq)])%Hfrom Hc; [by apply H2|]. rewrite Heq in Hc |- *. by apply (H2 r Hr Hc).
    + intros r' i (r & Hr & Hrr)%Hfrom Hi'. replace (Partition.ID r') with (Partition.ID r)
        by (by destruct Hrr as [->|(_ & _ & ->)]). apply H3; [done|by etrans].
Qed.

#[export] Instance healthy_standing : Standing w0 inv.
Proof.
  split.
  - by intros w [].
  - by intros w [].
  - by intros w [].
  - intros w w'. by apply healthy_same.
  - apply healthy_retire.
Qed.
Notation sound := (sound step).

Section ensured.
Context (row : Parent.row) (tenant : option string) (k : kind) (n : nat) (bs : list Bounds).
Context (Hp : pair w0 row tenant) (Hk : parseIntervalLabel (Parent.PartitionInterval row) = Ok k).
Context (Hbs : target row k n = Ok bs).

Lemma grown_covers b w w' :
  grown w w' → b ∈ bs → (∃ r, r ∈ rows_of w ∧ covers row tenant b r) → ∃ r, r ∈ rows_of w' ∧ covers row tenant b r.
Proof.
  intros [Hg _] Hb (r & Hr & Hc). destruct (Hg r Hr) as (r' & Hr' & [->|(Hpast & _)]); [by exists r|].
  by destruct (not_past row tenant k n bs b r Hp Hk Hbs Hb Hc).
Qed.
Lemma grown_default w w' :
  grown w w' → (∃ r, r ∈ rows_of w ∧ is_default_of row r) → ∃ r, r ∈ rows_of w' ∧ is_default_of row r.
Proof.
  intros [Hg _] (r & Hr & Hd). destruct (Hg r Hr) as (r' & Hr' & [->|([Hnd _] & _)]); [by exists r|].
  destruct Hd. congruence.
Qed.
Lemma grown_partial todo nd w w' : grown w w' → partial row tenant bs todo nd w → partial row tenant bs todo nd w'.
Proof.
  intros Hg [H1 H2]. split.
  - intros b Hb. destruct (H1 b Hb); [by left|right]. by eapply grown_covers.
  - destruct H2; [by left|right]. by eapply grown_default.
Qed.
End ensured.

(** ** Provisioning *)

(** No statement fails, and PostgreSQL accepts the DDL. *)
Definition calm_run : Prop := Quiet E ∧ ∀ sql c, ∃ n c', pg_exec sql [] c = Ok (n, c').

Section ensure.
Context (row : Parent.row) (tenant : option string) (k : kind).
Context (Hp : pair w0 row tenant) (Hk : parseIntervalLabel (Parent.PartitionInterval row) = Ok k).

(** The target set of a reading since interaction [t] is there. *)
Definition provided (t : nat) (w : World C) : Prop := ∃ n bs,
  (t <= n < tick w)%nat ∧ target row k n = Ok bs ∧ complete row tenant bs (meta (db w)).
#[export] Instance rely_provided t : Rely step (λ w, inv w ∧ provided t w).
Proof.
  apply rely_inv. intros w w' Ht Hg (n & bs & Hn & Hbs & H1 & H2). exists n, bs. unfold ticks in Ht.
  split; [lia|]. split; [done|]. split; [|by eapply grown_default].
  intros b Hb. eapply (grown_covers row tenant k n bs Hp Hk Hbs); [exact Hg|done|by apply H1].
Qed.
Definition ensured_post {A} (t : nat) (o : outcome A) (w : World C) : Prop :=
  inv w ∧ match o with Ret _ => provided t w | _ => ¬ calm_run end.
#[export] Instance rely_ensured_post {A} t (o : outcome A) : Rely step (ensured_post t o).
Proof. destruct o; unfold ensured_post; apply _. Qed.

(** What is left to create, after a reading [n]. *)
Section reading.
Context (t n : nat) (bs : list Bounds) (Hbs : target row k n = Ok bs).
Definition left_over (todo : list Bounds) (nd : bool) (w : World C) : Prop :=
  inv w ∧ (t <= n < tick w)%nat ∧ partial row tenant bs todo nd w.
#[export] Instance rely_left_over todo nd : Rely step (left_over todo nd).
Proof.
  apply rely_inv. intros w w' Ht Hg [Hn Hpart]. unfold ticks in Ht. split; [lia|].
  by eapply (grown_partial row tenant k n bs).
Qed.
Lemma left_over_nothing w : left_over [] false w → provided t w.
Proof. intros (_ & ? & ?%partial_complete). by exists n, bs. Qed.

Lemma createInTx_sound todo nd :
  (∀ b, b ∈ todo → b ∈ bs) →
  sound (left_over todo nd) (atom (createInTx row tenant todo nd k))
    (λ o w, match o with Fail _ => left_over todo nd w ∧ ¬ calm_run | o => ensured_post t o w end).
Proof.
  intros Hsub. assert (nameable k bs) as Hn by (by eapply mt_pair).
  apply (sound_atom step); [apply _|intros [| |]; apply _|]. intros w o w' Hw Hrun. pose proof Hw as (Hi & Hclock & Hpart).
  assert (pending row tenant k bs todo nd w) as Hpend by (split; [by eapply healthy_ready|done]).
  assert (step w w') as Hs.
  { eapply (made_step row tenant k n bs); [done|done|done|by eapply Stable_createInTx_made|by eapply Stable_createInTx_freshens|].
    assert (Stable meta_steps (createInTx row tenant todo nd k)) as Hm
      by (unfold createInTx, create_bounded, create_default; stable). by eapply Hm. }
  assert (inv w') as Hi' by by eapply rely_just_inv.
  split; [done|]. pose proof (rely_left_over todo nd w w' Hs Hw) as Hw'.
  assert (calm_run → ∃ u, o = Ret u) as Hcalm.
  { intros [HQ Hacc]. destruct (succeeds_createInTx (QE := HQ) Hacc row tenant k todo nd) with (w := w) as (u & w1 & Hrun' & _).
    - destruct (target_Ok row k 0 Hk) as [bs0 Hbs0]. by eapply mt_pair.
    - by eapply healthy_registered.
    - rewrite Hrun in Hrun'. injection Hrun' as -> _. by eexists. }
  destruct o as [u|e|].
  - split; [done|]. apply left_over_nothing. split; [done|]. split; [apply Hw'|].
    by eapply (triple_createInTx_once row tenant k bs Hn Hids todo nd Hsub).
  - split; [done|]. intros Hc. by destruct (Hcalm Hc).
  - split; [done|]. intros Hc. by destruct (Hcalm Hc).
Qed.
End reading.

(** The two reads. *)
Lemma list_fails msg pid w e w' : wrapping msg (ListPartitionsForParent pid) w = (Fail e, w') → ¬ Quiet E.
Proof.
  intros (o & Hrun & Ho)%wrapping_inv HQ. destruct o as [l|e'|]; try done.
  apply meta_read_fail in Hrun as [[n [=]]|(n & Hf)]. rewrite HQ in Hf. by destruct Hf.
Qed.
Lemma default_fails pid w e w' :
  attempt (GetDefaultPartition pid None) w = (Ret (Err e), w') → e = NoRows ∨ ¬ Quiet E.
Proof.
  intros (o & Hrun & Ho)%attempt_inv. destruct o as [r|e'|]; try done. injection Ho as ->.
  apply meta_read_fail in Hrun as [[n Hg]|(n & Hf)].
  - left. unfold get_default in Hg. by case_match; simplify_eq.
  - right. intros HQ. rewrite HQ in Hf. by destruct Hf.
Qed.

Section reads.
Context (t n : nat) (bs : list Bounds) (Hbs : target row k n = Ok bs).
Notation todo_of l := (filter (λ b, boundsKey b ∉ buildExistingSet l tenant) bs).

Lemma read_rows_sound msg :
  sound (λ w, inv w ∧ (t <= n < tick w)%nat) (atom (wrapping msg (ListPartitionsForParent (Parent.ID row))))
    (λ o w, match o with Ret l => left_over t n bs (todo_of l) true w | _ => ensured_post t o w end).
Proof.
  assert (Rely step (λ w, inv w ∧ (t <= n < tick w)%nat)) as HP.
  { apply rely_inv. unfold ticks. intros w w' ? _. lia. }
  apply (sound_atom step); [exact HP|intros [| |]; [by apply rely_left_over|apply _..]|].
  intros w o w' [Hi Hn] Hrun. pose proof Hrun as [Hl Hr]%list_run.
  assert (step w w') as Hs by by apply effect_later. split; [done|].
  assert (inv w') as Hi' by by eapply rely_just_inv. destruct Hl as [Hd Ht].
  destruct o as [l|e|]; [|split; [done|]; by intros [HQ _]; apply list_fails in Hrun|done].
  split; [done|]. split; [lia|]. split; [|by left]. intros b Hb. unfold rows_of. rewrite Hd.
  destruct (decide (boundsKey b ∈ buildExistingSet l tenant)) as [Hin|Hin]; [right|left; by apply list_elem_of_filter].
  apply buildExistingSet_elem in Hin as (r & [? ?]%Hr & ? & ?). by exists r.
Qed.
Lemma read_default_sound todo :
  sound (left_over t n bs todo true) (atom (attempt (GetDefaultPartition (Parent.ID row) None)))
    (λ o w, match o with
            | Ret (Ok _) => left_over t n bs todo false w
            | Ret (Err e) => left_over t n bs todo true w ∧ (e = NoRows ∨ ¬ calm_run)
            | _ => False
            end).
Proof.
  pose proof (λ todo nd, rely_left_over t n bs Hbs todo nd) as Hrely.
  apply (sound_atom step); [apply _|intros [[|]| |]; apply _|].
  intros w o w' Hw Hrun. pose proof Hrun as [Hl Hr]%default_run.
  assert (step w w') as Hs by by apply effect_later. split; [done|].
  pose proof (Hrely todo true w w' Hs Hw) as Hw'.
  pose proof Hw' as (Hi' & Hn' & H1 & _). destruct o as [[r|e]|e|]; [| |done..].
  - split; [done|]. split; [done|]. split; [done|]. right. exists r. destruct Hl as [Hd _], Hr as (? & ? & ?).
    unfold rows_of. rewrite Hd. by split_and!.
  - split; [done|]. apply default_fails in Hrun as [->|Hq]; [by left|right]. by intros [? _].
Qed.

Lemma create_sound label todo nd :
  (∀ b, b ∈ todo → b ∈ bs) →
  sound (left_over t n bs todo nd)
    (if bool_decide (length todo = 0%nat) && negb nd then mret no_report
     else
       p_Do (Provisioner.retryPolicy "provisioner-ensure") (atom (createInTx row tenant todo nd k)) ;;
       atom ((if 0 <? Z.of_nat (length todo)
              then emit (Counter "partman.partitions_created_total" (Z.of_nat (length todo)) ["parent"; label])
              else mret tt) ;;
             (if nd then emit (Counter "partman.default_partitions_created_total" 1 ["parent"; label]) else mret tt) ;;
             mret (mkEnsureReport (Z.of_nat (length todo)) nd)))
    (ensured_post t).
Proof.
  intros Hsub. destruct (bool_decide _ && negb nd) eqn:Hnone.
  - apply andb_true_iff in Hnone as [H0%bool_decide_eq_true ->%negb_true_iff]. apply length_zero_iff_nil in H0 as ->.
    apply (sound_done step); [apply _|]. intros w Hw. split; [apply Hw|by eapply left_over_nothing].
  - assert (Rely step (left_over t n bs todo nd)) as Hrely by by apply rely_left_over.
    eapply (sound_bind step _ _ (ensured_post t)); [| | |by intros ? ? []|by intros ? []].
    + apply (sound_Do step _ (¬ calm_run)); [by apply createInTx_sound|apply _|]. intros Hc e w [Hi _]. by split.
    + apply _.
    + intros u. apply (sound_harmless step _ _ (λ o, ∃ rep, o = Ret rep)); [apply _| |by intros o w [rep ->] Hw].
      intros w o w' Hrun.
      destruct (counters_run label (Z.of_nat (length todo)) nd (mkEnsureReport (Z.of_nat (length todo)) nd) w) as (w1 & Hrun' & Hl).
      rewrite Hrun in Hrun'. injection Hrun' as -> ->. split; [done|by eexists].
Qed.
End reads.

Lemma ensure_sound label t :
  sound (λ w, inv w ∧ (t <= tick w)%nat) (p_ensure label row tenant) (ensured_post t).
Proof.
  pose proof Hp as (_ & _ & Ho). apply owners_col in Ho. unfold p_ensure. rewrite Hk, Ho.
  replace (negb (bool_decide (tenant = None)) && bool_decide (tenant = None)) with false
    by (by destruct (bool_decide _)).
  replace (negb (negb (bool_decide (tenant = None))) && negb (bool_decide (tenant = None))) with false
    by (by destruct (bool_decide _)).
  match goal with |- sound ?P (_ ≫= ?f) ?Q => change (sound P (f k) Q); cbv beta end.
  set (read := λ n w, inv w ∧ (t <= n < tick w)%nat).
  assert (∀ n, Rely step (read n)) as Hread by (intros n; apply rely_inv; unfold ticks; intros w w' ? _; lia).
  eapply (sound_bind step _ _ (λ o w, ∃ n, read n w ∧ o = Ret (env_now n)));
    [|apply _| |by intros ? ? (? & _ & ?)|by intros ? (? & _ & ?)].
  { apply (sound_atom step); [apply _..|]. intros w o w' [Hi Ht] [= <- <-].
    assert (step w (mkWorld (db w) (S (tick w)) (trace w))) as Hs by apply effect_later, later_tick.
    split; [done|]. exists (tick w). split; [|done]. split; [by eapply rely_just_inv|cbn; lia]. }
  intros now. apply sound_ex; [apply _|]. intros n.
  apply (sound_pure step (now = env_now n)); [apply _|by intros w [_ [= ->]]|]. intros ->.
  destruct (target_Ok row k n Hk) as [bs Hbs]. pose proof Hbs as Hbs'. unfold target in Hbs'. rewrite Hbs'. clear Hbs'.
  match goal with |- sound ?P (_ ≫= ?f) ?Q => change (sound P (f bs) Q); cbv beta zeta end.
  eapply (sound_bind step);
    [eapply (sound_weaken step _ (λ w, read n w ∧ Ret (env_now n) = Ret (env_now n)));
       [by apply (read_rows_sound t n bs Hbs)|by intros w [? _]|by intros o w H; exact H|intros [| |]; [by apply rely_left_over|apply _..]]
    |apply _| |by intros e w []|by intros w []].
  intros existing. cbv beta iota. set (todo := filter _ bs).
  assert (∀ b, b ∈ todo → b ∈ bs) as Hsub by (by intros b [_ ?]%list_elem_of_filter).
  eapply (sound_bind step); [by apply (read_default_sound t n bs Hbs)|apply _| |done|done].
  intros d. eapply (sound_bind step _ _ (λ o w, match o with Ret nd => left_over t n bs todo nd w | o => ensured_post t o w end));
    [|apply _|intros nd; by apply create_sound|by intros e w []|by intros w []].
  assert (∀ o : outcome bool, Rely step (λ w, match o with Ret nd => left_over t n bs todo nd w | o => ensured_post t o w end)) as HQ
    by (intros [| |]; [by apply rely_left_over|apply _..]).
  destruct d as [r|e]; [by apply (sound_done step)|]. destruct (Is e NoRows) eqn:He.
  - by apply (sound_done step); [done|intros w []].
  - apply (sound_done step); [done|]. intros w [[Hi _] [->|Hc]]; [done|by split].
Qed.

Lemma EnsurePartitions_sound t :
  sound (λ w, inv w ∧ (t <= tick w)%nat) (p_EnsurePartitions (ref_row row) tenant) (ensured_post t).
Proof.
  pose proof Hp as (Hrow & _). unfold p_EnsurePartitions. cbv zeta.
  set (label := _ +:+ "." +:+ _).
  eapply (sound_bind step _ _ (λ o w, (inv w ∧ (t <= tick w)%nat) ∧ ∃ s, o = Ret s));
    [|apply _| |by intros ? ? (_ & ? & ?)|by intros ? (_ & ? & ?)].
  { apply (sound_harmless step _ _ (λ o, ∃ s, o = Ret s)); [apply _| |by intros].
    intros w o w' [= <- <-]. split; [apply later_tick|by eexists]. }
  intros start. eapply (sound_weaken step (λ w, inv w ∧ (t <= tick w)%nat)); [|by intros w []|intros o w H; exact H|apply _].
  apply (sound_deferring step).
  - eapply (sound_bind step _ _ (λ o w, (inv w ∧ (t <= tick w)%nat) ∧
      match o with Ret (Ok prow) => prow = row | Ret (Err _) => ¬ calm_run | _ => False end));
      [|apply _| |by intros ? ? []|by intros ? []].
    + apply (sound_atom step); [apply _|intros [[|]| |]; apply _|]. intros w o w' [Hi Ht] Hrun.
      destruct (read_parent w0 inv _ _ _ _ _ Hi Hrun) as (Hl & r & -> & Hr).
      assert (step w w') as Hs by by apply effect_later. split; [done|].
      split; [by apply (rely_since w0 inv t w w' Hs)|]. pose proof (healthy_get _ _ _ row (healthy_start _ Hmt) Hrow) as Hg.
      unfold Parent.key in Hg. cbn in Hr. rewrite Hg in Hr.
      destruct r as [prow|e]; [by injection Hr|]. destruct Hr as [[_ [=]]|Hq]. by intros [? _].
    + intros [prow|e].
      * eapply (sound_pure step (prow = row)); [apply _|by intros w []|]. intros ->.
        eapply (sound_weaken step); [apply (ensure_sound label t)|by intros w []|by intros o w H|apply _].
      * destruct (Is e NoRows); (apply (sound_done step); [apply _|]); by intros w [[? _] ?].
  - intros o. eapply (sound_bind step _ _ (λ o' w, o' ≠ Panic ∧ ensured_post t o w)); [|apply _| |by intros e w [_ ?]|by intros w []].
    + apply (sound_harmless step _ _ (λ o', o' ≠ Panic)); [apply _| |done].
      intros w o' w' [= <- <-]. split; [apply later_tick|done].
    + intros now. apply (sound_harmless step _ _ (λ o', o' ≠ Panic)); [apply _| |by intros o' w ? []].
      intros w o' w' [= <- <-]. by split.
Qed.
End ensure.

(** ** Schedules *)

(** Partitions are ensured for the parents under maintenance. *)
Definition admissible (c : call) : Prop :=
  match c with CallEnsure ref tenant => ∃ row, ref = ref_row row ∧ pair w0 row tenant | _ => True end.

Definition call_post (c : call) (o : outcome unit) (w : World C) : Prop :=
  inv w ∧ match c with
          | CallEnsure ref tenant => ∀ row k, ref = ref_row row → row ∈ parent_tables (meta (db w0)) →
              parseIntervalLabel (Parent.PartitionInterval row) = Ok k → ensured_post row tenant k (tick w0) o w
          | _ => True
          end.

Lemma EnsurePartitions_keep row tenant :
  pair w0 row tenant → keep w0 inv (p_EnsurePartitions (ref_row row) tenant).
Proof.
  intros Hp. pose proof Hp as (Hrow & Hauto & _). destruct (mt_kind w0 Hmt row Hrow Hauto) as (_ & _ & k & Hk).
  eapply (sound_weaken step); [by apply (EnsurePartitions_sound row tenant k Hp Hk 0)| |by intros o w []|apply _].
  intros w Hi. split; [done|lia].
Qed.
Lemma ref_row_inj row row' :
  row ∈ parent_tables (meta (db w0)) → row' ∈ parent_tables (meta (db w0)) → ref_row row = ref_row row' → row = row'.
Proof.
  intros H1 H2 [= ? ?]. apply (NoDup_fmap_elem_eq Parent.key _ row row' (wf_parent_keys _ (mt_wf _ Hmt)) H1 H2).
  unfold Parent.key. by f_equal.
Qed.

Section calls.
Context (hook : Hook C) (Hhook : passive hook).
Lemma call_keep c : (match c with CallEnsure _ _ => False | _ => True end) → keep w0 inv (p_call hook c).
Proof.
  destruct c as [|ref tenant|schema table opts]; [|done|]; intros _; cbn [p_call].
  - apply Maintain_keep; [apply (mt_wf _ Hmt)|apply _|done|apply EnsurePartitions_keep].
  - apply keep_bind; [apply _|apply Sweep_keep; [apply _|done]|intros r; apply keep_ret].
Qed.
Lemma call_sound c : admissible c → sound (λ w, inv w ∧ (tick w0 <= tick w)%nat) (p_call hook c) (call_post c).
Proof.
  destruct c as [|ref tenant|schema table opts].
  1, 3: intros _; eapply (sound_weaken step); [by apply call_keep|by intros w []|done|intros o; apply Rely_and; apply _].
  cbn [p_call]. intros (row & -> & Hp).
  destruct (mt_kind w0 Hmt row (proj1 Hp) (proj1 (proj2 Hp))) as (_ & _ & k & Hk).
  assert (∀ (o : outcome unit) w, ensured_post row tenant k (tick w0) o w → call_post (CallEnsure (ref_row row) tenant) o w) as Hpost.
  { intros o w [Hi Hw]. split; [done|]. intros row' k' Hr Hin Hk'. apply ref_row_inj in Hr as <-; [|apply Hp|done].
    assert (k' = k) as -> by congruence. by split. }
  eapply (sound_weaken step (λ w, inv w ∧ (tick w0 <= tick w)%nat) _ _ (ensured_post row tenant k (tick w0)));
    [|done|exact Hpost|].
  - eapply (sound_bind step); [by apply (EnsurePartitions_sound row tenant k Hp Hk)|intros o; apply rely_ensured_post; done|..]; [|done..].
    intros rep. by apply (sound_done step); [apply rely_ensured_post|].
  - intros o. apply Rely_and; [apply _|]. intros w w' Hs Hw row' k' Hr Hin Hk'.
    apply ref_row_inj in Hr as <-; [|apply Hp|done]. eapply rely_ensured_post; [done..|]. by apply Hw.
Qed.

Lemma calls_safe calls l w' ts :
  Forall admissible calls → runs l (w0, p_call hook <$> calls) = Some (w', ts) →
  ∀ i c o, calls !! i = Some c → ts !! i = Some (Done o) → call_post c o w'.
Proof.
  intros Hadm Hrun.
  set (Q := λ i o w, ∀ c, calls !! i = Some c → call_post c o w).
  destruct (runs_safe step l Q (w0, p_call hook <$> calls) (w', ts) Hrun) as [Hs Hp].
  - intros j p Hj. cbn [fst snd] in *. rewrite list_lookup_fmap in Hj.
    destruct (calls !! j) as [c|] eqn:Hc; [|done]. injection Hj as <-.
    rewrite Forall_lookup in Hadm. eapply safe_weaken; [|apply (call_sound c (Hadm _ _ Hc))].
    + intros o w Hpost c' Hc'. congruence.
    + split; [by apply healthy_start|done].
  - intros i c o Hc Ho. apply (Hp i _ Ho w'); [done|done].
Qed.
End calls.

(** C8: every call does its work. From a maintainable world (as for
    [Maintain_keeps_up]: in particular no automatic parent is hourly, and no
    two pairs of a parent and a tenant share a name) in which no target
    period ends before a cutoff, with a passive hook, next to any ticks,
    sweeps and calls of [EnsurePartitions] on automatic parents, in any order
    of their atoms and whatever fails: a call of [EnsurePartitions] that has
    returned has its target set, for a reading of the clock since the start,
    and it stays whatever the others still do; the call never fails when no
    statement does and the DDL is accepted. No schedule goes on for ever:
    from any point on, whoever is given the turns, one of them goes to a call
    that has ended; and every call can be run to its end. *)
Theorem provisioned_together hook calls l w' ts :
  passive hook → Forall admissible calls → runs l (w0, p_call hook <$> calls) = Some (w', ts) →
  (∀ i row tenant k o, calls !! i = Some (CallEnsure (ref_row row) tenant) → ts !! i = Some (Done o) →
     row ∈ parent_tables (meta (db w0)) → parseIntervalLabel (Parent.PartitionInterval row) = Ok k →
     match o with Ret _ => provided row tenant k (tick w0) w' | _ => ¬ calm_run end) ∧
  (∀ choice, ∃ n, runs (choice <$> seq 0 n) (w', ts) = None) ∧
  ∃ l' s', runs l' (w', ts) = Some s' ∧ ∀ p, p ∈ s'.2 → ∃ o, p = Done o.
Proof.
  intros Hh Hadm Hrun. pose proof (calls_safe hook Hh calls l w' ts Hadm Hrun) as Hpost. split_and!.
  - intros i row tenant k o Hc Ho Hrow Hk. by apply (Hpost i _ o Hc Ho).
  - intros choice. apply runs_ends.
  - apply runs_finish.
Qed.
End together.
Notation step w0 := (guarded w0 (healthy (pair w0) w0)).

(** ** Examples *)

Lemma busy_unexpired : unexpired (E := calm noon) busy_world.
Proof.
  intros row tenant k n n' bs b Hp Hk Hbs Hb. unfold target in Hbs. unfold cutoff_at. cbn [env_now calm scenario] in *.
  apply busy_pairs in Hp as [[-> ->]|[-> [-> | ->]]]; vm_compute in Hk; injection Hk as <-; vm_compute in Hbs;
    injection Hbs as <-;
    repeat (apply elem_of_cons in Hb as [->|Hb]; [vm_compute; reflexivity|]); by apply not_elem_of_nil in Hb.
Qed.

(** Five processes: two ticks, two calls of [EnsurePartitions], a sweep. *)
Definition busy_calls : list call :=
  [CallTick; CallEnsure (ref_row daily_events) None; CallSweep "app" "events" [];
   CallEnsure (ref_row audit) (Some "acme"); CallTick].
Definition busy_start : World (list string) * list (proc (list string) unit) :=
  (busy_world, p_call (E := calm noon) None <$> busy_calls).
Definition busy_schedule : list nat := Eval vm_compute in robin 500 [0; 1; 2; 3; 4]%nat busy_start.

Lemma busy_admissible : Forall (admissible busy_world) busy_calls.
Proof.
  repeat constructor; eexists; (split; [reflexivity|]); (split; [|split; [reflexivity|]]); apply list_elem_of_In; vm_compute; auto.
Qed.
Lemma provisioned_together_witness :
  match runs busy_schedule busy_start with
  | None => False
  | Some (w', ts) =>
      provided (E := calm noon) daily_events None kindDaily 0 w' ∧ provided (E := calm noon) audit (Some "acme") kindMonthly 0 w'
  end.
Proof.
  destruct (runs busy_schedule busy_start) as [[w' ts]|] eqn:Hrun.
  - destruct (provisioned_together (E := calm noon) unary_id_inj busy_world busy_maintainable busy_unexpired None
      busy_calls busy_schedule w' ts) as [Hend _]; [by intros h ref [=]|exact busy_admissible|exact Hrun|].
    assert (match runs busy_schedule busy_start with
            | Some (_, ts) => match ts !! 1%nat, ts !! 3%nat with Some (Done (Ret tt)), Some (Done (Ret tt)) => true | _, _ => false end
            | None => false end = true) as Hdone by (vm_compute; reflexivity).
    rewrite Hrun in Hdone. destruct (ts !! 1%nat) as [[[[]|e|]|]|] eqn:H1; try discriminate Hdone.
    destruct (ts !! 3%nat) as [[[[]|e|]|]|] eqn:H3; try discriminate Hdone. split.
    + exact (Hend 1%nat daily_events None kindDaily (Ret tt) eq_refl H1 ltac:(by left) eq_refl).
    + exact (Hend 3%nat audit (Some "acme") kindMonthly (Ret tt) eq_refl H3 ltac:(by right; left) eq_refl).
  - assert (match runs busy_schedule busy_start with Some _ => true | None => false end = true) as Hs
      by (vm_compute; reflexivity). by rewrite Hrun in Hs.
Defined.

(** Two calls of [EnsurePartitions] whose reads come before either transaction
    both report the whole target set as created; it is recorded once. *)
Definition twice : list (proc (list string) EnsureReport) :=
  [p_EnsurePartitions (E := calm noon) app_events None; p_EnsurePartitions (E := calm noon) app_events None].
Definition alternating : list nat := [0; 1; 0; 1; 0; 1; 0; 1; 0; 1; 0; 1; 0; 1; 0; 1; 0; 1]%nat.
Example reported_twice :
  match runs alternating (daily_world, twice) with
  | Some (w', [Done (Ret rep1); Done (Ret rep2)]) =>
      rep1 = mkEnsureReport 3 true ∧ rep2 = mkEnsureReport 3 true ∧
      Partition.Name <$> rows_of w' =
        ["app.events_20260615"; "app.events_20260616"; "app.events_20260617"; "app.events_default"]
  | _ => False
  end.
Proof. vm_compute. by split_and!. Qed.
