(* ===== verification/Race.v ===== *)
(** * Registrations that race

    [RegisterParent] and [RegisterTenant] of several processes, next to each
    other and to any requests but removals, in the atoms of [Requests].  The
    unique indexes decide a race: at most one of the calls that register the
    same parent, or the same tenant, returns. *)

From S2P Require Import Prelude GoTime GoStrings Errs Naming Store World Logic Repo Retry Scenario Provisioner Ensure Retention Sweep Registry Registration Removal AdvisoryLock Maintainer Maintenance Manager Interleave Concurrent Requests.
Local Open Scope string_scope.
Local Open Scope Z_scope.

(** ** Races *)

Section race.
Context {C : Type} {E : Env C}.
(** What any step may do, and what the winner brings about: no step undoes it. *)
Context (R : relation (World C)) {HE : Effect R}.
Context (key : World C → bool) (Hkey : ∀ w w', R w w' → key w = true → key w' = true).

(** From [w], [p] cannot return unless one of its own steps makes [key] true. *)
Fixpoint contends {A} (p : proc C A) (w : World C) : Prop :=
  match p with
  | Done o => ∀ a, o ≠ Ret a
  | Atom m k => Stable R m ∧ ∀ w1 o w2, R w w1 → m w1 = (o, w2) →
      (key w1 = false → key w2 = true → obeys R (k o)) ∧ (key w1 = true ∨ key w2 = false → contends (k o) w2)
  end.
Lemma contends_others {A} (p : proc C A) w w' : R w w' → contends p w → contends p w'.
Proof.
  intros Hr. destruct p as [o|X m k]; [done|]. intros [Hm Hc]. split; [done|]. intros w1 o w2 Hr1.
  apply Hc. by eapply effect_trans.
Qed.

(** In a race everyone obeys, and only the winner can return. *)
Definition raced {A} (contender : nat → Prop) (s : World C * list (proc C A)) : Prop :=
  ∃ winner, (∀ i p, s.2 !! i = Some p → ¬ contender i ∨ (i = winner ∧ key s.1 = true) → obeys R p) ∧
    (∀ i p, s.2 !! i = Some p → contender i → (i ≠ winner ∨ key s.1 = false) → contends p s.1).

Lemma raced_turn {A} contender `{!∀ i, Decision (contender i)} i (s s' : World C * list (proc C A)) :
  turn i s = Some s' → raced contender s → raced contender s'.
Proof.
  unfold turn, raced. destruct s as [w ts]. cbn [fst snd]. destruct (ts !! i) as [[o|X m k]|] eqn:Hi; [done| |done].
  destruct (m w) as [o w'] eqn:Hm. intros [= <-] (winner & Hobey & Hcont). cbn [fst snd] in *.
  assert (∀ j p, <[i:=k o]> ts !! j = Some p → (j = i ∧ p = k o) ∨ (j ≠ i ∧ ts !! j = Some p)) as Hlook.
  { intros j p [(-> & <- & _)|[Hne Hj]]%list_lookup_insert_Some; auto. }
  destruct (decide (contender i ∧ (i ≠ winner ∨ key w = false))) as [[Hc Hl]|Hno].
  - destruct (Hcont i _ Hi Hc Hl) as [HR Hm']. destruct (Hm' w o w') as [Hwin Hlose]; [by apply course_refl|done|].
    apply HR in Hm. pose proof (Hkey _ _ Hm) as Hk.
    assert (∀ p : proc C A, contends p w → contends p w') as Hoth by (intros p; by apply contends_others).
    cbn [fst snd]. destruct (key w) eqn:Hw; [|destruct (key w') eqn:Hw'].
    + destruct Hl as [Hl|]; [|done]. rewrite (Hk eq_refl). exists winner. split.
      * intros j p [[-> ->]|[Hne Hj]]%Hlook Hcase; [by destruct Hcase as [|[]]|]. by apply (Hobey j p Hj).
      * intros j p [[-> ->]|[Hne Hj]]%Hlook Hcj Hcase; [apply Hlose; by left|]. by apply Hoth, (Hcont j p Hj).
    + exists i. split.
      * intros j p [[-> ->]|[Hne Hj]]%Hlook Hcase; [by apply Hwin|]. apply (Hobey j p Hj).
        destruct Hcase as [|[? _]]; [by left|done].
      * intros j p [[-> ->]|[Hne Hj]]%Hlook Hcj Hcase; [by destruct Hcase|]. apply Hoth, (Hcont j p Hj); auto.
    + exists winner. split.
      * intros j p [[-> ->]|[Hne Hj]]%Hlook Hcase; [by destruct Hcase as [|[]]|]. apply (Hobey j p Hj).
        destruct Hcase as [|[_ ?]]; [by left|done].
      * intros j p [[-> ->]|[Hne Hj]]%Hlook Hcj Hcase; [apply Hlose; by right|]. by apply Hoth, (Hcont j p Hj); auto.
  - assert (¬ contender i ∨ (i = winner ∧ key w = true)) as Hcase.
    { destruct (decide (contender i)) as [Hc|]; [right|by left].
      destruct (decide (i = winner)) as [|Hne]; [|destruct Hno; auto].
      split; [done|]. destruct (key w) eqn:Hw; [done|]. destruct Hno; auto. }
    destruct (Hobey i _ Hi Hcase) as [HR Hko]. apply HR in Hm. pose proof (Hkey _ _ Hm) as Hk.
    assert (∀ p : proc C A, contends p w → contends p w') as Hoth by (intros p; by apply contends_others).
    cbn [fst snd]. destruct (key w) eqn:Hw; [|destruct (key w') eqn:Hw'].
    + rewrite (Hk eq_refl). exists winner. split.
      * intros j p [[-> ->]|[Hne Hj]]%Hlook Hcj; [apply Hko|by apply (Hobey j p Hj)].
      * intros j p [[-> ->]|[Hne Hj]]%Hlook Hcj Hl; [by destruct Hno|by apply Hoth, (Hcont j p Hj)].
    + exists (length ts). split.
      * intros j p [[-> ->]|[Hne Hj]]%Hlook Hcj; [apply Hko|]. apply (Hobey j p Hj). left.
        destruct Hcj as [|[-> _]]; [done|]. by apply lookup_lt_Some, Nat.lt_irrefl in Hj.
      * intros j p [[-> ->]|[Hne Hj]]%Hlook Hcj _; [destruct Hno; auto|]. apply Hoth, (Hcont j p Hj); auto.
    + exists winner. split.
      * intros j p [[-> ->]|[Hne Hj]]%Hlook Hcj; [apply Hko|]. apply (Hobey j p Hj). left. by destruct Hcj as [|[]].
      * intros j p [[-> ->]|[Hne Hj]]%Hlook Hcj _; [destruct Hno; auto|]. apply Hoth, (Hcont j p Hj); auto.
Qed.

Lemma raced_runs {A} contender `{!∀ i, Decision (contender i)} l (s s' : World C * list (proc C A)) :
  runs l s = Some s' → raced contender s → raced contender s'.
Proof.
  revert s. induction l as [|i l IH]; intros s; cbn; [by intros [= <-]|].
  destruct (turn i s) as [s1|] eqn:Ht; [|done]. intros Hl Hs. eapply IH; [exact Hl|]. by eapply raced_turn.
Qed.
(** At most one contender returns, and then [key] is true. *)
Lemma raced_one {A} contender (s : World C * list (proc C A)) i a :
  raced contender s → contender i → s.2 !! i = Some (Done (Ret a)) →
  key s.1 = true ∧ ∀ j b, contender j → s.2 !! j = Some (Done (Ret b)) → i = j.
Proof.
  intros (winner & _ & Hcont) Hi Ha.
  assert (∀ k c, contender k → s.2 !! k = Some (Done (Ret c)) → k = winner ∧ key s.1 = true) as Hw.
  { intros k c Hk Hc. destruct (decide (k = winner)) as [|Hne]; [|by destruct (Hcont k _ Hc Hk (or_introl Hne) c)].
    split; [done|]. destruct (key s.1) eqn:Hkey'; [done|]. by destruct (Hcont k _ Hc Hk (or_intror eq_refl) c). }
  destruct (Hw i a Hi Ha) as [-> ?]. split; [done|]. intros j b Hj Hb. by destruct (Hw j b Hj Hb).
Qed.

(** ** Rules *)

(** A call contends if it does after reads. *)
Lemma contends_bind {A B} (m : M C A) (f : A → proc C B) w :
  (∀ w w', db w' = db w → key w' = key w) → Stable later m →
  (∀ w1 a w2, R w w1 → R w w2 → m w1 = (Ret a, w2) → contends (f a) w2) → contends (atom m ≫= f) w.
Proof.
  intros Hread Hm Hf. split; [eapply Stable_weaken; [exact Hm|apply effect_later]|]. intros w1 o w2 Hr Hrun.
  pose proof (Hm _ _ _ Hrun) as Hl. rewrite (Hread w1 w2 (proj1 Hl)). split; [by intros -> ?|].
  intros _. destruct o as [a|e|]; [|by intros ?..].
  apply (Hf w1 a w2 Hr); [eapply effect_trans; [exact Hr|by apply effect_later]|done].
Qed.
Lemma contends_fail {A} e w : contends (p_fail e : proc C A) w.
Proof. by intros a. Qed.
Lemma contends_ret {A B} (a : A) (f : A → proc C B) w : contends (f a) w → contends (mret a ≫= f) w.
Proof. done. Qed.
Lemma contends_lift {A B} (r : res A) (f : A → proc C B) w :
  (∀ a, contends (f a) w) → contends (p_lift r ≫= f) w.
Proof. intros Hf. destruct r; [apply Hf|by intros ?]. Qed.
Lemma contends_unless {B} (b : bool) (m : M C unit) (f : unit → proc C B) w :
  (∀ w w', db w' = db w → key w' = key w) → Stable later m → (∀ w, contends (f tt) w) →
  contends ((if b then mret tt else atom m) ≫= f) w.
Proof.
  intros Hread Hm Hf. destruct b; [apply contends_ret, Hf|]. apply contends_bind; [done..|]. intros ? [] ? _ _ _. apply Hf.
Qed.
(** The step that decides. *)
Lemma contends_atom {A B} (m : M C A) (f : A → proc C B) w :
  Stable R m → (∀ a, obeys R (f a)) →
  (∀ w1 a w2, R w w1 → m w1 = (Ret a, w2) → key w1 = true ∨ key w2 = false → contends (f a) w2) →
  contends (atom m ≫= f) w.
Proof.
  intros Hm Ho Hc. split; [done|]. intros w1 o w2 Hr Hrun. split.
  - intros _ _. destruct o as [a|e|]; [apply Ho|done..].
  - intros Hk. destruct o as [a|e|]; [by apply (Hc w1 a w2)|by intros ?..].
Qed.
End race.

(** ** Calls that only add to the registry *)

Section registrations.
Context {C : Type} {E : Env C}.

Definition admits (d d' : DB C) : Prop :=
  (∃ new, parent_tables (meta d') = (parent_tables (meta d) ++ new)%list) ∧
  (∃ new, tenants (meta d') = (tenants (meta d) ++ new)%list).
#[export] Instance admits_preorder : PreOrder admits.
Proof.
  split.
  - intros d. split; exists []; by rewrite app_nil_r.
  - intros d1 d2 d3 [[n1 H1] [n2 H2]] [[n3 H3] [n4 H4]].
    split; [exists (n1 ++ n3)%list|exists (n2 ++ n4)%list]; by rewrite app_assoc, <- ?H1, <- ?H2.
Qed.
Lemma admits_parents (d d' : DB C) :
  parent_tables (meta d') = parent_tables (meta d) → tenants (meta d') = tenants (meta d) → admits d d'.
Proof. intros H1 H2. split; exists []; by rewrite app_nil_r. Qed.
Notation admitting := (on_db admits).

Lemma Stable_UpsertParentTable_admits a : Stable admitting (UpsertParentTable a).
Proof.
  apply Stable_meta_write; [apply _|]. intros w r m' H. unfold upsert_parent in H.
  destruct (negb _); [done|]. destruct (existsb _ _); [done|]. apply Ok_inj in H as [= <- <-].
  split; [by exists [a]|exists []; by rewrite app_nil_r].
Qed.
Lemma Stable_UpsertTenant_admits p i : Stable admitting (UpsertTenant p i).
Proof.
  apply Stable_meta_write; [apply _|]. intros w r m' H. unfold upsert_tenant in H.
  destruct (has_tenant _ _ _); [|destruct (negb _); [done|]]; apply Ok_inj in H as [= <- <-];
    [by apply admits_parents|]. split; [exists []; by rewrite app_nil_r|by eexists].
Qed.
Lemma Stable_UpsertPartition_admits a : Stable admitting (UpsertPartition a).
Proof.
  eapply Stable_weaken; [by apply (Stable_UpsertPartition_adds (λ _, True))|].
  intros w w' (H1 & H2 & _). by apply admits_parents.
Qed.
Lemma Stable_mark_admits s i : Stable admitting (meta_write (λ m, Ok (tt, mark s i m)) : M C unit).
Proof. apply Stable_meta_write; [apply _|]. intros w r m' H. apply Ok_inj in H as [= <- <-]. by apply admits_parents. Qed.
Lemma Stable_Exec_admits sql args : Stable admitting (Exec sql args).
Proof. apply Stable_Exec; [apply _|]. intros w c. by apply admits_parents. Qed.
Lemma Stable_Call_admits session sql args : Stable admitting (Call session sql args).
Proof. apply Stable_Call; [apply _|]. intros w c. by apply admits_parents. Qed.
End registrations.
#[local] Hint Resolve Stable_UpsertParentTable_admits Stable_UpsertTenant_admits Stable_UpsertPartition_admits
  Stable_mark_admits Stable_Exec_admits Stable_Call_admits : stable.

(** ** Races of registrations *)

Section registering.
Context {C : Type} {E : Env C} (hook : Hook C) (Hhook : passive hook).
Notation admitting := (on_db admits).

#[export] Instance admitting_tolerant : Tolerant admitting (λ r, negb (removes r)).
Proof. split; auto with stable typeclass_instances; by intros. Qed.
Lemma request_admits r : removes r = false → obeys admitting (p_request hook r).
Proof. intros Hr. apply (request_obeys hook admitting (λ r, negb (removes r))); [done|by rewrite Hr]. Qed.

(** *** The same parent *)

Definition registered (k : string * string) (w : World C) : bool :=
  match get_parent k (meta (db w)) with Ok _ => true | Err _ => false end.
Lemma get_parent_app k m ps r :
  get_parent k m = Ok r → get_parent k (mkMeta (parent_tables m ++ ps) (tenants m) (partitions m)) = Ok r.
Proof. unfold get_parent. cbn. rewrite find_app. by destruct (List.find _ _). Qed.
Lemma get_parent_admits k r (w w' : World C) :
  admitting w w' → get_parent k (meta (db w)) = Ok r → get_parent k (meta (db w')) = Ok r.
Proof. intros [[new Hnew] _] Hg. apply (get_parent_app _ _ new) in Hg. unfold get_parent in *. by rewrite Hnew. Qed.
Lemma registered_lasts k w w' : admitting w w' → registered k w = true → registered k w' = true.
Proof.
  unfold registered. intros Ha. destruct (get_parent k (meta (db w))) as [r|] eqn:Hg; [|done].
  by rewrite (get_parent_admits k r w w' Ha Hg).
Qed.
Lemma upsert_registers a w w' r :
  UpsertParentTable a w = (Ret r, w') →
  registered (Parent.key a) w = false ∧ registered (Parent.key a) w' = true.
Proof.
  intros [(_ & e & [=] & _)|(r' & m' & Hu & Hd & _)]%meta_write_run.
  apply upsert_parent_Ok in Hu as [Hg ->]. unfold registered. rewrite Hg, Hd. split; [done|].
  unfold get_parent in *. cbn. rewrite find_app. destruct (List.find _ _); [done|]. cbn. by rewrite bool_decide_true.
Qed.
Lemma RegisterParent_contends cfg w :
  contends admitting (registered (ParentConfig.SchemaName cfg, ParentConfig.TableName cfg)) (p_RegisterParent cfg) w.
Proof.
  assert (∀ k (w w' : World C), db w' = db w → registered k w' = registered k w) as Hread
    by (intros k w1 w2 Hd; unfold registered; by rewrite Hd).
  unfold p_RegisterParent. cbv zeta. apply contends_lift. intros _.
  do 3 (apply contends_bind; [apply _|apply Hread|stable|intros ? [] ? _ _ _]).
  do 2 (apply contends_unless; [apply _|apply Hread|stable|intros ?]). apply contends_lift. intros label.
  apply contends_bind; [apply _|apply Hread|stable|intros ? id ? _ _ _].
  apply contends_atom; [stable|intros [a|e]; obey; by apply (EnsurePartitions_obeys admitting _)|].
  intros x [a|e] y _ Hrun Hk; [|destruct (Is e NoRows); apply contends_fail].
  apply attempt_inv in Hrun as (o & Hrun & Ho). destruct o as [r|e|]; try done.
  apply upsert_registers in Hrun as [Hk1 Hk2]. change (Parent.key _) with
    (ParentConfig.SchemaName cfg, ParentConfig.TableName cfg) in Hk1, Hk2. destruct Hk; congruence.
Qed.

(** *** The same tenant *)

Definition enrolled (k : string * string) (tenant : string) (w : World C) : bool :=
  match get_parent k (meta (db w)) with
  | Ok row => has_tenant (Parent.ID row) tenant (meta (db w))
  | Err _ => false
  end.
Lemma has_tenant_admits p t (w w' : World C) :
  admitting w w' → has_tenant p t (meta (db w)) = true → has_tenant p t (meta (db w')) = true.
Proof. intros [_ [new Hnew]]. unfold has_tenant. rewrite Hnew, existsb_app. by intros ->. Qed.
Lemma enrolled_lasts k t w w' : admitting w w' → enrolled k t w = true → enrolled k t w' = true.
Proof.
  unfold enrolled. intros Ha. destruct (get_parent k (meta (db w))) as [r|] eqn:Hg; [|done].
  rewrite (get_parent_admits k r w w' Ha Hg). by apply has_tenant_admits.
Qed.
Lemma upsert_enrolls k row t w w' n :
  get_parent k (meta (db w)) = Ok row → UpsertTenant (Parent.ID row) t w = (Ret n, w') →
  (n =? 0) = true ∨ enrolled k t w = false ∧ enrolled k t w' = true.
Proof.
  intros Hg [(_ & e & [=] & _)|(n' & m' & Hu & Hd & [[= ->]|(? & ? & [=] & _)])]%meta_write_run.
  unfold upsert_tenant in Hu. cbn [Tenant.ParentTableID Tenant.ID] in Hu. unfold enrolled. rewrite Hg, Hd.
  destruct (has_tenant (Parent.ID row) t _) eqn:Ht; [|destruct (negb _); [done|]]; apply Ok_inj in Hu as [= <- <-].
  - by left.
  - right. split; [done|]. unfold get_parent in *. cbn. rewrite Hg. unfold has_tenant. cbn. rewrite existsb_app. cbn.
    by rewrite !bool_decide_true, orb_true_r.
Qed.
Lemma RegisterTenant_contends cfg w :
  contends admitting
    (enrolled (TenantConfig.ParentSchema cfg, TenantConfig.ParentName cfg) (TenantConfig.TenantId cfg))
    (p_RegisterTenant cfg) w.
Proof.
  unfold p_RegisterTenant. cbv zeta. do 3 (apply contends_lift; intros _).
  apply contends_bind; [apply _|by intros w1 w2 Hd; unfold enrolled; rewrite Hd|stable|].
  intros w1 [prow|e] w2 _ Hw2 Hrun; [|destruct (Is e NoRows); apply contends_fail].
  destruct (negb (hasTenantCol prow)); [apply contends_fail|].
  apply attempt_inv in Hrun as (o & [[Hd _] Hr]%meta_read_run & Ho). destruct o as [r|e|]; try done.
  injection Ho as <-. destruct Hr as [_ Hr]. rewrite <- Hd in Hr.
  apply contends_atom; [stable|intros n; obey; by apply (EnsurePartitions_obeys admitting _)|].
  intros w3 n w4 Hw3 Hrun Hk. apply wrapping_inv in Hrun as (o & Hrun & Ho). destruct o as [n'|e|]; try done.
  injection Ho as <-. apply (upsert_enrolls _ _ _ _ _ _ (get_parent_admits _ _ w2 w3 Hw3 Hr)) in Hrun.
  destruct Hrun as [->|[Hk1 Hk2]]; [apply contends_fail|]. destruct Hk; congruence.
Qed.

Definition among (same : request → bool) (calls : list request) (i : nat) : Prop := same <$> calls !! i = Some true.
Lemma race_ends key (same : request → bool) (calls : list request) l w0 w' ts :
  (∀ w w', admitting w w' → key w = true → key w' = true) →
  (∀ r, same r = true → contends admitting key (p_request hook r) w0) →
  Forall (λ r, removes r = false) calls →
  runs l (w0, p_request hook <$> calls) = Some (w', ts) → raced admitting key (among same calls) (w', ts).
Proof.
  intros Hkey Hc Hadd Hrun. eapply (raced_runs admitting); [apply Hkey|unfold among; apply _|exact Hrun|].
  exists (length calls). cbn [fst snd]. unfold among. split; intros i p Hi; rewrite list_lookup_fmap in Hi;
    destruct (calls !! i) as [r|] eqn:Hr; try done; injection Hi as <-.
  - intros _. rewrite Forall_lookup in Hadd. by eapply request_admits, Hadd.
  - intros [= Hs] _. by apply Hc.
Qed.

Definition for_parent (k : string * string) (r : request) : bool :=
  match r with
  | RqRegisterParent cfg => bool_decide ((ParentConfig.SchemaName cfg, ParentConfig.TableName cfg) = k)
  | _ => false
  end.
Definition for_tenant (k : string * string) (t : string) (r : request) : bool :=
  match r with
  | RqRegisterTenant cfg => bool_decide ((TenantConfig.ParentSchema cfg, TenantConfig.ParentName cfg) = k) &&
      bool_decide (TenantConfig.TenantId cfg = t)
  | _ => false
  end.
Lemma for_parent_contends k r w : for_parent k r = true → contends admitting (registered k) (p_request hook r) w.
Proof. destruct r; cbn; try done. intros <-%bool_decide_eq_true. apply RegisterParent_contends. Qed.
Lemma for_tenant_contends k t r w : for_tenant k t r = true → contends admitting (enrolled k t) (p_request hook r) w.
Proof.
  destruct r; cbn; try done. intros [<-%bool_decide_eq_true <-%bool_decide_eq_true]%andb_prop.
  apply RegisterTenant_contends.
Qed.

(** C22: registrations may race: whatever requests but removals are interleaved,
    statement by statement and in whatever order, and whatever fails in them,
    of those that register one parent at most one returns without an error, and
    of those that register one tenant of one parent at most one; the parent, or
    the tenant, is registered at the end.  The reads that come before the
    insertion decide nothing. *)
Theorem one_registration (calls : list request) l w0 w' ts :
  Forall (λ r, removes r = false) calls →
  runs l (w0, p_request hook <$> calls) = Some (w', ts) →
  (∀ i ci, calls !! i = Some (RqRegisterParent ci) → ts !! i = Some (Done (Ret tt)) →
     registered (ParentConfig.SchemaName ci, ParentConfig.TableName ci) w' = true ∧
     ∀ j cj, calls !! j = Some (RqRegisterParent cj) → ts !! j = Some (Done (Ret tt)) →
       ParentConfig.SchemaName cj = ParentConfig.SchemaName ci →
       ParentConfig.TableName cj = ParentConfig.TableName ci → j = i) ∧
  (∀ i ci, calls !! i = Some (RqRegisterTenant ci) → ts !! i = Some (Done (Ret tt)) →
     enrolled (TenantConfig.ParentSchema ci, TenantConfig.ParentName ci) (TenantConfig.TenantId ci) w' = true ∧
     ∀ j, calls !! j = Some (RqRegisterTenant ci) → ts !! j = Some (Done (Ret tt)) → j = i).
Proof.
  intros Hadd Hrun. split; intros i ci Hi Ho.
  - set (k := (ParentConfig.SchemaName ci, ParentConfig.TableName ci)).
    destruct (raced_one admitting (registered k) (among (for_parent k) calls) (w', ts) i tt) as [Hk Hone].
    + apply (race_ends _ _ calls l w0); [apply registered_lasts|intros r; apply for_parent_contends|done|done].
    + unfold among. rewrite Hi. cbn. by rewrite bool_decide_true.
    + done.
    + split; [done|]. intros j cj Hj Hoj Hs Ht. symmetry. apply (Hone j tt); [|done].
      unfold among. rewrite Hj. cbn. by rewrite Hs, Ht, bool_decide_true.
  - set (k := (TenantConfig.ParentSchema ci, TenantConfig.ParentName ci)). set (t := TenantConfig.TenantId ci).
    destruct (raced_one admitting (enrolled k t) (among (for_tenant k t) calls) (w', ts) i tt) as [Hk Hone].
    + apply (race_ends _ _ calls l w0); [apply enrolled_lasts|intros r; apply for_tenant_contends|done|done].
    + unfold among. rewrite Hi. cbn. by rewrite !bool_decide_true.
    + done.
    + split; [done|]. intros j Hj Hoj. symmetry. apply (Hone j tt); [|done].
      unfold among. rewrite Hj. cbn. by rewrite !bool_decide_true.
Qed.
End registering.

(** ** Examples *)

(** Two processes register one parent, two others one tenant, and a tick runs;
    all of them read before any of them writes. *)
Definition race_calls : list request :=
  [RqRegisterParent audit_config; RqRegisterTenant acme; RqMaintain; RqRegisterParent audit_config; RqRegisterTenant acme].
Definition race_begin : World (list string) * list (proc (list string) unit) :=
  (start tenanted_meta, p_request (E := catalogued) None <$> race_calls).
Definition race_schedule : list nat := Eval vm_compute in robin 500 [0; 1; 2; 3; 4]%nat race_begin.

Example race_verdicts :
  match runs race_schedule race_begin with
  | Some (w', [Done (Ret tt); Done (Ret tt); Done (Ret tt); Done (Fail e); Done (Fail e')]) =>
      Is e (Sentinel ErrParentAlreadyExists) = true ∧ Is e' (Sentinel ErrTenantAlreadyExists) = true
  | _ => False
  end.
Proof. vm_compute. by split. Qed.

Lemma one_registration_witness :
  match runs race_schedule race_begin with
  | Some (w', ts) => registered ("app", "audit") w' = true ∧ ts !! 3%nat ≠ Some (Done (Ret tt)) ∧
      enrolled ("app", "events") "acme" w' = true ∧ ts !! 4%nat ≠ Some (Done (Ret tt))
  | None => False
  end.
Proof.
  destruct (runs race_schedule race_begin) as [[w' ts]|] eqn:Hrun.
  - destruct (one_registration (E := catalogued) None passive_None race_calls race_schedule
      (start tenanted_meta) w' ts ltac:(by repeat constructor) Hrun) as [Hp Ht].
    assert (match runs race_schedule race_begin with
            | Some (_, ts) => match ts !! 0%nat, ts !! 1%nat with Some (Done (Ret tt)), Some (Done (Ret tt)) => true | _, _ => false end
            | None => false end = true) as Hdone by (vm_compute; reflexivity).
    rewrite Hrun in Hdone. destruct (ts !! 0%nat) as [[[[]|e|]|]|] eqn:H0; try discriminate Hdone.
    destruct (ts !! 1%nat) as [[[[]|e|]|]|] eqn:H1; try discriminate Hdone.
    destruct (Hp 0%nat audit_config eq_refl H0) as [Hreg Hone]. destruct (Ht 1%nat acme eq_refl H1) as [Henr Hone'].
    split; [exact Hreg|]. split; [|split; [exact Henr|]].
    + intros H3. discriminate (Hone 3%nat audit_config eq_refl H3 eq_refl eq_refl).
    + intros H4. discriminate (Hone' 4%nat eq_refl H4).
  - assert (match runs race_schedule race_begin with Some _ => true | None => false end = true) as Hs
      by (vm_compute; reflexivity). by rewrite Hrun in Hs.
Defined.
