(* ===== verification/Departure.v ===== *)
(** * Removals that last

    [RemoveParent] and [RemoveTenant] next to the requests of any number of
    processes, ticks and drains in flight included.  The foreign keys decide:
    what was removed is not written back by a call that read it before. *)

From S2P Require Import Prelude GoTime GoStrings Errs Naming Store World Logic Repo Scenario Retry Provisioner Ensure Retention Sweep Registry Registration Removal AdvisoryLock Maintainer Maintenance Importer Import Drain Manager Interleave Concurrent Requests Race.
Local Open Scope string_scope.
Local Open Scope Z_scope.

(** ** The store *)

Lemma upsert_tenant_Ok a n m m' :
  upsert_tenant a m = Ok (n, m') →
  (n = 0 ∧ m' = m ∨ n = 1 ∧ m' = mkMeta (parent_tables m) (tenants m ++ [a]) (partitions m)).
Proof.
  unfold upsert_tenant. destruct (has_tenant _ _ _); [|destruct (negb _); [done|]]; intros [= <- <-]; auto.
Qed.

(** ** A parent that was removed *)

Section parent.
Context {C : Type} {E : Env C} (hook : Hook C) (Hhook : passive hook).
Context (k : string * string).

(** Registered once more. *)
Definition registers (r : request) : bool :=
  match r with
  | RqRegisterParent cfg => bool_decide ((ParentConfig.SchemaName cfg, ParentConfig.TableName cfg) = k)
  | _ => false
  end.
Definition unknown (d d' : DB C) : Prop :=
  get_parent k (meta d) = Err NoRows → get_parent k (meta d') = Err NoRows.
#[export] Instance unknown_preorder : PreOrder unknown.
Proof. split; [by intros d Hd|]. intros d1 d2 d3 H1 H2 Hd. by apply H2, H1. Qed.
Lemma unknown_parents (d d' : DB C) : parent_tables (meta d') = parent_tables (meta d) → unknown d d'.
Proof. intros Hp Hd. unfold get_parent in *. by rewrite Hp. Qed.
Lemma unknown_subset (d d' : DB C) :
  (∀ r, r ∈ parent_tables (meta d') → Parent.key r = k → r ∈ parent_tables (meta d)) → unknown d d'.
Proof. intros Hs Hd. rewrite !get_parent_none in *. intros r Hr Hk. by apply (Hd r (Hs r Hr Hk)). Qed.
Notation forgetting := (on_db unknown).

Lemma Stable_UpsertTenant_unknown pid t : Stable forgetting (UpsertTenant pid t).
Proof.
  apply Stable_meta_write; [apply _|]. intros w n m' [[_ ->]|[_ ->]]%upsert_tenant_Ok; by apply unknown_parents.
Qed.
#[export] Instance forgetting_tolerant : Tolerant forgetting (λ r, negb (registers r)).
Proof.
  split.
  - apply _.
  - intros. apply Stable_Exec; [apply _|]. intros w c. by apply unknown_parents.
  - intros. apply Stable_Call; [apply _|]. intros w c. by apply unknown_parents.
  - intros a. eapply Stable_weaken; [by apply (Stable_UpsertPartition_adds (λ _, True))|].
    intros w w' (Hp & _). by apply unknown_parents.
  - intros. apply Stable_meta_write; [apply _|]. intros w r m' H. apply Ok_inj in H as [= <- <-]. by apply unknown_parents.
  - intros cfg label id Hk%negb_true_iff%bool_decide_eq_false. apply Stable_meta_write; [apply _|].
    intros w r m' [_ ->]%upsert_parent_Ok. apply unknown_subset. cbn. intros x [Hx| ->%list_elem_of_singleton]%elem_of_app; [done|].
    intros Hx. destruct Hk. exact Hx.
  - intros cfg pid _. apply Stable_UpsertTenant_unknown.
  - intros ref pid t _. apply Stable_UpsertTenant_unknown.
  - intros ref opts _. apply Stable_meta_write; [apply _|]. intros w r m' H. apply Ok_inj in H as [= _ <-].
    apply unknown_subset. cbn. by intros x [_ ?]%list_elem_of_filter.
  - intros ref pid _. apply Stable_meta_write; [apply _|]. intros w r m' H. apply Ok_inj in H as [= _ <-].
    by apply unknown_parents.
Qed.

Notation sound := (sound forgetting).
#[export] Instance rely_unknown : Rely forgetting (λ w, get_parent k (meta (db w)) = Err NoRows).
Proof. intros w w' Hr. apply Hr. Qed.
#[export] Instance forgetting_preorder : PreOrder forgetting.
Proof. split; apply _. Qed.

(** Once it returns, the parent is gone. *)
Lemma RemoveParent_forgets ref opts :
  (ParentRef.SchemaName ref, ParentRef.TableName ref) = k →
  sound (λ _, True) (p_RemoveParent ref opts)
    (λ o w, o = Ret tt → get_parent k (meta (db w)) = Err NoRows).
Proof.
  intros Hk.
  assert (∀ o : outcome unit, Rely forgetting (λ w, o = Ret tt → get_parent k (meta (db w)) = Err NoRows)) as HQ
    by (intros o w w' Hr Hw Ho; apply Hr; by apply Hw).
  assert (∀ {B} (p : proc C B) (f : B → proc C unit), obeys forgetting p →
    (∀ b, sound (λ _, True) (f b) (λ o w, o = Ret tt → get_parent k (meta (db w)) = Err NoRows)) →
    sound (λ _, True) (p ≫= f) (λ o w, o = Ret tt → get_parent k (meta (db w)) = Err NoRows)) as Hskip.
  { intros B p f Hp Hf. by eapply (sound_bind forgetting); [by apply sound_obeys|..]. }
  unfold p_RemoveParent. cbv zeta. do 2 (apply Hskip; [apply obeys_lift|intros _]).
  apply Hskip; [destruct (cascadeDrop _); [apply obeys_wrapping, (DropAll_obeys _ _)|done]|intros _].
  eapply (sound_bind forgetting _ _ (λ o w, ∀ n, o = Ret n → get_parent k (meta (db w)) = Err NoRows)).
  - apply (sound_atom forgetting); [apply _..|]. intros w o w' _ (o1 & Hrun & Ho)%wrapping_inv. split.
    + by eapply (tol_remove (R := forgetting) ref opts).
    + intros n ->. destruct o1 as [n1|e|]; try done. apply meta_write_run in Hrun as
        [(_ & e & [=] & _)|(a & m' & Hu & -> & _)]. apply Ok_inj in Hu as [= _ <-]. cbn.
      apply get_parent_none. cbn. intros r [Hr _]%list_elem_of_filter. by rewrite <- Hk.
  - done.
  - intros n. by apply (sound_done forgetting); [done|]; intros w Hw _; apply (Hw n).
  - done.
  - done.
Qed.

Lemma removal_lasts calls l w0 w' ts i ref opts :
  Forall (λ r, registers r = false) calls → runs l (w0, p_request hook <$> calls) = Some (w', ts) →
  calls !! i = Some (RqRemoveParent ref opts) → (ParentRef.SchemaName ref, ParentRef.TableName ref) = k →
  ts !! i = Some (Done (Ret tt)) → get_parent k (meta (db w')) = Err NoRows.
Proof.
  intros Hno Hrun Hi Hk Hret.
  set (Q (j : nat) (o : outcome unit) (w : World C) := j = i → o = Ret tt → get_parent k (meta (db w)) = Err NoRows).
  destruct (runs_safe forgetting l Q (w0, p_request hook <$> calls) (w', ts) Hrun) as [_ Hend].
  - intros j p Hj. cbn [fst snd] in *. rewrite list_lookup_fmap in Hj. destruct (calls !! j) as [r|] eqn:Hr; [|done].
    injection Hj as <-. destruct (decide (j = i)) as [->|Hne].
    + rewrite Hi in Hr. injection Hr as <-. eapply safe_weaken; [|by apply (RemoveParent_forgets ref opts Hk)].
      intros o w Hw _. exact Hw.
    + eapply safe_weaken; [|apply (obeys_safe forgetting)]; [by intros o w _ ?|].
      rewrite Forall_lookup in Hno. apply (request_obeys hook forgetting (λ r, negb (registers r))); [done|]. by rewrite (Hno j r Hr).
  - by apply (Hend i (Done (Ret tt)) Hret w').
Qed.
End parent.

(** ** A tenant that was removed *)

Section tenant.
Context {C : Type} {E : Env C} (hook : Hook C) (Hhook : passive hook).
Context (k : string * string) (t : string).

(** Requests that may register the tenant: an import registers the tenants
    that it finds. *)
Definition enrolls (r : request) : bool :=
  match r with
  | RqRegisterTenant cfg => bool_decide (TenantConfig.TenantId cfg = t)
  | RqImport _ => true
  | _ => false
  end.
(** The parent [k], if its id is in [P], has no tenant [t]. *)
Definition clear (P : string → Prop) (m : Meta) : Prop :=
  ∀ row, get_parent k m = Ok row → P (Parent.ID row) → has_tenant (Parent.ID row) t m = false.
Definition left_clear (m m' : Meta) : Prop := WF m → WF m' ∧ ∀ P, clear P m → clear P m'.
#[export] Instance left_clear_preorder : PreOrder left_clear.
Proof. split; [by intros m|]. intros m1 m2 m3 H1 H2 [Hw H]%H1. destruct (H2 Hw) as [? ?]. auto. Qed.

(** The parent stays or goes, and nobody gets the tenant. *)
Lemma left_clear_fewer m m' :
  (WF m → WF m') → (WF m → ∀ r, get_parent k m' = Ok r → get_parent k m = Ok r) →
  (∀ x, x ∈ tenants m' → x ∈ tenants m ∨ Tenant.ID x ≠ t) → left_clear m m'.
Proof.
  intros HW Hp Ht Hwf. split; [by apply HW|]. intros P Hc row Hr HP. specialize (Hc row (Hp Hwf _ Hr) HP).
  rewrite has_tenant_false in *. intros x [Hx|Hx]%Ht; [by apply Hc|]. unfold Tenant.key. congruence.
Qed.
Lemma upsert_parent_clear a r m m' : upsert_parent a m = Ok (r, m') → left_clear m m'.
Proof.
  intros Hu Hwf. split; [by eapply WF_upsert_parent|]. intros P Hc row Hr HP.
  pose proof Hu as [Hg ->]%upsert_parent_Ok. unfold upsert_parent in Hu. destruct (negb _); [done|].
  destruct (existsb (parent_conflict a) _) eqn:Hconf; [done|]. rewrite existsb_false in Hconf.
  destruct (get_parent_cases k m) as [[row0 Hk]|Hk].
  - pose proof (get_parent_app k m [a] row0 Hk) as Hk'. rewrite Hr in Hk'. injection Hk' as ->. by apply Hc.
  - apply get_parent_elem in Hr as [Hin Hkey]. cbn in Hin. apply elem_of_app in Hin as [Hin| ->%list_elem_of_singleton].
    { rewrite get_parent_none in Hk. by destruct (Hk row Hin). }
    apply has_tenant_false. cbn. intros x Hx [= Hid _]. apply (wf_tenant_parents _ Hwf) in Hx as Hp.
    apply has_parent_true in Hp as (p & Hp & Hpid). specialize (Hconf p Hp). unfold parent_conflict in Hconf.
    rewrite bool_decide_true in Hconf; [done|congruence].
Qed.

Notation clearing := (on_db (λ d d' : DB C, left_clear (meta d) (meta d'))).
#[export] Instance clearing_preorder : PreOrder (λ d d' : DB C, left_clear (meta d) (meta d')).
Proof. split; [by intros d|]. intros d1 d2 d3 H1 H2. by etrans. Qed.
Lemma clearing_same (d d' : DB C) : meta d' = meta d → left_clear (meta d) (meta d').
Proof. by intros ->. Qed.
Lemma Stable_UpsertTenant_clear pid i : i ≠ t → Stable clearing (UpsertTenant pid i).
Proof.
  intros Hi. apply Stable_meta_write; [apply _|]. intros w n m' Hu. cbn. apply left_clear_fewer.
  - intros Hwf. by eapply WF_upsert_tenant.
  - apply upsert_tenant_Ok in Hu as [[_ ->]|[_ ->]]; done.
  - apply upsert_tenant_Ok in Hu as [[_ ->]|[_ ->]]; [by left|]. cbn.
    intros x [Hx| ->%list_elem_of_singleton]%elem_of_app; [by left|by right].
Qed.
#[export] Instance clearing_tolerant : Tolerant clearing (λ r, negb (enrolls r)).
Proof.
  split.
  - apply _.
  - intros. apply Stable_Exec; [apply _|]. intros w c. by apply clearing_same.
  - intros. apply Stable_Call; [apply _|]. intros w c. by apply clearing_same.
  - intros a. apply Stable_meta_write; [apply _|]. intros w [] m' H. cbn.
    destruct (upsert_partition _ _) as [m1|] eqn:Hu; [|done]. apply Ok_inj in H as [= <-].
    pose proof Hu as (rs & -> & _)%upsert_partition_adds. apply left_clear_fewer; [|done|by left].
    intros Hwf. by eapply WF_upsert_partition.
  - intros. apply Stable_meta_write; [apply _|]. intros w [] m' H. apply Ok_inj in H as [= <-]. cbn.
    apply left_clear_fewer; [apply WF_mark|done|by left].
  - intros cfg label id _. apply Stable_meta_write; [apply _|]. intros w r m' Hu. by eapply upsert_parent_clear.
  - intros cfg pid Ht%negb_true_iff%bool_decide_eq_false. by apply Stable_UpsertTenant_clear.
  - done.
  - intros ref opts _. apply Stable_meta_write; [apply _|]. intros w n m' H. apply Ok_inj in H as [= _ <-]. cbn.
    apply left_clear_fewer; [intros Hwf; by apply WF_delete_parent| |].
    + intros Hwf r [[_ Hr]%list_elem_of_filter Hk]%get_parent_elem. by apply get_parent_WF.
    + cbn. intros x [_ Hx]%list_elem_of_filter. by left.
  - intros ref pid _. apply Stable_meta_write; [apply _|]. intros w n m' H. apply Ok_inj in H as [= _ <-]. cbn.
    apply left_clear_fewer; [intros Hwf; by apply WF_delete_tenant|done|].
    cbn. intros x [_ Hx]%list_elem_of_filter. by left.
Qed.

Notation sound := (sound clearing).
#[export] Instance clearing_rely_preorder : PreOrder clearing.
Proof. split; apply _. Qed.
Definition cleared (P : string → Prop) (w : World C) : Prop := WF (meta (db w)) ∧ clear P (meta (db w)).
#[export] Instance rely_WF : Rely clearing (λ w, WF (meta (db w))).
Proof. intros w w' Hr Hw. by apply Hr. Qed.
#[export] Instance rely_cleared P : Rely clearing (cleared P).
Proof. intros w w' Hr [Hw Hc]. destruct (Hr Hw) as [? Hcl]. split; [done|by apply Hcl]. Qed.

(** Once it returns, the tenant is gone. *)
Context (Hhonest : ∀ n e, env_fault n = Some (Lost e) ∨ env_fault n = Some (Applied e) → Is e NoRows = false).
Definition tenant_gone (o : outcome unit) (w : World C) : Prop := o = Ret tt → cleared (λ _, True) w.
#[export] Instance rely_gone o : Rely clearing (tenant_gone o).
Proof. intros w w' Hr Hw Ho. eapply rely_cleared; [exact Hr|by apply Hw]. Qed.
Lemma RemoveTenant_clears ref :
  (TenantConfig.ParentSchema ref, TenantConfig.ParentName ref) = k → TenantConfig.TenantId ref = t →
  sound (λ w, WF (meta (db w))) (p_RemoveTenant ref) tenant_gone.
Proof.
  intros Hk Ht.
  assert (∀ (r : res unit) f, (∀ a, sound (λ w, WF (meta (db w))) (f a) tenant_gone) →
    sound (λ w, WF (meta (db w))) (p_lift r ≫= f) tenant_gone) as Hskip.
  { intros [a|e] f Hf; [apply Hf|]. by apply (sound_done clearing); [apply _|]. }
  unfold p_RemoveTenant. cbv zeta. do 3 (apply Hskip; intros _).
  eapply (sound_bind clearing _ _ (λ o w, match o with
    | Ret (Ok prow) => cleared (λ id, id ≠ Parent.ID prow) w
    | Ret (Err e) => Is e NoRows = true → cleared (λ _, True) w
    | _ => True end)); [|apply _| |done|done].
  - apply (sound_atom clearing); [apply _| |].
    + intros [[prow|e]|e|]; [apply _| |apply _..]. intros w w' Hr Hw He. eapply rely_cleared; [exact Hr|by apply Hw].
    + intros w o w' Hw Hrun. assert (Stable clearing (attempt (GetParentTable (TenantConfig.ParentSchema ref) (TenantConfig.ParentName ref))))
        as Hread by stable. split; [by eapply Hread|].
      apply get_parent_attempt in Hrun as (Hd & r & -> & Hr). rewrite Hk in Hr. unfold cleared. rewrite Hd.
      destruct r as [prow|e].
      * split; [done|]. intros row Hrow Hne. rewrite Hr in Hrow. by injection Hrow as <-.
      * intros He. split; [done|]. intros row Hrow. destruct Hr as [Hr|[n Hn]]; [congruence|].
        by rewrite (Hhonest n e Hn) in He.
  - intros [prow|e].
    + eapply (sound_bind clearing _ _ (λ o w, ∀ n, o = Ret n → cleared (λ _, True) w)).
      * apply (sound_atom clearing); [apply _..|]. intros w o w' [Hwf Hc] (o1 & Hrun & Ho)%wrapping_inv.
        split; [by eapply (tol_leave (R := clearing) ref (Parent.ID prow)); [|exact Hrun]|]. intros n ->.
        destruct o1 as [n1|e1|]; try done. apply meta_write_run in Hrun as [(_ & e1 & [=] & _)|(a & m' & Hu & Hd & _)].
        apply Ok_inj in Hu as [= _ <-]. unfold cleared. rewrite Hd. cbn [meta]. split; [by apply WF_delete_tenant|].
        intros row Hrow _. apply has_tenant_false. cbn [tenants delete_tenant snd].
        intros x [Hx Hin]%list_elem_of_filter. rewrite Ht in Hx.
        destruct (decide (Parent.ID row = Parent.ID prow)) as [->|Hne]; [done|].
        specialize (Hc row Hrow Hne). rewrite has_tenant_false in Hc. by apply Hc.
      * apply _.
      * intros n. apply (sound_done clearing); [apply _|]. intros w Hw _. by apply (Hw n).
      * done.
      * done.
    + destruct (Is e NoRows); apply (sound_done clearing); [apply _| |apply _|done]. intros w Hw _. by apply Hw.
Qed.

Lemma leaving_lasts calls l w0 w' ts i ref :
  WF (meta (db w0)) → Forall (λ r, enrolls r = false) calls →
  runs l (w0, p_request hook <$> calls) = Some (w', ts) → calls !! i = Some (RqRemoveTenant ref) →
  (TenantConfig.ParentSchema ref, TenantConfig.ParentName ref) = k → TenantConfig.TenantId ref = t →
  ts !! i = Some (Done (Ret tt)) → cleared (λ _, True) w'.
Proof.
  intros Hwf Hno Hrun Hi Hk Ht Hret.
  set (Q (j : nat) (o : outcome unit) (w : World C) := j = i → tenant_gone o w).
  destruct (runs_safe clearing l Q (w0, p_request hook <$> calls) (w', ts) Hrun) as [_ Hend].
  - intros j p Hj. cbn [fst snd] in *. rewrite list_lookup_fmap in Hj. destruct (calls !! j) as [r|] eqn:Hr; [|done].
    injection Hj as <-. destruct (decide (j = i)) as [->|Hne].
    + rewrite Hi in Hr. injection Hr as <-. eapply safe_weaken; [|by apply (RemoveTenant_clears ref Hk Ht)].
      intros o w Hw _. exact Hw.
    + eapply safe_weaken; [|apply (obeys_safe clearing)]; [by intros o w _ ?|].
      rewrite Forall_lookup in Hno. apply (request_obeys hook clearing (λ r, negb (enrolls r))); [done|].
      by rewrite (Hno j r Hr).
  - by apply (Hend i (Done (Ret tt)) Hret w').
Qed.
End tenant.

(** ** Any schedule *)

(** C23: a removal that returned lasts.  Whatever requests of any number of
    processes are interleaved, ticks, imports and drains that read the
    registry before the removal included, and whatever fails in them: once
    [RemoveParent] has returned nil and as long as nobody registers the parent
    again, neither the parent nor a row of it is in the metadata; once
    [RemoveTenant] has returned nil and as long as nobody registers a tenant of
    that name or imports, the parent has neither the tenant nor a partition of
    it. *)
Theorem removal_sticks {C} {E : Env C} (hook : Hook C) (calls : list request) l w0 w' ts :
  (∀ n e, env_fault n = Some (Lost e) ∨ env_fault n = Some (Applied e) → Is e NoRows = false) →
  passive hook → WF (meta (db w0)) → runs l (w0, p_request hook <$> calls) = Some (w', ts) →
  (∀ i ref opts, let k := (ParentRef.SchemaName ref, ParentRef.TableName ref) in
     calls !! i = Some (RqRemoveParent ref opts) → ts !! i = Some (Done (Ret tt)) →
     Forall (λ r, registers k r = false) calls →
     get_parent k (meta (db w')) = Err NoRows ∧
     ∀ r, r ∈ partitions (meta (db w')) → ∃ row, row ∈ parent_tables (meta (db w')) ∧
       Parent.ID row = Partition.ParentTableID r ∧ Parent.key row ≠ k) ∧
  (∀ i ref, let k := (TenantConfig.ParentSchema ref, TenantConfig.ParentName ref) in
     let t := TenantConfig.TenantId ref in
     calls !! i = Some (RqRemoveTenant ref) → ts !! i = Some (Done (Ret tt)) →
     Forall (λ r, enrolls t r = false) calls →
     ∀ row, get_parent k (meta (db w')) = Ok row →
       has_tenant (Parent.ID row) t (meta (db w')) = false ∧
       ∀ r, r ∈ partitions (meta (db w')) → Partition.owner r ≠ (Parent.ID row, Some t)).
Proof.
  intros Hhonest Hhook Hwf Hrun.
  assert (WF (meta (db w'))) as Hwf'.
  { enough (meta_steps w0 w') as Hs by (by eapply WF_statements).
    apply (runs_obeys meta_steps l (w0, p_request hook <$> calls) (w', ts) Hrun).
    intros p (r & -> & _)%list_elem_of_fmap. by apply (request_obeys hook meta_steps (λ _, true)). }
  split.
  - intros i ref opts k Hi Hret Hno.
    assert (get_parent k (meta (db w')) = Err NoRows) as Hg by by eapply removal_lasts.
    split; [done|]. intros r Hr. apply (wf_parents _ Hwf') in Hr.
    apply has_parent_true in Hr as (row & Hrow & Hid). exists row. split_and!; [done..|].
    rewrite get_parent_none in Hg. by apply Hg.
  - intros i ref k t Hi Hret Hno row Hrow.
    assert (cleared k t (λ _, True) w') as [_ Hc] by by apply (leaving_lasts hook Hhook k t Hhonest calls l w0 w' ts i ref).
    specialize (Hc row Hrow I). split; [done|]. intros r Hr [= Hp Ht]. apply (wf_tenants _ Hwf') in Hr.
    rewrite trigger_ok_true in Hr. specialize (Hr t Ht). rewrite Hp, Hc in Hr. done.
Qed.

(** ** Examples *)

(** A tick and an import are at work when the parent is removed and registered
    under another name; meanwhile a tenant of a second parent leaves. *)
Definition org_events : Parent.row :=
  Parent.mk "P2" "app" "visits" (Some "org") "created_at" "range" "daily" thirty_days false None true 2.
Definition leaving_meta : Meta := mkMeta [events None "daily" thirty_days 2; org_events] [Tenant.mk "acme" "P2"] [].
Definition visits_acme : TenantConfig.t := TenantConfig.mk "app" "visits" "acme".
Definition leavers : list request :=
  [RqMaintain; RqRemoveParent app_events []; RqRemoveTenant visits_acme; RqRegisterParent audit_config; RqMaintain].
Definition leavers_start : World (list string) * list (proc (list string) unit) :=
  (start leaving_meta, p_request (E := catalogued) None <$> leavers).
Definition leavers_schedule : list nat := Eval vm_compute in robin 500 [0; 1; 0; 2; 0; 3; 4]%nat leavers_start.
Definition leavers_done (r : option (World (list string) * list (proc (list string) unit))) : bool :=
  match r with
  | Some (w', [Done _; Done (Ret tt); Done (Ret tt); Done (Ret tt); Done _]) =>
      bool_decide (Parent.TableName <$> parent_tables (meta (db w')) = ["visits"; "audit"])
  | _ => false
  end.
Lemma leaving_WF : WF leaving_meta.
Proof.
  apply (WF_statements empty_Meta); [exact WF_empty|].
  eapply rtc_l; [apply (step_upsert_parent (events None "daily" thirty_days 2) (events None "daily" thirty_days 2)); reflexivity|].
  eapply rtc_l; [apply (step_upsert_parent org_events org_events); reflexivity|].
  apply rtc_once, (step_upsert_tenant (Tenant.mk "acme" "P2") 1). reflexivity.
Qed.
Lemma removal_sticks_witness :
  match runs leavers_schedule leavers_start with
  | Some (w', ts) => leavers_done (Some (w', ts)) = true ∧ get_parent ("app", "events") (meta (db w')) = Err NoRows ∧
      ∀ row, get_parent ("app", "visits") (meta (db w')) = Ok row →
        has_tenant (Parent.ID row) "acme" (meta (db w')) = false
  | None => False
  end.
Proof.
  assert (leavers_done (runs leavers_schedule leavers_start) = true) as Hs by (vm_compute; reflexivity).
  destruct (runs leavers_schedule leavers_start) as [[w' ts]|] eqn:Hrun; [|discriminate Hs].
  destruct (removal_sticks (E := catalogued) None leavers leavers_schedule (start leaving_meta) w' ts
    ltac:(by intros n e [[=]|[=]]) passive_None leaving_WF Hrun) as [Hp Ht].
  split; [exact Hs|].
  destruct ts as [|[o|] [|[[[]|e|]|] [|[[[]|e1|]|] ts]]]; try discriminate Hs. split.
  - exact (proj1 (Hp 1%nat app_events [] eq_refl eq_refl ltac:(repeat constructor))).
  - intros row Hrow. exact (proj1 (Ht 2%nat visits_acme eq_refl eq_refl ltac:(repeat constructor) row Hrow)).
Defined.
