(* ===== verification/Ticking.v ===== *)
(** * What a tick provides next to others

    A tick of [Concurrent] whose atoms alternate with those of other ticks,
    calls of [EnsurePartitions] and sweeps.  When no statement fails, it
    returns, and every parent under automatic maintenance has its target sets,
    but for those whose lock somebody else held: these it counts as skipped. *)

From S2P Require Import Prelude GoTime GoStrings Errs TimeFormat Naming Periods Store World Logic Repo Retry Scenario Provisioner Ensure Retention Sweep Registry Registration Removal AdvisoryLock Maintainer Maintenance Manager Upkeep Interleave Concurrent Requests Alongside Together.
Local Open Scope string_scope.
Local Open Scope Z_scope.

(** ** The meter *)

#[export] Instance metered_tolerant {C} {E : Env C} : Tolerant metered (λ _, true).
Proof.
  split; try apply _; intros; unfold UpsertTenant, UpsertParentTable, DeleteParentTable, DeleteTenant, UpsertPartition, Exec, Call;
    try (apply Stable_meta_write; [apply _|]); try (apply Stable_statement; [apply _|]); by unfold metered.
Qed.

#[export] Instance ParentInfo_eq_dec : EqDecision ParentInfo.t.
Proof. solve_decision. Defined.

Section ticking.
Context {C : Type} {E : Env C} {L : EnvLaws E}.
Context (Hids : ∀ i j, env_ulid i = env_ulid j → i = j).
Context (w0 : World C) (Hmt : maintainable w0) (Hun : unexpired w0).
Context (hook : Hook C) (Hhook : passive hook).
(** Nothing fails; the lock statement answers, whatever it answers. *)
Context (Hcalm : calm_run (E := E)) (Hctx : ∀ n, env_ctx n = None).
Context (Hlock : ∀ s schema table c, ∃ b c', pg_call s try_lock_sql [VText schema; VText table] c = Ok ([VBool b], c')).

Notation inv := (healthy (pair w0) w0).
Notation R := (both (step w0) metered).
Notation does := (does R).
#[local] Instance inv_standing : Standing w0 inv := healthy_standing w0 Hmt Hun.

(** ** Assertions the others respect *)

Section since.
(** The interactions and the events of the meter before the tick. *)
Context (t : nat) (l0 : list event).
Definition since (w : World C) : Prop := inv w ∧ (t <= tick w)%nat ∧ l0 `prefix_of` trace w.
#[export] Instance rely_since_both : Rely R since.
Proof.
  intros w w' [Hs Hl] (Hi & Ht & Hp). destruct (rely_since w0 inv t w w' Hs (conj Hi Ht)) as [? ?].
  split_and!; [done..|]. unfold metered in Hl. by etrans.
Qed.

(** The target set of a pair is there. *)
Definition provides (row : Parent.row) (tenant : option string) (w : World C) : Prop :=
  ∀ k, pair w0 row tenant → parseIntervalLabel (Parent.PartitionInterval row) = Ok k → provided row tenant k t w.
(** The target sets of [ts] are there. *)
Definition served (row : Parent.row) (ts : list (option string)) (w : World C) : Prop :=
  since w ∧ ∀ tenant, tenant ∈ ts → provides row tenant w.
#[export] Instance rely_served row ts : Rely R (served row ts).
Proof.
  intros w w' Hr [Hs Hts]. split; [by eapply rely_since_both|]. intros tenant Hin k Hp Hk.
  destruct Hr as [Hr _]. pose proof Hs as [Hi _].
  by apply (rely_provided w0 Hmt Hun row tenant k Hp Hk t w w' Hr (conj Hi (Hts tenant Hin k Hp Hk))).
Qed.
(** An event of the tick. *)
Definition emitted (e : event) (w : World C) : Prop := ∃ l, trace w = (l0 ++ l)%list ∧ e ∈ l.
Lemma rely_emitted e w w' : R w w' → emitted e w → emitted e w'.
Proof.
  intros [_ [l' Hl']] (l & Hl & He). exists (l ++ l')%list. rewrite Hl', Hl, app_assoc.
  split; [done|]. apply elem_of_app. by left.
Qed.
Definition lock_skipped (row : Parent.row) : event :=
  Counter "partman.lock_skipped_total" 1 ["parent"; parentLabel (parentInfoFromRow row)].
(** The parent got its tick. *)
Definition attended (row : Parent.row) (w : World C) : Prop :=
  (∀ tenant, provides row tenant w) ∨ emitted (lock_skipped row) w.
Definition all_attended (rows : list Parent.row) (w : World C) : Prop :=
  since w ∧ ∀ row, row ∈ rows → attended row w.
#[export] Instance rely_attended rows : Rely R (all_attended rows).
Proof.
  intros w w' Hr [Hs Hrows]. split; [by eapply rely_since_both|]. intros row Hrow. destruct (Hrows row Hrow) as [Hp|He].
  - left. intros tenant. destruct (rely_served row [tenant] w w' Hr) as [_ Hp']; [|apply Hp'; by left].
    split; [done|]. by intros ? ->%list_elem_of_singleton.
  - right. by eapply rely_emitted.
Qed.

(** ** The parts of a tick *)

Lemma ensure_does row tenant :
  pair w0 row tenant → does since (p_EnsurePartitions (ref_row row) tenant) (λ _, served row [tenant]).
Proof.
  intros Hp. pose proof Hp as (Hrow & Hauto & _). destruct (mt_kind w0 Hmt row Hrow Hauto) as (_ & _ & k & Hk).
  eapply (sound_weaken R); [apply (sound_frame R since), sound_both| | |intros o; apply Rely_returned; apply _].
  - by apply (EnsurePartitions_sound Hids w0 Hmt Hun row tenant k Hp Hk t).
  - apply (EnsurePartitions_obeys metered (λ _, true)).
  - intros w Hw. split; [|done]. by destruct Hw as (? & ? & _).
  - intros [a|e|] w [[_ Hpost] Hw]; [|by destruct (Hpost Hcalm)..]. split; [done|].
    intros ? ->%list_elem_of_singleton k' _ Hk'. by replace k' with k by congruence.
Qed.

Lemma ensure_for_does row ts created tenant :
  pair w0 row tenant →
  does (served row ts) (p_ensure_for (ref_row row) created tenant) (λ _, served row (ts ++ [tenant])).
Proof.
  intros Hp. unfold p_ensure_for. eapply (does_bind R _ _ (λ r w, served row (ts ++ [tenant]) w ∧ ∃ a, r = Ok a)); [|apply _|].
  - eapply (does_attempt R _ _ (λ _, served row (ts ++ [tenant]))); [intros r; apply _| |by intros a w Hw; split; [exact Hw|eexists]].
    eapply (sound_weaken R); [apply (sound_frame R (served row ts)), (ensure_does row tenant Hp)|..|intros o; apply Rely_returned; apply _].
    + intros w Hw. split; [apply Hw|exact Hw].
    + intros [a|e|] w [Hw Hts]; [|done..]. split; [apply Hts|]. intros t' [Hin|Hin]%elem_of_app; [by apply Hts|by apply Hw].
  - intros [rep|e]; [apply (does_ret R); [apply _|by intros w []]|].
    apply (sound_pure R False); [intros o; apply Rely_returned; apply _|by intros w [_ [a [=]]]|done].
Qed.

Lemma ListTenants_does row :
  row ∈ parent_tables (meta (db w0)) → Parent.AutomaticMaintenance row = true →
  does since (p_ListTenants (ref_row row))
    (λ l w, since w ∧ ∀ t, t ∈ TenantConfig.TenantId <$> l ↔ t ∈ tenants_of row (meta (db w0))).
Proof.
  intros Hrow Hauto. destruct (mt_kind w0 Hmt row Hrow Hauto) as (Hw1 & Hw2 & _). destruct Hcalm as [HQ _].
  unfold p_ListTenants. cbn [ref_row ParentRef.SchemaName ParentRef.TableName].
  rewrite !validateIdentifier_word by done.
  eapply (does_bind R _ _ (λ r w, since w ∧ r = Ok row)); [|apply _|].
  - apply (does_waits R); [apply _|intros r; apply _|unfold GetParentTable; stable|].
    intros w o w' [Hi _] Hw' Hrun. destruct (read_parent w0 inv _ _ _ _ _ Hi Hrun) as (_ & r & -> & Hr). exists r. split; [done|]. split; [done|].
    pose proof (healthy_get _ _ _ row (healthy_start _ Hmt) Hrow) as Hg. unfold Parent.key in Hg. rewrite Hg in Hr.
    destruct r; [congruence|]. by destruct Hr as [[_ [=]]|].
  - intros r. apply (sound_pure R (r = Ok row)); [intros o; apply Rely_returned; intros a; apply _|by intros w []|]. intros ->.
    eapply (does_bind R _ _ (λ l w, since w ∧ ∀ t, t ∈ Tenant.ID <$> l ↔ t ∈ tenants_of row (meta (db w0)))); [|intros a; apply _|].
    + eapply (sound_weaken R since); [|by intros w []|intros o w H; exact H|intros o; apply Rely_returned; intros a; apply _].
      apply (does_waits R); [apply _|intros a; apply _|unfold ListTenantsForParent; stable|].
      intros w o w' [Hi _] Hw' Hrun. unfold wrapping, ListTenantsForParent in Hrun. rewrite quiet_meta_read in Hrun.
      injection Hrun as <- <-. eexists. split; [done|]. split; [done|]. intros t'.
      unfold tenants_of, list_tenants. cbn [tenants]. by rewrite merge_sort_Permutation, env_scan_perm, (healthy_tenants _ _ _ Hi).
    + intros l. apply (does_ret R); [intros a; apply _|]. intros w [Hw Hl]. split; [done|]. intros t'. rewrite <- Hl.
      change (map ?f ?l) with (f <$> l). by rewrite <- list_fmap_compose.
Qed.

Lemma ensure_all_does row :
  row ∈ parent_tables (meta (db w0)) → Parent.AutomaticMaintenance row = true →
  does since (p_ensure_all (parentInfoFromRow row)) (λ _, served row (owners row (meta (db w0)))).
Proof.
  intros Hrow Hauto. unfold p_ensure_all. cbn [ParentInfo.TenantColumn parentInfoFromRow].
  change (ref_of (parentInfoFromRow row)) with (ref_row row).
  assert (∀ t, t ∈ owners row (meta (db w0)) → pair w0 row t) as Hpair by (intros t' Ht; by split_and!).
  assert (hasTenantCol row = negb (bool_decide (optionalTextValue (Parent.TenantColumn row) = ""))) as Hcol.
  { unfold hasTenantCol. by destruct (Parent.TenantColumn row). }
  assert (∀ w, since w → served row [] w) as Hnil by (intros w Hw; split; [done|]; by intros ? ?%not_elem_of_nil).
  unfold owners in *. rewrite Hcol in *. case_bool_decide; cbn [negb] in *.
  - eapply (sound_weaken R); [apply (ensure_for_does row [] _ None)|exact Hnil|by intros o w H'|intros o; apply Rely_returned; apply _].
    apply Hpair. by left.
  - set (K (l : list TenantConfig.t) := ∀ t, t ∈ TenantConfig.TenantId <$> l ↔ t ∈ tenants_of row (meta (db w0))).
    eapply (does_bind R _ _ (λ r w, since w ∧ ∃ l, r = Ok l ∧ K l)); [|apply _|].
    { eapply (does_attempt R); [intros r; apply _|by apply ListTenants_does|]. intros l w [Hw Hl]. split; [done|]. by exists l. }
    intros r. apply (sound_pure R (∃ l, r = Ok l ∧ K l)); [intros o; apply Rely_returned; apply _|by intros w []|].
    intros (l & -> & Hl). eapply (does_weaken R).
    + apply (does_foldM R (λ (done : list TenantConfig.t) (_ : Z * bool), served row ((λ tn, Some (TenantConfig.TenantId tn)) <$> done)));
        [intros; apply _|]. intros done tn created Htn. rewrite fmap_app. apply ensure_for_does, Hpair, list_elem_of_fmap_2, Hl.
      by apply list_elem_of_fmap_2.
    + intros w [Hw _]. by apply Hnil.
    + intros c w [Hw Hts]. split; [done|]. intros t' (u & -> & (tn & -> & Hu)%Hl%list_elem_of_fmap)%list_elem_of_fmap.
      apply Hts, list_elem_of_fmap. by exists tn.
    + intros; apply _.
Qed.

(** Whatever the hook does to the sweep, the target sets are there. *)
Definition unless_fails {A} (P : World C → Prop) (o : outcome A) (w : World C) : Prop :=
  match o with Fail _ => False | _ => P w end.
#[export] Instance rely_unless_fails {A} P (o : outcome A) : Rely R P → Rely R (unless_fails P o).
Proof. intros HP. destruct o; done || apply Rely_pure. Qed.

Lemma process_locked_sound row :
  row ∈ parent_tables (meta (db w0)) → Parent.AutomaticMaintenance row = true →
  sound R since (p_process_locked hook (parentInfoFromRow row)) (unless_fails (served row (owners row (meta (db w0))))).
Proof.
  intros Hrow Hauto. set (mine := served row (owners row (meta (db w0)))). unfold p_process_locked.
  eapply (sound_bind R); [by apply ensure_all_does|intros o; apply _|intros created; cbn [returned]|done|done].
  eapply (sound_bind R _ _ (unless_fails mine)); [|intros o; apply _| |done|done].
  - eapply (sound_attempt R _ _ (λ _, mine)); [|intros o; apply _|done..].
    eapply (sound_weaken R); [apply (sound_frame R mine), sound_both| |by intros o w []|intros o; apply _].
    + by apply (Sweep_keep w0 inv hook Hhook).
    + by apply (Sweep_obeys hook metered (λ _, true)).
    + intros w Hw. split; [apply Hw|exact Hw].
  - intros r. cbn [unless_fails].
    assert (does mine (atom Now ;; atom (emit (Counter "partman.parents_processed_total" 1
      ["parent"; parentLabel (parentInfoFromRow row)])) ;; mret parentResultProcessed) (λ _, mine)) as Hend.
    { eapply (does_bind R _ _ (λ _, mine)); [|apply _|intros _].
      { apply (does_waits R); [apply _..|stable|]. intros w o w' _ Hw [= <- <-]. by eexists. }
      eapply (does_bind R _ _ (λ _, mine)); [|apply _|intros _; by apply (does_ret R); [apply _|]].
      apply (does_waits R); [apply _..|stable|]. intros w o w' _ Hw [= <- <-]. by eexists. }
    eapply (sound_weaken R); [exact Hend|done|by intros [a|e|] w|intros o; apply _].
Qed.

(** A statement of the lock: no table changes. *)
Lemma catalog_step w w' : same_meta w w' → ticks w w' → step w0 w w'.
Proof.
  intros Hs Ht. split; [done|]. intros Hi. split; [by eapply healthy_same|].
  apply grown_same. unfold rows_of. unfold same_meta, on_db in Hs. by rewrite Hs.
Qed.
Lemma sound_catalog {A} P `{!Rely R P} (m : M C A) Q `{!∀ o, Rely R (Q o)} :
  Stable same_meta m → Stable ticks m → Stable metered m →
  (∀ w o w', P w' → m w = (o, w') → Q o w') → sound R P (atom m) Q.
Proof.
  intros Hm Ht Hl HQ. apply (sound_atom R); [done..|]. intros w o w' Hw Hrun.
  assert (R w w') as Hr by (split; [apply catalog_step; [by eapply Hm|by eapply Ht]|by eapply Hl]).
  split; [done|]. apply (HQ w); [|done]. by eapply rely.
Qed.
Lemma TryLock_does schema table : does since (p_poolLocker_TryLock schema table) (λ _, since).
Proof.
  destruct Hcalm as [HQ _]. unfold p_poolLocker_TryLock.
  eapply (does_bind R _ _ (λ _, since)); [|apply _|intros conn].
  { apply (does_waits R); [apply _..|stable|]. intros w o w' _ Hw Hrun. unfold wrapping, Acquire in Hrun.
    revert Hrun. run_unfold. rewrite HQ. intros [= <- <-]. by eexists. }
  eapply (does_bind R _ _ (λ _, since)); [|apply _|].
  - apply sound_catalog; [apply _|intros o; apply _|..]; unfold TryLock.
    1-3: stable; apply Stable_Call_meta || apply Stable_statement_ticks || by apply (tol_call (R := metered)).
    intros w o w' Hw Hrun. unfold wrapping, Call in Hrun.
    destruct (Hlock conn schema table (catalog (db w))) as (b & c' & Hb).
    erewrite bind_Ret in Hrun by (rewrite quiet_statement, Hb; reflexivity). by injection Hrun as <- <-.
  - intros []; cbn [negb]; by apply (does_ret R); [apply _|].
Qed.
Lemma release_sound schema table conn P :
  Rely R P → sound R P (atom (release schema table conn)) (λ o w, o ≠ Panic ∧ P w).
Proof.
  intros HP. destruct Hcalm as [HQ _]. apply sound_catalog; [done|intros o; apply _|..]; unfold release, Unlock.
  1-3: stable; apply Stable_Call_meta || apply Stable_statement_ticks || by apply (tol_call (R := metered)).
  intros w o w' Hw Hrun. destruct (release_runs conn schema table w) as (w2 & Hrun' & _).
  unfold Unlock in Hrun'. rewrite Hrun in Hrun'. by injection Hrun' as -> ->.
Qed.

Lemma served_attended row w : served row (owners row (meta (db w0))) w → all_attended [row] w.
Proof.
  intros [Hw Hts]. split; [done|]. intros ? ->%list_elem_of_singleton. left. intros tenant k Hp Hk.
  apply Hts; [apply Hp|done|done].
Qed.
Lemma emit_does P e Q `{!Rely R P, !Rely R Q} :
  (∀ w, P w → Q (mkWorld (db w) (tick w) (trace w ++ [e]))) → does P (atom (emit e)) (λ _, Q).
Proof.
  intros HQ. apply (does_waits R); [apply _..|stable|]. intros w o w' Hw _ [= <- <-]. eexists. split; [done|by apply HQ].
Qed.
Lemma Now_does P `{!Rely R P} : does P (atom Now) (λ _, P).
Proof. apply (does_waits R); [apply _..|stable|]. intros w o w' _ Hw [= <- <-]. by eexists. Qed.
Lemma emitted_now e w : since w → emitted e (mkWorld (db w) (tick w) (trace w ++ [e])).
Proof.
  intros (_ & _ & [l Hl]). exists (l ++ [e])%list. cbn. rewrite Hl, app_assoc. split; [done|].
  apply elem_of_app. right. by apply list_elem_of_singleton.
Qed.
Lemma since_emit e w : since w → since (mkWorld (db w) (tick w) (trace w ++ [e])).
Proof.
  intros Hw. assert (waits w (mkWorld (db w) (tick w) (trace w ++ [e]))) as Hwaits by waiting.
  eapply rely_since_both; [by apply course_waits|done].
Qed.

Lemma processParent_does row :
  row ∈ parent_tables (meta (db w0)) → Parent.AutomaticMaintenance row = true →
  does since (p_processParent hook (parentInfoFromRow row)) (λ _, all_attended [row]).
Proof.
  intros Hrow Hauto. unfold p_processParent. cbv zeta. set (mine := served row (owners row (meta (db w0)))).
  eapply (does_bind R _ _ (λ _, since)); [by apply Now_does, _|apply _|intros _].
  eapply (does_recovering R) with (T := mine); [apply _| |].
  - eapply (sound_bind R _ _ (returned (λ r w, since w ∧ ∃ l, r = Ok l))); [| |intros r|done|done].
    + apply (does_attempt R _ _ (λ _, since)); [intros r; apply _|apply TryLock_does|]. intros l w Hw. split; [done|by eexists].
    + intros [a|e|]; apply _.
    + apply (sound_pure R (∃ l, r = Ok l)); [intros [a|e|]; apply _|by intros w []|]. intros [lock ->].
      eapply (sound_weaken R since); [|by intros w []|intros o w Hw; exact Hw|intros [a|e|]; apply _].
      destruct lock as [conn|].
      * eapply (sound_weaken R); [apply (sound_deferring R _ _ _ (unless_fails mine))|done| |intros [a|e|]; apply _].
        -- by apply process_locked_sound.
        -- intros o. apply release_sound, _.
        -- intros [a|e|] w Hw; [by apply served_attended|done|done].
      * assert (does since (atom (emit (lock_skipped row)) ;; mret parentResultLocked) (λ _, all_attended [row])) as Hskip.
        { eapply (does_bind R _ _ (λ _, all_attended [row])); [|apply _|intros _; by apply (does_ret R); [apply _|]].
          apply emit_does; [apply _..|]. intros w Hw. split; [by apply since_emit|].
          intros ? ->%list_elem_of_singleton. right. by apply emitted_now. }
        eapply (sound_weaken R); [exact Hskip|done|by intros [a|e|] w|intros [a|e|]; apply _].
  - eapply (does_bind R _ _ (λ _, mine)); [apply emit_does; [apply _..|]|apply _|].
    + intros w Hw. assert (waits w (mkWorld (db w) (tick w)
        (trace w ++ [Counter "partman.parents_panicked_total" 1 ["parent"; parentLabel (parentInfoFromRow row)]]))) as Hwaits by waiting.
      eapply rely_served; [by apply course_waits|done].
    + intros _. apply (does_ret R); [apply _|]. apply served_attended.
Qed.

Lemma info_inj row row' :
  row ∈ parent_tables (meta (db w0)) → row' ∈ parent_tables (meta (db w0)) →
  parentInfoFromRow row = parentInfoFromRow row' → row = row'.
Proof.
  intros H1 H2 Hi. apply (NoDup_fmap_elem_eq Parent.key _ row row' (wf_parent_keys _ (mt_wf _ Hmt)) H1 H2).
  unfold Parent.key. by injection Hi as -> -> _.
Qed.
(** The parents under automatic maintenance. *)
Definition automatic : list Parent.row := filter Parent.AutomaticMaintenance (parent_tables (meta (db w0))).
Lemma automatic_elem row :
  row ∈ automatic ↔ row ∈ parent_tables (meta (db w0)) ∧ Parent.AutomaticMaintenance row = true.
Proof. unfold automatic. rewrite list_elem_of_filter, Is_true_true. by rewrite (comm (∧)). Qed.

Lemma maintain_one_does rows c row :
  row ∈ parent_tables (meta (db w0)) →
  does (all_attended rows) (p_maintain_one hook c (parentInfoFromRow row))
    (λ _, all_attended (rows ++ filter Parent.AutomaticMaintenance [row])).
Proof.
  intros Hrow. unfold p_maintain_one.
  eapply (does_bind R _ _ (λ r w, all_attended rows w ∧ r = None)); [|apply _|].
  { apply (does_waits R); [apply _|intros r; apply _|stable|]. intros w o w' _ Hw [= <- <-]. eexists. by rewrite Hctx. }
  intros r. apply (sound_pure R (r = None)); [intros [a|e|]; apply _|by intros w []|]. intros ->.
  cbn [ParentInfo.AutomaticMaintenance parentInfoFromRow]. rewrite filter_cons, filter_nil.
  destruct (Parent.AutomaticMaintenance row) eqn:Hauto; cbn [negb]; case_decide as Hd; try done.
  - eapply (does_bind R _ _ (λ _, all_attended (rows ++ [row]))); [|apply _|intros result; by apply (does_ret R); [apply _|]].
    eapply (sound_weaken R); [apply (sound_frame R (all_attended rows)), (processParent_does row Hrow Hauto)|..|intros [a|e|]; apply _].
    + intros w [Hw _]. split; [apply Hw|exact Hw].
    + intros [a|e|] w [Hrow' Hrows]; [|done..]. split; [apply Hrows|].
      intros row' [Hin|Hin]%elem_of_app; [by apply Hrows|by apply Hrow'].
  - apply (does_ret R); [apply _|]. intros w [Hw _]. by rewrite app_nil_r.
Qed.

Lemma ListParents_does :
  does since (atom (wrapping "maintainer: list parents: %w" ListParents))
    (λ l w, since w ∧ ∃ rows, l = parentInfoFromRow <$> rows ∧ ∀ row, row ∈ rows ↔ row ∈ parent_tables (meta (db w0))).
Proof.
  destruct Hcalm as [HQ _]. apply (does_waits R); [apply _|intros l; apply _|unfold ListParents, ListParentTables; stable|].
  intros w o w' [Hi _] Hw' Hrun. unfold wrapping, ListParents, ListParentTables in Hrun.
  erewrite bind_Ret in Hrun by (apply wrapping_Ret; rewrite quiet_meta_read; reflexivity).
  injection Hrun as <- <-. eexists. split; [done|]. split; [done|]. eexists. split; [done|]. intros row.
  unfold list_parents. cbn [parent_tables]. by rewrite merge_sort_Permutation, env_scan_perm, (healthy_parents _ _ _ Hi).
Qed.

Lemma Maintain_does : does since (p_Maintain hook) (λ _, all_attended automatic).
Proof.
  unfold p_Maintain. eapply (does_bind R _ _ (λ _, since)); [by apply Now_does, _|apply _|intros _].
  set (K (l : list ParentInfo.t) := ∃ rows : list Parent.row, l = parentInfoFromRow <$> rows ∧ ∀ row, row ∈ rows ↔ row ∈ parent_tables (meta (db w0))).
  eapply (does_bind R _ _ (λ l w, since w ∧ K l)); [apply ListParents_does|apply _|].
  intros l. apply (sound_pure R (K l)); [intros [a|e|]; apply _|by intros w []|]. intros (rows & -> & Hrows).
  eapply (does_bind R _ _ (λ _, since)); [|apply _|intros start].
  { eapply (does_weaken R); [by apply Now_does, rely_since_both|by intros w []|done|apply _]. }
  eapply (does_bind R _ _ (λ _, all_attended automatic)); [|apply _|intros c].
  - eapply (does_weaken R).
    + apply (does_foldM R (λ done (_ : Counts), all_attended (filter (λ row, parentInfoFromRow row ∈ done) automatic)));
        [intros; apply _|]. intros done p c (row & -> & Hrow%Hrows)%list_elem_of_fmap.
      eapply (does_weaken R); [by apply maintain_one_does|done| |intros; apply _].
      intros c' w [Hw Hall]. split; [done|]. intros row' [Hin Ha]%list_elem_of_filter. apply Hall.
      pose proof Ha as [Hp Hauto]%automatic_elem. apply elem_of_app. apply elem_of_app in Hin as [Hin|Hin]; [left|right].
      * by apply list_elem_of_filter.
      * apply list_elem_of_singleton, info_inj in Hin as ->; [|done..]. apply list_elem_of_filter.
        split; [by rewrite Hauto|by left].
    + intros w Hw. split; [done|]. by intros row [?%not_elem_of_nil _]%list_elem_of_filter.
    + intros c w [Hw Hall]. split; [done|]. intros row Hrow. apply Hall, list_elem_of_filter. split; [|done].
      apply list_elem_of_fmap. exists row. split; [done|]. by apply Hrows, automatic_elem.
    + intros; apply _.
  - eapply (does_bind R _ _ (λ _, all_attended automatic)); [by apply Now_does, _|apply _|intros now].
    assert (∀ e w, all_attended automatic w → all_attended automatic (mkWorld (db w) (tick w) (trace w ++ [e]))) as Hemit.
    { intros e w Hw. assert (waits w (mkWorld (db w) (tick w) (trace w ++ [e]))) as Hwaits by waiting.
      eapply rely_attended; [by apply course_waits|done]. }
    eapply (does_bind R _ _ (λ _, all_attended automatic)); [apply emit_does; [apply _..|apply Hemit]|apply _|intros _].
    apply emit_does; [apply _..|apply Hemit].
Qed.
End since.
End ticking.
