(* ===== verification/Daemon.v ===== *)
(** * The maintenance loop at work

    [Manager.Start] and [Manager.Stop] ([manager.go], [maintainer.go]): the
    goroutines of [Scheduler], each tick of which runs the atoms of a
    [p_Maintain] of [Concurrent], next to each other and to the calls of
    anybody else on the same data base. *)

From S2P Require Import Prelude GoTime GoStrings Errs TimeFormat Naming Periods Store World Logic Repo Retry Scenario Provisioner Ensure Retention Sweep Registry Registration Removal AdvisoryLock Maintainer Maintenance Importer Import Drain Manager Scheduler Scheduling SchedulerSpec SchedulerRest Upkeep Interleave Concurrent Requests Alongside Together Ticking.
From stdpp Require Import gmap.
Local Open Scope string_scope.
Local Open Scope Z_scope.

(** ** States and steps *)

Section daemon.
Context {C : Type} {E : Env C} (hook : Hook C).

(** A [Maintain] in flight: what is left of it, and the interactions and the
    events of the meter before it. *)
Record pass := mkPass { began : nat; before : list World.event; body : proc C unit }.
(** [passes]: the [Maintain] of each loop that is in one.  [calls]: whoever
    else is at work on the data base. *)
Record daemon := mkDaemon {
  sched : scheduler;
  world : World C;
  passes : gmap nat pass;
  calls : list (proc C unit)
}.
Definition newDaemon (w : World C) (cs : list (proc C unit)) : daemon := mkDaemon newScheduler w ∅ cs.

(** A step of the scheduler's goroutines, of the [Maintain] of loop [i], of the
    call [j]. *)
Inductive action := Sched (l : label) | Work (i : nat) | Other (j : nat).

(** [func (m *Impl) Start(ctx) error], [func (m *Impl) Stop(ctx) error] *)
Definition Impl_Start : label := CallStart.
Definition Impl_Stop : label := CallStop.
(** [func (m *Manager) Start(ctx) error], [func (m *Manager) Stop(ctx) error] *)
Definition Manager_Start : action := Sched Impl_Start.
Definition Manager_Stop : action := Sched Impl_Stop.

(** The loop that enters [Maintain] in a step, and the one that leaves it. *)
Definition entering (l : label) : option nat := match l with Step i TakeTick => Some i | _ => None end.
Definition leaving (l : label) (s : scheduler) : option nat :=
  match l with
  | Step i Next => match threads s !! i with Some (LoopMaintain _ _) => Some i | _ => None end
  | _ => None
  end.
Definition launch (l : label) (w : World C) (m : gmap nat pass) : gmap nat pass :=
  match entering l with Some i => <[i := mkPass (tick w) (trace w) (p_Maintain hook)]> m | None => m end.

(** The loop logs the error of a [Maintain] and goes on; nothing recovers a
    panic of it. *)
Definition daemon_act (a : action) (d : daemon) : option daemon :=
  if panicked (sched d) then None
  else match a with
       | Sched l =>
           match leaving l (sched d) with
           | Some i =>
               p ← passes d !! i;
               match body p with
               | Atom _ _ => None
               | Done Panic => Some (mkDaemon (crash (sched d)) (world d) (passes d) (calls d))
               | Done _ => s' ← exec l (sched d); Some (mkDaemon s' (world d) (delete i (passes d)) (calls d))
               end
           | None => s' ← exec l (sched d); Some (mkDaemon s' (world d) (launch l (world d) (passes d)) (calls d))
           end
       | Work i =>
           p ← passes d !! i;
           match body p with
           | Done _ => None
           | Atom m k =>
               let '(o, w') := m (world d) in
               Some (mkDaemon (sched d) w' (<[i := mkPass (began p) (before p) (k o)]> (passes d)) (calls d))
           end
       | Other j =>
           s' ← turn j (world d, calls d);
           Some (mkDaemon (sched d) s'.1 (passes d) s'.2)
       end.

(** Runs in which the clients do what [ok] allows. *)
Definition permitted (ok : label → scheduler → bool) (a : action) (d : daemon) : bool :=
  match a with Sched l => ok l (sched d) | _ => true end.
Fixpoint drive (ok : label → scheduler → bool) (l : list action) (d : daemon) : option daemon :=
  match l with
  | [] => Some d
  | a :: l => if permitted ok a d then d' ← daemon_act a d; drive ok l d' else None
  end.
Definition anyhow (l : label) (s : scheduler) : bool := true.
(** What the scheduler sees of it. *)
Definition labels (l : list action) : list label := omap (λ a, match a with Sched x => Some x | _ => None end) l.

(** ** Loops and passes *)

Definition maintaining (o : option thread) : bool := match o with Some (LoopMaintain _ _) => true | _ => false end.

Lemma maintaining_goto s i t t' x :
  threads s !! i = Some t →
  maintaining (<[i := t']> (threads s) !! x) = if decide (x = i) then maintaining (Some t') else maintaining (threads s !! x).
Proof.
  intros Hi. case_decide as Hx; [subst x|by rewrite list_lookup_insert_ne].
  by rewrite list_lookup_insert_eq by by eapply lookup_lt_Some.
Qed.
Lemma maintaining_app (l : list thread) t (x : nat) : maintaining (Some t) = false → maintaining ((l ++ [t])%list !! x) = maintaining (l !! x).
Proof.
  intros Ht. rewrite lookup_app. destruct (l !! x); [done|].
  destruct ([t] !! (x - length l)%nat) as [y|] eqn:Hy; [|done]. by apply list_lookup_singleton_Some in Hy as [_ <-].
Qed.
Lemma maintaining_wake (l : list thread) (x : nat) : maintaining ((wake <$> l) !! x) = maintaining (l !! x).
Proof. rewrite list_lookup_fmap. destruct (l !! x) as [t|]; [by destruct t|done]. Qed.
Lemma maintaining_Done s x : maintaining (threads (wg_Done s) !! x) = maintaining (threads s !! x).
Proof. unfold wg_Done. destruct (wg s) as [|[|n]]; cbn; [done|apply maintaining_wake|done]. Qed.

(** A step moves one loop into [Maintain], or one out of it, or none. *)
Lemma maintaining_step s l s' x :
  exec l s = Some s' →
  maintaining (threads s' !! x) =
    if decide (entering l = Some x) then true
    else if decide (leaving l s = Some x) then false
    else maintaining (threads s !! x).
Proof.
  unfold exec. destruct (panicked s); [done|].
  destruct l as [| |i c]; [by intros [= <-]; cbn; rewrite maintaining_app..|].
  destruct (threads s !! i) as [t|] eqn:Hi; [|done]. cbn [mbind option_bind].
  unfold leaving, entering. rewrite Hi. intros He.
  assert (∀ t', maintaining (<[i := t']> (threads s) !! x) =
    if decide (x = i) then maintaining (Some t') else maintaining (threads s !! x)) as Hgoto
    by (intros t'; by eapply maintaining_goto).
  destruct t as [| | |[ch|] []|ch []| | | | | | | | |], c; cbn [thread_step] in He; try done;
    unfold start_section, stop_section in He; repeat case_match; try done; injection He as <-;
    rewrite ?maintaining_Done; cbn [threads spawn goto with_threads]; rewrite ?maintaining_app by done;
    cbn [threads goto with_threads]; rewrite ?Hgoto; repeat case_decide; simplify_eq; try done; by rewrite Hi || congruence.
Qed.

(** ** What holds in every run *)

Section invariant.
(** What the clients do, what they keep of the scheduler; what every step does
    to the world, what a pass ends in, what it relies on when it begins, what
    the calls of the others end in. *)
Context (ok : label → scheduler → bool) (S : scheduler → Prop).
Context (HS : ∀ s l s', S s → ok l s = true → exec l s = Some s' → S s').
Context (R : relation (World C)) {HR : PreOrder R}.
Context (Q : nat → list World.event → outcome unit → World C → Prop) (HQ : ∀ t l w, ¬ Q t l Panic w).
Context (G : World C → Prop) {HG : Rely R G}.
Context (Hpass : ∀ w, G w → safe R (p_Maintain hook) (Q (tick w) (trace w)) w).
Context (Qc : nat → outcome unit → World C → Prop).

Record holds (d : daemon) : Prop := {
  holds_sched : S (sched d);
  holds_passes i : is_Some (passes d !! i) ↔ maintaining (threads (sched d) !! i) = true;
  holds_safe i p : passes d !! i = Some p → safe R (body p) (Q (began p) (before p)) (world d);
  holds_calls j c : calls d !! j = Some c → safe R c (Qc j) (world d);
  holds_good : G (world d)
}.

Lemma holds_new w cs :
  S newScheduler → G w → (∀ j c, cs !! j = Some c → safe R c (Qc j) w) → holds (newDaemon w cs).
Proof. intros Hs Hw Hcs. split; cbn; [done| |by intros i p ?%lookup_empty_Some|done|done]. intros i. rewrite lookup_empty. by split; [intros []|]. Qed.

Lemma act_sched l d d' :
  holds d → ok l (sched d) = true → daemon_act (Sched l) d = Some d' →
  holds d' ∧ world d' = world d ∧ exec l (sched d) = Some (sched d').
Proof.
  intros [H1 H2 H3 H4 H5] Hok. unfold daemon_act. destruct (panicked (sched d)) eqn:Hp; [done|].
  destruct (leaving l (sched d)) as [i|] eqn:Hl.
  - assert (entering l = None) as He by (unfold leaving in Hl; destruct l as [| |j []]; done).
    destruct (passes d !! i) as [p|] eqn:Hi; [|done]. cbn [mbind option_bind].
    destruct (body p) as [o|X m k] eqn:Hb; [|done].
    assert (o ≠ Panic) as Ho.
    { intros ->. specialize (H3 i p Hi). rewrite Hb in H3. by apply (HQ (began p) (before p) (world d)), H3. }
    replace (match o with Panic => Some (mkDaemon (crash (sched d)) (world d) (passes d) (calls d))
      | _ => s' ← exec l (sched d); Some (mkDaemon s' (world d) (delete i (passes d)) (calls d)) end)
      with (s' ← exec l (sched d); Some (mkDaemon s' (world d) (delete i (passes d)) (calls d))) by by destruct o.
    destruct (exec l (sched d)) as [s'|] eqn:Hx; [|done]. cbn [mbind option_bind]. intros [= <-].
    split; [|done]. split; cbn; [by eapply HS| |intros j q [_ Hq]%lookup_delete_Some; by apply (H3 j q)|done|done].
    intros j. rewrite (maintaining_step _ _ _ j Hx), He, Hl, decide_False by done.
    case_decide as Hj; [injection Hj as <-; rewrite lookup_delete_eq; split; [by intros []|done]|].
    rewrite lookup_delete_ne by congruence. apply H2.
  - destruct (exec l (sched d)) as [s'|] eqn:Hx; [|done]. cbn [mbind option_bind]. intros [= <-].
    split; [|done]. unfold launch. split; cbn; [by eapply HS| | |done|done].
    + intros j. rewrite (maintaining_step _ _ _ j Hx), Hl, (decide_False (P := None = Some j)) by done.
      destruct (entering l) as [i|]; [|by rewrite decide_False; [apply H2|]].
      case_decide as Hj; [injection Hj as <-; rewrite lookup_insert_eq; by split; [|eexists]|]. rewrite lookup_insert_ne by congruence. apply H2.
    + intros j q. destruct (entering l) as [i|]; [|by apply H3].
      intros [[_ <-]|[_ Hq]]%lookup_insert_Some; [by apply Hpass|by apply (H3 j q)].
Qed.

Lemma act_holds a d d' :
  holds d → permitted ok a d = true → daemon_act a d = Some d' →
  holds d' ∧ R (world d) (world d') ∧
  match a with Sched l => exec l (sched d) = Some (sched d') | _ => sched d' = sched d end.
Proof.
  intros Hd Hok. destruct a as [l|i|j].
  - intros (? & -> & ?)%(act_sched l d d' Hd Hok). by split_and!.
  - destruct Hd as [H1 H2 H3 H4 H5]. unfold daemon_act. destruct (panicked (sched d)); [done|].
    destruct (passes d !! i) as [p|] eqn:Hi; [|done]. cbn [mbind option_bind].
    destruct (body p) as [o|X m k] eqn:Hb; [done|]. destruct (m (world d)) as [o w'] eqn:Hm. intros [= <-].
    pose proof (H3 i p Hi) as Hs. rewrite Hb in Hs. destruct (Hs (world d) o w' (reflexivity _) Hm) as [Hr Hk].
    split; [|done]. split; cbn; [done| | | |by eapply HG].
    + intros x. destruct (decide (x = i)) as [->|Hx]; [|by rewrite lookup_insert_ne].
      rewrite lookup_insert_eq, <- H2, Hi. split; by eexists.
    + intros x q [[_ <-]|[_ Hq]]%lookup_insert_Some; [done|]. eapply (safe_others R); [exact Hr|by apply (H3 x)].
    + intros x c Hc. eapply (safe_others R); [exact Hr|by apply H4].
  - destruct Hd as [H1 H2 H3 H4 H5]. unfold daemon_act. destruct (panicked (sched d)); [done|].
    destruct (turn j (world d, calls d)) as [[w' cs']|] eqn:Ht; [|done]. cbn [mbind option_bind fst snd]. intros [= <-].
    destruct (turn_safe R j Qc (world d, calls d) (w', cs') Ht H4) as [Hr Hcs]. cbn [fst snd] in *.
    split; [|done]. split; cbn; [done|exact H2| |exact Hcs|by eapply HG].
    intros x q Hq. eapply (safe_others R); [exact Hr|by apply (H3 x)].
Qed.

Lemma drive_holds l d d' :
  holds d → drive ok l d = Some d' →
  holds d' ∧ R (world d) (world d') ∧ run (labels l) (sched d) = Some (sched d').
Proof.
  revert d. induction l as [|a l IH]; intros d Hd; cbn; [by intros [= <-]|].
  destruct (permitted ok a d) eqn:Hok; [|done]. destruct (daemon_act a d) as [d1|] eqn:Ha; [|done]. cbn [mbind option_bind].
  intros Hl. destruct (act_holds a d d1 Hd Hok Ha) as (Hd1 & Hr & Hs). destruct (IH d1 Hd1 Hl) as (Hd' & Hr' & Hrun).
  split_and!; [done|by etrans|]. unfold labels in *. destruct a as [x|i|j]; cbn.
  - by rewrite Hs.
  - by rewrite <- Hs.
  - by rewrite <- Hs.
Qed.
End invariant.

(** ** A pass never panics

    Whatever fails, and whatever a hook does: [processParent] recovers. *)

Definition any : relation (World C) := λ _ _, True.
#[export] Instance any_preorder : PreOrder any.
Proof. by split. Qed.
Definition calmly {A} (p : proc C A) : Prop := sound any (λ _, True) p (λ o _, o ≠ Panic).
#[export] Instance rely_any (P : Prop) : Rely any (λ _, P).
Proof. by intros w w'. Qed.

Lemma calmly_atom {A} (m : M C A) : (∀ w o w', m w = (o, w') → o ≠ Panic) → calmly (atom m).
Proof. intros Hm. apply (sound_atom any); [apply _|intros o; apply _|]. intros w o w' _ Hrun. split; [done|by eapply Hm]. Qed.
Lemma calmly_done {A} (o : outcome A) : o ≠ Panic → calmly (Done o).
Proof. intros Ho. by apply (sound_done any); [intros o'; apply _|]. Qed.
Lemma calmly_bind {A B} (p : proc C A) (f : A → proc C B) : calmly p → (∀ a, calmly (f a)) → calmly (p ≫= f).
Proof.
  intros Hp Hf. eapply (sound_bind any); [exact Hp|intros o; apply _| |done|done].
  intros a. eapply (sound_weaken any); [apply Hf|done|done|intros o; apply _].
Qed.
Lemma sound_any {A} (p : proc C A) : sound any (λ _, True) p (λ _ _, True).
Proof.
  split; [intros o; apply _|]. intros w _. revert w. induction p as [o|X m k IH]; intros w; [done|].
  intros w1 o w2 _ _. split; [done|apply IH].
Qed.
Lemma calmly_recovering {A} (h p : proc C A) : calmly h → calmly (p_recovering h p).
Proof.
  intros Hh. eapply (sound_then any); [apply sound_any|intros o; apply _|].
  intros [a|e|]; [by apply calmly_done..|exact Hh].
Qed.
Lemma calmly_foldM {S X} (f : S → X → proc C S) l s : (∀ s x, calmly (f s x)) → calmly (p_foldM f s l).
Proof.
  intros Hf. revert s. induction l as [|x l IH]; intros s; cbn; [by apply calmly_done|]. by apply calmly_bind.
Qed.

Lemma Maintain_calmly : calmly (p_Maintain hook).
Proof.
  assert (∀ e, calmly (atom (emit e : M C unit))) as Hemit by (intros e; apply calmly_atom; by intros w o w' [= <- <-]).
  assert (calmly (atom (Now : M C Time))) as Hnow by (apply calmly_atom; by intros w o w' [= <- <-]).
  unfold p_Maintain. apply calmly_bind; [exact Hnow|intros _]. apply calmly_bind; [|intros parents].
  { apply calmly_atom. intros w o w' Hrun. apply wrapping_inv in Hrun as (o' & Hrun & Ho). unfold ListParents in Hrun.
    apply bind_inv in Hrun as [(l & w1 & _ & [= <- <-])|[(e & _ & ->)|[Hrun _]]]; [by destruct o..|].
    apply wrapping_inv in Hrun as (o1 & [_ Hr]%meta_read_run & Ho1). by destruct o1. }
  apply calmly_bind; [exact Hnow|intros start]. apply calmly_bind; [|intros c].
  - apply calmly_foldM. intros c p. unfold p_maintain_one.
    apply calmly_bind; [apply calmly_atom; by intros w o w' [= <- <-]|intros [e|]; [by apply calmly_done|]].
    destruct (negb _); [by apply calmly_done|]. apply calmly_bind; [|intros r; by apply calmly_done].
    unfold p_processParent. apply calmly_bind; [exact Hnow|intros _]. apply calmly_recovering.
    apply calmly_bind; [apply Hemit|intros _; by apply calmly_done].
  - apply calmly_bind; [exact Hnow|intros now]. apply calmly_bind; [apply Hemit|intros _; apply Hemit].
Qed.

(** Next to statements that keep a relation. *)
Lemma safe_obeys {A} (R : relation (World C)) (p : proc C A) Q w : safe any p Q w → obeys R p → safe R p Q w.
Proof.
  revert w. induction p as [o|X m k IH]; intros w Hs Hp; [intros w' _; by apply Hs|].
  destruct Hp as [Hm Hk]. intros w1 o w2 _ Hrun. split; [by eapply Hm|]. apply IH; [apply (Hs w1 o w2 I Hrun)|apply Hk].
Qed.

(** ** Runs of any clients, of orderly ones *)

(** What a pass ends in, whoever the clients are. *)
Definition ends_calmly (t : nat) (l : list World.event) (o : outcome unit) (w : World C) : Prop := o ≠ Panic.
Definition sane (S : scheduler → Prop) : daemon → Prop :=
  holds S any ends_calmly (λ _, True) (λ _ _ _, True).
Lemma sane_new S w cs : S newScheduler → sane S (newDaemon w cs).
Proof. intros HS. apply holds_new; [done|done|]. intros j c _. by apply (proj2 (sound_any c)). Qed.
Lemma sane_pass (w : World C) : True → safe any (p_Maintain hook) (ends_calmly (tick w) (trace w)) w.
Proof. intros _. by apply (proj2 Maintain_calmly). Qed.
Lemma sane_act ok (S : scheduler → Prop) a d d' :
  (∀ s l s', S s → ok l s = true → exec l s = Some s' → S s') →
  sane S d → permitted ok a d = true → daemon_act a d = Some d' →
  sane S d' ∧ match a with Sched l => exec l (sched d) = Some (sched d') | _ => sched d' = sched d end.
Proof.
  intros HS Hd Hok Ha. destruct (act_holds ok S HS any ends_calmly (λ t l w H, H eq_refl) (λ _, True) sane_pass
    (λ _ _ _, True) a d d' Hd Hok Ha) as (? & _ & ?). by split.
Qed.
Lemma sane_drive ok (S : scheduler → Prop) l d d' :
  (∀ s x s', S s → ok x s = true → exec x s = Some s' → S s') →
  sane S d → drive ok l d = Some d' → sane S d' ∧ run (labels l) (sched d) = Some (sched d').
Proof.
  intros HS Hd Hl. destruct (drive_holds ok S HS any ends_calmly (λ t l w H, H eq_refl) (λ _, True) sane_pass
    (λ _ _ _, True) l d d' Hd Hl) as (? & _ & ?). by split.
Qed.
Lemma reach_anyhow s l s' : reach s → anyhow l s = true → exec l s = Some s' → reach s'.
Proof. intros Hs _ He. by econstructor. Qed.
Lemma reach_orderly_exec s l s' : reach_orderly s → orderly l s = true → exec l s = Some s' → reach_orderly s'.
Proof. intros Hs Ho He. by econstructor. Qed.

(** A loop in flight. *)
Lemma pass_thread S d i :
  sane S d → is_Some (passes d !! i) → ∃ ch tk, threads (sched d) !! i = Some (LoopMaintain ch tk).
Proof.
  intros Hd Hi%(holds_passes _ _ _ _ _ _ Hd). unfold maintaining in Hi.
  destruct (threads (sched d) !! i) as [[]|]; try done. by do 2 eexists.
Qed.
Lemma one_pass d i j :
  sane reach_orderly d → is_Some (passes d !! i) → is_Some (passes d !! j) → i = j.
Proof.
  intros Hd Hi Hj. pose proof (reach_calm _ (holds_sched _ _ _ _ _ _ Hd)) as Hc.
  destruct (pass_thread _ d i Hd Hi) as (c1 & t1 & H1), (pass_thread _ d j Hd Hj) as (c2 & t2 & H2).
  destruct (decide (i = j)) as [|Hne]; [done|]. pose proof (calm_one _ Hc) as Hone.
  rewrite (inv_wg _ (calm_inv _ Hc)) in Hone.
  pose proof (tally_insert live _ _ _ Ended H1) as Ht. cbn in Ht.
  assert (<[i := Ended]> (threads (sched d)) !! j = Some (LoopMaintain c2 t2)) as Hj' by by rewrite list_lookup_insert_ne.
  pose proof (tally_ge live _ _ _ Hj') as Hge. cbn in Hge. lia.
Qed.
End daemon.

#[export] Instance meta_steps_preorder {C} : PreOrder (@meta_steps C).
Proof. split; apply _. Qed.

(** C33: the maintenance loop, for an orderly client.  Whatever the hook does,
    whatever fails and whoever else is at work on the data base: the process
    does not die, a [Maintain] runs only inside a loop that took a tick, at
    most one at a time, and no [Maintain] ends in a panic.  With passive hooks
    and any requests of any number of processes next to it, the metadata stay
    consistent. *)
Theorem daemon_orderly {C} {E : Env C} (hook : Hook C) w cs l d :
  drive hook orderly l (newDaemon w cs) = Some d →
  panicked (sched d) = false ∧
  (∀ i, is_Some (passes d !! i) ↔ ∃ ch tk, threads (sched d) !! i = Some (LoopMaintain ch tk)) ∧
  (∀ i j, is_Some (passes d !! i) → is_Some (passes d !! j) → i = j) ∧
  (∀ i p, passes d !! i = Some p → body p ≠ Done Panic) ∧
  (∀ rs, cs = p_request hook <$> rs → passive hook → WF (meta (db w)) → WF (meta (db (world d)))).
Proof.
  intros Hd. destruct (sane_drive hook orderly reach_orderly l (newDaemon w cs) d) as [Hs _];
    [apply reach_orderly_exec|by apply sane_new; constructor|done|]. split_and!.
  - apply (calm_alive _ (reach_calm _ (holds_sched _ _ _ _ _ _ Hs))).
  - intros i. split; [by eapply pass_thread|]. intros (ch & tk & Hi). apply (holds_passes _ _ _ _ _ _ Hs). by rewrite Hi.
  - intros i j. by apply one_pass.
  - intros i p Hi Hb. pose proof (holds_safe _ _ _ _ _ _ Hs i p Hi) as Hsafe. rewrite Hb in Hsafe.
    by apply (Hsafe (world d) I).
  - intros rs -> Hh Hwf.
    assert (obeys meta_steps (p_Maintain hook)) as Hpass by by apply (Maintain_obeys hook meta_steps (λ _, true)).
    destruct (drive_holds hook orderly (λ _, True) (λ _ _ _ _ _ _, I) meta_steps (λ _ _ o _, o ≠ Panic) (λ _ _ _ H, H eq_refl)
      (λ _, True) (λ w _, safe_obeys meta_steps _ _ w (sane_pass hook w I) Hpass) (λ _ _ _, True) l (newDaemon w (p_request hook <$> rs)) d)
      as (_ & Hm & _); [|done|].
    + apply holds_new; [done|done|]. intros j c (r & -> & _)%list_lookup_fmap_Some.
      apply (obeys_safe meta_steps). by apply (request_obeys hook meta_steps (λ _, true)).
    + by eapply WF_statements.
Qed.
