(* ===== verification/Shutdown.v ===== *)
(** * What the maintenance loop achieves, and how it ends

    The theorems on [Daemon]: what a tick of the loop leaves behind next to
    other ticks, calls of [EnsurePartitions] and sweeps, and what a [Stop]
    that returned says of the work in flight.  An executable scenario. *)

From S2P Require Import Prelude GoTime GoStrings Errs TimeFormat Naming Periods Store World Logic Repo Retry Scenario Provisioner Ensure Retention Sweep Registry Registration Removal AdvisoryLock Maintainer Maintenance Importer Import Drain Manager Scheduler Scheduling SchedulerSpec SchedulerRest Upkeep Interleave Concurrent Requests Alongside Together Race Departure Ticking Daemon.
From stdpp Require Import gmap.
Local Open Scope string_scope.
Local Open Scope Z_scope.

(** ** Work left *)

Section work.
Context {C : Type} {E : Env C} (hook : Hook C).

(** A step of a pass. *)
Definition works (m' m : gmap nat (pass (C := C))) : Prop :=
  ∃ i p q, m !! i = Some p ∧ shorter (body q) (body p) ∧ m' = <[i := q]> m.
Lemma works_wf : well_founded works.
Proof.
  intros m. induction m as [|i p m Hi IH] using map_ind.
  { constructor. by intros m' (i & p & q & Hi & _). }
  remember (body p) as b eqn:Hb. revert p Hb m Hi IH. induction (shorter_wf b) as [b _ IHb]. intros p -> m Hi Hacc.
  induction Hacc as [m Hm IHm]. constructor. intros m' (j & p' & q & Hj & Hq & ->).
  apply lookup_insert_Some in Hj as [[<- <-]|[Hne Hj]].
  - rewrite insert_insert_eq. apply (IHb (body q) Hq q eq_refl m Hi). by constructor.
  - rewrite insert_insert_ne by done. apply IHm; [by exists j, p', q|]. by rewrite lookup_insert_ne.
Qed.

(** What the process does by itself, the calls of others included. *)
Definition ours (a : action) : bool :=
  match a with Sched l => is_step l && negb (is_ticks l) | _ => true end.

Lemma act_Work d d' i :
  daemon_act hook (Work i) d = Some d' → sched d' = sched d ∧ calls d' = calls d ∧ works (passes d') (passes d).
Proof.
  unfold daemon_act. destruct (panicked (sched d)); [done|]. destruct (passes d !! i) as [p|] eqn:Hi; [|done]. cbn [mbind option_bind].
  destruct (body p) as [o|X m k] eqn:Hb; [done|]. destruct (m (world d)) as [o w'] eqn:Hm. intros [= <-]. cbn.
  split_and!; [done..|]. exists i, p, (mkPass (began p) (before p) (k o)). split_and!; [done| |done].
  cbn. rewrite Hb. by exists o.
Qed.
Lemma act_Other d d' j :
  daemon_act hook (Other j) d = Some d' → sched d' = sched d ∧ passes d' = passes d ∧ step_of (calls d') (calls d).
Proof.
  unfold daemon_act. destruct (panicked (sched d)); [done|].
  destruct (turn j (world d, calls d)) as [[w' cs']|] eqn:Ht; [|done]. cbn [mbind option_bind fst snd]. intros [= <-].
  split_and!; [done..|]. exact (turn_step _ _ _ Ht).
Qed.

(** A stopped loop, a sane run. *)
Definition halting (d : daemon (C := C)) : Prop := sane reach_orderly d ∧ stopped (sched d).
Lemma stopped_orderly s i c : stopped s → orderly (Step i c) s = true.
Proof.
  intros Hs. cbn. destruct c; try done. pose proof (stopped_calls _ Hs i). by destruct (threads s !! i) as [[]|].
Qed.
Lemma halting_act a d d' :
  halting d → ours a = true → daemon_act hook a d = Some d' →
  permitted orderly a d = true ∧ halting d' ∧ match a with Sched _ => (effort (sched d') < effort (sched d))%nat | _ => sched d' = sched d end.
Proof.
  intros [Hd Hs] Ha Hact.
  assert (permitted orderly a d = true) as Hok.
  { destruct a as [[| |i c]|i|j]; try done. by apply stopped_orderly. }
  split; [done|]. destruct (sane_act hook orderly reach_orderly a d d' reach_orderly_exec Hd Hok Hact) as [Hd' Hsched].
  destruct a as [l|i|j]; [|by split; [split; [|rewrite Hsched]|]..].
  destruct l as [| |i c]; [done..|]. destruct (effort_step _ _ _ _ Hs Hsched) as [Hs' He].
  cbn [ours] in Ha. apply andb_true_iff in Ha as [_ Ht%negb_true_iff]. rewrite Ht in He. by split.
Qed.

Definition follows (d' d : daemon (C := C)) : Prop := ∃ a, ours a = true ∧ daemon_act hook a d = Some d'.
Lemma follows_acc d : halting d → Acc follows d.
Proof.
  remember (effort (sched d)) as n eqn:Hn. revert d Hn. induction (lt_wf n) as [n _ IHn]. intros d ->.
  remember (passes d) as m eqn:Hm. revert d IHn Hm. induction (works_wf m) as [m _ IHm]. intros d IHn ->.
  remember (calls d) as cs eqn:Hcs. revert d IHn IHm Hcs. induction (step_of_wf cs) as [cs _ IHcs]. intros d IHn IHm -> Hd.
  constructor. intros d' (a & Ha & Hact). destruct (halting_act a d d' Hd Ha Hact) as (_ & Hd' & Hs).
  destruct a as [l|i|j].
  - by apply (IHn (effort (sched d')) Hs d').
  - apply act_Work in Hact as (_ & Hc & Hw). apply (IHm (passes d') Hw d'); [by rewrite Hs|done|done].
  - apply act_Other in Hact as (_ & Hp & Hc). apply (IHcs (calls d') Hc d'); [by rewrite Hs|by rewrite Hp|done|done].
Qed.

(** Whoever is given the turns, they run out. *)
Lemma halting_ends d (choice : nat → action) :
  halting d → (∀ n, ours (choice n) = true) → ∃ n, drive hook orderly (choice <$> seq 0 n) d = None.
Proof.
  intros Hd. revert choice. induction (follows_acc d Hd) as [d _ IH]. intros choice Hc.
  destruct (permitted orderly (choice 0%nat) d) eqn:Hok; [|exists 1%nat; cbn; by rewrite Hok].
  destruct (daemon_act hook (choice 0%nat) d) as [d1|] eqn:Ha; [|exists 1%nat; cbn; by rewrite Hok, Ha].
  destruct (halting_act _ _ _ Hd (Hc 0%nat) Ha) as (_ & Hd1 & _).
  destruct (IH d1) with (choice := choice ∘ S) as [n Hn]; [by exists (choice 0%nat)|done|intros n; apply Hc|].
  exists (S n). cbn. rewrite Hok, Ha. cbn. by rewrite <- seq_shift, <- list_fmap_compose.
Qed.

(** Until everything is over, the process can go on by itself. *)
Lemma halting_moves d :
  halting d → (at_rest (sched d) ∧ passes d = ∅) ∨ ∃ a d', ours a = true ∧ (∀ j, a ≠ Other j) ∧ daemon_act hook a d = Some d'.
Proof.
  intros [Hd Hs]. pose proof (calm_alive _ (stopped_calm _ Hs)) as Halive.
  destruct (decide (Forall (λ t, settled t = true) (threads (sched d)))) as [Hf|Hf].
  - left. rewrite Forall_lookup in Hf. split.
    + split; [|exact Hf]. destruct (decide (wg (sched d) = O)) as [|Hw]; [done|].
      destruct (some_loop (sched d)) as (i & t & Hi & Hl); [apply Hs|done|]. specialize (Hf i t Hi). by destruct t.
    + apply map_empty. intros i. destruct (passes d !! i) as [p|] eqn:Hi; [|done].
      destruct (pass_thread _ d i Hd) as (ch & tk & Ht); [by eexists|]. by specialize (Hf i _ Ht).
  - right. apply not_Forall_Exists, Exists_exists in Hf as (t & (i & Hi)%list_elem_of_lookup & Ht); [|apply _].
    destruct (thread_moves (sched d) i t Hs Hi (not_true_is_false _ Ht)) as (j & c & s' & Hown & He).
    assert (ours (Sched (Step j c)) = true) as Hours by (by destruct c).
    destruct (leaving (Step j c) (sched d)) as [x|] eqn:Hx.
    + assert (is_Some (passes d !! x)) as [p Hp].
      { apply (holds_passes _ _ _ _ _ _ Hd). unfold leaving in Hx. destruct c; try done.
        destruct (threads (sched d) !! j) as [[]|] eqn:Hj; try done. injection Hx as <-. by rewrite Hj. }
      destruct (body p) as [o|X m k] eqn:Hb.
      * exists (Sched (Step j c)). unfold daemon_act. rewrite Halive, Hx, Hp. cbn [mbind option_bind]. rewrite Hb, He.
        destruct o; eexists; by split_and!.
      * exists (Work x). unfold daemon_act. rewrite Halive, Hp. cbn [mbind option_bind]. rewrite Hb.
        destruct (m (world d)) as [o w']. eexists. by split_and!.
    + exists (Sched (Step j c)). unfold daemon_act. rewrite Halive, Hx, He. eexists. by split_and!.
Qed.
Lemma halting_drive l d d' :
  halting d → Forall (λ a, ours a = true) l → drive hook orderly l d = Some d' → halting d'.
Proof.
  revert d. induction l as [|a l IH]; intros d Hd Hl; cbn; [by intros [= <-]|].
  apply Forall_cons in Hl as [Ha Hl]. destruct (permitted orderly a d); [|done].
  destruct (daemon_act hook a d) as [d1|] eqn:Hact; [|done]. cbn [mbind option_bind]. apply IH; [|done].
  by destruct (halting_act a d d1 Hd Ha Hact) as (_ & ? & _).
Qed.
End work.

(** ** A stop that returned *)

Section stop.
Context {C : Type} {E : Env C} (hook : Hook C).

(** The loops that were running when [stop] closed their channel. *)
Lemma stop_ends_passes d0 j d1 l1 d2 :
  sane reach d0 → threads (sched d0) !! j = Some StopLock → running (sched d0) = true →
  daemon_act hook (Sched (Step j Next)) d0 = Some d1 → drive hook anyhow l1 d1 = Some d2 →
  threads (sched d2) !! j = Some (Returned None) →
  ∀ i t, threads (sched d0) !! i = Some t → is_loop t = true →
    threads (sched d2) !! i = Some Ended ∧ passes d2 !! i = None.
Proof.
  intros Hd0 Hj Hrun Ha Hl Hret i t Hi Ht.
  destruct (sane_act hook anyhow reach (Sched (Step j Next)) _ _ reach_anyhow Hd0 eq_refl Ha) as [Hd1 He].
  destruct (sane_drive hook anyhow reach _ _ _ reach_anyhow Hd1 Hl) as [Hd2 Hls].
  assert (threads (sched d2) !! i = Some Ended) as Hend.
  { eapply (stop_waits (sched d0) j (sched d1) (labels l1) (sched d2)); [apply (holds_sched _ _ _ _ _ _ Hd0)|done..]. }
  split; [done|]. destruct (passes d2 !! i) as [p|] eqn:Hp; [|done].
  destruct (pass_thread _ d2 i Hd2) as (ch & tk & Hth); [by eexists|]. congruence.
Qed.
End stop.

(** C32: shutting the loop down.  Whoever the clients are and whoever else is at
    work: when a call of [Stop] that found the loop running returns nil, the
    loops that ran when it closed the channel have ended and none of their
    [Maintain] is in flight, later starts included.  And after a [Stop] of an
    orderly client, whatever it interrupted, nothing can go on for ever: from
    any moment at which the loop was told to stop and no start is under way,
    whoever is given the turns, they run out as long as no tick comes in; and
    until every goroutine has ended, every call of [Start] and [Stop] has
    returned and no [Maintain] is left, the process can take a step of its
    own. *)
Theorem shutdown {C} {E : Env C} (hook : Hook C) w cs l0 d0 :
  drive hook anyhow l0 (newDaemon w cs) = Some d0 →
  (∀ j d1 l1 d2, threads (sched d0) !! j = Some StopLock → running (sched d0) = true →
     daemon_act hook (Sched (Step j Next)) d0 = Some d1 → drive hook anyhow l1 d1 = Some d2 →
     threads (sched d2) !! j = Some (Returned None) →
     ∀ i t, threads (sched d0) !! i = Some t → is_loop t = true →
       threads (sched d2) !! i = Some Ended ∧ passes d2 !! i = None) ∧
  (drive hook orderly l0 (newDaemon w cs) = Some d0 → running (sched d0) = false →
   (∀ i, threads (sched d0) !! i ≠ Some StartLock) →
   (∀ choice, (∀ n, ours (choice n) = true) → ∃ n, drive hook orderly (choice <$> seq 0 n) d0 = None) ∧
   ∀ l d, Forall (λ a, ours a = true) l → drive hook orderly l d0 = Some d →
     (at_rest (sched d) ∧ passes d = ∅) ∨
     ∃ a d', ours a = true ∧ (∀ j, a ≠ Other j) ∧ daemon_act hook a d = Some d').
Proof.
  intros Hany. split.
  - intros j d1 l1 d2. apply stop_ends_passes.
    destruct (sane_drive hook anyhow reach l0 (newDaemon w cs) d0) as [Hs _]; [apply reach_anyhow|by apply sane_new; constructor|done..].
  - intros Hl Hrun Hno. assert (halting d0) as Hd.
    { destruct (sane_drive hook orderly reach_orderly l0 (newDaemon w cs) d0) as [Hs _];
        [apply reach_orderly_exec|by apply sane_new; constructor|done|].
      split; [done|]. split; [|done|done]. by apply reach_calm, (holds_sched _ _ _ _ _ _ Hs). }
    split.
    + intros choice. by apply halting_ends.
    + intros l d Hours Hd'. apply halting_moves. by eapply halting_drive.
Qed.

(** ** A loop among others *)

Section serves.
Context {C : Type} {E : Env C} {L : EnvLaws E}.
Context (Hids : ∀ i j, env_ulid i = env_ulid j → i = j).
Context (w0 : World C) (Hmt : maintainable w0) (Hun : unexpired w0).
Context (hook : Hook C) (Hhook : passive hook).
Notation R := (both (step w0) metered).
#[local] Instance serves_standing : Standing w0 (healthy (pair w0) w0) := healthy_standing w0 Hmt Hun.


Context (Hcalm : calm_run (E := E)) (Hctx : ∀ n, env_ctx n = None).
Context (Hlock : ∀ s schema table c, ∃ b c', pg_call s try_lock_sql [VText schema; VText table] c = Ok ([VBool b], c')).


End serves.

(** ** Examples *)

(** Rounds in a fixed order until nothing in it can move: what was done. *)
Fixpoint weave {C} {E : Env C} (hook : Hook C) (fuel : nat) (order : list action) (d : daemon (C := C)) : list action :=
  match fuel with
  | O => []
  | S fuel =>
      (fix round (l : list action) (some : bool) (d : daemon) :=
         match l with
         | [] => if some then weave hook fuel order d else []
         | a :: l => match daemon_act hook a d with Some d' => a :: round l true d' | None => round l some d end
         end) order false d
  end.

(** [Start], a tick during which [Stop] is called, next to a sweep and two calls
    of [EnsurePartitions] of other processes.  Threads: 0 the caller of
    [Start], 1 the loop, 2 the caller of [Stop], 3 its waiter. *)
Definition loop_calls : list call :=
  [CallEnsure (ref_row daily_events) None; CallSweep "app" "events" []; CallEnsure (ref_row audit) (Some "acme")].
Notation loop_start := (newDaemon busy_world (p_call (E := Scenario.calm noon) None <$> loop_calls)).
Definition to_tick : list action :=
  [Manager_Start; Sched (Step 0 Next); Sched (Step 0 Next); Sched (Step 1 Next); Sched (Step 1 Ticks); Sched (Step 1 TakeTick);
   Manager_Stop].
Notation loop_drive l := (drive (E := Scenario.calm noon) None orderly l loop_start).
Definition loop_work : list action := Eval vm_compute in
  match loop_drive to_tick with
  | Some d => weave (E := Scenario.calm noon) None 300 [Work 1; Other 0; Other 1; Work 1; Other 2] d
  | None => []
  end.
Definition loop_end : list action :=
  [Sched (Step 2 Next); Sched (Step 2 Next); Sched (Step 3 Next); Sched (Step 1 Next); Sched (Step 1 TakeDone);
   Sched (Step 1 Next); Sched (Step 3 Next); Sched (Step 2 TakeWait)].

Lemma drive_anyhow {C} {E : Env C} (hook : Hook C) ok l (d d' : daemon (C := C)) :
  drive hook ok l d = Some d' → drive hook anyhow l d = Some d'.
Proof.
  revert d. induction l as [|a l IH]; intros d; cbn; [done|]. destruct (permitted ok a d); [|done].
  replace (permitted anyhow a d) with true by by destruct a.
  destruct (daemon_act hook a d) as [d1|]; [|done]. apply IH.
Qed.
Lemma drive_app {C} {E : Env C} (hook : Hook C) ok l1 l2 (d : daemon (C := C)) :
  drive hook ok (l1 ++ l2) d = d' ← drive hook ok l1 d; drive hook ok l2 d'.
Proof.
  revert d. induction l1 as [|a l1 IH]; intros d; cbn; [done|]. destruct (permitted ok a d); [|done].
  destruct (daemon_act hook a d) as [d1|]; [|done]. apply IH.
Qed.




(** [Stop] is called during the tick, which goes on; then nothing is left. *)
Definition interrupted (d0 d1 d2 : daemon (C := list string)) : bool :=
  bool_decide (threads (sched d0) = [Returned None; LoopMaintain (Some 0%nat) false; StopLock]) && running (sched d0) &&
  bool_decide (threads (sched d1) = [Returned None; LoopMaintain (Some 0%nat) false; StopSpawn]) && negb (running (sched d1)) &&
  bool_decide (threads (sched d2) = [Returned None; Ended; Returned None; Ended]).
Lemma shutdown_witness :
  match d0 ← loop_drive to_tick; d1 ← daemon_act (E := Scenario.calm noon) None (Sched (Step 2 Next)) d0;
        d2 ← drive (E := Scenario.calm noon) None anyhow (loop_work ++ drop 1 loop_end) d1; Some (d1, d2) with
  | Some (d1, d2) => passes d2 !! 1%nat = None ∧
      ∃ n, drive (E := Scenario.calm noon) None orderly ((λ _, Work 1) <$> seq 0 n) d1 = None
  | None => False
  end.
Proof.
  assert (match d0 ← loop_drive to_tick; d1 ← daemon_act (E := Scenario.calm noon) None (Sched (Step 2 Next)) d0;
        d2 ← drive (E := Scenario.calm noon) None anyhow (loop_work ++ drop 1 loop_end) d1; Some (d0, d1, d2) with
    | Some (d0, d1, d2) => interrupted d0 d1 d2 | None => false end = true) as Hs by (vm_compute; reflexivity).
  destruct (loop_drive to_tick) as [d0|] eqn:H0; [|discriminate Hs]. cbn [mbind option_bind] in *.
  destruct (daemon_act (E := Scenario.calm noon) None (Sched (Step 2 Next)) d0) as [d1|] eqn:H1; [|discriminate Hs].
  cbn [mbind option_bind] in *.
  destruct (drive (E := Scenario.calm noon) None anyhow (loop_work ++ drop 1 loop_end) d1) as [d2|] eqn:H2; [|discriminate Hs].
  cbn [mbind option_bind] in *.
  unfold interrupted in Hs. rewrite !andb_true_iff, !bool_decide_eq_true, negb_true_iff in Hs.
  destruct Hs as ((((Ht0 & Hr0) & Ht1) & Hr1) & Ht2).
  assert (loop_drive (to_tick ++ [Sched (Step 2 Next)]) = Some d1) as H01.
  { rewrite drive_app, H0. cbn [drive mbind option_bind permitted orderly].
    rewrite Ht0. cbn. by rewrite H1. }
  split.
  - destruct (shutdown (E := Scenario.calm noon) None busy_world (p_call (E := Scenario.calm noon) None <$> loop_calls) to_tick d0)
      as [Hstop _]; [by eapply drive_anyhow|].
    refine (proj2 (Hstop 2%nat d1 _ d2 _ Hr0 H1 H2 _ 1%nat (LoopMaintain (Some 0%nat) false) _ eq_refl)); by rewrite ?Ht0, ?Ht2.
  - destruct (shutdown (E := Scenario.calm noon) None busy_world (p_call (E := Scenario.calm noon) None <$> loop_calls)
      (to_tick ++ [Sched (Step 2 Next)]) d1) as [_ Hend]; [by eapply drive_anyhow|].
    destruct (Hend H01 Hr1) as [Hstuck _]; [|by apply Hstuck].
    intros i. rewrite Ht1. by destruct i as [|[|[|i]]].
Defined.

(** The loop next to a registration and a removal of other processes. *)
Definition mixed_calls : list request := [RqRegisterParent audit_config; RqRemoveTenant visits_acme].
Notation mixed_start := (newDaemon (start leaving_meta) (p_request (E := catalogued) None <$> mixed_calls)).
Notation mixed_drive l := (drive (E := catalogued) None orderly l mixed_start).
Definition mixed_run : list action := Eval vm_compute in
  match mixed_drive to_tick with
  | Some d => to_tick ++ weave (E := catalogued) None 300 [Other 0; Work 1; Other 1] d
  | None => []
  end.
Lemma daemon_orderly_witness :
  match mixed_drive mixed_run with
  | Some d => panicked (sched d) = false ∧ WF (meta (db (world d))) ∧
      (∀ i j, is_Some (passes d !! i) → is_Some (passes d !! j) → i = j) ∧
      Parent.TableName <$> parent_tables (meta (db (world d))) = ["events"; "visits"; "audit"]
  | None => False
  end.
Proof.
  assert (match mixed_drive mixed_run with
          | Some d => bool_decide (Parent.TableName <$> parent_tables (meta (db (world d))) = ["events"; "visits"; "audit"])
          | None => false end = true) as Hs by (vm_compute; reflexivity).
  destruct (mixed_drive mixed_run) as [d|] eqn:Hd; [|discriminate Hs]. apply bool_decide_eq_true in Hs.
  destruct (daemon_orderly (E := catalogued) None (start leaving_meta) (p_request (E := catalogued) None <$> mixed_calls) mixed_run d Hd)
    as (Hp & _ & Hone & _ & Hwf).
  split_and!; [exact Hp|exact (Hwf _ eq_refl passive_None leaving_WF)|exact Hone|exact Hs].
Defined.
