(* ===== verification/Writers.v ===== *)
(** * Drains next to writers

    A drain reads the ctids of a batch in one statement and moves them in
    another; in between anybody may insert, update or delete rows, or vacuum
    the table, so that a ctid names another row or none.  Nothing is lost by
    it: what every atom of a drain does to the tables. *)

From S2P Require Import Prelude GoTime GoStrings Errs TimeFormat Naming Periods Store World Logic Repo Scenario Retry Provisioner AdvisoryLock Drain Query Draining DrainTotal DrainScenario Ensure Sweep Registry Registration Interleave Concurrent Requests.
Local Open Scope string_scope.
Local Open Scope Z_scope.

(** An [INSERT] into a partition checks its constraint. *)
Class HeapGuards {C} (E : Env C) (table : string) (p : readParams) (cols : list string)
    `{!Heap E table p cols} : Prop := {
  guards_move c fq dst ctids n c' t t' new :
    Cut "." fq = Some dst → dst ≠ source p →
    pg_exec (buildMoveCTE (PSchema p) (DefaultTable p) fq cols) [VTids ctids] c = Ok (n, c') →
    view c dst = Some t → view c' dst = Some t' → t' ≡ₚ t ++ new → Forall (admits c dst) new
}.

Section writers.
Context {C : Type} {E : Env C} {HE : EnvLaws E}.
Context (ref : ParentRef.t) (prow : Parent.row) (opts : Options.t) (cols : list string).
Let p := drain_params ref prow opts.
Context {HH : Heap E (ParentRef.TableName ref) p cols} {HG : HeapGuards E (ParentRef.TableName ref) p cols}.

(** ** Shipments *)

Definition arrivals (rel : string * string) (ms : list transfer) : list heap_row :=
  t_new <$> filter (λ x, t_rel x = rel) ms.
Definition departures (rel : string * string) (ms : list transfer) : list heap_row :=
  if decide (rel = source p) then t_old <$> ms else [].
(** The rows [ms] went from the default partition to a table whose constraint
    admits them, equal on every column that is not generated; no other row came
    or went. *)
Definition shipped (ms : list transfer) (d d' : DB C) : Prop :=
  meta d' = meta d ∧ (∀ rel r, admits (catalog d') rel r ↔ admits (catalog d) rel r) ∧
  (∀ rel, match view (catalog d) rel with
          | Some t => ∃ t', view (catalog d') rel = Some t' ∧ (t ++ arrivals rel ms ≡ₚ t' ++ departures rel ms)
          | None => view (catalog d') rel = None ∧ arrivals rel ms = [] ∧ departures rel ms = []
          end) ∧
  Forall (λ x, same_on cols (t_old x) (t_new x) ∧ t_rel x ≠ source p ∧ admits (catalog d) (t_rel x) (t_new x)) ms.
Definition ships (d d' : DB C) : Prop := ∃ ms, shipped ms d d'.

Lemma shipped_same_views d d' :
  meta d' = meta d → (∀ rel, view (catalog d') rel = view (catalog d) rel) →
  (∀ rel r, admits (catalog d') rel r ↔ admits (catalog d) rel r) → ships d d'.
Proof.
  intros Hm Hv Ha. exists []. split_and!; [done|done| |by constructor]. intros rel. rewrite Hv. unfold departures.
  destruct (view (catalog d) rel) as [t|]; [|by case_decide]. exists t. split; [done|]. by case_decide.
Qed.
Lemma arrivals_app rel ms ms' : arrivals rel (ms ++ ms') = (arrivals rel ms ++ arrivals rel ms')%list.
Proof. unfold arrivals. by rewrite filter_app, fmap_app. Qed.
Lemma departures_app rel ms ms' : departures rel (ms ++ ms') = (departures rel ms ++ departures rel ms')%list.
Proof. unfold departures. case_decide; [apply fmap_app|done]. Qed.
#[export] Instance ships_preorder : PreOrder ships.
Proof.
  split; [intros d; by apply shipped_same_views|].
  intros d1 d2 d3 [ms (Hm1 & Ha1 & Hv1 & HF1)] [ms' (Hm2 & Ha2 & Hv2 & HF2)]. exists (ms ++ ms')%list.
  split_and!; [congruence|by intros; rewrite Ha2| |].
  - intros rel. specialize (Hv1 rel). specialize (Hv2 rel). rewrite arrivals_app, departures_app.
    destruct (view (catalog d1) rel) as [t|].
    + destruct Hv1 as (t' & Hv & Hp). rewrite Hv in Hv2. destruct Hv2 as (t'' & Hv' & Hp'). exists t''. split; [done|].
      rewrite app_assoc, Hp, <- app_assoc, (Permutation_app_comm (departures rel ms)), app_assoc, Hp', <- app_assoc.
      f_equiv. apply Permutation_app_comm.
    + destruct Hv1 as (Hv & -> & ->). rewrite Hv in Hv2. by destruct Hv2 as (? & -> & ->).
  - apply Forall_app. split; [done|]. eapply Forall_impl; [exact HF2|]. cbn. intros x (? & ? & Hx). split_and!; [done..|by apply Ha1].
Qed.
Lemma ships_meta d d' : ships d d' → meta d' = meta d.
Proof. by intros (ms & ? & _). Qed.

(** The move of any ctids, whatever rows they name. *)
Lemma moves_ships c c' fq rel ctids n m :
  Cut "." fq = Some rel → rel ≠ source p →
  pg_exec (buildMoveCTE (PSchema p) (DefaultTable p) fq cols) [VTids ctids] c = Ok (n, c') →
  ships (mkDB m c) (mkDB m c').
Proof.
  intros Hrel Hne Hx. destruct (heap_move _ _ _ _ _ _ Hrel Hne Hx) as [(rows & t & new & t' & Hv & Hvt & Hl & Hr & Hp & HF & _ & Ho) Ha].
  pose proof (guards_move _ _ _ _ _ _ _ _ _ Hrel Hne Hx Hvt Hr Hp) as Hadm.
  set (gone := filter (λ r, ctid r ∈ ctids) rows) in *.
  assert (t_old <$> zip_with (mkTransfer rel) gone new = gone) as Hold.
  { clear -HF. induction HF; [done|]. cbn. by f_equal. }
  assert (t_new <$> zip_with (mkTransfer rel) gone new = new) as Hnew.
  { clear -HF. induction HF; [done|]. cbn. by f_equal. }
  assert (∀ rel', filter (λ x, t_rel x = rel') (zip_with (mkTransfer rel) gone new) =
    if decide (rel' = rel) then zip_with (mkTransfer rel) gone new else []) as Hfilter.
  { intros rel'. clear -HF. induction HF as [|x y l k _ _ IH]; [by case_decide|]. cbn [zip_with].
    rewrite filter_cons. cbn [t_rel]. rewrite IH. repeat case_decide; simplify_eq; done. }
  exists (zip_with (mkTransfer rel) gone new). split_and!; [done|done|..]; cbn [catalog].
  - intros rel'. unfold arrivals, departures. rewrite Hfilter, Hold.
    destruct (decide (rel' = source p)) as [->|Hs]; [|destruct (decide (rel' = rel)) as [->|Hd]].
    + rewrite decide_False by done. rewrite Hv. exists (filter (λ r, ctid r ∉ ctids) rows). split; [done|].
      cbn. rewrite app_nil_r, Permutation_app_comm. symmetry. apply (filter_app_complement (λ r, ctid r ∈ ctids)).
    + rewrite Hvt, Hnew. exists t'. split; [done|]. by rewrite app_nil_r.
    + rewrite (Ho rel' Hs Hd). destruct (view c rel') as [u|]; [|done]. by exists u.
  - apply Forall_forall. intros x (i & Hi)%list_elem_of_lookup.
    apply lookup_zip_with_Some in Hi as (old & nw & -> & H1 & H2). cbn. split_and!; [by eapply Forall2_lookup_lr|done|].
    rewrite Forall_lookup in Hadm. by eapply Hadm.
Qed.

(** ** The atoms of a drain *)

(** What the others leave alone: the parent's row, and the names of its
    partitions, none of which is that of the default. *)
Definition known (d : DB C) : Prop :=
  get_parent (ParentRef.SchemaName ref, ParentRef.TableName ref) (meta d) = Ok prow ∧
  named_apart p (Parent.ID prow) (meta d).
Notation kept := (λ w : World C, known (db w)).
Notation shipping := (on_db ships).
Notation drained := (λ w w' : World C, known (db w) → known (db w') ∧ ships (db w) (db w')).

#[export] Instance drained_effect : Effect drained.
Proof.
  assert (PreOrder (λ d d' : DB C, known d → known d' ∧ ships d d')) as Hpre.
  { split; [by intros d|]. intros d1 d2 d3 H1 H2 [Hk Hs]%H1. destruct (H2 Hk) as [? ?]. split; [done|by etrans]. }
  exact (Effect_on_db (λ d d' : DB C, known d → known d' ∧ ships d d')).
Qed.
Lemma ships_kept d d' : ships d d' → known d → known d'.
Proof. unfold known. by intros ->%ships_meta. Qed.
Lemma Stable_lock_drained s sql args : sql = try_lock_sql ∨ sql = unlock_sql → Stable drained (Call s sql args).
Proof.
  intros Hsql. apply Stable_statement; [apply _|]. intros w a d'.
  destruct (pg_call _ _ _ _) as [[row c']|] eqn:Hc; [|done]. cbn. intros [= <- <-] Hk. cbn.
  destruct (heap_call _ _ _ _ _ _ Hsql Hc) as [Hv Ha].
  assert (ships (db w) (mkDB (meta (db w)) c')) as Hs by by apply shipped_same_views.
  split; [by eapply ships_kept|done].
Qed.
Lemma Stable_move_drained fq rel ctids :
  Cut "." fq = Some rel → rel ≠ source p → Stable drained (moveGroup (PSchema p) (DefaultTable p) fq cols ctids).
Proof.
  intros Hrel Hne. apply Stable_in_tx; [apply _|]. apply Stable_statement; [apply _|]. intros w a d'.
  destruct (pg_exec _ _ _) as [[n c']|] eqn:Hx; [|done]. cbn. intros [= <- <-] Hk. cbn.
  assert (ships (mkDB (meta (db w)) (catalog (db w))) (mkDB (meta (db w)) c')) as Hs by by eapply moves_ships.
  replace (mkDB (meta (db w)) (catalog (db w))) with (db w) in Hs by by destruct (db w).
  split; [by eapply ships_kept|done].
Qed.

Notation within := (within kept shipping).
Lemma within_later {A B} (m : M C A) (f : A → proc C B) :
  (∀ w o w', known (db w) → m w = (o, w') → later w w' ∧ ∀ a, o = Ret a → within (f a)) → within (atom m ≫= f).
Proof.
  intros Hm. apply within_atom_bind. intros w o w' Hw Hrun. destruct (Hm w o w' Hw Hrun) as [[Hd _] Hf].
  split_and!; [by rewrite Hd| |done]. unfold on_db. by rewrite Hd.
Qed.
Lemma within_drained {A} (q : proc C A) : obeys drained q → within q.
Proof. apply within_obeys. Qed.

Section loop.
Context (label : string) (o : Options.t).

Lemma drain_groups_within gs rep an :
  within (p_drain_groups (PSchema p) (DefaultTable p) label prow cols gs rep an).
Proof.
  revert rep an. induction gs as [|[k ctids] gs IH]; intros rep an; cbn [p_drain_groups]; [done|].
  apply within_later. intros w ot w' [_ Hn] (o1 & [Hl Ht]%(find_active_target prow.(Parent.ID)) & Ho)%attempt_inv.
  split; [done|]. intros r ->. destruct o1 as [row|e|]; [..|done]; injection Ho as ->.
  - destruct Ht as [Hin Hown Hdef _ _ _]. unfold Partition.owner in Hown. injection Hown as Hpid _.
    destruct (Hn row Hin Hpid Hdef) as (rel & Hrel & Hne).
    apply within_bind; [|intros [n|e]; [|done]].
    + apply within_drained, obeys_attempt, obeys_Do; [apply _|]. apply obeys_atom. by eapply Stable_move_drained.
    + apply within_bind; [|intros _; apply IH]. apply within_drained, obeys_atom. stable.
  - destruct (Is e NoRows); [apply IH|done].
Qed.
Context (interval : Z) (tenantCol : string).
Lemma within_atom {A B} (m : M C A) (f : A → proc C B) :
  Stable drained m → (∀ a, within (f a)) → within (atom m ≫= f).
Proof. intros Hm Hf. apply within_bind; [by apply within_drained, obeys_atom|done]. Qed.
Lemma drain_batches_within fuel i rep an :
  within (p_drain_batches (PSchema p) (DefaultTable p) label tenantCol prow cols interval o fuel i rep an).
Proof.
  revert i rep an. induction fuel as [|fuel IH]; intros i rep an; cbn [p_drain_batches]; [done|].
  destruct (negb _); [done|]. apply within_atom; [stable|intros [e|]; [done|]].
  apply within_atom; [unfold readBatch; stable|intros [[|br brs]|e]; [done| |done]]. cbv zeta.
  apply within_atom; [stable|intros _]. destruct (groupByBounds _ _) as [gs|e]; [|done].
  apply within_atom; [by apply Stable_range|intros gs']. apply within_bind; [apply drain_groups_within|].
  intros [[rep' an'] [e|]]; [done|apply IH].
Qed.
Lemma drain_within fuel :
  within (p_drain (PSchema p) (DefaultTable p) label tenantCol prow cols interval o fuel).
Proof.
  unfold p_drain. apply within_bind; [apply drain_batches_within|]. intros [[[rep an] [e|]]|]; [done| |done].
  apply within_atom; [unfold appendNullAnomalies; stable|]. intros [rep' [e|]]; [done|]. cbv zeta.
  apply within_bind; [|intros _; by apply within_atom; [stable|]].
  destruct (0 <? _); [|done]. apply within_drained, obeys_atom. stable.
Qed.
End loop.

Lemma PartitionData_within fuel : within (p_PartitionData fuel ref opts).
Proof.
  unfold p_PartitionData. cbv zeta. apply within_atom; [stable|intros start].
  apply within_deferring; [by apply within_drained; obey|].
  apply within_atom; [stable|intros [conn|e]; [|done]].
  apply within_atom; [unfold TryLock; stable; apply Stable_lock_drained; auto|intros [[]|e]; [|done..]].
  apply within_deferring.
  { apply within_drained, obeys_atom. unfold release, Unlock. stable. apply Stable_lock_drained. auto. }
  unfold p_partition_locked. cbv zeta. apply within_later. intros w r w' [Hp _] Hrun.
  pose proof Hrun as (_ & r1 & -> & Hr)%get_parent_attempt.
  split; [by eapply (Stable_attempt later); [|exact Hrun]; apply Stable_meta_read, _|]. intros a [= <-].
  destruct r1 as [row|e]; [|done]. rewrite Hp in Hr. injection Hr as <-.
  destruct (intervalFromLabel _) as [interval|e]; [|done].
  apply within_later. intros w1 cs w2 _ Hrun1.
  apply (looks_attempt _ _ (looks_columns ref prow opts cols _ eq_refl)) in Hrun1 as [Hl Hcs]. split; [done|]. intros a ->.
  destruct a as [cs|e]; [|done]. rewrite (Hcs _ eq_refl). destruct (bool_decide _); [done|].
  apply within_atom; [unfold assertDefaultExists; stable|intros [u|e]; [|done]]. apply drain_within.
Qed.
End writers.

(** C29: drains next to anybody.  Any number of drains of one parent, next to any
    calls whatever of others, in any order of their atoms and whatever fails:
    if the others leave the parent registered as it is and give none of its
    partitions the name of its default, every atom of a drain, however stale the
    ctids that it read, changes no metadata, and moves rows of the default
    partition, if any, each to one table whose partition constraint admits it,
    equal on every column that is not generated; no other row of any table
    comes or goes. *)
Theorem drain_beside_writers {C} {E : Env C} {HE : EnvLaws E} ref prow opts cols
    {HH : Heap E (ParentRef.TableName ref) (drain_params ref prow opts) cols}
    {HG : HeapGuards E (ParentRef.TableName ref) (drain_params ref prow opts) cols} n fuel others l w0 i s1 s2 :
  (∀ j q, others !! j = Some q → within (λ w, known ref prow opts (db w)) (λ _ _, True) q) →
  known ref prow opts (db w0) →
  runs l (w0, (replicate n (p_PartitionData fuel ref opts) ++ others)%list) = Some s1 →
  (i < n)%nat → turn i s1 = Some s2 →
  ∃ ms, shipped ref prow opts cols ms (db s1.1) (db s2.1).
Proof.
  intros Hothers Hw Hl Hi Ht.
  set (G (j : nat) := if (j <? n)%nat then on_db (ships ref prow opts cols) else λ _ _, True).
  destruct (runs_within (λ w, known ref prow opts (db w)) l G _ s1 Hl Hw) as [Hw1 Hs1].
  - intros j q Hj. unfold G. cbn [fst snd] in *. apply lookup_app_Some in Hj as [Hj|[Hlen Hj]].
    + apply lookup_replicate in Hj as [-> Hj]. rewrite (proj2 (Nat.ltb_lt j n) Hj). by apply PartitionData_within.
    + rewrite length_replicate in Hlen, Hj. rewrite (proj2 (Nat.ltb_ge j n) Hlen). by eapply Hothers.
  - destruct (turn_within (λ w, known ref prow opts (db w)) i G s1 s2 Ht Hw1 Hs1) as (_ & Hship & _).
    unfold G in Hship. by rewrite (proj2 (Nat.ltb_lt i n) Hi) in Hship.
Qed.

(** ** Examples *)

(** A heap that checks the constraint of acme's partition. *)
Definition admitted (rel : string * string) (r : heap_row) : bool :=
  if bool_decide (rel = ("app", "events_ACME_20260615")) then
    match col r "org", col r "created_at" with
    | VText s, VTime t => bool_decide (s = "acme") && (unix_ns june_15 <=? unix_ns t) && (unix_ns t <? unix_ns june_16)
    | _, _ => false
    end
  else true.
Definition guarded_exec (sql : string) (args : list value) (c : tables) : res (Z * tables) :=
  match heap_exec by_two (E := heap_base) sql args c with
  | Ok (n, c') => if forallb (λ e : (string * string) * list heap_row, forallb (admitted e.1) e.2) c' then Ok (n, c')
                  else Err (PgError "23514")
  | Err e => Err e
  end.
Definition guarded_env : Env tables := {|
  pg_exec := guarded_exec;
  pg_query := heap_query by_two (E := heap_base);
  pg_call _ sql args c := Ok ([VBool true], c);
  Sanitize ids := Join "." ids; env_fault := no_fault; env_session _ := O; env_now _ := noon; env_ctx _ := None;
  env_ulid := unary_id; env_rand _ := 0%Q; env_scan _ _ l := l;
  env_collate a b := match String.compare a b with Gt => false | _ => true end; env_zone := 0
|}.
#[export] Instance guarded_laws : EnvLaws guarded_env.
Proof. by split. Qed.
Lemma guarded_exec_Ok sql args c n c' :
  guarded_exec sql args c = Ok (n, c') →
  pg_exec (Env := heap_env by_two no_fault) sql args c = Ok (n, c') ∧
  ∀ rel rows r, (rel, rows) ∈ c' → r ∈ rows → admitted rel r = true.
Proof.
  unfold guarded_exec. cbn [pg_exec heap_env]. destruct (heap_exec _ _ _ _) as [[n1 c1]|]; [|done].
  destruct (forallb _ c1) eqn:Hf; [|done]. intros [= <- <-]. split; [done|]. intros rel rows r Hin Hr.
  rewrite forallb_forall in Hf. apply list_elem_of_In, Hf in Hin. cbn in Hin. rewrite forallb_forall in Hin.
  by apply Hin, list_elem_of_In.
Qed.
Lemma rows_of_in rel c rows : DrainScenario.rows_of rel c = Some rows → (rel, rows) ∈ c.
Proof.
  induction c as [|[rel' rows'] c IH]; [done|]. cbn. case_bool_decide as Hr; [intros [= ->]; subst; by left|].
  intros Hrows. right. by apply IH.
Qed.

#[export] Instance guarded_heap : Heap guarded_env "events" (events_params by_two) event_columns.
Proof.
  set (H0 := heap_env_heap by_two no_fault).
  refine {| view := view_of by_two; admits _ rel r := admitted rel r = true |}.
  - exact (@heap_ctids _ _ _ _ _ H0).
  - exact (@heap_typed _ _ _ _ _ H0).
  - exact (@heap_columns _ _ _ _ _ H0).
  - exact (@heap_select _ _ _ _ _ H0).
  - exact (@heap_count _ _ _ _ _ H0).
  - intros c fq dst ctids n c' Hc Hne [Hx _]%guarded_exec_Ok. split; [|done].
    by destruct (@heap_move _ _ _ _ _ H0 c fq dst ctids n c' Hc Hne Hx).
  - intros s sql args c row c' _ [= _ <-]. done.
Defined.
#[export] Instance guarded_guards : HeapGuards guarded_env "events" (events_params by_two) event_columns.
Proof.
  split. intros c fq dst ctids n c' t t' new Hc Hne [_ Hadm]%guarded_exec_Ok _ Ht' Hp.
  apply view_of_inv, rows_of_in in Ht'. apply Forall_forall. intros r Hr. apply (Hadm dst t' r Ht').
  rewrite Hp. apply elem_of_app. by right.
Qed.

(** A client that rewrites the default partition in one statement. *)
Definition rewriting (rows : list heap_row) : M tables (option (Report * option error)) :=
  λ w, (Ret None, set_db (mkDB (meta (db w)) (set_rows ("app", "events_default") rows (catalog (db w)))) w).
(** ctid 1 names another row of [org]; ctid 3 names none. *)
Definition rewritten (org : string) : list heap_row :=
  [mkHeapRow 1 (λ c, if bool_decide (c = "id") then VInt 7 else col (event_row 1 (VText org) (VTime noon)) c);
   event_row 2 (VText "beta") (VTime noon)].
Notation writing org := (stock mixed_rows,
  (replicate 1 (p_PartitionData (E := guarded_env) 10 app_events by_two) ++ [atom (rewriting (rewritten org))])%list).
(** The drain has read the batch and is about to move ctid 1. *)
Notation stale := (repeat 0%nat 19 ++ [1%nat])%list.
Definition ids (w : World tables) : list (list value) := map (λ r, col r "id") <$> (catalog (db w)).*2.

Lemma rewriting_known org :
  within (λ w, known (C := tables) app_events tenanted_events by_two (db w)) (λ _ _, True) (atom (rewriting (rewritten org))).
Proof. intros w o w' Hw [= <- <-]. done. Qed.
Lemma stock_known : known (C := tables) app_events tenanted_events by_two (db (stock mixed_rows)).
Proof. split; [by vm_compute|exact stock_apart]. Qed.

(** The row that came under ctid 1 is moved in place of the one that was read,
    if it fits; otherwise the move fails. *)
Lemma drain_beside_writers_witness :
  match runs stale (writing "acme") with
  | Some s1 => match turn 0 s1 with
    | Some s2 => ids s1.1 = [[VInt 7; VInt 2]; [VInt 3]] ∧ ids s2.1 = [[VInt 2]; [VInt 3; VInt 7]] ∧
        ∃ ms, shipped (E := guarded_env) app_events tenanted_events by_two event_columns ms (db s1.1) (db s2.1)
    | None => False
    end
  | None => False
  end.
Proof.
  assert (match runs stale (writing "acme") with
    | Some s1 => match turn 0 s1 with
      | Some s2 => bool_decide (ids s1.1 = [[VInt 7; VInt 2]; [VInt 3]]) && bool_decide (ids s2.1 = [[VInt 2]; [VInt 3; VInt 7]])
      | None => false end
    | None => false end = true) as Hs by (vm_compute; reflexivity).
  destruct (runs stale (writing "acme")) as [s1|] eqn:H1; [|discriminate Hs].
  destruct (turn 0 s1) as [s2|] eqn:H2; [|discriminate Hs].
  apply andb_true_iff in Hs as [Hi1%bool_decide_eq_true Hi2%bool_decide_eq_true]. split_and!; [exact Hi1|exact Hi2|].
  refine (drain_beside_writers (E := guarded_env) app_events tenanted_events by_two event_columns 1 10
    [atom (rewriting (rewritten "acme"))] _ (stock mixed_rows) 0 s1 s2 _ stock_known H1 _ H2); [|lia].
  intros [|j] q; [|done]. intros [= <-]. apply rewriting_known.
Defined.
Example stale_misfit :
  match runs (stale ++ repeat 0%nat 4) (writing "beta") with
  | Some s => ids s.1 = [[VInt 7; VInt 2]; [VInt 3]] ∧
      s.2 = [Done (Ret (Some (mkReport [] 1 2, Some (Wrap "drain: move group: %w" (PgError "23514"))))); Done (Ret None)]
  | None => False
  end.
Proof. vm_compute. done. Qed.
