(* ===== verification/Migrations.v ===== *)
(** * Migrations ([migrations.go])

    The embedded SQL files in ascending order of the version in their names.
    The file system is a list of entries; [embedded] is the one of the
    repository, with the texts of its files. *)

From S2P Require Import Prelude GoTime GoStrings Errs.
From stdpp Require Import sorting.
Local Open Scope string_scope.
Local Open Scope Z_scope.

Record Migration := mkMigration { MName : string; SQL : string; Version : Z }.
(** An entry of the directory. *)
Record entry := mkEntry { e_name : string; e_dir : bool; e_body : string }.

(** [migrationFS]: the files under [migrations]. *)
Definition embedded : list entry :=
  [
   mkEntry "0001_init.sql" false
"create schema if not exists partman;

CREATE TABLE IF NOT EXISTS partman.parent_tables
(
    id                 VARCHAR PRIMARY KEY,
    schema_name        VARCHAR NOT NULL,
    table_name         VARCHAR NOT NULL,
    tenant_column      VARCHAR,
    partition_by       VARCHAR NOT NULL,
    partition_type     VARCHAR NOT NULL,
    partition_interval VARCHAR NOT NULL,
    partition_count    INT     NOT NULL DEFAULT 10,
    retention_period   VARCHAR NOT NULL,
    created_at         timestamptz      DEFAULT CURRENT_TIMESTAMP,
    updated_at         timestamptz      DEFAULT CURRENT_TIMESTAMP,
    UNIQUE (schema_name, table_name)
);

CREATE TABLE IF NOT EXISTS partman.tenants
(
    id              VARCHAR NOT NULL,
    parent_table_id VARCHAR NOT NULL,
    created_at      timestamptz DEFAULT CURRENT_TIMESTAMP,
    PRIMARY KEY (parent_table_id, id),
    FOREIGN KEY (parent_table_id)
        REFERENCES partman.parent_tables (id) ON DELETE CASCADE,
    UNIQUE (parent_table_id, id)
);

CREATE TABLE IF NOT EXISTS partman.partitions
(
    id                    VARCHAR PRIMARY KEY,
    name                  VARCHAR     NOT NULL unique,
    parent_table_id       VARCHAR     NOT NULL,
    tenant_id             VARCHAR,
    partition_by          VARCHAR     NOT NULL,
    partition_type        VARCHAR     NOT NULL,
    partition_bounds_from TIMESTAMPTZ NOT NULL,
    partition_bounds_to   TIMESTAMPTZ NOT NULL,
    created_at            TIMESTAMPTZ DEFAULT CURRENT_TIMESTAMP,
    updated_at            TIMESTAMPTZ DEFAULT CURRENT_TIMESTAMP,
    FOREIGN KEY (parent_table_id)
        REFERENCES partman.parent_tables (id) ON DELETE CASCADE,
    FOREIGN KEY (parent_table_id, tenant_id)
        REFERENCES partman.tenants (parent_table_id, id) ON DELETE CASCADE,
    UNIQUE (parent_table_id, tenant_id, partition_bounds_from, partition_bounds_to)
);
";
   mkEntry "0002_add_premake_and_retention_columns.sql" false
"ALTER TABLE partman.parent_tables
    ADD COLUMN IF NOT EXISTS premake               INT     NOT NULL DEFAULT 4,
    ADD COLUMN IF NOT EXISTS retention_keep_table  BOOLEAN NOT NULL DEFAULT false,
    ADD COLUMN IF NOT EXISTS retention_schema      VARCHAR,
    ADD COLUMN IF NOT EXISTS automatic_maintenance BOOLEAN NOT NULL DEFAULT true;
";
   mkEntry "0003_add_is_default_and_status.sql" false
"ALTER TABLE partman.partitions
    ADD COLUMN IF NOT EXISTS is_default BOOLEAN NOT NULL DEFAULT false,
    ADD COLUMN IF NOT EXISTS status     VARCHAR NOT NULL DEFAULT 'active'
        CHECK (status IN ('active', 'detached', 'dropped'));

CREATE UNIQUE INDEX IF NOT EXISTS partman_default_partition_unique
    ON partman.partitions (parent_table_id, tenant_id)
    NULLS NOT DISTINCT
    WHERE is_default = true;
";
   mkEntry "0004_add_validate_tenant_trigger.sql" false
"CREATE OR REPLACE FUNCTION partman.validate_tenant_id() RETURNS TRIGGER AS
$$
BEGIN
    IF NEW.tenant_id IS NOT NULL THEN
        IF NOT EXISTS (SELECT 1
                       FROM partman.tenants
                       WHERE parent_table_id = NEW.parent_table_id
                         AND id = NEW.tenant_id) THEN
            RAISE EXCEPTION 'Tenant % does not exist for parent table %',
                NEW.tenant_id, NEW.parent_table_id;
        END IF;
    END IF;
    RETURN NEW;
END;
$$ LANGUAGE plpgsql;

DROP TRIGGER IF EXISTS validate_tenant_id_trigger ON partman.partitions;

CREATE TRIGGER validate_tenant_id_trigger
    BEFORE INSERT
    ON partman.partitions
    FOR EACH ROW
EXECUTE FUNCTION partman.validate_tenant_id();
";
   mkEntry "0005_change_retention_period_to_interval.sql" false
"-- Any pre-existing retention_period values must be Postgres-INTERVAL-parseable
-- (e.g. '7 days', '30 days'). Non-parseable strings fail the ALTER.
ALTER TABLE partman.parent_tables
    ALTER COLUMN retention_period TYPE INTERVAL USING retention_period::interval;
";
   mkEntry "0006_drop_partition_count.sql" false
"ALTER TABLE partman.parent_tables
    DROP COLUMN IF EXISTS partition_count;
"].

(** [strconv.Atoi]: a sign, then digits, within 64 bits. *)
Definition Atoi (s : string) : option Z :=
  let in_range z := if (int64_min <=? z) && (z <=? int64_max) then Some z else None in
  match s with
  | String "-" s' => if bool_decide (s' = "") then None else z ← digits_value 0 s'; in_range (- z)
  | String "+" s' => if bool_decide (s' = "") then None else z ← digits_value 0 s'; in_range z
  | "" => None
  | _ => z ← digits_value 0 s; in_range z
  end.

(** [strings.HasSuffix] and [strings.TrimSuffix]. *)
Fixpoint CutSuffix (suffix s : string) : option string :=
  if bool_decide (s = suffix) then Some ""
  else match s with
       | "" => None
       | String c s' => String c <$> CutSuffix suffix s'
       end.
Definition HasSuffix (s suffix : string) : bool := bool_decide (is_Some (CutSuffix suffix s)).
Definition TrimSuffix (s suffix : string) : string := default s (CutSuffix suffix s).

Definition parseMigrationFilename (filename : string) : res (Z * string) :=
  let base := TrimSuffix filename ".sql" in
  match Cut "_" base with
  | None | Some ("", _) => Err (Msg "migration %q: expected NNNN_name.sql")
  | Some (digits, label) =>
      match Atoi digits with
      | None => Err (Wrap "migration %q: version: %w" (Msg "invalid syntax"))
      | Some version => Ok (version, label)
      end
  end.

(** The loop of [Migrations]; [None] is its panic. *)
Fixpoint read_entries (entries : list entry) : option (list Migration) :=
  match entries with
  | [] => Some []
  | e :: entries =>
      if e_dir e || negb (HasSuffix (e_name e) ".sql") then read_entries entries
      else match parseMigrationFilename (e_name e) with
           | Err _ => None
           | Ok (version, label) => out ← read_entries entries; Some (mkMigration label (e_body e) version :: out)
           end
  end.
Definition by_version (a b : Migration) : Prop := Version a <= Version b.
#[export] Instance by_version_dec : RelDecision by_version.
Proof. unfold by_version. intros a b. apply _. Defined.
Definition Migrations (entries : list entry) : option (list Migration) :=
  out ← read_entries entries; Some (merge_sort by_version out).

(** ** File names *)

Lemma CutSuffix_app suffix s : CutSuffix suffix (s +:+ suffix) = Some s.
Proof.
  induction s as [|c s IH]; cbn [String.append].
  - destruct suffix; cbn; by rewrite bool_decide_true.
  - cbn [CutSuffix]. rewrite bool_decide_false; [by rewrite IH|].
    intros H%(f_equal String.length). cbn in H. rewrite length_app_string in H. lia.
Qed.
Lemma CutSuffix_Some suffix s t : CutSuffix suffix s = Some t → s = t +:+ suffix.
Proof.
  revert t. induction s as [|c s IH]; intros t; cbn; case_bool_decide as Hs; try done.
  - by intros [= <-].
  - by intros [= <-].
  - destruct (CutSuffix suffix s) as [u|] eqn:Hu; [|done]. intros [= <-]. cbn. by rewrite (IH u).
Qed.

Lemma digits_value_4 n : 0 <= n < 10000 → digits_value 0 (appendInt n 4) = Some n.
Proof.
  intros Hn. rewrite appendInt_4 by done. cbn [digits_value].
  rewrite !is_digit_chr, !code_chr by dlia. f_equal. dlia.
Qed.
Lemma Atoi_digit k s : 0 <= k < 10 → Atoi (String (chr (48 + k)) s) =
  (z ← digits_value 0 (String (chr (48 + k)) s); if (int64_min <=? z) && (z <=? int64_max) then Some z else None).
Proof.
  intros Hk. assert (k = 0 ∨ k = 1 ∨ k = 2 ∨ k = 3 ∨ k = 4 ∨ k = 5 ∨ k = 6 ∨ k = 7 ∨ k = 8 ∨ k = 9) as Hc by lia.
  by repeat (destruct Hc as [-> |Hc]; [done|]); subst k.
Qed.

(** The names of migrations are parsed as they are written: four digits, an
    underscore and any label give back the number and the label; a name whose
    part before the first underscore is empty or not a number is refused. *)
Theorem parseMigrationFilename_spec :
  (∀ n label, 0 <= n < 10000 →
     parseMigrationFilename (appendInt n 4 +:+ "_" +:+ label +:+ ".sql") = Ok (n, label)) ∧
  (∀ name version label, parseMigrationFilename name = Ok (version, label) →
     ∃ digits, TrimSuffix name ".sql" = digits +:+ "_" +:+ label ∧ Atoi digits = Some version ∧ digits ≠ "").
Proof.
  split.
  - intros n label Hn. unfold parseMigrationFilename, TrimSuffix.
    rewrite <- !app_string_assoc, CutSuffix_app. cbn [default from_option id].
    rewrite app_string_assoc. change ("_" +:+ label) with (String "_" label). rewrite Cut_app.
    + pose proof (digits_value_4 n Hn) as Hd. rewrite appendInt_4 in * by done. rewrite Atoi_digit, Hd by dlia.
      cbn. rewrite !(proj2 (Z.leb_le _ _)) by (unfold int64_min, int64_max; lia). done.
    + rewrite appendInt_4 by done. cbn [all_bytes].
      assert (∀ k, 0 <= k < 10 → negb (Ascii.eqb (chr (48 + k)) "_") = true) as Hk.
      { intros k Hk. apply is_upper_alnum_not_underscore, is_digit_upper_alnum, is_digit_chr, Hk. }
      rewrite !Hk by dlia. done.
  - intros name version label. unfold parseMigrationFilename.
    destruct (Cut "_" _) as [[digits l]|] eqn:Hc; [|done]. destruct digits as [|c digits]; [done|].
    destruct (Atoi _) as [v|] eqn:Ha; [|done]. intros [= <- <-]. apply Cut_Some in Hc as [Hc _].
    by exists (String c digits).
Qed.

(** ** The list *)

Definition is_migration (e : entry) : bool := negb (e_dir e) && HasSuffix (e_name e) ".sql".
Definition migration_of (e : entry) : option Migration :=
  match parseMigrationFilename (e_name e) with
  | Ok (version, label) => Some (mkMigration label (e_body e) version)
  | Err _ => None
  end.

Lemma read_entries_spec entries : read_entries entries = mapM migration_of (filter (λ e, is_migration e = true) entries).
Proof.
  induction entries as [|e entries IH]; [done|]. cbn [read_entries]. rewrite filter_cons.
  assert (is_migration e = negb (e_dir e || negb (HasSuffix (e_name e) ".sql"))) as Hm
    by (unfold is_migration; by rewrite negb_orb, negb_involutive).
  destruct (e_dir e || negb (HasSuffix (e_name e) ".sql")); cbn [negb] in Hm.
  - rewrite decide_False by congruence. exact IH.
  - rewrite decide_True by done. simpl. rewrite IH.
    change (migration_of e) with (match parseMigrationFilename (e_name e) with
      Ok (v, l) => Some (mkMigration l (e_body e) v) | Err _ => None end).
    by destruct (parseMigrationFilename (e_name e)) as [[v l]|].
Qed.
Lemma sorted_versions_unique l l' :
  NoDup (Version <$> l) → StronglySorted by_version l → StronglySorted by_version l' → l ≡ₚ l' → l = l'.
Proof.
  intros Hd Hl Hl' Hp. revert l' Hl' Hp. induction Hl as [|x l Hl IH Hx]; intros l' Hl' Hp.
  { by apply Permutation_nil in Hp as ->. }
  destruct l' as [|y l']; [by symmetry in Hp; apply Permutation_nil in Hp|]. apply StronglySorted_inv in Hl' as [Hl' Hy].
  apply NoDup_cons in Hd as [Hx' Hd].
  assert (x = y) as <-.
  { assert (x ∈ y :: l') as Hin by (rewrite <- Hp; by left).
    assert (y ∈ x :: l) as Hin' by (rewrite Hp; by left).
    apply elem_of_cons in Hin as [|Hin]; [done|]. apply elem_of_cons in Hin' as [|Hin']; [done|].
    rewrite Forall_forall in Hx, Hy. specialize (Hx y Hin'). specialize (Hy x Hin). unfold by_version in *.
    destruct Hx'. apply list_elem_of_fmap. exists y. split; [lia|done]. }
  f_equal. apply IH; [done..|]. by eapply Permutation_cons_inv.
Qed.

(** The migrations come in ascending order.  Unless a name does not parse,
    which panics, the result is the list of the [.sql] files, ascending in
    version; when no version occurs twice it is the only such list, so that
    it does not matter that [sort.Slice] is not stable. *)
Theorem Migrations_spec entries :
  match mapM migration_of (filter (λ e, is_migration e = true) entries) with
  | None => Migrations entries = None
  | Some ms =>
      ∃ l, Migrations entries = Some l ∧ l ≡ₚ ms ∧ StronglySorted by_version l ∧
        (NoDup (Version <$> ms) → ∀ l', l' ≡ₚ ms → StronglySorted by_version l' → l' = l)
  end.
Proof.
  unfold Migrations. rewrite read_entries_spec. destruct (mapM _ _) as [ms|]; [|done]. cbn.
  assert (StronglySorted by_version (merge_sort by_version ms)) as Hs.
  { apply StronglySorted_merge_sort; unfold by_version; [intros a b c; lia|intros a b; lia]. }
  eexists. split; [done|]. pose proof (merge_sort_Permutation by_version ms) as Hp. split_and!; [done..|].
  intros Hd l' Hl' Hs'. apply sorted_versions_unique; [by rewrite Hl'|done..|]. by rewrite Hl', Hp.
Qed.

Example embedded_in_order :
  option_map (fmap (λ m, (Version m, MName m))) (Migrations embedded) =
    Some [(1, "init"); (2, "add_premake_and_retention_columns"); (3, "add_is_default_and_status");
          (4, "add_validate_tenant_trigger"); (5, "change_retention_period_to_interval"); (6, "drop_partition_count")].
Proof. vm_compute. reflexivity. Qed.
